(* ===== verification/_CoqProject ===== *)
-Q . S2P
Prelude.v
Random.v
Machine.v
Sha1.v
Sha1Proof.v
Atomics.v
CatomicMsvc.v
CatomicMsvcProof.v
CatomicGcc.v
CatomicGccProof.v
Cthread.v
Datatype.v
MapSpec.v
LinkedList.v
SkipNodes.v
UnsafeSkiplist.v
Skiplist.v
Rcu.v
Carray.v
Cfifo.v
Clifo.v
Cmpool.v
MemAlloc.v
MemProof.v
Lwt.v
Hazard.v
Txn.v
TxnProof.v
Hashtable.v
HashChain.v
HashtableProof.v
HashtableIter.v
HashtableExamples.v
Map.v
Linearize.v
ListShape.v
ListGhost.v
ListLin.v
ListConcurrent.v
RcuPool.v
ListRcu.v
SkiplistRcu.v
Runtime.v
