(* ===== verification/Prelude.v ===== *)
(** * A verification of the ssr runtime: lock-free maps, queues and their memory

    ** The program

    The library under src/src offers concurrent containers and what they need to
    manage memory: a list, two skiplists and a hash table behind one map interface
    (map/), transactions on those maps (txn/), a bounded queue and a bounded stack
    (fifo/, lifo/), a pool of fixed-size blocks (manager/), and a runtime (runtime/)
    with a multi-threaded allocator, deferred reclamation by grace periods, hazard
    pointers and a random generator. The containers allocate with [nbd_malloc],
    retire nodes with [rcu_defer_free], hash and compare string keys through
    [datatype_t], and draw the height of skiplist nodes from [nbd_rand].

    ** The files

    - Prelude (this file): machine integers, the tag and mark macros of
      runtime/common.h and map/list.c, generic lemmas, tactics and hint databases.
    - Random: runtime/random.c.
    - Machine: the machine of the containers. A program ([prog]) is a tree of atomic
      memory operations; [run] executes it alone, [cstep] interleaves a pool of
      programs; [wp] and [wpo] are total correctness (the latter up to exhaustion of
      memory). The class [Allocator] is the promise of the allocator to its clients.
      Components without a heap of words use the error monad [res].
    - Datatype: datatype/nstring.c and murmur.h.
    - MapSpec: the contract of a map on finite maps: lookup, compare-and-swap,
      removal; and the weaker compare-and-swap of the list and the skiplist.
    - LinkedList: map/list.c. SkipNodes, UnsafeSkiplist, Skiplist: the node layout
      the skiplists share, map/unsafe_skiplist.c and map/skiplist.c.
    - Hashtable: map/hashtable.c, operation by operation. HashChain: the abstract state
      (a chain of tables, newest last) and what it stands for. HashtableProof: the
      operations refine the map, copying between tables included. HashtableIter:
      termination of the copying, and the iterator. HashtableExamples: concrete tables.
    - Map: map/map.c over the tables of operations in list.h, skiplist.h and
      hashtable.h. The class [MapLaws] is the interface that the four implementations
      are instances of and that the theorems on [map_set], [map_remove] ... use.
    - Linearize: overlapping calls of programs of the machine, with the freeing of
      retired blocks after a grace period, what it means that they are linearizable, and
      a rely-guarantee logic to prove it. ListShape, ListGhost,
      ListLin, ListConcurrent: the list of map/list.c under all interleavings (its
      shape while calls are under way; the invariant that relates memory and history;
      the calls, step by step; the theorems).
    - RcuPool: calls of a container and runtime/rcu.c together: a retired block goes to the
      queue of its thread, and rcu_update, between two calls, frees it in the memory of the
      calls. A container that is [Reclaimable] is safe there. ListRcu: the list is.
      SkiplistRcu: the skiplist is not.
    - Runtime: runtime/runtime.c, the start-up of threads, one after the other, at the same
      time, and while others run.
    - Rcu, Cfifo, Clifo: runtime/rcu.c, fifo/cfifo.c, lifo/clifo.c as step relations,
      one step per access to shared memory, for any number of threads.
    - Carray: the size of the arrays of common/carray.h, which queue and stack allocate.
    - Cmpool: manager/cmpool.c.
    - MemAlloc, MemProof: runtime/mem.c and its invariant.
    - Lwt: the trace rings of runtime/lwt.c. Hazard: runtime/hazard.c.
    - Txn, TxnProof: txn/txn.c and its isolation properties.
    - Atomics: a memory of bytes, programs of atomic accesses to it, and linearizability
      of threads that run such programs. CatomicMsvc, CatomicMsvcProof:
      common/catomic_msvc.h. CatomicGcc, CatomicGccProof: common/catomic.h and the
      replacements of <stdatomic.h> for GCC and Clang, which are instances of the
      interface [StubLaws]. Cthread: the locks of common/cthread.h over those macros.
    - Sha1, Sha1Proof: the SHA-1 of lifo/demo, against FIPS PUB 180-1 (Fips in Sha1Proof).

    Definitions carry the names of the C functions; a loop of the source is a
    Fixpoint named after the function, with the suffix _loop, _walk or the like.

    ** What is proved

    - The maps: each operation of the list, the two skiplists and the hash table,
      run by itself, returns what [MapSpec] says, keeps its data structure well formed
      (sorted and without duplicates; every level a sublist of the one below; every
      probe sequence intact), and frees or retires exactly the nodes that are no
      longer linked. Iterators return every entry once and leave the memory as it was.
      The hash table is covered while it is being copied from one table to the next:
      how it grows, the chunk that each [ht_cas] copies, the end of the copy after one
      call for each 8 entries, and the table that is unlinked and handed to rcu.c; an
      iterator holds a reference to its table while it lives.
    - The list under all interleavings of lookups, compare-and-swaps and removals, in which
      a retired node is freed, and its address used again, once the calls that ran when
      it was retired have returned: every history is linearizable to the same
      specification; no call touches memory that is not allocated, and every unlinked node
      is retired at most once; a call that begins in any reachable state and then
      runs alone returns.
    - Reclamation: in all interleavings, an object handed to [rcu_defer_free] is freed
      only by the thread that handed it in, in order, and only after every other
      thread has since been inside [rcu_update]; the queues hold exactly what has not
      been freed; a round of updates frees.
    - The list and rcu.c together: threads that call both run without a fault (but for a
      full queue or no memory), and the history of the list's calls is
      linearizable. With the skiplist an execution reads freed memory: an insertion that is
      overtaken by a removal links the node again after it was retired.
    - Start-up: threads that start one after the other have distinct indices, and rcu.c is
      in the state its theorems begin with. Threads that start at the same time may share
      an index; one that starts while another is in rcu_update breaks the list's safety;
      the last of 32 has no hazard pointers.
    - The locks: pushers and poppers enter in turn, one at a time, in two of the four
      builds; the spin lock excludes nobody.
    - Queue and stack: in all interleavings, one consumer pops what was pushed in
      order, each call returns what it has done (a pop the value it took, or NULL when
      the queue was empty at a moment of the call); no value is lost or duplicated by
      the stack; the sequential functions are runs of the step relation. Their elements lie in what is allocated, unless
      the number of bytes wraps.
    - The pool and the allocator: blocks are disjoint and in mapped memory, a block
      that is handed out was free, and freeing makes it available again; this
      is what [Allocator] assumes.
    - Hazard pointers: only unprotected objects are freed, each once.
    - Transactions: snapshot reads, reading one's own writes, first committer wins,
      visibility of what was committed, and what a commit does to the registered
      versions; and two histories in which the collection
      of old versions goes wrong.
    - The atomics headers: the operations perform the operation of C11 in exactly one of
      their accesses, whatever other threads do in between, and return when they run
      alone ([implements]); threads that call them are linearizable, at every moment of
      a run and with respect to the order of calls. This includes the loops of
      compare-and-swap and the assembly for 64-bit objects on IX86. For catomic_msvc.h
      it holds of the calls that [CatomicMsvcProof.valid] admits; the others (comparing
      and exchanging a bool, signed char from version 1928 on, truncated 64-bit
      operands) are shown to go wrong. For the GCC and Clang headers it holds of the
      functions they instantiate; some generic macros go wrong.
    - SHA-1: the in-place, unrolled transform is the compression function of the standard
      on machines of either byte order, and a message fed in pieces has its digest.
    - Findings are theorems on concrete states, next to the component they are about.

    ** Bounds, fuel and hypotheses

    Loops carry fuel; every theorem states how much is enough in terms of the state (the
    length of a list, the number of tables), and that the call then returns. The
    allocator's fuel [enough] exceeds the address space. Keys of the list and the
    skiplists lie in a window of 2^31 ([key_window]), because the code compares
    them through an [int]; values are positive 64-bit integers. [rand_ok] says
    that the random word has a bit set (the count of trailing zeros is undefined on
    0); [Hlimit] that a block has at most 2^28 words, so that the scale of a table
    does not overflow. [mmap] and the addresses of new blocks are parameters.

    ** Not modelled

    - Calls of the skiplists and the hash table are proved correct one after the other;
      their programs can be interleaved by [reach] and [work], but linearizability is
      proved for the list only, without its iterators. Calls of the
      allocator, hazard pointers and transactions are atomic in their models.
    - Refinement of the maps is for integer keys (a null [key_type]); the branches for
      string keys are in the definitions.
    - The statistic [ht->density], the [*_print] functions and TRACE; the key argument
      of [ht_iter_begin], which the code ignores.
    - The theorems on rcu.c are about threads that are all initialised before the first
      call, because Runtime shows that they fail otherwise.
    - The file that a dump of the traces is written to; runtime/mem2.c (which does not
      compile and is not built) and mem_class_calc.c, which prints its size classes;
      the demos (apart from SHA-1) and the tests.
    - The memory orders of the atomics headers: all accesses are sequentially
      consistent, so that their fences do nothing. The builtins and intrinsics of the
      compilers are single accesses; the macros of atomic_stub.h, which is not in the
      repository, are arguments.
    - The builds NBD_SINGLE_THREADED, NBD32, RECYCLE_PAGES, USE_SYSTEM_MALLOC and
      LIST_USE_HAZARD_POINTER. *)
From Stdlib Require Export ZArith Lia Btauto.
From stdpp Require Export sorting.
From stdpp Require Export base tactics gmap option list_relations list.

#[global] Set Default Goal Selector "!".
#[export] Set Default Proof Using "Type".

Declare Scope ssr_scope.
Delimit Scope ssr_scope with ssr.

Open Scope Z_scope.

(** * Machine integers

    A w-bit unsigned value is a [Z] in [0, 2^w); the conversions below are the
    wrap-around C performs when a value is stored in a variable of that type. *)

Definition u8 (z : Z) : Z := z mod 2 ^ 8.

Definition u16 (z : Z) : Z := z mod 2 ^ 16.

Definition u32 (z : Z) : Z := z mod 2 ^ 32.

Definition u64 (z : Z) : Z := z mod 2 ^ 64.

(** Conversion to [int] (two's complement, 32 bits). *)
Definition s32 (z : Z) : Z := (z + 2 ^ 31) mod 2 ^ 32 - 2 ^ 31.

(** Conversion to [int64_t] (two's complement, 64 bits). *)
Definition s64 (z : Z) : Z := (z + 2 ^ 63) mod 2 ^ 64 - 2 ^ 63.

Notation in_u32 z := (0 <= z < 2 ^ 32).
Notation in_u64 z := (0 <= z < 2 ^ 64).

(** [lia] after unfolding the conversions and replacing [/] and [mod]. *)
Ltac zlia :=
  unfold u8, u16, u32, u64, s32, s64 in *;
  Z.to_euclidean_division_equations; lia.

Create HintDb ssr discriminated.
Create Rewrite HintDb ssr_simpl.

Lemma u64_range z : in_u64 (u64 z).
Proof. unfold u64. apply Z.mod_pos_bound. lia. Qed.

Lemma u32_range z : in_u32 (u32 z).
Proof. unfold u32. apply Z.mod_pos_bound. lia. Qed.

Lemma u32_add_l a b : u32 (u32 a + b) = u32 (a + b).
Proof. apply Z.add_mod_idemp_l. lia. Qed.

Lemma u64_add_l a b : u64 (u64 a + b) = u64 (a + b).
Proof. apply Z.add_mod_idemp_l. lia. Qed.

Lemma u64_small z : in_u64 z -> u64 z = z.
Proof. intros. unfold u64. by apply Z.mod_small. Qed.

Lemma u32_small z : in_u32 z -> u32 z = z.
Proof. intros. unfold u32. by apply Z.mod_small. Qed.

Lemma s32_range z : - 2 ^ 31 <= s32 z < 2 ^ 31.
Proof. unfold s32. pose proof (Z.mod_pos_bound (z + 2 ^ 31) (2 ^ 32)). lia. Qed.

Lemma s32_small z : - 2 ^ 31 <= z < 2 ^ 31 -> s32 z = z.
Proof. intros. unfold s32. rewrite Z.mod_small; lia. Qed.

Lemma s64_small z : - 2 ^ 63 <= z < 2 ^ 63 -> s64 z = z.
Proof. intros. unfold s64. rewrite Z.mod_small; lia. Qed.

(** The 32-bit truncation of a 64-bit difference is the difference itself when
    the operands are less than 2^31 apart. *)
Lemma s32_u64_sub a b : - 2 ^ 31 <= a - b < 2 ^ 31 -> s32 (u64 (a - b)) = a - b.
Proof. intros. zlia. Qed.

Lemma s32_u32_sub a b : - 2 ^ 31 <= a - b < 2 ^ 31 -> s32 (u32 (a - b)) = a - b.
Proof. intros. zlia. Qed.

#[export] Hint Resolve u64_range u32_range : ssr.

(** * Tagged words ([runtime/common.h]) *)

Definition TAG1 : Z := 2 ^ 63.

Definition TAG2 : Z := 2 ^ 62.

Definition TAG_VALUE (v tag : Z) : Z := Z.lor v tag.

Definition IS_TAGGED (v tag : Z) : Z := Z.land v tag.

Definition STRIP_TAG (v tag : Z) : Z := Z.land (u64 v) (u64 (Z.lnot tag)).

Definition MASK (n : Z) : Z := u64 (Z.shiftl 1 n - 1).

Definition DOES_NOT_EXIST : Z := 0.

Definition ERROR_TXN_NOT_RUNNING : Z := u64 (-4).

Lemma land_small_ones x n : 0 <= n -> 0 <= x < 2 ^ n -> Z.land x (2 ^ n - 1) = x.
Proof.
  intros. replace (2 ^ n - 1) with (Z.ones n) by (rewrite Z.ones_equiv; lia).
  rewrite Z.land_ones by lia. by apply Z.mod_small.
Qed.

Lemma testbit_high x n i : 0 <= x < 2 ^ n -> 0 <= n <= i -> Z.testbit x i = false.
Proof.
  intros Hx Hi. destruct (Z.eq_dec x 0) as [->|]; [apply Z.testbit_0_l|].
  apply Z.bits_above_log2; [lia|]. apply Z.log2_lt_pow2; [lia|].
  apply Z.lt_le_trans with (2 ^ n); [lia|]. apply Z.pow_le_mono_r; lia.
Qed.

(** A single tag bit: testing, setting and stripping it. *)
Section tag_bit.
Context (v n : Z).
Context (Hv : in_u64 v) (Hn : 0 <= n < 64).

Lemma testbit_pow2 i : 0 <= i -> Z.testbit (2 ^ n) i = bool_decide (i = n).
Proof using Hn.
  intros. rewrite Z.pow2_bits_eqb by lia.
  case_bool_decide as E; [subst; apply Z.eqb_refl|]. apply Z.eqb_neq. lia.
Qed.

Lemma testbit_u64 z i : 0 <= i -> Z.testbit (u64 z) i = Z.testbit z i && (i <? 64).
Proof using Type.
  intros. unfold u64. destruct (Z.ltb_spec i 64).
  - rewrite Z.mod_pow2_bits_low by lia. by rewrite andb_true_r.
  - rewrite Z.mod_pow2_bits_high by lia. by rewrite andb_false_r.
Qed.

Lemma IS_TAGGED_bit : IS_TAGGED v (2 ^ n) = if Z.testbit v n then 2 ^ n else 0.
Proof using Hn.
  unfold IS_TAGGED. apply Z.bits_inj'. intros i Hi.
  rewrite Z.land_spec, testbit_pow2 by lia. case_bool_decide as E.
  - subst. destruct (Z.testbit v n) eqn:?.
    + rewrite testbit_pow2 by lia. by rewrite bool_decide_true.
    + by rewrite Z.testbit_0_l.
  - rewrite andb_false_r. destruct (Z.testbit v n).
    + rewrite testbit_pow2 by lia. by rewrite bool_decide_false.
    + by rewrite Z.testbit_0_l.
Qed.

Lemma testbit_STRIP_TAG i :
  0 <= i -> Z.testbit (STRIP_TAG v (2 ^ n)) i = Z.testbit v i && bool_decide (i <> n).
Proof using Hn Hv.
  intros. unfold STRIP_TAG. rewrite Z.land_spec, u64_small by done.
  rewrite testbit_u64, Z.lnot_spec, testbit_pow2 by lia.
  destruct (Z.ltb_spec i 64).
  - rewrite andb_true_r. repeat case_bool_decide; simpl; try done; lia.
  - by rewrite (testbit_high v 64) by lia.
Qed.

Lemma testbit_TAG_VALUE i :
  0 <= i -> Z.testbit (TAG_VALUE v (2 ^ n)) i = Z.testbit v i || bool_decide (i = n).
Proof using Hn. intros. unfold TAG_VALUE. by rewrite Z.lor_spec, testbit_pow2 by lia. Qed.

Lemma TAG_VALUE_untagged : Z.testbit v n = false -> TAG_VALUE v (2 ^ n) = v + 2 ^ n.
Proof using Hn.
  intros Hb. unfold TAG_VALUE. rewrite <- Z.add_lor_land.
  enough (Z.land v (2 ^ n) = 0) as -> by lia.
  apply Z.bits_inj'. intros i Hi. rewrite Z.land_spec, testbit_pow2, Z.testbit_0_l by lia.
  case_bool_decide; [subst; by rewrite Hb|]. by rewrite andb_false_r.
Qed.

Lemma STRIP_TAG_untagged : Z.testbit v n = false -> STRIP_TAG v (2 ^ n) = v.
Proof using Hn Hv.
  intros Hb. apply Z.bits_inj'. intros i Hi. rewrite testbit_STRIP_TAG by lia.
  case_bool_decide as E; [by rewrite andb_true_r|]. rewrite andb_false_r.
  assert (i = n) as -> by (destruct (Z.eq_dec i n); tauto). by rewrite Hb.
Qed.
End tag_bit.

(** * Markable pointers ([map/list.c], [map/skiplist.c])

    Marking the [next] field of a node logically removes the node; the mark is
    the low-order bit of the link word. *)

Definition MARK_NODE (x : Z) : Z := TAG_VALUE x 1.

Definition HAS_MARK (x : Z) : bool := IS_TAGGED x 1 =? 1.

Definition GET_NODE (x : Z) : Z := x.

Definition STRIP_MARK (x : Z) : Z := STRIP_TAG x 1.

(** A node address: non-null, inside the 48-bit address space, 8-byte aligned. *)
Definition node_ptr (p : Z) : Prop := 0 < p < 2 ^ 48 /\ p mod 8 = 0.

(** The link word that points to [q] and carries the mark [b]. *)
Definition link (q : Z) (b : bool) : Z := q + Z.b2z b.

Lemma node_ptr_bit0 p : p = 0 \/ node_ptr p -> Z.testbit p 0 = false.
Proof.
  intros [->|[? H]]; [done|]. rewrite Z.bit0_odd, <- Z.negb_even.
  apply negb_false_iff, Z.even_spec. exists (p / 2). zlia.
Qed.

Section links.
Context (q : Z) (Hq : q = 0 \/ node_ptr q).

Lemma link_range b : in_u64 (link q b).
Proof using Hq. unfold link. destruct b, Hq as [->|[??]]; simpl; lia. Qed.

Lemma link_bit0 b : Z.testbit (link q b) 0 = b.
Proof using Hq.
  unfold link. rewrite Z.bit0_odd. pose proof (node_ptr_bit0 q Hq) as H.
  rewrite Z.bit0_odd in H. destruct b; simpl; rewrite Z.odd_add, H; done.
Qed.

Lemma HAS_MARK_link b : HAS_MARK (link q b) = b.
Proof using Hq.
  unfold HAS_MARK. rewrite (IS_TAGGED_bit _ 0), link_bit0 by lia. by destruct b.
Qed.

Lemma STRIP_MARK_link b : STRIP_MARK (link q b) = q.
Proof using Hq.
  unfold STRIP_MARK. change 1 with (2 ^ 0). apply Z.bits_inj'. intros i Hi.
  pose proof (link_range b). rewrite testbit_STRIP_TAG by lia. case_bool_decide as E.
  - rewrite andb_true_r. unfold link. destruct b; [|by rewrite Z.add_0_r].
    change (q + Z.b2z true) with (q + 2 ^ 0).
    rewrite <- TAG_VALUE_untagged by (by try lia; apply node_ptr_bit0).
    rewrite testbit_TAG_VALUE, bool_decide_false, orb_false_r by lia. done.
  - rewrite andb_false_r. assert (i = 0) as -> by (destruct (Z.eq_dec i 0); tauto).
    symmetry. by apply node_ptr_bit0.
Qed.

Lemma MARK_NODE_link b : MARK_NODE (link q b) = link q true.
Proof using Hq.
  unfold MARK_NODE. change 1 with (2 ^ 0). destruct b.
  - apply Z.bits_inj'. intros i Hi. rewrite testbit_TAG_VALUE by lia.
    case_bool_decide; [subst|by rewrite orb_false_r]. by rewrite link_bit0, orb_true_r.
  - unfold link; simpl. rewrite Z.add_0_r. rewrite TAG_VALUE_untagged; [done|lia|].
    by apply node_ptr_bit0.
Qed.

Lemma MARK_NODE_ptr : MARK_NODE q = link q true.
Proof using Hq.
  unfold MARK_NODE. change 1 with (2 ^ 0).
  rewrite TAG_VALUE_untagged; [done|lia|by apply node_ptr_bit0].
Qed.

Lemma link_false : link q false = q.
Proof using Type. unfold link; simpl; lia. Qed.

Lemma HAS_MARK_ptr : HAS_MARK q = false.
Proof using Hq.
  unfold HAS_MARK. rewrite (IS_TAGGED_bit _ 0) by lia.
  by rewrite node_ptr_bit0.
Qed.

Lemma STRIP_MARK_ptr : STRIP_MARK q = q.
Proof using Hq.
  unfold STRIP_MARK. change 1 with (2 ^ 0). apply STRIP_TAG_untagged; [|lia|].
  - destruct Hq as [->|[??]]; lia.
  - by apply node_ptr_bit0.
Qed.
End links.

Lemma link_inj q1 q2 b1 b2 :
  q1 = 0 \/ node_ptr q1 -> q2 = 0 \/ node_ptr q2 -> link q1 b1 = link q2 b2 -> q1 = q2 /\ b1 = b2.
Proof.
  intros H1 H2 E. split.
  - by rewrite <- (STRIP_MARK_link q1 H1 b1), E, STRIP_MARK_link.
  - by rewrite <- (HAS_MARK_link q1 H1 b1), E, HAS_MARK_link.
Qed.

#[export] Hint Rewrite HAS_MARK_link STRIP_MARK_link MARK_NODE_link
  HAS_MARK_ptr STRIP_MARK_ptr link_false using (solve [eauto with ssr]) : ssr_simpl.

(** * Lists *)

Section sorted.
Context {A : Type} (R : A -> A -> Prop).

Lemma StronglySorted_app_iff l1 l2 :
  StronglySorted R (l1 ++ l2) <->
  StronglySorted R l1 /\ StronglySorted R l2 /\ (forall x y, x ∈ l1 -> y ∈ l2 -> R x y).
Proof.
  induction l1 as [|a l1 IH]; simpl.
  - split; [|by intros (_ & ? & _)]. intros. split_and!; [constructor|done|]. intros ?? []%not_elem_of_nil.
  - split.
    + intros [Hs Hf]%StronglySorted_inv. apply IH in Hs as (H1 & H2 & H3).
      rewrite Forall_app in Hf. destruct Hf as [Hf1 Hf2]. split_and!; [by constructor|done|].
      intros x y [->|Hx]%elem_of_cons Hy; [|by apply H3].
      rewrite Forall_forall in Hf2. by apply Hf2.
    + intros ([Hs Hf]%StronglySorted_inv & H2 & H3). constructor.
      * apply IH. split_and!; [done..|]. intros; apply H3; [by right|done].
      * apply Forall_app. split; [done|]. apply Forall_forall. intros; apply H3; [left|done].
Qed.

Lemma StronglySorted_cons_iff x l :
  StronglySorted R (x :: l) <-> StronglySorted R l /\ Forall (R x) l.
Proof. split; [by intros ?%StronglySorted_inv|intros []; by constructor]. Qed.
End sorted.

(** Filtering out what occurs twice *)
Lemma NoDup_filter_inj {A} (P : A -> Prop) `{forall x, Decision (P x)} (l : list A) :
  (forall i j x, l !! i = Some x -> l !! j = Some x -> P x -> i = j) -> NoDup (filter P l).
Proof.
  induction l as [|a l IH]; intros Hl; [apply NoDup_nil_2|]. rewrite filter_cons.
  assert (NoDup (filter P l)) by (apply IH; intros i j x Hi Hj Hx; by injection (Hl (S i) (S j) x Hi Hj Hx)).
  case_decide as Ha; [|done]. apply NoDup_cons. split; [|done].
  intros [_ [j Hj]%list_elem_of_lookup]%list_elem_of_filter. by specialize (Hl 0%nat (S j) a eq_refl Hj Ha).
Qed.
