(* ===== verification/Random.v ===== *)
(** The pseudo-random generator of [runtime/random.c]: George Marsaglia's KISS
    generator over three thread-local 32-bit components and a carry. *)
From S2P Require Import Prelude.

(** The thread-local variables [rx_], [ry_], [rz_] and [rc_]. *)
Record rng := Rng { rx_ : Z; ry_ : Z; rz_ : Z; rc_ : Z }.

(** The multiplier of the multiply-with-carry component. *)
Definition MWC_MUL : Z := 698769069.

(** One xorshift round of the [ry_] component, each assignment truncated to
    [uint32_t]. *)
Definition xorshift (ry : Z) : Z :=
  let ry := Z.lxor ry (u32 (Z.shiftl ry 13)) in
  let ry := Z.lxor ry (Z.shiftr ry 17) in
  Z.lxor ry (u32 (Z.shiftl ry 5)).

Definition nbd_rand (s : rng) : Z * rng :=
  let rx := u32 (69069 * rx_ s + 12345) in
  let ry := xorshift (ry_ s) in
  let t := u64 (rz_ s * MWC_MUL + rc_ s) in
  let r := u64 (u32 (rx + ry) + t) in
  (r, Rng rx ry (u32 t) (u32 (Z.shiftr t 32))).

(** [memcpy] of four bytes into a [uint32_t] on a little-endian machine. *)
Definition load_le32 (bs : list Z) : Z :=
  match bs with
  | b0 :: b1 :: b2 :: b3 :: _ => b0 + Z.shiftl b1 8 + Z.shiftl b2 16 + Z.shiftl b3 24
  | _ => 0
  end.

(** [rnd_thread_init] once [n = read(fd, buf, 16)] returned the bytes [buf]:
    [None] is the [exit(1)] of a short read. *)
Definition rnd_thread_init (buf : list Z) : option rng :=
  if negb (Nat.eqb (length buf) 16) then None
  else
    let x := load_le32 (drop 0 buf) in
    let y := load_le32 (drop 4 buf) in
    let z := load_le32 (drop 8 buf) in
    let c := load_le32 (drop 12 buf) in
    Some (Rng x y z z).

(** The invariant of the generator's state: every component fits in 32 bits and
    the xorshift component is not stuck at zero. *)
Definition rng_ok (s : rng) : Prop :=
  in_u32 (rx_ s) /\ in_u32 (ry_ s) /\ in_u32 (rz_ s) /\ in_u32 (rc_ s) /\ ry_ s <> 0.

Lemma lxor_u32 a b : in_u32 a -> in_u32 b -> in_u32 (Z.lxor a b).
Proof.
  intros Ha Hb. assert (0 <= Z.lxor a b) by (apply Z.lxor_nonneg; lia).
  split; [done|]. destruct (Z.eq_dec (Z.lxor a b) 0) as [->|]; [lia|].
  apply Z.log2_lt_pow2; [lia|]. pose proof (Z.log2_lxor a b ltac:(lia) ltac:(lia)).
  destruct (Z.eq_dec a 0) as [->|]; [|destruct (Z.eq_dec b 0) as [->|]].
  - rewrite Z.lxor_0_l in *. apply Z.log2_lt_pow2; lia.
  - rewrite Z.lxor_0_r in *. apply Z.log2_lt_pow2; lia.
  - pose proof (proj1 (Z.log2_lt_pow2 a 32 ltac:(lia)) ltac:(lia)).
    pose proof (proj1 (Z.log2_lt_pow2 b 32 ltac:(lia)) ltac:(lia)). lia.
Qed.

Lemma shiftr_u32 a k : in_u32 a -> 0 <= k -> in_u32 (Z.shiftr a k).
Proof.
  intros Ha Hk. rewrite Z.shiftr_div_pow2 by lia.
  pose proof (Z.pow_pos_nonneg 2 k ltac:(lia) Hk). split; [apply Z.div_pos; lia|].
  apply Z.div_lt_upper_bound; [lia|]. nia.
Qed.

(** A word that equals its own left shift (truncated) is zero: its lowest set
    bit would have to come from a lower one. *)
Lemma shiftl_fixpoint a k : in_u32 a -> 0 < k -> a = u32 (Z.shiftl a k) -> a = 0.
Proof.
  intros Ha Hk E. apply Z.bits_inj'. intros i Hi. rewrite Z.testbit_0_l.
  induction i as [i IH] using (well_founded_induction (Z.lt_wf 0)).
  rewrite E. unfold u32. destruct (Z.lt_ge_cases i 32).
  - rewrite Z.mod_pow2_bits_low, Z.shiftl_spec by lia.
    destruct (Z.lt_ge_cases (i - k) 0); [by apply Z.testbit_neg_r|]. apply IH; lia.
  - by apply Z.mod_pow2_bits_high.
Qed.

Lemma xorshift_ok y : in_u32 y -> y <> 0 -> in_u32 (xorshift y) /\ xorshift y <> 0.
Proof.
  intros Hy Hnz. unfold xorshift.
  assert (H1 : forall a k, in_u32 a -> a <> 0 -> 0 < k ->
             in_u32 (Z.lxor a (u32 (Z.shiftl a k))) /\ Z.lxor a (u32 (Z.shiftl a k)) <> 0).
  { intros a k Ha Ha0 Hk. split; [by apply lxor_u32, u32_range|].
    intros E%Z.lxor_eq. apply Ha0. by eapply shiftl_fixpoint. }
  assert (H2 : forall a, in_u32 a -> a <> 0 ->
             in_u32 (Z.lxor a (Z.shiftr a 17)) /\ Z.lxor a (Z.shiftr a 17) <> 0).
  { intros a Ha Ha0. split; [apply lxor_u32; [done|]; apply shiftr_u32; lia|].
    intros E%Z.lxor_eq. rewrite Z.shiftr_div_pow2 in E by lia. zlia. }
  destruct (H1 y 13) as [Ha Ha0]; [done..|lia|]. destruct (H2 _ Ha Ha0) as [Hb Hb0].
  apply H1; [done..|lia].
Qed.

(** C39: [nbd_rand] keeps the generator's state well formed (every component a
    32-bit word, the xorshift component never stuck at zero), returns a 64-bit
    word, and its multiply-with-carry component loses no bit: the new component
    and the new carry reassemble to exactly [698769069 * rz + rc]. *)
Theorem nbd_rand_ok (s : rng) :
  rng_ok s ->
  let '(r, s') := nbd_rand s in
  in_u64 r /\ rng_ok s' /\ rz_ s' + 2 ^ 32 * rc_ s' = MWC_MUL * rz_ s + rc_ s.
Proof.
  intros (Hx & Hy & Hz & Hc & H0). unfold nbd_rand, rng_ok; simpl.
  destruct (xorshift_ok (ry_ s)) as [Hy' H0']; [done..|]. unfold MWC_MUL.
  split_and!; try apply u64_range; try apply u32_range; try lia.
  rewrite u64_small by lia. rewrite Z.shiftr_div_pow2 by lia. zlia.
Qed.

Example nbd_rand_ok_witness :
  let '(r, s') := nbd_rand (Rng 1 2 3 4) in
  in_u64 r /\ rng_ok s' /\ rz_ s' + 2 ^ 32 * rc_ s' = MWC_MUL * 3 + 4.
Proof. apply (nbd_rand_ok (Rng 1 2 3 4)). unfold rng_ok; simpl. lia. Defined.

(** The carry component is seeded with the same four bytes as the [rz_]
    component, whatever the last four bytes read from [/dev/urandom] are: those
    bytes never reach the generator's state. *)
Theorem rnd_thread_init_ignores_c (buf c c' : list Z) :
  length buf = 12%nat -> length c = 4%nat -> length c' = 4%nat ->
  rnd_thread_init (buf ++ c) = rnd_thread_init (buf ++ c') /\
  match rnd_thread_init (buf ++ c) with
  | Some s => rc_ s = rz_ s
  | None => False
  end.
Proof.
  intros Hb Hc Hc'. unfold rnd_thread_init. rewrite !length_app, Hb, Hc, Hc'. simpl.
  do 12 (destruct buf as [|? buf]; [done|]). destruct buf; [|done]. done.
Qed.

Example rnd_thread_init_ignores_c_witness :
  rnd_thread_init (repeat 7 12 ++ [1; 2; 3; 4]) = rnd_thread_init (repeat 7 12 ++ [5; 6; 7; 8]) /\
  match rnd_thread_init (repeat 7 12 ++ [1; 2; 3; 4]) with
  | Some s => rc_ s = rz_ s
  | None => False
  end.
Proof. apply rnd_thread_init_ignores_c; reflexivity. Defined.
