(* ===== verification/Machine.v ===== *)
(** The machine the C code runs on: a heap of blocks of words, the memory
    operations the sources perform on it (each of them one atomic step), the
    monad in which every stateful function is written, its sequential
    interpreter [run], its interleaving semantics [cstep], and the lemmas that
    execute programs symbolically. *)
From S2P Require Import Prelude Random.

(** A block is the array of words of one allocated object, indexed by field. *)
Abbreviation block := (list Z).
Abbreviation heap_t := (gmap Z (list Z)).

(** [heap] maps the base address of every allocated object to its words;
    [deferred] lists the objects handed to [rcu_defer_free], most recent first;
    [rand] is the state of the caller's random generator. *)
Record mem := Mem { heap : heap_t; deferred : list Z; rand : rng }.

Definition set_heap (m : mem) (h : heap_t) : mem := Mem h (deferred m) (rand m).

(** What the runtime's allocator ([runtime/mem.c], [nbd_malloc]) promises to its
    clients: a block it returns is not in use, its address is a node address, and
    a cache line address when the block is at least a cache line long;
    [None] stands for the [exit(-1)] of a failed [mmap]. The contents of a new
    block are unspecified. *)
Class Allocator := {
  alloc : heap_t -> nat -> option Z;
  junk : heap_t -> nat -> list Z;
  alloc_fresh h n p : alloc h n = Some p -> h !! p = None;
  alloc_node_ptr h n p : alloc h n = Some p -> node_ptr p;
  alloc_aligned h n p : alloc h n = Some p -> (8 <= n)%nat -> p mod 64 = 0;
  junk_length h n : length (junk h n) = n;
}.

(** The atomic operations on the shared state. [Rmw] is the family of atomic
    read-modify-write instructions: it replaces a word by a function of its old
    value and returns the old value. *)
Inductive op :=
  | Load (p : Z) (i : nat)
  | Store (p : Z) (i : nat) (v : Z)
  | Rmw (p : Z) (i : nat) (f : Z -> Z)
  | Malloc (n : nat)
  | Free (p : Z)
  | Defer (p : Z)
  | Rand.

(** How a run can end other than by returning: a failed [assert], an access to
    memory that is not allocated, an operation whose result C leaves undefined,
    exhaustion of the memory or of the loop fuel of the model. *)
Inductive err := AssertFail | SegFault | Undefined | OutOfMemory | OutOfFuel.

Inductive prog (A : Type) : Type :=
  | Ret (a : A)
  | Act (o : op) (k : Z -> prog A)
  | Fail (e : err).
Arguments Ret {A} _.
Arguments Act {A} _ _.
Arguments Fail {A} _.

Inductive outcome (A : Type) : Type :=
  | Done (a : A) (m : mem)
  | Failed (e : err).
Arguments Done {A} _ _.
Arguments Failed {A} _.

(** Sequential composition: [x ⇐ p; q] runs [p] and binds its result in [q]. *)
Fixpoint bind {A B : Type} (p : prog A) (f : A -> prog B) : prog B :=
  match p with
  | Ret a => f a
  | Act o k => Act o (fun r => bind (k r) f)
  | Fail e => Fail e
  end.

Notation "x ⇐ p ; q" := (bind p (fun x => q))
  (at level 20, p at level 100, q at level 200, right associativity,
   format "x  ⇐  p ;  '/' q") : ssr_scope.
Notation "' x ⇐ p ; q" := (bind p (fun y => match y with x => q end))
  (at level 20, x pattern, p at level 100, q at level 200, right associativity,
   format "' x  ⇐  p ;  '/' q") : ssr_scope.
Open Scope ssr_scope.

(** ** Operations on abstract states

    The components that are modelled without the heap of words are functions on
    their own state; a call returns a result or fails. *)
Definition res (A : Type) : Type := A + err.

Definition rbind {A B} (p : res A) (f : A -> res B) : res B :=
  match p with inl a => f a | inr e => inr e end.

Notation "'let*' x := p 'in' q" := (rbind p (fun x => q))
  (at level 200, x pattern, p at level 100, q at level 200, right associativity) : ssr_scope.

Definition check (b : bool) : res unit := if b then inl tt else inr AssertFail.

(** The call returns with [Q], or the system has no memory left. *)
Definition ok {A} (x : res A) (Q : A -> Prop) : Prop :=
  match x with inl a => Q a | inr OutOfMemory => True | inr _ => False end.

Lemma ok_bind {A B} (x : res A) (f : A -> res B) Q : ok x (fun a => ok (f a) Q) -> ok (rbind x f) Q.
Proof. by destruct x. Qed.

Lemma ok_mono {A} (x : res A) (Q Q' : A -> Prop) : ok x Q -> (forall a, Q a -> Q' a) -> ok x Q'.
Proof. destruct x as [a|[]]; simpl; auto. Qed.

(** ** Notation for the operations *)

Definition load (p : Z) (i : nat) : prog Z := Act (Load p i) Ret.

Definition store (p : Z) (i : nat) (v : Z) : prog Z := Act (Store p i v) Ret.

Definition malloc (n : nat) : prog Z := Act (Malloc n) Ret.

Definition nbd_free (p : Z) : prog Z := Act (Free p) Ret.

Definition rcu_defer_free (p : Z) : prog Z := Act (Defer p) Ret.

Definition nbd_rand_ : prog Z := Act Rand Ret.

Definition assert (b : bool) : prog unit := if b then Ret tt else Fail AssertFail.

(** [SYNC_SWAP], [SYNC_CAS], [SYNC_FETCH_AND_OR] return the previous value,
    [SYNC_ADD] the new one, in a word of [w] bits. *)
Definition SYNC_SWAP (p : Z) (i : nat) (x : Z) : prog Z := Act (Rmw p i (fun _ => x)) Ret.

Definition SYNC_CAS (p : Z) (i : nat) (old x : Z) : prog Z :=
  Act (Rmw p i (fun v => if v =? old then x else v)) Ret.

Definition SYNC_ADD (w : Z) (p : Z) (i : nat) (n : Z) : prog Z :=
  Act (Rmw p i (fun v => (v + n) mod 2 ^ w)) (fun old => Ret ((old + n) mod 2 ^ w)).

Definition SYNC_FETCH_AND_OR (p : Z) (i : nat) (x : Z) : prog Z :=
  Act (Rmw p i (fun v => Z.lor v x)) Ret.

#[global] Arguments bind : simpl never.
#[global] Arguments load : simpl never.
#[global] Arguments store : simpl never.
#[global] Arguments malloc : simpl never.
#[global] Arguments nbd_free : simpl never.
#[global] Arguments rcu_defer_free : simpl never.
#[global] Arguments nbd_rand_ : simpl never.
#[global] Arguments assert : simpl never.
#[global] Arguments SYNC_SWAP : simpl never.
#[global] Arguments SYNC_CAS : simpl never.
#[global] Arguments SYNC_ADD : simpl never.
#[global] Arguments SYNC_FETCH_AND_OR : simpl never.

Section semantics.
Context `{Allocator}.

Definition handle (o : op) (m : mem) : Z * mem + err :=
  match o with
  | Load p i =>
      match heap m !! p ≫= (.!! i) with
      | Some v => inl (v, m)
      | None => inr SegFault
      end
  | Store p i v =>
      match heap m !! p with
      | Some b => if decide (i < length b)%nat
                  then inl (0, set_heap m (<[p := <[i := v]> b]> (heap m)))
                  else inr SegFault
      | None => inr SegFault
      end
  | Rmw p i f =>
      match heap m !! p with
      | Some b => match b !! i with
                  | Some v => inl (v, set_heap m (<[p := <[i := f v]> b]> (heap m)))
                  | None => inr SegFault
                  end
      | None => inr SegFault
      end
  | Malloc n =>
      match alloc (heap m) n with
      | Some p => inl (p, set_heap m (<[p := junk (heap m) n]> (heap m)))
      | None => inr OutOfMemory
      end
  | Free p =>
      match heap m !! p with
      | Some _ => inl (0, set_heap m (delete p (heap m)))
      | None => inr SegFault
      end
  | Defer p => inl (0, Mem (heap m) (p :: deferred m) (rand m))
  | Rand => let '(r, s) := nbd_rand (rand m) in inl (r, Mem (heap m) (deferred m) s)
  end.

(** Sequential execution: one thread runs to completion. *)
Fixpoint run {A} (p : prog A) (m : mem) : outcome A :=
  match p with
  | Ret a => Done a m
  | Act o k => match handle o m with
               | inl (r, m') => run (k r) m'
               | inr e => Failed e
               end
  | Fail e => Failed e
  end.

(** Total correctness of a sequential run: it returns and [Q] holds. *)
Definition wp {A} (p : prog A) (m : mem) (Q : A -> mem -> Prop) : Prop :=
  match run p m with
  | Done a m' => Q a m'
  | Failed _ => False
  end.

(** Interleaved execution of a pool of threads: any thread that has not
    finished performs its next operation. *)
Inductive cstep {A} : mem * list (prog A) -> mem * list (prog A) -> Prop :=
  | cstep_act m ts i o k r m' :
      ts !! i = Some (Act o k) -> handle o m = inl (r, m') ->
      cstep (m, ts) (m', <[i := k r]> ts).

(** The thread pool has a thread that performs an illegal operation now. *)
Definition faulty {A} (c : mem * list (prog A)) : Prop :=
  exists i o k, c.2 !! i = Some (Act o k) /\ handle o c.1 = inr SegFault.
End semantics.

(** The allocator has room for another block of [k] words. *)
Definition can_alloc `{Allocator} (m : mem) (k : nat) : Prop :=
  forall h, dom h = dom (heap m) -> is_Some (alloc h k).

#[global] Arguments run : simpl never.
#[global] Arguments wp : simpl never.

(** * Symbolic execution *)

Lemma run_act `{Allocator} {A} o (k : Z -> prog A) m :
  run (Act o k) m = match handle o m with inl (r, m') => run (k r) m' | inr e => Failed e end.
Proof. done. Qed.

Lemma run_ret `{Allocator} {A} (a : A) m : run (Ret a) m = Done a m.
Proof. done. Qed.

Section wp_lemmas.
Context `{Allocator}.
Context {A B : Type}.

Lemma run_bind (p : prog A) (f : A -> prog B) m :
  run (bind p f) m = match run p m with Done a m' => run (f a) m' | Failed e => Failed e end.
Proof.
  revert m. induction p as [a|o k IH|e]; intros m; [done| |done].
  change (bind (Act o k) f) with (Act o (fun r => bind (k r) f)). rewrite !run_act.
  destruct (handle o m) as [[r m']|e]; [apply IH|done].
Qed.

Lemma wp_bind (p : prog A) (f : A -> prog B) m Q :
  wp p m (fun a m' => wp (f a) m' Q) -> wp (bind p f) m Q.
Proof. unfold wp. rewrite run_bind. by destruct (run p m). Qed.

Lemma wp_mono (p : prog A) m (Q Q' : A -> mem -> Prop) :
  wp p m Q -> (forall a m', Q a m' -> Q' a m') -> wp p m Q'.
Proof. unfold wp. destruct (run p m); eauto. Qed.

Lemma wp_run (p : prog A) m Q : wp p m Q <-> exists a m', run p m = Done a m' /\ Q a m'.
Proof.
  unfold wp. destruct (run p m) as [a m'|e]; split; try done; [eauto|..].
  - intros (? & ? & [= <- <-] & ?); done.
  - by intros (? & ? & ? & ?).
Qed.

Lemma wp_done (p : prog A) m a m' (Q : A -> mem -> Prop) :
  run p m = Done a m' -> Q a m' -> wp p m Q.
Proof. intros E ?. unfold wp. by rewrite E. Qed.

Lemma wp_ret (a : A) m (Q : A -> mem -> Prop) : Q a m -> wp (Ret a) m Q.
Proof. done. Qed.

End wp_lemmas.

Lemma wp_assoc `{Allocator} {A B C} (p : prog A) (f : A -> prog B) (g : B -> prog C) m Q :
  wp (bind (bind p f) g) m Q -> wp (bind p (fun a => bind (f a) g)) m Q.
Proof.
  unfold wp. rewrite !run_bind. destruct (run p m) as [a m'|e]; [|done]. by rewrite run_bind.
Qed.

(** The same up to exhaustion of the memory: the run returns with [Q], or the
    allocator has no room. *)
Definition wpo `{Allocator} {A} (p : prog A) (m : mem) (Q : A -> mem -> Prop) : Prop :=
  match run p m with
  | Done a m' => Q a m'
  | Failed OutOfMemory => True
  | Failed _ => False
  end.

#[global] Arguments wpo : simpl never.

Section wpo_lemmas.
Context `{Allocator} {A B : Type}.

Lemma wp_wpo (p : prog A) m Q : wp p m Q -> wpo p m Q.
Proof. unfold wp, wpo. by destruct (run p m). Qed.

Lemma wpo_bind (p : prog A) (f : A -> prog B) m Q :
  wpo p m (fun a m' => wpo (f a) m' Q) -> wpo (bind p f) m Q.
Proof. unfold wpo. rewrite run_bind. by destruct (run p m). Qed.

Lemma wpo_mono (p : prog A) m (Q Q' : A -> mem -> Prop) :
  wpo p m Q -> (forall a m', Q a m' -> Q' a m') -> wpo p m Q'.
Proof. unfold wpo. destruct (run p m) as [|[]]; eauto. Qed.

Lemma wpo_ret (a : A) m (Q : A -> mem -> Prop) : Q a m -> wpo (Ret a) m Q.
Proof. done. Qed.
End wpo_lemmas.

Section wp_ops.
Context `{Allocator}.
Implicit Types (m : mem) (b : block).

Lemma wpo_malloc n m (Q : Z -> mem -> Prop) :
  (forall p, alloc (heap m) n = Some p -> heap m !! p = None -> node_ptr p -> length (junk (heap m) n) = n ->
     Q p (set_heap m (<[p := junk (heap m) n]> (heap m)))) ->
  wpo (malloc n) m Q.
Proof.
  intros HQ. unfold wpo, malloc. rewrite run_act; simpl. destruct (alloc (heap m) n) as [p|] eqn:E; [|done].
  apply HQ; eauto using alloc_fresh, alloc_node_ptr, junk_length.
Qed.

Lemma wp_assert c m (Q : unit -> mem -> Prop) : c = true -> Q tt m -> wp (assert c) m Q.
Proof. by intros ->. Qed.

Lemma run_load p i m b : heap m !! p = Some b ->
  run (load p i) m = match b !! i with Some v => Done v m | None => Failed SegFault end.
Proof. intros Hp. unfold load. rewrite run_act; simpl. rewrite Hp; simpl. by destruct (b !! i). Qed.

Lemma run_free p m b : heap m !! p = Some b ->
  run (nbd_free p) m = Done 0 (set_heap m (delete p (heap m))).
Proof. intros Hp. unfold nbd_free. rewrite run_act; simpl. by rewrite Hp. Qed.

Lemma wp_load p i m b v (Q : Z -> mem -> Prop) :
  heap m !! p = Some b -> b !! i = Some v -> Q v m -> wp (load p i) m Q.
Proof. intros Hp Hi ?. unfold wp, load. rewrite run_act; simpl. rewrite Hp; simpl. by rewrite Hi. Qed.

Lemma wp_store p i x m b (Q : Z -> mem -> Prop) :
  heap m !! p = Some b -> (i < length b)%nat ->
  Q 0 (set_heap m (<[p := <[i := x]> b]> (heap m))) -> wp (store p i x) m Q.
Proof. intros Hp Hi ?. unfold wp, store. rewrite run_act; simpl. rewrite Hp. by rewrite decide_True. Qed.

Lemma wp_rmw p i f m b v (Q : Z -> mem -> Prop) :
  heap m !! p = Some b -> b !! i = Some v ->
  Q v (set_heap m (<[p := <[i := f v]> b]> (heap m))) -> wp (Act (Rmw p i f) Ret) m Q.
Proof. intros Hp Hi ?. unfold wp, SYNC_ADD. rewrite run_act; simpl. by rewrite Hp, Hi. Qed.

Lemma set_heap_same m : set_heap m (heap m) = m.
Proof. by destruct m. Qed.

(** A block that was allocated in [m] and is released leaves [m] as it was. *)
Lemma run_free_fresh {A} (x : A) m a b : heap m !! a = None ->
  run (_ ⇐ nbd_free a; Ret x) (set_heap m (<[a := b]> (heap m))) = Done x m.
Proof.
  intros Ha. rewrite run_bind, (run_free _ _ b) by (cbn [heap set_heap]; by rewrite lookup_insert_eq).
  rewrite run_ret. cbn [heap set_heap]. rewrite delete_insert_id by done. by destruct m.
Qed.

Lemma wp_cas_succ p i x m b v (Q : Z -> mem -> Prop) :
  heap m !! p = Some b -> b !! i = Some v ->
  Q v (set_heap m (<[p := <[i := x]> b]> (heap m))) -> wp (SYNC_CAS p i v x) m Q.
Proof. intros Hp Hi HQ. eapply wp_rmw; [done..|]. by rewrite Z.eqb_refl. Qed.

Lemma wp_cas_fail p i old x m b v (Q : Z -> mem -> Prop) :
  heap m !! p = Some b -> b !! i = Some v -> v <> old -> Q v m -> wp (SYNC_CAS p i old x) m Q.
Proof.
  intros Hp Hi Hne HQ. eapply wp_rmw; [done..|].
  rewrite (proj2 (Z.eqb_neq v old)) by done.
  by rewrite list_insert_id, insert_id, set_heap_same by done.
Qed.

Lemma wp_swap p i x m b v (Q : Z -> mem -> Prop) :
  heap m !! p = Some b -> b !! i = Some v ->
  Q v (set_heap m (<[p := <[i := x]> b]> (heap m))) -> wp (SYNC_SWAP p i x) m Q.
Proof. intros. by eapply wp_rmw. Qed.

Lemma wp_fetch_or p i x m b v (Q : Z -> mem -> Prop) :
  heap m !! p = Some b -> b !! i = Some v ->
  Q v (set_heap m (<[p := <[i := Z.lor v x]> b]> (heap m))) -> wp (SYNC_FETCH_AND_OR p i x) m Q.
Proof. intros. by eapply wp_rmw. Qed.

Lemma wp_add w p i n m b v (Q : Z -> mem -> Prop) :
  heap m !! p = Some b -> b !! i = Some v ->
  Q ((v + n) mod 2 ^ w) (set_heap m (<[p := <[i := (v + n) mod 2 ^ w]> b]> (heap m))) ->
  wp (SYNC_ADD w p i n) m Q.
Proof. intros Hp Hi ?. unfold wp, SYNC_ADD. rewrite run_act; simpl. by rewrite Hp, Hi. Qed.

Lemma wp_malloc n m p (Q : Z -> mem -> Prop) :
  alloc (heap m) n = Some p ->
  (heap m !! p = None -> node_ptr p -> length (junk (heap m) n) = n ->
   Q p (set_heap m (<[p := junk (heap m) n]> (heap m)))) ->
  wp (malloc n) m Q.
Proof.
  intros E HQ. unfold wp, malloc. rewrite run_act; simpl. rewrite E.
  apply HQ; eauto using alloc_fresh, alloc_node_ptr, junk_length.
Qed.

Lemma wp_free p m b (Q : Z -> mem -> Prop) :
  heap m !! p = Some b -> Q 0 (set_heap m (delete p (heap m))) -> wp (nbd_free p) m Q.
Proof. intros Hp ?. unfold wp, nbd_free. rewrite run_act; simpl. by rewrite Hp. Qed.

Lemma wp_defer p m (Q : Z -> mem -> Prop) :
  Q 0 (Mem (heap m) (p :: deferred m) (rand m)) -> wp (rcu_defer_free p) m Q.
Proof. done. Qed.

Lemma wp_rand m (Q : Z -> mem -> Prop) :
  Q (nbd_rand (rand m)).1 (Mem (heap m) (deferred m) (nbd_rand (rand m)).2) -> wp nbd_rand_ m Q.
Proof. unfold wp, nbd_rand_. rewrite run_act; simpl. by destruct (nbd_rand (rand m)). Qed.
End wp_ops.

(** Run the next operation; block and field come from the hypotheses. *)
Ltac wp_op :=
  lazymatch goal with
  | |- wp (bind _ _) _ _ => apply wp_bind; wp_op
  | |- wp (Ret _) _ _ => apply wp_ret
  | |- wp (assert _) _ _ => apply wp_assert; [try done|]
  | |- wp (load _ _) _ _ => eapply wp_load; [by simplify_map_eq|try done|]
  | |- wp (store _ _ _) _ _ => eapply wp_store; [by simplify_map_eq|simpl; try solve [lia | apply Nat.ltb_lt; reflexivity]|]
  | |- wp (SYNC_SWAP _ _ _) _ _ => eapply wp_swap; [by simplify_map_eq|try done|]
  | |- wp (SYNC_FETCH_AND_OR _ _ _) _ _ => eapply wp_fetch_or; [by simplify_map_eq|try done|]
  | |- wp (SYNC_ADD _ _ _ _) _ _ => eapply wp_add; [by simplify_map_eq|try done|]
  | |- wp (nbd_free _) _ _ => eapply wp_free; [by simplify_map_eq|]
  | |- wp (rcu_defer_free _) _ _ => apply wp_defer
  | |- wp nbd_rand_ _ _ => apply wp_rand
  end; cbn [heap set_heap deferred rand fst snd].

(** * A concrete allocator

    Hands out addresses above every address in use, aligned to 8 bytes, and to 64
    bytes for the blocks of a cache line or more; it shows that the promises of
    [Allocator] can be kept and lets examples run. *)
Definition bump_alloc (h : heap_t) (n : nat) : option Z :=
  let top := map_fold (fun a _ t => Z.max (a / 8) t) 0 h in
  let p := if decide (8 <= n)%nat then 64 * (top / 8 + 1) else 8 * (top + 1) in
  if p <? 2 ^ 48 then Some p else None.

Lemma bump_top (h : heap_t) a b :
  h !! a = Some b -> a / 8 <= map_fold (fun a _ t => Z.max (a / 8) t) 0 h.
Proof.
  revert a b.
  apply (map_fold_weak_ind (fun t h => forall a b, h !! a = Some b -> a / 8 <= t)).
  - intros a b. by rewrite lookup_empty.
  - intros a x h' t Hn IH a' b'. rewrite lookup_insert. case_decide.
    + intros _. subst. lia.
    + intros Hl%IH. lia.
Qed.

Lemma bump_top_nonneg (h : heap_t) : 0 <= map_fold (fun a _ t => Z.max (a / 8) t) 0 h.
Proof.
  apply (map_fold_weak_ind (fun t _ => 0 <= t)); [done|]. intros. lia.
Qed.

#[export] Program Instance bump : Allocator := {|
  alloc := bump_alloc;
  junk := fun _ n => replicate n 3472328296227680304;
|}.
Next Obligation.
  intros h n p. unfold bump_alloc. case_match eqn:Hlt; [|done].
  intros [= <-]. destruct (h !! _) eqn:E; [|done]. apply bump_top in E. case_decide; zlia.
Qed.
Next Obligation.
  intros h n p. unfold bump_alloc. pose proof (bump_top_nonneg h).
  case_match eqn:Hlt; [|done]. apply Z.ltb_lt in Hlt.
  intros [= <-]. case_decide; (split; [zlia|]); zlia.
Qed.
Next Obligation.
  intros h n p E Hn. unfold bump_alloc in E. rewrite decide_True in E by done. case_match; [|done].
  injection E as <-. zlia.
Qed.
Next Obligation. intros. apply length_replicate. Qed.

Definition rng0 : rng := Rng 123456789 362436069 521288629 7654321.

(** The empty heap the examples start from. *)
Definition mem0 : mem := Mem ∅ [] rng0.

(** The allocator finds room as long as no block in use is above [8 * t]. *)
Lemma bump_room (h : heap_t) n t :
  (forall a, a ∈ dom h -> a / 8 <= t) -> 0 <= t -> 64 * (t + 1) < 2 ^ 48 -> is_Some (bump_alloc h n).
Proof.
  intros Hd Ht0 Ht. unfold bump_alloc.
  assert (map_fold (fun a _ t => Z.max (a / 8) t) 0 h <= t) as Hle.
  { revert Hd. apply (map_fold_weak_ind (fun u h => (forall a, a ∈ dom h -> a / 8 <= t) -> u <= t)); [lia|].
    intros a x h' u _ IH Hd. apply Z.max_lub.
    - apply Hd. rewrite dom_insert_L. set_solver.
    - apply IH. intros b Hb. apply Hd. rewrite dom_insert_L. set_solver. }
  rewrite (proj2 (Z.ltb_lt _ _)) by (case_decide; zlia). eauto.
Qed.
