(* ===== verification/Sha1.v ===== *)
(** SHA-1 ([lifo/demo/sha1.c], [sha1.h]), which the demo of the stack mines with,
    as the code computes it: a block is expanded in place inside the array the caller
    passes, the eighty rounds are unrolled with the roles of the five working
    variables rotating through the arguments of the round macros, and the length is a
    pair of 32-bit words. [big_endian] is the build: whether the machine stores words
    with the high byte first (and WORDS_BIGENDIAN is defined). The proofs are in
    Sha1Proof. *)
From Stdlib Require Import Ascii String.
From S2P Require Import Prelude Machine.

Open Scope Z_scope.
Open Scope list_scope.

(** * Words and bytes *)

(** [rol] of a [uint32_t]. *)
Definition rol (value bits : Z) : Z :=
  Z.lor (u32 (Z.shiftl value bits)) (Z.shiftr value (32 - bits)).

Definition le_word (bs : list Z) : Z := foldr (fun b w => b + 2 ^ 8 * w) 0 bs.

Definition be_word (bs : list Z) : Z := le_word (rev bs).

Definition byte_of (w k : Z) : Z := Z.land (Z.shiftr w (8 * k)) 255.

Definition le_bytes (w : Z) : list Z := [byte_of w 0; byte_of w 1; byte_of w 2; byte_of w 3].

Definition be_bytes (w : Z) : list Z := [byte_of w 3; byte_of w 2; byte_of w 1; byte_of w 0].

(** The words of an array of bytes, four bytes each. *)
Fixpoint words (word : list Z -> Z) (bs : list Z) : list Z :=
  match bs with
  | b0 :: b1 :: b2 :: b3 :: r => word [b0; b1; b2; b3] :: words word r
  | _ => []
  end.

(** The five words of the hash state, the number of bits hashed so far (low word
    first), and the bytes that wait for a full block. *)
Record SHA1_CTX := Ctx { state : list Z; count0 : Z; count1 : Z; buffer : list Z }.

Definition SHA1_DIGEST_SIZE : Z := 20.

(** * The round macros *)

(** The working variables. The macros name which variable they read and write. *)
Inductive reg := Ra | Rb | Rc | Rd | Re.

Record regs := Regs { ra : Z; rb : Z; rc : Z; rd : Z; re : Z }.

Definition get (r : regs) (x : reg) : Z :=
  match x with Ra => ra r | Rb => rb r | Rc => rc r | Rd => rd r | Re => re r end.

Definition set (r : regs) (x : reg) (v : Z) : regs :=
  match x with
  | Ra => Regs v (rb r) (rc r) (rd r) (re r)
  | Rb => Regs (ra r) v (rc r) (rd r) (re r)
  | Rc => Regs (ra r) (rb r) v (rd r) (re r)
  | Rd => Regs (ra r) (rb r) (rc r) v (re r)
  | Re => Regs (ra r) (rb r) (rc r) (rd r) v
  end.

Section build.
Context (big_endian : bool).

(** The array seen as the [l] member of the union. *)
Definition l_of_c (c : list Z) : list Z := words (if big_endian then be_word else le_word) c.

Definition c_of_l (l : list Z) : list Z := mjoin (map (if big_endian then be_bytes else le_bytes) l).

(** [blk0(i)] and [blk(i)]: the value and the block, with the word [i] (mod 16) replaced. *)
Definition blk0 (l : list Z) (i : nat) : Z * list Z :=
  let x := nth i l 0 in
  if big_endian then (x, l)
  else
    let y := Z.lor (Z.land (rol x 24) 0xFF00FF00) (Z.land (rol x 8) 0x00FF00FF) in
    (y, <[i := y]> l).

Definition blk (l : list Z) (i : nat) : Z * list Z :=
  let at_ k := nth (Nat.land k 15) l 0 in
  let y := rol (Z.lxor (Z.lxor (Z.lxor (at_ (i + 13)%nat) (at_ (i + 8)%nat)) (at_ (i + 2)%nat)) (at_ i)) 1 in
  (y, <[Nat.land i 15 := y]> l).

(** The common shape of the macros: [z += f(w,x,y) + word + K + rol(v,5); w = rol(w,30)]. *)
Definition round (f : Z -> Z -> Z -> Z) (word : list Z -> nat -> Z * list Z) (K : Z)
    (v w x y z : reg) (i : nat) (s : regs * list Z) : regs * list Z :=
  let '(r, l) := s in
  let '(b, l') := word l i in
  let r' := set r z (u32 (get r z + (f (get r w) (get r x) (get r y) + b + K + rol (get r v) 5))) in
  (set r' w (rol (get r' w) 30), l').

Definition R0 := round (fun w x y => Z.lxor (Z.land w (Z.lxor x y)) y) blk0 0x5A827999.

Definition R1 := round (fun w x y => Z.lxor (Z.land w (Z.lxor x y)) y) blk 0x5A827999.

Definition R2 := round (fun w x y => Z.lxor (Z.lxor w x) y) blk 0x6ED9EBA1.

Definition R3 := round (fun w x y => Z.lor (Z.land (Z.lor w x) y) (Z.land w x)) blk 0x8F1BBCDC.

Definition R4 := round (fun w x y => Z.lxor (Z.lxor w x) y) blk 0xCA62C1D6.

(** The unrolled loop of [SHA1_Transform]. *)
Definition rounds : list (regs * list Z -> regs * list Z) := [
  R0 Ra Rb Rc Rd Re 0; R0 Re Ra Rb Rc Rd 1; R0 Rd Re Ra Rb Rc 2; R0 Rc Rd Re Ra Rb 3;
  R0 Rb Rc Rd Re Ra 4; R0 Ra Rb Rc Rd Re 5; R0 Re Ra Rb Rc Rd 6; R0 Rd Re Ra Rb Rc 7;
  R0 Rc Rd Re Ra Rb 8; R0 Rb Rc Rd Re Ra 9; R0 Ra Rb Rc Rd Re 10; R0 Re Ra Rb Rc Rd 11;
  R0 Rd Re Ra Rb Rc 12; R0 Rc Rd Re Ra Rb 13; R0 Rb Rc Rd Re Ra 14; R0 Ra Rb Rc Rd Re 15;
  R1 Re Ra Rb Rc Rd 16; R1 Rd Re Ra Rb Rc 17; R1 Rc Rd Re Ra Rb 18; R1 Rb Rc Rd Re Ra 19;
  R2 Ra Rb Rc Rd Re 20; R2 Re Ra Rb Rc Rd 21; R2 Rd Re Ra Rb Rc 22; R2 Rc Rd Re Ra Rb 23;
  R2 Rb Rc Rd Re Ra 24; R2 Ra Rb Rc Rd Re 25; R2 Re Ra Rb Rc Rd 26; R2 Rd Re Ra Rb Rc 27;
  R2 Rc Rd Re Ra Rb 28; R2 Rb Rc Rd Re Ra 29; R2 Ra Rb Rc Rd Re 30; R2 Re Ra Rb Rc Rd 31;
  R2 Rd Re Ra Rb Rc 32; R2 Rc Rd Re Ra Rb 33; R2 Rb Rc Rd Re Ra 34; R2 Ra Rb Rc Rd Re 35;
  R2 Re Ra Rb Rc Rd 36; R2 Rd Re Ra Rb Rc 37; R2 Rc Rd Re Ra Rb 38; R2 Rb Rc Rd Re Ra 39;
  R3 Ra Rb Rc Rd Re 40; R3 Re Ra Rb Rc Rd 41; R3 Rd Re Ra Rb Rc 42; R3 Rc Rd Re Ra Rb 43;
  R3 Rb Rc Rd Re Ra 44; R3 Ra Rb Rc Rd Re 45; R3 Re Ra Rb Rc Rd 46; R3 Rd Re Ra Rb Rc 47;
  R3 Rc Rd Re Ra Rb 48; R3 Rb Rc Rd Re Ra 49; R3 Ra Rb Rc Rd Re 50; R3 Re Ra Rb Rc Rd 51;
  R3 Rd Re Ra Rb Rc 52; R3 Rc Rd Re Ra Rb 53; R3 Rb Rc Rd Re Ra 54; R3 Ra Rb Rc Rd Re 55;
  R3 Re Ra Rb Rc Rd 56; R3 Rd Re Ra Rb Rc 57; R3 Rc Rd Re Ra Rb 58; R3 Rb Rc Rd Re Ra 59;
  R4 Ra Rb Rc Rd Re 60; R4 Re Ra Rb Rc Rd 61; R4 Rd Re Ra Rb Rc 62; R4 Rc Rd Re Ra Rb 63;
  R4 Rb Rc Rd Re Ra 64; R4 Ra Rb Rc Rd Re 65; R4 Re Ra Rb Rc Rd 66; R4 Rd Re Ra Rb Rc 67;
  R4 Rc Rd Re Ra Rb 68; R4 Rb Rc Rd Re Ra 69; R4 Ra Rb Rc Rd Re 70; R4 Re Ra Rb Rc Rd 71;
  R4 Rd Re Ra Rb Rc 72; R4 Rc Rd Re Ra Rb 73; R4 Rb Rc Rd Re Ra 74; R4 Ra Rb Rc Rd Re 75;
  R4 Re Ra Rb Rc Rd 76; R4 Rd Re Ra Rb Rc 77; R4 Rc Rd Re Ra Rb 78; R4 Rb Rc Rd Re Ra 79].

(** * The functions *)

(** [SHA1_Transform(state, arr + off)]: without SHA1HANDSOFF the block is the caller's
    array itself, which the expansion overwrites. *)
Definition SHA1_Transform (st : list Z) (arr : list Z) (off : Z) : res (list Z * list Z) :=
  if decide (0 <= off /\ off + 64 <= Z.of_nat (length arr)) then
    let o := Z.to_nat off in
    let at_ k := nth k st 0 in
    let block := l_of_c (take 64 (drop o arr)) in
    let r := Regs (at_ 0%nat) (at_ 1%nat) (at_ 2%nat) (at_ 3%nat) (at_ 4%nat) in
    let '(r', block') := fold_left (fun s f => f s) rounds (r, block) in
    inl ([u32 (at_ 0%nat + ra r'); u32 (at_ 1%nat + rb r'); u32 (at_ 2%nat + rc r');
          u32 (at_ 3%nat + rd r'); u32 (at_ 4%nat + re r')],
         take o arr ++ c_of_l block' ++ drop (o + 64) arr)
  else inr SegFault.

Definition SHA1_Init (context : SHA1_CTX) : SHA1_CTX :=
  Ctx [0x67452301; 0xEFCDAB89; 0x98BADCFE; 0x10325476; 0xC3D2E1F0] 0 0 (buffer context).

(** [memcpy(&dst[j], &src[i], n)]. *)
Definition memcpy (dst : list Z) (j : Z) (src : list Z) (i n : Z) : res (list Z) :=
  if decide (0 <= j /\ 0 <= i /\ 0 <= n /\ j + n <= Z.of_nat (length dst) /\ i + n <= Z.of_nat (length src)) then
    inl (take (Z.to_nat j) dst ++ take (Z.to_nat n) (drop (Z.to_nat i) src) ++ drop (Z.to_nat (j + n)) dst)
  else inr SegFault.

(** [for ( ; i + 63 < len; i += 64) SHA1_Transform(context->state, data + i);] *)
Fixpoint SHA1_Update_loop (fuel : nat) (st data : list Z) (i len : Z) : res (list Z * list Z * Z) :=
  match fuel with
  | O => inr OutOfFuel
  | S fuel =>
      if u64 (i + 63) <? len then
        let* (st', data') := SHA1_Transform st data i in
        SHA1_Update_loop fuel st' data' (u64 (i + 64)) len
      else inl (st, data, i)
  end.

(** The context and the caller's data after the call. *)
Definition SHA1_Update (fuel : nat) (context : SHA1_CTX) (data : list Z) (len : Z) : res (SHA1_CTX * list Z) :=
  let j := Z.land (Z.shiftr (count0 context) 3) 63 in
  let bits := u64 (Z.shiftl len 3) in
  let c0 := u32 (u64 (count0 context + bits)) in
  let c1 := if c0 <? bits then u32 (count1 context + 1) else count1 context in
  let c1 := u32 (u64 (c1 + Z.shiftr len 29)) in
  let* (st, buf, dat, j, i) :=
    if 63 <? u64 (j + len) then
      let i := 64 - j in
      let* buf := memcpy (buffer context) j data 0 i in
      let* (st, buf) := SHA1_Transform (state context) buf 0 in
      let* (st, dat, i) := SHA1_Update_loop fuel st data i len in
      inl (st, buf, dat, 0, i)
    else inl (state context, buffer context, data, j, 0) in
  let* buf := memcpy buf j dat i (u64 (len - i)) in
  inl (Ctx st c0 c1 buf, dat).

(** [while ((context->count[0] & 504) != 448) SHA1_Update(context, "\0", 1);] *)
Fixpoint SHA1_Final_pad (fuel : nat) (context : SHA1_CTX) : res SHA1_CTX :=
  match fuel with
  | O => inr OutOfFuel
  | S fuel =>
      if negb (Z.land (count0 context) 504 =? 448) then
        let* (context, _) := SHA1_Update 1 context [0] 1 in
        SHA1_Final_pad fuel context
      else inl context
  end.

(** The wiped context and the digest. *)
Definition SHA1_Final (context : SHA1_CTX) : res (SHA1_CTX * list Z) :=
  let finalcount := map (fun i => byte_of (if decide (4 <= i)%nat then count0 context else count1 context)
                                          (Z.of_nat (3 - Nat.land i 3))) (seq 0 8) in
  let* (context, _) := SHA1_Update 1 context [128] 1 in
  let* context := SHA1_Final_pad 64 context in
  let* (context, _) := SHA1_Update 1 context finalcount 8 in
  let digest := map (fun i => byte_of (nth (Nat.shiftr i 2) (state context) 0)
                                      (Z.of_nat (3 - Nat.land i 3))) (seq 0 (Z.to_nat SHA1_DIGEST_SIZE)) in
  inl (Ctx (repeat 0 5) 0 0 (repeat 0 64), digest).

(** A message hashed piece by piece, as the loop over a file in [main] does. *)
Fixpoint SHA1_Updates (context : SHA1_CTX) (pieces : list (list Z)) : res SHA1_CTX :=
  match pieces with
  | [] => inl context
  | d :: pieces =>
      let* (context, _) := SHA1_Update (S (length d)) context d (Z.of_nat (length d)) in
      SHA1_Updates context pieces
  end.

Definition SHA1 (context : SHA1_CTX) (pieces : list (list Z)) : res (list Z) :=
  let* context := SHA1_Updates (SHA1_Init context) pieces in
  let* (_, digest) := SHA1_Final context in
  inl digest.

(** [hash] of demo/main.c: the digest of a digest. *)
Definition hash (ctx : SHA1_CTX) (in_ : list Z) : res (list Z) :=
  let* (ctx, _) := SHA1_Update 1 (SHA1_Init ctx) in_ SHA1_DIGEST_SIZE in
  let* (_, out) := SHA1_Final ctx in
  inl out.
End build.

(** * Printing a digest *)

Definition hex_digit (n : Z) : ascii := nth (Z.to_nat n) (list_ascii_of_string "0123456789ABCDEF") "0"%char.

(** [sprintf(c, "%02X", b)]. *)
Definition hex_byte (b : Z) : list ascii := [hex_digit (b / 16); hex_digit (b mod 16)].

(** Four bytes and a space per word; the last space is replaced by the terminator. *)
Definition digest_to_hex (digest : list Z) : string :=
  let out := mjoin (map (fun i => mjoin (map (fun j => hex_byte (nth (i * 4 + j) digest 0)) (seq 0 4)) ++ [" "%char])
                        (seq 0 (Z.to_nat SHA1_DIGEST_SIZE / 4))) in
  string_of_list_ascii (take (length out - 1) out).

(** The bytes of a C string. *)
Definition bytes_of (s : string) : list Z := map (fun a => Z.of_nat (nat_of_ascii a)) (list_ascii_of_string s).

Definition test_data : list string :=
  ["abc"; "abcdbcdecdefdefgefghfghighijhijkijkljklmklmnlmnomnopnopq"]%string.

Definition test_results : list string :=
  ["A9993E36 4706816A BA3E2571 7850C26C 9CD0D89D"; "84983E44 1C3BD26E BAAE4AA1 F95129E5 E54670F1"]%string.

(** The loop of the self test over the vectors: 1 at the first mismatch. *)
Fixpoint test_vectors (big_endian : bool) (context : SHA1_CTX) (data results : list string) : res Z :=
  match data, results with
  | d :: data, r :: results =>
      let* digest := SHA1 big_endian context [bytes_of d] in
      if String.eqb (digest_to_hex digest) r then test_vectors big_endian context data results else inl 1
  | _, _ => inl 0
  end.
