(* ===== verification/Sha1Proof.v ===== *)
(** Correctness of [Sha1]: the unrolled, in-place rounds compute the compression
    function of FIPS PUB 180-1, a message may be fed in pieces of any length, and the
    digest is the standard's; and where the length counter of a single call goes
    wrong. *)
From Stdlib Require Import ZifyNat Ascii String.
From S2P Require Import Prelude Machine Sha1.

Open Scope Z_scope.
Open Scope list_scope.

(** * The standard *)

Module Fips.
Definition f (t : nat) (b c d : Z) : Z :=
  if decide (t < 20)%nat then Z.lor (Z.land b c) (Z.land (Z.ldiff (2 ^ 32 - 1) b) d)
  else if decide (t < 40)%nat then Z.lxor b (Z.lxor c d)
  else if decide (t < 60)%nat then Z.lor (Z.lor (Z.land b c) (Z.land b d)) (Z.land c d)
  else Z.lxor b (Z.lxor c d).

Definition K (t : nat) : Z :=
  if decide (t < 20)%nat then 0x5A827999 else if decide (t < 40)%nat then 0x6ED9EBA1
  else if decide (t < 60)%nat then 0x8F1BBCDC else 0xCA62C1D6.

(** The first [n] words of the schedule of the block [M]. *)
Fixpoint schedule (M : list Z) (n : nat) : list Z :=
  match n with
  | O => []
  | S t =>
      let W := schedule M t in
      W ++ [if decide (t < 16)%nat then nth t M 0
            else rol (Z.lxor (Z.lxor (Z.lxor (nth (t - 3) W 0) (nth (t - 8) W 0)) (nth (t - 14) W 0))
                             (nth (t - 16) W 0)) 1]
  end.

Definition step (W : list Z) (s : Z * Z * Z * Z * Z) (t : nat) : Z * Z * Z * Z * Z :=
  let '(a, b, c, d, e) := s in
  (u32 (rol a 5 + f t b c d + e + nth t W 0 + K t), a, rol b 30, c, d).

Definition compress (H : list Z) (M : list Z) : list Z :=
  let h k := nth k H 0 in
  let '(a, b, c, d, e) :=
    fold_left (step (schedule M 80)) (seq 0 80) (h 0%nat, h 1%nat, h 2%nat, h 3%nat, h 4%nat) in
  [u32 (h 0%nat + a); u32 (h 1%nat + b); u32 (h 2%nat + c); u32 (h 3%nat + d); u32 (h 4%nat + e)].

Definition H0 : list Z := [0x67452301; 0xEFCDAB89; 0x98BADCFE; 0x10325476; 0xC3D2E1F0].

(** The message after the bit 1, the zeros and the length in bits. *)
Definition pad (msg : list Z) : list Z :=
  let l := 8 * Z.of_nat (length msg) in
  msg ++ 128 :: repeat 0 (Z.to_nat ((55 - Z.of_nat (length msg)) mod 64))
      ++ map (byte_of l) [7; 6; 5; 4; 3; 2; 1; 0].

(** Hash the whole 64-byte blocks of [bs]. *)
Fixpoint blocks (fuel : nat) (H : list Z) (bs : list Z) : list Z :=
  match fuel with
  | O => H
  | S fuel =>
      if decide (64 <= length bs)%nat then blocks fuel (compress H (words be_word (take 64 bs))) (drop 64 bs)
      else H
  end.

Definition hash_blocks (H bs : list Z) : list Z := blocks (length bs) H bs.

Definition sha1 (msg : list Z) : list Z := mjoin (map be_bytes (hash_blocks H0 (pad msg))).
End Fips.

Notation byte b := (0 <= b < 256).

(** * Words *)

Lemma rol_range v n : in_u32 v -> 0 <= n <= 32 -> in_u32 (rol v n).
Proof.
  intros Hv Hn. unfold rol. split.
  - apply Z.lor_nonneg. split; [apply u32_range|]. apply Z.shiftr_nonneg. lia.
  - pose proof (u32_range (Z.shiftl v n)).
    assert (0 <= Z.shiftr v (32 - n) < 2 ^ 32).
    { rewrite Z.shiftr_div_pow2 by lia. split; [apply Z.div_pos; lia|].
      apply Z.le_lt_trans with v; [|lia]. apply Z.div_le_upper_bound; [lia|]. nia. }
    destruct (Z.eq_dec (Z.lor (u32 (Z.shiftl v n)) (Z.shiftr v (32 - n))) 0) as [->|]; [lia|].
    assert (0 <= Z.lor (u32 (Z.shiftl v n)) (Z.shiftr v (32 - n))) by (apply Z.lor_nonneg; lia).
    apply Z.log2_lt_cancel. rewrite Z.log2_lor, Z.log2_pow2 by lia.
    assert (forall x, in_u32 x -> Z.log2 x < 32).
    { intros x ?. destruct (Z.eq_dec x 0) as [->|]; [done|]. apply Z.log2_lt_pow2; lia. }
    apply Z.max_lub_lt; auto.
Qed.

Lemma testbit_rol v n i : in_u32 v -> 0 <= n <= 32 -> 0 <= i < 32 ->
  Z.testbit (rol v n) i = Z.testbit v ((i - n) mod 32).
Proof.
  intros Hv Hn Hi. unfold rol. rewrite Z.lor_spec, Z.shiftr_spec by lia.
  unfold u32. rewrite Z.mod_pow2_bits_low, Z.shiftl_spec by lia. destruct (decide (n <= i)).
  - rewrite (testbit_high v 32 (i + (32 - n))), orb_false_r, Z.mod_small by lia. done.
  - rewrite Z.testbit_neg_r by lia. simpl.
    replace (i - n) with (i + (32 - n) + -1 * 32) by lia. rewrite Z.mod_add, Z.mod_small by lia. done.
Qed.

(** Two words are equal when their 32 bits are. *)
Lemma u32_bits_inj x y : in_u32 x -> in_u32 y ->
  (forall i, 0 <= i < 32 -> Z.testbit x i = Z.testbit y i) -> x = y.
Proof.
  intros Hx Hy HE. apply Z.bits_inj'. intros i ?. destruct (decide (i < 32)); [apply HE; lia|].
  by rewrite !(testbit_high _ 32) by lia.
Qed.

Lemma testbit_cat b w i : byte b -> 0 <= i ->
  Z.testbit (b + 2 ^ 8 * w) i = if i <? 8 then Z.testbit b i else Z.testbit w (i - 8).
Proof.
  intros Hb Hi. destruct (Z.ltb_spec i 8).
  - rewrite <- (Z.mod_pow2_bits_low _ 8 i), Z.mul_comm, Z.mod_add, Z.mod_small by lia. done.
  - replace i with (i - 8 + 8) at 1 by lia. rewrite <- Z.div_pow2_bits by lia.
    rewrite Z.mul_comm, Z.div_add, Z.div_small by lia. done.
Qed.

Lemma le_word_range bs : Forall (fun b => byte b) bs -> 0 <= le_word bs < 2 ^ (8 * Z.of_nat (length bs)).
Proof.
  induction 1 as [|b bs Hb _ IH]; [done|]. cbn [le_word foldr length]. fold (le_word bs).
  replace (8 * Z.of_nat (S (length bs))) with (8 + 8 * Z.of_nat (length bs)) by lia.
  rewrite Z.pow_add_r by lia. nia.
Qed.

Ltac natlia := zify; Z.to_euclidean_division_equations; lia.

Ltac bytes := repeat first [apply Forall_nil_2 | apply Forall_cons_2]; try done.

Lemma le_word_testbit b0 b1 b2 b3 i :
  byte b0 -> byte b1 -> byte b2 -> byte b3 -> 0 <= i < 32 ->
  Z.testbit (le_word [b0; b1; b2; b3]) i =
  Z.testbit (if i <? 8 then b0 else if i <? 16 then b1 else if i <? 24 then b2 else b3) (i mod 8).
Proof.
  intros H0 H1 H2 H3 Hi. cbn [le_word foldr].
  rewrite testbit_cat by lia. destruct (Z.ltb_spec i 8); [by rewrite Z.mod_small by lia|].
  rewrite testbit_cat by lia. replace (i - 8 <? 8) with (i <? 16) by lia.
  destruct (Z.ltb_spec i 16); [f_equal; zlia|].
  rewrite testbit_cat by lia. replace (i - 8 - 8 <? 8) with (i <? 24) by lia.
  destruct (Z.ltb_spec i 24); [f_equal; zlia|].
  rewrite testbit_cat by lia. rewrite (proj2 (Z.ltb_lt _ 8)) by lia. f_equal; zlia.
Qed.

Lemma word_range big bs : Forall (fun b => byte b) bs -> length bs = 4%nat ->
  in_u32 ((if big : bool then be_word else le_word) bs).
Proof.
  intros Hb Hl. destruct big.
  - pose proof (le_word_range (rev bs) (List.Forall_rev Hb)) as H. by rewrite length_rev, Hl in H.
  - pose proof (le_word_range bs Hb) as H. by rewrite Hl in H.
Qed.

Lemma mask_bits i : 0 <= i < 32 ->
  Z.testbit 0xFF00FF00 i = (8 <=? i) && (i <? 16) || (24 <=? i) /\
  Z.testbit 0x00FF00FF i = (i <? 8) || (16 <=? i) && (i <? 24).
Proof.
  intros Hi.
  assert (Hall : Forall (fun i => Z.testbit 0xFF00FF00 i = (8 <=? i) && (i <? 16) || (24 <=? i) /\
    Z.testbit 0x00FF00FF i = (i <? 8) || (16 <=? i) && (i <? 24)) (seqZ 0 32)).
  { repeat (apply Forall_cons; split; [done|]). by apply Forall_nil. }
  rewrite Forall_forall in Hall. apply Hall, elem_of_seqZ. lia.
Qed.

Lemma land_u32 x y : in_u32 y -> in_u32 (Z.land x y).
Proof.
  intros Hy. rewrite <- (u32_small y) by done. unfold u32.
  rewrite <- Z.land_ones, Z.land_assoc, Z.land_ones by lia. apply u32_range.
Qed.

Lemma lor_u32 x y : in_u32 x -> in_u32 y -> in_u32 (Z.lor x y).
Proof.
  intros Hx Hy. rewrite <- (u32_small x), <- (u32_small y) by done. unfold u32.
  rewrite <- !Z.land_ones, <- Z.land_lor_distr_l, Z.land_ones by lia. apply u32_range.
Qed.

(** [blk0] on a little-endian machine reads the word with the high byte first. *)
Lemma bswap_word b0 b1 b2 b3 : byte b0 -> byte b1 -> byte b2 -> byte b3 ->
  Z.lor (Z.land (rol (le_word [b0; b1; b2; b3]) 24) 0xFF00FF00)
        (Z.land (rol (le_word [b0; b1; b2; b3]) 8) 0x00FF00FF) = be_word [b0; b1; b2; b3].
Proof.
  intros H0 H1 H2 H3.
  assert (Hw : in_u32 (le_word [b0; b1; b2; b3])) by (apply (word_range false); [bytes|done]).
  assert (Hb : in_u32 (be_word [b0; b1; b2; b3])) by (apply (word_range true); [bytes|done]).
  apply u32_bits_inj; [apply lor_u32; by apply land_u32|done|]. intros i Hi.
  change (be_word [b0; b1; b2; b3]) with (le_word [b3; b2; b1; b0]).
  pose proof (mask_bits i Hi) as [HF H0F].
  rewrite Z.lor_spec, !Z.land_spec, HF, H0F, !testbit_rol, !le_word_testbit by (done || zlia).
  destruct (Z.ltb_spec i 8), (Z.ltb_spec i 16), (Z.ltb_spec i 24); try lia;
    rewrite ?(proj2 (Z.leb_le 8 i)), ?(proj2 (Z.leb_le 16 i)), ?(proj2 (Z.leb_le 24 i)) by lia;
    rewrite ?(proj2 (Z.leb_gt 8 i)), ?(proj2 (Z.leb_gt 16 i)), ?(proj2 (Z.leb_gt 24 i)) by lia;
    simpl; rewrite ?andb_true_r, ?andb_false_r, ?orb_false_r; simpl;
    repeat (case Z.ltb_spec; intros); first [f_equal; zlia | exfalso; zlia].
Qed.

(** * The rounds *)

(** The variable in position [n], counting round the five. *)
Definition rg (n : nat) : reg :=
  match n mod 5 with 0 => Ra | 1 => Rb | 2 => Rc | 3 => Rd | _ => Re end%nat.

Definition code_f (t : nat) : Z -> Z -> Z -> Z :=
  if decide (t < 20)%nat then fun w x y => Z.lxor (Z.land w (Z.lxor x y)) y
  else if decide (t < 40)%nat then fun w x y => Z.lxor (Z.lxor w x) y
  else if decide (t < 60)%nat then fun w x y => Z.lor (Z.land (Z.lor w x) y) (Z.land w x)
  else fun w x y => Z.lxor (Z.lxor w x) y.

Definition code_word (big : bool) (t : nat) : list Z -> nat -> Z * list Z :=
  if decide (t < 16)%nat then blk0 big else blk.

(** Round [t] with the roles of the variables rotated [t] times. *)
Definition round_at (big : bool) (t : nat) : regs * list Z -> regs * list Z :=
  round (code_f t) (code_word big t) (Fips.K t)
    (rg (4 * t)) (rg (4 * t + 1)) (rg (4 * t + 2)) (rg (4 * t + 3)) (rg (4 * t + 4)) t.

Lemma rounds_eq big : rounds big = map (round_at big) (seq 0 80).
Proof. reflexivity. Qed.

Lemma code_f_fips t w x y : in_u32 w -> in_u32 x -> in_u32 y -> code_f t w x y = Fips.f t w x y.
Proof.
  intros Hw Hx Hy. unfold code_f, Fips.f.
  repeat case_decide; apply Z.bits_inj'; intros i Hi;
    change (2 ^ 32 - 1) with (Z.ones 32);
    repeat rewrite ?Z.lor_spec, ?Z.lxor_spec, ?Z.land_spec, ?Z.ldiff_spec; try btauto.
  rewrite Z.testbit_ones_nonneg by lia. destruct (Z.ltb_spec i 32); [btauto|].
  rewrite (testbit_high x 32), (testbit_high y 32) by lia. btauto.
Qed.

(** The registers in the order of their roles before round [t]. *)
Definition view (t : nat) (r : regs) : Z * Z * Z * Z * Z :=
  (get r (rg (4 * t)), get r (rg (4 * t + 1)), get r (rg (4 * t + 2)), get r (rg (4 * t + 3)), get r (rg (4 * t + 4))).

Definition view_ok (v : Z * Z * Z * Z * Z) : Prop :=
  let '(a, b, c, d, e) := v in in_u32 a /\ in_u32 b /\ in_u32 c /\ in_u32 d /\ in_u32 e.

Lemma rg_mod n : rg n = rg (n mod 5).
Proof. unfold rg. by rewrite Nat.Div0.mod_mod. Qed.

Lemma rg_rot t k : rg (4 * t + k) = rg (4 * (t mod 5) + k).
Proof.
  rewrite (rg_mod (4 * t + k)), (rg_mod (4 * (t mod 5) + k)). f_equal.
  rewrite <- (Nat.Div0.add_mod_idemp_l (4 * (t mod 5))), Nat.Div0.mul_mod_idemp_r.
  by rewrite Nat.Div0.add_mod_idemp_l.
Qed.

Lemma round_view big t r l W :
  view_ok (view t r) -> (code_word big t l t).1 = nth t W 0 ->
  let s := round_at big t (r, l) in
  view (S t) s.1 = Fips.step W (view t r) t /\ s.2 = (code_word big t l t).2.
Proof.
  intros Hok Hw. unfold round_at, round. destruct (code_word big t l t) as [b l'].
  cbn [fst snd] in Hw |- *. split; [|done].
  unfold view, view_ok in *. rewrite <- (Nat.add_0_r (4 * t)), <- (Nat.add_0_r (4 * S t)) in *.
  rewrite <- !Nat.add_assoc in *.
  replace (4 * S t)%nat with (4 * t + 4)%nat by lia. rewrite <- !Nat.add_assoc. cbn [Nat.add] in *.
  repeat rewrite (rg_rot t) in *. pose proof (Nat.mod_upper_bound t 5 ltac:(lia)) as Hm.
  unfold Fips.step. subst b.
  destruct Hok as (? & ? & ? & ? & ?).
  destruct (t mod 5)%nat as [|[|[|[|[|]]]]]; [..|lia];
    cbv [rg get set Nat.add Nat.mul Nat.modulo Nat.divmod Nat.sub fst snd ra rb rc rd re] in *;
    rewrite code_f_fips by done; do 5 f_equal; lia.
Qed.

Lemma step_ok W v t : view_ok v -> view_ok (Fips.step W v t).
Proof.
  destruct v as [[[[a b] c] d] e]. intros (? & ? & ? & ? & ?).
  split_and!; try lia; first [apply u32_range | apply rol_range; lia].
Qed.

(** * The schedule in the circular buffer *)

Lemma schedule_length M n : length (Fips.schedule M n) = n.
Proof. induction n as [|n IH]; [done|]. simpl. rewrite length_app, IH; simpl; lia. Qed.

Lemma schedule_nth M n m t : (t < n <= m)%nat -> nth t (Fips.schedule M m) 0 = nth t (Fips.schedule M n) 0.
Proof.
  intros [Ht Hm]. induction Hm as [|m Hm IH]; [done|]. simpl.
  rewrite app_nth1 by (rewrite schedule_length; lia). exact IH.
Qed.

Lemma schedule_at M n t : (t < n)%nat ->
  let W k := nth k (Fips.schedule M n) 0 in
  W t = if decide (t < 16)%nat then nth t M 0
        else rol (Z.lxor (Z.lxor (Z.lxor (W (t - 3)%nat) (W (t - 8)%nat)) (W (t - 14)%nat)) (W (t - 16)%nat)) 1.
Proof.
  intros Ht W. unfold W at 1. rewrite (schedule_nth M (S t)) by lia. cbn [Fips.schedule].
  rewrite app_nth2, schedule_length, Nat.sub_diag by (rewrite schedule_length; lia). cbn [nth].
  case_decide; [done|]. unfold W.
  by rewrite (schedule_nth M t n (t - 3)), (schedule_nth M t n (t - 8)),
    (schedule_nth M t n (t - 14)), (schedule_nth M t n (t - 16)) by lia.
Qed.

(** Before round [t] the block holds the last sixteen words of the schedule; those of
    the block that have not been read yet are as in memory. *)
Definition buffered (big : bool) (W l0 : list Z) (t : nat) (l : list Z) : Prop :=
  length l = 16%nat /\
  (forall s, (s < t <= s + 16)%nat -> nth (s mod 16) l 0 = nth s W 0) /\
  (forall j, (t <= j < 16)%nat -> nth j l 0 = nth j l0 0).

(** The words of [l0] are read as those of [M]. *)
Definition read_as (big : bool) (l0 M : list Z) : Prop :=
  forall t, (t < 16)%nat -> (blk0 big l0 t).1 = nth t M 0.

Lemma nth_insert (l : list Z) i j x : (i < length l)%nat -> nth j (<[i := x]> l) 0 = if decide (i = j) then x else nth j l 0.
Proof.
  intros Hi. rewrite !nth_lookup. case_decide; [subst; by rewrite list_lookup_insert_eq|].
  by rewrite list_lookup_insert_ne.
Qed.

Lemma land_15 n : Nat.land n 15 = (n mod 16)%nat.
Proof. change 15%nat with (Nat.ones 4). by rewrite Nat.land_ones. Qed.

Lemma blk0_value big l l' t : nth t l 0 = nth t l' 0 -> (blk0 big l t).1 = (blk0 big l' t).1.
Proof. intros E. unfold blk0. rewrite E. by destruct big. Qed.

Lemma blk0_nth big l t : (t < length l)%nat ->
  length (blk0 big l t).2 = length l /\
  forall j, nth j (blk0 big l t).2 0 = if decide (t = j) then (blk0 big l t).1 else nth j l 0.
Proof.
  intros Ht. unfold blk0. destruct big; cbn [fst snd].
  - split; [done|]. intros j. case_decide; by subst.
  - rewrite length_insert. split; [done|]. intros j. by apply nth_insert.
Qed.

Lemma blk_nth l t : length l = 16%nat ->
  length (blk l t).2 = 16%nat /\
  forall j, nth j (blk l t).2 0 = if decide (t mod 16 = j)%nat then (blk l t).1 else nth j l 0.
Proof.
  intros Hl. unfold blk. cbn [fst snd]. rewrite length_insert, land_15. split; [done|]. intros j.
  apply nth_insert. rewrite Hl. apply Nat.mod_upper_bound. lia.
Qed.

Lemma mod16 s t : (s < t <= s + 16)%nat -> (s mod 16 = t mod 16)%nat -> (t = s + 16)%nat.
Proof. intros. natlia. Qed.

Lemma code_word_buffered big M W l0 t l :
  W = Fips.schedule M 80 -> length l0 = 16%nat -> read_as big l0 M -> (t < 80)%nat -> buffered big W l0 t l ->
  (code_word big t l t).1 = nth t W 0 /\ buffered big W l0 (S t) (code_word big t l t).2.
Proof.
  intros EW Hl0 HM Ht (Hl & Hs & Hj). unfold code_word.
  pose proof (schedule_at M 80 t Ht) as HW. cbv zeta in HW. rewrite <- EW in HW. clear EW.
  case_decide as H16.
  - assert (E : (blk0 big l t).1 = nth t W 0).
    { rewrite (blk0_value _ l l0) by (apply Hj; lia). by rewrite HM, HW by lia. }
    destruct (blk0_nth big l t) as [Hl' Hn]; [lia|]. rewrite E in Hn. split; [done|].
    split_and!; [by rewrite Hl'| |]; intros s ?; rewrite Hn; case_decide as D.
    + rewrite D. rewrite Nat.mod_small; [done|]. pose proof (Nat.mod_upper_bound s 16). lia.
    + apply Hs. rewrite Nat.mod_small in D; lia.
    + lia.
    + apply Hj. lia.
  - assert (E : (blk l t).1 = nth t W 0).
    { unfold blk. cbn [fst]. rewrite !land_15, HW.
      replace ((t + 13) mod 16)%nat with ((t - 3) mod 16)%nat by natlia.
      replace ((t + 8) mod 16)%nat with ((t - 8) mod 16)%nat by natlia.
      replace ((t + 2) mod 16)%nat with ((t - 14) mod 16)%nat by natlia.
      replace (t mod 16)%nat with ((t - 16) mod 16)%nat by natlia.
      by rewrite !Hs by lia. }
    destruct (blk_nth l t Hl) as [Hl' Hn]. rewrite E in Hn. split; [done|].
    split_and!; [done| |]; intros s ?; [|lia]. rewrite Hn. case_decide as D.
    + destruct (decide (s = t)) as [->|]; [done|]. assert (t = s + 16)%nat by (apply mod16; lia). lia.
    + apply Hs. assert (s <> t) by congruence. lia.
Qed.

(** The working variables and the block after the first [n] rounds. *)
Lemma rounds_spec big M W l0 r0 n :
  W = Fips.schedule M 80 -> length l0 = 16%nat -> read_as big l0 M -> view_ok (view 0 r0) -> (n <= 80)%nat ->
  let s := fold_left (fun s f => f s) (map (round_at big) (seq 0 n)) (r0, l0) in
  view n s.1 = fold_left (Fips.step W) (seq 0 n) (view 0 r0) /\ view_ok (view n s.1) /\ buffered big W l0 n s.2.
Proof.
  intros EW Hl0 HM Hok Hn s. induction n as [|n IH].
  - split; [done|]. split; [done|]. split; [done|]. split; [intros; lia|done].
  - subst s. rewrite seq_S, map_app, !fold_left_app. cbn [map fold_left Nat.add]. destruct IH as (IHv & IHok & IHb); [lia|].
    destruct (fold_left _ _ _) as [r l]. cbn [fst snd] in IHv, IHok, IHb |- *.
    destruct (code_word_buffered big M W l0 n l) as [Ew Hb']; [done..|].
    destruct (round_view big n r l W) as [Ev El]; [done..|]. rewrite Ev, El, <- IHv. split; [done|]. split; [by apply step_ok|done].
Qed.

(** * Bytes and words of a block *)

Lemma words_nth word t c : (4 * t + 4 <= length c)%nat -> nth t (words word c) 0 = word (take 4 (drop (4 * t) c)).
Proof.
  revert c. induction t as [|t IH]; intros [|b0 [|b1 [|b2 [|b3 c]]]] Hc; cbn [length] in Hc; try lia; [done|].
  cbn [words nth]. replace (4 * S t)%nat with (S (S (S (S (4 * t))))) by lia. cbn [drop]. apply IH. lia.
Qed.

Lemma words_length word n c : length c = (4 * n)%nat -> length (words word c) = n.
Proof.
  revert c. induction n as [|n IH]; intros [|b0 [|b1 [|b2 [|b3 c]]]] Hc; cbn [length] in Hc; try lia; [done|].
  cbn [words length]. f_equal. apply IH. lia.
Qed.

Lemma read_block big c : Forall (fun b => byte b) c -> length c = 64%nat -> read_as big (l_of_c big c) (words be_word c).
Proof.
  intros Hb Hl t Ht. unfold blk0, l_of_c. rewrite (words_nth be_word) by lia.
  rewrite words_nth by lia. destruct big; [done|]. cbn [fst].
  assert (Hq : Forall (fun b => byte b) (take 4 (drop (4 * t) c))) by by apply Forall_take, Forall_drop.
  assert (Hq4 : length (take 4 (drop (4 * t) c)) = 4%nat) by (rewrite length_take, length_drop; lia).
  destruct (take 4 (drop (4 * t) c)) as [|b0 [|b1 [|b2 [|b3 [|]]]]]; try done.
  rewrite !Forall_cons in Hq. destruct Hq as (? & ? & ? & ? & _). by apply bswap_word.
Qed.

Lemma byte_of_range w k : byte (byte_of w k).
Proof.
  unfold byte_of. change 255 with (Z.ones 8). rewrite Z.land_ones by lia. by apply Z.mod_pos_bound.
Qed.

Lemma c_of_l_bytes big l : Forall (fun b => byte b) (c_of_l big l).
Proof.
  unfold c_of_l. apply Forall_join, Forall_map, Forall_true. intros w.
  destruct big; repeat apply Forall_cons_2; try apply byte_of_range; by apply Forall_nil.
Qed.

Lemma c_of_l_length big l : length (c_of_l big l) = (4 * length l)%nat.
Proof.
  induction l as [|w l IH]; [done|].
  change (c_of_l big (w :: l)) with ((if big then be_bytes else le_bytes) w ++ c_of_l big l).
  rewrite length_app, IH. destruct big; cbn; lia.
Qed.

(** The block after eighty rounds. *)
Lemma buffered_80 big M W l0 l : W = Fips.schedule M 80 -> buffered big W l0 80 l -> l = drop 64 W.
Proof.
  intros EW (Hl & Hs & _). assert (HW : length W = 80%nat) by (by rewrite EW, schedule_length). clear EW.
  apply (nth_ext _ _ 0 0); [rewrite length_drop; lia|]. intros n Hn.
  rewrite (nth_lookup (drop 64 W)), lookup_drop, <- nth_lookup, <- Hs by lia. f_equal. natlia.
Qed.

Notation u32s l := (Forall (fun w => in_u32 w) l).

Lemma compress_words H M : length (Fips.compress H M) = 5%nat /\ u32s (Fips.compress H M).
Proof.
  unfold Fips.compress. destruct (fold_left _ _ _) as [[[[a b] c] d] e]. split; [done|].
  repeat apply Forall_cons_2; try apply u32_range. by apply Forall_nil.
Qed.

Section transform.
Context (big : bool) (st arr : list Z) (off : Z).
Context (Hst : length st = 5%nat) (Hst32 : u32s st) (Harr : Forall (fun b => byte b) arr).
Context (Hoff : 0 <= off) (Hend : off + 64 <= Z.of_nat (length arr)).

Let o := Z.to_nat off.
Let M := words be_word (take 64 (drop o arr)).

Lemma SHA1_Transform_run :
  SHA1_Transform big st arr off =
    inl (Fips.compress st M, take o arr ++ c_of_l big (drop 64 (Fips.schedule M 80)) ++ drop (o + 64) arr).
Proof using All.
  unfold SHA1_Transform. rewrite decide_True by done. fold o.
  assert (Hc : length (take 64 (drop o arr)) = 64%nat) by (rewrite length_take, length_drop; lia).
  destruct st as [|s0 [|s1 [|s2 [|s3 [|s4 [|]]]]]]; try done. cbn [nth].
  pose proof (rounds_spec big M (Fips.schedule M 80) (l_of_c big (take 64 (drop o arr)))
    (Regs s0 s1 s2 s3 s4) 80 eq_refl) as Hr.
  destruct Hr as (Hv & _ & Hb).
  - by apply words_length.
  - apply read_block; [by apply Forall_take, Forall_drop|done].
  - rewrite !Forall_cons in Hst32. destruct Hst32 as (H1 & H2 & H3 & H4 & H5 & _).
    exact (conj H1 (conj H2 (conj H3 (conj H4 H5)))).
  - done.
  - rewrite <- rounds_eq in Hv, Hb. unfold Fips.compress. cbn [nth].
    change (view 0 (Regs s0 s1 s2 s3 s4)) with (s0, s1, s2, s3, s4) in Hv. rewrite <- Hv.
    destruct (fold_left _ (rounds big) _) as [[a b c d e] l]. cbn [fst snd] in *.
    rewrite (buffered_80 _ _ _ _ _ eq_refl Hb). reflexivity.
Qed.

Lemma transformed_array :
  let arr' := take o arr ++ c_of_l big (drop 64 (Fips.schedule M 80)) ++ drop (o + 64) arr in
  length arr' = length arr /\ Forall (fun b => byte b) arr' /\
  take o arr' = take o arr /\ drop (o + 64) arr' = drop (o + 64) arr.
Proof using All.
  assert (Hl : length (c_of_l big (drop 64 (Fips.schedule M 80))) = 64%nat).
  { by rewrite c_of_l_length, length_drop, schedule_length. }
  assert (Ho : length (take o arr) = o) by (rewrite length_take; lia).
  cbv zeta. split_and!.
  - rewrite !length_app, length_drop, Hl, Ho. lia.
  - rewrite !Forall_app. split_and!; [by apply Forall_take|apply c_of_l_bytes|by apply Forall_drop].
  - by rewrite take_app_length'.
  - by rewrite app_assoc, drop_app_length' by (rewrite length_app; lia).
Qed.
End transform.

(** * Hashing whole blocks *)

Lemma blocks_fuel fuel H bs : (length bs <= fuel)%nat -> Fips.blocks fuel H bs = Fips.hash_blocks H bs.
Proof.
  unfold Fips.hash_blocks. revert H bs.
  induction fuel as [fuel IH] using (well_founded_induction lt_wf). intros H bs Hl.
  destruct fuel as [|fuel]; [by replace (length bs) with 0%nat by lia|].
  destruct bs as [|b bs']; [done|]. set (bs := b :: bs') in *.
  change (length bs) with (S (length bs')) in *. cbn [Fips.blocks].
  case_decide; [|done]. assert (length (drop 64 bs) <= length bs')%nat.
  { rewrite length_drop. subst bs; simpl length; lia. }
  rewrite IH by lia. symmetry. apply IH; lia.
Qed.

Lemma hash_blocks_short H bs : (length bs < 64)%nat -> Fips.hash_blocks H bs = H.
Proof. intros. unfold Fips.hash_blocks. destruct bs; [done|]. cbn [Fips.blocks length] in *. by rewrite decide_False by lia. Qed.

Lemma hash_blocks_step H bs : (64 <= length bs)%nat ->
  Fips.hash_blocks H bs = Fips.hash_blocks (Fips.compress H (words be_word (take 64 bs))) (drop 64 bs).
Proof.
  intros Hl. unfold Fips.hash_blocks at 1. destruct (length bs) as [|n] eqn:E; [lia|].
  cbn [Fips.blocks]. rewrite decide_True by lia. apply blocks_fuel. rewrite length_drop. lia.
Qed.

Lemma hash_blocks_app n H a b : length a = (64 * n)%nat ->
  Fips.hash_blocks H (a ++ b) = Fips.hash_blocks (Fips.hash_blocks H a) b.
Proof.
  revert H a. induction n as [|n IH]; intros H a Ha.
  - destruct a; [|done]. cbn [app]. by rewrite (hash_blocks_short H []) by (simpl; lia).
  - rewrite (hash_blocks_step H (a ++ b)), (hash_blocks_step H a) by (rewrite ?length_app; lia).
    rewrite take_app_le, drop_app_le by lia. apply IH. rewrite length_drop. lia.
Qed.

Lemma hash_blocks_words fuel H bs : length H = 5%nat -> u32s H ->
  length (Fips.blocks fuel H bs) = 5%nat /\ u32s (Fips.blocks fuel H bs).
Proof.
  revert H bs. induction fuel as [|fuel IH]; intros H bs ? ?; [done|]. cbn [Fips.blocks].
  case_decide; [|done]. apply IH; apply compress_words.
Qed.

(** The bytes of [msg] that do not fill a block yet. *)
Definition pending (msg : list Z) : nat := (length msg mod 64)%nat.

Definition rest (msg : list Z) : list Z := drop (length msg - pending msg) msg.

Lemma pending_lt msg : (pending msg < 64)%nat.
Proof. apply Nat.mod_upper_bound. lia. Qed.

Lemma pending_le msg : (pending msg <= length msg)%nat.
Proof. apply Nat.Div0.mod_le. Qed.

Lemma rest_length msg : length (rest msg) = pending msg.
Proof. unfold rest. rewrite length_drop. pose proof (pending_le msg). lia. Qed.

Lemma full_blocks msg : length (take (length msg - pending msg) msg) = (64 * (length msg / 64))%nat.
Proof. rewrite length_take. unfold pending. pose proof (Nat.div_mod_eq (length msg) 64). lia. Qed.

Lemma hash_blocks_rest H msg d :
  Fips.hash_blocks H (msg ++ d) = Fips.hash_blocks (Fips.hash_blocks H msg) (rest msg ++ d).
Proof.
  rewrite <- (take_drop (length msg - pending msg) msg) at 1 2. fold (rest msg).
  rewrite <- app_assoc, !(hash_blocks_app _ _ _ _ (full_blocks msg)). f_equal.
  symmetry. apply hash_blocks_short. rewrite rest_length. apply pending_lt.
Qed.

(** * Feeding a message *)

(** The context after the bytes [msg]. *)
Record absorbed (ctx : SHA1_CTX) (msg : list Z) : Prop := {
  ab_state : state ctx = Fips.hash_blocks Fips.H0 msg;
  ab_count0 : count0 ctx = u32 (8 * Z.of_nat (length msg));
  ab_count1 : count1 ctx = u32 (8 * Z.of_nat (length msg) / 2 ^ 32);
  ab_length : length (buffer ctx) = 64%nat;
  ab_bytes : Forall (fun b => byte b) (buffer ctx);
  ab_buffer : take (pending msg) (buffer ctx) = rest msg;
}.

Lemma absorbed_state ctx msg : absorbed ctx msg -> length (state ctx) = 5%nat /\ u32s (state ctx).
Proof.
  intros Hab. rewrite (ab_state _ _ Hab). apply hash_blocks_words; [done|].
  repeat apply Forall_cons_2; try lia. by apply Forall_nil.
Qed.

Lemma absorbed_j ctx msg : absorbed ctx msg -> Z.land (Z.shiftr (count0 ctx) 3) 63 = Z.of_nat (pending msg).
Proof.
  intros Hab. rewrite (ab_count0 _ _ Hab). change 63 with (Z.ones 6).
  rewrite Z.land_ones, Z.shiftr_div_pow2 by lia. unfold pending. rewrite Nat2Z.inj_mod. zlia.
Qed.

Lemma memcpy_run dst j src i n :
  0 <= j -> 0 <= i -> 0 <= n -> j + n <= Z.of_nat (length dst) -> i + n <= Z.of_nat (length src) ->
  memcpy dst j src i n =
    inl (take (Z.to_nat j) dst ++ take (Z.to_nat n) (drop (Z.to_nat i) src) ++ drop (Z.to_nat (j + n)) dst).
Proof. intros. unfold memcpy. by rewrite decide_True by lia. Qed.

Lemma SHA1_Update_loop_run big fuel st data i :
  length st = 5%nat -> u32s st -> Forall (fun b => byte b) data -> (i <= length data)%nat ->
  Z.of_nat (length data) < 2 ^ 62 -> (length data - i < 64 * fuel)%nat ->
  exists data' i',
    SHA1_Update_loop big fuel st data (Z.of_nat i) (Z.of_nat (length data)) =
      inl (Fips.hash_blocks st (drop i data), data', Z.of_nat i') /\
    (i' + (length data - i) mod 64 = length data)%nat /\
    length data' = length data /\ drop i' data' = drop i' data.
Proof.
  revert st data i. induction fuel as [|fuel IH]; intros st data i Hst Hst32 Hb Hi H62 Hf; [lia|].
  cbn [SHA1_Update_loop]. rewrite u64_small by lia. destruct (Z.ltb_spec (Z.of_nat i + 63) (Z.of_nat (length data))) as [H|H].
  - rewrite SHA1_Transform_run by (done || lia). cbn [rbind]. rewrite u64_small, Nat2Z.id by lia.
    destruct (transformed_array big st data (Z.of_nat i) Hst Hst32 Hb) as (Hl' & Hb' & _ & Hd'); [lia..|].
    rewrite Nat2Z.id in Hl', Hb', Hd'. set (data1 := _ ++ _) in *.
    destruct (compress_words st (words be_word (take 64 (drop i data)))) as [Hc Hc32].
    destruct (IH _ data1 (i + 64)%nat Hc Hc32 Hb') as (data2 & i' & Hrun & Hi' & Hl2 & Hd2); [lia..|].
    rewrite Hl', Nat2Z.inj_add in Hrun. change (Z.of_nat 64) with 64 in Hrun. rewrite Hrun, Hd'.
    exists data2, i'. split; [|split; [|split]].
    + by rewrite (hash_blocks_step st (drop i data)), drop_drop by (rewrite length_drop; lia).
    + rewrite Hl' in Hi'. rewrite <- Hi' at 2. f_equal. replace (length data - i)%nat with (length data - (i + 64) + 1 * 64)%nat by lia.
      by rewrite Nat.Div0.mod_add.
    + by rewrite Hl2.
    + rewrite Hd2. pose proof (Nat.mod_upper_bound (length data - (i + 64)) 64). rewrite Hl' in Hi'.
      assert (i + 64 <= i')%nat by (pose proof (Nat.Div0.mod_le (length data - (i + 64)) 64); lia).
      replace i' with (i + 64 + (i' - (i + 64)))%nat by lia. by rewrite <- !(drop_drop _ _ (i + 64)), Hd'.
  - exists data, i. split; [|split; [|done]].
    + by rewrite hash_blocks_short by (rewrite length_drop; lia).
    + rewrite Nat.mod_small; lia.
Qed.

Lemma absorbed_count len n c0 c1 :
  0 <= len < 2 ^ 29 -> c0 = u32 (8 * n) -> c1 = u32 (8 * n / 2 ^ 32) -> 0 <= n ->
  let bits := u64 (Z.shiftl len 3) in
  let c0' := u32 (u64 (c0 + bits)) in
  let c1' := if c0' <? bits then u32 (c1 + 1) else c1 in
  c0' = u32 (8 * (n + len)) /\ u32 (u64 (c1' + Z.shiftr len 29)) = u32 (8 * (n + len) / 2 ^ 32).
Proof.
  intros Hl -> -> Hn. cbv zeta.
  rewrite Z.shiftl_mul_pow2, Z.shiftr_div_pow2, (Z.div_small len), Z.add_0_r by lia.
  rewrite (u64_small (len * 2 ^ 3)) by lia. pose proof (u32_range (8 * n)) as H0.
  pose proof (u32_range (8 * n / 2 ^ 32)) as H1.
  rewrite (u64_small (_ + _)) by lia. split; [zlia|].
  assert (E : 8 * n = 2 ^ 32 * (8 * n / 2 ^ 32) + u32 (8 * n)) by (apply Z.div_mod; lia).
  set (q := 8 * n / 2 ^ 32) in *. set (r := u32 (8 * n)) in *.
  replace (8 * (n + len) / 2 ^ 32) with (q + (r + len * 2 ^ 3) / 2 ^ 32) by zlia.
  destruct (Z.ltb_spec (u32 (r + len * 2 ^ 3)) (len * 2 ^ 3)) as [Hc|Hc].
  - replace ((r + len * 2 ^ 3) / 2 ^ 32) with 1 by zlia. zlia.
  - replace ((r + len * 2 ^ 3) / 2 ^ 32) with 0 by zlia. zlia.
Qed.

Lemma pending_app_short msg d : (pending msg + length d < 64)%nat ->
  pending (msg ++ d) = (pending msg + length d)%nat /\ rest (msg ++ d) = rest msg ++ d.
Proof.
  intros Hs. assert (E : pending (msg ++ d) = (pending msg + length d)%nat).
  { unfold pending in *. rewrite length_app, <- Nat.Div0.add_mod_idemp_l. by apply Nat.mod_small. }
  split; [done|]. unfold rest. rewrite E, length_app. pose proof (pending_le msg).
  rewrite drop_app_le by lia. do 2 f_equal. lia.
Qed.

Lemma pending_app_long msg d i : (pending msg + i = 64)%nat -> (i <= length d)%nat ->
  pending (msg ++ d) = ((length d - i) mod 64)%nat /\
  rest (msg ++ d) = drop (length d - (length d - i) mod 64) d.
Proof.
  intros Hi Hd. assert (E : pending (msg ++ d) = ((length d - i) mod 64)%nat).
  { unfold pending in *. rewrite length_app, <- Nat.Div0.add_mod_idemp_l.
    replace (length msg mod 64 + length d)%nat with (length d - i + 1 * 64)%nat by lia.
    by rewrite Nat.Div0.mod_add. }
  split; [done|]. unfold rest. rewrite E, length_app.
  pose proof (Nat.Div0.mod_le (length d - i) 64). rewrite drop_app_ge by lia. f_equal. lia.
Qed.

Section update.
Context (big : bool) (fuel : nat) (ctx : SHA1_CTX) (msg d : list Z).
Context (Hab : absorbed ctx msg) (Hd : Forall (fun b => byte b) d).
Context (Hlen : Z.of_nat (length d) < 2 ^ 29) (Hfuel : (length d < 64 * fuel)%nat).

(** Fewer bytes than complete a block are only copied to the buffer. *)
Lemma update_short : (pending msg + length d < 64)%nat ->
  exists ctx', SHA1_Update big fuel ctx d (Z.of_nat (length d)) = inl (ctx', d) /\ absorbed ctx' (msg ++ d).
Proof using All.
  intros Hs. unfold SHA1_Update. rewrite (absorbed_j _ _ Hab).
  destruct (absorbed_count (Z.of_nat (length d)) (Z.of_nat (length msg)) (count0 ctx) (count1 ctx)) as [E0 E1];
    [lia|apply Hab..|lia|]. rewrite E1, E0. clear E0 E1.
  rewrite u64_small, (proj2 (Z.ltb_ge _ _)) by lia. cbn [rbind].
  pose proof (ab_length _ _ Hab) as HB.
  rewrite Z.sub_0_r, u64_small, memcpy_run by lia. cbn [rbind].
  eexists. split; [reflexivity|]. rewrite !Nat2Z.id, drop_0, firstn_all.
  rewrite <- (Nat2Z.inj_add (pending msg)), Nat2Z.id.
  destruct (pending_app_short msg d Hs) as [Ep Er]. rewrite (ab_buffer _ _ Hab).
  pose proof (ab_bytes _ _ Hab) as Hbb.
  split; cbn [state count0 count1 buffer].
  - rewrite (ab_state _ _ Hab), hash_blocks_rest. symmetry. apply hash_blocks_short.
    rewrite length_app, rest_length. lia.
  - f_equal. rewrite length_app. lia.
  - do 2 f_equal. rewrite length_app. lia.
  - rewrite !length_app, length_drop, rest_length. lia.
  - rewrite <- (ab_buffer _ _ Hab), !Forall_app. split_and!; [by apply Forall_take|done|by apply Forall_drop].
  - rewrite Ep, Er, app_assoc. apply take_app_length'. by rewrite length_app, rest_length.
Qed.

(** The buffer is completed and hashed, then the whole blocks of [d], in place. *)
Lemma update_long : (64 <= pending msg + length d)%nat ->
  exists ctx' d', SHA1_Update big fuel ctx d (Z.of_nat (length d)) = inl (ctx', d') /\ absorbed ctx' (msg ++ d).
Proof using All.
  intros Hs. unfold SHA1_Update. rewrite (absorbed_j _ _ Hab).
  destruct (absorbed_count (Z.of_nat (length d)) (Z.of_nat (length msg)) (count0 ctx) (count1 ctx)) as [E0 E1];
    [lia|apply Hab..|lia|]. rewrite E1, E0. clear E0 E1.
  pose proof (pending_lt msg) as Hp. set (p := pending msg) in *.
  rewrite u64_small, (proj2 (Z.ltb_lt _ _)) by lia. set (i := (64 - p)%nat).
  replace (64 - Z.of_nat p) with (Z.of_nat i) by lia.
  pose proof (ab_length _ _ Hab) as HB. pose proof (ab_bytes _ _ Hab) as Hbb.
  rewrite memcpy_run by lia. cbn [rbind Z.to_nat]. rewrite drop_0, !Nat2Z.id.
  rewrite drop_ge, app_nil_r by lia. rewrite (ab_buffer _ _ Hab : take p _ = _).
  destruct (absorbed_state _ _ Hab) as [Hst Hst32].
  set (blk := rest msg ++ take i d).
  assert (Hblk : length blk = 64%nat) by (subst blk; rewrite length_app, rest_length, length_take; fold p; lia).
  assert (Hblkb : Forall (fun b => byte b) blk).
  { subst blk. rewrite <- (ab_buffer _ _ Hab). apply Forall_app; split; by apply Forall_take. }
  rewrite SHA1_Transform_run by (done || lia). cbn [rbind].
  destruct (transformed_array big (state ctx) blk 0 Hst Hst32 Hblkb) as (Hl' & Hb' & _ & _); [lia..|].
  change (drop (Z.to_nat 0) blk) with blk in *. rewrite (firstn_all2 blk) in * by lia.
  set (buf := take (Z.to_nat 0) blk ++ _) in *.
  destruct (compress_words (state ctx) (words be_word blk)) as [Hc Hc32].
  destruct (SHA1_Update_loop_run big fuel _ d i Hc Hc32 Hd) as (d' & i' & Hrun & Hi' & Hl2 & Hd'); [lia..|].
  rewrite Hrun. cbn [rbind]. destruct (pending_app_long msg d i) as [Ep Er]; [lia..|].
  pose proof (Nat.mod_upper_bound (length d - i) 64 ltac:(lia)) as Hm.
  replace (Z.of_nat (length d) - Z.of_nat i') with (Z.of_nat ((length d - i) mod 64)) by lia.
  rewrite u64_small, memcpy_run by lia. cbn [rbind]. do 2 eexists. split; [reflexivity|].
  rewrite !Nat2Z.id, Z.add_0_l, Nat2Z.id, Hd'. cbn [Z.to_nat]. rewrite take_0. cbn [app].
  assert (Ed : drop i' d = drop (length d - (length d - i) mod 64) d) by (f_equal; lia).
  assert (El : length (drop i' d) = ((length d - i) mod 64)%nat) by (rewrite length_drop; lia).
  rewrite (firstn_all2 (drop i' d)) by lia.
  split; cbn [state count0 count1 buffer].
  - rewrite (hash_blocks_rest _ msg d), <- (ab_state _ _ Hab).
    replace (rest msg ++ d) with (blk ++ drop i d) by (subst blk; by rewrite <- app_assoc, take_drop).
    rewrite (hash_blocks_step _ (blk ++ _)), take_app_length', drop_app_length' by (rewrite ?length_app; lia).
    done.
  - f_equal. rewrite length_app. lia.
  - do 2 f_equal. rewrite length_app. lia.
  - rewrite length_app, El, length_drop, Hl'. lia.
  - apply Forall_app; split; by apply Forall_drop.
  - rewrite Ep, Er, <- Ed. by apply take_app_length'.
Qed.

Lemma SHA1_Update_run :
  exists ctx' d', SHA1_Update big fuel ctx d (Z.of_nat (length d)) = inl (ctx', d') /\ absorbed ctx' (msg ++ d).
Proof using All.
  destruct (decide (pending msg + length d < 64)%nat).
  - destruct update_short as (ctx' & ? & ?); eauto.
  - apply update_long. lia.
Qed.
End update.

(** * The digest *)

Lemma absorbed_init ctx : length (buffer ctx) = 64%nat -> Forall (fun b => byte b) (buffer ctx) ->
  absorbed (SHA1_Init ctx) [].
Proof. by split. Qed.

Section final.
Context (big : bool).

Lemma SHA1_Updates_run ctx msg pieces :
  absorbed ctx msg -> Forall (fun d => Forall (fun b => byte b) d /\ Z.of_nat (length d) < 2 ^ 29) pieces ->
  exists ctx', SHA1_Updates big ctx pieces = inl ctx' /\ absorbed ctx' (msg ++ mjoin pieces).
Proof.
  intros Hab Hp. revert ctx msg Hab. induction Hp as [|d pieces [Hb Hl] _ IH]; intros ctx msg Hab.
  - exists ctx. cbn. by rewrite app_nil_r.
  - cbn [SHA1_Updates mjoin list_join].
    destruct (SHA1_Update_run big (S (length d)) ctx msg d Hab Hb Hl) as (ctx' & d' & -> & Hab'); [lia|].
    cbn [rbind]. destruct (IH _ _ Hab') as (ctx'' & -> & Hab''). exists ctx''. by rewrite <- app_assoc in Hab''.
Qed.

(** One update with a constant of a few bytes. *)
Lemma update_const ctx msg d : absorbed ctx msg -> Forall (fun b => byte b) d -> (length d < 64)%nat ->
  exists ctx' d', SHA1_Update big 1 ctx d (Z.of_nat (length d)) = inl (ctx', d') /\ absorbed ctx' (msg ++ d).
Proof. intros. apply SHA1_Update_run; try done; lia. Qed.

Lemma final_test ctx msg : absorbed ctx msg -> Z.land (count0 ctx) 504 = 8 * Z.of_nat (pending msg).
Proof.
  intros Hab. rewrite (ab_count0 _ _ Hab). unfold pending. rewrite Nat2Z.inj_mod. change 504 with (Z.shiftl (Z.ones 6) 3).
  replace (u32 (8 * Z.of_nat (length msg))) with (Z.shiftl (Z.of_nat (length msg) mod 2 ^ 29) 3)
    by (rewrite Z.shiftl_mul_pow2 by lia; zlia).
  rewrite <- Z.shiftl_land, Z.land_ones, Z.shiftl_mul_pow2 by lia. zlia.
Qed.

Lemma SHA1_Final_pad_run fuel ctx msg :
  absorbed ctx msg -> (56 - Z.of_nat (length msg)) mod 64 < Z.of_nat fuel ->
  exists ctx', SHA1_Final_pad big fuel ctx = inl ctx' /\
    absorbed ctx' (msg ++ repeat 0 (Z.to_nat ((56 - Z.of_nat (length msg)) mod 64))).
Proof.
  revert ctx msg. induction fuel as [|fuel IH]; intros ctx msg Hab Hf; [zlia|].
  cbn [SHA1_Final_pad]. rewrite (final_test _ _ Hab).
  assert (Hp : Z.of_nat (pending msg) = Z.of_nat (length msg) mod 64) by (unfold pending; by rewrite Nat2Z.inj_mod).
  destruct (Z.eqb_spec (8 * Z.of_nat (pending msg)) 448) as [E|E]; cbn [negb].
  - exists ctx. split; [done|]. replace ((56 - Z.of_nat (length msg)) mod 64) with 0 by zlia. cbn. by rewrite app_nil_r.
  - destruct (update_const ctx msg [0] Hab) as (ctx' & d' & Hrun & Hab'); [by apply Forall_singleton|simpl; lia|].
    change (Z.of_nat (length [0])) with 1 in Hrun. rewrite Hrun. cbn [rbind].
    destruct (IH _ _ Hab') as (ctx'' & -> & Hab''); [rewrite length_app; simpl length; zlia|].
    exists ctx''. split; [done|]. rewrite <- app_assoc in Hab''. revert Hab''. rewrite length_app. simpl length.
    replace (Z.to_nat ((56 - Z.of_nat (length msg)) mod 64))
      with (S (Z.to_nat ((56 - Z.of_nat (length msg + 1)) mod 64))) by zlia. done.
Qed.

Lemma byte_of_div w k : 0 <= k -> byte_of w k = w / 2 ^ (8 * k) mod 256.
Proof. intros. unfold byte_of. change 255 with (Z.ones 8). by rewrite Z.land_ones, Z.shiftr_div_pow2 by lia. Qed.

Lemma byte_of_low w k : 0 <= k < 4 -> byte_of (u32 w) k = byte_of w k.
Proof.
  intros Hk. rewrite !byte_of_div by lia.
  assert (k = 0 \/ k = 1 \/ k = 2 \/ k = 3) as [->|[->|[->| ->]]] by lia; simpl (8 * _); zlia.
Qed.

Lemma byte_of_high w k : 0 <= k < 4 -> byte_of (u32 (w / 2 ^ 32)) k = byte_of w (k + 4).
Proof.
  intros Hk. rewrite byte_of_low, !byte_of_div by lia. f_equal.
  rewrite Z.div_div, <- Z.pow_add_r by lia. do 2 f_equal. lia.
Qed.

Lemma finalcount_spec ctx msg : absorbed ctx msg ->
  map (fun i => byte_of (if decide (4 <= i)%nat then count0 ctx else count1 ctx) (Z.of_nat (3 - Nat.land i 3))) (seq 0 8) =
  map (byte_of (8 * Z.of_nat (length msg))) [7; 6; 5; 4; 3; 2; 1; 0].
Proof.
  intros Hab. rewrite (ab_count0 _ _ Hab), (ab_count1 _ _ Hab). set (w := 8 * Z.of_nat (length msg)).
  change (byte_of (u32 (w / 2 ^ 32)) 3 :: byte_of (u32 (w / 2 ^ 32)) 2 :: byte_of (u32 (w / 2 ^ 32)) 1 ::
    byte_of (u32 (w / 2 ^ 32)) 0 :: map (byte_of (u32 w)) [3; 2; 1; 0] = map (byte_of w) [7; 6; 5; 4; 3; 2; 1; 0]).
  rewrite !byte_of_high by lia. cbn [map]. by rewrite !byte_of_low by lia.
Qed.

Lemma digest_spec st : length st = 5%nat ->
  map (fun i => byte_of (nth (Nat.shiftr i 2) st 0) (Z.of_nat (3 - Nat.land i 3))) (seq 0 (Z.to_nat SHA1_DIGEST_SIZE)) =
  mjoin (map be_bytes st).
Proof. intros Hl. by destruct st as [|a [|b [|c [|d [|e [|]]]]]]. Qed.

Lemma SHA1_Final_run ctx msg : absorbed ctx msg ->
  SHA1_Final big ctx = inl (Ctx (repeat 0 5) 0 0 (repeat 0 64), Fips.sha1 msg).
Proof.
  intros Hab. unfold SHA1_Final. rewrite (finalcount_spec _ _ Hab).
  destruct (update_const ctx msg [128] Hab) as (c1 & d1 & Hrun & Hab1); [by apply Forall_singleton|simpl; lia|].
  change (Z.of_nat (length [128])) with 1 in Hrun. rewrite Hrun. cbn [rbind].
  destruct (SHA1_Final_pad_run 64 _ _ Hab1) as (c2 & -> & Hab2); [zlia|]. cbn [rbind].
  set (fc := map _ [7; 6; 5; 4; 3; 2; 1; 0]).
  destruct (update_const c2 _ fc Hab2) as (c3 & d3 & Hrun3 & Hab3).
  { unfold fc. apply Forall_map, Forall_true. intros. apply byte_of_range. }
  { unfold fc. cbn. lia. }
  change (Z.of_nat (length fc)) with 8 in Hrun3. rewrite Hrun3. cbn [rbind].
  destruct (absorbed_state _ _ Hab3) as [Hst _]. rewrite digest_spec by done.
  rewrite (ab_state _ _ Hab3). unfold Fips.sha1. do 6 f_equal.
  unfold Fips.pad. fold fc. rewrite <- !app_assoc, length_app. cbn [app]. do 5 f_equal. simpl length. zlia.
Qed.
End final.

Lemma repeat_ok {A} (P : A -> Prop) x n : P x -> Forall P (repeat x n).
Proof. intros. induction n; simpl; by constructor. Qed.

(** * Theorems *)

(** C33: The in-place, unrolled [SHA1_Transform] is the compression function of the
    standard on the big-endian words of the block, on machines of either byte order;
    it stays inside the block, which it leaves filled with the words 64 to 79 of the
    message schedule. *)
Theorem sha1_transform_equiv big st arr off :
  length st = 5%nat -> Forall (fun w => in_u32 w) st -> Forall (fun b => byte b) arr ->
  0 <= off -> off + 64 <= Z.of_nat (length arr) ->
  let o := Z.to_nat off in
  let M := words be_word (take 64 (drop o arr)) in
  SHA1_Transform big st arr off =
    inl (Fips.compress st M, take o arr ++ c_of_l big (drop 64 (Fips.schedule M 80)) ++ drop (o + 64) arr).
Proof. intros. by apply SHA1_Transform_run. Qed.

Lemma sha1_transform_equiv_witness :
  SHA1_Transform false Fips.H0 (repeat 97 70) 5 =
    inl (Fips.compress Fips.H0 (words be_word (repeat 97 64)),
         repeat 97 5 ++ c_of_l false (drop 64 (Fips.schedule (words be_word (repeat 97 64)) 80)) ++ [97]).
Proof.
  apply (sha1_transform_equiv false Fips.H0 (repeat 97 70) 5).
  - reflexivity.
  - repeat apply Forall_cons_2; try lia. apply Forall_nil_2.
  - apply repeat_ok. lia.
  - lia.
  - simpl. lia.
Defined.

(** C32: Hashing a message in pieces of any lengths below 2^29 returns the digest the
    standard defines for the whole message: buffering, the in-place blocks, the
    64-bit count kept in two words, the padding loop (which ends) and the order of
    the digest's bytes are right for every message, on machines of either byte
    order. *)
Theorem sha1_digest big ctx pieces :
  length (buffer ctx) = 64%nat -> Forall (fun b => byte b) (buffer ctx) ->
  Forall (fun d => Forall (fun b => byte b) d /\ Z.of_nat (length d) < 2 ^ 29) pieces ->
  SHA1 big ctx pieces = inl (Fips.sha1 (mjoin pieces)).
Proof.
  intros Hl Hb Hp. unfold SHA1.
  destruct (SHA1_Updates_run big _ [] pieces (absorbed_init ctx Hl Hb) Hp) as (ctx' & -> & Hab). cbn [rbind].
  by rewrite (SHA1_Final_run big _ _ Hab).
Qed.

Lemma sha1_digest_witness :
  SHA1 true (Ctx [] 5 5 (repeat 255 64)) [bytes_of "a"%string; []; bytes_of "bc"%string] = inl (Fips.sha1 (bytes_of "abc"%string)) /\
  digest_to_hex (Fips.sha1 (bytes_of "abc"%string)) = "A9993E36 4706816A BA3E2571 7850C26C 9CD0D89D"%string.
Proof.
  split; [|vm_compute; reflexivity].
  apply (sha1_digest true (Ctx [] 5 5 (repeat 255 64)) [bytes_of "a"%string; []; bytes_of "bc"%string]).
  - reflexivity.
  - apply repeat_ok. lia.
  - repeat apply Forall_cons_2; try apply Forall_nil_2; (split; [|simpl; lia]);
      repeat apply Forall_cons_2; try apply Forall_nil_2; vm_compute; split; congruence.
Defined.

(** The digest of the demo's [hash]. *)
Lemma hash_fips big ctx in_ :
  length (buffer ctx) = 64%nat -> Forall (fun b => byte b) (buffer ctx) ->
  Forall (fun b => byte b) in_ -> length in_ = 20%nat -> hash big ctx in_ = inl (Fips.sha1 in_).
Proof.
  intros Hl Hb Hi H20. unfold hash.
  destruct (update_const big _ [] in_ (absorbed_init ctx Hl Hb) Hi) as (c & d & Hrun & Hab); [lia|].
  rewrite H20 in Hrun. change (Z.of_nat 20) with SHA1_DIGEST_SIZE in Hrun. rewrite Hrun. cbn [rbind].
  by rewrite (SHA1_Final_run big _ _ Hab).
Qed.

(** The self test accepts its vectors. *)
Lemma sha1_selftest big : test_vectors big (Ctx [] 0 0 (repeat 0 64)) test_data test_results = inl 0.
Proof. destruct big; vm_compute; reflexivity. Qed.

(** [len << 3] is computed in 64 bits but added to a 32-bit word: when it exceeds the
    word the test for a carry is always true, although the excess is added to the high
    word as well. After 2^29 bytes the count is 2^33 bits instead of 2^32. *)
Lemma sha1_count_overflow big fuel ctx d ctx' d' :
  SHA1_Update big fuel (SHA1_Init ctx) d (2 ^ 29) = inl (ctx', d') -> count0 ctx' = 0 /\ count1 ctx' = 2.
Proof.
  unfold SHA1_Update. intros E.
  set (p := if 63 <? _ then _ else _) in E. destruct p as [[[[[st buf] dat] j] i]|]; [|done]. cbn [rbind] in E.
  destruct (memcpy buf j dat i _) as [b|]; [|done]. cbn [rbind] in E. by injection E as <- <-.
Qed.

(** The data argument is [const], but whole blocks are expanded in it. *)
Lemma sha1_update_overwrites :
  exists ctx' d', SHA1_Update false 3 (SHA1_Init (Ctx [] 0 0 (repeat 0 64))) (repeat 97 128) 128 = inl (ctx', d') /\
    take 64 d' = repeat 97 64 /\ drop 64 d' <> repeat 97 64.
Proof. do 2 eexists. split; [vm_compute; reflexivity|]. split; vm_compute; congruence. Qed.
