(* ===== verification/Atomics.v ===== *)
(** The ground the atomics headers of [common/] are modelled on: a memory of bytes,
    programs whose steps are atomic accesses to a few consecutive bytes, the C integer
    types, and what it means that a program implements one atomic operation in the
    presence of other threads ([lin]), with the theorem that threads running such
    programs are linearizable. *)
From S2P Require Import Prelude Machine.

(** * Memory *)

Abbreviation bytes := (gmap Z Z).

(** The value of the [n] bytes at [p], low byte first. *)
Fixpoint rd (m : bytes) (p : Z) (n : nat) : option Z :=
  match n with
  | O => Some 0
  | S n =>
      match m !! p, rd m (p + 1) n with
      | Some b, Some v => Some (b + 256 * v)
      | _, _ => None
      end
  end.

Fixpoint wr (m : bytes) (p : Z) (n : nat) (v : Z) : bytes :=
  match n with
  | O => m
  | S n => <[p := v mod 256]> (wr m (p + 1) n (v / 256))
  end.

Definition mem_ok (m : bytes) : Prop := map_Forall (fun _ b => 0 <= b < 256) m.

(** The bit pattern of [n] bytes, and the value a pattern or another integer has as a
    signed or unsigned integer of [n] bytes. *)
Definition pat (n : nat) (v : Z) : Z := v mod 2 ^ (8 * Z.of_nat n).

Definition ival (n : nat) (signed : bool) (v : Z) : Z :=
  if signed then pat n (v + 2 ^ (8 * Z.of_nat n - 1)) - 2 ^ (8 * Z.of_nat n - 1) else pat n v.

Lemma pow8_pos n : 0 < 2 ^ (8 * Z.of_nat n).
Proof. apply Z.pow_pos_nonneg; lia. Qed.

Lemma pow8_succ n : 2 ^ (8 * Z.of_nat (S n)) = 256 * 2 ^ (8 * Z.of_nat n).
Proof. replace (8 * Z.of_nat (S n)) with (8 + 8 * Z.of_nat n) by lia. by rewrite Z.pow_add_r by lia. Qed.

Lemma pat_range n v : 0 <= pat n v < 2 ^ (8 * Z.of_nat n).
Proof. apply Z.mod_pos_bound, pow8_pos. Qed.

Lemma pat_small n v : 0 <= v < 2 ^ (8 * Z.of_nat n) -> pat n v = v.
Proof. apply Z.mod_small. Qed.

Lemma pat_pat n v : pat n (pat n v) = pat n v.
Proof. apply Z.mod_mod. pose proof (pow8_pos n). lia. Qed.

Lemma pat_add n a b : pat n (pat n a + b) = pat n (a + b).
Proof. apply Z.add_mod_idemp_l. pose proof (pow8_pos n). lia. Qed.

(** The signed and the unsigned reading of a pattern differ by a multiple of 2^w. *)
Lemma ival_mod n sg v : exists k, ival n sg v = v + k * 2 ^ (8 * Z.of_nat n).
Proof.
  unfold ival, pat. pose proof (pow8_pos n). destruct sg.
  - exists (- ((v + 2 ^ (8 * Z.of_nat n - 1)) / 2 ^ (8 * Z.of_nat n))). rewrite Z.mod_eq by lia. lia.
  - exists (- (v / 2 ^ (8 * Z.of_nat n))). rewrite Z.mod_eq by lia. lia.
Qed.

Lemma pat_ival n sg v : pat n (ival n sg v) = pat n v.
Proof. destruct (ival_mod n sg v) as [k ->]. apply Z.mod_add. pose proof (pow8_pos n). lia. Qed.

Lemma ival_pat n sg v : ival n sg (pat n v) = ival n sg v.
Proof. unfold ival. destruct sg; [by rewrite pat_add|apply pat_pat]. Qed.

Lemma ival_eq n sg v w : pat n v = pat n w -> ival n sg v = ival n sg w.
Proof. intros E. by rewrite <- (ival_pat n sg v), E, ival_pat. Qed.

Lemma ival_ival n sg sg' v : ival n sg (ival n sg' v) = ival n sg v.
Proof. apply ival_eq, pat_ival. Qed.

Lemma rd_range m p n v : mem_ok m -> rd m p n = Some v -> 0 <= v < 2 ^ (8 * Z.of_nat n).
Proof.
  intros Hm. revert p v. induction n as [|n IH]; intros p v E; [injection E as <-; simpl; lia|].
  cbn [rd] in E. destruct (m !! p) as [b|] eqn:Eb; [|done]. destruct (rd m (p + 1) n) as [w|] eqn:Ew; [|done].
  injection E as <-. apply IH in Ew. specialize (Hm _ _ Eb). simpl in Hm. rewrite pow8_succ. lia.
Qed.

Lemma wr_ok m p n v : mem_ok m -> mem_ok (wr m p n v).
Proof.
  intros Hm. revert p v. induction n as [|n IH]; intros p v; [done|]. cbn [wr].
  apply map_Forall_insert_2; [|apply IH]. apply Z.mod_pos_bound. lia.
Qed.

Lemma wr_pat m p n v : wr m p n (pat n v) = wr m p n v.
Proof.
  revert p v. induction n as [|n IH]; intros p v; [done|]. cbn [wr].
  assert (E1 : pat (S n) v mod 256 = v mod 256).
  { unfold pat. rewrite pow8_succ, Z.rem_mul_r by (pose proof (pow8_pos n); lia).
    rewrite Z.mul_comm, Z.mod_add, Z.mod_mod by lia. done. }
  assert (E2 : pat (S n) v / 256 = pat n (v / 256)).
  { unfold pat. rewrite pow8_succ, Z.rem_mul_r by (pose proof (pow8_pos n); lia).
    rewrite Z.mul_comm, Z.div_add by lia. rewrite Z.div_small; [lia|]. apply Z.mod_pos_bound. lia. }
  by rewrite E1, E2, IH.
Qed.

(** Writing back what was read changes nothing. *)
Lemma wr_rd m p n v : mem_ok m -> rd m p n = Some v -> wr m p n v = m.
Proof.
  intros Hm. revert p v. induction n as [|n IH]; intros p v E; [done|].
  cbn [rd wr] in *. destruct (m !! p) as [b|] eqn:Eb; [|done]. destruct (rd m (p + 1) n) as [w|] eqn:Ew; [|done].
  injection E as <-. specialize (Hm _ _ Eb). simpl in Hm.
  replace ((b + 256 * w) / 256) with w by (rewrite Z.mul_comm, Z.div_add, Z.div_small by lia; lia).
  rewrite (IH _ _ Ew). replace ((b + 256 * w) mod 256) with b by (rewrite Z.mul_comm, Z.mod_add, Z.mod_small by lia; lia).
  by apply insert_id.
Qed.

Lemma wr_lookup_ne m p n v q : ~ (p <= q < p + Z.of_nat n) -> wr m p n v !! q = m !! q.
Proof.
  revert p v. induction n as [|n IH]; intros p v Hq; [done|]. cbn [wr].
  rewrite lookup_insert_ne by lia. apply IH. lia.
Qed.

Lemma rd_ext m m' p n : (forall q, p <= q < p + Z.of_nat n -> m !! q = m' !! q) -> rd m p n = rd m' p n.
Proof.
  revert p. induction n as [|n IH]; intros p Hq; [done|]. cbn [rd].
  rewrite (Hq p), (IH (p + 1)) by (intros; try apply Hq; lia). done.
Qed.

Lemma rd_wr m p n v : rd (wr m p n v) p n = Some (pat n v).
Proof.
  revert p v. induction n as [|n IH]; intros p v; [cbn; f_equal; symmetry; apply Z.mod_1_r|].
  cbn [rd wr]. rewrite lookup_insert_eq.
  rewrite (rd_ext _ (wr m (p + 1) n (v / 256))) by (intros; by rewrite lookup_insert_ne by lia).
  rewrite IH. f_equal. unfold pat. rewrite pow8_succ, Z.rem_mul_r by (pose proof (pow8_pos n); lia). done.
Qed.

Lemma rd_app m p a b v : rd m p (a + b) = Some v ->
  exists lo hi, rd m p a = Some lo /\ rd m (p + Z.of_nat a) b = Some hi /\ v = lo + 2 ^ (8 * Z.of_nat a) * hi.
Proof.
  revert p v. induction a as [|a IH]; intros p v E.
  - exists 0, v. replace (p + Z.of_nat 0) with p by lia. cbn [Nat.add] in E.
    split_and!; [done|done|]. change (2 ^ (8 * Z.of_nat 0)) with 1. lia.
  - cbn [Nat.add rd] in E. destruct (m !! p) as [x|] eqn:Ex; [|done].
    destruct (rd m (p + 1) (a + b)) as [w|] eqn:Ew; [|done]. injection E as <-.
    destruct (IH _ _ Ew) as (lo & hi & Hlo & Hhi & ->). exists (x + 256 * lo), hi.
    cbn [rd]. rewrite Ex, Hlo. replace (p + Z.of_nat (S a)) with (p + 1 + Z.of_nat a) by lia.
    split_and!; [done|done|]. rewrite pow8_succ. lia.
Qed.

(** * Programs *)

(** One atomic access: the [size] bytes at [addr], read as a number, are replaced by
    [upd] of it; the number is the result. A plain load has the identity. *)
Record access := Acc { size : nat; addr : Z; upd : Z -> Z }.

Inductive aprog (A : Type) : Type :=
  | ARet (a : A)
  | AAct (a : access) (k : Z -> aprog A)
  | AFail (e : err).
Arguments ARet {A} _.
Arguments AAct {A} _ _.
Arguments AFail {A} _.

#[global] Instance aprog_ret : MRet aprog := @ARet.

#[global] Instance aprog_bind : MBind aprog :=
  fix go A B (f : A -> aprog B) (p : aprog A) : aprog B :=
    match p with
    | ARet a => f a
    | AAct a k => AAct a (fun v => go A B f (k v))
    | AFail e => AFail e
    end.

Definition rmw (n : nat) (p : Z) (f : Z -> Z) : aprog Z := AAct (Acc n p f) ARet.

Definition aload (n : nat) (p : Z) : aprog Z := rmw n p (fun v => v).

Definition astore (n : nat) (p : Z) (v : Z) : aprog unit := AAct (Acc n p (fun _ => v)) (fun _ => ARet tt).

Definition perform (a : access) (m : bytes) : option (Z * bytes) :=
  match rd m (addr a) (size a) with
  | Some v => Some (v, wr m (addr a) (size a) (upd a v))
  | None => None
  end.

(** A thread running alone. *)
Fixpoint arun {A} (p : aprog A) (m : bytes) : (A * bytes) + err :=
  match p with
  | ARet a => inl (a, m)
  | AAct a k => match perform a m with Some (v, m') => arun (k v) m' | None => inr SegFault end
  | AFail e => inr e
  end.

(** Threads running together: any of them performs its next access. *)
Inductive astep {A} : bytes * list (aprog A) -> nat -> bytes * list (aprog A) -> Prop :=
  | astep_act m ts i a k v m' :
      ts !! i = Some (AAct a k) -> perform a m = Some (v, m') -> astep (m, ts) i (m', <[i := k v]> ts).

(** A run, with the threads that took its steps. *)
Inductive asteps {A} : bytes * list (aprog A) -> list nat -> bytes * list (aprog A) -> Prop :=
  | asteps_nil c : asteps c [] c
  | asteps_cons c1 i c2 tr c3 : astep c1 i c2 -> asteps c2 tr c3 -> asteps c1 (i :: tr) c3.

(** Run the threads in the given order. *)
Fixpoint schedule_run {A} (tr : list nat) (c : bytes * list (aprog A)) : option (bytes * list (aprog A)) :=
  match tr with
  | [] => Some c
  | i :: tr =>
      match c.2 !! i with
      | Some (AAct a k) =>
          match perform a c.1 with
          | Some (v, m) => schedule_run tr (m, <[i := k v]> c.2)
          | None => None
          end
      | _ => None
      end
  end.

Lemma schedule_run_steps {A} tr (c : bytes * list (aprog A)) :
  (if schedule_run tr c then true else false) = true -> asteps c tr (default c (schedule_run tr c)).
Proof.
  enough (H : forall c', schedule_run tr c = Some c' -> asteps c tr c').
  { destruct (schedule_run tr c) as [c'|]; [intros _; by apply H|done]. }
  revert c. induction tr as [|i tr IH]; intros [m ts] c' E; cbn in E.
  - injection E as <-. apply asteps_nil.
  - destruct (ts !! i) as [[|a k|]|] eqn:Ei; try done.
    destruct (perform a m) as [[v m']|] eqn:Ep; [|done]. eapply asteps_cons; [by eapply astep_act|auto].
Qed.

(** * Atomic operations *)

(** What the standard says an atomic operation does: with [v] the old pattern of the
    object, [s_new v] becomes its pattern and [s_res v] is the result. *)
Record aspec (A : Type) := Spec { s_size : nat; s_addr : Z; s_new : Z -> Z; s_res : Z -> A }.
Arguments Spec {A} _ _ _ _.
Arguments s_size {A} _.
Arguments s_addr {A} _.
Arguments s_new {A} _ _.
Arguments s_res {A} _ _.

(** The functions of the fetch operations. *)
Inductive fop := Fadd | Fsub | For | Fxor | Fand.

Definition fop_fun (o : fop) : Z -> Z -> Z :=
  match o with Fadd => Z.add | Fsub => Z.sub | For => Z.lor | Fxor => Z.lxor | Fand => Z.land end.

Definition in_pat (n : nat) (v : Z) : Prop := 0 <= v < 2 ^ (8 * Z.of_nat n).

(** The access leaves the memory as it is when it reads [v]. *)
Definition silent (a : access) (v : Z) : Prop := pat (size a) (upd a v) = v.

(** The access has the effect of [s] when it reads [v]. *)
Definition acts {A} (s : aspec A) (a : access) (v : Z) : Prop :=
  size a = s_size s /\ addr a = s_addr s /\ pat (size a) (upd a v) = pat (size a) (s_new s v).

(** Only silent accesses are left, and the result is [r]. *)
Fixpoint fin {A} (r : A) (p : aprog A) : Prop :=
  match p with
  | ARet r' => r' = r
  | AAct a k => forall v, in_pat (size a) v -> silent a v /\ fin r (k v)
  | AFail _ => False
  end.

(** The program performs [s] in exactly one of its accesses, whatever other threads
    write between them, and returns its result; or it is still trying when the fuel of
    its loop ends. *)
Fixpoint lin {A} (s : aspec A) (p : aprog A) : Prop :=
  match p with
  | ARet _ => False
  | AAct a k => forall v, in_pat (size a) v ->
      silent a v /\ lin s (k v) \/ acts s a v /\ fin (s_res s v) (k v)
  | AFail e => e = OutOfFuel
  end.

(** The program is a single access that performs [s]. *)
Definition one_access {A} (s : aspec A) (p : aprog A) : Prop :=
  match p with
  | AAct a k => size a = s_size s /\ addr a = s_addr s /\
      forall v, in_pat (size a) v -> pat (size a) (upd a v) = pat (size a) (s_new s v) /\ k v = ARet (s_res s v)
  | _ => False
  end.

Lemma one_access_lin {A} (s : aspec A) p : one_access s p -> lin s p.
Proof.
  destruct p as [|a k|]; [done| |done]. intros (En & Ea & Hv) v Hr. right.
  destruct (Hv v Hr) as [Ev ->]. done.
Qed.

(** Running alone, it returns the result and changes the object only. *)
Lemma one_access_run {A} (s : aspec A) p m v : one_access s p -> mem_ok m -> rd m (s_addr s) (s_size s) = Some v ->
  arun p m = inl (s_res s v, wr m (s_addr s) (s_size s) (s_new s v)).
Proof.
  destruct p as [|a k|]; [done| |done]. intros (En & Ea & Hv) Hm Hrd. cbn [arun]. unfold perform.
  rewrite En, Ea, Hrd in *. destruct (Hv v) as [Ev ->]; [by eapply rd_range|].
  cbn [arun]. by rewrite <- wr_pat, Ev, wr_pat.
Qed.

(** * Integers that have the same pattern of [n] bytes *)

Definition eqp (n : nat) (a b : Z) : Prop := pat n a = pat n b.

#[global] Instance eqp_equiv n : Equivalence (eqp n).
Proof. split; unfold eqp; congruence. Qed.

Lemma eqp_mod n a b : eqp n a b <-> exists k, a = b + k * 2 ^ (8 * Z.of_nat n).
Proof.
  unfold eqp, pat. pose proof (pow8_pos n). split; [|intros [k ->]; apply Z.mod_add; lia].
  intros E. exists (a / 2 ^ (8 * Z.of_nat n) - b / 2 ^ (8 * Z.of_nat n)).
  pose proof (Z.div_mod a (2 ^ (8 * Z.of_nat n))). pose proof (Z.div_mod b (2 ^ (8 * Z.of_nat n))). lia.
Qed.

#[global] Instance eqp_add n : Proper (eqp n ==> eqp n ==> eqp n) Z.add.
Proof.
  intros a a' [k ->]%eqp_mod b b' [l ->]%eqp_mod. apply eqp_mod. exists (k + l). lia.
Qed.

#[global] Instance eqp_opp n : Proper (eqp n ==> eqp n) Z.opp.
Proof. intros a a' [k ->]%eqp_mod. apply eqp_mod. exists (- k). lia. Qed.

#[global] Instance eqp_sub n : Proper (eqp n ==> eqp n ==> eqp n) Z.sub.
Proof. intros a a' Ha b b' Hb. unfold Z.sub. by rewrite Ha, Hb. Qed.

Lemma pat_land n a : pat n a = Z.land a (Z.ones (8 * Z.of_nat n)).
Proof. unfold pat. symmetry. apply Z.land_ones. lia. Qed.

Lemma bitwise_proper n (f : Z -> Z -> Z) :
  (forall a b c, Z.land (f a b) c = Z.land (f (Z.land a c) (Z.land b c)) c) ->
  Proper (eqp n ==> eqp n ==> eqp n) f.
Proof.
  intros Hf a a' Ha b b' Hb. unfold eqp in *. rewrite !pat_land in *. by rewrite Hf, Ha, Hb, <- Hf.
Qed.

Ltac bitwise :=
  apply bitwise_proper; intros; apply Z.bits_inj'; intros;
  repeat rewrite ?Z.land_spec, ?Z.lor_spec, ?Z.lxor_spec; btauto.

#[global] Instance eqp_lor n : Proper (eqp n ==> eqp n ==> eqp n) Z.lor.
Proof. bitwise. Qed.

#[global] Instance eqp_lxor n : Proper (eqp n ==> eqp n ==> eqp n) Z.lxor.
Proof. bitwise. Qed.

#[global] Instance eqp_land n : Proper (eqp n ==> eqp n ==> eqp n) Z.land.
Proof. bitwise. Qed.

#[global] Instance eqp_fop n o : Proper (eqp n ==> eqp n ==> eqp n) (fop_fun o).
Proof. destruct o; exact _. Qed.

Lemma eqp_ival n sg v : eqp n (ival n sg v) v.
Proof. apply pat_ival. Qed.

#[global] Instance ival_proper n sg : Proper (eqp n ==> eq) (ival n sg).
Proof. intros a b. apply ival_eq. Qed.

(** * Composition *)

Lemma fin_bind {A B} (p : aprog A) (h : A -> aprog B) r r' :
  fin r p -> h r = ARet r' -> fin r' (p ≫= h).
Proof.
  intros Hf Hh. induction p as [a|a k IH|e]; [|intros v Hv; split; [by apply Hf|by apply IH, Hf]|done].
  simpl in Hf. subst a. change (fin r' (h r)). by rewrite Hh.
Qed.

(** A program that goes on with the result of one that performs [s]. *)
Lemma lin_bind {A B} (s : aspec A) (s' : aspec B) p (h : A -> aprog B) :
  lin s p -> s_size s = s_size s' -> s_addr s = s_addr s' ->
  (forall v, in_pat (s_size s) v -> eqp (s_size s) (s_new s v) (s_new s' v) /\ h (s_res s v) = ARet (s_res s' v)) ->
  lin s' (p ≫= h).
Proof.
  intros Hl En Ea Hs. induction p as [a|a k IH|e]; [done| |done]. intros v Hv.
  destruct (Hl v Hv) as [[Hsil Hl']|[(E1 & E2 & E3) Hf]]; [left; split; [done|by apply IH]|right].
  rewrite E1 in Hv. destruct (Hs v Hv) as [Hnew Hres]. split.
  - split; [congruence|]. split; [congruence|]. rewrite E3, E1. apply Hnew.
  - eapply fin_bind; [exact Hf|done].
Qed.

Lemma lin_ext {A} (s s' : aspec A) p :
  lin s p -> s_size s = s_size s' -> s_addr s = s_addr s' ->
  (forall v, in_pat (s_size s) v -> eqp (s_size s) (s_new s v) (s_new s' v) /\ s_res s v = s_res s' v) ->
  lin s' p.
Proof.
  intros Hl En Ea Hs. induction p as [a|a k IH|e]; [done| |done]. intros v Hv.
  destruct (Hl v Hv) as [[Hsil Hl']|[(E1 & E2 & E3) Hf]]; [left; split; [done|by apply IH]|right].
  rewrite E1 in Hv. destruct (Hs v Hv) as [Hnew Hres]. split; [|by rewrite <- Hres].
  split; [congruence|]. split; [congruence|]. rewrite E3, E1. apply Hnew.
Qed.

(** Silent accesses first. *)
Lemma lin_load {A} (s : aspec A) n p (h : Z -> aprog A) :
  (forall v, in_pat n v -> lin s (h v)) -> lin s (aload n p ≫= h).
Proof. intros Hh v Hv. left. split; [by apply pat_small|by apply Hh]. Qed.

(** The program performs [s] among other threads, and returns when it runs alone. *)
Record implements {A} (s : aspec A) (p : aprog A) : Prop := {
  im_lin : lin s p;
  im_alone m v : mem_ok m -> rd m (s_addr s) (s_size s) = Some v ->
    arun p m = inl (s_res s v, wr m (s_addr s) (s_size s) (s_new s v));
}.

Lemma one_access_implements {A} (s : aspec A) p : one_access s p -> implements s p.
Proof. intros H. split; [by apply one_access_lin|]. intros. by apply one_access_run. Qed.

Section implements.
Context {A B C : Type}.

Lemma arun_bind (p : aprog A) (h : A -> aprog B) m :
  arun (p ≫= h) m = match arun p m with inl (a, m') => arun (h a) m' | inr e => inr e end.
Proof.
  revert m. induction p as [a|a k IH|e]; intros m; [done| |done].
  change (AAct a k ≫= h) with (AAct a (fun v => k v ≫= h)). cbn [arun].
  destruct (perform a m) as [[v m']|]; [apply IH|done].
Qed.

Lemma implements_bind (s : aspec A) (s' : aspec B) p (h : A -> aprog B) :
  implements s p -> s_size s = s_size s' -> s_addr s = s_addr s' ->
  (forall v, in_pat (s_size s) v -> eqp (s_size s) (s_new s v) (s_new s' v) /\ h (s_res s v) = ARet (s_res s' v)) ->
  implements s' (p ≫= h).
Proof.
  intros [Hl Hr] En Ea Hs. split; [by eapply lin_bind|]. intros m v Hm Hv.
  rewrite <- En, <- Ea in *. rewrite arun_bind, (Hr m v) by done.
  destruct (Hs v) as [Hnew ->]; [by eapply rd_range|]. cbn [arun].
  by rewrite <- wr_pat, Hnew, wr_pat.
Qed.

Lemma implements_ext (s s' : aspec A) p :
  implements s p -> s_size s = s_size s' -> s_addr s = s_addr s' ->
  (forall v, in_pat (s_size s) v -> eqp (s_size s) (s_new s v) (s_new s' v) /\ s_res s v = s_res s' v) ->
  implements s' p.
Proof.
  intros [Hl Hr] En Ea Hs. split; [by eapply lin_ext|]. intros m v Hm Hv.
  rewrite <- En, <- Ea in *. rewrite (Hr m v) by done.
  destruct (Hs v) as [Hnew ->]; [by eapply rd_range|]. by rewrite <- wr_pat, Hnew, wr_pat.
Qed.

Lemma implements_map (s : aspec A) p (g : A -> B) : implements s p ->
  implements (Spec (s_size s) (s_addr s) (s_new s) (fun v => g (s_res s v))) (x ← p; mret (g x)).
Proof. intros Hl. by eapply implements_bind. Qed.
End implements.

Lemma implements_map2 {A B C} (s : aspec (A * B)) p (g : A -> B -> C) : implements s p ->
  implements (Spec (s_size s) (s_addr s) (s_new s) (fun v => g (s_res s v).1 (s_res s v).2)) ('(x, y) ← p; mret (g x y)).
Proof.
  intros Hl. eapply implements_bind; [exact Hl|done|done|]. intros v Hv. split; [done|]. cbn. by destruct (s_res s v).
Qed.

Lemma arun_aload {A} n p (h : Z -> aprog A) m v : mem_ok m -> rd m p n = Some v ->
  arun (aload n p ≫= h) m = arun (h v) m.
Proof.
  intros Hm Hv. change (arun (AAct (Acc n p (fun v => v)) h) m = arun (h v) m).
  cbn [arun]. unfold perform. cbn [addr size upd]. by rewrite Hv, (wr_rd _ _ _ _ Hm Hv).
Qed.

Lemma implements_aload n obj : implements (Spec n obj (fun v => v) (fun v => v)) (aload n obj).
Proof. by apply one_access_implements. Qed.

Lemma implements_astore n obj d : implements (Spec n obj (fun _ => d) (fun _ => tt)) (astore n obj d).
Proof. by apply one_access_implements. Qed.

(** * Linearizability *)

Section pool.
Context {A : Type} (specs : list (aspec A)).

(** The atomic operations of the threads in [log], one after the other, with their
    results. *)
Inductive spec_run (m0 : bytes) : list (nat * A) -> bytes -> Prop :=
  | spec_run_nil : spec_run m0 [] m0
  | spec_run_snoc log m i s v :
      spec_run m0 log m -> specs !! i = Some s -> rd m (s_addr s) (s_size s) = Some v ->
      spec_run m0 (log ++ [(i, s_res s v)]) (wr m (s_addr s) (s_size s) (s_new s v)).

Definition thread_ok (log : list (nat * A)) (i : nat) (p : aprog A) : Prop :=
  (exists r, (i, r) ∈ log /\ fin r p) \/
  (i ∉ log.*1) /\ exists s, specs !! i = Some s /\ lin s p.

Record linearized (m0 : bytes) (log : list (nat * A)) (c : bytes * list (aprog A)) : Prop := {
  lz_run : spec_run m0 log c.1;
  lz_nodup : NoDup log.*1;
  lz_mem : mem_ok c.1;
  lz_threads : forall i p, c.2 !! i = Some p -> thread_ok log i p;
}.

Lemma thread_ok_snoc log i p j r : i <> j -> thread_ok log i p -> thread_ok (log ++ [(j, r)]) i p.
Proof.
  intros Hij [(r' & Hr & Hf)|[Hi Hl]]; [left|right].
  - exists r'. split; [|done]. apply elem_of_app. by left.
  - split; [|done]. rewrite fmap_app, elem_of_app. cbn. rewrite list_elem_of_singleton. by intros [|].
Qed.

Lemma linearized_step m0 log c i c' : linearized m0 log c -> astep c i c' ->
  exists log', linearized m0 (log ++ log') c' /\ (forall j, j ∈ log'.*1 -> j = i).
Proof.
  intros [Hrun Hnd Hm Hts] Hstep. destruct Hstep as [m ts i a k v m' Hi Hp]. cbn [fst snd] in *.
  unfold perform in Hp. destruct (rd m (addr a) (size a)) as [w|] eqn:Hrd; [|done]. injection Hp as <- <-.
  pose proof (rd_range _ _ _ _ Hm Hrd) as Hw.
  assert (Hsilent : silent a w -> wr m (addr a) (size a) (upd a w) = m).
  { intros Hs. rewrite <- wr_pat, Hs. by apply wr_rd. }
  assert (Hlt : (i < length ts)%nat) by (by eapply lookup_lt_Some).
  assert (Hstay : wr m (addr a) (size a) (upd a w) = m -> thread_ok log i (k w) ->
    linearized m0 (log ++ []) (wr m (addr a) (size a) (upd a w), <[i := k w]> ts)).
  { intros Em Hok. rewrite app_nil_r. split; cbn [fst snd]; rewrite ?Em; [done..|].
    intros j p. rewrite list_lookup_insert_Some. intros [(<- & <- & _)|[? Hj]]; eauto. }
  destruct (Hts _ _ Hi) as [(r & Hr & Hf)|(Hni & s & Hs & Hl)].
  - destruct (Hf w Hw) as [Hsil Hf']. exists []. split; [|by intros ? ?%elem_of_nil].
    apply Hstay; [auto|left; eauto].
  - destruct (Hl w Hw) as [[Hsil Hl']|[(En & Ea & Ev) Hf]].
    { exists []. split; [|by intros ? ?%elem_of_nil]. apply Hstay; [auto|right; eauto]. }
    exists [(i, s_res s w)]. split; [|intros j; cbn; by rewrite list_elem_of_singleton].
    assert (Em : wr m (addr a) (size a) (upd a w) = wr m (s_addr s) (s_size s) (s_new s w)).
    { by rewrite <- En, <- Ea, <- wr_pat, Ev, wr_pat. }
    rewrite En, Ea in Hrd. split; cbn [fst snd].
    + rewrite Em. by eapply spec_run_snoc.
    + rewrite fmap_app. apply NoDup_app. split_and!; [done| |apply NoDup_singleton].
      intros x Hx. cbn. rewrite list_elem_of_singleton. by intros ->.
    + by apply wr_ok.
    + intros j p. rewrite list_lookup_insert_Some. intros [(<- & <- & _)|[? Hj]].
      * left. exists (s_res s w). split; [|done]. apply elem_of_app. right. by apply list_elem_of_singleton.
      * apply thread_ok_snoc; eauto.
Qed.

Lemma linearized_steps m0 log c tr c' : linearized m0 log c -> asteps c tr c' ->
  exists log', linearized m0 (log ++ log') c' /\ (forall j, j ∈ log'.*1 -> j ∈ tr).
Proof.
  intros Hl Hs. revert log Hl. induction Hs as [c|c1 i c2 tr c3 Hst _ IH]; intros log Hl.
  - exists []. rewrite app_nil_r. split; [done|]. by intros j ?%elem_of_nil.
  - destruct (linearized_step _ _ _ _ _ Hl Hst) as (l1 & Hl1 & H1).
    destruct (IH _ Hl1) as (l2 & Hl2 & H2). exists (l1 ++ l2). rewrite app_assoc. split; [done|].
    intros j. rewrite fmap_app, elem_of_app, elem_of_cons. intros [?|?]; [left|right]; auto.
Qed.

Lemma linearized_init m ts : mem_ok m -> Forall2 lin specs ts -> linearized m [] (m, ts).
Proof.
  intros Hm Hl. split; [constructor|apply NoDup_nil_2|done|]. cbn. intros i p Hi. right.
  split; [apply not_elem_of_nil|].
  destruct (Forall2_lookup_r _ _ _ _ _ Hl Hi) as (s & Hs & ?). eauto.
Qed.

Lemma linearized_returned m log c i r : linearized m log c -> c.2 !! i = Some (ARet r) -> (i, r) ∈ log.
Proof.
  intros Hl Hi. destruct (lz_threads _ _ _ Hl _ _ Hi) as [(r' & ? & Hf)|(_ & s & _ & Hf)]; [|done].
  simpl in Hf. by subst.
Qed.

(** Threads that each run a program for one atomic operation are linearizable: at any
    two moments of a run the memory is what the operations that have taken effect do
    one after the other, an operation that has returned is among them with the result
    it returned, none takes effect twice or before its thread's first step, and the
    earlier order is a prefix of the later. *)
Lemma pool_linearizable m ts c1 c2 tr1 tr2 :
  mem_ok m -> Forall2 lin specs ts -> asteps (m, ts) tr1 c1 -> asteps c1 tr2 c2 ->
  exists log1 log2,
    spec_run m log1 c1.1 /\ spec_run m (log1 ++ log2) c2.1 /\ NoDup (log1 ++ log2).*1 /\
    (forall i r, c1.2 !! i = Some (ARet r) -> (i, r) ∈ log1) /\
    (forall i r, c2.2 !! i = Some (ARet r) -> (i, r) ∈ log1 ++ log2) /\
    (forall i, i ∈ log1.*1 -> i ∈ tr1) /\ (forall i, i ∈ log2.*1 -> i ∈ tr2).
Proof.
  intros Hm Hl H1 H2.
  destruct (linearized_steps _ _ _ _ _ (linearized_init _ _ Hm Hl) H1) as (l1 & Hl1 & Hi1).
  destruct (linearized_steps _ _ _ _ _ Hl1 H2) as (l2 & Hl2 & Hi2). cbn [app] in *.
  exists l1, l2. split_and!; eauto using lz_run, lz_nodup, linearized_returned.
Qed.
End pool.
