(* ===== verification/CatomicMsvc.v ===== *)
(** The C11 atomics for MSVC ([common/catomic_msvc.h]), function by function: the
    typed functions on the Interlocked intrinsics of the compiler, the inline assembly
    for 64-bit objects of the IX86 build, and the generic macros that choose a function
    by the type of the object (version 1928 and later) or by its size (before). The
    proofs are in CatomicMsvcProof. *)
From S2P Require Import Prelude Machine Atomics.

Inductive arch_t := M_IX86 | M_X64.

Inductive memory_order :=
  | memory_order_relaxed | memory_order_consume | memory_order_acquire
  | memory_order_release | memory_order_acq_rel | memory_order_seq_cst.

(** The types of atomic objects; [char] is signed, [long] has four bytes. [signed char]
    is [int_least8_t] and [int_fast8_t]; the other typedefs are among the rest. *)
Inductive cty :=
  | Tchar | Tschar | Tuchar | Tbool | Tshort | Tushort | Tint | Tuint | Tlong | Tulong | Tllong | Tullong | Tptr.

(** * Conversions *)

Definition c_char (v : Z) : Z := ival 1 true v.

Definition c_schar (v : Z) : Z := ival 1 true v.

Definition c_uchar (v : Z) : Z := ival 1 false v.

Definition c_bool (v : Z) : Z := if v =? 0 then 0 else 1.

Definition c_short (v : Z) : Z := ival 2 true v.

Definition c_ushort (v : Z) : Z := ival 2 false v.

Definition c_int (v : Z) : Z := ival 4 true v.

Definition c_uint (v : Z) : Z := ival 4 false v.

Definition c_long (v : Z) : Z := ival 4 true v.

Definition c_ulong (v : Z) : Z := ival 4 false v.

Definition c_llong (v : Z) : Z := ival 8 true v.

Definition c_ullong (v : Z) : Z := ival 8 false v.

Definition ptr_size (arch : arch_t) : nat := match arch with M_IX86 => 4 | M_X64 => 8 end.

Definition c_ptr (arch : arch_t) (v : Z) : Z := ival (ptr_size arch) false v.

Definition c_intptr (arch : arch_t) (v : Z) : Z := ival (ptr_size arch) true v.

Definition ty_size (arch : arch_t) (t : cty) : nat :=
  match t with
  | Tchar | Tschar | Tuchar | Tbool => 1
  | Tshort | Tushort => 2
  | Tint | Tuint | Tlong | Tulong => 4
  | Tllong | Tullong => 8
  | Tptr => ptr_size arch
  end.

Definition conv (arch : arch_t) (t : cty) : Z -> Z :=
  match t with
  | Tchar => c_char | Tschar => c_schar | Tuchar => c_uchar | Tbool => c_bool | Tshort => c_short | Tushort => c_ushort
  | Tint => c_int | Tuint => c_uint | Tlong => c_long | Tulong => c_ulong
  | Tllong => c_llong | Tullong => c_ullong | Tptr => c_ptr arch
  end.

(** * The intrinsics

    Each is one atomic access to an object of its size; the result is the old value as
    a signed integer. *)
Definition interlocked (n : nat) (obj : Z) (f : Z -> Z) : aprog Z :=
  AAct (Acc n obj f) (fun v => ARet (ival n true v)).

Definition interlocked_cas (n : nat) (obj desired comparand : Z) : aprog Z :=
  interlocked n obj (fun v => if ival n true v =? comparand then desired else v).

Notation _InterlockedExchange8 obj x := (interlocked 1 obj (fun _ => x)).
Notation _InterlockedExchange16 obj x := (interlocked 2 obj (fun _ => x)).
Notation _InterlockedExchange obj x := (interlocked 4 obj (fun _ => x)).
Notation _InterlockedExchange64 obj x := (interlocked 8 obj (fun _ => x)).
Notation _InterlockedCompareExchange8 := (interlocked_cas 1).
Notation _InterlockedCompareExchange16 := (interlocked_cas 2).
Notation _InterlockedCompareExchange := (interlocked_cas 4).
Notation _InterlockedCompareExchange64 := (interlocked_cas 8).
Notation _InterlockedExchangeAdd8 obj x := (interlocked 1 obj (fun v => v + x)).
Notation _InterlockedExchangeAdd16 obj x := (interlocked 2 obj (fun v => v + x)).
Notation _InterlockedExchangeAdd obj x := (interlocked 4 obj (fun v => v + x)).
Notation _InterlockedExchangeAdd64 obj x := (interlocked 8 obj (fun v => v + x)).
Notation _InterlockedOr8 obj x := (interlocked 1 obj (fun v => Z.lor v x)).
Notation _InterlockedOr16 obj x := (interlocked 2 obj (fun v => Z.lor v x)).
Notation _InterlockedOr obj x := (interlocked 4 obj (fun v => Z.lor v x)).
Notation _InterlockedOr64 obj x := (interlocked 8 obj (fun v => Z.lor v x)).
Notation _InterlockedXor8 obj x := (interlocked 1 obj (fun v => Z.lxor v x)).
Notation _InterlockedXor16 obj x := (interlocked 2 obj (fun v => Z.lxor v x)).
Notation _InterlockedXor obj x := (interlocked 4 obj (fun v => Z.lxor v x)).
Notation _InterlockedXor64 obj x := (interlocked 8 obj (fun v => Z.lxor v x)).
Notation _InterlockedAnd8 obj x := (interlocked 1 obj (fun v => Z.land v x)).
Notation _InterlockedAnd16 obj x := (interlocked 2 obj (fun v => Z.land v x)).
Notation _InterlockedAnd obj x := (interlocked 4 obj (fun v => Z.land v x)).
Notation _InterlockedAnd64 obj x := (interlocked 8 obj (fun v => Z.land v x)).

(** * The inline assembly of IX86 *)

Definition qword (lo hi : Z) : Z := lo + 2 ^ 32 * hi.

Definition dword_lo (v : Z) : Z := pat 4 v.

Definition dword_hi (v : Z) : Z := pat 4 (v / 2 ^ 32).

(** [lock cmpxchg8b]: the old value of the object, which is replaced by [ecx:ebx] if it
    is [edx:eax]. *)
Definition cmpxchg8b (edi ebx ecx eax edx : Z) : aprog Z :=
  rmw 8 edi (fun v => if v =? qword eax edx then qword ebx ecx else v).

(** [again: lock cmpxchg8b qword ptr [edi]; jne again]: a failing comparison loads the
    old value into [edx:eax]. The registers [edx:eax] at the end. *)
Fixpoint again (fuel : nat) (edi ebx ecx eax edx : Z) : aprog (Z * Z) :=
  match fuel with
  | O => AFail OutOfFuel
  | S fuel =>
      v ← cmpxchg8b edi ebx ecx eax edx;
      if v =? qword eax edx then mret (eax, edx)
      else again fuel edi ebx ecx (dword_lo v) (dword_hi v)
  end.

(** * The typed functions

    [fuel] bounds the retries of the loops, [ebx] and [ecx] are the registers when
    a load is called. *)
Section typed.
Context (arch : arch_t) (fuel : nat) (ebx ecx : Z).

(** ** [atomic_store_explicit] *)

Definition atomic_store_char (obj desired : Z) (order : memory_order) : aprog unit :=
  match order with
  | memory_order_seq_cst => _ ← _InterlockedExchange8 obj desired; mret tt
  | _ => astore 1 obj desired
  end.

Definition atomic_store_uchar (obj desired : Z) (order : memory_order) : aprog unit :=
  atomic_store_char obj (c_char desired) order.

Definition atomic_store_bool (obj desired : Z) (order : memory_order) : aprog unit :=
  atomic_store_char obj (c_bool desired) order.

Definition atomic_store_short (obj desired : Z) (order : memory_order) : aprog unit :=
  match order with
  | memory_order_seq_cst => _ ← _InterlockedExchange16 obj desired; mret tt
  | _ => astore 2 obj desired
  end.

Definition atomic_store_ushort (obj desired : Z) (order : memory_order) : aprog unit :=
  atomic_store_short obj (c_short desired) order.

Definition atomic_store_long (obj desired : Z) (order : memory_order) : aprog unit :=
  match order with
  | memory_order_seq_cst => _ ← _InterlockedExchange obj desired; mret tt
  | _ => astore 4 obj desired
  end.

Definition atomic_store_ulong (obj desired : Z) (order : memory_order) : aprog unit :=
  atomic_store_long obj (c_long desired) order.

Definition atomic_store_int (obj desired : Z) (order : memory_order) : aprog unit :=
  atomic_store_long obj (c_long desired) order.

Definition atomic_store_uint (obj desired : Z) (order : memory_order) : aprog unit :=
  atomic_store_long obj (c_long desired) order.

(** On IX86 an aligned object is written by one [movq] or [fistp], any other by a loop of [cmpxchg8b]. *)
Definition atomic_store_llong (obj desired : Z) (order : memory_order) : aprog unit :=
  match arch with
  | M_IX86 =>
      if Z.land obj 7 =? 0 then astore 8 obj desired
      else
        eax ← aload 4 obj; edx ← aload 4 (obj + 4);
        _ ← again fuel obj (dword_lo desired) (dword_hi desired) eax edx; mret tt
  | M_X64 =>
      match order with
      | memory_order_seq_cst => _ ← _InterlockedExchange64 obj desired; mret tt
      | _ => astore 8 obj desired
      end
  end.

Definition atomic_store_ullong (obj desired : Z) (order : memory_order) : aprog unit :=
  atomic_store_llong obj (c_llong desired) order.

Definition atomic_store_ptr (obj desired : Z) (order : memory_order) : aprog unit :=
  match arch with
  | M_IX86 => atomic_store_long obj (c_long desired) order
  | M_X64 => atomic_store_llong obj (c_llong desired) order
  end.

(** ** [atomic_load_explicit] *)

Definition atomic_load_char (obj : Z) (order : memory_order) : aprog Z :=
  value ← aload 1 obj; mret (c_char value).

Definition atomic_load_uchar (obj : Z) (order : memory_order) : aprog Z :=
  v ← atomic_load_char obj order; mret (c_uchar v).

Definition atomic_load_bool (obj : Z) (order : memory_order) : aprog Z :=
  v ← atomic_load_char obj order; mret (c_bool v).

Definition atomic_load_short (obj : Z) (order : memory_order) : aprog Z :=
  value ← aload 2 obj; mret (c_short value).

Definition atomic_load_ushort (obj : Z) (order : memory_order) : aprog Z :=
  v ← atomic_load_short obj order; mret (c_ushort v).

Definition atomic_load_long (obj : Z) (order : memory_order) : aprog Z :=
  value ← aload 4 obj; mret (c_int value).

Definition atomic_load_ulong (obj : Z) (order : memory_order) : aprog Z :=
  v ← atomic_load_long obj order; mret (c_ulong v).

Definition atomic_load_int (obj : Z) (order : memory_order) : aprog Z :=
  v ← atomic_load_long obj order; mret (c_int v).

Definition atomic_load_uint (obj : Z) (order : memory_order) : aprog Z :=
  v ← atomic_load_long obj order; mret (c_uint v).

(** On IX86 an object that is not aligned is read by a [cmpxchg8b] of the registers [ecx:ebx], whatever they hold, with themselves. *)
Definition atomic_load_llong (obj : Z) (order : memory_order) : aprog Z :=
  match arch with
  | M_IX86 =>
      if Z.land obj 7 =? 0 then v ← aload 8 obj; mret (c_llong v)
      else
        v ← cmpxchg8b obj ebx ecx ebx ecx; mret (c_llong v)
  | M_X64 => value ← aload 8 obj; mret (c_llong value)
  end.

Definition atomic_load_ullong (obj : Z) (order : memory_order) : aprog Z :=
  v ← atomic_load_llong obj order; mret (c_ullong v).

Definition atomic_load_ptr (obj : Z) (order : memory_order) : aprog Z :=
  match arch with
  | M_IX86 => v ← atomic_load_long obj order; mret (c_ptr arch v)
  | M_X64 => v ← atomic_load_llong obj order; mret (c_ptr arch v)
  end.

(** ** [atomic_exchange_explicit] *)

Definition atomic_exchange_char (obj desired : Z) (order : memory_order) : aprog Z :=
  _InterlockedExchange8 obj desired.

Definition atomic_exchange_uchar (obj desired : Z) (order : memory_order) : aprog Z :=
  v ← atomic_exchange_char obj (c_char desired) order; mret (c_uchar v).

Definition atomic_exchange_bool (obj desired : Z) (order : memory_order) : aprog Z :=
  v ← atomic_exchange_char obj (c_char desired) order; mret (c_bool v).

Definition atomic_exchange_short (obj desired : Z) (order : memory_order) : aprog Z :=
  _InterlockedExchange16 obj desired.

Definition atomic_exchange_ushort (obj desired : Z) (order : memory_order) : aprog Z :=
  v ← atomic_exchange_short obj (c_short desired) order; mret (c_ushort v).

Definition atomic_exchange_long (obj desired : Z) (order : memory_order) : aprog Z :=
  _InterlockedExchange obj desired.

Definition atomic_exchange_ulong (obj desired : Z) (order : memory_order) : aprog Z :=
  v ← atomic_exchange_long obj (c_long desired) order; mret (c_ulong v).

Definition atomic_exchange_int (obj desired : Z) (order : memory_order) : aprog Z :=
  v ← atomic_exchange_long obj (c_long desired) order; mret (c_int v).

Definition atomic_exchange_uint (obj desired : Z) (order : memory_order) : aprog Z :=
  v ← atomic_exchange_long obj (c_long desired) order; mret (c_uint v).

Definition atomic_exchange_llong (obj desired : Z) (order : memory_order) : aprog Z :=
  match arch with
  | M_IX86 =>
      eax ← aload 4 obj; edx ← aload 4 (obj + 4);
      '(eax, edx) ← again fuel obj (dword_lo desired) (dword_hi desired) eax edx;
      mret (c_llong (qword eax edx))
  | M_X64 => _InterlockedExchange64 obj desired
  end.

Definition atomic_exchange_ullong (obj desired : Z) (order : memory_order) : aprog Z :=
  v ← atomic_exchange_llong obj (c_llong desired) order; mret (c_ullong v).

Definition atomic_exchange_ptr (obj desired : Z) (order : memory_order) : aprog Z :=
  match arch with
  | M_IX86 => v ← atomic_exchange_long obj (c_long desired) order; mret (c_ptr arch v)
  | M_X64 => v ← atomic_exchange_llong obj (c_llong desired) order; mret (c_ptr arch v)
  end.

(** ** [atomic_compare_exchange_strong_explicit]

    The argument [expected] is the value the pointer points to, the second result its
    new value; a cast of the pointer reads the value as the other type. *)

Definition atomic_compare_exchange_char (obj expected desired : Z) (success failure : memory_order) : aprog (bool * Z) :=
  let old := expected in
  expected ← _InterlockedCompareExchange8 obj desired old; mret (old =? expected, expected).

Definition atomic_compare_exchange_uchar (obj expected desired : Z) (success failure : memory_order) : aprog (bool * Z) :=
  '(b, e) ← atomic_compare_exchange_char obj (c_char expected) (c_char desired) success failure; mret (b, c_uchar e).

Definition atomic_compare_exchange_short (obj expected desired : Z) (success failure : memory_order) : aprog (bool * Z) :=
  let old := expected in
  expected ← _InterlockedCompareExchange16 obj desired old; mret (old =? expected, expected).

Definition atomic_compare_exchange_ushort (obj expected desired : Z) (success failure : memory_order) : aprog (bool * Z) :=
  '(b, e) ← atomic_compare_exchange_short obj (c_short expected) (c_short desired) success failure; mret (b, c_ushort e).

Definition atomic_compare_exchange_long (obj expected desired : Z) (success failure : memory_order) : aprog (bool * Z) :=
  let old := expected in
  expected ← _InterlockedCompareExchange obj desired old; mret (old =? expected, expected).

Definition atomic_compare_exchange_ulong (obj expected desired : Z) (success failure : memory_order) : aprog (bool * Z) :=
  '(b, e) ← atomic_compare_exchange_long obj (c_long expected) (c_long desired) success failure; mret (b, c_ulong e).

Definition atomic_compare_exchange_int (obj expected desired : Z) (success failure : memory_order) : aprog (bool * Z) :=
  '(b, e) ← atomic_compare_exchange_long obj (c_long expected) (c_long desired) success failure; mret (b, c_int e).

Definition atomic_compare_exchange_uint (obj expected desired : Z) (success failure : memory_order) : aprog (bool * Z) :=
  '(b, e) ← atomic_compare_exchange_long obj (c_long expected) (c_long desired) success failure; mret (b, c_uint e).

Definition atomic_compare_exchange_llong (obj expected desired : Z) (success failure : memory_order) : aprog (bool * Z) :=
  let old := expected in
  expected ← _InterlockedCompareExchange64 obj desired old; mret (old =? expected, expected).

Definition atomic_compare_exchange_ullong (obj expected desired : Z) (success failure : memory_order) : aprog (bool * Z) :=
  '(b, e) ← atomic_compare_exchange_llong obj (c_llong expected) (c_llong desired) success failure; mret (b, c_ullong e).

Definition atomic_compare_exchange_ptr (obj expected desired : Z) (success failure : memory_order) : aprog (bool * Z) :=
  match arch with
  | M_IX86 =>
      '(b, e) ← atomic_compare_exchange_long obj (c_long expected) (c_long desired) success failure;
      mret (b, c_ptr arch e)
  | M_X64 =>
      '(b, e) ← atomic_compare_exchange_llong obj (c_llong expected) (c_llong desired) success failure;
      mret (b, c_ptr arch e)
  end.

(** [__int64 old = *obj; while (!atomic_compare_exchange_weak(obj, &old, f(old))) {} return old;],
    where a plain read of eight bytes is two reads of four on IX86. *)
Fixpoint fetch_loop (fuel : nat) (obj : Z) (f : Z -> Z) (old : Z) : aprog Z :=
  match fuel with
  | O => AFail OutOfFuel
  | S fuel =>
      '(b, old) ← atomic_compare_exchange_llong obj old (f old) memory_order_seq_cst memory_order_seq_cst;
      if b : bool then mret old else fetch_loop fuel obj f old
  end.

Definition read_int64 (obj : Z) : aprog Z :=
  lo ← aload 4 obj; hi ← aload 4 (obj + 4); mret (c_llong (qword lo hi)).

(** ** [atomic_fetch_add_explicit] *)

Definition atomic_fetch_add_char (obj op : Z) (order : memory_order) : aprog Z :=
  _InterlockedExchangeAdd8 obj op.

Definition atomic_fetch_add_uchar (obj op : Z) (order : memory_order) : aprog Z :=
  v ← atomic_fetch_add_char obj (c_char op) order; mret (c_uchar v).

Definition atomic_fetch_add_short (obj op : Z) (order : memory_order) : aprog Z :=
  _InterlockedExchangeAdd16 obj op.

Definition atomic_fetch_add_ushort (obj op : Z) (order : memory_order) : aprog Z :=
  v ← atomic_fetch_add_short obj (c_short op) order; mret (c_ushort v).

Definition atomic_fetch_add_long (obj op : Z) (order : memory_order) : aprog Z :=
  _InterlockedExchangeAdd obj op.

Definition atomic_fetch_add_ulong (obj op : Z) (order : memory_order) : aprog Z :=
  v ← atomic_fetch_add_long obj (c_long op) order; mret (c_ulong v).

Definition atomic_fetch_add_int (obj op : Z) (order : memory_order) : aprog Z :=
  v ← atomic_fetch_add_long obj (c_long op) order; mret (c_int v).

Definition atomic_fetch_add_uint (obj op : Z) (order : memory_order) : aprog Z :=
  v ← atomic_fetch_add_long obj (c_long op) order; mret (c_uint v).

Definition atomic_fetch_add_llong (obj op : Z) (order : memory_order) : aprog Z :=
  match arch with
  | M_IX86 => old ← read_int64 obj; fetch_loop fuel obj (fun old => c_llong (old + op)) old
  | M_X64 => _InterlockedExchangeAdd64 obj op
  end.

Definition atomic_fetch_add_ullong (obj op : Z) (order : memory_order) : aprog Z :=
  v ← atomic_fetch_add_llong obj (c_llong op) order; mret (c_ullong v).

(** ** [atomic_fetch_sub_explicit] *)

Definition atomic_fetch_sub_char (obj op : Z) (order : memory_order) : aprog Z :=
  _InterlockedExchangeAdd8 obj (c_char (- op)).

Definition atomic_fetch_sub_uchar (obj op : Z) (order : memory_order) : aprog Z :=
  v ← atomic_fetch_sub_char obj (c_char op) order; mret (c_uchar v).

Definition atomic_fetch_sub_short (obj op : Z) (order : memory_order) : aprog Z :=
  _InterlockedExchangeAdd16 obj (c_short (- op)).

Definition atomic_fetch_sub_ushort (obj op : Z) (order : memory_order) : aprog Z :=
  v ← atomic_fetch_sub_short obj (c_short op) order; mret (c_ushort v).

Definition atomic_fetch_sub_long (obj op : Z) (order : memory_order) : aprog Z :=
  _InterlockedExchangeAdd obj (c_long (- op)).

Definition atomic_fetch_sub_ulong (obj op : Z) (order : memory_order) : aprog Z :=
  v ← atomic_fetch_sub_long obj (c_long op) order; mret (c_ulong v).

Definition atomic_fetch_sub_int (obj op : Z) (order : memory_order) : aprog Z :=
  v ← atomic_fetch_sub_long obj (c_long op) order; mret (c_int v).

Definition atomic_fetch_sub_uint (obj op : Z) (order : memory_order) : aprog Z :=
  v ← atomic_fetch_sub_long obj (c_long op) order; mret (c_uint v).

Definition atomic_fetch_sub_llong (obj op : Z) (order : memory_order) : aprog Z :=
  match arch with
  | M_IX86 => old ← read_int64 obj; fetch_loop fuel obj (fun old => c_llong (old - op)) old
  | M_X64 => _InterlockedExchangeAdd64 obj (c_llong (- op))
  end.

Definition atomic_fetch_sub_ullong (obj op : Z) (order : memory_order) : aprog Z :=
  v ← atomic_fetch_sub_llong obj (c_llong op) order; mret (c_ullong v).

(** ** [atomic_fetch_or_explicit] *)

Definition atomic_fetch_or_char (obj op : Z) (order : memory_order) : aprog Z :=
  _InterlockedOr8 obj op.

Definition atomic_fetch_or_uchar (obj op : Z) (order : memory_order) : aprog Z :=
  v ← atomic_fetch_or_char obj (c_char op) order; mret (c_uchar v).

Definition atomic_fetch_or_short (obj op : Z) (order : memory_order) : aprog Z :=
  _InterlockedOr16 obj op.

Definition atomic_fetch_or_ushort (obj op : Z) (order : memory_order) : aprog Z :=
  v ← atomic_fetch_or_short obj (c_short op) order; mret (c_ushort v).

Definition atomic_fetch_or_long (obj op : Z) (order : memory_order) : aprog Z :=
  _InterlockedOr obj op.

Definition atomic_fetch_or_ulong (obj op : Z) (order : memory_order) : aprog Z :=
  v ← atomic_fetch_or_long obj (c_long op) order; mret (c_ulong v).

Definition atomic_fetch_or_int (obj op : Z) (order : memory_order) : aprog Z :=
  v ← atomic_fetch_or_long obj (c_long op) order; mret (c_int v).

Definition atomic_fetch_or_uint (obj op : Z) (order : memory_order) : aprog Z :=
  v ← atomic_fetch_or_long obj (c_long op) order; mret (c_uint v).

Definition atomic_fetch_or_llong (obj op : Z) (order : memory_order) : aprog Z :=
  match arch with
  | M_IX86 => old ← read_int64 obj; fetch_loop fuel obj (fun old => Z.lor old op) old
  | M_X64 => _InterlockedOr64 obj op
  end.

Definition atomic_fetch_or_ullong (obj op : Z) (order : memory_order) : aprog Z :=
  v ← atomic_fetch_or_llong obj (c_llong op) order; mret (c_ullong v).

(** ** [atomic_fetch_xor_explicit] *)

Definition atomic_fetch_xor_char (obj op : Z) (order : memory_order) : aprog Z :=
  _InterlockedXor8 obj op.

Definition atomic_fetch_xor_uchar (obj op : Z) (order : memory_order) : aprog Z :=
  v ← atomic_fetch_xor_char obj (c_char op) order; mret (c_uchar v).

Definition atomic_fetch_xor_short (obj op : Z) (order : memory_order) : aprog Z :=
  _InterlockedXor16 obj op.

Definition atomic_fetch_xor_ushort (obj op : Z) (order : memory_order) : aprog Z :=
  v ← atomic_fetch_xor_short obj (c_short op) order; mret (c_ushort v).

Definition atomic_fetch_xor_long (obj op : Z) (order : memory_order) : aprog Z :=
  _InterlockedXor obj op.

Definition atomic_fetch_xor_ulong (obj op : Z) (order : memory_order) : aprog Z :=
  v ← atomic_fetch_xor_long obj (c_long op) order; mret (c_ulong v).

Definition atomic_fetch_xor_int (obj op : Z) (order : memory_order) : aprog Z :=
  v ← atomic_fetch_xor_long obj (c_long op) order; mret (c_int v).

Definition atomic_fetch_xor_uint (obj op : Z) (order : memory_order) : aprog Z :=
  v ← atomic_fetch_xor_long obj (c_long op) order; mret (c_uint v).

Definition atomic_fetch_xor_llong (obj op : Z) (order : memory_order) : aprog Z :=
  match arch with
  | M_IX86 => old ← read_int64 obj; fetch_loop fuel obj (fun old => Z.lxor old op) old
  | M_X64 => _InterlockedXor64 obj op
  end.

Definition atomic_fetch_xor_ullong (obj op : Z) (order : memory_order) : aprog Z :=
  v ← atomic_fetch_xor_llong obj (c_llong op) order; mret (c_ullong v).

(** ** [atomic_fetch_and_explicit] *)

Definition atomic_fetch_and_char (obj op : Z) (order : memory_order) : aprog Z :=
  _InterlockedAnd8 obj op.

Definition atomic_fetch_and_uchar (obj op : Z) (order : memory_order) : aprog Z :=
  v ← atomic_fetch_and_char obj (c_char op) order; mret (c_uchar v).

Definition atomic_fetch_and_short (obj op : Z) (order : memory_order) : aprog Z :=
  _InterlockedAnd16 obj op.

Definition atomic_fetch_and_ushort (obj op : Z) (order : memory_order) : aprog Z :=
  v ← atomic_fetch_and_short obj (c_short op) order; mret (c_ushort v).

Definition atomic_fetch_and_long (obj op : Z) (order : memory_order) : aprog Z :=
  _InterlockedAnd obj op.

Definition atomic_fetch_and_ulong (obj op : Z) (order : memory_order) : aprog Z :=
  v ← atomic_fetch_and_long obj (c_long op) order; mret (c_ulong v).

Definition atomic_fetch_and_int (obj op : Z) (order : memory_order) : aprog Z :=
  v ← atomic_fetch_and_long obj (c_long op) order; mret (c_int v).

Definition atomic_fetch_and_uint (obj op : Z) (order : memory_order) : aprog Z :=
  v ← atomic_fetch_and_long obj (c_long op) order; mret (c_uint v).

Definition atomic_fetch_and_llong (obj op : Z) (order : memory_order) : aprog Z :=
  match arch with
  | M_IX86 => old ← read_int64 obj; fetch_loop fuel obj (fun old => Z.land old op) old
  | M_X64 => _InterlockedAnd64 obj op
  end.

Definition atomic_fetch_and_ullong (obj op : Z) (order : memory_order) : aprog Z :=
  v ← atomic_fetch_and_llong obj (c_llong op) order; mret (c_ullong v).

(** * The generic macros

    From version 1928 on by [_Generic] on the type of the object, before by its size. A
    conditional expression has the type [__int64] whatever branch it takes, so the
    value of the narrow signed type is the result. The association [default] of
    [_Generic] is meant for pointers; [signed char] has no association of its own, and
    takes it, nor has [bool] when it is compared and exchanged. The arguments are then
    converted to pointers. *)

Definition atomic_store_explicit_generic (t : cty) (obj desired : Z) (order : memory_order) : aprog unit :=
  match t with
  | Tchar => atomic_store_char obj (conv arch t desired) order
  | Tschar => atomic_store_ptr obj (c_ptr arch desired) order
  | Tuchar => atomic_store_uchar obj (conv arch t desired) order
  | Tbool => atomic_store_bool obj (conv arch t desired) order
  | Tshort => atomic_store_short obj (conv arch t desired) order
  | Tushort => atomic_store_ushort obj (conv arch t desired) order
  | Tint => atomic_store_int obj (conv arch t desired) order
  | Tuint => atomic_store_uint obj (conv arch t desired) order
  | Tlong => atomic_store_long obj (conv arch t desired) order
  | Tulong => atomic_store_ulong obj (conv arch t desired) order
  | Tllong => atomic_store_llong obj (conv arch t desired) order
  | Tullong => atomic_store_ullong obj (conv arch t desired) order
  | Tptr => atomic_store_ptr obj (conv arch t desired) order
  end.

Definition atomic_load_explicit_generic (t : cty) (obj : Z) (order : memory_order) : aprog Z :=
  match t with
  | Tchar => atomic_load_char obj order
  | Tschar => atomic_load_ptr obj order
  | Tuchar => atomic_load_uchar obj order
  | Tbool => atomic_load_bool obj order
  | Tshort => atomic_load_short obj order
  | Tushort => atomic_load_ushort obj order
  | Tint => atomic_load_int obj order
  | Tuint => atomic_load_uint obj order
  | Tlong => atomic_load_long obj order
  | Tulong => atomic_load_ulong obj order
  | Tllong => atomic_load_llong obj order
  | Tullong => atomic_load_ullong obj order
  | Tptr => atomic_load_ptr obj order
  end.

Definition atomic_exchange_explicit_generic (t : cty) (obj desired : Z) (order : memory_order) : aprog Z :=
  match t with
  | Tchar => atomic_exchange_char obj (conv arch t desired) order
  | Tschar => atomic_exchange_ptr obj (c_ptr arch desired) order
  | Tuchar => atomic_exchange_uchar obj (conv arch t desired) order
  | Tbool => atomic_exchange_bool obj (conv arch t desired) order
  | Tshort => atomic_exchange_short obj (conv arch t desired) order
  | Tushort => atomic_exchange_ushort obj (conv arch t desired) order
  | Tint => atomic_exchange_int obj (conv arch t desired) order
  | Tuint => atomic_exchange_uint obj (conv arch t desired) order
  | Tlong => atomic_exchange_long obj (conv arch t desired) order
  | Tulong => atomic_exchange_ulong obj (conv arch t desired) order
  | Tllong => atomic_exchange_llong obj (conv arch t desired) order
  | Tullong => atomic_exchange_ullong obj (conv arch t desired) order
  | Tptr => atomic_exchange_ptr obj (conv arch t desired) order
  end.

Definition atomic_compare_exchange_strong_explicit_generic (t : cty) (obj expected desired : Z) (success failure : memory_order) : aprog (bool * Z) :=
  match t with
  | Tchar => atomic_compare_exchange_char obj expected (conv arch t desired) success failure
  | Tschar => atomic_compare_exchange_ptr obj expected (c_ptr arch desired) success failure
  | Tuchar => atomic_compare_exchange_uchar obj expected (conv arch t desired) success failure
  | Tbool => atomic_compare_exchange_ptr obj expected (c_ptr arch desired) success failure
  | Tshort => atomic_compare_exchange_short obj expected (conv arch t desired) success failure
  | Tushort => atomic_compare_exchange_ushort obj expected (conv arch t desired) success failure
  | Tint => atomic_compare_exchange_int obj expected (conv arch t desired) success failure
  | Tuint => atomic_compare_exchange_uint obj expected (conv arch t desired) success failure
  | Tlong => atomic_compare_exchange_long obj expected (conv arch t desired) success failure
  | Tulong => atomic_compare_exchange_ulong obj expected (conv arch t desired) success failure
  | Tllong => atomic_compare_exchange_llong obj expected (conv arch t desired) success failure
  | Tullong => atomic_compare_exchange_ullong obj expected (conv arch t desired) success failure
  | Tptr => atomic_compare_exchange_ptr obj expected (conv arch t desired) success failure
  end.

Definition atomic_fetch_add_explicit_generic (t : cty) (obj op : Z) (order : memory_order) : option (aprog Z) :=
  match t with
  | Tchar => Some (atomic_fetch_add_char obj (conv arch t op) order)
  | Tschar => None
  | Tuchar => Some (atomic_fetch_add_uchar obj (conv arch t op) order)
  | Tbool => None
  | Tshort => Some (atomic_fetch_add_short obj (conv arch t op) order)
  | Tushort => Some (atomic_fetch_add_ushort obj (conv arch t op) order)
  | Tint => Some (atomic_fetch_add_int obj (conv arch t op) order)
  | Tuint => Some (atomic_fetch_add_uint obj (conv arch t op) order)
  | Tlong => Some (atomic_fetch_add_long obj (conv arch t op) order)
  | Tulong => Some (atomic_fetch_add_ulong obj (conv arch t op) order)
  | Tllong => Some (atomic_fetch_add_llong obj (conv arch t op) order)
  | Tullong => Some (atomic_fetch_add_ullong obj (conv arch t op) order)
  | Tptr => None
  end.

Definition atomic_fetch_sub_explicit_generic (t : cty) (obj op : Z) (order : memory_order) : option (aprog Z) :=
  match t with
  | Tchar => Some (atomic_fetch_sub_char obj (conv arch t op) order)
  | Tschar => None
  | Tuchar => Some (atomic_fetch_sub_uchar obj (conv arch t op) order)
  | Tbool => None
  | Tshort => Some (atomic_fetch_sub_short obj (conv arch t op) order)
  | Tushort => Some (atomic_fetch_sub_ushort obj (conv arch t op) order)
  | Tint => Some (atomic_fetch_sub_int obj (conv arch t op) order)
  | Tuint => Some (atomic_fetch_sub_uint obj (conv arch t op) order)
  | Tlong => Some (atomic_fetch_sub_long obj (conv arch t op) order)
  | Tulong => Some (atomic_fetch_sub_ulong obj (conv arch t op) order)
  | Tllong => Some (atomic_fetch_sub_llong obj (conv arch t op) order)
  | Tullong => Some (atomic_fetch_sub_ullong obj (conv arch t op) order)
  | Tptr => None
  end.

Definition atomic_fetch_or_explicit_generic (t : cty) (obj op : Z) (order : memory_order) : option (aprog Z) :=
  match t with
  | Tchar => Some (atomic_fetch_or_char obj (conv arch t op) order)
  | Tschar => None
  | Tuchar => Some (atomic_fetch_or_uchar obj (conv arch t op) order)
  | Tbool => None
  | Tshort => Some (atomic_fetch_or_short obj (conv arch t op) order)
  | Tushort => Some (atomic_fetch_or_ushort obj (conv arch t op) order)
  | Tint => Some (atomic_fetch_or_int obj (conv arch t op) order)
  | Tuint => Some (atomic_fetch_or_uint obj (conv arch t op) order)
  | Tlong => Some (atomic_fetch_or_long obj (conv arch t op) order)
  | Tulong => Some (atomic_fetch_or_ulong obj (conv arch t op) order)
  | Tllong => Some (atomic_fetch_or_llong obj (conv arch t op) order)
  | Tullong => Some (atomic_fetch_or_ullong obj (conv arch t op) order)
  | Tptr => None
  end.

Definition atomic_fetch_xor_explicit_generic (t : cty) (obj op : Z) (order : memory_order) : option (aprog Z) :=
  match t with
  | Tchar => Some (atomic_fetch_xor_char obj (conv arch t op) order)
  | Tschar => None
  | Tuchar => Some (atomic_fetch_xor_uchar obj (conv arch t op) order)
  | Tbool => None
  | Tshort => Some (atomic_fetch_xor_short obj (conv arch t op) order)
  | Tushort => Some (atomic_fetch_xor_ushort obj (conv arch t op) order)
  | Tint => Some (atomic_fetch_xor_int obj (conv arch t op) order)
  | Tuint => Some (atomic_fetch_xor_uint obj (conv arch t op) order)
  | Tlong => Some (atomic_fetch_xor_long obj (conv arch t op) order)
  | Tulong => Some (atomic_fetch_xor_ulong obj (conv arch t op) order)
  | Tllong => Some (atomic_fetch_xor_llong obj (conv arch t op) order)
  | Tullong => Some (atomic_fetch_xor_ullong obj (conv arch t op) order)
  | Tptr => None
  end.

Definition atomic_fetch_and_explicit_generic (t : cty) (obj op : Z) (order : memory_order) : option (aprog Z) :=
  match t with
  | Tchar => Some (atomic_fetch_and_char obj (conv arch t op) order)
  | Tschar => None
  | Tuchar => Some (atomic_fetch_and_uchar obj (conv arch t op) order)
  | Tbool => None
  | Tshort => Some (atomic_fetch_and_short obj (conv arch t op) order)
  | Tushort => Some (atomic_fetch_and_ushort obj (conv arch t op) order)
  | Tint => Some (atomic_fetch_and_int obj (conv arch t op) order)
  | Tuint => Some (atomic_fetch_and_uint obj (conv arch t op) order)
  | Tlong => Some (atomic_fetch_and_long obj (conv arch t op) order)
  | Tulong => Some (atomic_fetch_and_ulong obj (conv arch t op) order)
  | Tllong => Some (atomic_fetch_and_llong obj (conv arch t op) order)
  | Tullong => Some (atomic_fetch_and_ullong obj (conv arch t op) order)
  | Tptr => None
  end.

Definition atomic_store_explicit_sizeof (t : cty) (obj desired : Z) (order : memory_order) : aprog unit :=
  match ty_size arch t with
  | 1 => atomic_store_char obj (c_char (c_intptr arch desired)) order
  | 2 => atomic_store_short obj (c_short (c_intptr arch desired)) order
  | 4 => atomic_store_long obj (c_long (c_intptr arch desired)) order
  | 8 => atomic_store_llong obj (c_llong desired) order
  | _ => AFail AssertFail
  end%nat.

Definition atomic_load_explicit_sizeof (t : cty) (obj : Z) (order : memory_order) : aprog Z :=
  match ty_size arch t with
  | 1 => atomic_load_char obj order
  | 2 => atomic_load_short obj order
  | 4 => atomic_load_long obj order
  | 8 => atomic_load_llong obj order
  | _ => AFail AssertFail
  end%nat.

Definition atomic_exchange_explicit_sizeof (t : cty) (obj desired : Z) (order : memory_order) : aprog Z :=
  match ty_size arch t with
  | 1 => atomic_exchange_char obj (c_char (c_intptr arch desired)) order
  | 2 => atomic_exchange_short obj (c_short (c_intptr arch desired)) order
  | 4 => atomic_exchange_long obj (c_long (c_intptr arch desired)) order
  | 8 => atomic_exchange_llong obj (c_llong desired) order
  | _ => AFail AssertFail
  end%nat.

Definition atomic_compare_exchange_strong_explicit_sizeof (t : cty) (obj expected desired : Z) (success failure : memory_order) : aprog (bool * Z) :=
  match ty_size arch t with
  | 1 =>
      '(b, e) ← atomic_compare_exchange_char obj (c_char expected) (c_char (c_intptr arch desired)) success failure;
      mret (b, conv arch t e)
  | 2 =>
      '(b, e) ← atomic_compare_exchange_short obj (c_short expected) (c_short (c_intptr arch desired)) success failure;
      mret (b, conv arch t e)
  | 4 =>
      '(b, e) ← atomic_compare_exchange_long obj (c_long expected) (c_long (c_intptr arch desired)) success failure;
      mret (b, conv arch t e)
  | 8 =>
      '(b, e) ← atomic_compare_exchange_llong obj (c_llong expected) (c_llong desired) success failure;
      mret (b, conv arch t e)
  | _ => AFail AssertFail
  end%nat.

Definition atomic_fetch_add_explicit_sizeof (t : cty) (obj op : Z) (order : memory_order) : aprog Z :=
  match ty_size arch t with
  | 1 => atomic_fetch_add_char obj (c_char (c_intptr arch op)) order
  | 2 => atomic_fetch_add_short obj (c_short (c_intptr arch op)) order
  | 4 => atomic_fetch_add_long obj (c_long (c_intptr arch op)) order
  | 8 => atomic_fetch_add_llong obj (c_llong (c_intptr arch op)) order
  | _ => AFail AssertFail
  end%nat.

Definition atomic_fetch_sub_explicit_sizeof (t : cty) (obj op : Z) (order : memory_order) : aprog Z :=
  match ty_size arch t with
  | 1 => atomic_fetch_sub_char obj (c_char (c_intptr arch op)) order
  | 2 => atomic_fetch_sub_short obj (c_short (c_intptr arch op)) order
  | 4 => atomic_fetch_sub_long obj (c_long (c_intptr arch op)) order
  | 8 => atomic_fetch_sub_llong obj (c_llong (c_intptr arch op)) order
  | _ => AFail AssertFail
  end%nat.

Definition atomic_fetch_or_explicit_sizeof (t : cty) (obj op : Z) (order : memory_order) : aprog Z :=
  match ty_size arch t with
  | 1 => atomic_fetch_or_char obj (c_char (c_intptr arch op)) order
  | 2 => atomic_fetch_or_short obj (c_short (c_intptr arch op)) order
  | 4 => atomic_fetch_or_long obj (c_long (c_intptr arch op)) order
  | 8 => atomic_fetch_or_llong obj (c_llong (c_intptr arch op)) order
  | _ => AFail AssertFail
  end%nat.

Definition atomic_fetch_xor_explicit_sizeof (t : cty) (obj op : Z) (order : memory_order) : aprog Z :=
  match ty_size arch t with
  | 1 => atomic_fetch_xor_char obj (c_char (c_intptr arch op)) order
  | 2 => atomic_fetch_xor_short obj (c_short (c_intptr arch op)) order
  | 4 => atomic_fetch_xor_long obj (c_long (c_intptr arch op)) order
  | 8 => atomic_fetch_xor_llong obj (c_llong (c_intptr arch op)) order
  | _ => AFail AssertFail
  end%nat.

Definition atomic_fetch_and_explicit_sizeof (t : cty) (obj op : Z) (order : memory_order) : aprog Z :=
  match ty_size arch t with
  | 1 => atomic_fetch_and_char obj (c_char (c_intptr arch op)) order
  | 2 => atomic_fetch_and_short obj (c_short (c_intptr arch op)) order
  | 4 => atomic_fetch_and_long obj (c_long (c_intptr arch op)) order
  | 8 => atomic_fetch_and_llong obj (c_llong (c_intptr arch op)) order
  | _ => AFail AssertFail
  end%nat.

(** ** Flags *)

Definition atomic_flag_test_and_set_explicit (obj : Z) (order : memory_order) : aprog Z :=
  atomic_exchange_bool obj 1 order.

Definition atomic_flag_clear_explicit (obj : Z) (order : memory_order) : aprog unit :=
  atomic_store_bool obj 0 order.

(** * The operations *)

Inductive call :=
  | CStore (t : cty) (obj desired : Z) (order : memory_order)
  | CLoad (t : cty) (obj : Z) (order : memory_order)
  | CExchange (t : cty) (obj desired : Z) (order : memory_order)
  | CCas (t : cty) (obj expected desired : Z) (success failure : memory_order)
  | CFetch (o : fop) (t : cty) (obj op : Z) (order : memory_order)
  | CTestAndSet (obj : Z) (order : memory_order)
  | CClear (obj : Z) (order : memory_order).

(** What a call leaves in variables of the program: nothing, a value of the type of the
    object, or the success of a comparison and the new value of [*expected]. *)
Inductive result := RUnit | RVal (v : Z) | RCas (b : bool) (v : Z).

(** The macros [atomic_store_explicit] ... [atomic_fetch_and_explicit] and the flag
    operations, compiled by version 1928 or later ([v1928]) or before; [None] is a
    program that does not compile. The macros without [_explicit] are these with
    [memory_order_seq_cst], and the weak compare-and-exchange is the strong one. *)
Definition atomic_op (v1928 : bool) (c : call) : option (aprog result) :=
  let val t (p : aprog Z) : aprog result := v ← p; mret (RVal (conv arch t v)) in
  let cas (p : aprog (bool * Z)) : aprog result := '(b, e) ← p; mret (RCas b e) in
  let unit_ (p : aprog unit) : aprog result := _ ← p; mret RUnit in
  match c with
  | CStore t obj d so =>
      Some (unit_ ((if v1928 then atomic_store_explicit_generic else atomic_store_explicit_sizeof) t obj d so))
  | CLoad t obj so =>
      Some (val t ((if v1928 then atomic_load_explicit_generic else atomic_load_explicit_sizeof) t obj so))
  | CExchange t obj d so =>
      Some (val t ((if v1928 then atomic_exchange_explicit_generic else atomic_exchange_explicit_sizeof) t obj d so))
  | CCas t obj e d so fo =>
      Some (cas ((if v1928 then atomic_compare_exchange_strong_explicit_generic
                  else atomic_compare_exchange_strong_explicit_sizeof) t obj e d so fo))
  | CFetch o t obj x so =>
      let generic := match o with
        | Fadd => atomic_fetch_add_explicit_generic | Fsub => atomic_fetch_sub_explicit_generic
        | For => atomic_fetch_or_explicit_generic | Fxor => atomic_fetch_xor_explicit_generic
        | Fand => atomic_fetch_and_explicit_generic end in
      let by_size := match o with
        | Fadd => atomic_fetch_add_explicit_sizeof | Fsub => atomic_fetch_sub_explicit_sizeof
        | For => atomic_fetch_or_explicit_sizeof | Fxor => atomic_fetch_xor_explicit_sizeof
        | Fand => atomic_fetch_and_explicit_sizeof end in
      if v1928 then val t <$> generic t obj x so else Some (val t (by_size t obj x so))
  | CTestAndSet obj so => Some (val Tbool (atomic_flag_test_and_set_explicit obj so))
  | CClear obj so => Some (unit_ (atomic_flag_clear_explicit obj so))
  end.
End typed.
