(* ===== verification/CatomicMsvcProof.v ===== *)
(** The functions of [CatomicMsvc] are the atomic operations of C11, for both
    architectures, both ways of choosing a function and every order, except for the
    calls that [valid] leaves out; what these do instead is at the end. *)
From S2P Require Import Prelude Machine Atomics CatomicMsvc.

Lemma implements_interlocked n obj f : implements (Spec n obj f (ival n true)) (interlocked n obj f).
Proof. by apply one_access_implements. Qed.

(** * The assembly *)

Lemma qword_dwords v : in_pat 8 v -> qword (dword_lo v) (dword_hi v) = v.
Proof.
  unfold in_pat, qword, dword_lo, dword_hi, pat. simpl. intros Hv.
  rewrite (Z.mod_small (v / 2 ^ 32)); [rewrite Z.add_comm; symmetry; by apply Z.div_mod|].
  zlia.
Qed.

Lemma qword_desired v : qword (dword_lo v) (dword_hi v) = pat 8 v.
Proof.
  unfold qword, dword_lo, dword_hi, pat. change (2 ^ (8 * Z.of_nat 8)) with (2 ^ 32 * 2 ^ 32).
  change (2 ^ (8 * Z.of_nat 4)) with (2 ^ 32). by rewrite Z.rem_mul_r by lia.
Qed.

Lemma lin_again fuel obj desired eax edx :
  eax = dword_lo (qword eax edx) -> edx = dword_hi (qword eax edx) ->
  lin (Spec 8 obj (fun _ => desired) (fun v => (dword_lo v, dword_hi v)))
    (again fuel obj (dword_lo desired) (dword_hi desired) eax edx).
Proof.
  revert eax edx. induction fuel as [|fuel IH]; intros eax edx Ha Hd; [done|]. intros v Hv.
  set (s := Spec 8 obj (fun _ => desired) (fun v => (dword_lo v, dword_hi v))).
  set (x := qword (dword_lo desired) (dword_hi desired)).
  change (pat 8 (if v =? qword eax edx then x else v) = v /\
      lin s (if v =? qword eax edx then mret (eax, edx) else again fuel obj (dword_lo desired) (dword_hi desired) (dword_lo v) (dword_hi v)) \/
    (8%nat = 8%nat /\ obj = obj /\ pat 8 (if v =? qword eax edx then x else v) = pat 8 desired) /\
      fin (dword_lo v, dword_hi v) (if v =? qword eax edx then mret (eax, edx) else again fuel obj (dword_lo desired) (dword_hi desired) (dword_lo v) (dword_hi v))).
  destruct (Z.eqb_spec v (qword eax edx)) as [E|E].
  - right. subst x. rewrite qword_desired, pat_pat. split; [done|]. subst v. simpl. by rewrite <- Ha, <- Hd.
  - left. split; [by apply pat_small|]. apply IH; by rewrite qword_dwords.
Qed.

(** Running alone, the comparison succeeds at once. *)
Lemma again_alone fuel obj desired m v : fuel <> 0%nat -> rd m obj 8 = Some v -> in_pat 8 v ->
  arun (again fuel obj (dword_lo desired) (dword_hi desired) (dword_lo v) (dword_hi v)) m =
    inl ((dword_lo v, dword_hi v), wr m obj 8 desired).
Proof.
  intros Hf Hv Hp. destruct fuel as [|fuel]; [done|].
  set (x := qword (dword_lo desired) (dword_hi desired)). set (y := qword (dword_lo v) (dword_hi v)).
  change (arun (AAct (Acc 8 obj (fun v => if v =? y then x else v)) (fun w => if w =? y
    then mret (dword_lo v, dword_hi v)
    else again fuel obj (dword_lo desired) (dword_hi desired) (dword_lo w) (dword_hi w))) m =
    inl ((dword_lo v, dword_hi v), wr m obj 8 desired)).
  cbn [arun]. unfold perform. cbn [addr size upd]. rewrite Hv. subst y. rewrite qword_dwords, Z.eqb_refl by done.
  subst x. by rewrite qword_desired, wr_pat.
Qed.

Lemma rd_dwords m p v : mem_ok m -> rd m p 8 = Some v ->
  in_pat 8 v /\ rd m p 4 = Some (dword_lo v) /\ rd m (p + 4) 4 = Some (dword_hi v).
Proof.
  intros Hm Hv. split; [by eapply rd_range|]. destruct (rd_app m p 4 4 v Hv) as (lo & hi & Hlo & Hhi & ->).
  pose proof (rd_range _ _ _ _ Hm Hlo). pose proof (rd_range _ _ _ _ Hm Hhi).
  change (p + Z.of_nat 4) with (p + 4) in Hhi. rewrite Hlo, Hhi. unfold dword_lo, dword_hi, pat. simpl in *.
  split; f_equal; zlia.
Qed.

Lemma implements_cas n obj e d :
  implements (Spec n obj (fun v => if ival n true v =? e then d else v) (fun v => (e =? ival n true v, ival n true v)))
    (x ← interlocked_cas n obj d e; mret (e =? x, x)).
Proof. eapply implements_bind; [apply implements_interlocked|done..]. Qed.

Lemma lin_fetch_loop fuel obj f old :
  lin (Spec 8 obj (fun v => f (c_llong v)) c_llong) (fetch_loop fuel obj f old).
Proof.
  revert old. induction fuel as [|fuel IH]; intros old; [done|]. intros v Hv.
  set (s := Spec 8 obj (fun v => f (c_llong v)) c_llong).
  change (pat 8 (if c_llong v =? old then f old else v) = v /\
      lin s (if old =? c_llong v then mret (c_llong v) else fetch_loop fuel obj f (c_llong v)) \/
    (8%nat = 8%nat /\ obj = obj /\ pat 8 (if c_llong v =? old then f old else v) = pat 8 (f (c_llong v))) /\
      fin (c_llong v) (if old =? c_llong v then mret (c_llong v) else fetch_loop fuel obj f (c_llong v))).
  rewrite (Z.eqb_sym old). destruct (Z.eqb_spec (c_llong v) old) as [<-|E].
  - right. done.
  - left. split; [by apply pat_small|]. apply IH.
Qed.

Lemma fetch_loop_alone fuel obj f m v : fuel <> 0%nat -> mem_ok m -> rd m obj 8 = Some v ->
  arun (fetch_loop fuel obj f (c_llong v)) m = inl (c_llong v, wr m obj 8 (f (c_llong v))).
Proof.
  intros Hf Hm Hv. destruct fuel as [|fuel]; [done|]. cbn [fetch_loop]. rewrite arun_bind. unfold atomic_compare_exchange_llong. cbv zeta.
  rewrite (im_alone _ _ (implements_cas 8 obj (c_llong v) (f (c_llong v))) m v Hm Hv).
  cbn [s_res s_new s_addr s_size]. change (ival 8 true v) with (c_llong v). by rewrite Z.eqb_refl.
Qed.

(** * The typed functions for 64-bit objects *)

Section llong.
Context (arch : arch_t) (fuel : nat) (ebx ecx obj : Z) (order : memory_order).
Context (Hfuel : fuel <> 0%nat).

(** Reading the halves of the object and then looping. *)
Lemma implements_again {A} (s : aspec A) d (h : Z * Z -> aprog A) :
  s_size s = 8%nat -> s_addr s = obj -> (forall v, eqp 8 d (s_new s v)) ->
  (forall v, in_pat 8 v -> h (dword_lo v, dword_hi v) = ARet (s_res s v)) ->
  implements s (eax ← aload 4 obj; edx ← aload 4 (obj + 4);
                again fuel obj (dword_lo d) (dword_hi d) eax edx ≫= h).
Proof using Hfuel.
  intros En Ea Hn Hh. split.
  - apply lin_load. intros eax Ha. apply lin_load. intros edx Hd.
    eapply lin_bind; [apply lin_again|by rewrite En|by rewrite Ea|cbn; auto].
    + unfold in_pat, dword_lo, qword, pat in *. simpl in *. zlia.
    + unfold in_pat, dword_hi, qword, pat in *. simpl in *. zlia.
  - intros m v Hm. rewrite En, Ea. intros Hv. destruct (rd_dwords _ _ _ Hm Hv) as (Hp & Hlo & Hhi).
    rewrite (arun_aload _ _ _ _ _ Hm Hlo), (arun_aload _ _ _ _ _ Hm Hhi).
    rewrite arun_bind, again_alone, Hh by done. cbn [arun]. by rewrite <- wr_pat, (Hn v), wr_pat.
Qed.

Lemma store_llong_ok d :
  implements (Spec 8 obj (fun _ => d) (fun _ => tt)) (atomic_store_llong arch fuel obj d order).
Proof using Hfuel.
  unfold atomic_store_llong. destruct arch.
  - destruct (Z.land obj 7 =? 0); [apply implements_astore|by apply implements_again].
  - destruct order; apply implements_astore.
Qed.

Lemma load_llong_ok :
  implements (Spec 8 obj (fun v => v) c_llong) (atomic_load_llong arch ebx ecx obj order).
Proof using Type.
  unfold atomic_load_llong. destruct arch.
  - destruct (Z.land obj 7 =? 0); [by eapply implements_ext; [eapply implements_map, implements_aload|..]|].
    apply one_access_implements. split_and!; [done|done|]. intros v Hv. cbn. split; [|done].
    by destruct (Z.eqb_spec v (qword ebx ecx)) as [->|].
  - by eapply implements_ext; [eapply implements_map, implements_aload|..].
Qed.

Lemma exchange_llong_ok d :
  implements (Spec 8 obj (fun _ => d) c_llong) (atomic_exchange_llong arch fuel obj d order).
Proof using Hfuel.
  unfold atomic_exchange_llong. destruct arch; [|apply implements_interlocked].
  apply implements_again; [done..|]. intros v Hv. cbn [s_res]. by rewrite qword_dwords.
Qed.

Lemma fetch_llong_ok f :
  implements (Spec 8 obj (fun v => f (c_llong v)) c_llong) (old ← read_int64 obj; fetch_loop fuel obj f old).
Proof using Hfuel.
  split; [apply lin_load; intros lo _; apply lin_load; intros hi _; apply lin_fetch_loop|].
  intros m v Hm Hv. cbn [s_addr s_size s_res s_new] in *. destruct (rd_dwords _ _ _ Hm Hv) as (Hp & Hlo & Hhi).
  unfold read_int64. rewrite arun_bind, (arun_aload _ _ _ _ _ Hm Hlo), (arun_aload _ _ _ _ _ Hm Hhi).
  cbn [arun mret aprog_ret]. rewrite qword_dwords by done. by apply fetch_loop_alone.
Qed.
End llong.

(** * The specification *)

(** The operation of C11 on an object of type [t], whose value is [conv arch t] of its
    pattern. *)
Definition spec_of (arch : arch_t) (c : call) : aspec result :=
  match c with
  | CStore t obj d _ => Spec (ty_size arch t) obj (fun _ => conv arch t d) (fun _ => RUnit)
  | CLoad t obj _ => Spec (ty_size arch t) obj (fun v => v) (fun v => RVal (conv arch t v))
  | CExchange t obj d _ => Spec (ty_size arch t) obj (fun _ => conv arch t d) (fun v => RVal (conv arch t v))
  | CCas t obj e d _ _ =>
      Spec (ty_size arch t) obj (fun v => if conv arch t v =? e then conv arch t d else v)
           (fun v => RCas (conv arch t v =? e) (conv arch t v))
  | CFetch o t obj x _ =>
      Spec (ty_size arch t) obj (fun v => fop_fun o (conv arch t v) (conv arch t x)) (fun v => RVal (conv arch t v))
  | CTestAndSet obj _ => Spec 1 obj (fun _ => 1) (fun v => RVal (c_bool v))
  | CClear obj _ => Spec 1 obj (fun _ => 0) (fun _ => RUnit)
  end.

(** The calls the theorems are about. The standard asks that what is stored in a
    [bool], or expected, is a value of the type, and has no fetch operations on [bool]
    and pointers. It allows the following, which are left out because the header gets
    them wrong:
    - a [bool] that is compared and exchanged ([cas_bool_neighbours]);
    - from version 1928 on, every operation on [signed char] ([schar_neighbours],
      [fetch_schar_none]);
    - before 1928 on IX86, a 64-bit operand of a fetch operation that the cast to
      [intptr_t] truncates ([fetch_add_truncated]). *)
Definition valid (arch : arch_t) (v1928 : bool) (c : call) : Prop :=
  match c with
  | CStore t _ d _ | CExchange t _ d _ => (t = Tbool -> d = 0 \/ d = 1) /\ (t = Tschar -> v1928 = false)
  | CLoad t _ _ => t = Tschar -> v1928 = false
  | CCas t _ e _ _ _ => t <> Tbool /\ conv arch t e = e /\ (t = Tschar -> v1928 = false)
  | CFetch _ t _ x _ =>
      t <> Tbool /\ t <> Tptr /\ (t = Tschar -> v1928 = false) /\
      (v1928 = false -> ty_size arch t = 8%nat -> eqp 8 (c_intptr arch x) x)
  | CTestAndSet _ _ | CClear _ _ => True
  end.

(** A store by an order: an exchange, or a plain write *)
Lemma store_order_ok n obj d order :
  implements (Spec n obj (fun _ => d) (fun _ => tt))
    (match order with
     | memory_order_seq_cst => _ ← interlocked n obj (fun _ => d); mret tt
     | _ => astore n obj d
     end).
Proof.
  destruct order; apply implements_astore.
Qed.

Lemma eqp_ival_le n m sg v : (n <= m)%nat -> eqp n (ival m sg v) v.
Proof.
  intros Hle. apply eqp_mod. destruct (ival_mod m sg v) as [k ->].
  exists (k * 2 ^ (8 * (Z.of_nat m - Z.of_nat n))). rewrite <- Z.mul_assoc, <- Z.pow_add_r by lia.
  do 3 f_equal. lia.
Qed.

Lemma ival_narrow n m sg sg' v : (n <= m)%nat -> ival n sg (ival m sg' v) = ival n sg v.
Proof. intros. apply ival_eq. by apply eqp_ival_le. Qed.

Lemma ival_eqb n sg sg' v e : ival n sg e = e -> (ival n sg v =? e) = (ival n sg' v =? ival n sg' e).
Proof.
  intros He. apply eq_true_iff_eq. rewrite !Z.eqb_eq. split; [intros <-; by rewrite ival_ival|].
  intros E. rewrite <- He, <- (ival_ival n sg sg' v), E. apply ival_ival.
Qed.

Lemma c_bool_bool v : c_bool (c_bool v) = c_bool v.
Proof. unfold c_bool. by destruct (v =? 0). Qed.

Lemma c_bool_char v : in_pat 1 v -> c_bool (ival 1 true v) = c_bool v.
Proof.
  unfold in_pat, c_bool, ival, pat. simpl. intros Hv.
  destruct (Z.eqb_spec v 0) as [->|]; [done|]. by rewrite (proj2 (Z.eqb_neq _ _)) by zlia.
Qed.

Lemma cas_new n sg v e d : ival n sg e = e ->
  eqp n (if ival n true v =? ival n true e then ival n true d else v) (if ival n sg v =? e then ival n sg d else v).
Proof. intros He. rewrite <- (ival_eqb n sg true v e He). destruct (_ =? _); by rewrite ?eqp_ival. Qed.

Lemma cas_res n sg v e : ival n sg e = e ->
  RCas (ival n true e =? ival n true v) (ival n sg v) = RCas (ival n sg v =? e) (ival n sg v).
Proof. intros He. by rewrite (Z.eqb_sym (ival n true e)), <- (ival_eqb n sg true v e He). Qed.

(** Reduce an operation to its access, and compare the patterns and the results. The
    64-bit functions that have lemmas of their own are not unfolded. *)
Ltac msvc_unfold :=
  cbv beta iota zeta delta [
    atomic_store_char atomic_store_uchar atomic_store_bool atomic_store_short atomic_store_ushort
    atomic_store_long atomic_store_ulong atomic_store_int atomic_store_uint atomic_store_ullong
    atomic_store_ptr atomic_load_char atomic_load_uchar atomic_load_bool atomic_load_short
    atomic_load_ushort atomic_load_long atomic_load_ulong atomic_load_int atomic_load_uint
    atomic_load_ullong atomic_load_ptr atomic_exchange_char atomic_exchange_uchar atomic_exchange_bool
    atomic_exchange_short atomic_exchange_ushort atomic_exchange_long atomic_exchange_ulong
    atomic_exchange_int atomic_exchange_uint atomic_exchange_ullong atomic_exchange_ptr
    atomic_compare_exchange_char atomic_compare_exchange_uchar atomic_compare_exchange_short
    atomic_compare_exchange_ushort atomic_compare_exchange_long atomic_compare_exchange_ulong
    atomic_compare_exchange_int atomic_compare_exchange_uint atomic_compare_exchange_llong
    atomic_compare_exchange_ullong atomic_compare_exchange_ptr atomic_fetch_add_char
    atomic_fetch_add_uchar atomic_fetch_add_short atomic_fetch_add_ushort atomic_fetch_add_long
    atomic_fetch_add_ulong atomic_fetch_add_int atomic_fetch_add_uint atomic_fetch_add_llong
    atomic_fetch_add_ullong atomic_fetch_sub_char atomic_fetch_sub_uchar atomic_fetch_sub_short
    atomic_fetch_sub_ushort atomic_fetch_sub_long atomic_fetch_sub_ulong atomic_fetch_sub_int
    atomic_fetch_sub_uint atomic_fetch_sub_llong atomic_fetch_sub_ullong atomic_fetch_or_char
    atomic_fetch_or_uchar atomic_fetch_or_short atomic_fetch_or_ushort atomic_fetch_or_long
    atomic_fetch_or_ulong atomic_fetch_or_int atomic_fetch_or_uint atomic_fetch_or_llong
    atomic_fetch_or_ullong atomic_fetch_xor_char atomic_fetch_xor_uchar atomic_fetch_xor_short
    atomic_fetch_xor_ushort atomic_fetch_xor_long atomic_fetch_xor_ulong atomic_fetch_xor_int
    atomic_fetch_xor_uint atomic_fetch_xor_llong atomic_fetch_xor_ullong atomic_fetch_and_char
    atomic_fetch_and_uchar atomic_fetch_and_short atomic_fetch_and_ushort atomic_fetch_and_long
    atomic_fetch_and_ulong atomic_fetch_and_int atomic_fetch_and_uint atomic_fetch_and_llong
    atomic_fetch_and_ullong atomic_store_explicit_generic atomic_load_explicit_generic
    atomic_exchange_explicit_generic atomic_compare_exchange_strong_explicit_generic
    atomic_fetch_add_explicit_generic atomic_fetch_sub_explicit_generic atomic_fetch_or_explicit_generic
    atomic_fetch_xor_explicit_generic atomic_fetch_and_explicit_generic atomic_store_explicit_sizeof
    atomic_load_explicit_sizeof atomic_exchange_explicit_sizeof
    atomic_compare_exchange_strong_explicit_sizeof atomic_fetch_add_explicit_sizeof
    atomic_fetch_sub_explicit_sizeof atomic_fetch_or_explicit_sizeof atomic_fetch_xor_explicit_sizeof
    atomic_fetch_and_explicit_sizeof atomic_flag_test_and_set_explicit atomic_flag_clear_explicit
    ty_size ptr_size].

Ltac msvc_base :=
  lazymatch goal with
  | |- implements _ (atomic_store_llong _ _ _ _ _) => by apply store_llong_ok
  | |- implements _ (atomic_load_llong _ _ _ _ _) => apply load_llong_ok
  | |- implements _ (atomic_exchange_llong _ _ _ _ _) => by apply exchange_llong_ok
  | |- implements _ (read_int64 _ ≫= _) => by apply fetch_llong_ok
  | |- implements _ (interlocked_cas _ _ _ _ ≫= _) => apply implements_cas
  | |- implements _ (aload _ _) => apply implements_aload
  | |- implements _ (interlocked _ _ _) => apply implements_interlocked
  | |- implements _ (match _ with _ => _ end) => apply store_order_ok
  | |- implements _ (_ ≫= _) => first [eapply implements_map; msvc_base | eapply implements_map2; msvc_base]
  end.

Ltac msvc_values :=
  intros v Hv; cbn [s_new s_res s_size s_addr spec_of ty_size ptr_size fst snd conv] in *; split;
  unfold c_char, c_schar, c_uchar, c_short, c_ushort, c_int, c_uint, c_long, c_ulong, c_llong, c_ullong, c_ptr, c_intptr in *;
  cbn [ptr_size] in *.

Ltac msvc_lin :=
  msvc_unfold; eapply implements_ext; [msvc_base|reflexivity|reflexivity|msvc_values].

Section families.
Context (arch : arch_t) (fuel : nat) (ebx ecx : Z) (v1928 : bool) (p : aprog result).
Context (Hfuel : fuel <> 0%nat).

Notation op := (atomic_op arch fuel ebx ecx v1928).

Ltac bool_value HV := destruct (HV eq_refl) as [->| ->]; reflexivity.

Lemma store_ok t obj d o :
  valid arch v1928 (CStore t obj d o) -> op (CStore t obj d o) = Some p -> implements (spec_of arch (CStore t obj d o)) p.
Proof using Hfuel.
  intros [HV HS] [= <-]. destruct v1928, t, arch; try (by specialize (HS eq_refl)); clear HS;
    msvc_lin; rewrite ?eqp_ival_le by lia; try done; bool_value HV.
Qed.

Lemma load_ok t obj o :
  valid arch v1928 (CLoad t obj o) -> op (CLoad t obj o) = Some p -> implements (spec_of arch (CLoad t obj o)) p.
Proof using Hfuel.
  intros HS [= <-]. destruct v1928, t, arch; try (by specialize (HS eq_refl)); clear HS; msvc_lin; try done;
    rewrite ?ival_narrow, ?c_bool_bool by lia; try done; by rewrite (c_bool_char v Hv).
Qed.

Lemma exchange_ok t obj d o :
  valid arch v1928 (CExchange t obj d o) -> op (CExchange t obj d o) = Some p ->
  implements (spec_of arch (CExchange t obj d o)) p.
Proof using Hfuel.
  intros [HV HS] [= <-]. destruct v1928, t, arch; try (by specialize (HS eq_refl)); clear HS;
    msvc_lin; rewrite ?eqp_ival_le, ?ival_narrow, ?c_bool_bool by lia;
    try done; try (by rewrite (c_bool_char v Hv)); bool_value HV.
Qed.

Lemma cas_ok t obj e d o1 o2 :
  valid arch v1928 (CCas t obj e d o1 o2) -> op (CCas t obj e d o1 o2) = Some p ->
  implements (spec_of arch (CCas t obj e d o1 o2)) p.
Proof using Hfuel.
  intros (Ht & HV & HS) [= <-]. destruct v1928, t, arch; try done; try (by specialize (HS eq_refl)); clear HS;
    msvc_lin; rewrite ?ival_narrow by lia;
    first [reflexivity | by apply cas_new | by apply cas_res | rewrite (Z.eqb_sym e); reflexivity].
Qed.

Lemma fetch_ok o t obj x so :
  valid arch v1928 (CFetch o t obj x so) -> op (CFetch o t obj x so) = Some p ->
  implements (spec_of arch (CFetch o t obj x so)) p.
Proof using Hfuel.
  intros (Ht & Hp & _ & HX) E. cbn [atomic_op] in E. destruct v1928.
  - destruct o, t; try done; apply (inj Some) in E; rewrite <- E; clear E; destruct arch; msvc_lin; cbn [fop_fun];
      rewrite ?ival_narrow, ?eqp_ival_le by lia; done.
  - apply (inj Some) in E. rewrite <- E. clear E. destruct o, t; try done; destruct arch; msvc_lin; cbn [fop_fun];
      rewrite ?ival_narrow, ?eqp_ival_le by lia; try done; rewrite (HX eq_refl eq_refl), ?eqp_ival_le by lia; done.
Qed.

Lemma flag_ok obj o :
  (op (CTestAndSet obj o) = Some p -> implements (spec_of arch (CTestAndSet obj o)) p) /\
  (op (CClear obj o) = Some p -> implements (spec_of arch (CClear obj o)) p).
Proof using Hfuel.
  split; intros E; apply (inj Some) in E; rewrite <- E; clear E; msvc_lin; try done.
  rewrite ?c_bool_bool. by rewrite (c_bool_char v Hv).
Qed.
End families.

(** * Theorems *)

Lemma op_ok arch fuel ebx ecx v1928 c p :
  fuel <> 0%nat -> valid arch v1928 c -> atomic_op arch fuel ebx ecx v1928 c = Some p -> implements (spec_of arch c) p.
Proof.
  intros Hf Hv E. destruct c; [eapply store_ok|eapply load_ok|eapply exchange_ok|eapply cas_ok|eapply fetch_ok| |]; try done;
    eapply flag_ok; done.
Qed.




(** Two increments of a counter, one of them interrupted between its two half reads. *)
Definition two_increments : list (aprog result) :=
  match atomic_op M_IX86 3 0 0 true (CFetch Fadd Tllong 12 1 memory_order_seq_cst) with Some p => [p; p] | None => [] end.

Definition counter_mem : bytes := list_to_map (map (fun a => (a, 0)) (seqZ 12 8)).

Definition interrupted : bytes * list (aprog result) :=
  default (counter_mem, two_increments) (schedule_run [0; 1; 1; 1; 0]%nat (counter_mem, two_increments)).


(** ** What goes wrong *)

(** There is no function for [bool]: from version 1928 on a flag that is compared and
    exchanged is treated as a pointer. With a different byte next to it the comparison
    fails although the flag has the expected value; with the same one it overwrites it. *)
Lemma cas_bool_neighbours :
  let m := <[101 := 7]> (list_to_map (map (fun a => (a, 0)) (seqZ 100 8))) : bytes in
  let so := memory_order_seq_cst in
  match atomic_op M_X64 1 0 0 true (CCas Tbool 100 0 1 so so), atomic_op M_X64 1 0 0 true (CCas Tbool 100 (7 * 256) 1 so so) with
  | Some p, Some q =>
      arun p m = inl (RCas false (7 * 256), m) /\
      exists m', arun q m = inl (RCas true (7 * 256), m') /\ m' !! 101 = Some 0
  | _, _ => False
  end.
Proof. split; [vm_compute; reflexivity|]. eexists. split; vm_compute; reflexivity. Qed.

(** Nor is there one for [signed char]: from version 1928 on a store of an
    [atomic_int_least8_t] clears, or fills, the seven bytes behind it, and so does an
    exchange. *)
Lemma schar_neighbours :
  let m := list_to_map (map (fun a => (a, 7)) (seqZ 100 8)) : bytes in
  match atomic_op M_X64 1 0 0 true (CStore Tschar 100 5 memory_order_seq_cst),
        atomic_op M_X64 1 0 0 true (CExchange Tschar 100 (-1) memory_order_seq_cst) with
  | Some p, Some q =>
      (exists m', arun p m = inl (RUnit, m') /\ rd m' 100 8 = Some 5) /\
      (exists m', arun q m = inl (RVal 7, m') /\ rd m' 100 8 = Some (2 ^ 64 - 1))
  | _, _ => False
  end.
Proof. split; eexists; split; vm_compute; reflexivity. Qed.

(** ... and the fetch operations do not compile. *)
Lemma fetch_schar_none arch fuel ebx ecx o obj x so :
  atomic_op arch fuel ebx ecx true (CFetch o Tschar obj x so) = None.
Proof. by destruct o. Qed.

(** On IX86 before 1928 the operand of a 64-bit fetch is truncated to a pointer's 32
    bits by the cast to [intptr_t]: adding 2^32 adds nothing. *)
Lemma fetch_add_truncated :
  match atomic_op M_IX86 1 0 0 false (CFetch Fadd Tllong 12 (2 ^ 32) memory_order_seq_cst) with
  | Some p => arun p counter_mem = inl (RVal 0, counter_mem)
  | None => False
  end.
Proof. vm_compute. reflexivity. Qed.

(** Before 1928 the macro loads an [unsigned char] as a signed one: 255 is read as -1
    until it is converted back. *)
Lemma load_uchar_negative :
  arun (atomic_load_explicit_sizeof M_X64 0 0 Tuchar 100 memory_order_seq_cst) {[100 := 255]} =
  inl (-1, {[100 := 255]}).
Proof. vm_compute. reflexivity. Qed.
