(* ===== verification/CatomicGcc.v ===== *)
(** The atomics of the other compilers: [common/catomic.h], whose macros the queue, the
    stack and the pool use, and the replacements of <stdatomic.h> in
    [catomic_gcc_sync.h], [catomic_gcc_atomic.h] and [catomic_clang_c11.h]. The
    builtins of the compilers are single atomic accesses; objects are integers of [n]
    bytes, signed if [sg]. *)
From S2P Require Import Prelude Machine Atomics.

(** * Builtins *)

(** The old, and the new, value of the object. *)
Definition fetch_and_op (n : nat) (sg : bool) (p : Z) (f : Z -> Z) : aprog Z :=
  AAct (Acc n p f) (fun v => ARet (ival n sg v)).

Definition op_and_fetch (n : nat) (sg : bool) (p : Z) (f : Z -> Z) : aprog Z :=
  AAct (Acc n p f) (fun v => ARet (ival n sg (f v))).

Definition sync_val_cas (n : nat) (sg : bool) (p old new : Z) : aprog Z :=
  fetch_and_op n sg p (fun v => if ival n sg v =? ival n sg old then new else v).

(** [__atomic_compare_exchange_n] and the C11 builtin: success, and the new value of
    [*expected]. *)
Definition c11_cas (n : nat) (sg : bool) (p e d : Z) : aprog (bool * Z) :=
  AAct (Acc n p (fun v => if ival n sg v =? ival n sg e then d else v))
       (fun v => ARet (ival n sg v =? ival n sg e, ival n sg v)).

(** * [catomic_gcc_sync.h] *)

Module GccSync.

(** The functions instantiated for the unsigned type [T] of [n] bytes. *)
Section stub.
Context (n : nat) (fuel : nat).

Definition __impl_fetch_add (X V : Z) : aprog Z := fetch_and_op n false X (fun v => v + V).

Definition __impl_fetch_sub (X V : Z) : aprog Z := fetch_and_op n false X (fun v => v - V).

Definition __impl_fetch_and (X V : Z) : aprog Z := fetch_and_op n false X (fun v => Z.land v V).

Definition __impl_fetch_xor (X V : Z) : aprog Z := fetch_and_op n false X (fun v => Z.lxor v V).

Definition __impl_fetch_or (X V : Z) : aprog Z := fetch_and_op n false X (fun v => Z.lor v V).

Definition __impl_add_fetch (X V : Z) : aprog Z := op_and_fetch n false X (fun v => v + V).

Definition __impl_sub_fetch (X V : Z) : aprog Z := op_and_fetch n false X (fun v => v - V).

Definition __impl_and_fetch (X V : Z) : aprog Z := op_and_fetch n false X (fun v => Z.land v V).

Definition __impl_xor_fetch (X V : Z) : aprog Z := op_and_fetch n false X (fun v => Z.lxor v V).

Definition __impl_or_fetch (X V : Z) : aprog Z := op_and_fetch n false X (fun v => Z.lor v V).

Definition __impl_load (X : Z) : aprog Z := sync_val_cas n false X 0 0.

(** [do { _e = _r; _r = __sync_val_compare_and_swap(X, _e, _V); } while (_r != _e);] *)
Fixpoint exchange_loop (fuel : nat) (X V r : Z) : aprog Z :=
  match fuel with
  | O => AFail OutOfFuel
  | S fuel =>
      let e := r in
      r ← sync_val_cas n false X e V;
      if negb (r =? e) then exchange_loop fuel X V r else mret r
  end.

Definition __impl_exchange (X V : Z) : aprog Z := exchange_loop fuel X V (ival n false V).

Definition __impl_store (X V : Z) : aprog unit := _ ← __impl_exchange X V; mret tt.

(** The result and the new value of [*_E]. *)
Definition __impl_compare_exchange (X E D : Z) : aprog (bool * Z) :=
  let v := E in
  m ← sync_val_cas n false X v D;
  if negb (v =? m) then mret (false, m) else mret (true, E).
End stub.

(** The macros for an object of any integer type. [aret] is the macro [__aret] of the
    stub header, which gives its argument as the value of a statement expression;
    [lib_*] are the functions for objects of other sizes. *)
Section macros.
Context (n : nat) (sg : bool) (uint128 : bool) (fuel : nat).
Context (aret : forall A : Type, A -> A).
Context (lib_cas : Z -> Z -> Z -> aprog (bool * Z)) (lib_load : Z -> aprog Z).
Context (lib_store : Z -> Z -> aprog unit) (lib_exchange : Z -> Z -> aprog Z).

Definition atomic_fetch_add_explicit (X Y : Z) : aprog Z := fetch_and_op n sg X (fun v => v + Y).

Definition atomic_fetch_sub_explicit (X Y : Z) : aprog Z := fetch_and_op n sg X (fun v => v - Y).

Definition atomic_fetch_and_explicit (X Y : Z) : aprog Z := fetch_and_op n sg X (fun v => Z.lor v Y).

Definition atomic_fetch_or_explicit (X Y : Z) : aprog Z := fetch_and_op n sg X (fun v => Z.land v Y).

Definition atomic_fetch_xor_explicit (X Y : Z) : aprog Z := fetch_and_op n sg X (fun v => Z.lxor v Y).

(** The comparison is at the unsigned type [T] of [k] bytes, the local variables have the
    type of the object. *)
Definition __impl_CAS_local (k : nat) (X E D : Z) : aprog (bool * Z) :=
  v ← sync_val_cas k false X E D;
  let v := ival n sg v in
  let ret := v =? E in
  mret (aret bool ret, if negb ret then v else E).

Definition atomic_compare_exchange_strong_explicit (X E D : Z) : aprog (bool * Z) :=
  let d := ival n sg D in
  '(ret, e) ← match n with
  | 16 => __impl_CAS_local 16 X E d
  | 8 => __impl_CAS_local 8 X E d
  | 4 => __impl_CAS_local 4 X E d
  | 2 => __impl_CAS_local 2 X E d
  | 1 => __impl_CAS_local 1 X E d
  | _ => lib_cas X E d
  end%nat;
  mret (aret bool ret, e).

(** The macros on unions of the object's type, of values [A], with the unsigned type [T]
    of the same [k] bytes: [bits] and [of_bits] read a member of the union after writing
    the other, [convert] is the conversion of C from the object's type to [T]. *)
Section union.
Context {A : Type} (bits : A -> Z) (of_bits : Z -> A) (convert : A -> Z).

Definition __impl_load_union (k : nat) (X : Z) : aprog A :=
  v ← sync_val_cas k false X 0 0; mret (of_bits v).

Definition __impl_exchange_union (k : nat) (X : Z) (V : A) : aprog A :=
  let V_t := convert V in
  r ← exchange_loop k fuel X V_t V_t;
  mret (of_bits r).

Definition __impl_store_union (k : nat) (X : Z) (V : A) : aprog unit :=
  let V_t := convert V in
  _ ← exchange_loop k fuel X V_t V_t;
  mret tt.

(** The new value of the local union [_E] is lost, [*E] keeps its value. *)
Definition __impl_compare_exchange_union (k : nat) (X : Z) (E V : A) : aprog (bool * A) :=
  let V_t := bits V in
  let E_t := bits E in
  R_t ← sync_val_cas k false X E_t V_t;
  mret (E_t =? R_t, E).
End union.

(** For integers the union and the conversion agree: the value modulo 2^w. *)
Definition atomic_load_explicit (X : Z) : aprog Z :=
  match n with
  | 16 => if uint128 then __impl_load_union (ival n sg) 16 X else lib_load X
  | 8 => __impl_load_union (ival n sg) 8 X
  | 4 => __impl_load_union (ival n sg) 4 X
  | 2 => __impl_load_union (ival n sg) 2 X
  | 1 => __impl_load_union (ival n sg) 1 X
  | _ => lib_load X
  end%nat.

Definition atomic_store_explicit (X V : Z) : aprog unit :=
  match n with
  | 16 => if uint128 then __impl_store_union (pat n) 16 X V else lib_store X V
  | 8 => __impl_store_union (pat n) 8 X V
  | 4 => __impl_store_union (pat n) 4 X V
  | 2 => __impl_store_union (pat n) 2 X V
  | 1 => __impl_store_union (pat n) 1 X V
  | _ => lib_store X V
  end%nat.

Definition atomic_exchange_explicit (X V : Z) : aprog Z :=
  match n with
  | 16 => if uint128 then __impl_exchange_union (ival n sg) (pat n) 16 X V else lib_exchange X V
  | 8 => __impl_exchange_union (ival n sg) (pat n) 8 X V
  | 4 => __impl_exchange_union (ival n sg) (pat n) 4 X V
  | 2 => __impl_exchange_union (ival n sg) (pat n) 2 X V
  | 1 => __impl_exchange_union (ival n sg) (pat n) 1 X V
  | _ => lib_exchange X V
  end%nat.
End macros.
End GccSync.

(** * [catomic_gcc_atomic.h] *)

Module GccAtomic.

(** The type of the object of a generic macro: an integer, or a pointer to elements of
    [e] bytes. *)
Inductive otype := Int (n : nat) (sg : bool) | Ptr (e : Z).

Definition osize (t : otype) : nat := match t with Int n _ => n | Ptr _ => 8 end.

Definition oval (t : otype) : Z -> Z := match t with Int n sg => ival n sg | Ptr _ => ival 8 false end.

(** [_IS_POINTER(R, X)] is [(void* )0], so that [X] becomes an untyped pointer, exactly
    for pointers. *)
Definition _IS_POINTER (t : otype) : bool := match t with Int _ _ => false | Ptr _ => true end.

Definition __atomic_fetch_add_ptr (x offset : Z) : aprog Z := fetch_and_op 8 false x (fun v => v + offset).

Definition __atomic_fetch_sub_ptr (x offset : Z) : aprog Z := fetch_and_op 8 false x (fun v => v - offset).

(** [(uintptr_t)(_r + _y) - (uintptr_t)_r] with [_r] zero of the object's type. *)
Definition offset_of (t : otype) (Y : Z) : Z :=
  let y := pat 8 Y in
  match t with Int _ _ => pat 8 y | Ptr e => pat 8 (y * e) end.

Definition atomic_fetch_add_explicit (t : otype) (X Y : Z) : aprog Z :=
  let offset := offset_of t Y in
  r ← (if _IS_POINTER t then __atomic_fetch_add_ptr X offset
       else fetch_and_op (osize t) false X (fun v => v + offset));
  mret (oval t r).

Definition atomic_fetch_sub_explicit (t : otype) (X Y : Z) : aprog Z :=
  let offset := offset_of t Y in
  r ← (if _IS_POINTER t then __atomic_fetch_sub_ptr X offset
       else fetch_and_op (osize t) false X (fun v => v - offset));
  mret (oval t r).

Definition atomic_fetch_and_explicit (t : otype) (X Y : Z) : aprog Z :=
  r ← fetch_and_op (osize t) false X (fun v => Z.land v Y); mret (oval t r).

Definition atomic_fetch_or_explicit (t : otype) (X Y : Z) : aprog Z :=
  r ← fetch_and_op (osize t) false X (fun v => Z.lor v Y); mret (oval t r).

Definition atomic_fetch_xor_explicit (t : otype) (X Y : Z) : aprog Z :=
  r ← fetch_and_op (osize t) false X (fun v => Z.lxor v Y); mret (oval t r).

(** The generic builtins read and write through pointers to temporaries; [atmp] is the
    macro [__atmp] of the stub header, a temporary of the object's type with a given
    value, and [aret] as above. *)
Section generic.
Context (t : otype) (atmp : Z -> Z) (aret : Z -> Z).

Definition atomic_load_explicit (X : Z) : aprog Z :=
  r ← fetch_and_op (osize t) false X (fun v => v); mret (aret (oval t r)).

Definition atomic_store_explicit (X V : Z) : aprog unit :=
  _ ← fetch_and_op (osize t) false X (fun _ => atmp V); mret tt.

Definition atomic_exchange_explicit (X V : Z) : aprog Z :=
  r ← fetch_and_op (osize t) false X (fun _ => atmp V); mret (aret (oval t r)).

Definition atomic_compare_exchange_weak_explicit (X E V : Z) : aprog (bool * Z) :=
  '(b, e) ← c11_cas (osize t) false X E (atmp V); mret (b, oval t e).

Definition atomic_compare_exchange_strong_explicit (X E V : Z) : aprog (bool * Z) :=
  '(b, e) ← c11_cas (osize t) false X E (atmp V); mret (b, oval t e).
End generic.

(** The functions instantiated for the unsigned type of [n] bytes. *)
Section stub.
Context (n : nat).

Definition nand (a b : Z) : Z := Z.lnot (Z.land a b).

Definition __impl_fetch_add (X V : Z) : aprog Z := fetch_and_op n false X (fun v => v + V).

Definition __impl_fetch_sub (X V : Z) : aprog Z := fetch_and_op n false X (fun v => v - V).

Definition __impl_fetch_and (X V : Z) : aprog Z := fetch_and_op n false X (fun v => Z.land v V).

Definition __impl_fetch_xor (X V : Z) : aprog Z := fetch_and_op n false X (fun v => Z.lxor v V).

Definition __impl_fetch_nand (X V : Z) : aprog Z := fetch_and_op n false X (fun v => nand v V).

Definition __impl_fetch_or (X V : Z) : aprog Z := fetch_and_op n false X (fun v => Z.lor v V).

Definition __impl_add_fetch (X V : Z) : aprog Z := op_and_fetch n false X (fun v => v + V).

Definition __impl_sub_fetch (X V : Z) : aprog Z := op_and_fetch n false X (fun v => v - V).

Definition __impl_and_fetch (X V : Z) : aprog Z := op_and_fetch n false X (fun v => Z.land v V).

Definition __impl_xor_fetch (X V : Z) : aprog Z := op_and_fetch n false X (fun v => Z.lxor v V).

Definition __impl_nand_fetch (X V : Z) : aprog Z := op_and_fetch n false X (fun v => nand v V).

Definition __impl_or_fetch (X V : Z) : aprog Z := op_and_fetch n false X (fun v => Z.lor v V).

Definition __impl_load (X : Z) : aprog Z := fetch_and_op n false X (fun v => v).

Definition __impl_store (X V : Z) : aprog unit := astore n X V.

Definition __impl_exchange (X V : Z) : aprog Z := fetch_and_op n false X (fun _ => V).

Definition __impl_compare_exchange (X E V : Z) : aprog (bool * Z) := c11_cas n false X E V.
End stub.
End GccAtomic.

(** * [catomic_clang_c11.h] *)

Module ClangC11.

(** The macros are the builtins of the compiler, on an object of any integer type. *)
Section macros.
Context (n : nat) (sg : bool).

Definition atomic_fetch_add (X Y : Z) : aprog Z := fetch_and_op n sg X (fun v => v + Y).

Definition atomic_fetch_sub (X Y : Z) : aprog Z := fetch_and_op n sg X (fun v => v - Y).

Definition atomic_fetch_and (X Y : Z) : aprog Z := fetch_and_op n sg X (fun v => Z.land v Y).

Definition atomic_fetch_or (X Y : Z) : aprog Z := fetch_and_op n sg X (fun v => Z.lor v Y).

Definition atomic_fetch_xor (X Y : Z) : aprog Z := fetch_and_op n sg X (fun v => Z.lxor v Y).

Definition atomic_load (X : Z) : aprog Z := fetch_and_op n sg X (fun v => v).

Definition atomic_store (X V : Z) : aprog unit := astore n X V.

Definition atomic_exchange (X V : Z) : aprog Z := fetch_and_op n sg X (fun _ => V).

Definition atomic_compare_exchange_strong (X E V : Z) : aprog (bool * Z) := c11_cas n sg X E V.
End macros.

(** The functions instantiated for the unsigned type of [n] bytes: the builtins have no
    operation that returns the new value, it is computed from the old one. *)
Section stub.
Context (n : nat).

Definition __impl_fetch_add (X V : Z) : aprog Z := fetch_and_op n false X (fun v => v + V).

Definition __impl_fetch_sub (X V : Z) : aprog Z := fetch_and_op n false X (fun v => v - V).

Definition __impl_fetch_and (X V : Z) : aprog Z := fetch_and_op n false X (fun v => Z.land v V).

Definition __impl_fetch_xor (X V : Z) : aprog Z := fetch_and_op n false X (fun v => Z.lxor v V).

Definition __impl_fetch_or (X V : Z) : aprog Z := fetch_and_op n false X (fun v => Z.lor v V).

Definition __impl_add_fetch (X V : Z) : aprog Z :=
  v ← fetch_and_op n false X (fun v => v + V); mret (ival n false (v + V)).

Definition __impl_sub_fetch (X V : Z) : aprog Z :=
  v ← fetch_and_op n false X (fun v => v - V); mret (ival n false (v - V)).

Definition __impl_and_fetch (X V : Z) : aprog Z :=
  v ← fetch_and_op n false X (fun v => Z.land v V); mret (ival n false (Z.land v V)).

Definition __impl_xor_fetch (X V : Z) : aprog Z :=
  v ← fetch_and_op n false X (fun v => Z.lxor v V); mret (ival n false (Z.lxor v V)).

Definition __impl_or_fetch (X V : Z) : aprog Z :=
  v ← fetch_and_op n false X (fun v => Z.lor v V); mret (ival n false (Z.lor v V)).

Definition __impl_load (X : Z) : aprog Z := fetch_and_op n false X (fun v => v).

Definition __impl_store (X V : Z) : aprog unit := astore n X V.

Definition __impl_exchange (X V : Z) : aprog Z := fetch_and_op n false X (fun _ => V).

Definition __impl_compare_exchange (X E V : Z) : aprog (bool * Z) := c11_cas n false X E V.
End stub.
End ClangC11.

(** * [catomic.h] *)

Module Catomic.

(** The four ways to compile the header. *)
Inductive build := USE_STD | USE_GCC | USE_MSVC | USE_NONE.

(** The object has [n] bytes. *)
Section macros.
Context (n : nat) (sg : bool).

Definition ATOMIC_VAR_CAS_STD (ptr oval nval : Z) : aprog bool :=
  '(r, _) ← c11_cas n sg ptr oval nval; mret r.

Definition ATOMIC_VAR_FAA_STD (ptr val : Z) : aprog Z := fetch_and_op n sg ptr (fun v => v + val).

Definition ATOMIC_VAR_STOR_STD (ptr val : Z) : aprog unit := astore n ptr val.

Definition ATOMIC_VAR_LOAD_STD (ptr : Z) : aprog Z := v ← aload n ptr; mret (ival n sg v).

Definition ATOMIC_VAR_CAS_GCC (ptr oval nval : Z) : aprog bool :=
  v ← sync_val_cas n sg ptr oval nval; mret (v =? ival n sg oval).

Definition ATOMIC_VAR_FAA_GCC (ptr val : Z) : aprog Z := fetch_and_op n sg ptr (fun v => v + val).

Definition ATOMIC_VAR_STOR_GCC (ptr val : Z) : aprog unit := astore n ptr val.

Definition ATOMIC_VAR_LOAD_GCC (ptr : Z) : aprog Z := v ← aload n ptr; mret (ival n sg v).

(** The Interlocked intrinsics without a suffix access four bytes whatever the type of the
    pointer; the arguments of [_InterlockedCompareExchange] are the destination, the
    exchange and the comparand. *)
Definition ATOMIC_VAR_CAS_MSVC (ptr oval nval : Z) : aprog bool :=
  let dest := ptr in let exchange := oval in let comparand := nval in
  v ← sync_val_cas 4 true dest comparand exchange; mret (v =? oval).

Definition ATOMIC_VAR_FAA_MSVC (ptr val : Z) : aprog Z := fetch_and_op 4 true ptr (fun v => v + val).

Definition ATOMIC_VAR_STOR_MSVC (ptr val : Z) : aprog unit := astore n ptr val.

Definition ATOMIC_VAR_LOAD_MSVC (ptr : Z) : aprog Z := v ← aload n ptr; mret (ival n sg v).

Definition ATOMIC_VAR_CAS_NONE (ptr oval nval : Z) : aprog bool :=
  v ← aload 8 ptr;
  if pat 8 oval =? v then _ ← astore n ptr nval; mret true else mret false.

Definition ATOMIC_VAR_FAA_NONE (ptr val : Z) : aprog Z :=
  oval ← aload n ptr;
  cur ← aload n ptr; _ ← astore n ptr (cur + val);
  mret (ival n sg oval).

Definition ATOMIC_VAR_STOR_NONE (ptr val : Z) : aprog unit := astore n ptr val.

Definition ATOMIC_VAR_LOAD_NONE (ptr : Z) : aprog Z := v ← aload n ptr; mret (ival n sg v).

(** The macros of a build. *)
Definition ATOMIC_VAR_CAS (b : build) : Z -> Z -> Z -> aprog bool :=
  match b with
  | USE_STD => ATOMIC_VAR_CAS_STD | USE_GCC => ATOMIC_VAR_CAS_GCC
  | USE_MSVC => ATOMIC_VAR_CAS_MSVC | USE_NONE => ATOMIC_VAR_CAS_NONE
  end.

Definition ATOMIC_VAR_FAA (b : build) : Z -> Z -> aprog Z :=
  match b with
  | USE_STD => ATOMIC_VAR_FAA_STD | USE_GCC => ATOMIC_VAR_FAA_GCC
  | USE_MSVC => ATOMIC_VAR_FAA_MSVC | USE_NONE => ATOMIC_VAR_FAA_NONE
  end.

Definition ATOMIC_VAR_STOR (b : build) : Z -> Z -> aprog unit :=
  match b with
  | USE_STD => ATOMIC_VAR_STOR_STD | USE_GCC => ATOMIC_VAR_STOR_GCC
  | USE_MSVC => ATOMIC_VAR_STOR_MSVC | USE_NONE => ATOMIC_VAR_STOR_NONE
  end.

Definition ATOMIC_VAR_LOAD (b : build) : Z -> aprog Z :=
  match b with
  | USE_STD => ATOMIC_VAR_LOAD_STD | USE_GCC => ATOMIC_VAR_LOAD_GCC
  | USE_MSVC => ATOMIC_VAR_LOAD_MSVC | USE_NONE => ATOMIC_VAR_LOAD_NONE
  end.
End macros.

(** A flag has one byte; the Interlocked intrinsic exchanges four. *)
Definition ATOMIC_FLAG_TAS_STD (ptr : Z) : aprog bool := v ← fetch_and_op 1 false ptr (fun _ => 1); mret (negb (v =? 0)).

Definition ATOMIC_FLAG_CLR_STD (ptr : Z) : aprog unit := astore 1 ptr 0.

Definition ATOMIC_FLAG_TAS_GCC (ptr : Z) : aprog bool := v ← fetch_and_op 1 false ptr (fun _ => 1); mret (negb (v =? 0)).

Definition ATOMIC_FLAG_CLR_GCC (ptr : Z) : aprog unit := astore 1 ptr 0.

Definition ATOMIC_FLAG_TAS_MSVC (ptr : Z) : aprog bool := v ← fetch_and_op 4 true ptr (fun _ => 1); mret (negb (v =? 0)).

Definition ATOMIC_FLAG_CLR_MSVC (ptr : Z) : aprog unit := _ ← fetch_and_op 4 true ptr (fun _ => 0); mret tt.

Definition ATOMIC_FLAG_TAS_NONE (ptr : Z) : aprog bool :=
  oval ← aload 1 ptr;
  if oval =? 0 then _ ← astore 1 ptr 1; mret false else mret true.

Definition ATOMIC_FLAG_CLR_NONE (ptr : Z) : aprog unit := astore 1 ptr 0.

Definition ATOMIC_FLAG_TAS (b : build) : Z -> aprog bool :=
  match b with
  | USE_STD => ATOMIC_FLAG_TAS_STD | USE_GCC => ATOMIC_FLAG_TAS_GCC
  | USE_MSVC => ATOMIC_FLAG_TAS_MSVC | USE_NONE => ATOMIC_FLAG_TAS_NONE
  end.

Definition ATOMIC_FLAG_CLR (b : build) : Z -> aprog unit :=
  match b with
  | USE_STD => ATOMIC_FLAG_CLR_STD | USE_GCC => ATOMIC_FLAG_CLR_GCC
  | USE_MSVC => ATOMIC_FLAG_CLR_MSVC | USE_NONE => ATOMIC_FLAG_CLR_NONE
  end.
End Catomic.
