(* ===== verification/CatomicGccProof.v ===== *)
(** The headers of [CatomicGcc] against the atomic operations of C11: the three
    replacements of <stdatomic.h> offer the same operations ([StubLaws]), the macros of
    catomic.h are atomic in two of the four builds, and what the others do. *)
From S2P Require Import Prelude Machine Atomics CatomicGcc.

(** * Builtins *)

Lemma fetch_and_op_ok n sg p f : implements (Spec n p f (ival n sg)) (fetch_and_op n sg p f).
Proof. by apply one_access_implements. Qed.

Lemma op_and_fetch_ok n sg p f : implements (Spec n p f (fun v => ival n sg (f v))) (op_and_fetch n sg p f).
Proof. by apply one_access_implements. Qed.

Lemma c11_cas_ok n sg p e d :
  implements (Spec n p (fun v => if ival n sg v =? ival n sg e then d else v)
                   (fun v => (ival n sg v =? ival n sg e, ival n sg v))) (c11_cas n sg p e d).
Proof. by apply one_access_implements. Qed.

Lemma pat_in n v : in_pat n v -> pat n v = v.
Proof. apply pat_small. Qed.

Lemma pat_0 n : pat n 0 = 0.
Proof. unfold pat. apply Z.mod_0_l. pose proof (pow8_pos n). lia. Qed.

(** Comparing the object with 0 and storing 0 is a load. *)
Lemma sync_load_ok n p : implements (Spec n p (fun v => v) (ival n false)) (sync_val_cas n false p 0 0).
Proof.
  eapply implements_ext; [apply fetch_and_op_ok|done..|]. intros v Hv. cbn [s_new s_res ival s_size] in *.
  rewrite pat_0, (pat_in n v Hv). split; [|done]. by destruct (Z.eqb_spec v 0) as [->|].
Qed.

(** The loop of compare-and-swaps is an exchange, whatever value it tries first; running
    alone it needs two attempts. *)
Section exchange.
Context (n : nat) (p x : Z).

Let s := Spec n p (fun _ => x) (ival n false).

Lemma exchange_loop_S fuel r : in_pat n r ->
  GccSync.exchange_loop n (S fuel) p x r =
  AAct (Acc n p (fun v => if pat n v =? r then x else v))
       (fun v => if negb (pat n v =? r) then GccSync.exchange_loop n fuel p x (pat n v) else ARet (pat n v)).
Proof.
  intros Hr. cbn [GccSync.exchange_loop]. unfold sync_val_cas, ival. by rewrite (pat_in n r Hr).
Qed.

Lemma exchange_loop_lin fuel r : in_pat n r -> lin s (GccSync.exchange_loop n fuel p x r).
Proof.
  revert r. induction fuel as [|fuel IH]; intros r Hr; [done|]. rewrite exchange_loop_S by done.
  intros v Hv. unfold silent, acts. cbn [size addr upd] in *. rewrite (pat_in n v Hv).
  destruct (Z.eqb_spec v r) as [->|]; cbn [negb].
  - right. split; [done|]. cbn. by rewrite (pat_in n r Hr).
  - left. split; [by apply pat_in|by apply IH].
Qed.

Lemma exchange_loop_ok fuel r : (2 <= fuel)%nat -> in_pat n r -> implements s (GccSync.exchange_loop n fuel p x r).
Proof.
  intros Hf Hr. split; [by apply exchange_loop_lin|]. intros m v Hm Hv. cbn [s s_addr s_size s_res s_new] in *.
  pose proof (rd_range _ _ _ _ Hm Hv) as Hp. destruct fuel as [|[|fuel]]; [lia..|].
  rewrite exchange_loop_S by done. cbn [arun]. unfold perform at 1. cbn [addr size upd]. rewrite Hv.
  rewrite (pat_in n v Hp). destruct (Z.eqb_spec v r) as [->|]; cbn [negb arun].
  - unfold ival. by rewrite (pat_in n r Hr).
  - rewrite (wr_rd _ _ _ _ Hm Hv), exchange_loop_S by done. cbn [arun]. unfold perform. cbn [addr size upd].
    rewrite Hv, (pat_in n v Hp), Z.eqb_refl. cbn [negb arun]. unfold ival. by rewrite (pat_in n v Hp).
Qed.
End exchange.

(** * The functions of the stub headers *)

(** The operations a replacement of <stdatomic.h> instantiates for an unsigned type;
    the pair for nand, which one of them has. *)
Record stub := Stub {
  fetch_op : fop -> Z -> Z -> aprog Z;
  op_fetch : fop -> Z -> Z -> aprog Z;
  nand_ops : option ((Z -> Z -> aprog Z) * (Z -> Z -> aprog Z));
  load_ : Z -> aprog Z;
  store_ : Z -> Z -> aprog unit;
  exchange_ : Z -> Z -> aprog Z;
  compare_exchange_ : Z -> Z -> Z -> aprog (bool * Z);
}.

(** What they promise: atomic operations on an object of [n] bytes. *)
Class StubLaws (n : nat) (S : stub) : Prop := {
  fetch_op_ok o X V : implements (Spec n X (fun v => fop_fun o v V) (ival n false)) (fetch_op S o X V);
  op_fetch_ok o X V :
    implements (Spec n X (fun v => fop_fun o v V) (fun v => ival n false (fop_fun o v V))) (op_fetch S o X V);
  nand_ok f g X V : nand_ops S = Some (f, g) ->
    implements (Spec n X (fun v => Z.lnot (Z.land v V)) (ival n false)) (f X V) /\
    implements (Spec n X (fun v => Z.lnot (Z.land v V)) (fun v => ival n false (Z.lnot (Z.land v V)))) (g X V);
  load_ok X : implements (Spec n X (fun v => v) (ival n false)) (load_ S X);
  store_ok X V : implements (Spec n X (fun _ => V) (fun _ => tt)) (store_ S X V);
  exchange_ok X V : implements (Spec n X (fun _ => V) (ival n false)) (exchange_ S X V);
  compare_exchange_ok X E D : in_pat n E ->
    implements (Spec n X (fun v => if v =? E then D else v) (fun v => (v =? E, v))) (compare_exchange_ S X E D);
}.

Definition gcc_sync (n fuel : nat) : stub :=
  Stub (fun o => match o with
          | Fadd => GccSync.__impl_fetch_add n | Fsub => GccSync.__impl_fetch_sub n
          | For => GccSync.__impl_fetch_or n | Fxor => GccSync.__impl_fetch_xor n | Fand => GccSync.__impl_fetch_and n end)
       (fun o => match o with
          | Fadd => GccSync.__impl_add_fetch n | Fsub => GccSync.__impl_sub_fetch n
          | For => GccSync.__impl_or_fetch n | Fxor => GccSync.__impl_xor_fetch n | Fand => GccSync.__impl_and_fetch n end)
       None (GccSync.__impl_load n) (GccSync.__impl_store n fuel) (GccSync.__impl_exchange n fuel)
       (GccSync.__impl_compare_exchange n).

Definition gcc_atomic (n : nat) : stub :=
  Stub (fun o => match o with
          | Fadd => GccAtomic.__impl_fetch_add n | Fsub => GccAtomic.__impl_fetch_sub n
          | For => GccAtomic.__impl_fetch_or n | Fxor => GccAtomic.__impl_fetch_xor n | Fand => GccAtomic.__impl_fetch_and n end)
       (fun o => match o with
          | Fadd => GccAtomic.__impl_add_fetch n | Fsub => GccAtomic.__impl_sub_fetch n
          | For => GccAtomic.__impl_or_fetch n | Fxor => GccAtomic.__impl_xor_fetch n | Fand => GccAtomic.__impl_and_fetch n end)
       (Some (GccAtomic.__impl_fetch_nand n, GccAtomic.__impl_nand_fetch n))
       (GccAtomic.__impl_load n) (GccAtomic.__impl_store n) (GccAtomic.__impl_exchange n)
       (GccAtomic.__impl_compare_exchange n).

Definition clang_c11 (n : nat) : stub :=
  Stub (fun o => match o with
          | Fadd => ClangC11.__impl_fetch_add n | Fsub => ClangC11.__impl_fetch_sub n
          | For => ClangC11.__impl_fetch_or n | Fxor => ClangC11.__impl_fetch_xor n | Fand => ClangC11.__impl_fetch_and n end)
       (fun o => match o with
          | Fadd => ClangC11.__impl_add_fetch n | Fsub => ClangC11.__impl_sub_fetch n
          | For => ClangC11.__impl_or_fetch n | Fxor => ClangC11.__impl_xor_fetch n | Fand => ClangC11.__impl_and_fetch n end)
       None (ClangC11.__impl_load n) (ClangC11.__impl_store n) (ClangC11.__impl_exchange n)
       (ClangC11.__impl_compare_exchange n).

Lemma cas_value n p e d : in_pat n e ->
  implements (Spec n p (fun v => if v =? e then d else v) (fun v => (v =? e, v))) (c11_cas n false p e d).
Proof.
  intros He. eapply implements_ext; [apply c11_cas_ok|done..|]. intros v Hv. cbn [s_new s_res ival s_size] in *.
  by rewrite (pat_in n v Hv), (pat_in n e He).
Qed.

#[export] Instance gcc_sync_laws n fuel : (2 <= fuel)%nat -> StubLaws n (gcc_sync n fuel).
Proof.
  intros Hf.
  assert (Hx : forall X V, implements (Spec n X (fun _ => V) (ival n false)) (GccSync.__impl_exchange n fuel X V)).
  { intros. apply exchange_loop_ok; [done|apply pat_range]. }
  split; intros; cbn [gcc_sync fetch_op op_fetch nand_ops load_ store_ exchange_ compare_exchange_] in *.
  - destruct o; apply fetch_and_op_ok.
  - destruct o; apply op_and_fetch_ok.
  - done.
  - apply sync_load_ok.
  - by eapply implements_bind; [apply Hx|..].
  - apply Hx.
  - eapply implements_bind; [apply fetch_and_op_ok|done..|]. intros v Hv. cbn [s_new s_res ival s_size] in *.
    rewrite (pat_in n v Hv), (pat_in n E) by done. split; [done|]. rewrite (Z.eqb_sym v).
    by destruct (Z.eqb_spec E v) as [->|].
Qed.

#[export] Instance gcc_atomic_laws n : StubLaws n (gcc_atomic n).
Proof.
  split; intros; cbn [gcc_atomic fetch_op op_fetch nand_ops load_ store_ exchange_ compare_exchange_] in *;
    try (destruct o; apply fetch_and_op_ok || apply op_and_fetch_ok);
    [simplify_eq; split; [apply fetch_and_op_ok|apply op_and_fetch_ok]|apply fetch_and_op_ok|apply implements_astore|apply fetch_and_op_ok|by apply cas_value].
Qed.

#[export] Instance clang_c11_laws n : StubLaws n (clang_c11 n).
Proof.
  split; intros; cbn [clang_c11 fetch_op op_fetch nand_ops load_ store_ exchange_ compare_exchange_] in *;
    [destruct o; apply fetch_and_op_ok| |done|apply fetch_and_op_ok|apply implements_astore|apply fetch_and_op_ok|by apply cas_value].
  destruct o; (eapply implements_bind; [apply fetch_and_op_ok|done..|]; intros v Hv; split; [done|];
    cbn [s_res ival]; unfold mret, aprog_ret; f_equal; cbn [fop_fun]; by rewrite (pat_in n v Hv)).
Qed.

(** * Clients of the interface *)

Inductive scall :=
  | SFetch (o : fop) (X V : Z) | SOpFetch (o : fop) (X V : Z)
  | SFetchNand (X V : Z) | SNandFetch (X V : Z) | SLoad (X : Z)
  | SStore (X V : Z) | SExchange (X V : Z) | SCas (X E D : Z).

Inductive sresult := SUnit | SVal (v : Z) | SCasRes (b : bool) (v : Z).

Definition srun (S : stub) (c : scall) : aprog sresult :=
  match c with
  | SFetch o X V => v ← fetch_op S o X V; mret (SVal v)
  | SOpFetch o X V => v ← op_fetch S o X V; mret (SVal v)
  | SFetchNand X V => match nand_ops S with Some (f, _) => v ← f X V; mret (SVal v) | None => AFail Undefined end
  | SNandFetch X V => match nand_ops S with Some (_, g) => v ← g X V; mret (SVal v) | None => AFail Undefined end
  | SLoad X => v ← load_ S X; mret (SVal v)
  | SStore X V => _ ← store_ S X V; mret SUnit
  | SExchange X V => v ← exchange_ S X V; mret (SVal v)
  | SCas X E D => '(b, e) ← compare_exchange_ S X E D; mret (SCasRes b e)
  end.

Definition sspec (n : nat) (c : scall) : aspec sresult :=
  match c with
  | SFetch o X V => Spec n X (fun v => fop_fun o v V) (fun v => SVal (ival n false v))
  | SOpFetch o X V => Spec n X (fun v => fop_fun o v V) (fun v => SVal (ival n false (fop_fun o v V)))
  | SFetchNand X V => Spec n X (fun v => Z.lnot (Z.land v V)) (fun v => SVal (ival n false v))
  | SNandFetch X V => Spec n X (fun v => Z.lnot (Z.land v V)) (fun v => SVal (ival n false (Z.lnot (Z.land v V))))
  | SLoad X => Spec n X (fun v => v) (fun v => SVal (ival n false v))
  | SStore X V => Spec n X (fun _ => V) (fun _ => SUnit)
  | SExchange X V => Spec n X (fun _ => V) (fun v => SVal (ival n false v))
  | SCas X E D => Spec n X (fun v => if v =? E then D else v) (fun v => SCasRes (v =? E) v)
  end.

(** The expected value is one of the type; nand is asked of a header that has it. *)
Definition svalid (n : nat) (S : stub) (c : scall) : Prop :=
  match c with
  | SCas _ E _ => in_pat n E
  | SFetchNand _ _ | SNandFetch _ _ => is_Some (nand_ops S)
  | _ => True
  end.

Lemma srun_ok n S c : StubLaws n S -> svalid n S c -> implements (sspec n c) (srun S c).
Proof.
  intros HL Hv. destruct c; cbn [srun sspec svalid] in *.
  - by eapply implements_bind; [apply fetch_op_ok|..].
  - by eapply implements_bind; [apply op_fetch_ok|..].
  - destruct Hv as [[f g] E]. rewrite E. by eapply implements_bind; [by apply (nand_ok f g)|..].
  - destruct Hv as [[f g] E]. rewrite E. by eapply implements_bind; [by apply (nand_ok f g)|..].
  - by eapply implements_bind; [apply load_ok|..].
  - by eapply implements_bind; [apply store_ok|..].
  - by eapply implements_bind; [apply exchange_ok|..].
  - by eapply implements_bind; [apply compare_exchange_ok|..].
Qed.

(** Threads that call the operations, each through a header of its own choice, are
    linearizable: the headers are interchangeable. *)
Lemma stubs_linearizable n calls stubs m c1 c2 tr1 tr2 :
  mem_ok m -> Forall2 (svalid n) stubs calls -> Forall (StubLaws n) stubs ->
  asteps (m, zip_with srun stubs calls) tr1 c1 -> asteps c1 tr2 c2 ->
  let specs := map (sspec n) calls in
  exists log1 log2,
    spec_run specs m log1 c1.1 /\ spec_run specs m (log1 ++ log2) c2.1 /\ NoDup (log1 ++ log2).*1 /\
    (forall i r, c1.2 !! i = Some (ARet r) -> (i, r) ∈ log1) /\
    (forall i r, c2.2 !! i = Some (ARet r) -> (i, r) ∈ log1 ++ log2) /\
    (forall i, i ∈ log1.*1 -> i ∈ tr1) /\ (forall i, i ∈ log2.*1 -> i ∈ tr2).
Proof.
  intros Hm Hc Hs H1 H2 specs. eapply pool_linearizable; [done| |done..].
  subst specs. clear - Hc Hs. induction Hc as [|S c stubs calls Hv _ IH]; [done|].
  apply Forall_cons in Hs as [HS Hs]. apply Forall2_cons_2; [eapply im_lin, srun_ok; eauto|by apply IH].
Qed.

(** C31: Each function that [catomic_gcc_sync.h], [catomic_gcc_atomic.h] and
    [catomic_clang_c11.h] instantiate for an unsigned type of [n] bytes
    ([__impl_fetch_*], [__impl_*_fetch], the two for nand of [catomic_gcc_atomic.h],
    [__impl_load], [__impl_store], [__impl_exchange], [__impl_compare_exchange]) is the
    atomic operation its name says: the exchange made of a loop of compare-and-swaps,
    the load made of one, and the operations that return the new value computed from
    the old one included. So are the two functions for pointers of
    [catomic_gcc_atomic.h]. The orders are all taken as sequentially consistent. *)
Theorem stub_headers_c11 n fuel S c X offset :
  (2 <= fuel)%nat -> S ∈ [gcc_sync n fuel; gcc_atomic n; clang_c11 n] -> svalid n S c ->
  implements (sspec n c) (srun S c) /\
  implements (Spec 8 X (fun v => v + offset) (ival 8 false)) (GccAtomic.__atomic_fetch_add_ptr X offset) /\
  implements (Spec 8 X (fun v => v - offset) (ival 8 false)) (GccAtomic.__atomic_fetch_sub_ptr X offset).
Proof.
  intros Hf HS Hv. split; [|split; apply fetch_and_op_ok]. apply srun_ok; [|done].
  rewrite !elem_of_cons in HS. destruct HS as [->|[->|[->|[]%not_elem_of_nil]]]; [by apply gcc_sync_laws|exact _..].
Qed.

Lemma stub_headers_c11_witness :
  implements (sspec 4 (SExchange 16 5)) (srun (gcc_sync 4 2) (SExchange 16 5)) /\
  implements (sspec 4 (SNandFetch 16 5)) (srun (gcc_atomic 4) (SNandFetch 16 5)).
Proof.
  split.
  - apply (stub_headers_c11 4 2 (gcc_sync 4 2) (SExchange 16 5) 16 1); [lia|left|done].
  - apply (stub_headers_c11 4 2 (gcc_atomic 4) (SNandFetch 16 5) 16 1); [lia|right; left|eexists; reflexivity].
Defined.

(** * The macros *)

Section sync_macros.
Context (n : nat) (sg uint128 : bool) (fuel : nat).
Context (aret : forall A : Type, A -> A) (aret_id : forall A (x : A), aret A x = x).
Context (lib_cas : Z -> Z -> Z -> aprog (bool * Z)) (lib_load : Z -> aprog Z).
Context (lib_store : Z -> Z -> aprog unit) (lib_exchange : Z -> Z -> aprog Z).
Context (Hfuel : (2 <= fuel)%nat) (Hn : n ∈ [1; 2; 4; 8; 16]%nat).

Lemma cas_local_ok X E D : ival n sg E = E ->
  implements (Spec n X (fun v => if ival n sg v =? E then D else v) (fun v => (ival n sg v =? E, ival n sg v)))
    (GccSync.__impl_CAS_local n sg aret n X E D).
Proof using aret_id.
  intros HE. unfold GccSync.__impl_CAS_local. eapply implements_bind; [apply fetch_and_op_ok|done..|].
  intros v Hv. cbn [s_new s_res s_size] in *. rewrite aret_id, ival_ival.
  assert (Heq : (ival n false v =? ival n false E) = (ival n sg v =? E)).
  { apply eq_true_iff_eq. rewrite !Z.eqb_eq. split; intros H.
    - rewrite <- HE, <- (ival_ival n sg false v), H. apply ival_ival.
    - rewrite <- H. symmetry. apply ival_ival. }
  rewrite Heq. split; [done|]. by destruct (Z.eqb_spec (ival n sg v) E) as [->|].
Qed.

(** The generic compare-and-exchange for objects of 1, 2, 4, 8 or 16 bytes. *)
Lemma sync_cas_macro_ok X E D : ival n sg E = E ->
  implements (Spec n X (fun v => if ival n sg v =? E then ival n sg D else v) (fun v => (ival n sg v =? E, ival n sg v)))
    (GccSync.atomic_compare_exchange_strong_explicit n sg aret lib_cas X E D).
Proof using aret_id Hn.
  intros HE. unfold GccSync.atomic_compare_exchange_strong_explicit.
  pose proof (cas_local_ok X E (ival n sg D) HE) as H.
  rewrite !elem_of_cons in Hn. destruct Hn as [->|[->|[->|[->|[->|[]%not_elem_of_nil]]]]];
    (eapply implements_bind; [exact H|done..|]; intros v Hv; split; [done|]; cbn [s_res]; by rewrite aret_id).
Qed.

Lemma exchange_union_ok {A} (of_bits : Z -> A) (convert : A -> Z) k X V : in_pat k (convert V) ->
  implements (Spec k X (fun _ => convert V) (fun v => of_bits (ival k false v)))
    (GccSync.__impl_exchange_union fuel of_bits convert k X V).
Proof using Hfuel. intros Hc. by eapply implements_bind; [apply exchange_loop_ok|..]. Qed.

Lemma store_union_ok {A} (convert : A -> Z) k X V : in_pat k (convert V) ->
  implements (Spec k X (fun _ => convert V) (fun _ => tt)) (GccSync.__impl_store_union fuel convert k X V).
Proof using Hfuel. intros Hc. by eapply implements_bind; [apply exchange_loop_ok|..]. Qed.

Lemma load_union_ok {A} (of_bits : Z -> A) k X :
  implements (Spec k X (fun v => v) (fun v => of_bits (ival k false v))) (GccSync.__impl_load_union of_bits k X).
Proof using Type. by eapply implements_bind; [apply sync_load_ok|..]. Qed.

Lemma sync_load_macro_ok X : (n = 16%nat -> uint128 = true) ->
  implements (Spec n X (fun v => v) (ival n sg)) (GccSync.atomic_load_explicit n sg uint128 lib_load X).
Proof using Hn.
  intros H16. eapply (implements_ext (Spec n X (fun v => v) (fun v => ival n sg (ival n false v)))); [|done|done|].
  - unfold GccSync.atomic_load_explicit. rewrite !elem_of_cons in Hn.
    destruct Hn as [->|[->|[->|[->|[->|[]%not_elem_of_nil]]]]]; rewrite ?H16 by done; apply load_union_ok.
  - intros v Hv. cbn [s_new s_res]. by rewrite ival_ival.
Qed.

Lemma sync_store_macro_ok X V : (n = 16%nat -> uint128 = true) ->
  implements (Spec n X (fun _ => V) (fun _ => tt)) (GccSync.atomic_store_explicit n uint128 fuel lib_store X V).
Proof using Hn Hfuel.
  intros H16. eapply (implements_ext (Spec n X (fun _ => pat n V) (fun _ => tt))); [|done|done|].
  - unfold GccSync.atomic_store_explicit. pose proof (pat_range n V) as Hp. rewrite !elem_of_cons in Hn.
    destruct Hn as [->|[->|[->|[->|[->|[]%not_elem_of_nil]]]]]; rewrite ?H16 by done; by apply (store_union_ok (pat _)).
  - intros v Hv. cbn [s_new s_res]. split; [apply pat_pat|done].
Qed.

Lemma sync_exchange_macro_ok X V : (n = 16%nat -> uint128 = true) ->
  implements (Spec n X (fun _ => V) (ival n sg)) (GccSync.atomic_exchange_explicit n sg uint128 fuel lib_exchange X V).
Proof using Hn Hfuel.
  intros H16. eapply (implements_ext (Spec n X (fun _ => pat n V) (fun v => ival n sg (ival n false v)))); [|done|done|].
  - unfold GccSync.atomic_exchange_explicit. pose proof (pat_range n V) as Hp. rewrite !elem_of_cons in Hn.
    destruct Hn as [->|[->|[->|[->|[->|[]%not_elem_of_nil]]]]]; rewrite ?H16 by done; by apply (exchange_union_ok (ival _ sg) (pat _)).
  - intros v Hv. cbn [s_new s_res]. rewrite ival_ival. split; [apply pat_pat|done].
Qed.
End sync_macros.

(** The macros of [catomic_gcc_sync.h] and [catomic_gcc_atomic.h] that fetch. *)
Lemma sync_fetch_macros_ok n sg X Y :
  implements (Spec n X (fun v => v + Y) (ival n sg)) (GccSync.atomic_fetch_add_explicit n sg X Y) /\
  implements (Spec n X (fun v => v - Y) (ival n sg)) (GccSync.atomic_fetch_sub_explicit n sg X Y) /\
  implements (Spec n X (fun v => Z.lxor v Y) (ival n sg)) (GccSync.atomic_fetch_xor_explicit n sg X Y).
Proof. split_and!; apply fetch_and_op_ok. Qed.

(** [atomic_fetch_and] is an atomic or, [atomic_fetch_or] an atomic and. *)
Lemma sync_and_or_swapped n sg X Y :
  implements (Spec n X (fun v => Z.lor v Y) (ival n sg)) (GccSync.atomic_fetch_and_explicit n sg X Y) /\
  implements (Spec n X (fun v => Z.land v Y) (ival n sg)) (GccSync.atomic_fetch_or_explicit n sg X Y).
Proof. split; apply fetch_and_op_ok. Qed.

(** A failed comparison through the union macro does not update the expected value. *)
Lemma compare_exchange_union_stale :
  arun (GccSync.__impl_compare_exchange_union (fun v => v) 1 100 5 6) {[100 := 7]} = inl ((false, 5), {[100 := 7]}).
Proof. vm_compute. reflexivity. Qed.

(** Storing through a union converts the value instead of keeping its bits: with [V] the
    pattern of a positive [float] and [convert] its conversion to an integer, 1.0 is
    stored as the integer 1. *)
Definition float_to_uint (V : Z) : Z :=
  let e := V / 2 ^ 23 - 127 in
  if e <? 0 then 0 else (2 ^ 23 + V mod 2 ^ 23) * 2 ^ e / 2 ^ 23.

Lemma store_union_float :
  let m := list_to_map (map (fun a => (a, 0)) (seqZ 100 4)) : bytes in
  match arun (GccSync.__impl_store_union 2 float_to_uint 4 100 0x3F800000) m with
  | inl (_, m') => rd m' 100 4 = Some 1
  | inr _ => False
  end.
Proof. vm_compute. reflexivity. Qed.

(** ** [catomic_gcc_atomic.h] *)

(** The value that is added: the number, or the number of elements. *)
Definition scaled (t : GccAtomic.otype) (Y : Z) : Z :=
  match t with GccAtomic.Int _ _ => Y | GccAtomic.Ptr e => Y * e end.

Lemma offset_scaled t Y : (GccAtomic.osize t <= 8)%nat -> eqp (GccAtomic.osize t) (GccAtomic.offset_of t Y) (scaled t Y).
Proof.
  intros Hn. unfold GccAtomic.offset_of. destruct t as [n sg|e]; cbn [GccAtomic.osize scaled] in *.
  - transitivity (pat 8 Y); apply eqp_mod.
    + exists 0. rewrite pat_pat. lia.
    + change (pat 8 Y) with (ival 8 false Y). destruct (ival_mod 8 false Y) as [k ->]. exists (k * 2 ^ (8 * (8 - Z.of_nat n))).
      rewrite <- Z.mul_assoc, <- Z.pow_add_r by lia. do 3 f_equal. lia.
  - unfold eqp. rewrite pat_pat. unfold pat. by rewrite Z.mul_mod_idemp_l.
Qed.

Section gcc_atomic_macros.
Context (t : GccAtomic.otype) (X Y : Z).

Lemma gcc_fetch_add_ok : (GccAtomic.osize t <= 8)%nat ->
  implements (Spec (GccAtomic.osize t) X (fun v => v + scaled t Y) (GccAtomic.oval t)) (GccAtomic.atomic_fetch_add_explicit t X Y).
Proof using Type.
  intros Hn. pose proof (offset_scaled t Y Hn) as Ho. unfold GccAtomic.atomic_fetch_add_explicit.
  destruct t as [n sg|e]; cbn [GccAtomic._IS_POINTER GccAtomic.osize GccAtomic.oval] in *;
    (eapply implements_bind; [apply fetch_and_op_ok|done..|]); intros v Hv; cbn [s_new s_res s_size] in *;
    rewrite Ho; split; try done; by rewrite ival_ival.
Qed.

Lemma gcc_fetch_sub_ok : (GccAtomic.osize t <= 8)%nat ->
  implements (Spec (GccAtomic.osize t) X (fun v => v - scaled t Y) (GccAtomic.oval t)) (GccAtomic.atomic_fetch_sub_explicit t X Y).
Proof using Type.
  intros Hn. pose proof (offset_scaled t Y Hn) as Ho. unfold GccAtomic.atomic_fetch_sub_explicit.
  destruct t as [n sg|e]; cbn [GccAtomic._IS_POINTER GccAtomic.osize GccAtomic.oval] in *;
    (eapply implements_bind; [apply fetch_and_op_ok|done..|]); intros v Hv; cbn [s_new s_res s_size] in *;
    rewrite Ho; split; try done; by rewrite ival_ival.
Qed.
End gcc_atomic_macros.

Section gcc_atomic_generic.
Context (t : GccAtomic.otype) (X V : Z) (atmp aret : Z -> Z).
Context (atmp_value : forall v, eqp (GccAtomic.osize t) (atmp v) v) (aret_value : forall v, aret v = v).

Lemma oval_ival v : GccAtomic.oval t (ival (GccAtomic.osize t) false v) = GccAtomic.oval t v.
Proof using Type. clear atmp_value. destruct t; apply ival_ival. Qed.

Lemma gcc_load_ok :
  implements (Spec (GccAtomic.osize t) X (fun v => v) (GccAtomic.oval t)) (GccAtomic.atomic_load_explicit t aret X).
Proof using aret_value.
  clear atmp_value. eapply implements_bind; [apply fetch_and_op_ok|done..|]. intros v Hv. cbn [s_new s_res].
  by rewrite oval_ival, aret_value.
Qed.

Lemma gcc_store_ok :
  implements (Spec (GccAtomic.osize t) X (fun _ => V) (fun _ => tt)) (GccAtomic.atomic_store_explicit t atmp X V).
Proof using atmp_value.
  eapply implements_bind; [apply fetch_and_op_ok|done..|]. intros v Hv. cbn [s_new s_res s_size]. by rewrite atmp_value.
Qed.

Lemma gcc_exchange_ok :
  implements (Spec (GccAtomic.osize t) X (fun _ => V) (GccAtomic.oval t)) (GccAtomic.atomic_exchange_explicit t atmp aret X V).
Proof using atmp_value aret_value.
  eapply implements_bind; [apply fetch_and_op_ok|done..|]. intros v Hv. cbn [s_new s_res s_size].
  by rewrite atmp_value, oval_ival, aret_value.
Qed.

Lemma gcc_cas_ok E : in_pat (GccAtomic.osize t) E ->
  implements (Spec (GccAtomic.osize t) X (fun v => if v =? E then V else v) (fun v => (v =? E, GccAtomic.oval t v)))
    (GccAtomic.atomic_compare_exchange_strong_explicit t atmp X E V).
Proof using atmp_value.
  intros HE. eapply implements_bind; [by apply cas_value|done..|]. intros v Hv. cbn [s_new s_res s_size].
  split; [|done]. destruct (v =? E); [apply atmp_value|done].
Qed.
End gcc_atomic_generic.

(** The offset goes through [uintptr_t]: adding -1 to an integer of 16 bytes adds 2^64 - 1. *)
Lemma gcc_fetch_add_int128 :
  match arun (GccAtomic.atomic_fetch_add_explicit (GccAtomic.Int 16 true) 100 (-1))
             (list_to_map (map (fun a => (a, 0)) (seqZ 100 16))) with
  | inl (_, m) => rd m 100 16 = Some (2 ^ 64 - 1)
  | inr _ => False
  end.
Proof. vm_compute. reflexivity. Qed.

(** * [catomic.h] *)

Import Catomic.

(** In the builds for C11 and for GCC the macros the containers use are atomic
    operations on the object: compare-and-swap stores the new value exactly if the
    object holds the old one and tells so, fetch-and-add wraps around, a flag that is
    tested and set becomes set and tells whether it was. *)
Theorem catomic_c11 b n sg ptr oval nval :
  b = USE_STD \/ b = USE_GCC ->
  implements (Spec n ptr (fun v => if ival n sg v =? ival n sg oval then nval else v)
                   (fun v => ival n sg v =? ival n sg oval)) (ATOMIC_VAR_CAS n sg b ptr oval nval) /\
  implements (Spec n ptr (fun v => v + nval) (ival n sg)) (ATOMIC_VAR_FAA n sg b ptr nval) /\
  implements (Spec n ptr (fun _ => nval) (fun _ => tt)) (ATOMIC_VAR_STOR n b ptr nval) /\
  implements (Spec n ptr (fun v => v) (ival n sg)) (ATOMIC_VAR_LOAD n sg b ptr) /\
  implements (Spec 1 ptr (fun _ => 1) (fun v => negb (v =? 0))) (ATOMIC_FLAG_TAS b ptr) /\
  implements (Spec 1 ptr (fun _ => 0) (fun _ => tt)) (ATOMIC_FLAG_CLR b ptr).
Proof.
  assert (Hl : implements (Spec n ptr (fun v => v) (ival n sg)) (ATOMIC_VAR_LOAD_STD n sg ptr)).
  { by eapply implements_bind; [apply implements_aload|..]. }
  assert (Ht : implements (Spec 1 ptr (fun _ => 1) (fun v => negb (v =? 0)))
                 (v ← fetch_and_op 1 false ptr (fun _ => 1); mret (negb (v =? 0)))).
  { eapply implements_bind; [apply fetch_and_op_ok|done..|]. intros v Hv. cbn [s_new s_res ival s_size] in *.
    by rewrite (pat_in 1 v Hv). }
  intros [-> | ->]; (split; [|split; [apply fetch_and_op_ok|split; [apply implements_astore|split; [done|split; [done|apply implements_astore]]]]]).
  - by eapply implements_bind; [apply c11_cas_ok|..].
  - by eapply implements_bind; [apply fetch_and_op_ok|..].
Qed.

Lemma catomic_c11_witness :
  implements (Spec 4 100 (fun v => v + 1) (ival 4 true)) (ATOMIC_VAR_FAA 4 true USE_GCC 100 1).
Proof. apply (catomic_c11 USE_GCC 4 true 100 0 1). by right. Defined.

(** Without atomics (USE_NONE) the macros are right for one thread, on objects of the
    size of a pointer. *)
Lemma catomic_none_alone ptr oval nval m v :
  mem_ok m -> rd m ptr 8 = Some v ->
  arun (ATOMIC_VAR_CAS 8 false USE_NONE ptr oval nval) m =
    (if pat 8 oval =? v then inl (true, wr m ptr 8 nval) else inl (false, m)) /\
  arun (ATOMIC_VAR_FAA 8 false USE_NONE ptr nval) m = inl (v, wr m ptr 8 (v + nval)).
Proof.
  intros Hm Hv. pose proof (rd_range _ _ _ _ Hm Hv) as Hp. split.
  - unfold ATOMIC_VAR_CAS, ATOMIC_VAR_CAS_NONE. rewrite (arun_aload _ _ _ _ _ Hm Hv). destruct (_ =? v); [|done].
    unfold astore. cbn. unfold perform. cbn [addr size upd]. by rewrite Hv.
  - unfold ATOMIC_VAR_FAA, ATOMIC_VAR_FAA_NONE. rewrite !(arun_aload _ _ _ _ _ Hm Hv). unfold astore. cbn. unfold perform.
    cbn [addr size upd]. rewrite Hv. do 2 f_equal. by apply pat_in.
Qed.

(** Two threads that add, or that take a lock, at the same time: one addition is lost,
    and both have the lock. *)
Lemma catomic_none_races :
  let m := list_to_map (map (fun a => (a, 0)) (seqZ 100 8)) : bytes in
  let add := ATOMIC_VAR_FAA 8 false USE_NONE 100 1 in
  let lock := ATOMIC_FLAG_TAS USE_NONE 100 in
  (exists m', schedule_run [0; 0; 1; 1; 0; 1]%nat (m, [add; add]) = Some (m', [ARet 0; ARet 0]) /\
     rd m' 100 8 = Some 1) /\
  (exists m', schedule_run [0; 1; 0; 1]%nat (m, [lock; lock]) = Some (m', [ARet false; ARet false])).
Proof. split; eexists; [split|]; vm_compute; reflexivity. Qed.

(** In the build for MSVC the new value and the old one are passed to the intrinsic in
    the wrong order: when the object holds the old value the macro reports success and
    leaves the object as it is. *)
Lemma msvc_cas_no_store n sg ptr oval nval m :
  mem_ok m -> ival 4 true oval = oval -> ival 4 true nval = nval -> oval <> nval -> rd m ptr 4 = Some (pat 4 oval) ->
  arun (ATOMIC_VAR_CAS n sg USE_MSVC ptr oval nval) m = inl (true, m).
Proof.
  intros Hm Ho Hn Hne Hv. unfold ATOMIC_VAR_CAS, ATOMIC_VAR_CAS_MSVC, sync_val_cas. cbv zeta. rewrite arun_bind.
  rewrite (im_alone _ _ (fetch_and_op_ok 4 true ptr _) m (pat 4 oval) Hm Hv). cbn [s_res s_addr s_size s_new].
  rewrite !ival_pat, Ho, Hn, (proj2 (Z.eqb_neq _ _) Hne). cbn [arun mret aprog_ret].
  by rewrite Z.eqb_refl, (wr_rd _ _ _ _ Hm Hv).
Qed.

(** A flag is one byte, but the build for MSVC exchanges four: the next three are lost. *)
Lemma msvc_flag_neighbours :
  let m := list_to_map [(100, 0); (101, 7); (102, 7); (103, 7)] : bytes in
  match arun (ATOMIC_FLAG_TAS USE_MSVC 100) m with
  | inl (r, m') => r = true /\ m' !! 101 = Some 0
  | inr _ => False
  end.
Proof. vm_compute. split; reflexivity. Qed.

(** ... and a counter of eight bytes loses its carry. *)
Lemma msvc_faa_truncated :
  let m := wr (list_to_map (map (fun a => (a, 0)) (seqZ 100 8))) 100 8 (2 ^ 32 - 1) in
  match arun (ATOMIC_VAR_FAA 8 false USE_MSVC 100 1) m with
  | inl (r, m') => r = -1 /\ rd m' 100 8 = Some 0
  | inr _ => False
  end.
Proof. vm_compute. split; reflexivity. Qed.
