(* ===== verification/Cthread.v ===== *)
(** The locks of [common/cthread.h]: the lock that pushers and poppers take in turn, which
    the bounded stack has in each of its nodes, and the spin lock on a flag. Both are
    programs of the macros of [catomic.h], run by any number of threads. *)
From S2P Require Import Prelude Machine Atomics CatomicGcc CatomicGccProof.
Import Catomic.

(** The node states and the lock types are enumerations. *)
Definition NST_EMPTY : Z := 0.
Definition NST_BUSY : Z := 1.
Definition NST_FULL : Z := 2.

Inductive lock_type := NST_PUSH | NST_POP.

Definition is_push (ty : lock_type) : bool := match ty with NST_PUSH => true | NST_POP => false end.

(** [__oval] of NST_PP_LOCK, and [__nval] of NST_PP_UNLOCK *)
Definition lock_oval (ty : lock_type) : Z := if is_push ty then NST_EMPTY else NST_FULL.
Definition unlock_nval (ty : lock_type) : Z := if is_push ty then NST_FULL else NST_EMPTY.

Fixpoint NST_PP_LOCK (b : build) (lock : Z) (fuel : nat) (ty : lock_type) : aprog unit :=
  match fuel with
  | O => AFail OutOfFuel
  | S fuel =>
      c ← ATOMIC_VAR_CAS 4 true b lock (lock_oval ty) NST_BUSY;
      if (c : bool) then mret tt else NST_PP_LOCK b lock fuel ty
  end.

Definition NST_PP_UNLOCK (b : build) (lock : Z) (ty : lock_type) : aprog unit := ATOMIC_VAR_STOR 4 b lock (unlock_nval ty).

Definition NST_LOCK_INIT (b : build) (lock : Z) : aprog unit := ATOMIC_VAR_STOR 4 b lock NST_EMPTY.

(** [while (!ATOMIC_FLAG_TAS(&(_lock))) {}] *)
Fixpoint SPIN_LOCK (b : build) (lock : Z) (fuel : nat) : aprog unit :=
  match fuel with
  | O => AFail OutOfFuel
  | S fuel =>
      c ← ATOMIC_FLAG_TAS b lock;
      if negb c then SPIN_LOCK b lock fuel else mret tt
  end.

Definition SPIN_UNLOCK (b : build) (lock : Z) : aprog unit := ATOMIC_FLAG_CLR b lock.

(** * Threads that take a lock again and again *)

Section threads.
Context {T : Type} (lock : nat -> T -> aprog unit) (unlock : T -> aprog unit).

Inductive phase := Outside | Locking (ty : T) (p : aprog unit) | Inside (ty : T) | Unlocking (ty : T) (p : aprog unit).

(** The memory, the threads, and the threads that have entered, oldest first. *)
Record lock_s := LockS { l_mem : bytes; l_threads : list phase; l_entered : list (nat * T) }.

(** Thread [i] goes on: with its next access, into the critical section, or out of it. *)
Definition lock_go (i : nat) (s : lock_s) : option lock_s :=
  let 'LockS m ts h := s in
  match ts !! i with
  | Some (Locking ty (AAct a k)) =>
      match perform a m with Some (v, m') => Some (LockS m' (<[i := Locking ty (k v)]> ts) h) | None => None end
  | Some (Locking ty (ARet _)) => Some (LockS m (<[i := Inside ty]> ts) (h ++ [(i, ty)]))
  | Some (Inside ty) => Some (LockS m (<[i := Unlocking ty (unlock ty)]> ts) h)
  | Some (Unlocking ty (AAct a k)) =>
      match perform a m with Some (v, m') => Some (LockS m' (<[i := Unlocking ty (k v)]> ts) h) | None => None end
  | Some (Unlocking ty (ARet _)) => Some (LockS m (<[i := Outside]> ts) h)
  | _ => None
  end.

(** Thread [i] begins to take the lock. *)
Definition lock_begin (i : nat) (ty : T) (fuel : nat) (s : lock_s) : option lock_s :=
  let 'LockS m ts h := s in
  match ts !! i with Some Outside => Some (LockS m (<[i := Locking ty (lock fuel ty)]> ts) h) | _ => None end.

Inductive lock_step : lock_s -> lock_s -> Prop :=
  | lock_step_begin i ty fuel s s' : lock_begin i ty fuel s = Some s' -> lock_step s s'
  | lock_step_go i s s' : lock_go i s = Some s' -> lock_step s s'.

Definition lock_start (m : bytes) (n : nat) : lock_s := LockS m (replicate n Outside) [].

(** A schedule: who begins, and who goes on. *)
Fixpoint lock_play (l : list (nat * option T)) (s : lock_s) : option lock_s :=
  match l with
  | [] => Some s
  | (i, c) :: l =>
      match (match c with Some ty => lock_begin i ty 9 s | None => lock_go i s end) with
      | Some s => lock_play l s
      | None => None
      end
  end.

Lemma lock_play_steps l s s' : lock_play l s = Some s' -> rtc lock_step s s'.
Proof.
  revert s. induction l as [|[i c] l IH]; intros s; cbn [lock_play]; [by intros [= ->]|].
  destruct c as [ty|].
  - destruct (lock_begin i ty 9 s) as [s1|] eqn:E; [|done]. intros Hl%IH. eapply rtc_l; [by eapply lock_step_begin|done].
  - destruct (lock_go i s) as [s1|] eqn:E; [|done]. intros Hl%IH. eapply rtc_l; [by eapply lock_step_go|done].
Qed.
End threads.
Arguments phase : clear implicits.
Arguments lock_s : clear implicits.

(** * The lock of pushers and poppers *)

(** Whose turn it is after [n] entries. *)
Definition turn (n : nat) : lock_type := if Nat.even n then NST_PUSH else NST_POP.

Lemma turn_S n ty : ty = turn n -> unlock_nval ty = lock_oval (turn (S n)).
Proof. intros ->. unfold turn. rewrite Nat.even_succ, <- Nat.negb_even. by destruct (Nat.even n). Qed.

Lemma turn_oval ty n : lock_oval ty = lock_oval (turn n) -> ty = turn n.
Proof. unfold turn. by destruct ty, (Nat.even n). Qed.

(** A thread that is trying to take the lock: accesses that change nothing, until one finds
    the value [oval] and makes it NST_BUSY. *)
Fixpoint acquiring (lock oval : Z) (p : aprog unit) : Prop :=
  match p with
  | ARet _ => False
  | AAct a k => forall v, in_pat (size a) v ->
      silent a v /\ acquiring lock oval (k v) \/
      (size a = 4%nat /\ addr a = lock /\ v = oval /\ pat 4 (upd a v) = NST_BUSY) /\ fin tt (k v)
  | AFail e => e = OutOfFuel
  end.

Definition cas_spec (lock oval nval : Z) : aspec bool :=
  Spec 4 lock (fun v => if ival 4 true v =? ival 4 true oval then nval else v) (fun v => ival 4 true v =? ival 4 true oval).

Lemma int_eqb v o : in_pat 4 v -> 0 <= o < 2 ^ 31 -> (ival 4 true v =? ival 4 true o) = (v =? o).
Proof.
  intros Hv Ho. apply eq_true_iff_eq. rewrite !Z.eqb_eq. split; [|by intros ->].
  intros E. apply (f_equal (pat 4)) in E. rewrite !pat_ival, (pat_small 4 v), (pat_small 4 o) in E; [done| |done].
  change (2 ^ (8 * Z.of_nat 4)) with (2 ^ 32). lia.
Qed.

Lemma acquiring_fin lock oval {A} (r : A) p (h : A -> aprog unit) :
  fin r p -> acquiring lock oval (h r) -> acquiring lock oval (p ≫= h).
Proof.
  intros Hf Hh. induction p as [a|a k IH|e]; [|intros v Hv|done].
  - simpl in Hf. by subst.
  - left. split; [by apply Hf|by apply IH, Hf].
Qed.

Lemma acquiring_cas lock oval p (h : bool -> aprog unit) : 0 <= oval < 2 ^ 31 ->
  lin (cas_spec lock oval NST_BUSY) p -> h true = ARet tt -> acquiring lock oval (h false) ->
  acquiring lock oval (p ≫= h).
Proof.
  intros Ho Hl Ht Hf. induction p as [b|a k IH|e]; [done| |done]. intros v Hv.
  destruct (Hl v Hv) as [[Hs Hl']|[(En & Ea & Ev) Hfin]]; [left; split; [done|by apply IH]|].
  cbn [s_size s_addr s_new s_res cas_spec] in *. rewrite En in Hv, Ev.
  rewrite int_eqb in Ev, Hfin by done. destruct (Z.eqb_spec v oval) as [->|].
  - right. split; [done|]. by eapply fin_bind.
  - left. split; [|by eapply acquiring_fin]. unfold silent. rewrite En, Ev. by apply pat_small.
Qed.

Lemma lock_oval_range ty : 0 <= lock_oval ty < 2 ^ 31.
Proof. by destruct ty. Qed.

Lemma unlock_nval_range ty : in_pat 4 (unlock_nval ty).
Proof. by destruct ty. Qed.

Section nst.
Context (b : build) (Hb : b = USE_STD \/ b = USE_GCC) (lock : Z).

Lemma lock_acquiring fuel ty : acquiring lock (lock_oval ty) (NST_PP_LOCK b lock fuel ty).
Proof using Hb.
  induction fuel as [|fuel IH]; [done|]. apply acquiring_cas; [apply lock_oval_range| |done|done].
  apply (catomic_c11 b 4 true lock (lock_oval ty) NST_BUSY Hb).
Qed.

Definition releasing (ty : lock_type) : aprog unit -> Prop := lin (Spec 4 lock (fun _ => unlock_nval ty) (fun _ => tt)).

Lemma unlock_releasing ty : releasing ty (NST_PP_UNLOCK b lock ty).
Proof using Hb. apply (catomic_c11 b 4 true lock 0 (unlock_nval ty) Hb). Qed.

(** A thread that does not hold the lock, and one that does when [n] threads have entered. *)
Definition passive (p : phase lock_type) : Prop :=
  match p with
  | Outside => True
  | Locking ty p => acquiring lock (lock_oval ty) p
  | Inside _ => False
  | Unlocking _ p => fin tt p
  end.

Definition holder (n : nat) (p : phase lock_type) : Prop :=
  match p with
  | Outside => False
  | Locking ty p => fin tt p /\ ty = turn n
  | Inside ty => exists k, n = S k /\ ty = turn k
  | Unlocking ty p => releasing ty p /\ exists k, n = S k /\ ty = turn k
  end.

Record nst_inv (own : option nat) (s : lock_s lock_type) : Prop := {
  ni_mem : mem_ok (l_mem s);
  ni_log k i ty : l_entered s !! k = Some (i, ty) -> ty = turn k;
  ni_lock : rd (l_mem s) lock 4 =
    Some (match own with Some _ => NST_BUSY | None => lock_oval (turn (length (l_entered s))) end);
  ni_passive i p : l_threads s !! i = Some p -> own <> Some i -> passive p;
  ni_holder i : own = Some i -> exists p, l_threads s !! i = Some p /\ holder (length (l_entered s)) p;
}.

(** Thread [i] changes its phase, and nothing else. *)
Lemma nst_phase own m ts h i p p' : nst_inv own (LockS m ts h) -> ts !! i = Some p ->
  (own <> Some i -> passive p -> passive p') -> (own = Some i -> holder (length h) p -> holder (length h) p') ->
  nst_inv own (LockS m (<[i := p']> ts) h).
Proof.
  intros [H1 H2 H3 H4 H5] Hi Hp Hh. cbn [l_mem l_threads l_entered] in *. split; cbn [l_mem l_threads l_entered]; try done.
  - intros j q. rewrite list_lookup_insert_Some. intros [(<- & <- & _)|[? Hj]]; eauto.
  - intros j Hj. destruct (H5 j Hj) as (q & Hq & Hqh). destruct (decide (i = j)) as [<-|].
    + exists p'. rewrite list_lookup_insert_eq by (by eapply lookup_lt_Some). split; [done|]. apply Hh; [done|]. congruence.
    + exists q. by rewrite list_lookup_insert_ne.
Qed.

Lemma perform_inv m a v m' : mem_ok m -> perform a m = Some (v, m') ->
  rd m (addr a) (size a) = Some v /\ in_pat (size a) v /\ m' = wr m (addr a) (size a) (upd a v) /\ (silent a v -> m' = m).
Proof.
  intros Hm Hp. unfold perform in Hp. destruct (rd m (addr a) (size a)) as [w|] eqn:E; [|done]. injection Hp as -> <-.
  split; [done|]. split; [by eapply rd_range|]. split; [done|]. intros Hs. rewrite <- wr_pat, Hs. by apply wr_rd.
Qed.

(** The lock takes a new value and thread [i] a new phase. *)
Lemma nst_write own own' m ts h i p' a v : nst_inv own (LockS m ts h) -> is_Some (ts !! i) -> size a = 4%nat -> addr a = lock ->
  own = None \/ own = Some i ->
  pat 4 (upd a v) = match own' with Some _ => NST_BUSY | None => lock_oval (turn (length h)) end ->
  own' = None /\ passive p' \/ own' = Some i /\ holder (length h) p' ->
  nst_inv own' (LockS (wr m (addr a) (size a) (upd a v)) (<[i := p']> ts) h).
Proof.
  intros [H1 H2 H3 H4 H5] [p Hi] Es Ea Ho Ev Hc. cbn [l_mem l_threads l_entered] in *. rewrite Es, Ea.
  split; cbn [l_mem l_threads l_entered]; [by apply wr_ok|done|by rewrite rd_wr, Ev|..].
  - intros j q. rewrite list_lookup_insert_Some. intros [(<- & <- & _)|[Hne Hj]] Hown.
    + destruct Hc as [[_ ?]|[-> _]]; done.
    + apply (H4 j q Hj). destruct Ho as [-> | ->]; [done|congruence].
  - intros j ->. destruct Hc as [[? _]|[[= <-] Hh]]; [done|]. exists p'. split; [|done].
    apply list_lookup_insert_eq. by eapply lookup_lt_Some.
Qed.

Lemma nst_act_locking own m ts h i ty a k v m' :
  nst_inv own (LockS m ts h) -> ts !! i = Some (Locking ty (AAct a k)) -> perform a m = Some (v, m') ->
  exists own', nst_inv own' (LockS m' (<[i := Locking ty (k v)]> ts) h).
Proof.
  intros HI Hi Hp. destruct (perform_inv m _ _ _ (ni_mem _ _ HI) Hp) as (Hr & Hv & Em & Hs).
  destruct (decide (own = Some i)) as [->|Hne].
  - destruct (ni_holder _ _ HI i eq_refl) as (p & E & Hh). cbn [l_threads] in E. assert (p = Locking ty (AAct a k)) as -> by congruence.
    destruct Hh as [Hf Ht]. destruct (Hf v Hv) as [Hsil Hf']. rewrite (Hs Hsil). exists (Some i). by eapply nst_phase.
  - pose proof (ni_passive _ _ HI i _ Hi Hne) as Ha. destruct (Ha v Hv) as [[Hsil Ha']|[(Es & Ea & Evl & Eu) Hf]].
    + rewrite (Hs Hsil). exists own. by eapply nst_phase.
    + exists (Some i). rewrite Em. pose proof (ni_lock _ _ HI) as Hl. cbn [l_mem l_entered] in Hl.
      rewrite Es, Ea, Hl in Hr. destruct own as [j|]; [injection Hr as Hr; subst v; by destruct ty|].
      eapply nst_write; [exact HI|by eexists|done|done|by left|done|]. right. split; [done|]. split; [done|].
      apply turn_oval. congruence.
Qed.

Lemma nst_act_unlocking own m ts h i ty a k v m' :
  nst_inv own (LockS m ts h) -> ts !! i = Some (Unlocking ty (AAct a k)) -> perform a m = Some (v, m') ->
  exists own', nst_inv own' (LockS m' (<[i := Unlocking ty (k v)]> ts) h).
Proof.
  intros HI Hi Hp. destruct (perform_inv m _ _ _ (ni_mem _ _ HI) Hp) as (Hr & Hv & Em & Hs).
  destruct (decide (own = Some i)) as [->|Hne].
  - destruct (ni_holder _ _ HI i eq_refl) as (p & E & Hh). cbn [l_threads] in E. assert (p = Unlocking ty (AAct a k)) as -> by congruence.
    destruct Hh as [Hrel (j & El & Ht)]. cbn [l_entered] in El.
    destruct (Hrel v Hv) as [[Hsil Hrel']|[(Es & Ea & Eu) Hf]].
    + rewrite (Hs Hsil). exists (Some i). eapply nst_phase; [done..|]. intros _ _. split; [done|]. by exists j.
    + exists None. rewrite Em. cbn [s_size s_addr s_new] in *.
      eapply nst_write; [exact HI|by eexists|done|done|by right| |by left].
      rewrite Es in Eu. rewrite Eu, El, (turn_S j ty Ht). apply pat_small. rewrite <- (turn_S j ty Ht). apply unlock_nval_range.
  - pose proof (ni_passive _ _ HI i _ Hi Hne) as Ha. destruct (Ha v Hv) as [Hsil Ha'].
    rewrite (Hs Hsil). exists own. by eapply nst_phase.
Qed.

Lemma nst_step own s s' : nst_inv own s -> lock_step (NST_PP_LOCK b lock) (NST_PP_UNLOCK b lock) s s' -> exists own', nst_inv own' s'.
Proof using Hb.
  intros HI Hst. revert HI. destruct Hst as [i ty fuel [m ts h] s1 E|i [m ts h] s1 E]; intros HI; cbn [lock_begin lock_go] in E.
  - destruct (ts !! i) as [[| | |]|] eqn:Hi; try done. injection E as <-. exists own. eapply nst_phase; [done..| |by intros _ []].
    intros _ _. apply lock_acquiring.
  - destruct (ts !! i) as [[|ty [[]|a k|]|ty|ty [[]|a k|]]|] eqn:Hi; try done.
    + injection E as <-. destruct (decide (own = Some i)) as [->|Hne]; [|by pose proof (ni_passive _ _ HI i _ Hi Hne)].
      destruct HI as [H1 H2 H3 H4 H5]. cbn [l_mem l_threads l_entered] in *. exists (Some i).
      destruct (H5 i eq_refl) as (p & E & Hh). assert (p = Locking ty (ARet tt)) as -> by congruence. destruct Hh as [_ Ht].
      split; cbn [l_mem l_threads l_entered]; [done| |done|..].
      * intros k j ty'. rewrite lookup_app_Some. intros [|[Hk Hj]]; [eauto|].
        apply list_lookup_singleton_Some in Hj as [? [= <- <-]]. by replace k with (length h) by lia.
      * intros j q. rewrite list_lookup_insert_Some. intros [(<- & <- & _)|[? Hj]]; [done|eauto].
      * intros j [= <-]. eexists. rewrite list_lookup_insert_eq by (by eapply lookup_lt_Some). split; [done|].
        exists (length h). rewrite length_app. split; [simpl; lia|done].
    + destruct (perform a m) as [[v m']|] eqn:Ep; [|done]. injection E as <-. by eapply nst_act_locking.
    + injection E as <-. exists own. eapply nst_phase; [done..|]. intros _ ?. split; [apply unlock_releasing|done].
    + injection E as <-. exists own. eapply nst_phase; [done..|]. by intros _ [? _].
    + destruct (perform a m) as [[v m']|] eqn:Ep; [|done]. injection E as <-. by eapply nst_act_unlocking.
Qed.

Lemma nst_start m n : mem_ok m -> rd m lock 4 = Some NST_EMPTY -> nst_inv None (lock_start m n).
Proof.
  intros Hm Hl. split; cbn [l_mem l_threads l_entered lock_start]; try done.
  intros i p [-> _]%lookup_replicate. done.
Qed.

Lemma nst_reach m n s : mem_ok m -> rd m lock 4 = Some NST_EMPTY ->
  rtc (lock_step (NST_PP_LOCK b lock) (NST_PP_UNLOCK b lock)) (lock_start m n) s -> exists own, nst_inv own s.
Proof using Hb.
  intros Hm Hl Hr. pose proof (ex_intro (fun o => nst_inv o _) None (nst_start m n Hm Hl)) as H0.
  induction Hr as [|s1 s2 s3 Hs _ IH]; [done|]. apply IH. destruct H0 as [own H0]. by eapply nst_step.
Qed.

(** When nobody holds the lock, whoever's turn it is takes it at the first attempt. *)
Lemma nst_free_take s fuel : nst_inv None s ->
  arun (NST_PP_LOCK b lock (S fuel) (turn (length (l_entered s)))) (l_mem s) = inl (tt, wr (l_mem s) lock 4 NST_BUSY).
Proof using Hb.
  intros HI. cbn [NST_PP_LOCK]. rewrite arun_bind.
  destruct (catomic_c11 b 4 true lock (lock_oval (turn (length (l_entered s)))) NST_BUSY Hb) as [[_ Hrun] _].
  rewrite (Hrun _ _ (ni_mem _ _ HI) (ni_lock _ _ HI)). cbn [s_res s_new s_addr s_size]. by rewrite Z.eqb_refl.
Qed.
End nst.

(** C20: The lock of pushers and poppers, compiled with the C11 atomics or with those of
    GCC (USE_STD and USE_GCC of catomic.h), whatever the threads do: at most one of them
    is in a critical section; the entries are a push, a pop, a push, and so on, in turn;
    and when no thread is at the lock, one whose turn it is takes it at the first
    attempt. The other two builds are left out because their compare-and-swap excludes
    nobody: in USE_MSVC it does not store ([msvc_cas_no_store]), in USE_NONE it is a
    load and a store ([catomic_none_races]). *)
Theorem nst_lock_alternates b lock m m0 n s :
  b = USE_STD \/ b = USE_GCC -> mem_ok m -> is_Some (rd m lock 4) -> arun (NST_LOCK_INIT b lock) m = inl (tt, m0) ->
  rtc (lock_step (NST_PP_LOCK b lock) (NST_PP_UNLOCK b lock)) (lock_start m0 n) s ->
  (forall i j t t', l_threads s !! i = Some (Inside t) -> l_threads s !! j = Some (Inside t') -> i = j) /\
  (forall k i t, l_entered s !! k = Some (i, t) -> t = turn k) /\
  (Forall (fun p => p = Outside) (l_threads s) -> forall fuel,
     arun (NST_PP_LOCK b lock (S fuel) (turn (length (l_entered s)))) (l_mem s) = inl (tt, wr (l_mem s) lock 4 NST_BUSY)).
Proof.
  intros Hb Hm [v Hv] Hinit Hr.
  assert (m0 = wr m lock 4 NST_EMPTY) as ->.
  { destruct (catomic_c11 b 4 true lock 0 NST_EMPTY Hb) as (_ & _ & [_ Hrun] & _).
    unfold NST_LOCK_INIT in Hinit. rewrite (Hrun _ _ Hm Hv) in Hinit. by injection Hinit as <-. }
  destruct (nst_reach b Hb lock _ n s (wr_ok m lock 4 NST_EMPTY Hm)) as [own HI]; [by rewrite rd_wr|done|].
  split_and!; [|apply (ni_log _ _ _ HI)|].
  - intros i j t t' Hi Hj. destruct (decide (own = Some i)) as [->|Hne]; [|by pose proof (ni_passive _ _ _ HI i _ Hi Hne)].
    destruct (decide (Some i = Some j)) as [[= <-]|Hne]; [done|by pose proof (ni_passive _ _ _ HI j _ Hj Hne)].
  - intros Hall fuel. apply nst_free_take; [done|]. destruct own as [i|]; [|done].
    destruct (ni_holder _ _ _ HI i eq_refl) as (p & Hp & Hh). by rewrite (Forall_lookup_1 _ _ _ _ Hall Hp) in Hh.
Qed.

(** * A concrete execution

    Three threads: 0 pushes, 1 pops, and 2 tries to push meanwhile. *)
Definition lock_run {T} (lock : nat -> T -> aprog unit) (unlock : T -> aprog unit) (l : list (nat * option T)) (s : lock_s T) : lock_s T :=
  default s (lock_play lock unlock l s).

Lemma lock_run_steps {T} lock unlock (l : list (nat * option T)) s :
  bool_decide (is_Some (lock_play lock unlock l s)) = true -> rtc (lock_step lock unlock) s (lock_run lock unlock l s).
Proof.
  intros H. apply (lock_play_steps _ _ l). unfold lock_run. destruct (lock_play lock unlock l s); [done|].
  by rewrite bool_decide_false in H by by intros [].
Qed.

Definition ex_lock_m : bytes := list_to_map ((fun i => (100 + Z.of_nat i, 0)) <$> seq 0 4).

Definition ex_lock_schedule : list (nat * option lock_type) :=
  [(1%nat, Some NST_POP); (1%nat, None); (0%nat, Some NST_PUSH); (0%nat, None); (2%nat, Some NST_PUSH); (2%nat, None);
   (0%nat, None); (2%nat, None); (0%nat, None); (0%nat, None); (0%nat, None); (1%nat, None); (2%nat, None); (1%nat, None)].

Definition ex_lock_run : lock_s lock_type :=
  lock_run (NST_PP_LOCK USE_STD 100) (NST_PP_UNLOCK USE_STD 100) ex_lock_schedule (lock_start (wr ex_lock_m 100 4 0) 3).

Lemma nst_lock_alternates_witness : l_entered ex_lock_run = [(0%nat, NST_PUSH); (1%nat, NST_POP)] /\
  l_threads ex_lock_run !! 1%nat = Some (Inside NST_POP) /\
  (forall i t, l_threads ex_lock_run !! i = Some (Inside t) -> i = 1%nat).
Proof.
  split; [by vm_compute|]. assert (l_threads ex_lock_run !! 1%nat = Some (Inside NST_POP)) as H1 by by vm_compute.
  split; [done|]. intros i t Hi.
  destruct (nst_lock_alternates USE_STD 100 ex_lock_m (wr ex_lock_m 100 4 0) 3 ex_lock_run) as (Hx & _ & _).
  - by left.
  - apply (bool_decide_unpack _). by vm_compute.
  - by eexists.
  - by vm_compute.
  - apply lock_run_steps. by vm_compute.
  - exact (Hx i 1%nat t NST_POP Hi H1).
Defined.

(** * The spin lock *)

(** The loop of [SPIN_LOCK] has its condition the wrong way round: it ends when the flag
    was set already. A thread takes a lock that is held at its first attempt, and
    two threads are in their critical sections at the same time. *)
Theorem spin_lock_no_exclusion b : b = USE_STD \/ b = USE_GCC ->
  (forall lock m v fuel, mem_ok m -> rd m lock 1 = Some v -> v <> 0 ->
     arun (SPIN_LOCK b lock (S fuel)) m = inl (tt, wr m lock 1 1)) /\
  (forall lock m, mem_ok m -> rd m lock 1 = Some 0 -> arun (SPIN_LOCK b lock 1) m = inr OutOfFuel) /\
  exists m s, rd m 100 1 = Some 0 /\
    rtc (lock_step (fun fuel _ => SPIN_LOCK b 100 fuel) (fun _ : unit => SPIN_UNLOCK b 100)) (lock_start m 2) s /\
    l_threads s = [Inside tt; Inside tt].
Proof.
  intros Hb. assert (forall lock, implements (Spec 1 lock (fun _ => 1) (fun v => negb (v =? 0))) (ATOMIC_FLAG_TAS b lock)) as Ht.
  { intros lock. by destruct (catomic_c11 b 1 true lock 0 0 Hb) as (_ & _ & _ & _ & ? & _). }
  split_and!.
  - intros lock m v fuel Hm Hv Hne. cbn [SPIN_LOCK]. rewrite arun_bind, (im_alone _ _ (Ht lock) _ _ Hm Hv). cbn [s_res].
    by rewrite (proj2 (Z.eqb_neq _ _)).
  - intros lock m Hm Hv. cbn [SPIN_LOCK]. by rewrite arun_bind, (im_alone _ _ (Ht lock) _ _ Hm Hv).
  - set (l := [(0%nat, Some tt); (0%nat, None); (0%nat, None); (0%nat, None); (1%nat, Some tt); (1%nat, None); (1%nat, None)]).
    exists {[100 := 0]}, (lock_run (fun fuel _ => SPIN_LOCK b 100 fuel) (fun _ => SPIN_UNLOCK b 100) l (lock_start {[100 := 0]} 2)).
    destruct Hb as [-> | ->]; (split; [by vm_compute|]; split; [apply lock_run_steps; by vm_compute|by vm_compute]).
Qed.

Lemma spin_lock_no_exclusion_witness : exists m s, rd m 100 1 = Some 0 /\
  rtc (lock_step (fun fuel _ => SPIN_LOCK USE_GCC 100 fuel) (fun _ : unit => SPIN_UNLOCK USE_GCC 100)) (lock_start m 2) s /\
  l_threads s = [Inside tt; Inside tt].
Proof. apply (spin_lock_no_exclusion USE_GCC). by right. Defined.
