(* ===== verification/Datatype.v ===== *)
(** Key types: the [datatype_t] interface of [datatype/datatype.h], MurmurHash2
    ([datatype/murmur.h]) and the length-prefixed strings of
    [datatype/nstring.c]. *)
From S2P Require Import Prelude Random Machine.

(** A key type is a comparison, a hash and a clone function on key words; the
    functions may read and allocate memory. [None] in place of a [datatype]
    is the [NULL] key type of integer keys. *)
Record datatype := Datatype {
  cmp : Z -> Z -> prog Z;
  hash : Z -> prog Z;
  clone : Z -> prog Z;
}.

(** The comparison of an item's key with [key] in the searches of the list and the
    skiplists: an [int]. *)
Definition key_diff (kt : option datatype) (item_key key : Z) : prog Z :=
  match kt with
  | None => Ret (s32 (u64 (item_key - key)))
  | Some dt => cmp dt item_key key
  end.

(** The pairs of keys an ordered map may hold together: the [int] of [key_diff]
    has the sign of the difference only if they are less than 2^31
    apart. *)
Definition key_window (base k : Z) : Prop := base <= k < base + 2 ^ 31.

Lemma window_diff base k key :
  key_window base k -> key_window base key -> s32 (u64 (k - key)) = k - key.
Proof. unfold key_window. intros. apply s32_u64_sub. lia. Qed.

(** * MurmurHash2 *)

Definition murmur_m : Z := 0x5bd1e995.

(** [k *= m; k ^= k >> 24; k *= m;] in [uint32_t]. *)
Definition murmur_mix (k : Z) : Z :=
  let k := u32 (k * murmur_m) in
  let k := Z.lxor k (Z.shiftr k 24) in
  u32 (k * murmur_m).

(** [h *= m; h ^= k;] *)
Definition murmur_round (h k : Z) : Z := Z.lxor (u32 (h * murmur_m)) k.

(** [h ^= h >> 13; h *= m; h ^= h >> 15;] *)
Definition murmur_final (h : Z) : Z :=
  let h := Z.lxor h (Z.shiftr h 13) in
  let h := u32 (h * murmur_m) in
  Z.lxor h (Z.shiftr h 15).

(** The loop [while (len >= 4)] followed by the fall-through [switch (len)]. *)
Fixpoint murmur_body (h : Z) (data : list Z) : Z :=
  match data with
  | d0 :: d1 :: d2 :: d3 :: data' =>
      murmur_body (murmur_round h (murmur_mix (load_le32 [d0; d1; d2; d3]))) data'
  | [d0; d1; d2] =>
      u32 (Z.lxor (Z.lxor (Z.lxor h (Z.shiftl d2 16)) (Z.shiftl d1 8)) d0 * murmur_m)
  | [d0; d1] => u32 (Z.lxor (Z.lxor h (Z.shiftl d1 8)) d0 * murmur_m)
  | [d0] => u32 (Z.lxor h d0 * murmur_m)
  | [] => h
  end.

(** [murmur32 (key, len)] on the bytes [key[0 .. len-1]]. *)
Definition murmur32 (key : list Z) : Z :=
  murmur_final (murmur_body (u32 (Z.of_nat (length key))) key).

Definition murmur32_8b (key : Z) : Z :=
  let h := 8 in
  let k1 := u32 (Z.shiftr key 32) in
  let k2 := u32 key in
  let k1 := murmur_mix k1 in
  let k2 := murmur_mix k2 in
  let h := murmur_round h k1 in
  let h := murmur_round h k2 in
  murmur_final h.

Definition murmur32_4b (key : Z) : Z :=
  let h := 4 in
  let k := murmur_mix key in
  let h := murmur_round h k in
  murmur_final h.

(** * Strings with their length *)

(** The words of an [nstring_t]: [len], then one word per character. *)
Definition NS_LEN : nat := 0.

Definition NS_DATA : nat := 1.

Definition ns_alloc (len : Z) : prog Z :=
  ns ⇐ malloc (NS_DATA + Z.to_nat len);
  _ ⇐ store ns NS_LEN len;
  Ret ns.

(** [memcmp] of [n] characters: the difference of the first two that differ. *)
Fixpoint memcmp (p q : Z) (i : nat) (n : nat) : prog Z :=
  match n with
  | O => Ret 0
  | S n =>
      a ⇐ load p i;
      b ⇐ load q i;
      if a =? b then memcmp p q (S i) n else Ret (a - b)
  end.

(** [memcpy] of [n] words from [src] to [dst], both starting at field [i]. *)
Fixpoint memcpy (dst src : Z) (i : nat) (n : nat) : prog unit :=
  match n with
  | O => Ret tt
  | S n =>
      v ⇐ load src i;
      _ ⇐ store dst i v;
      memcpy dst src (S i) n
  end.

Fixpoint load_words (p : Z) (i n : nat) : prog (list Z) :=
  match n with
  | O => Ret []
  | S n =>
      v ⇐ load p i;
      vs ⇐ load_words p (S i) n;
      Ret (v :: vs)
  end.

Definition ns_cmp (ns1 ns2 : Z) : prog Z :=
  len1 ⇐ load ns1 NS_LEN;
  len2 ⇐ load ns2 NS_LEN;
  d ⇐ memcmp ns1 ns2 NS_DATA (Z.to_nat (if len1 <? len2 then len1 else len1));
  Ret (if d =? 0 then s32 (u32 (len1 - len2)) else d).

Definition ns_hash (ns : Z) : prog Z :=
  len ⇐ load ns NS_LEN;
  data ⇐ load_words ns NS_DATA (Z.to_nat len);
  Ret (murmur32 data).

Definition ns_dup (ns1 : Z) : prog Z :=
  len1 ⇐ load ns1 NS_LEN;
  ns2 ⇐ ns_alloc len1;
  _ ⇐ memcpy ns2 ns1 NS_DATA (Z.to_nat len1);
  Ret ns2.

Definition DATATYPE_NSTRING : datatype := Datatype ns_cmp ns_hash ns_dup.

(** The string [bs] is stored at [p]. *)
Definition ns_rep (m : mem) (p : Z) (bs : list Z) : Prop :=
  heap m !! p = Some (Z.of_nat (length bs) :: bs).

(** The character list of a C string: each character a byte, the length an
    [int]. *)
Definition ns_ok (bs : list Z) : Prop :=
  Forall (fun b => 0 <= b < 2 ^ 8) bs /\ Z.of_nat (length bs) < 2 ^ 31.

(** * The hash functions *)

(** The little-endian bytes of a 32-bit word. *)
Definition le32 (k : Z) : list Z :=
  [k mod 2 ^ 8; k / 2 ^ 8 mod 2 ^ 8; k / 2 ^ 16 mod 2 ^ 8; k / 2 ^ 24 mod 2 ^ 8].

Lemma load_le32_le32 k : in_u32 k -> load_le32 (le32 k) = k.
Proof. intros. unfold load_le32, le32. rewrite !Z.shiftl_mul_pow2 by lia. zlia. Qed.

Lemma murmur_body_le32 h k data :
  in_u32 k -> murmur_body h (le32 k ++ data) = murmur_body (murmur_round h (murmur_mix k)) data.
Proof.
  intros Hk. unfold le32. cbn [app murmur_body]. do 2 f_equal. f_equal.
  apply (load_le32_le32 k Hk).
Qed.

(** The unrolled hash of a 64-bit integer key is MurmurHash2 of its eight
    bytes, the high half first, and the unrolled hash of a 32-bit key is
    MurmurHash2 of its four bytes. *)
Theorem murmur32_unrolled (key : Z) :
  in_u64 key ->
  murmur32_8b key = murmur32 (le32 (key / 2 ^ 32) ++ le32 (key mod 2 ^ 32)) /\
  murmur32_4b (key mod 2 ^ 32) = murmur32 (le32 (key mod 2 ^ 32)).
Proof.
  intros Hk. unfold murmur32. split.
  - rewrite murmur_body_le32 by zlia. rewrite <- (app_nil_r (le32 (key mod 2 ^ 32))).
    rewrite murmur_body_le32 by zlia. unfold murmur32_8b. rewrite Z.shiftr_div_pow2 by lia.
    rewrite (u32_small (key / 2 ^ 32)) by zlia. done.
  - rewrite <- (app_nil_r (le32 _)). rewrite murmur_body_le32 by zlia. done.
Qed.

Example murmur32_unrolled_witness :
  murmur32_8b 0x0123456789abcdef = murmur32 (le32 0x01234567 ++ le32 0x89abcdef) /\
  murmur32_4b 0x89abcdef = murmur32 (le32 0x89abcdef).
Proof. apply (murmur32_unrolled 0x0123456789abcdef). lia. Defined.

Lemma murmur_final_range h : in_u32 h -> in_u32 (murmur_final h).
Proof.
  intros. unfold murmur_final. apply lxor_u32; [apply u32_range|].
  apply shiftr_u32; [apply u32_range|lia].
Qed.

Lemma murmur_mix_range k : in_u32 (murmur_mix k).
Proof. apply u32_range. Qed.

Lemma murmur_round_range h k : in_u32 k -> in_u32 (murmur_round h k).
Proof. intros. by apply lxor_u32; [apply u32_range|]. Qed.

(** A 64-bit key hashes to a 32-bit word. *)
Lemma murmur32_8b_range key : in_u32 (murmur32_8b key).
Proof. apply murmur_final_range, murmur_round_range, murmur_mix_range. Qed.

(** * Strings *)

(** Comparing all the characters of [l1] with those of [l2] in order: the first
    difference, 0 when there is none, [None] when [l2] runs out first. *)
Fixpoint str_diff (l1 l2 : list Z) : option Z :=
  match l1, l2 with
  | [], _ => Some 0
  | _ :: _, [] => None
  | x :: l1, y :: l2 => if x =? y then str_diff l1 l2 else Some (x - y)
  end.

(** The lexicographic order of strings. *)
Fixpoint str_ltb (l1 l2 : list Z) : bool :=
  match l1, l2 with
  | _, [] => false
  | [], _ :: _ => true
  | x :: l1, y :: l2 => (x <? y) || (x =? y) && str_ltb l1 l2
  end.

Lemma str_diff_None l1 l2 : str_diff l1 l2 = None <-> l2 `prefix_of` l1 /\ (length l2 < length l1)%nat.
Proof.
  revert l2. induction l1 as [|x l1 IH]; intros [|y l2]; simpl.
  - split; [done|]. lia.
  - split; [done|]. lia.
  - split; [|done]. intros _. split; [apply prefix_nil|lia].
  - destruct (Z.eqb_spec x y) as [->|Hne].
    + rewrite IH. split; intros [Hp Hl].
      * split; [by apply prefix_cons|lia].
      * split; [by apply prefix_cons_inv_2 in Hp|lia].
    + split; [done|]. intros [Hp%prefix_cons_inv_1 _]. congruence.
Qed.

Lemma str_diff_Some l1 l2 d :
  str_diff l1 l2 = Some d ->
  let r := if d =? 0 then Z.of_nat (length l1) - Z.of_nat (length l2) else d in
  (r = 0 <-> l1 = l2) /\ (r < 0 <-> str_ltb l1 l2 = true).
Proof.
  revert l2. induction l1 as [|x l1 IH]; intros [|y l2]; simpl.
  - intros [= <-]. done.
  - intros [= <-]. simpl. split; split; try done; lia.
  - done.
  - destruct (Z.eqb_spec x y) as [->|Hne].
    + intros E. specialize (IH _ E) as [IH1 IH2]. rewrite Z.ltb_irrefl. simpl.
      assert (E' : y :: l1 = y :: l2 <-> l1 = l2) by (split; [by intros [= ->]|congruence]).
      rewrite E', <- IH1, <- IH2. destruct (d =? 0); lia.
    + intros [= <-]. rewrite (proj2 (Z.eqb_neq (x - y) 0)) by lia. simpl.
      rewrite orb_false_r, Z.ltb_lt. split; split; try lia; [congruence].
Qed.

Section strings.
Context `{Allocator}.
Implicit Types (m : mem) (bs : list Z).

(** Comparing the stored strings [bs1], [bs2] from character [i] on. *)
Lemma memcmp_run m p q (b1 b2 : block) i n :
  heap m !! p = Some b1 -> heap m !! q = Some b2 ->
  (i + n <= length b1)%nat ->
  run (memcmp p q i n) m =
    match str_diff (take n (drop i b1)) (drop i b2) with
    | Some d => Done d m
    | None => Failed SegFault
    end.
Proof.
  intros Hp Hq. revert i. induction n as [|n IH]; intros i Hi; [done|].
  destruct (lookup_lt_is_Some_2 b1 i ltac:(lia)) as [x Hx].
  rewrite (drop_S _ _ _ Hx). cbn [memcmp].
  rewrite run_bind, (run_load _ _ _ _ Hp), Hx, run_bind, (run_load _ _ _ _ Hq).
  destruct (b2 !! i) as [y|] eqn:Hy.
  - rewrite (drop_S _ _ _ Hy). cbn [take str_diff]. destruct (x =? y); [|done]. by rewrite IH by lia.
  - rewrite (drop_ge b2) by (by apply lookup_ge_None). done.
Qed.

Lemma load_words_run m p (b : block) i n :
  heap m !! p = Some b -> (i + n <= length b)%nat ->
  run (load_words p i n) m = Done (take n (drop i b)) m.
Proof.
  intros Hp. revert i. induction n as [|n IH]; intros i Hi; [done|].
  destruct (lookup_lt_is_Some_2 b i ltac:(lia)) as [x Hx]. cbn [load_words].
  rewrite run_bind, (run_load _ _ _ _ Hp), Hx.
  by rewrite (drop_S _ _ _ Hx), run_bind, IH by lia.
Qed.

Lemma wp_memcpy m p q (bp bq : block) i n :
  p <> q -> heap m !! p = Some bp -> heap m !! q = Some bq ->
  length bp = (i + n)%nat -> (i + n <= length bq)%nat ->
  wp (memcpy p q i n) m (fun _ m' =>
    m' = set_heap m (<[p := take i bp ++ take n (drop i bq)]> (heap m))).
Proof.
  intros Hne. revert m bp i. induction n as [|n IH]; intros m bp i Hp Hq Hlp Hlq.
  - apply wp_ret. rewrite take_ge, app_nil_r, insert_id, set_heap_same by (done || lia). done.
  - destruct (lookup_lt_is_Some_2 bq i ltac:(lia)) as [x Hx].
    cbn [memcpy]. wp_op. wp_op. eapply wp_mono.
    { eapply (IH _ (<[i := x]> bp) (S i)); simpl.
      - by simplify_map_eq.
      - by simplify_map_eq.
      - rewrite length_insert. lia.
      - lia. }
    intros _ m' ->. cbn [heap set_heap]. unfold set_heap; f_equal. simpl.
    rewrite insert_insert_eq. f_equal.
    rewrite (drop_S _ _ _ Hx). simpl.
    rewrite (take_S_r _ i x) by (apply list_lookup_insert_eq; lia).
    rewrite take_insert_ge by lia. by rewrite <- app_assoc.
Qed.

(** [ns_dup] allocates a fresh copy: the original is untouched, the copy
    holds the same characters and has the same hash. *)
Theorem ns_dup_ok m p bs q :
  ns_rep m p bs -> alloc (heap m) (1 + length bs) = Some q ->
  exists m', run (ns_dup p) m = Done q m' /\
    ns_rep m' p bs /\ ns_rep m' q bs /\ q <> p /\
    (forall a, a <> q -> heap m' !! a = heap m !! a) /\
    run (ns_hash q) m' = run (ns_hash p) m'.
Proof.
  intros Hp Ha. assert (Hqp : q <> p).
  { intros ->. apply alloc_fresh in Ha. unfold ns_rep in Hp. congruence. }
  enough (wp (ns_dup p) m (fun r m' => r = q /\ m' = set_heap m
      (<[q := Z.of_nat (length bs) :: bs]> (heap m)))) as Hw.
  { apply wp_run in Hw as (? & m' & E & -> & ->). eexists; split; [exact E|].
    unfold ns_rep in *. cbn [heap set_heap]. split_and!; [by rewrite lookup_insert_ne|by rewrite lookup_insert_eq|done| |].
    - intros. by rewrite lookup_insert_ne.
    - unfold ns_hash. rewrite !run_bind.
      erewrite !run_load by (by simplify_map_eq). simpl. rewrite !run_bind, Nat2Z.id.
      erewrite !load_words_run; [done|by simplify_map_eq|done|by simplify_map_eq|done]. }
  unfold ns_dup, ns_alloc. unfold ns_rep in Hp. wp_op.
  apply wp_bind. apply wp_bind. rewrite Nat2Z.id. eapply wp_malloc; [exact Ha|].
  intros Hfr _ Hlen. cbn [heap set_heap]. wp_op. { rewrite junk_length. unfold NS_LEN. lia. } wp_op.
  apply wp_bind. eapply wp_mono.
  { eapply (wp_memcpy _ q p (<[NS_LEN := _]> (junk (heap m) (NS_DATA + length bs)))
              (Z.of_nat (length bs) :: bs)); simpl; [done|..].
    - by simplify_map_eq.
    - by simplify_map_eq.
    - by rewrite length_insert.
    - done. }
  intros _ m' ->. apply wp_ret. split; [done|]. cbn [heap set_heap]. unfold set_heap; simpl. f_equal.
  rewrite !insert_insert_eq. f_equal.
  pose proof (junk_length (heap m) (S (length bs))) as Hj. simpl.
  destruct (junk (heap m) (S (length bs))) as [|j js]; [done|].
  simpl. by rewrite drop_0, take_ge by done.
Qed.

(** [ns_cmp] orders two strings lexicographically (0 exactly on equal
    strings, negative exactly when the first is smaller), except when the
    second string is a proper prefix of the first: then the comparison reads
    past the end of the second string. *)
Theorem ns_cmp_spec m p q bs1 bs2 :
  ns_rep m p bs1 -> ns_rep m q bs2 -> ns_ok bs1 -> ns_ok bs2 ->
  if decide (bs2 `prefix_of` bs1 /\ (length bs2 < length bs1)%nat)
  then run (ns_cmp p q) m = Failed SegFault
  else exists d, run (ns_cmp p q) m = Done d m /\
         (d = 0 <-> bs1 = bs2) /\ (d < 0 <-> str_ltb bs1 bs2 = true).
Proof.
  intros Hp Hq [_ Hl1] [_ Hl2]. unfold ns_cmp.
  rewrite run_bind, (run_load _ _ _ _ Hp). simpl. rewrite run_bind, (run_load _ _ _ _ Hq). simpl.
  rewrite run_bind.
  rewrite Tauto.if_same.
  rewrite Nat2Z.id, (memcmp_run _ _ _ _ _ _ _ Hp Hq) by (simpl; lia). simpl.
  rewrite !drop_0, take_ge by done. destruct (str_diff bs1 bs2) as [d|] eqn:E.
  - rewrite decide_False by (by rewrite <- str_diff_None, E).
    eexists; split; [done|]. rewrite s32_u32_sub by lia. by apply str_diff_Some.
  - by rewrite decide_True by (by apply str_diff_None).
Qed.
End strings.

Definition ns_mem : mem :=
  Mem (<[8 := [2; 97; 98]]> (<[16 := [1; 97]]> ∅)) [] rng0.

Example ns_dup_ok_witness :
  exists m', run (ns_dup 8) ns_mem = Done 24 m' /\
    ns_rep m' 8 [97; 98] /\ ns_rep m' 24 [97; 98] /\ 24 <> 8 /\
    (forall a, a <> 24 -> heap m' !! a = heap ns_mem !! a) /\
    run (ns_hash 24) m' = run (ns_hash 8) m'.
Proof. apply ns_dup_ok; reflexivity. Defined.

(** Comparing the string "ab" with its prefix "a" reads past the latter. *)
Example ns_cmp_spec_witness : run (ns_cmp 8 16) ns_mem = Failed SegFault.
Proof.
  assert (Hok : forall b, 0 <= b < 2 ^ 8 -> ns_ok [97; b] /\ ns_ok [97]).
  { intros. unfold ns_ok. simpl. split; (split; [repeat constructor; lia|lia]). }
  assert (Hr1 : ns_rep ns_mem 8 [97; 98]) by reflexivity.
  assert (Hr2 : ns_rep ns_mem 16 [97]) by reflexivity.
  pose proof (ns_cmp_spec ns_mem 8 16 [97; 98] [97] Hr1 Hr2
    (proj1 (Hok 98 ltac:(lia))) (proj2 (Hok 98 ltac:(lia)))) as E.
  rewrite decide_True in E by (split; [by exists [98]|simpl; lia]). exact E.
Defined.
