(* ===== verification/MapSpec.v ===== *)
(** The contract of a map ([map/map.h]): what lookup, compare-and-swap, removal
    and counting mean on a finite map from keys to values. The concrete maps are
    proved to refine it. *)
From S2P Require Import Prelude.

(** [CAS_EXPECT_*], as 64-bit values. *)
Definition CAS_EXPECT_DOES_NOT_EXIST : Z := 0.

Definition CAS_EXPECT_EXISTS : Z := u64 (-1).

Definition CAS_EXPECT_WHATEVER : Z := u64 (-2).

(** The value of a key, [DOES_NOT_EXIST] when there is none. *)
Definition lookup_spec (M : gmap Z Z) (k : Z) : Z := default DOES_NOT_EXIST (M !! k).

(** Whether the caller's expectation matches the current value [old] (0 when the
    key is absent). *)
Definition cas_matches (expectation old : Z) : bool :=
  (expectation =? CAS_EXPECT_WHATEVER)
  || (expectation =? old)
  || (expectation =? CAS_EXPECT_EXISTS) && negb (old =? DOES_NOT_EXIST).

(** Compare-and-swap: the previous value is returned in every case, the new one is
    stored when the expectation matches. *)
Definition cas_spec (M : gmap Z Z) (k expectation v : Z) : Z * gmap Z Z :=
  let old := lookup_spec M k in
  (old, if cas_matches expectation old then <[k := v]> M else M).

Definition remove_spec (M : gmap Z Z) (k : Z) : Z * gmap Z Z := (lookup_spec M k, delete k M).

(** The weaker compare-and-swap that the list and the lock-free skiplist perform:
    an expectation that names a particular value is not compared with the value
    found, it only requires that there is one. *)
Definition loose_cas_spec (M : gmap Z Z) (k expectation v : Z) : Z * gmap Z Z :=
  match M !! k with
  | Some old =>
      (old, if expectation =? CAS_EXPECT_DOES_NOT_EXIST then M else <[k := v]> M)
  | None =>
      (DOES_NOT_EXIST,
       if (expectation =? CAS_EXPECT_DOES_NOT_EXIST) || (expectation =? CAS_EXPECT_WHATEVER)
       then <[k := v]> M else M)
  end.

(** The two agree unless the caller names a value that is not the one stored. *)
Lemma loose_cas_agrees M k e v :
  map_Forall (fun _ x => 0 < x < 2 ^ 63) M ->
  (forall old, M !! k = Some old ->
     e = CAS_EXPECT_DOES_NOT_EXIST \/ e = CAS_EXPECT_EXISTS \/ e = CAS_EXPECT_WHATEVER \/ e = old) ->
  loose_cas_spec M k e v = cas_spec M k e v.
Proof.
  intros HM He. unfold loose_cas_spec, cas_spec, lookup_spec, cas_matches.
  destruct (M !! k) as [old|] eqn:E; simpl.
  - pose proof (HM _ _ E) as Hold. simpl in Hold. specialize (He _ eq_refl).
    unfold CAS_EXPECT_DOES_NOT_EXIST, DOES_NOT_EXIST in *.
    destruct He as [->|[->|[->| ->]]].
    + rewrite (proj2 (Z.eqb_neq 0 old)) by lia. done.
    + by rewrite Z.eqb_refl, (proj2 (Z.eqb_neq old 0)), orb_true_r by lia.
    + done.
    + rewrite Z.eqb_refl, orb_true_r, (proj2 (Z.eqb_neq old 0)) by lia. done.
  - unfold CAS_EXPECT_DOES_NOT_EXIST, DOES_NOT_EXIST. simpl. rewrite andb_false_r, orb_false_r.
    by rewrite orb_comm.
Qed.

(** The way the code tests an expectation against a value that exists, and against
    none. *)
Lemma cas_test e old :
  old <> DOES_NOT_EXIST ->
  (e =? CAS_EXPECT_DOES_NOT_EXIST) || negb (e =? CAS_EXPECT_WHATEVER) && negb (e =? CAS_EXPECT_EXISTS)
    && negb (e =? old) = negb (cas_matches e old).
Proof.
  intros Hold. unfold cas_matches. rewrite (proj2 (Z.eqb_neq old DOES_NOT_EXIST)) by done. cbn [negb].
  destruct (Z.eqb_spec e CAS_EXPECT_DOES_NOT_EXIST) as [->|].
  - unfold CAS_EXPECT_DOES_NOT_EXIST, DOES_NOT_EXIST in *. rewrite (proj2 (Z.eqb_neq 0 old)) by congruence. done.
  - destruct (e =? CAS_EXPECT_WHATEVER), (e =? CAS_EXPECT_EXISTS), (e =? old); done.
Qed.

Lemma cas_test_absent e :
  negb (e =? CAS_EXPECT_DOES_NOT_EXIST) && negb (e =? CAS_EXPECT_WHATEVER) =
  negb (cas_matches e DOES_NOT_EXIST).
Proof.
  unfold cas_matches. change DOES_NOT_EXIST with CAS_EXPECT_DOES_NOT_EXIST.
  destruct (e =? CAS_EXPECT_WHATEVER), (e =? CAS_EXPECT_EXISTS), (e =? CAS_EXPECT_DOES_NOT_EXIST); done.
Qed.
