(* ===== verification/LinkedList.v ===== *)
(** The Harris-Michael lock-free list of [map/list.c] (the RCU variant): the
    operations as programs of the machine, the representation of a list in the
    heap, and the refinement of every operation to a finite map. *)
From S2P Require Import Prelude Random Machine Datatype MapSpec.

(** The words of a [node_t] *)
Definition KEY : nat := 0.

Definition VAL : nat := 1.

Definition NEXT : nat := 2.

(** [struct ll]: both fields are set by [ll_alloc] and never change. *)
Record list_t := LL { ll_head : Z; ll_key_type : option datatype }.

(** [struct ll_iter] and its address *)
Record ll_iter_t := LLIter { ll_iter_addr : Z; ll_iter_pred : Z }.

Definition node_alloc (key val : Z) : prog Z :=
  item ⇐ malloc 3;
  _ ⇐ assert (negb (HAS_MARK item));
  _ ⇐ store item KEY key;
  _ ⇐ store item VAL val;
  Ret item.

Definition ll_alloc (key_type : option datatype) : prog list_t :=
  _ ⇐ malloc 2;
  head ⇐ node_alloc 0 0;
  _ ⇐ store head NEXT DOES_NOT_EXIST;
  Ret (LL head key_type).

(** The loop of [ll_free] *)
Fixpoint ll_free_loop (fuel : nat) (ll : list_t) (item : Z) : prog unit :=
  match fuel with
  | O => Fail OutOfFuel
  | S fuel =>
      if item =? 0 then Ret tt
      else
        n ⇐ load item NEXT;
        let next := STRIP_MARK n in
        _ ⇐ (match ll_key_type ll with
             | Some _ => k ⇐ load item KEY; nbd_free k
             | None => Ret 0
             end);
        _ ⇐ nbd_free item;
        ll_free_loop fuel ll next
  end.

Definition ll_free (fuel : nat) (ll : list_t) : prog unit :=
  n ⇐ load (ll_head ll) NEXT;
  ll_free_loop fuel ll (STRIP_MARK n).

(** The loop of [ll_count] *)
Fixpoint ll_count_loop (fuel : nat) (item count : Z) : prog Z :=
  match fuel with
  | O => Fail OutOfFuel
  | S fuel =>
      if item =? 0 then Ret count
      else
        n ⇐ load item NEXT;
        let count := if negb (HAS_MARK n) then u64 (count + 1) else count in
        n ⇐ load item NEXT;
        ll_count_loop fuel (STRIP_MARK n) count
  end.

Definition ll_count (fuel : nat) (ll : list_t) : prog Z :=
  n ⇐ load (ll_head ll) NEXT;
  ll_count_loop fuel (STRIP_MARK n) 0.

(** How the inner loop of [find_pred] ends: the list must be searched again from
    the head, or the search goes on with [item] and its link [next]. *)
Inductive scan := Retry | Continue (item next : Z).

(** [while (EXPECT_FALSE(HAS_MARK(next)))] *)
Fixpoint find_pred_marked (fuel : nat) (ll : list_t) (help_remove : bool) (pred item next : Z)
    : prog scan :=
  match fuel with
  | O => Fail OutOfFuel
  | S fuel =>
      if negb (HAS_MARK next) then Ret (Continue item next)
      else if negb help_remove then
        (* skip over logically removed items *)
        n ⇐ load item NEXT;
        let item := STRIP_MARK n in
        if item =? 0 then Ret (Continue item next)
        else
          next ⇐ load item NEXT;
          find_pred_marked fuel ll help_remove pred item next
      else
        (* unlink logically removed items *)
        other ⇐ SYNC_CAS pred NEXT item (STRIP_MARK next);
        if other =? item then
          let item := STRIP_MARK next in
          next ⇐ (if negb (item =? 0) then load item NEXT else Ret DOES_NOT_EXIST);
          _ ⇐ (match ll_key_type ll with
               | Some _ => k ⇐ load (GET_NODE other) KEY; rcu_defer_free k
               | None => Ret 0
               end);
          _ ⇐ rcu_defer_free (GET_NODE other);
          find_pred_marked fuel ll help_remove pred item next
        else if HAS_MARK other then Ret Retry
        else
          let item := GET_NODE other in
          next ⇐ (if negb (item =? 0) then load item NEXT else Ret DOES_NOT_EXIST);
          find_pred_marked fuel ll help_remove pred item next
  end.

(** The outer loop [while (item != NULL)]; [None] asks for a retry. The result is
    the value returned together with [*pred_ptr] and [*item_ptr];
    [no_item_ptr] says that the caller passed a null [item_ptr]. *)
Fixpoint find_pred_loop (fuel : nat) (ll : list_t) (key : Z) (help_remove no_item_ptr : bool)
    (pred item : Z) : prog (option (bool * Z * Z)) :=
  match fuel with
  | O => Fail OutOfFuel
  | S fuel =>
      let not_found := if no_item_ptr then Fail SegFault else Ret (Some (false, pred, 0)) in
      if item =? 0 then not_found
      else
        next ⇐ load item NEXT;
        s ⇐ find_pred_marked fuel ll help_remove pred item next;
        match s with
        | Retry => Ret None
        | Continue item next =>
            if item =? 0 then not_found
            else
              k ⇐ load item KEY;
              d ⇐ key_diff (ll_key_type ll) k key;
              if 0 <=? d then Ret (Some (d =? 0, pred, item))
              else find_pred_loop fuel ll key help_remove no_item_ptr item (GET_NODE next)
        end
  end.

Fixpoint find_pred_retry (tries fuel : nat) (ll : list_t) (key : Z) (help_remove no_item_ptr : bool)
    : prog (bool * Z * Z) :=
  match tries with
  | O => Fail OutOfFuel
  | S tries =>
      item ⇐ load (ll_head ll) NEXT;
      r ⇐ find_pred_loop fuel ll key help_remove no_item_ptr (ll_head ll) (GET_NODE item);
      match r with
      | Some res => Ret res
      | None => find_pred_retry tries fuel ll key help_remove no_item_ptr
      end
  end.

Definition find_pred (fuel : nat) := find_pred_retry fuel fuel.

Definition ll_lookup (fuel : nat) (ll : list_t) (key : Z) : prog Z :=
  r ⇐ find_pred fuel ll key false false;
  match r with
  | (found, _, item) =>
      if found then
        val ⇐ load item VAL;
        if negb (val =? DOES_NOT_EXIST) then Ret val else Ret DOES_NOT_EXIST
      else Ret DOES_NOT_EXIST
  end.

(** The inner loop of [ll_cas] on an item that matches the key: the value
    returned, or [None] to search again. *)
Fixpoint ll_cas_update (fuel : nat) (expectation new_val old_item old_item_val : Z) : prog (option Z) :=
  match fuel with
  | O => Fail OutOfFuel
  | S fuel =>
      if old_item_val =? DOES_NOT_EXIST then Ret None
      else if expectation =? CAS_EXPECT_DOES_NOT_EXIST then Ret (Some old_item_val)
      else
        ret_val ⇐ SYNC_CAS old_item VAL old_item_val new_val;
        if ret_val =? old_item_val then Ret (Some ret_val)
        else ll_cas_update fuel expectation new_val old_item ret_val
  end.

Fixpoint ll_cas_retry (tries fuel : nat) (ll : list_t) (key expectation new_val : Z) : prog Z :=
  match tries with
  | O => Fail OutOfFuel
  | S tries =>
      r ⇐ find_pred fuel ll key true false;
      match r with
      | (found, pred, old_item) =>
          if negb found then
            if negb (expectation =? CAS_EXPECT_DOES_NOT_EXIST)
               && negb (expectation =? CAS_EXPECT_WHATEVER)
            then Ret DOES_NOT_EXIST
            else
              new_key ⇐ (match ll_key_type ll with None => Ret key | Some dt => clone dt key end);
              new_item ⇐ node_alloc new_key new_val;
              _ ⇐ store new_item NEXT old_item;
              let next := old_item in
              other ⇐ SYNC_CAS pred NEXT next new_item;
              if other =? next then Ret DOES_NOT_EXIST
              else
                _ ⇐ (match ll_key_type ll with Some _ => nbd_free new_key | None => Ret 0 end);
                _ ⇐ nbd_free new_item;
                ll_cas_retry tries fuel ll key expectation new_val
          else
            old_item_val ⇐ load old_item VAL;
            u ⇐ ll_cas_update fuel expectation new_val old_item old_item_val;
            match u with
            | Some v => Ret v
            | None => ll_cas_retry tries fuel ll key expectation new_val
            end
      end
  end.

Definition ll_cas (fuel : nat) (ll : list_t) (key expectation new_val : Z) : prog Z :=
  _ ⇐ assert (0 <? s64 new_val);
  ll_cas_retry fuel fuel ll key expectation new_val.

(** The marking loop of [ll_remove]: [None] when the node was already marked,
    otherwise the unmarked link it had. *)
Fixpoint ll_remove_mark (fuel : nat) (item old_next : Z) : prog (option Z) :=
  match fuel with
  | O => Fail OutOfFuel
  | S fuel =>
      let next := old_next in
      old_next ⇐ SYNC_CAS item NEXT next (MARK_NODE (STRIP_MARK next));
      if HAS_MARK old_next then Ret None
      else if negb (next =? old_next) then ll_remove_mark fuel item old_next
      else Ret (Some next)
  end.

Definition ll_remove (fuel : nat) (ll : list_t) (key : Z) : prog Z :=
  r ⇐ find_pred fuel ll key true false;
  match r with
  | (found, pred, item) =>
      if negb found then Ret DOES_NOT_EXIST
      else
        old_next ⇐ load item NEXT;
        mk ⇐ ll_remove_mark fuel item old_next;
        match mk with
        | None => Ret DOES_NOT_EXIST
        | Some next =>
            n ⇐ load item NEXT;
            _ ⇐ assert (HAS_MARK n);
            val ⇐ SYNC_SWAP item VAL DOES_NOT_EXIST;
            other ⇐ SYNC_CAS pred NEXT item next;
            if negb (other =? item) then Ret val
            else
              _ ⇐ (match ll_key_type ll with
                   | Some _ => k ⇐ load item KEY; rcu_defer_free k
                   | None => Ret 0
                   end);
              _ ⇐ rcu_defer_free item;
              Ret val
        end
  end.

Definition ll_iter_begin (fuel : nat) (ll : list_t) (key : Z) : prog ll_iter_t :=
  iter ⇐ malloc 1;
  if negb (key =? DOES_NOT_EXIST) then
    r ⇐ find_pred fuel ll key false true;
    match r with (_, pred, _) => Ret (LLIter iter pred) end
  else Ret (LLIter iter (ll_head ll)).

(** [do { ... } while (HAS_MARK(item))]: the last link read, or [None] at the end
    of the list. *)
Fixpoint ll_iter_advance (fuel : nat) (pred : Z) : prog (option Z) :=
  match fuel with
  | O => Fail OutOfFuel
  | S fuel =>
      item ⇐ load pred NEXT;
      let pred := STRIP_MARK item in
      if pred =? 0 then Ret None
      else if HAS_MARK item then ll_iter_advance fuel pred
      else Ret (Some item)
  end.

(** [ll_iter_next]: the new iterator, the value returned and [*key_ptr] (0 when it
    is not written). *)
Definition ll_iter_next (fuel : nat) (iter : ll_iter_t) : prog (ll_iter_t * Z * Z) :=
  if ll_iter_pred iter =? 0 then Ret (iter, DOES_NOT_EXIST, 0)
  else
    i ⇐ ll_iter_advance fuel (ll_iter_pred iter);
    match i with
    | None => Ret (LLIter (ll_iter_addr iter) 0, DOES_NOT_EXIST, 0)
    | Some item =>
        key ⇐ load (GET_NODE item) KEY;
        val ⇐ load (GET_NODE item) VAL;
        Ret (LLIter (ll_iter_addr iter) (STRIP_MARK item), val, key)
    end.

Definition ll_iter_free (iter : ll_iter_t) : prog Z := nbd_free (ll_iter_addr iter).

(** * Representation

    A list in memory is the sequence of its nodes, the sentinel [head] first;
    [n_mark] is the mark of the node's own link (the node is logically removed). *)
Record lnode := LNode { n_addr : Z; n_key : Z; n_val : Z; n_mark : bool }.

Definition first_or (L : list lnode) (q : Z) : Z :=
  match L with [] => q | n :: _ => n_addr n end.

(** The nodes of [L] are linked in order and the last one points to [q]. *)
Fixpoint seg (h : heap_t) (L : list lnode) (q : Z) : Prop :=
  match L with
  | [] => True
  | n :: L' =>
      h !! n_addr n = Some [n_key n; n_val n; link (first_or L' q) (n_mark n)] /\ seg h L' q
  end.

Record wf_nodes (base : Z) (L : list lnode) : Prop := {
  wf_ptr : Forall (fun n => node_ptr (n_addr n)) L;
  wf_sorted : StronglySorted (fun a b => n_key a < n_key b) L;
  wf_keys : Forall (fun n => key_window base (n_key n)) L;
  wf_vals : Forall (fun n => n_mark n = false -> 0 < n_val n < 2 ^ 63) L;
}.

Definition head_node (ll : list_t) : lnode := LNode (ll_head ll) 0 0 false.

(** The list [ll] of integer keys holds the nodes [L] in memory [m]. *)
Record ll_rep (base : Z) (m : mem) (ll : list_t) (L : list lnode) : Prop := {
  rep_seg : seg (heap m) (head_node ll :: L) 0;
  rep_nodup : NoDup (n_addr <$> head_node ll :: L);
  rep_head : node_ptr (ll_head ll);
  rep_wf : wf_nodes base L;
  rep_int : ll_key_type ll = None;
}.

(** The finite map a list stands for: the nodes that are not marked. *)
Fixpoint abs (L : list lnode) : gmap Z Z :=
  match L with
  | [] => ∅
  | n :: L => if n_mark n then abs L else <[n_key n := n_val n]> (abs L)
  end.

Section seg_lemmas.
Implicit Types (h : heap_t) (L A B : list lnode).

Lemma first_or_app A B q : first_or (A ++ B) q = first_or A (first_or B q).
Proof. by destruct A. Qed.

Lemma seg_app h A B q : seg h (A ++ B) q <-> seg h A (first_or B q) /\ seg h B q.
Proof.
  induction A as [|n A IH]; simpl; [tauto|]. rewrite IH, first_or_app. tauto.
Qed.

Lemma seg_frame h L q a b : a ∉ n_addr <$> L -> seg h L q -> seg (<[a := b]> h) L q.
Proof.
  induction L as [|n L IH]; simpl; [done|]. intros Ha [Hn Hs].
  apply not_elem_of_cons in Ha as [Hne Ha]. rewrite lookup_insert_ne by done. auto.
Qed.

Lemma seg_lookup h A n B q :
  seg h (A ++ n :: B) q -> h !! n_addr n = Some [n_key n; n_val n; link (first_or B q) (n_mark n)].
Proof. intros [_ [Hn _]]%seg_app. done. Qed.

(** Rewriting the words of the node between two segments. *)
Lemma seg_relink h A n B q :
  n_addr n ∉ n_addr <$> A -> n_addr n ∉ n_addr <$> B ->
  seg h A (n_addr n) -> seg h B q ->
  seg (<[n_addr n := [n_key n; n_val n; link (first_or B q) (n_mark n)]]> h) (A ++ n :: B) q.
Proof.
  intros HnA HnB HA HB. apply seg_app; simpl. split_and!; [|apply lookup_insert_eq|];
    by apply seg_frame.
Qed.
End seg_lemmas.

(** * What a search finds *)

(** The link word of the first node of [R] (0 at the end of the list). *)
Definition link_of (R : list lnode) : Z :=
  match R with [] => 0 | n :: R' => link (first_or R' 0) (n_mark n) end.

Fixpoint drop_marked (R : list lnode) : list lnode :=
  match R with
  | [] => []
  | n :: R' => if n_mark n then drop_marked R' else R
  end.

Fixpoint marked_prefix (R : list lnode) : list lnode :=
  match R with
  | [] => []
  | n :: R' => if n_mark n then n :: marked_prefix R' else []
  end.

(** The live nodes a search for [key] walks past, the list from the node where it
    stops, and the marked nodes it meets on the way. *)
Fixpoint before (key : Z) (L : list lnode) : list lnode :=
  match L with
  | [] => []
  | n :: L' => if n_mark n then before key L'
               else if n_key n <? key then n :: before key L' else []
  end.

Fixpoint after (key : Z) (L : list lnode) : list lnode :=
  match L with
  | [] => []
  | n :: L' => if n_mark n then after key L'
               else if n_key n <? key then after key L' else L
  end.

Fixpoint met_marked (key : Z) (L : list lnode) : list lnode :=
  match L with
  | [] => []
  | n :: L' => if n_mark n then n :: met_marked key L'
               else if n_key n <? key then met_marked key L' else []
  end.

Definition hit (key : Z) (L : list lnode) : bool :=
  match L with [] => false | n :: _ => n_key n =? key end.

(** [L] without its first marked nodes, and its nodes restricted to those that
    are not marked. *)
Definition clean (L : list lnode) : Prop := Forall (fun n => n_mark n = false) L.

Lemma abs_before_after key L : abs (before key L ++ after key L) = abs L.
Proof.
  induction L as [|n L IH]; simpl; [done|]. destruct (n_mark n) eqn:Hm; [done|].
  destruct (n_key n <? key); simpl; rewrite Hm; [by rewrite IH|done].
Qed.

Lemma abs_app A B : abs (A ++ B) = abs A ∪ abs B.
Proof.
  induction A as [|n A IH]; simpl; [by rewrite (left_id_L ∅ (∪))|].
  destruct (n_mark n); [done|]. by rewrite IH, insert_union_l.
Qed.

Section nodes.
Context (base : Z).
Implicit Types (L A B : list lnode).

Lemma wf_nodes_app A B :
  wf_nodes base (A ++ B) <->
  wf_nodes base A /\ wf_nodes base B /\ (forall a b, a ∈ A -> b ∈ B -> n_key a < n_key b).
Proof.
  split.
  - intros [Hp Hs Hk Hv]. apply StronglySorted_app_iff in Hs as (? & ? & ?).
    rewrite Forall_app in Hp, Hk, Hv. destruct Hp, Hk, Hv.
    split_and!; [by constructor..|done].
  - intros ([Hp Hs Hk Hv] & [Hp' Hs' Hk' Hv'] & H). split; [..|apply StronglySorted_app_iff| |];
      rewrite ?Forall_app; auto.
Qed.

Lemma wf_nodes_cons n L :
  wf_nodes base (n :: L) <->
  wf_nodes base [n] /\ wf_nodes base L /\ (forall b, b ∈ L -> n_key n < n_key b).
Proof.
  change (n :: L) with ([n] ++ L). rewrite wf_nodes_app.
  split; intros (? & ? & H); (split_and!; [done..|]).
  - intros b Hb. apply H; [by left|done].
  - intros a b ->%list_elem_of_singleton Hb. by apply H.
Qed.

Lemma abs_lookup_Some L k v :
  abs L !! k = Some v -> exists n, n ∈ L /\ n_mark n = false /\ n_key n = k /\ n_val n = v.
Proof.
  induction L as [|n L IH]; simpl; [by rewrite lookup_empty|].
  intros Hl. assert (Hc : n_mark n = false /\ n_key n = k /\ n_val n = v \/ abs L !! k = Some v).
  { destruct (n_mark n); [by right|]. apply lookup_insert_Some in Hl. naive_solver. }
  destruct Hc as [?|?%IH]; [exists n; split; [left|]; naive_solver|].
  destruct H as (n' & ? & ?). exists n'. split; [by right|done].
Qed.

Lemma abs_lookup_None L k : (forall n, n ∈ L -> n_key n <> k) -> abs L !! k = None.
Proof.
  intros H. destruct (abs L !! k) eqn:E; [|done].
  apply abs_lookup_Some in E as (n & ? & _ & ? & _). by destruct (H n).
Qed.

(** In a sorted list, the map holds [key] exactly when the search hits it. *)
Lemma abs_after key L :
  wf_nodes base L ->
  abs L !! key = match after key L with
                 | n :: _ => if n_key n =? key then Some (n_val n) else None
                 | [] => None
                 end.
Proof.
  induction L as [|n L IH]; intros Hw; simpl; [done|].
  apply wf_nodes_cons in Hw as (_ & Hw & Hlt). specialize (IH Hw).
  destruct (n_mark n); [done|]. destruct (Z.ltb_spec (n_key n) key).
  - rewrite lookup_insert_ne by lia. done.
  - destruct (Z.eqb_spec (n_key n) key) as [->|]; [apply lookup_insert_eq|].
    rewrite lookup_insert_ne by done. apply abs_lookup_None. intros b Hb%Hlt. lia.
Qed.

Lemma before_subset key L n : n ∈ before key L -> n ∈ L /\ n_mark n = false /\ n_key n < key.
Proof.
  induction L as [|x L IH]; simpl; [by intros ?%not_elem_of_nil|].
  destruct (n_mark x) eqn:Hm; [intros ?%IH; split; [right|]; naive_solver|].
  destruct (Z.ltb_spec (n_key x) key); [|by intros ?%not_elem_of_nil].
  intros [->|?%IH]%elem_of_cons; [split; [left|done]|split; [right|]; naive_solver].
Qed.

Lemma after_suffix key L : exists P, L = P ++ after key L.
Proof.
  induction L as [|x L [P IH]]; simpl; [by exists []|].
  destruct (n_mark x); [exists (x :: P); simpl; congruence|].
  destruct (n_key x <? key); [exists (x :: P); simpl; congruence|by exists []].
Qed.

Lemma after_bound key L n :
  wf_nodes base L -> n ∈ after key L -> key <= n_key n.
Proof.
  induction L as [|x L IH]; simpl; [by intros _ ?%not_elem_of_nil|].
  intros (_ & Hw & Hlt)%wf_nodes_cons. destruct (n_mark x); [auto|].
  destruct (Z.ltb_spec (n_key x) key); [auto|].
  intros [->|?%Hlt]%elem_of_cons; lia.
Qed.
End nodes.

(** * Sequential behaviour

    One thread runs an operation on a list that may still hold marked nodes (left
    behind by a remover that lost the race to unlink them). *)
Section sequential.
Context `{Allocator} (base : Z).
Implicit Types (m : mem) (ll : list_t) (L R A : list lnode) (p n : lnode).

(** The node words and the shape facts of a represented list. *)
Lemma rep_lookup m ll L A p R :
  ll_rep base m ll L -> head_node ll :: L = A ++ p :: R ->
  heap m !! n_addr p = Some [n_key p; n_val p; link (first_or R 0) (n_mark p)].
Proof. intros [Hs _ _ _ _] E. rewrite E in Hs. by eapply seg_lookup. Qed.

Lemma rep_first_ptr m ll L A p R :
  ll_rep base m ll L -> head_node ll :: L = A ++ p :: R -> first_or R 0 = 0 \/ node_ptr (first_or R 0).
Proof.
  intros [_ _ _ [Hp _ _ _] _] E. destruct R as [|n R]; [by left|right]. simpl.
  assert (Hn : n ∈ L).
  { destruct A as [|a A]; simplify_eq/=; [left|]. apply elem_of_app. right. right. left. }
  rewrite Forall_forall in Hp. by apply Hp.
Qed.

Lemma rep_ptr m ll L A p R :
  ll_rep base m ll L -> head_node ll :: L = A ++ p :: R -> node_ptr (n_addr p).
Proof.
  intros [_ _ Hh [Hp _ _ _] _] E. destruct A as [|a A]; simplify_eq/=; [done|].
  rewrite Forall_forall in Hp. apply Hp, elem_of_app. right. left.
Qed.

(** Replacing the tail of the list after the node [p] by [R'], where the words
    of [p] become [p']: the resulting heap represents the new list. *)
Lemma rep_relink m ll L A p p' R R' L' dfr :
  ll_rep base m ll L ->
  head_node ll :: L = A ++ p :: R -> head_node ll :: L' = A ++ p' :: R' ->
  n_addr p' = n_addr p ->
  seg (heap m) R' 0 -> NoDup (n_addr <$> A ++ p' :: R') -> wf_nodes base L' ->
  ll_rep base (Mem (<[n_addr p := [n_key p'; n_val p'; link (first_or R' 0) (n_mark p')]]> (heap m))
                   dfr (rand m)) ll L'.
Proof.
  intros [Hs Hnd Hh Hw Hi] E E' Ea HR' Hnd' Hw'. split; simpl; try done.
  - change (seg (<[n_addr p := [n_key p'; n_val p'; link (first_or R' 0) (n_mark p')]]> (heap m))
                (head_node ll :: L') 0).
    rewrite E'. rewrite <- Ea. rewrite E in Hs. apply seg_app in Hs as [HA _].
    rewrite fmap_app, fmap_cons in Hnd'. apply NoDup_app in Hnd' as (_ & HdA & HdR).
    apply NoDup_cons in HdR as [HnR _]. apply seg_relink; [|done| |done].
    + intros Hin. eapply HdA; [exact Hin|left].
    + rewrite Ea. exact HA.
  - change (NoDup (n_addr <$> head_node ll :: L')). by rewrite E'.
Qed.

(** Unlinking the node after [p]. *)
Lemma rep_unlink m ll L A p n R dfr :
  ll_rep base m ll L -> head_node ll :: L = A ++ p :: n :: R ->
  exists L', head_node ll :: L' = A ++ p :: R /\
    ll_rep base (Mem (<[n_addr p := [n_key p; n_val p; link (first_or R 0) (n_mark p)]]> (heap m))
                     dfr (rand m)) ll L'.
Proof.
  intros Hrep E. pose proof Hrep as [Hs Hnd Hh Hw Hi].
  rewrite E in Hs, Hnd.
  assert (Hsub : sublist (A ++ p :: R) (A ++ p :: n :: R)).
  { apply sublist_app; [done|]. apply sublist_skip. by apply sublist_cons. }
  assert (exists L', head_node ll :: L' = A ++ p :: R /\ wf_nodes base L') as (L' & E' & Hw').
  { destruct A as [|a A]; simplify_eq/=.
    - eexists; split; [done|]. by apply wf_nodes_cons in Hw as (_ & ? & _).
    - eexists; split; [done|]. change (p :: n :: R) with ([p] ++ [n] ++ R) in Hw.
      change (p :: R) with ([p] ++ R). rewrite !wf_nodes_app in *.
      destruct Hw as (? & (? & (? & ? & ?) & H1) & H2). split_and!; try done.
      + intros; apply H1; [done|]. apply elem_of_app; by right.
      + intros x y Hx [Hy|Hy]%elem_of_app; apply H2; try done; rewrite !elem_of_app; auto. }
  exists L'. split; [done|]. eapply rep_relink; try done.
  - apply seg_app in Hs as [_ [_ Hs]]. by destruct Hs.
  - eapply sublist_NoDup; [exact Hnd|]. by apply fmap_sublist.
Qed.

Lemma wp_if_load (c : bool) a i m b v (Q : Z -> mem -> Prop) :
  (c = true -> heap m !! a = Some b /\ b !! i = Some v) ->
  Q (if c then v else DOES_NOT_EXIST) m ->
  wp (if c then load a i else Ret DOES_NOT_EXIST) m Q.
Proof.
  intros Hc HQ. destruct c; [|done]. destruct (Hc eq_refl). by eapply wp_load.
Qed.

(** The inner loop of [find_pred] with [help_remove]: every marked node after
    [p] is unlinked and handed to [rcu_defer_free]. *)
Lemma find_pred_marked_help fuel m ll L A p R :
  ll_rep base m ll L -> head_node ll :: L = A ++ p :: R -> n_mark p = false ->
  (length R < fuel)%nat ->
  wp (find_pred_marked fuel ll true (n_addr p) (first_or R 0) (link_of R)) m (fun s m' =>
    s = Continue (first_or (drop_marked R) 0) (link_of (drop_marked R)) /\
    deferred m' = rev (n_addr <$> marked_prefix R) ++ deferred m /\
    dom (heap m') = dom (heap m) /\
    exists L', head_node ll :: L' = A ++ p :: drop_marked R /\ ll_rep base m' ll L').
Proof.
  revert m L R. induction fuel as [|fuel IH]; intros m L R Hrep E Hp Hf; [lia|].
  pose proof (rep_first_ptr _ _ _ _ _ _ Hrep E) as Hfp.
  destruct R as [|n R]; cbn [find_pred_marked].
  { simpl. apply wp_ret. eauto 10. }
  pose proof (rep_lookup _ _ _ _ _ _ Hrep E) as Hlp. rewrite Hp in Hlp. simpl in Hlp, Hfp.
  assert (E2 : head_node ll :: L = (A ++ [p]) ++ n :: R) by (by rewrite <- app_assoc).
  pose proof (rep_first_ptr _ _ _ _ _ _ Hrep E2) as Hfr. cbn [link_of first_or drop_marked marked_prefix].
  rewrite HAS_MARK_link by done. destruct (n_mark n) eqn:Hn; cbn [negb].
  2: { apply wp_ret. cbn [link_of first_or]. rewrite Hn. eauto 10. }
  rewrite link_false in Hlp. apply wp_bind. eapply wp_cas_succ; [exact Hlp|done|].
  rewrite Z.eqb_refl, STRIP_MARK_link by done. apply wp_bind.
  destruct (rep_unlink m ll L A p n R (n_addr n :: deferred m) Hrep E) as (L' & E' & Hrep').
  rewrite Hp, link_false in Hrep'.
  assert (Hlk : negb (first_or R 0 =? 0) = true ->
     <[n_addr p := [n_key p; n_val p; first_or R 0]]> (heap m) !! first_or R 0 =
       Some match R with [] => [] | n' :: R' => [n_key n'; n_val n'; link_of R] end).
  { destruct R as [|n' R']; [done|]. intros _. simpl.
    assert (E3 : head_node ll :: L' = (A ++ [p]) ++ n' :: R') by (by rewrite <- app_assoc).
    exact (rep_lookup _ _ _ _ _ _ Hrep' E3). }
  eapply (wp_if_load _ _ _ _ (match R with [] => [] | n' :: R' => [n_key n'; n_val n'; link_of R] end)
            (link_of R)).
  { intros Hc. split; [exact (Hlk Hc)|]. by destruct R. }
  assert ((if negb (first_or R 0 =? 0) then link_of R else DOES_NOT_EXIST) = link_of R) as ->.
  { destruct R as [|n' R']; [done|]. simpl. simpl in Hfr. destruct Hfr as [?|[? _]].
    - assert (E3 : head_node ll :: L' = (A ++ [p]) ++ n' :: R') by (by rewrite <- app_assoc).
      pose proof (rep_ptr _ _ _ _ _ _ Hrep' E3) as [? _]. lia.
    - by rewrite (proj2 (Z.eqb_neq (n_addr n') 0)) by lia. }
  rewrite (rep_int _ _ _ _ Hrep). wp_op. wp_op.
  eapply wp_mono; [eapply (IH _ L' R); [exact Hrep'|done..|simpl in Hf; lia]|].
  intros s m' (-> & Hd & Hdom & HL). split_and!; [done| | |done].
  - rewrite Hd. simpl. by rewrite <- app_assoc.
  - rewrite Hdom. apply (dom_insert_lookup_L (D := gset Z)). by eexists.
Qed.

Lemma before_drop_marked key R : before key (drop_marked R) = before key R.
Proof. induction R as [|n R IH]; simpl; [done|]. destruct (n_mark n) eqn:Hn; simpl; rewrite ?Hn; done. Qed.

Lemma after_drop_marked key R : after key (drop_marked R) = after key R.
Proof. induction R as [|n R IH]; simpl; [done|]. destruct (n_mark n) eqn:Hn; simpl; rewrite ?Hn; done. Qed.

Lemma met_marked_drop key R :
  met_marked key R = marked_prefix R ++ met_marked key (drop_marked R).
Proof.
  induction R as [|n R IH]; simpl; [done|].
  destruct (n_mark n) eqn:Hn; simpl; rewrite ?Hn; [by rewrite IH|done].
Qed.

Lemma drop_marked_length R : (length (drop_marked R) <= length R)%nat.
Proof. induction R as [|n R IH]; simpl; [done|]. destruct (n_mark n); simpl; lia. Qed.

Lemma drop_marked_head R n R' : drop_marked R = n :: R' -> n_mark n = false.
Proof.
  induction R as [|x R IH]; simpl; [done|]. destruct (n_mark x) eqn:Hx; [done|].
  by intros [= <- _].
Qed.

(** The node [p'] a search stops at is the last of the live nodes walked past. *)
Definition found_at ll L' A p key R (res : bool * Z * Z) : Prop :=
  exists A' p', A ++ p :: before key R = A' ++ [p'] /\ n_mark p' = false /\
    head_node ll :: L' = A' ++ p' :: after key R /\
    res = (hit key (after key R), n_addr p', first_or (after key R) 0).

Lemma find_pred_loop_help fuel m ll L A p R key :
  ll_rep base m ll L -> head_node ll :: L = A ++ p :: R -> n_mark p = false ->
  key_window base key -> (length R + 1 < fuel)%nat ->
  wp (find_pred_loop fuel ll key true false (n_addr p) (first_or R 0)) m (fun r m' =>
    deferred m' = rev (n_addr <$> met_marked key R) ++ deferred m /\
    dom (heap m') = dom (heap m) /\
    exists res L', r = Some res /\ found_at ll L' A p key R res /\ ll_rep base m' ll L').
Proof.
  intros Hrep E Hp Hkey. revert m L A p R Hrep E Hp.
  induction fuel as [|fuel IH]; intros m L A p R Hrep E Hp Hf; [lia|].
  cbn [find_pred_loop]. destruct R as [|n R].
  { simpl. apply wp_ret. split_and!; [done..|]. do 2 eexists. split_and!; [done| |done].
    exists A, p. done. }
  assert (E2 : head_node ll :: L = (A ++ [p]) ++ n :: R) by (by rewrite <- app_assoc).
  pose proof (rep_ptr _ _ _ _ _ _ Hrep E2) as [Hn0 _].
  rewrite (proj2 (Z.eqb_neq (first_or (n :: R) 0) 0)) by (simpl; lia).
  pose proof (rep_lookup _ _ _ _ _ _ Hrep E2) as Hln. wp_op.
  apply wp_bind. change (link (first_or R 0) (n_mark n)) with (link_of (n :: R)).
  eapply wp_mono; [eapply (find_pred_marked_help fuel m ll L A p (n :: R)); try done; simpl in *; lia|].
  intros s m1 (-> & Hd1 & Hdom1 & L1 & E1 & Hrep1).
  rewrite met_marked_drop, fmap_app, rev_app_distr.
  unfold found_at. rewrite <- before_drop_marked, <- after_drop_marked.
  pose proof (drop_marked_length (n :: R)) as Hlen.
  destruct (drop_marked (n :: R)) as [|x R1] eqn:Ex.
  { simpl. apply wp_ret. split_and!; [done..|]. do 2 eexists. split_and!; [done| |done].
    exists A, p. done. }
  apply drop_marked_head in Ex as Hx.
  assert (E3 : head_node ll :: L1 = (A ++ [p]) ++ x :: R1) by (by rewrite <- app_assoc).
  pose proof (rep_ptr _ _ _ _ _ _ Hrep1 E3) as [Hx0 _].
  rewrite (proj2 (Z.eqb_neq (first_or (x :: R1) 0) 0)) by (simpl; lia).
  pose proof (rep_lookup _ _ _ _ _ _ Hrep1 E3) as Hlx. wp_op.
  rewrite (rep_int _ _ _ _ Hrep). unfold key_diff. wp_op.
  assert (Hxk : key_window base (n_key x)).
  { destruct Hrep1 as [_ _ _ [_ _ Hk _] _]. destruct A as [|a A]; simplify_eq/=.
    - by apply Forall_cons in Hk as [? _].
    - rewrite Forall_forall in Hk. apply Hk. apply elem_of_app. right. left. }
  rewrite (window_diff base) by done. cbn [before after met_marked]. rewrite Hx.
  destruct (Z.leb_spec 0 (n_key x - key)).
  - rewrite (proj2 (Z.ltb_ge (n_key x) key)) by lia. apply wp_ret. split_and!; [done..|].
    do 2 eexists. split_and!; [done| |done]. exists A, p. split_and!; try done.
    simpl. do 2 f_equal. destruct (Z.eqb_spec (n_key x - key) 0), (Z.eqb_spec (n_key x) key); lia || done.
  - rewrite (proj2 (Z.ltb_lt (n_key x) key)) by lia. cbn [link_of].
    rewrite Hx. unfold GET_NODE. rewrite link_false.
    eapply wp_mono; [eapply (IH m1 L1 (A ++ [p]) x R1); try done; simpl in *; lia|].
    intros r m2 (Hd2 & Hdom2 & res & L2 & -> & (A' & p' & Ea & Hm' & El & ->) & Hrep2).
    split_and!; [by rewrite Hd2, Hd1, app_assoc|congruence|]. do 2 eexists. split_and!; [done| |done].
    exists A', p'. by rewrite <- Ea, <- app_assoc.
Qed.

(** ** Searching without unlinking *)

Lemma find_pred_marked_skip fuel m ll L A n R pred :
  ll_rep base m ll L -> head_node ll :: L = A ++ n :: R -> A <> [] -> (S (length R) < fuel)%nat ->
  exists nx, run (find_pred_marked fuel ll false pred (n_addr n) (link_of (n :: R))) m =
    Done (Continue (first_or (drop_marked (n :: R)) 0) nx) m /\
    (drop_marked (n :: R) <> [] -> nx = link_of (drop_marked (n :: R))).
Proof.
  intros Hrep E HA. revert n R A E HA. induction fuel as [|fuel IH]; intros n R A E HA Hf; [lia|].
  pose proof (rep_first_ptr _ _ _ _ _ _ Hrep E) as Hfr. cbn [find_pred_marked link_of drop_marked].
  rewrite HAS_MARK_link by done. destruct (n_mark n) eqn:Hn; cbn [negb].
  2: { exists (link_of (n :: R)). split; [|done]. simpl. by rewrite Hn. }
  rewrite run_bind, (run_load _ _ _ _ (rep_lookup _ _ _ _ _ _ Hrep E)). simpl.
  rewrite Hn, STRIP_MARK_link by done. destruct R as [|n' R]; [by eexists|].
  assert (E2 : head_node ll :: L = (A ++ [n]) ++ n' :: R) by (by rewrite <- app_assoc).
  pose proof (rep_ptr _ _ _ _ _ _ Hrep E2) as [Hn' _]. cbn [first_or].
  rewrite (proj2 (Z.eqb_neq (n_addr n') 0)) by lia.
  rewrite run_bind, (run_load _ _ _ _ (rep_lookup _ _ _ _ _ _ Hrep E2)).
  apply (IH n' R _ E2); [by destruct A|simpl in *; lia].
Qed.

Lemma find_pred_loop_skip fuel m ll L A D R key ni :
  ll_rep base m ll L -> head_node ll :: L = A ++ D ++ R -> D <> [] -> 
  key_window base key -> (length R + 1 < fuel)%nat -> forall q,
  run (find_pred_loop fuel ll key false ni (n_addr q) (first_or R 0)) m =
    if ni && bool_decide (after key R = []) then Failed SegFault
    else Done (Some (hit key (after key R), n_addr (default q (last (before key R))),
                     first_or (after key R) 0)) m.
Proof.
  intros Hrep E Hne Hkey. revert A D R E Hne.
  induction fuel as [|fuel IH]; intros A D R E Hne Hf q; [lia|].
  cbn [find_pred_loop]. destruct R as [|n R].
  { simpl. by destruct ni. }
  assert (E2 : head_node ll :: L = (A ++ D) ++ n :: R) by (by rewrite <- app_assoc).
  pose proof (rep_ptr _ _ _ _ _ _ Hrep E2) as [Hn0 _].
  rewrite (proj2 (Z.eqb_neq (first_or (n :: R) 0) 0)) by (simpl; lia).
  rewrite run_bind, (run_load _ _ _ _ (rep_lookup _ _ _ _ _ _ Hrep E2)). cbn [lookup list_lookup NEXT].
  rewrite run_bind.
  destruct (find_pred_marked_skip fuel m ll L (A ++ D) n R (n_addr q)) as (nx & Er & Enx); try done.
  { by destruct A, D. } { simpl in Hf. lia. }
  change (link (first_or R 0) (n_mark n)) with (link_of (n :: R)).
  cbn [first_or]. rewrite Er. clear Er.
  rewrite <- before_drop_marked, <- after_drop_marked.
  assert (exists P, n :: R = P ++ drop_marked (n :: R)) as [P EP].
  { clear. induction (n :: R) as [|x R' [P IH]]; simpl; [by exists []|].
    destruct (n_mark x); [exists (x :: P); simpl; congruence|by exists []]. }
  pose proof (drop_marked_length (n :: R)) as Hlen.
  destruct (drop_marked (n :: R)) as [|x R1] eqn:Ex.
  { simpl. by destruct ni. }
  apply drop_marked_head in Ex as Hx. rewrite EP in E2.
  assert (E3 : head_node ll :: L = ((A ++ D) ++ P) ++ x :: R1) by (by rewrite <- app_assoc).
  pose proof (rep_ptr _ _ _ _ _ _ Hrep E3) as [Hx0 _].
  rewrite (proj2 (Z.eqb_neq (first_or (x :: R1) 0) 0)) by (simpl; lia).
  cbn [first_or]. rewrite run_bind, (run_load _ _ _ _ (rep_lookup _ _ _ _ _ _ Hrep E3)).
  cbn [lookup list_lookup KEY]. rewrite (rep_int _ _ _ _ Hrep), run_bind. unfold key_diff.
  change (run (Ret ?d) m) with (Done d m). cbv iota beta.
  assert (Hxk : key_window base (n_key x)).
  { destruct Hrep as [_ _ _ [_ _ Hk _] _]. rewrite Forall_forall in Hk. apply Hk.
    assert (HA : A ++ D <> []) by (by destruct A, D).
    destruct (A ++ D) as [|a Ap]; [done|]. simplify_eq/=. apply elem_of_app. right. left. }
  rewrite (window_diff base) by done. cbn [before after]. rewrite Hx.
  destruct (Z.leb_spec 0 (n_key x - key)).
  - rewrite (proj2 (Z.ltb_ge (n_key x) key)) by lia. rewrite bool_decide_false, andb_false_r by done.
    simpl. assert ((n_key x - key =? 0) = (n_key x =? key)) as ->; [|done].
    destruct (Z.eqb_spec (n_key x - key) 0), (Z.eqb_spec (n_key x) key); lia || done.
  - rewrite (proj2 (Z.ltb_lt (n_key x) key)) by lia. rewrite Enx by done. cbn [link_of].
    rewrite Hx. unfold GET_NODE. rewrite link_false.
    rewrite (IH ((A ++ D) ++ P) [x] R1); [|by rewrite E3|done|simpl in *; lia].
    rewrite last_cons. by destruct (last (before key R1)).
Qed.

Lemma find_pred_skip fuel m ll L key ni :
  ll_rep base m ll L -> key_window base key -> (length L + 1 < fuel)%nat ->
  run (find_pred fuel ll key false ni) m =
    if ni && bool_decide (after key L = []) then Failed SegFault
    else Done (hit key (after key L), n_addr (default (head_node ll) (last (before key L))),
               first_or (after key L) 0) m.
Proof.
  intros Hrep Hk Hf. unfold find_pred. destruct fuel as [|fuel]; [lia|]. cbn [find_pred_retry].
  assert (E : head_node ll :: L = [] ++ [head_node ll] ++ L) by done.
  rewrite run_bind, (run_load _ _ _ _ (rep_lookup m ll L [] (head_node ll) L Hrep eq_refl)).
  cbn [lookup list_lookup NEXT n_mark head_node]. rewrite run_bind. unfold GET_NODE.
  rewrite link_false. change (ll_head ll) with (n_addr (head_node ll)).
  rewrite (find_pred_loop_skip (S fuel) m ll L [] [head_node ll] L key ni) by done.
  by destruct (ni && _).
Qed.

Lemma find_pred_help fuel m ll L key :
  ll_rep base m ll L -> key_window base key -> (length L + 1 < fuel)%nat ->
  wp (find_pred fuel ll key true false) m (fun res m' =>
    deferred m' = rev (n_addr <$> met_marked key L) ++ deferred m /\
    dom (heap m') = dom (heap m) /\
    exists L', found_at ll L' [] (head_node ll) key L res /\ ll_rep base m' ll L').
Proof.
  intros Hrep Hk Hf. unfold find_pred. destruct fuel as [|fuel]; [lia|]. cbn [find_pred_retry].
  pose proof (rep_lookup m ll L [] (head_node ll) L Hrep eq_refl) as Hh. simpl in Hh.
  rewrite link_false in Hh. wp_op. apply wp_bind.
  eapply wp_mono; [eapply (find_pred_loop_help (S fuel) m ll L [] (head_node ll) L key); done|].
  intros r m' (Hd & Hdom & res & L' & -> & Hfa & Hrep'). apply wp_ret. eauto.
Qed.

(** ** Lookup *)

Lemma hit_lookup key L :
  wf_nodes base L ->
  lookup_spec (abs L) key = match after key L with
                            | n :: _ => if n_key n =? key then n_val n else DOES_NOT_EXIST
                            | [] => DOES_NOT_EXIST
                            end.
Proof.
  intros Hw. unfold lookup_spec. rewrite (abs_after base) by done.
  destruct (after key L) as [|n ?]; [done|]. by destruct (n_key n =? key).
Qed.

Lemma ll_lookup_ok fuel m ll L key :
  ll_rep base m ll L -> key_window base key -> (length L + 1 < fuel)%nat ->
  run (ll_lookup fuel ll key) m = Done (lookup_spec (abs L) key) m.
Proof.
  intros Hrep Hk Hf. unfold ll_lookup. rewrite run_bind, (find_pred_skip _ _ _ L) by done. simpl.
  rewrite hit_lookup by apply Hrep. destruct (after_suffix key L) as [P EP].
  destruct (after key L) as [|n R]; [done|]. simpl.
  destruct (Z.eqb_spec (n_key n) key); [|done].
  assert (E : head_node ll :: L = (head_node ll :: P) ++ n :: R) by (by rewrite EP).
  rewrite run_bind, (run_load _ _ _ _ (rep_lookup _ _ _ _ _ _ Hrep E)). simpl.
  destruct (Z.eqb_spec (n_val n) DOES_NOT_EXIST) as [->|]; done.
Qed.

(** [ll_lookup] returns the value the key has in the map the list stands for
    ([DOES_NOT_EXIST] when it has none), passes over every marked node, and
    leaves the memory as it was. *)
Theorem ll_lookup_refines fuel m ll L key :
  ll_rep base m ll L -> key_window base key -> (length L + 1 < fuel)%nat ->
  run (ll_lookup fuel ll key) m = Done (lookup_spec (abs L) key) m.
Proof. exact (ll_lookup_ok fuel m ll L key). Qed.

(** ** Update and insertion *)

Lemma wp_node_alloc m key val (Q : Z -> mem -> Prop) :
  can_alloc m 3 ->
  (forall a j, heap m !! a = None -> node_ptr a ->
     Q a (set_heap m (<[a := [key; val; j]]> (heap m)))) ->
  wp (node_alloc key val) m Q.
Proof.
  intros Hc HQ. destruct (Hc (heap m) eq_refl) as [a Ha]. unfold node_alloc. apply wp_bind.
  eapply wp_malloc; [exact Ha|]. intros Hfr Hptr Hlen.
  wp_op. { by rewrite HAS_MARK_ptr by auto. }
  destruct (junk (heap m) 3) as [|j0 [|j1 [|j2 [|]]]]; try done.
  wp_op. wp_op. wp_op. rewrite !insert_insert_eq. simpl. by apply HQ.
Qed.

Lemma seg_frame_fresh h L q a b : h !! a = None -> seg h L q -> seg (<[a := b]> h) L q.
Proof.
  intros Ha Hs. apply seg_frame; [|done]. intros (n & -> & Hn)%list_elem_of_fmap.
  apply list_elem_of_split in Hn as (A & B & ->). apply seg_lookup in Hs. congruence.
Qed.

(** Linking a fresh node between [p] and the rest of the list. *)
Lemma rep_insert m ll L A p R a key v :
  ll_rep base m ll L -> head_node ll :: L = A ++ p :: R -> n_mark p = false ->
  heap m !! a = None -> node_ptr a -> 0 < v < 2 ^ 63 -> key_window base key ->
  (p = head_node ll \/ n_key p < key) -> (forall n, n ∈ R -> key < n_key n) ->
  exists L', head_node ll :: L' = A ++ p :: LNode a key v false :: R /\
    ll_rep base (set_heap m (<[n_addr p := [n_key p; n_val p; a]]>
                               (<[a := [key; v; first_or R 0]]> (heap m)))) ll L'.
Proof.
  intros Hrep E Hp Hfr Hptr Hv Hkw Hlo Hhi. pose proof Hrep as [Hs Hnd Hh Hw Hi].
  set (n := LNode a key v false). set (h1 := <[a := [key; v; first_or R 0]]> (heap m)).
  assert (Hna : a ∉ n_addr <$> head_node ll :: L).
  { intros (x & -> & Hx)%list_elem_of_fmap. apply list_elem_of_split in Hx as (B1 & B2 & Eb).
    rewrite Eb in Hs. apply seg_lookup in Hs. congruence. }
  rewrite E in Hnd, Hna, Hs.
  assert (Hrep1 : ll_rep base (Mem h1 (deferred m) (rand m)) ll L).
  { split; [|by rewrite E|done..]. simpl. change (seg h1 (head_node ll :: L) 0). rewrite E. by apply seg_frame. }
  assert (Hwn : wf_nodes base [n]).
  { split; [by constructor|by repeat constructor|by constructor|by constructor]. }
  assert (exists L', head_node ll :: L' = A ++ p :: n :: R /\ wf_nodes base L') as (L' & E' & Hw').
  { destruct A as [|x A]; simplify_eq/=.
    - eexists; split; [done|]. by apply wf_nodes_cons.
    - destruct Hlo as [->|Hlo].
      { exfalso. rewrite fmap_app in Hnd. apply NoDup_cons in Hnd as [Hnd _].
        apply Hnd, elem_of_app. right. left. }
      eexists; split; [done|]. rewrite (cons_middle p A R) in Hw. rewrite (cons_middle p A).
      change (n :: R) with ([n] ++ R). rewrite !wf_nodes_app in *.
      destruct Hw as (HwA & (Hwp & HwR & HpR) & HAR). split_and!; try done.
      + intros c d ->%list_elem_of_singleton Hd. by apply Hhi.
      + intros c d ->%list_elem_of_singleton [->%list_elem_of_singleton|Hd]%elem_of_app; [done|].
        apply HpR; [left|done].
      + intros c d Hc [Hd|[->%list_elem_of_singleton|Hd]%elem_of_app]%elem_of_app.
        * apply HAR; [done|]. apply elem_of_app. by left.
        * assert (n_key c < n_key p); [|simpl; lia]. apply HAR; [done|]. apply elem_of_app. left. left.
        * apply HAR; [done|]. apply elem_of_app. by right. }
  exists L'. split; [done|].
  pose proof (rep_relink (Mem h1 (deferred m) (rand m)) ll L A p p R (n :: R) L' (deferred m)) as Hr.
  rewrite Hp in Hr. simpl in Hr. rewrite !link_false in Hr. apply Hr; try done.
  - split; [|apply seg_app in Hs as [_ [_ HsR]]; apply seg_frame; [|done]].
    + apply lookup_insert_eq.
    + intros Hin. apply Hna. rewrite fmap_app. apply elem_of_app. right. by right.
  - rewrite fmap_app in *. simpl. rewrite (Permutation_swap a (n_addr p)).
    rewrite <- Permutation_middle. by apply NoDup_cons.
Qed.

(** Changing the value or the mark of a node in place. *)
Lemma rep_update m ll L A n n' R dfr :
  ll_rep base m ll L -> head_node ll :: L = A ++ n :: R -> A <> [] ->
  n_addr n' = n_addr n -> n_key n' = n_key n -> (n_mark n' = false -> 0 < n_val n' < 2 ^ 63) ->
  exists L', head_node ll :: L' = A ++ n' :: R /\
    ll_rep base (Mem (<[n_addr n := [n_key n'; n_val n'; link (first_or R 0) (n_mark n')]]> (heap m))
                     dfr (rand m)) ll L'.
Proof.
  intros Hrep E HA Ea Ek Hv. destruct A as [|a A]; [done|]. pose proof Hrep as [Hs Hnd Hh Hw Hi].
  pose proof (rep_ptr _ _ _ _ _ _ Hrep E) as Hptr. rewrite E in Hs, Hnd.
  exists (A ++ n' :: R). simplify_eq/=. split; [done|].
  eapply (rep_relink m ll (A ++ n :: R) (head_node ll :: A) n n' R R); try done.
  - apply (seg_app _ (head_node ll :: A)) in Hs as [_ [_ HsR]]. done.
  - simpl in *. by rewrite !fmap_app, !fmap_cons, Ea in *.
  - rewrite (cons_middle n A R), (cons_middle n' A R) in *. rewrite !wf_nodes_app in *.
    destruct Hw as (HwA & ([H1 H2 H3 H4] & HwR & HnR) & HA'). split_and!; try done.
    + apply Forall_cons in H3 as [? _].
      split; [apply Forall_singleton; by rewrite Ea|repeat constructor| |];
        apply Forall_singleton; by rewrite ?Ek.
    + intros x y ->%list_elem_of_singleton Hy. rewrite Ek. apply HnR; [left|done].
    + intros x y Hx [->%list_elem_of_singleton|Hy]%elem_of_app.
      * rewrite Ek. apply HA'; [done|]. apply elem_of_app. left. left.
      * apply HA'; [done|]. apply elem_of_app. by right.
Qed.

(** What a search with [help_remove] leaves: the live nodes walked past, then
    the rest of the list. *)
Lemma found_at_list ll L' key L res :
  found_at ll L' [] (head_node ll) key L res ->
  L' = before key L ++ after key L /\ abs L' = abs L.
Proof.
  intros (A & p & E1 & _ & E2 & _). assert (E : L' = before key L ++ after key L).
  { rewrite (cons_middle p A), app_assoc, <- E1 in E2. by simplify_eq/=. }
  split; [done|]. rewrite E. apply abs_before_after.
Qed.

Lemma before_keys key L n : n ∈ before key L -> n_key n <> key.
Proof. intros (_ & _ & ?)%before_subset. lia. Qed.

Lemma abs_insert_middle key v A B :
  (forall n, n ∈ A -> n_key n <> key) -> abs A ∪ <[key := v]> (abs B) = <[key := v]> (abs (A ++ B)).
Proof. intros HA. rewrite abs_app. rewrite insert_union_r; [done|]. by apply abs_lookup_None. Qed.

(** The nodes met by a search for [key] that were marked are gone from the list. *)
Lemma met_marked_gone m ll L' L key res a :
  ll_rep base m ll L' -> NoDup (n_addr <$> head_node ll :: L) ->
  found_at ll L' [] (head_node ll) key L res ->
  a ∈ n_addr <$> met_marked key L -> a ∉ n_addr <$> head_node ll :: L'.
Proof.
  intros _ Hnd Hfa%found_at_list. destruct Hfa as [-> _]. simpl in *.
  apply NoDup_cons in Hnd as [Hh Hnd].
  assert (Hperm : met_marked key L ++ before key L ++ after key L ≡ₚ L).
  { clear. induction L as [|n L IH]; simpl; [done|]. destruct (n_mark n); simpl; [by rewrite IH|].
    destruct (n_key n <? key); simpl; [|done]. by rewrite <- Permutation_middle, IH. }
  rewrite <- Hperm in Hh, Hnd. rewrite fmap_app in Hh, Hnd.
  apply NoDup_app in Hnd as (_ & Hdis & _). intros Ha [->|Hin]%elem_of_cons.
  - apply Hh, elem_of_app. by left.
  - by apply (Hdis a).
Qed.

(** The nodes a search handed to reclamation are not in the list it leaves. *)
Lemma search_deferred m m1 ll L key res :
  ll_rep base m ll L -> ll_rep base m1 ll (before key L ++ after key L) ->
  found_at ll (before key L ++ after key L) [] (head_node ll) key L res ->
  forall a, a ∈ rev (n_addr <$> met_marked key L) ->
  a ∉ n_addr <$> head_node ll :: (before key L ++ after key L).
Proof.
  intros Hrep Hrep1 Hfa a Ha. apply list_elem_of_In, in_rev, list_elem_of_In in Ha.
  eapply met_marked_gone; try done. apply Hrep.
Qed.

(** The result of an operation: the list [L'] in memory [m'], standing for the
    map [M], the nodes [D] handed to reclamation, none of them in the list. *)
Definition op_result m m' ll L' (M : gmap Z Z) : Prop :=
  ll_rep base m' ll L' /\ abs L' = M /\
  exists D, deferred m' = D ++ deferred m /\ (forall a, a ∈ D -> a ∉ n_addr <$> head_node ll :: L').

Lemma hit_split key R : hit key R = true -> exists n R', R = n :: R' /\ n_key n = key.
Proof. destruct R as [|n R']; simpl; [done|]. intros E%Z.eqb_eq. eauto. Qed.

Lemma after_live key L n R : after key L = n :: R -> n_mark n = false.
Proof.
  induction L as [|x L IH]; simpl; [done|]. destruct (n_mark x) eqn:Hx; [done|].
  destruct (n_key x <? key); [done|]. by intros [= <- _].
Qed.

Lemma met_marked_subset key L n : n ∈ met_marked key L -> n ∈ L.
Proof.
  induction L as [|x L IH]; simpl; [done|]. rewrite elem_of_cons.
  destruct (n_mark x); [rewrite elem_of_cons; intuition|].
  destruct (n_key x <? key); [auto|]. by intros ?%not_elem_of_nil.
Qed.

Lemma rep_dom m ll L a : ll_rep base m ll L -> a ∈ n_addr <$> L -> a ∈ dom (heap m).
Proof.
  intros [Hs _ _ _ _] (n & -> & (A & B & ->)%list_elem_of_split)%list_elem_of_fmap.
  apply (seg_lookup _ (head_node ll :: A)) in Hs. apply elem_of_dom. eauto.
Qed.

Lemma found_pred_key ll key L A p :
  [] ++ head_node ll :: before key L = A ++ [p] -> p = head_node ll \/ n_key p < key.
Proof.
  intros E. destruct A as [|x A]; simplify_eq/=; [by left|right].
  assert (p ∈ before key L) as (_ & _ & ?)%before_subset; [|done].
  match goal with Hb : before _ _ = _ |- _ => rewrite Hb end. apply elem_of_app. right. left.
Qed.

Lemma after_strict key L n :
  wf_nodes base L -> hit key (after key L) = false -> n ∈ after key L -> key < n_key n.
Proof.
  intros Hw Hh Hn. pose proof (fun n => after_bound base key L n Hw) as Hle.
  destruct (after_suffix key L) as [P HP]. rewrite HP, wf_nodes_app in Hw.
  destruct (after key L) as [|x R]; [by apply not_elem_of_nil in Hn|].
  destruct Hw as (_ & (_ & _ & Hlt)%wf_nodes_cons & _). simpl in Hh. apply Z.eqb_neq in Hh.
  assert (key <= n_key x) by (apply Hle; left).
  apply elem_of_cons in Hn as [->|Hn]; [lia|].
  apply Hlt in Hn. lia.
Qed.

(** The value of a found item is replaced in place. *)
Lemma ll_cas_hit fuel m m1 ll L key e v res :
  ll_rep base m1 ll (before key L ++ after key L) -> wf_nodes base L -> (0 < fuel)%nat ->
  0 < v < 2 ^ 63 -> found_at ll (before key L ++ after key L) [] (head_node ll) key L res ->
  hit key (after key L) = true ->
  (exists D, deferred m1 = D ++ deferred m /\
     forall a, a ∈ D -> a ∉ n_addr <$> head_node ll :: (before key L ++ after key L)) ->
  wp (old_item_val ⇐ load (first_or (after key L) 0) VAL;
      ll_cas_update fuel e v (first_or (after key L) 0) old_item_val) m1 (fun u m' =>
    u = Some (loose_cas_spec (abs L) key e v).1 /\
    exists L', op_result m m' ll L' (loose_cas_spec (abs L) key e v).2).
Proof.
  intros Hrep Hw Hf Hv Hfa Hhit HD. pose proof (abs_after base key L Hw) as Hab.
  apply hit_split in Hhit as (n & R & Ea & Hn). rewrite Ea in *. pose proof (after_live _ _ _ _ Ea) as Hm.
  rewrite Hn, Z.eqb_refl in Hab. unfold loose_cas_spec. rewrite Hab. cbn [first_or fst snd].
  assert (E : head_node ll :: before key L ++ n :: R = (head_node ll :: before key L) ++ n :: R) by done.
  pose proof (rep_lookup _ _ _ _ _ _ Hrep E) as Hl.
  assert (0 < n_val n < 2 ^ 63) as Hnv.
  { destruct Hrep as [_ _ _ [_ _ _ Hvs] _]. rewrite Forall_app in Hvs. destruct Hvs as [_ Hvs].
    by apply Forall_cons in Hvs as [Hvs _]; apply Hvs. }
  wp_op. destruct fuel as [|fuel]; [lia|]. cbn [ll_cas_update].
  rewrite (proj2 (Z.eqb_neq (n_val n) DOES_NOT_EXIST)) by (unfold DOES_NOT_EXIST; lia).
  destruct (e =? CAS_EXPECT_DOES_NOT_EXIST).
  { apply wp_ret. split; [done|]. exists (before key L ++ n :: R).
    split_and!; [done| |done]. rewrite <- Ea. apply abs_before_after. }
  apply wp_bind. eapply wp_cas_succ; [exact Hl|done|]. rewrite Z.eqb_refl. apply wp_ret. split; [done|].
  destruct (rep_update m1 ll _ _ n (LNode (n_addr n) (n_key n) v false) R (deferred m1) Hrep E)
    as (L' & E' & Hrep'); [done..|]. simplify_eq/=. rewrite Hm.
  exists (before (n_key n) L ++ LNode (n_addr n) (n_key n) v false :: R). split_and!.
  - done.
  - rewrite abs_app. simpl. rewrite <- (abs_before_after (n_key n) L), Ea, abs_app. simpl. rewrite Hm.
    rewrite !(insert_union_r (abs (before _ L))) by (apply abs_lookup_None, before_keys).
    by rewrite insert_insert_eq.
  - destruct HD as (D & HD & Hd). exists D. split; [done|]. intros a Ha Hin. apply (Hd a Ha).
    by rewrite !fmap_cons, !fmap_app, !fmap_cons in *.
Qed.

Lemma ll_cas_ok fuel m ll L key e v :
  ll_rep base m ll L -> key_window base key -> (length L + 1 < fuel)%nat ->
  0 < v < 2 ^ 63 -> can_alloc m 3 ->
  exists m' L',
    run (ll_cas fuel ll key e v) m = Done (loose_cas_spec (abs L) key e v).1 m' /\
    op_result m m' ll L' (loose_cas_spec (abs L) key e v).2.
Proof.
  intros Hrep Hk Hf Hv Hc.
  enough (wp (ll_cas fuel ll key e v) m (fun r m' => r = (loose_cas_spec (abs L) key e v).1 /\
    exists L', op_result m m' ll L' (loose_cas_spec (abs L) key e v).2)) as Hwp.
  { apply wp_run in Hwp as (? & m' & E & -> & L' & HR). eauto. }
  unfold ll_cas. wp_op. { apply Z.ltb_lt. rewrite s64_small; lia. }
  destruct fuel as [|fuel]; [lia|]. cbn [ll_cas_retry]. apply wp_bind.
  eapply wp_mono; [by eapply (find_pred_help (S fuel) m ll L key)|].
  intros res m1 (Hd & Hdom & L1 & Hfa & Hrep1).
  destruct (found_at_list _ _ _ _ _ Hfa) as [-> Habs].
  pose proof Hfa as (A & p & E1 & Hpm & E2 & ->).
  assert (HD : exists D, deferred m1 = D ++ deferred m /\
     forall a, a ∈ D -> a ∉ n_addr <$> head_node ll :: (before key L ++ after key L)).
  { eexists. split; [exact Hd|]. by eapply search_deferred. }
  pose proof (abs_after base key L (rep_wf _ _ _ _ Hrep)) as Hab.
  destruct (hit key (after key L)) eqn:Hhit; cbn [negb].
  - apply wp_assoc, wp_bind. eapply wp_mono.
    { eapply (ll_cas_hit (S fuel) m m1); try done; [apply Hrep|lia]. }
    intros u m' (-> & HL). apply wp_ret. done.
  - assert (abs L !! key = None) as Hnone.
    { rewrite Hab. unfold hit in Hhit. destruct (after key L); [done|]. by rewrite Hhit. }
    unfold loose_cas_spec. rewrite Hnone. cbn [fst snd]. rewrite <- negb_orb.
    destruct (_ || _); cbn [negb].
    2: { apply wp_ret. split; [done|]. eexists. by split_and!. }
    rewrite (rep_int _ _ _ _ Hrep). wp_op. apply wp_bind.
    apply wp_node_alloc. { intros h Eh. apply Hc. congruence. }
    intros a j Hfr Hptr. wp_op. apply wp_bind.
    pose proof (rep_lookup _ _ _ _ _ _ Hrep1 E2) as Hlp. rewrite Hpm, link_false in Hlp.
    eapply wp_cas_succ.
    { cbn [heap set_heap]. rewrite !lookup_insert_ne; [exact Hlp|congruence..]. }
    { done. }
    rewrite Z.eqb_refl. apply wp_ret. split; [done|].
    assert (Hgt : forall n, n ∈ after key L -> key < n_key n).
    { intros n Hn. eapply after_strict; [apply Hrep|done..]. }
    destruct (rep_insert m1 ll _ A p (after key L) a key v Hrep1 E2) as (L' & E' & Hrep'); try done.
    { by eapply found_pred_key. }
    rewrite (cons_middle p A), app_assoc, <- E1 in E'. simplify_eq/=.
    eexists. split_and!.
    + rewrite insert_insert_eq. exact Hrep'.
    + rewrite abs_app. simpl. rewrite (abs_insert_middle key v) by apply before_keys.
      by rewrite abs_before_after.
    + destruct HD as (D & HD & HDn). exists D. split; [done|]. intros d Hd' Hin. apply (HDn d Hd'). simpl in *.
      rewrite fmap_app in *. simpl in Hin. destruct (decide (d = a)) as [->|Hne]; [|set_solver].
      exfalso. assert (a ∈ dom (heap m1)) as Ha%elem_of_dom.
      { rewrite Hdom. apply (rep_dom m ll L); [done|]. assert (D = rev (n_addr <$> met_marked key L)) as ->.
        { rewrite Hd in HD. by apply app_inv_tail in HD. }
        apply list_elem_of_In, in_rev, list_elem_of_In, list_elem_of_fmap in Hd' as (x & -> & Hx).
        apply list_elem_of_fmap. eauto using met_marked_subset. }
      destruct Ha. congruence.
Qed.

(** [ll_cas] on integer keys returns the previous value of the key and
    performs the compare-and-swap of the list: an absent key is inserted unless a
    value was expected, a present one is overwritten unless it was expected to
    be absent. The list stays well formed (sorted, no duplicate), the marked
    nodes met on the way are unlinked, and only nodes that are no longer linked
    are handed to reclamation. *)
Theorem ll_cas_refines fuel m ll L key e v :
  ll_rep base m ll L -> key_window base key -> (length L + 1 < fuel)%nat ->
  0 < v < 2 ^ 63 -> can_alloc m 3 ->
  exists m' L',
    run (ll_cas fuel ll key e v) m = Done (loose_cas_spec (abs L) key e v).1 m' /\
    op_result m m' ll L' (loose_cas_spec (abs L) key e v).2.
Proof. exact (ll_cas_ok fuel m ll L key e v). Qed.

(** ** Removal *)

Lemma wp_ll_remove_mark fuel m item k v q (Q : option Z -> mem -> Prop) :
  (0 < fuel)%nat -> q = 0 \/ node_ptr q -> heap m !! item = Some [k; v; q] ->
  Q (Some q) (set_heap m (<[item := [k; v; link q true]]> (heap m))) ->
  wp (ll_remove_mark fuel item q) m Q.
Proof.
  intros Hf Hq Hl HQ. destruct fuel as [|fuel]; [lia|]. cbn [ll_remove_mark]. apply wp_bind.
  eapply wp_cas_succ; [done..|]. rewrite HAS_MARK_ptr, STRIP_MARK_ptr, Z.eqb_refl by done.
  cbn [negb]. apply wp_ret. by rewrite <- (MARK_NODE_link q Hq false), link_false in HQ.
Qed.

(** A live node [n] found after [p] is marked, emptied, unlinked and handed to
    reclamation. *)
Lemma ll_remove_hit fuel m ll A p n R B :
  ll_rep base m ll (B ++ n :: R) -> (0 < fuel)%nat -> n_mark n = false -> n_mark p = false ->
  head_node ll :: B ++ n :: R = A ++ p :: n :: R ->
  wp (old_next ⇐ load (n_addr n) NEXT;
      mk ⇐ ll_remove_mark fuel (n_addr n) old_next;
      match mk with
      | None => Ret DOES_NOT_EXIST
      | Some next =>
          w ⇐ load (n_addr n) NEXT;
          _ ⇐ assert (HAS_MARK w);
          val ⇐ SYNC_SWAP (n_addr n) VAL DOES_NOT_EXIST;
          other ⇐ SYNC_CAS (n_addr p) NEXT (n_addr n) next;
          if negb (other =? n_addr n) then Ret val
          else
            _ ⇐ (match ll_key_type ll with
                 | Some _ => k ⇐ load (n_addr n) KEY; rcu_defer_free k
                 | None => Ret 0
                 end);
            _ ⇐ rcu_defer_free (n_addr n);
            Ret val
      end) m (fun r m' => r = n_val n /\ ll_rep base m' ll (B ++ R) /\
                          deferred m' = n_addr n :: deferred m).
Proof.
  intros Hrep Hf Hn Hp E.
  assert (E2 : head_node ll :: B ++ n :: R = (A ++ [p]) ++ n :: R) by (by rewrite <- app_assoc).
  pose proof (rep_lookup _ _ _ _ _ _ Hrep E2) as Hl. rewrite Hn, link_false in Hl.
  pose proof (rep_lookup _ _ _ _ _ _ Hrep E) as Hlp. rewrite Hp, link_false in Hlp.
  pose proof (rep_first_ptr _ _ _ _ _ _ Hrep E2) as Hfr.
  assert (Hne : n_addr p <> n_addr n).
  { destruct Hrep as [_ Hnd _ _ _]. rewrite E, fmap_app in Hnd.
    apply NoDup_app in Hnd as (_ & _ & [Hnd _]%NoDup_cons). intros Ea. apply Hnd. rewrite Ea. left. }
  wp_op. apply wp_bind. eapply wp_ll_remove_mark; [done..|].
  wp_op. wp_op. { by apply HAS_MARK_link. }
  wp_op. apply wp_bind. eapply wp_cas_succ.
  { cbn [heap set_heap]. rewrite !lookup_insert_ne by done. exact Hlp. }
  { done. }
  rewrite Z.eqb_refl, (rep_int _ _ _ _ Hrep). cbn [negb]. wp_op. wp_op. wp_op.
  split_and!; [done| |done]. rewrite insert_insert_eq.
  destruct (rep_update m ll _ _ n (LNode (n_addr n) (n_key n) 0 true) R (deferred m) Hrep E2)
    as (L1 & E1 & Hrep1); [by destruct A|done..|].
  rewrite <- app_assoc in E1.
  destruct (rep_unlink _ ll L1 A p _ R (n_addr n :: deferred m) Hrep1 E1) as (L2 & E3 & Hrep2).
  rewrite Hp, link_false in Hrep2.
  assert (L2 = B ++ R) as ->; [|exact Hrep2].
  rewrite app_comm_cons in E2. apply app_inv_tail in E2.
  rewrite (cons_middle p), app_assoc, <- E2 in E3. by simplify_eq/=.
Qed.

Lemma abs_delete_middle key A n B :
  wf_nodes base (A ++ n :: B) -> n_key n = key -> abs (A ++ B) = delete key (abs (A ++ n :: B)).
Proof.
  intros (_ & (_ & _ & HnB)%wf_nodes_cons & HA)%wf_nodes_app <-. rewrite !abs_app, delete_union. simpl.
  assert (abs B !! n_key n = None) by (apply abs_lookup_None; intros x ?%HnB; lia).
  assert (abs A !! n_key n = None).
  { apply abs_lookup_None. intros x Hx. specialize (HA x n Hx ltac:(left)). lia. }
  rewrite (delete_id (abs A)) by done. f_equal. destruct (n_mark n).
  - by rewrite delete_id.
  - by rewrite delete_insert_id.
Qed.

Lemma ll_remove_ok fuel m ll L key :
  ll_rep base m ll L -> key_window base key -> (length L + 1 < fuel)%nat ->
  exists m' L',
    run (ll_remove fuel ll key) m = Done (remove_spec (abs L) key).1 m' /\
    op_result m m' ll L' (remove_spec (abs L) key).2.
Proof.
  intros Hrep Hk Hf.
  enough (wp (ll_remove fuel ll key) m (fun r m' => r = (remove_spec (abs L) key).1 /\
    exists L', op_result m m' ll L' (remove_spec (abs L) key).2)) as Hwp.
  { apply wp_run in Hwp as (? & m' & E & -> & L' & HR). eauto. }
  unfold ll_remove. apply wp_bind.
  eapply wp_mono; [by eapply (find_pred_help fuel m ll L key)|].
  intros res m1 (Hd & Hdom & L1 & Hfa & Hrep1).
  destruct (found_at_list _ _ _ _ _ Hfa) as [-> Habs].
  pose proof (search_deferred _ _ _ _ _ _ Hrep Hrep1 Hfa) as HD.
  destruct Hfa as (A & p & E1 & Hpm & E2 & ->). unfold remove_spec, lookup_spec.
  rewrite (abs_after base key L) by apply Hrep. rewrite <- Habs.
  destruct (hit key (after key L)) eqn:Hhit; cbn [negb fst snd].
  - destruct (hit_split _ _ Hhit) as (n & R & Ea & Hn). rewrite Ea in *. rewrite Hn, Z.eqb_refl.
    eapply wp_mono; [eapply (ll_remove_hit fuel m1 ll A p n R (before key L)); try done; [lia|]|].
    { by eapply after_live. }
    intros r m' (-> & Hrep' & Hd'). split; [done|]. exists (before key L ++ R). split_and!; [done| |].
    + eapply abs_delete_middle; [apply Hrep1|done].
    + exists (n_addr n :: rev (n_addr <$> met_marked key L)). rewrite Hd', Hd. split; [done|].
      destruct Hrep1 as [_ Hnd _ _ _]. simpl in Hnd, HD |- *. rewrite !fmap_app in *. simpl in *.
      rewrite <- Permutation_middle, Permutation_swap in Hnd. apply NoDup_cons in Hnd as [Hnd _].
      intros a [->|Ha]%elem_of_cons; [done|]. specialize (HD a Ha). set_solver.
  - assert (abs L !! key = None) as Hnone.
    { rewrite (abs_after base key L) by apply Hrep. unfold hit in Hhit.
      destruct (after key L); [done|]. by rewrite Hhit. }
    rewrite <- (abs_after base key L), Habs, Hnone by apply Hrep. apply wp_ret. split; [done|].
    eexists. rewrite delete_id by done. split_and!; [done..|eauto].
Qed.

(** [ll_remove] on integer keys removes the key from the map and returns the
    value it had ([DOES_NOT_EXIST] and no change when it was absent). The node
    is marked, emptied, unlinked from its predecessor and handed to
    reclamation, and nothing that is still linked is. *)
Theorem ll_remove_refines fuel m ll L key :
  ll_rep base m ll L -> key_window base key -> (length L + 1 < fuel)%nat ->
  exists m' L',
    run (ll_remove fuel ll key) m = Done (remove_spec (abs L) key).1 m' /\
    op_result m m' ll L' (remove_spec (abs L) key).2.
Proof. exact (ll_remove_ok fuel m ll L key). Qed.

(** ** Creation, counting and destruction *)

Definition live (L : list lnode) : list lnode := filter (fun n => n_mark n = false) L.

Lemma size_abs L : wf_nodes base L -> size (abs L) = length (live L).
Proof.
  induction L as [|n L IH]; [done|]. intros (_ & Hw & Hlt)%wf_nodes_cons. specialize (IH Hw).
  unfold live in *. rewrite filter_cons. cbn [abs]. destruct (n_mark n); simpl; [done|].
  rewrite map_size_insert_None, IH; [done|]. apply abs_lookup_None. intros x ?%Hlt. lia.
Qed.

Lemma first_or_nonzero m ll L A n R :
  ll_rep base m ll L -> head_node ll :: L = A ++ n :: R -> (n_addr n =? 0) = false.
Proof. intros Hrep E. pose proof (rep_ptr _ _ _ _ _ _ Hrep E) as [? _]. apply Z.eqb_neq. lia. Qed.

Lemma ll_count_loop_run fuel m ll L A p R c :
  ll_rep base m ll L -> head_node ll :: L = A ++ p :: R -> (length R < fuel)%nat ->
  run (ll_count_loop fuel (first_or R 0) (u64 c)) m = Done (u64 (c + Z.of_nat (length (live R)))) m.
Proof.
  revert A p R c. induction fuel as [|fuel IH]; intros A p R c Hrep E Hf; [lia|].
  cbn [ll_count_loop]. destruct R as [|n R]; cbn [first_or]; [by rewrite Z.add_0_r|].
  assert (E2 : head_node ll :: L = (A ++ [p]) ++ n :: R) by (by rewrite <- app_assoc).
  rewrite (first_or_nonzero _ _ _ _ _ _ Hrep E2).
  pose proof (rep_lookup _ _ _ _ _ _ Hrep E2) as Hl.
  pose proof (rep_first_ptr _ _ _ _ _ _ Hrep E2) as Hq.
  rewrite run_bind, (run_load _ _ _ _ Hl). cbn [lookup list_lookup NEXT].
  rewrite run_bind, (run_load _ _ _ _ Hl). cbn [lookup list_lookup NEXT].
  rewrite HAS_MARK_link, STRIP_MARK_link by done. unfold live. rewrite filter_cons. cbn [length] in Hf.
  destruct (n_mark n); simpl.
  - rewrite (IH _ _ _ c Hrep E2) by lia. done.
  - rewrite u64_add_l, (IH _ _ _ (c + 1) Hrep E2) by lia. do 2 f_equal. unfold live. lia.
Qed.

(** [ll_count] is the number of keys the list holds: marked nodes, still
    linked, are not counted. *)
Theorem ll_count_refines fuel m ll L :
  ll_rep base m ll L -> (length L < fuel)%nat ->
  run (ll_count fuel ll) m = Done (u64 (Z.of_nat (size (abs L)))) m.
Proof.
  intros Hrep Hf. rewrite size_abs by apply Hrep. unfold ll_count.
  pose proof (rep_lookup _ _ _ [] _ _ Hrep eq_refl) as Hl.
  rewrite run_bind, (run_load _ _ _ _ Hl). cbn [lookup list_lookup NEXT n_mark head_node].
  rewrite STRIP_MARK_link by (by apply (rep_first_ptr _ _ _ [] _ _ Hrep eq_refl)).
  exact (ll_count_loop_run fuel m ll L [] _ L 0 Hrep eq_refl Hf).
Qed.

(** The heap once the blocks of [L] are released *)
Definition without (h : heap_t) (L : list lnode) : heap_t := foldl (fun h n => delete (n_addr n) h) h L.

Lemma seg_delete h L q a : a ∉ n_addr <$> L -> seg h L q -> seg (delete a h) L q.
Proof.
  induction L as [|n L IH]; [done|]. cbn [seg fmap list_fmap]. rewrite not_elem_of_cons.
  intros [Hn Ha] [Hl Hs]. split; [by rewrite lookup_delete_ne|auto].
Qed.

Lemma ll_free_loop_run fuel m ll L :
  ll_key_type ll = None -> seg (heap m) L 0 -> NoDup (n_addr <$> L) ->
  Forall (fun n => node_ptr (n_addr n)) L -> (length L < fuel)%nat ->
  run (ll_free_loop fuel ll (first_or L 0)) m = Done tt (set_heap m (without (heap m) L)).
Proof.
  intros Hi. revert m L. induction fuel as [|fuel IH]; intros m L Hs Hnd Hp Hf; [lia|].
  cbn [ll_free_loop]. destruct L as [|n L]; cbn [first_or]; [by rewrite set_heap_same|].
  destruct Hs as [Hl Hs]. apply Forall_cons in Hp as [Hn Hp]. apply NoDup_cons in Hnd as [Hna Hnd].
  assert (first_or L 0 = 0 \/ node_ptr (first_or L 0)) as Hq.
  { destruct L; [by left|right]. by apply Forall_cons in Hp as [? _]. }
  destruct Hn as [Hn0 _]. rewrite (proj2 (Z.eqb_neq (n_addr n) 0)), Hi by lia.
  rewrite run_bind, (run_load _ _ _ _ Hl). cbn [lookup list_lookup NEXT].
  rewrite run_bind, run_ret, run_bind, (run_free _ _ _ Hl), STRIP_MARK_link by done.
  cbn [length] in Hf. rewrite (IH (set_heap m (delete (n_addr n) (heap m))) L); [done| |done..|lia].
  by apply seg_delete.
Qed.

(** [ll_free] releases every node of the list, marked or not, each exactly
    once, and touches nothing else: the sentinel and all other blocks keep their
    contents. *)
Theorem ll_free_releases fuel m ll L :
  ll_rep base m ll L -> (length L < fuel)%nat ->
  exists m', run (ll_free fuel ll) m = Done tt m' /\
    deferred m' = deferred m /\
    forall a, heap m' !! a = if bool_decide (a ∈ n_addr <$> L) then None else heap m !! a.
Proof.
  intros Hrep Hf. exists (set_heap m (without (heap m) L)). split_and!; [|done|].
  - unfold ll_free. pose proof (rep_lookup _ _ _ [] _ _ Hrep eq_refl) as Hl.
    rewrite run_bind, (run_load _ _ _ _ Hl). cbn [lookup list_lookup NEXT n_mark head_node].
    rewrite STRIP_MARK_link by (by apply (rep_first_ptr _ _ _ [] _ _ Hrep eq_refl)).
    destruct Hrep as [[_ Hs] [_ Hnd]%NoDup_cons _ [Hp _ _ _] Hi]. by apply ll_free_loop_run.
  - intros a. cbn [heap set_heap]. generalize (heap m). clear. induction L as [|n L IH]; intros h; [done|].
    cbn [without foldl fmap list_fmap]. rewrite IH. rewrite lookup_delete.
    repeat case_bool_decide; try case_decide; try done; set_solver.
Qed.

(** A new list is empty, whatever the allocator left in its blocks, and the
    blocks in use keep their contents. *)
Theorem ll_alloc_empty m a1 :
  alloc (heap m) 2 = Some a1 -> can_alloc (set_heap m (<[a1 := junk (heap m) 2]> (heap m))) 3 ->
  exists ll m', run (ll_alloc None) m = Done ll m' /\ ll_rep base m' ll [] /\
    (forall a, a ∈ dom (heap m) -> heap m' !! a = heap m !! a).
Proof.
  intros Ha1 Hc. enough (wp (ll_alloc None) m (fun ll m' => ll_rep base m' ll [] /\
    (forall a, a ∈ dom (heap m) -> heap m' !! a = heap m !! a))) as (? & ? & ? & ?)%wp_run by eauto.
  unfold ll_alloc. apply wp_bind. eapply wp_malloc; [exact Ha1|].
  intros Hfr _ _. apply wp_bind. apply wp_node_alloc; [done|]. intros a j Hfa Hp. wp_op.
  apply wp_ret. split.
  - split; cbn [ll_head ll_key_type head_node fmap list_fmap n_addr]; try done.
    + split; [|done]. cbn [heap set_heap]. by rewrite lookup_insert_eq.
    + by repeat constructor; set_solver.
    + by repeat constructor.
  - intros b [x Hb]%elem_of_dom. cbn [heap set_heap] in *.
    assert (b <> a1) by congruence. assert (b <> a).
    { intros ->. rewrite lookup_insert_ne in Hfa; congruence. }
    by rewrite !lookup_insert_ne.
Qed.

(** ** Iteration *)

(** The node [ll_iter_next] stops at when the iterator stands on the first node
    of the list, with the nodes that follow it. *)
Fixpoint iter_target (L : list lnode) : list lnode :=
  match L with
  | [] => []
  | x :: L' => match L' with
               | [] => []
               | _ => if n_mark x then iter_target L' else L'
               end
  end.

Lemma ll_iter_advance_run fuel m ll L A p R :
  ll_rep base m ll L -> head_node ll :: L = A ++ p :: R -> (length R < fuel)%nat ->
  run (ll_iter_advance fuel (n_addr p)) m =
    Done match iter_target (p :: R) with [] => None | n :: _ => Some (n_addr n) end m.
Proof.
  revert A p R. induction fuel as [|fuel IH]; intros A p R Hrep E Hf; [lia|].
  cbn [ll_iter_advance]. pose proof (rep_lookup _ _ _ _ _ _ Hrep E) as Hl.
  pose proof (rep_first_ptr _ _ _ _ _ _ Hrep E) as Hq.
  rewrite run_bind, (run_load _ _ _ _ Hl). cbn [lookup list_lookup NEXT].
  rewrite STRIP_MARK_link, HAS_MARK_link by done. destruct R as [|n R]; [done|]. cbn [first_or].
  assert (E2 : head_node ll :: L = (A ++ [p]) ++ n :: R) by (by rewrite <- app_assoc).
  rewrite (first_or_nonzero _ _ _ _ _ _ Hrep E2). cbn [iter_target]. cbn [length] in Hf.
  destruct (n_mark p); [by rewrite (IH _ _ _ Hrep E2) by lia|]. by rewrite link_false.
Qed.

Lemma ll_iter_next_run fuel a m ll L A p R :
  ll_rep base m ll L -> head_node ll :: L = A ++ p :: R -> (length R < fuel)%nat ->
  run (ll_iter_next fuel (LLIter a (n_addr p))) m =
    match iter_target (p :: R) with
    | [] => Done (LLIter a 0, DOES_NOT_EXIST, 0) m
    | n :: _ => Done (LLIter a (n_addr n), n_val n, n_key n) m
    end.
Proof.
  intros Hrep E Hf. unfold ll_iter_next. cbn [ll_iter_pred].
  rewrite (first_or_nonzero _ _ _ _ _ _ Hrep E), run_bind, (ll_iter_advance_run _ _ _ _ _ _ _ Hrep E) by done.
  destruct (iter_target (p :: R)) as [|n R'] eqn:Et; [done|].
  assert (exists B, p :: R = B ++ n :: R') as [B EB].
  { clear -Et. revert p Et. induction R as [|x R IH]; intros p; cbn [iter_target]; [done|].
    destruct (n_mark p); [|intros [= -> ->]; by exists [p]].
    intros [B EB]%IH. exists (p :: B). by rewrite EB. }
  rewrite EB, app_assoc in E. pose proof (rep_ptr _ _ _ _ _ _ Hrep E).
  rewrite run_bind, (run_load _ _ _ _ (rep_lookup _ _ _ _ _ _ Hrep E)). cbn [lookup list_lookup KEY].
  rewrite run_bind, (run_load _ _ _ _ (rep_lookup _ _ _ _ _ _ Hrep E)). cbn [lookup list_lookup VAL].
  by rewrite STRIP_MARK_ptr by auto.
Qed.

(** One step of an iterator that stands on a node [p] of the list moves to
    the first node whose predecessor is not marked, and returns that node's key
    and value: the mark that is tested is the one of the node the iterator
    leaves, not of the one it returns. At the end of the list it returns
    [DOES_NOT_EXIST], for ever. *)
Theorem ll_iter_next_spec fuel a m ll L A p R :
  ll_rep base m ll L -> head_node ll :: L = A ++ p :: R -> (length R < fuel)%nat ->
  run (ll_iter_next fuel (LLIter a (n_addr p))) m =
    match iter_target (p :: R) with
    | [] => Done (LLIter a 0, DOES_NOT_EXIST, 0) m
    | n :: _ => Done (LLIter a (n_addr n), n_val n, n_key n) m
    end /\
  run (ll_iter_next fuel (LLIter a 0)) m = Done (LLIter a 0, DOES_NOT_EXIST, 0) m.
Proof. intros Hrep E Hf. split; [by eapply ll_iter_next_run|done]. Qed.

(** A client's loop: the pairs an iterator yields until it returns
    [DOES_NOT_EXIST]. *)
Fixpoint ll_drain (steps fuel : nat) (iter : ll_iter_t) : prog (list (Z * Z)) :=
  match steps with
  | O => Fail OutOfFuel
  | S steps =>
      r ⇐ ll_iter_next fuel iter;
      match r with
      | (iter, v, k) =>
          if v =? DOES_NOT_EXIST then Ret [] else rest ⇐ ll_drain steps fuel iter; Ret ((k, v) :: rest)
      end
  end.

Definition entries (L : list lnode) : list (Z * Z) := (fun n => (n_key n, n_val n)) <$> L.

Lemma ll_drain_run steps fuel a m ll L A p R :
  ll_rep base m ll L -> head_node ll :: L = A ++ p :: R -> clean (p :: R) ->
  (length R < steps)%nat -> (length R < fuel)%nat ->
  run (ll_drain steps fuel (LLIter a (n_addr p))) m = Done (entries R) m.
Proof.
  revert A p R. induction steps as [|steps IH]; intros A p R Hrep E Hc Hs Hf; [lia|].
  cbn [ll_drain]. rewrite run_bind, (ll_iter_next_run _ _ _ _ _ _ _ _ Hrep E Hf).
  destruct R as [|n R]; [done|]. cbn [iter_target]. apply Forall_cons in Hc as [-> Hc].
  assert (E2 : head_node ll :: L = (A ++ [p]) ++ n :: R) by (by rewrite <- app_assoc).
  assert (Hv : 0 < n_val n).
  { destruct Hrep as [_ _ _ [_ _ _ Hv] _]. apply Forall_cons in Hc as [Hn _].
    rewrite Forall_forall in Hv. apply Hv; [|done].
    clear E2. destruct A; simplify_eq/=; [left|]. apply elem_of_app. right. right. left. }
  rewrite (proj2 (Z.eqb_neq (n_val n) DOES_NOT_EXIST)) by (unfold DOES_NOT_EXIST; lia).
  cbn [length] in *. rewrite run_bind, (IH _ _ _ Hrep E2 Hc) by lia. done.
Qed.

Lemma before_after_clean key L : clean L -> L = before key L ++ after key L.
Proof.
  induction L as [|n L IH]; [done|]. intros [Hn Hc]%Forall_cons. simpl. rewrite Hn.
  destruct (n_key n <? key); [|done]. simpl. f_equal. auto.
Qed.

(** On a list without marked nodes, an iterator started at [key] yields
    exactly the entries whose keys are at least [key], in increasing order, and
    an iterator started with [DOES_NOT_EXIST] yields all of them; once it is
    freed the memory is as it was before. When every key is smaller than [key],
    [ll_iter_begin] stores through the null [item_ptr]. *)
Theorem ll_iterates steps fuel m ll L key a :
  ll_rep base m ll L -> clean L -> key_window base key -> alloc (heap m) 1 = Some a ->
  (length L < steps)%nat -> (length L + 1 < fuel)%nat ->
  run (iter ⇐ ll_iter_begin fuel ll key; es ⇐ ll_drain steps fuel iter; _ ⇐ ll_iter_free iter; Ret es) m =
    if key =? DOES_NOT_EXIST then Done (entries L) m
    else if bool_decide (after key L = []) then Failed SegFault
    else Done (entries (after key L)) m.
Proof.
  intros Hrep Hc Hk Ha Hs Hf. set (m' := set_heap m (<[a := junk (heap m) 1]> (heap m))).
  pose proof (alloc_fresh _ _ _ Ha) as Hfr.
  assert (Hrep' : ll_rep base m' ll L).
  { destruct Hrep as [Hs' ? ? ? ?]. split; try done. by apply (seg_frame_fresh (heap m)). }
  assert (Hd : forall A p R, head_node ll :: L = A ++ p :: R -> clean (p :: R) ->
    run (es ⇐ ll_drain steps fuel (LLIter a (n_addr p)); _ ⇐ ll_iter_free (LLIter a (n_addr p)); Ret es) m' =
    Done (entries R) m).
  { intros A p R E Hcl. rewrite run_bind, (ll_drain_run steps fuel a m' ll L A p R Hrep' E Hcl);
      [by apply run_free_fresh|apply (f_equal length) in E; rewrite length_app in E; simpl in E; lia..]. }
  unfold ll_iter_begin. rewrite !run_bind. unfold malloc at 1. rewrite run_act. cbn [handle].
  rewrite Ha, run_ret. fold m'. destruct (Z.eqb_spec key DOES_NOT_EXIST); cbn [negb].
  { rewrite run_ret. change (ll_head ll) with (n_addr (head_node ll)). apply (Hd []); [done|by constructor]. }
  rewrite run_bind, (find_pred_skip fuel m' ll L key true) by done. cbn [andb].
  case_bool_decide; [done|]. rewrite run_ret.
  pose proof (before_after_clean key L Hc) as EL.
  destruct (last (before key L)) as [p|] eqn:Ep; cbn [default].
  - apply last_Some in Ep as [B EB]. rewrite EB, <- app_assoc in EL.
    apply (Hd (head_node ll :: B) p); [simpl; f_equal; exact EL|].
    rewrite EL in Hc. by apply Forall_app in Hc as [_ Hc].
  - apply last_None in Ep. rewrite Ep in EL. simpl in EL. rewrite <- EL.
    apply (Hd []); [done|by constructor].
Qed.
End sequential.

(** * Concrete lists *)

(** A list of two live keys with a removed one, still linked, between them *)
Definition ex_ll : list_t := LL 8 None.

Definition ex_L : list lnode := [LNode 16 5 50 false; LNode 24 7 0 true; LNode 32 9 90 false].

Definition ex_m : mem :=
  Mem {[ 8 := [0; 0; 16]; 16 := [5; 50; 24]; 24 := [7; 0; 33]; 32 := [9; 90; 0] ]} [] rng0.

Lemma ex_rep : ll_rep 0 ex_m ex_ll ex_L.
Proof.
  split; [done| |done| |done].
  - apply (bool_decide_unpack _). by vm_compute.
  - unfold ex_L. split; rewrite ?StronglySorted_cons_iff, ?Forall_cons, ?Forall_nil; unfold key_window;
      split_and!; done || constructor.
Qed.

Lemma ex_can_alloc k : can_alloc ex_m k.
Proof.
  intros h Eh. apply (bump_room h k 4); [|done..]. rewrite Eh. unfold ex_m. cbn [heap].
  rewrite !dom_insert_L, dom_singleton_L. intros a. rewrite !elem_of_union, !elem_of_singleton. zlia.
Qed.

Lemma ll_lookup_refines_witness :
  run (ll_lookup 9 ex_ll 9) ex_m = Done 90 ex_m /\ run (ll_lookup 9 ex_ll 7) ex_m = Done 0 ex_m.
Proof.
  split; (etransitivity; [apply (ll_lookup_refines 0 9 ex_m ex_ll ex_L);
    [apply ex_rep|by unfold key_window|simpl; lia]|by vm_compute]).
Defined.

Lemma ll_cas_refines_witness : exists m' L',
  run (ll_cas 9 ex_ll 6 CAS_EXPECT_DOES_NOT_EXIST 60) ex_m = Done DOES_NOT_EXIST m' /\
  op_result 0 ex_m m' ex_ll L' (<[6 := 60]> (<[5 := 50]> (<[9 := 90]> ∅))).
Proof.
  apply (ll_cas_refines 0 9 ex_m ex_ll ex_L 6 CAS_EXPECT_DOES_NOT_EXIST 60);
    [apply ex_rep|by unfold key_window|simpl; lia|done|apply ex_can_alloc].
Defined.

Lemma ll_remove_refines_witness : exists m' L',
  run (ll_remove 9 ex_ll 9) ex_m = Done 90 m' /\
  op_result 0 ex_m m' ex_ll L' (delete 9 (<[5 := 50]> (<[9 := 90]> ∅))).
Proof.
  apply (ll_remove_refines 0 9 ex_m ex_ll ex_L 9); [apply ex_rep|by unfold key_window|simpl; lia].
Defined.

Lemma ll_count_refines_witness : run (ll_count 9 ex_ll) ex_m = Done 2 ex_m.
Proof. apply (ll_count_refines 0 9 ex_m ex_ll ex_L); [apply ex_rep|simpl; lia]. Defined.

Lemma ll_free_releases_witness : exists m', run (ll_free 9 ex_ll) ex_m = Done tt m' /\
  deferred m' = [] /\ heap m' !! 16 = None /\ heap m' !! 8 = Some [0; 0; 16].
Proof.
  destruct (ll_free_releases 0 9 ex_m ex_ll ex_L) as (m' & E & D & Hh); [apply ex_rep|simpl; lia|].
  exists m'. split; [exact E|]. split; [exact D|]. by rewrite !Hh.
Defined.

Lemma ll_alloc_empty_witness : exists ll m',
  run (ll_alloc None) mem0 = Done ll m' /\ ll_rep 0 m' ll [] /\
  forall a, a ∈ dom (heap mem0) -> heap m' !! a = heap mem0 !! a.
Proof.
  apply (ll_alloc_empty 0 mem0 8); [by vm_compute|].
  intros h Eh. apply (bump_room h 3 1); [|done..]. rewrite Eh. cbn [heap set_heap mem0].
  rewrite dom_insert_L, dom_empty_L. intros a. rewrite elem_of_union, elem_of_singleton, elem_of_empty. zlia.
Defined.

Lemma ll_iter_next_spec_witness :
  run (ll_iter_next 9 (LLIter 800 24)) ex_m = Done (LLIter 800 0, 0, 0) ex_m /\
  run (ll_iter_next 9 (LLIter 800 0)) ex_m = Done (LLIter 800 0, 0, 0) ex_m.
Proof.
  apply (ll_iter_next_spec 0 9 800 ex_m ex_ll ex_L [head_node ex_ll; LNode 16 5 50 false]
           (LNode 24 7 0 true) [LNode 32 9 90 false]); [apply ex_rep|done|simpl; lia].
Defined.

Lemma ll_iterates_witness :
  let L := [LNode 16 5 50 false; LNode 32 9 90 false] in
  let m := Mem {[ 8 := [0; 0; 16]; 16 := [5; 50; 32]; 32 := [9; 90; 0] ]} [] rng0 in
  run (iter ⇐ ll_iter_begin 9 ex_ll 6; es ⇐ ll_drain 9 9 iter; _ ⇐ ll_iter_free iter; Ret es) m =
    Done [(9, 90)] m.
Proof.
  apply (ll_iterates 0 9 9 _ ex_ll [LNode 16 5 50 false; LNode 32 9 90 false] 6 40).
  - split; [done| |done| |done].
    + apply (bool_decide_unpack _). by vm_compute.
    + split; rewrite ?StronglySorted_cons_iff, ?Forall_cons, ?Forall_nil; unfold key_window;
        split_and!; done || constructor.
  - by repeat constructor.
  - done.
  - by vm_compute.
  - simpl; lia.
  - simpl; lia.
Defined.

(** * Where the code departs from its documentation *)

(** Create a list, add 5 ↦ 50, then run [p]. *)
Definition with_five {A} (p : list_t -> prog A) : prog A :=
  ll ⇐ ll_alloc None;
  _ ⇐ ll_cas 9 ll 5 CAS_EXPECT_DOES_NOT_EXIST 50;
  p ll.

Definition value {A} (o : outcome A) : A + err :=
  match o with Done a _ => inl a | Failed e => inr e end.

(** The difference of two 64-bit keys is truncated to [int]: a key that was
    never added is found when it differs from a stored one by a multiple of 2^32,
    and a key above a stored one by more than 2^31 is sorted, and searched for,
    before it. *)
Theorem ll_keys_truncated :
  value (run (with_five (fun ll => ll_lookup 9 ll (5 + 2 ^ 32))) mem0) = inl 50 /\
  value (run (with_five (fun ll =>
    _ ⇐ ll_cas 9 ll (6 + 2 ^ 31) CAS_EXPECT_DOES_NOT_EXIST 60;
    iter ⇐ ll_iter_begin 9 ll DOES_NOT_EXIST; ll_drain 9 9 iter)) mem0) = inl [(6 + 2 ^ 31, 60); (5, 50)].
Proof. split; by vm_compute. Qed.

(** An expectation that names a value is not compared with the value found:
    [ll_cas] that expects 51 replaces 50, where the contract of [map_cas] keeps
    it. *)
Theorem ll_cas_ignores_expected_value :
  value (run (with_five (fun ll =>
    old ⇐ ll_cas 9 ll 5 51 60; new ⇐ ll_lookup 9 ll 5; Ret (old, new))) mem0) = inl (50, 60) /\
  cas_spec {[5 := 50]} 5 51 60 = (50, {[5 := 50]}).
Proof. split; by vm_compute. Qed.

(** A removed node that is still linked ends an iteration early: although
    9 ↦ 90 is in the map, the iterator that follows 5 ↦ 50 returns the empty value
    of the removed node 7, which a client reads as the end. *)
Theorem ll_iter_stops_at_removed :
  value (run (iter ⇐ ll_iter_begin 9 ex_ll DOES_NOT_EXIST; ll_drain 9 9 iter) ex_m) = inl [(5, 50)] /\
  abs ex_L = {[5 := 50; 9 := 90]}.
Proof. split; by vm_compute. Qed.
