(* ===== verification/SkipNodes.v ===== *)
(** The nodes of a skiplist in memory, shared by the two skiplists
    ([map/unsafe_skiplist.c] and [map/skiplist.c] declare the same [node_t]): a
    list of nodes with their heights, the words each node holds, and what a store
    to one link does to them. *)
From S2P Require Import Prelude Random Machine Datatype MapSpec.

Definition MAX_LEVELS : nat := 24.

(** The words of a [node_t] *)
Definition KEY : nat := 0.

Definition VAL : nat := 1.

Definition LEVELS : nat := 2.

Definition NEXT (level : nat) : nat := 3 + level.

(** The words of a [struct sl] *)
Definition HEAD : nat := 0.

Definition KEY_TYPE : nat := 1.

Definition HIGH_WATER : nat := 2.

(** [struct sl]: its address; [head] and [key_type] never change after
    [sl_alloc], [high_water] is read from memory. *)
Record skiplist_t := SL { sl_addr : Z; sl_head : Z; sl_key_type : option datatype }.

(** A local array of node pointers, uninitialised where it has no entry *)
Abbreviation array := (gmap nat Z).

Definition arr_get (a : array) (i : nat) : prog Z :=
  match a !! i with Some v => Ret v | None => Fail Undefined end.

(** [__builtin_ctz], undefined on 0 *)
Fixpoint ctz_pos (p : positive) : Z :=
  match p with xO p => 1 + ctz_pos p | _ => 0 end.

Definition COUNT_TRAILING_ZEROS (r : Z) : prog Z :=
  match u32 r with Zpos p => Ret (ctz_pos p) | _ => Fail Undefined end.

(** [(int)(z / 1.5)] *)
Definition levels_of (z : Z) : Z := 2 * z / 3.

Definition random_levels (sl : skiplist_t) : prog nat :=
  r ⇐ nbd_rand_;
  z ⇐ COUNT_TRAILING_ZEROS r;
  let levels := levels_of z in
  if levels =? 0 then Ret 1%nat
  else
    hw ⇐ load (sl_addr sl) HIGH_WATER;
    levels ⇐ (if hw <? levels then SYNC_ADD 32 (sl_addr sl) HIGH_WATER 1 else Ret levels);
    Ret (if Z.of_nat MAX_LEVELS <? levels then MAX_LEVELS else Z.to_nat levels).

(** [memset] of [k] words to 0, from word [i] on *)
Fixpoint memset0 (p : Z) (i k : nat) : prog unit :=
  match k with
  | O => Ret tt
  | S k => _ ⇐ store p i 0; memset0 p (S i) k
  end.

(** The body of [node_alloc] after its assertion *)
Definition node_init (num_levels : nat) (key val : Z) : prog Z :=
  item ⇐ malloc (3 + num_levels);
  _ ⇐ memset0 item 0 (3 + num_levels);
  _ ⇐ store item KEY key;
  _ ⇐ store item VAL val;
  _ ⇐ store item LEVELS (Z.of_nat num_levels);
  Ret item.

(** [new_item->next[level] = nexts[level]], [k] levels from [l] on *)
Fixpoint set_links (item : Z) (nexts : array) (l k : nat) : prog unit :=
  match k with
  | O => Ret tt
  | S k => v ⇐ arr_get nexts l; _ ⇐ store item (NEXT l) v; set_links item nexts (S l) k
  end.

(** * Representation *)

(** A node: its address, key, value and number of levels *)
Record snode := SNode { s_addr : Z; s_key : Z; s_val : Z; s_lvl : nat }.

(** The nodes linked at level [l] *)
Definition at_level (l : nat) (L : list snode) : list snode := filter (fun n => (l < s_lvl n)%nat) L.

Definition addr_or (L : list snode) : Z := match L with [] => 0 | n :: _ => s_addr n end.

(** The link at level [l] of a node followed by [R] *)
Definition succ (l : nat) (R : list snode) : Z := addr_or (at_level l R).

Definition words (p : snode) (f : nat -> Z) : list Z :=
  [s_key p; s_val p; Z.of_nat (s_lvl p)] ++ (f <$> seq 0 (s_lvl p)).

(** Every node of [P] is in the heap; the link of a node at level [l] is [F R l]
    when [R] follows it in [P]. *)
Definition skip_with (F : list snode -> nat -> Z) (h : heap_t) (P : list snode) : Prop :=
  forall A p R, P = A ++ p :: R -> h !! s_addr p = Some (words p (F R)).

(** The links are those of the list [P ++ C]. *)
Definition links (C : list snode) (R : list snode) (l : nat) : Z := succ l (R ++ C).

Definition skip (h : heap_t) (P : list snode) : Prop := skip_with (links []) h P.

Lemma words_next p f l : (l < s_lvl p)%nat -> words p f !! NEXT l = Some (f l).
Proof.
  intros Hl. unfold words, NEXT. simpl. by rewrite list_lookup_fmap, lookup_seq_lt.
Qed.

Lemma words_insert p f l v :
  (l < s_lvl p)%nat -> <[NEXT l := v]> (words p f) = words p (fun k => if decide (k = l) then v else f k).
Proof.
  intros Hl. unfold words, NEXT. simpl. do 3 f_equal. apply list_eq. intros i.
  destruct (decide (i < s_lvl p)%nat) as [Hi|Hi].
  - destruct (decide (i = l)) as [->|Hne].
    + rewrite list_lookup_insert_eq by (by rewrite length_fmap, length_seq).
      rewrite list_lookup_fmap, lookup_seq_lt by done. simpl. by rewrite decide_True.
    + rewrite list_lookup_insert_ne by done. rewrite !list_lookup_fmap, lookup_seq_lt by done. simpl.
      by rewrite decide_False.
  - rewrite !lookup_ge_None_2; rewrite ?length_insert, ?length_fmap, ?length_seq; done || lia.
Qed.

Lemma words_ext p f g : (forall l, (l < s_lvl p)%nat -> f l = g l) -> words p f = words p g.
Proof.
  intros H. unfold words. f_equal. apply list_fmap_ext. intros i x [-> Hi]%lookup_seq. apply H. lia.
Qed.

Lemma skip_with_lookup F h P A p R :
  skip_with F h P -> P = A ++ p :: R -> h !! s_addr p = Some (words p (F R)).
Proof. intros H E. by eapply H. Qed.

Lemma skip_with_ext F G h P :
  (forall A p R l, P = A ++ p :: R -> (l < s_lvl p)%nat -> F R l = G R l) ->
  skip_with F h P -> skip_with G h P.
Proof.
  intros HFG H A p R E. rewrite (H _ _ _ E). f_equal. apply words_ext. eauto.
Qed.

Lemma skip_with_app F h P Q :
  skip_with F h (P ++ Q) <-> skip_with (fun R => F (R ++ Q)) h P /\ skip_with F h Q.
Proof.
  split.
  - intros H. split.
    + intros A p R ->. apply (H A). by rewrite <- app_assoc.
    + intros A p R ->. apply (H (P ++ A)). by rewrite <- app_assoc.
  - intros [HP HQ] A p R E. destruct (app_eq_inv _ _ _ _ E) as [(K & -> & EK)|(K & -> & EK)].
    + destruct K as [|x K]; simplify_eq/=.
      * by apply (HQ []).
      * rewrite (HP A x K) by done. done.
    + by apply (HQ K).
Qed.

Lemma skip_with_fresh F h P a b : a ∉ s_addr <$> P -> skip_with F h P -> skip_with F (<[a := b]> h) P.
Proof.
  intros Ha H A p R E. rewrite lookup_insert_ne; [by apply (H A)|]. intros ->. apply Ha.
  rewrite E, fmap_app. apply elem_of_app. right. left.
Qed.

Lemma skip_with_delete F h P a : a ∉ s_addr <$> P -> skip_with F h P -> skip_with F (delete a h) P.
Proof.
  intros Ha H A p R E. rewrite lookup_delete_ne; [by apply (H A)|]. intros ->. apply Ha.
  rewrite E, fmap_app. apply elem_of_app. right. left.
Qed.

(** A store to the link at level [l] of the node [q] *)
Lemma skip_with_store F G h P A q R l v b :
  skip_with F h P -> NoDup (s_addr <$> P) -> P = A ++ q :: R -> (l < s_lvl q)%nat ->
  h !! s_addr q = Some b ->
  (forall k, (k < s_lvl q)%nat -> G R k = if decide (k = l) then v else F R k) ->
  (forall A' p R' k, P = A' ++ p :: R' -> s_addr p <> s_addr q -> (k < s_lvl p)%nat -> G R' k = F R' k) ->
  skip_with G (<[s_addr q := <[NEXT l := v]> b]> h) P.
Proof.
  intros H Hnd E Hl Hb Hq Hp A' p R' E'. destruct (decide (s_addr p = s_addr q)) as [Ea|Hne].
  - assert (A' = A /\ p = q /\ R' = R) as (-> & -> & ->).
    { rewrite E in E', Hnd. clear -E' Ea Hnd. revert A' E'. induction A as [|x A IH]; intros [|y A'] E'; simplify_eq/=.
      - done.
      - exfalso. rewrite fmap_app in Hnd. apply NoDup_cons in Hnd as [Hn _]. apply Hn, elem_of_app. right.
        rewrite <- Ea. left.
      - exfalso. rewrite fmap_app in Hnd. apply NoDup_cons in Hnd as [Hn _]. apply Hn, elem_of_app. right.
        rewrite Ea. left.
      - apply NoDup_cons in Hnd as [_ Hnd]. destruct (IH Hnd A') as (-> & -> & ->); done. }
    rewrite lookup_insert_eq. f_equal. rewrite (H _ _ _ E) in Hb. simplify_eq.
    rewrite words_insert by done. apply words_ext. intros k Hk. by rewrite Hq.
  - rewrite lookup_insert_ne by congruence. rewrite (H _ _ _ E'). f_equal. apply words_ext.
    intros k Hk. symmetry. by eapply Hp.
Qed.

(** ** Levels *)

Lemma at_level_app l A B : at_level l (A ++ B) = at_level l A ++ at_level l B.
Proof. apply filter_app. Qed.

Lemma at_level_cons l n A :
  at_level l (n :: A) = if decide (l < s_lvl n)%nat then n :: at_level l A else at_level l A.
Proof. unfold at_level. by rewrite filter_cons. Qed.

(** The first node of a level *)
Lemma at_level_first l X y Y :
  at_level l X = y :: Y ->
  exists X1 X2, X = X1 ++ y :: X2 /\ at_level l X1 = [] /\ (l < s_lvl y)%nat /\ Y = at_level l X2.
Proof.
  induction X as [|x X IH]; [done|]. rewrite at_level_cons. case_decide as Hx.
  - intros [= -> <-]. by exists [], X.
  - intros (X1 & X2 & -> & E1 & Hy & EY)%IH. exists (x :: X1), X2. rewrite at_level_cons.
    by rewrite decide_False.
Qed.

Lemma succ_app_nil l A B : at_level l A = [] -> succ l (A ++ B) = succ l B.
Proof. intros E. unfold succ. by rewrite at_level_app, E. Qed.

Lemma succ_app_cons l A B C : at_level l A <> [] -> succ l (A ++ B) = succ l (A ++ C).
Proof. intros E. unfold succ. rewrite !at_level_app. by destruct (at_level l A). Qed.

Lemma succ_cons l n B : (l < s_lvl n)%nat -> succ l (n :: B) = s_addr n.
Proof. intros H. unfold succ. rewrite at_level_cons. by rewrite decide_True. Qed.

Lemma succ_skip l n B : ~ (l < s_lvl n)%nat -> succ l (n :: B) = succ l B.
Proof. intros H. unfold succ. rewrite at_level_cons. by rewrite decide_False. Qed.

(** The last node of [P] at level [l]: it is [q], followed in [P] by [R], none of
    which is at the level. *)
Definition pred_at (l : nat) (P : list snode) (q : snode) : Prop :=
  exists A R, P = A ++ q :: R /\ (l < s_lvl q)%nat /\ at_level l R = [].

Lemma pred_at_unique l P q A p R :
  pred_at l P q -> P = A ++ p :: R -> (l < s_lvl p)%nat -> at_level l R = [] -> p = q.
Proof.
  intros (A' & R' & E & Hq & ER') E' Hp ER.
  assert (last (at_level l P) = Some q) as H1.
  { rewrite E, at_level_app, at_level_cons, decide_True, ER' by done. by rewrite last_snoc. }
  assert (last (at_level l P) = Some p) as H2.
  { rewrite E', at_level_app, at_level_cons, decide_True, ER by done. by rewrite last_snoc. }
  congruence.
Qed.

(** * Linking a node in, level by level from the bottom *)

(** Links in which the levels below [k], and only they, know the node [n]. *)
Definition links_upto (n : snode) (C : list snode) (k : nat) (R : list snode) (l : nat) : Z :=
  if decide (l < k)%nat then succ l (R ++ n :: C) else succ l (R ++ C).

Lemma link_step n C h P q k b :
  skip_with (links_upto n C k) h P -> NoDup (s_addr <$> P) -> pred_at k P q -> (k < s_lvl n)%nat ->
  h !! s_addr q = Some b ->
  skip_with (links_upto n C (S k)) (<[s_addr q := <[NEXT k := s_addr n]> b]> h) P.
Proof.
  intros H Hnd Hq Hk Hb. pose proof Hq as (A & R & E & Hlq & ER).
  eapply skip_with_store; try done; unfold links_upto.
  - intros j Hj. destruct (decide (j = k)) as [->|Hne].
    + rewrite decide_True by lia. rewrite succ_app_nil by done. by apply succ_cons.
    + repeat case_decide; done || lia.
  - intros A' p R' j E' Hne Hj. destruct (decide (j = k)) as [->|]; [|repeat case_decide; done || lia].
    rewrite decide_True, decide_False by lia. apply succ_app_cons. intros ER'.
    apply Hne. f_equal. by eapply pred_at_unique.
Qed.

Lemma links_upto_0 n C h P : skip_with (links C) h P -> skip_with (links_upto n C 0) h P.
Proof. apply skip_with_ext. intros. unfold links_upto. by rewrite decide_False by lia. Qed.

Lemma links_upto_all n C k h P :
  (s_lvl n <= k)%nat -> skip_with (links_upto n C k) h P -> skip_with (links (n :: C)) h P.
Proof.
  intros Hk. apply skip_with_ext. intros A p R l _ _. unfold links_upto, links. case_decide; [done|].
  unfold succ. rewrite !at_level_app, at_level_cons, decide_False by lia. done.
Qed.

(** * Taking a node out, level by level from the top *)

Lemma unlink_step n C h P q k b :
  skip_with (links_upto n C (S k)) h P -> NoDup (s_addr <$> P) -> pred_at k P q ->
  h !! s_addr q = Some b ->
  skip_with (links_upto n C k) (<[s_addr q := <[NEXT k := succ k C]> b]> h) P.
Proof.
  intros H Hnd Hq Hb. pose proof Hq as (A & R & E & Hlq & ER).
  eapply skip_with_store; try done; unfold links_upto.
  - intros j Hj. destruct (decide (j = k)) as [->|Hne].
    + rewrite decide_False by lia. by apply succ_app_nil.
    + repeat case_decide; done || lia.
  - intros A' p R' j E' Hne Hj. destruct (decide (j = k)) as [->|]; [|repeat case_decide; done || lia].
    rewrite decide_False, decide_True by lia. apply succ_app_cons. intros ER'.
    apply Hne. f_equal. by eapply pred_at_unique.
Qed.

Lemma unlink_above n C h P k :
  (s_lvl n <= k)%nat -> skip_with (links_upto n C (S k)) h P -> skip_with (links_upto n C k) h P.
Proof.
  intros Hk. apply skip_with_ext. intros A p R l _ _. unfold links_upto.
  destruct (decide (l = k)) as [->|]; [|repeat case_decide; done || lia].
  rewrite decide_True, decide_False by lia. unfold succ.
  rewrite !at_level_app, at_level_cons, decide_False by lia. done.
Qed.

Lemma links_upto_top n C k h P :
  (s_lvl n <= k)%nat -> skip_with (links (n :: C)) h P -> skip_with (links_upto n C k) h P.
Proof.
  intros Hk. apply skip_with_ext. intros A p R l _ _. unfold links_upto, links. case_decide; [done|].
  unfold succ. rewrite !at_level_app, at_level_cons, decide_False by lia. done.
Qed.

Lemma links_upto_none n C h P : skip_with (links_upto n C 0) h P -> skip_with (links C) h P.
Proof. apply skip_with_ext. intros. unfold links_upto. by rewrite decide_False by lia. Qed.

(** * Skiplists *)

Definition head_node (sl : skiplist_t) : snode := SNode (sl_head sl) 0 0 MAX_LEVELS.

Record sl_nodes (base : Z) (L : list snode) : Prop := {
  sn_ptr : Forall (fun n => node_ptr (s_addr n)) L;
  sn_sorted : StronglySorted (fun a b => s_key a < s_key b) L;
  sn_keys : Forall (fun n => key_window base (s_key n)) L;
  sn_vals : Forall (fun n => 0 < s_val n < 2 ^ 63) L;
}.

(** The skiplist [sl] of integer keys holds the nodes [L] in memory [m], none of
    them higher than [hw]. *)
Record sl_rep (base : Z) (m : mem) (sl : skiplist_t) (hw : nat) (L : list snode) : Prop := {
  sr_nodes : skip (heap m) (head_node sl :: L);
  sr_struct : exists k, heap m !! sl_addr sl = Some [sl_head sl; k; Z.of_nat hw];
  sr_nodup : NoDup (sl_addr sl :: (s_addr <$> head_node sl :: L));
  sr_head : node_ptr (sl_head sl);
  sr_wf : sl_nodes base L;
  sr_water : (1 <= hw <= MAX_LEVELS)%nat;
  sr_levels : Forall (fun n => (1 <= s_lvl n <= hw)%nat) L;
  sr_int : sl_key_type sl = None;
}.

(** The map a skiplist stands for *)
Fixpoint abs (L : list snode) : gmap Z Z :=
  match L with [] => ∅ | n :: L => <[s_key n := s_val n]> (abs L) end.

(** The pairs of a skiplist in the order of the keys *)
Definition entries (L : list snode) : list (Z * Z) := (fun n => (s_key n, s_val n)) <$> L.

(** [L] split at [key] *)
Definition below (key : Z) (L : list snode) : list snode := filter (fun n => s_key n < key) L.

Definition above (key : Z) (L : list snode) : list snode := filter (fun n => key <= s_key n) L.

Definition hit (key : Z) (C : list snode) : bool :=
  match C with [] => false | c :: _ => s_key c =? key end.

Section nodes.
Context (base : Z).
Implicit Types (L A B C : list snode) (n : snode).

Lemma sl_nodes_app A B :
  sl_nodes base (A ++ B) <->
  sl_nodes base A /\ sl_nodes base B /\ (forall x y, x ∈ A -> y ∈ B -> s_key x < s_key y).
Proof.
  split.
  - intros [H1 H2 H3 H4]. rewrite Forall_app in H1, H3, H4. apply StronglySorted_app_iff in H2 as (? & ? & ?).
    destruct_and!. by split_and!; [split..|].
  - intros ([H1 H2 H3 H4] & [K1 K2 K3 K4] & H). split; rewrite ?Forall_app; try done.
    by apply StronglySorted_app_iff.
Qed.

Lemma sl_nodes_cons n L :
  sl_nodes base (n :: L) <-> sl_nodes base [n] /\ sl_nodes base L /\ (forall y, y ∈ L -> s_key n < s_key y).
Proof.
  change (n :: L) with ([n] ++ L). rewrite sl_nodes_app. split; intros (H1 & H2 & H); split_and!; try done.
  - intros y Hy. by apply H; [left|].
  - intros x y ->%list_elem_of_singleton. apply H.
Qed.

Lemma split_key key L : sl_nodes base L -> L = below key L ++ above key L.
Proof.
  induction L as [|n L IH]; [done|]. intros (_ & Hw & Hlt)%sl_nodes_cons. specialize (IH Hw).
  unfold below, above in *. rewrite !filter_cons. destruct (decide (s_key n < key)).
  - rewrite decide_False by lia. simpl. by rewrite <- IH.
  - rewrite decide_True by lia. assert (filter (fun n => s_key n < key) L = []) as E.
    { apply elem_of_nil_inv. intros x [? ?%Hlt]%list_elem_of_filter. lia. }
    rewrite E in *. simpl in *. by rewrite <- IH.
Qed.

Lemma below_keys key L n : n ∈ below key L -> n ∈ L /\ s_key n < key.
Proof. intros [??]%list_elem_of_filter. done. Qed.

Lemma above_keys key L n : n ∈ above key L -> n ∈ L /\ key <= s_key n.
Proof. intros [??]%list_elem_of_filter. done. Qed.

Lemma abs_None L k : (forall n, n ∈ L -> s_key n <> k) -> abs L !! k = None.
Proof.
  induction L as [|n L IH]; [done|]. intros H. simpl. rewrite lookup_insert_ne.
  - apply IH. intros x Hx. apply H. by right.
  - apply H. left.
Qed.

(** The first key is the smallest. *)
Lemma abs_least n L :
  sl_nodes base (n :: L) ->
  (abs (n :: L) = ∅ -> s_key n = DOES_NOT_EXIST) /\
  (abs (n :: L) <> ∅ -> is_Some (abs (n :: L) !! s_key n) /\ forall k', is_Some (abs (n :: L) !! k') -> s_key n <= k').
Proof.
  intros [_ Hs _ _]. split.
  - intros E. apply (f_equal (fun M : gmap Z Z => M !! s_key n)) in E. simpl in E. by rewrite lookup_insert_eq in E.
  - intros _. simpl. rewrite lookup_insert_eq. split; [done|]. intros k' Hk'.
    apply StronglySorted_cons_iff in Hs as [_ Hs].
    destruct (decide (s_key n = k')) as [->|Hne]; [done|]. rewrite lookup_insert_ne in Hk' by done.
    destruct (decide (s_key n <= k')) as [|Hlt]; [done|]. exfalso. rewrite abs_None in Hk'; [by destruct Hk'|].
    rewrite Forall_forall in Hs. intros x ?%Hs. lia.
Qed.

Lemma sl_abs_app A B : (forall x y, x ∈ A -> y ∈ B -> s_key x < s_key y) -> abs (A ++ B) = abs A ∪ abs B.
Proof.
  induction A as [|n A IH]; intros H; simpl; [by rewrite (left_id_L ∅ (∪))|].
  rewrite IH, insert_union_l; [done|]. intros x y Hx. apply H. by right.
Qed.

Lemma abs_lookup key L :
  sl_nodes base L ->
  abs L !! key = match above key L with
                 | c :: _ => if s_key c =? key then Some (s_val c) else None
                 | [] => None
                 end.
Proof.
  intros Hw. pose proof (split_key key L Hw) as E. rewrite E in Hw |- * at 1.
  apply sl_nodes_app in Hw as (_ & Hw & Hlt). rewrite sl_abs_app, lookup_union_r by
    (done || (apply abs_None; intros n [_ ?]%below_keys; lia)).
  pose proof (fun n => above_keys key L n) as Hge. destruct (above key L) as [|c R]; [done|].
  apply sl_nodes_cons in Hw as (_ & _ & Hc). simpl. destruct (Z.eqb_spec (s_key c) key) as [<-|Hne].
  - apply lookup_insert_eq.
  - rewrite lookup_insert_ne by done. apply abs_None. intros x Hx%Hc.
    destruct (Hge c ltac:(left)). lia.
Qed.
End nodes.

(** * Walking along a level *)

(** The heap links the nodes of [P] that are at level [l]. *)
Definition level_ok (h : heap_t) (l : nat) (P : list snode) : Prop :=
  forall A p R, P = A ++ p :: R -> (l < s_lvl p)%nat ->
    exists b, h !! s_addr p = Some b /\ b !! KEY = Some (s_key p) /\ b !! NEXT l = Some (succ l R).

Lemma skip_level_ok h l P : skip h P -> level_ok h l P.
Proof.
  intros H A p R E Hl. exists (words p (links [] R)). split; [by eapply H|]. split; [done|].
  rewrite words_next by done. unfold links. by rewrite app_nil_r.
Qed.

(** While a node is being taken out, the levels it has not left yet are intact. *)
Lemma upto_level_ok h l k n C P :
  skip_with (links_upto n C k) h P -> skip h (n :: C) -> (l < k)%nat -> level_ok h l (P ++ n :: C).
Proof.
  intros HP HC Hk A p R E Hl. destruct (app_eq_inv _ _ _ _ E) as [(K & -> & EK)|(K & -> & EK)].
  - destruct K as [|x K]; simplify_eq/=.
    + destruct (skip_level_ok h l _ HC [] n C) as (b & ?); try done. eauto.
    + exists (words x (links_upto n C k K)). split; [by eapply HP|]. split; [done|].
      rewrite words_next by done. unfold links_upto. by rewrite decide_True.
  - apply (skip_level_ok h l _ HC K); done.
Qed.

Lemma level_ok_store h l k P a b v :
  level_ok h l P -> l <> k -> h !! a = Some b -> level_ok (<[a := <[NEXT k := v]> b]> h) l P.
Proof.
  intros H Hne Ha A p R E Hl. destruct (H A p R E Hl) as (b' & Hb & Hk & Hn).
  destruct (decide (s_addr p = a)) as [<-|].
  - rewrite lookup_insert_eq. eexists. split; [done|]. simplify_eq.
    unfold NEXT, KEY in *. rewrite !list_lookup_insert_ne by lia. done.
  - rewrite lookup_insert_ne by done. eauto.
Qed.

Lemma pred_at_here l A p R : (l < s_lvl p)%nat -> at_level l R = [] -> pred_at l (A ++ p :: R) p.
Proof. intros. by exists A, R. Qed.

Lemma addr_or_zero l P : Forall (fun n => node_ptr (s_addr n)) P -> succ l P = 0 <-> at_level l P = [].
Proof.
  intros Hp. unfold succ. destruct (at_level l P) as [|y Y] eqn:E; [done|].
  apply at_level_first in E as (X1 & X2 & -> & _). rewrite Forall_app, Forall_cons in Hp.
  destruct Hp as (_ & [[? _] _] & _). simpl. split; [lia|done].
Qed.

(** The last node of the level is [p] or comes after it. *)
Lemma pred_at_after l A p B q :
  pred_at l (A ++ p :: B) q -> (l < s_lvl p)%nat ->
  exists A' K R, A ++ p :: B = A' ++ q :: R /\ (l < s_lvl q)%nat /\ B = K ++ R /\ at_level l R = [].
Proof.
  intros (A' & R & E & Hq & ER) Hp.
  destruct (app_eq_inv _ _ _ _ E) as [(K & -> & EK)|(K & -> & EK)]; destruct K as [|x K]; simplify_eq/=.
  - by exists A', [], B.
  - rewrite at_level_app, at_level_cons, decide_True in ER by done. by destruct (at_level l K).
  - by exists A, [], R.
  - exists (A ++ x :: K), (K ++ [q]), R. rewrite <- !app_assoc. done.
Qed.

(** * Memory operations on nodes *)

Section memory.
Context `{Allocator}.

Lemma wp_memset0 m p i k b (Q : unit -> mem -> Prop) :
  heap m !! p = Some b -> (i + k <= length b)%nat ->
  Q tt (set_heap m (<[p := take i b ++ replicate k 0 ++ drop (i + k) b]> (heap m))) ->
  wp (memset0 p i k) m Q.
Proof.
  revert m i b. induction k as [|k IH]; intros m i b Hb Hl HQ; cbn [memset0].
  { apply wp_ret. rewrite Nat.add_0_r in HQ. cbn [replicate app] in HQ.
    rewrite take_drop, (insert_id (heap m) p b Hb), set_heap_same in HQ. done. }
  apply wp_bind. eapply wp_store; [done|lia|]. cbn [heap set_heap].
  eapply (IH _ _ (<[i := 0]> b)); [by simplify_map_eq|by rewrite length_insert; lia|].
  cbn [heap set_heap]. rewrite insert_insert_eq.
  rewrite (insert_take_drop b i 0) by lia. rewrite (cons_middle 0), app_assoc.
  rewrite take_app_length', drop_app_ge.
  - rewrite length_app, length_take. simpl.
    rewrite drop_drop. replace (S i + (S (i + k) - (i `min` length b + 1)))%nat with (i + S k)%nat by lia.
    by rewrite <- (app_assoc (take i b) [0] (replicate k 0 ++ _)).
  - rewrite length_app, length_take. simpl. lia.
  - rewrite length_app, length_take. simpl. lia.
Qed.

(** A new node: key, value and height, all links null *)
Lemma wp_node_init m (n : nat) key val (Q : Z -> mem -> Prop) :
  can_alloc m (3 + n) ->
  (forall a, heap m !! a = None -> node_ptr a ->
     Q a (set_heap m (<[a := words (SNode a key val n) (fun _ => 0)]> (heap m)))) ->
  wp (node_init n key val) m Q.
Proof.
  intros Hc HQ. destruct (Hc (heap m) eq_refl) as [a Ha]. unfold node_init. apply wp_bind.
  eapply wp_malloc; [exact Ha|]. intros Hfr Hptr Hlen. apply wp_bind.
  eapply wp_memset0; [by apply lookup_insert_eq|lia|]. cbn [heap set_heap].
  rewrite insert_insert_eq, take_0, drop_ge by lia. rewrite app_nil_r. simpl app.
  wp_op. wp_op. wp_op. wp_op. rewrite !insert_insert_eq. simpl.
  specialize (HQ a Hfr Hptr). unfold words in HQ. simpl in HQ.
  assert (((fun _ => 0) <$> seq 0 n) = replicate n 0) as E.
  { clear. generalize 0%nat. induction n as [|n IH]; intros i; simpl; [done|]. by rewrite IH. }
  by rewrite E in HQ.
Qed.
End memory.

Lemma ctz_pos_bound p k : (Zpos p < 2 ^ k) -> 0 <= k -> 0 <= ctz_pos p < k.
Proof.
  revert k. induction p as [p IH|p IH|]; intros k Hp Hk; cbn [ctz_pos].
  - split; [lia|]. destruct (decide (k = 0)) as [->|]; [|lia]. simpl in Hp. lia.
  - destruct (decide (k = 0)) as [->|]; [simpl in Hp; lia|].
    assert (2 ^ k = 2 * 2 ^ (k - 1)) as E by (rewrite <- Z.pow_succ_r by lia; f_equal; lia).
    specialize (IH (k - 1) ltac:(lia) ltac:(lia)). lia.
  - split; [lia|]. destruct (decide (k = 0)) as [->|]; [|lia]. simpl in Hp. lia.
Qed.

Section water.
Context `{Allocator} (base : Z).

(** Raising the high water mark *)
Lemma rep_water m sl hw hw' L k dfr rnd :
  sl_rep base m sl hw L -> (hw <= hw' <= MAX_LEVELS)%nat ->
  sl_rep base (Mem (<[sl_addr sl := [sl_head sl; k; Z.of_nat hw']]> (heap m)) dfr rnd) sl hw' L.
Proof.
  intros [H1 H2 H3 H4 H5 H6 H7 H8] Hw. apply NoDup_cons in H3 as H3'. destruct H3' as [Hn _].
  split; try done; cbn [heap].
  - by apply skip_with_fresh.
  - exists k. apply lookup_insert_eq.
  - lia.
  - eapply Forall_impl; [done|]. simpl. lia.
Qed.

Lemma rep_rand m sl hw L dfr rnd : sl_rep base m sl hw L -> sl_rep base (Mem (heap m) dfr rnd) sl hw L.
Proof. by intros [H1 H2 H3 H4 H5 H6 H7 H8]; split. Qed.

(** The next random number does not end in 32 zero bits. *)
Definition rand_ok (m : mem) : Prop := u32 (nbd_rand (rand m)).1 <> 0.

(** [random_levels] returns a height that the list can hold, raising the high
    water mark by one at most. *)
Lemma wp_random_levels m sl hw L (Q : nat -> mem -> Prop) :
  sl_rep base m sl hw L -> rand_ok m ->
  (forall n hw' m', sl_rep base m' sl hw' L -> (1 <= n <= hw')%nat -> (hw <= hw')%nat ->
     dom (heap m') = dom (heap m) -> deferred m' = deferred m -> Q n m') ->
  wp (random_levels sl) m Q.
Proof.
  intros Hrep Hr HQ. unfold random_levels. apply wp_bind, wp_rand. apply wp_bind.
  unfold COUNT_TRAILING_ZEROS, rand_ok in *. pose proof (u32_range (nbd_rand (rand m)).1) as Hrange.
  destruct (u32 (nbd_rand (rand m)).1) as [|p|p]; [done| |lia]. apply wp_ret.
  pose proof (ctz_pos_bound p 32 ltac:(lia) ltac:(lia)) as Hz.
  set (m1 := Mem (heap m) (deferred m) (nbd_rand (rand m)).2).
  assert (Hrep1 : sl_rep base m1 sl hw L) by by apply rep_rand.
  pose proof (sr_water _ _ _ _ _ Hrep) as Hhw. destruct (sr_struct _ _ _ _ _ Hrep1) as [k Hk].
  assert (Hlev : 0 <= levels_of (ctz_pos p) <= 20) by (unfold levels_of; zlia).
  destruct (Z.eqb_spec (levels_of (ctz_pos p)) 0); [apply wp_ret; eapply (HQ 1%nat hw); done || lia|].
  apply wp_bind. eapply wp_load; [exact Hk|done|]. apply wp_bind.
  destruct (Z.ltb_spec (Z.of_nat hw) (levels_of (ctz_pos p))).
  - eapply wp_add; [exact Hk|done|]. apply wp_ret. rewrite Z.mod_small by lia.
    rewrite (proj2 (Z.ltb_ge _ _)) by (unfold MAX_LEVELS; lia). cbn [heap set_heap m1].
    eapply (HQ _ (S hw)); [|lia|lia| |done].
    + replace (Z.of_nat hw + 1) with (Z.of_nat (S hw)) by lia. eapply (rep_water m1 sl hw (S hw) L k); [done|unfold MAX_LEVELS; lia].
    + apply (dom_insert_lookup_L (D := gset Z)). by eexists.
  - apply wp_ret. rewrite (proj2 (Z.ltb_ge _ _)) by (unfold MAX_LEVELS; lia). eapply (HQ _ hw); done || lia.
Qed.

(** Changing the value of a node *)
Lemma rep_set_val m sl hw B n C v :
  sl_rep base m sl hw (B ++ n :: C) -> 0 < v < 2 ^ 63 ->
  sl_rep base (set_heap m (<[s_addr n := <[VAL := v]> (words n (links [] C))]> (heap m))) sl hw
    (B ++ SNode (s_addr n) (s_key n) v (s_lvl n) :: C).
Proof.
  intros [H1 H2 H3 H4 H5 H6 H7 H8] Hv. set (n' := SNode (s_addr n) (s_key n) v (s_lvl n)).
  assert (Hsucc : forall R l, succ l (R ++ n' :: C) = succ l (R ++ n :: C)).
  { intros R l. unfold succ. rewrite !at_level_app, !at_level_cons. simpl.
    by destruct (at_level l R); [case_decide|]. }
  assert (En : <[VAL := v]> (words n (links [] C)) = words n' (links [] C)) by done.
  pose proof H3 as [Hsl Hnd]%NoDup_cons. cbn [fmap list_fmap] in Hnd, Hsl. rewrite fmap_app in Hnd, Hsl.
  split; cbn [heap set_heap]; try done.
  - change (head_node sl :: B ++ n' :: C) with ((head_node sl :: B) ++ n' :: C).
    change (head_node sl :: B ++ n :: C) with ((head_node sl :: B) ++ n :: C) in H1.
    unfold skip in *. rewrite skip_with_app in *. destruct H1 as [HP HC].
    simpl in Hnd. rewrite app_comm_cons, NoDup_app in Hnd. destruct Hnd as (_ & HdB & HdC).
    split.
    + apply skip_with_fresh. { intros Hin. apply (HdB _ Hin). left. }
      eapply skip_with_ext; [|exact HP]. intros A p R l _ _. unfold links. by rewrite !app_nil_r, Hsucc.
    + change (n' :: C) with ([n'] ++ C). change (n :: C) with ([n] ++ C) in HC.
      rewrite skip_with_app in *. destruct HC as [_ HC]. split.
      * intros [|a [|b A]] p R E; simplify_eq/=. rewrite lookup_insert_eq. by rewrite En.
      * apply NoDup_cons in HdC as [HnC _]. by apply skip_with_fresh.
  - destruct H2 as [k Hk]. exists k. rewrite lookup_insert_ne; [done|]. intros E. apply Hsl.
    right. apply elem_of_app. right. rewrite <- E. left.
  - cbn [fmap list_fmap] in *. by rewrite !fmap_app in *.
  - change (n' :: C) with ([n'] ++ C). change (n :: C) with ([n] ++ C) in H5.
    rewrite !sl_nodes_app in *. destruct H5 as (HB & ([W1 W2 W3 W4] & HC & HnC) & HBn).
    split_and!; try done.
    + split; [..|by apply Forall_singleton]; try (by rewrite Forall_singleton in * ). by repeat constructor.
    + intros x y ->%list_elem_of_singleton. apply (HnC n). left.
    + intros x y Hx [->%list_elem_of_singleton|Hy]%elem_of_app.
      * apply (HBn x n); [done|]. apply elem_of_app. left. left.
      * apply HBn; [done|]. apply elem_of_app. by right.
  - rewrite Forall_app, Forall_cons in *. done.
Qed.

(** The body of [sl_alloc], [c] the assertion of [node_alloc] *)
Lemma wp_sl_init m a1 c :
  c = true -> alloc (heap m) 3 = Some a1 ->
  can_alloc (set_heap m (<[a1 := [0; 0; 1]]> (heap m))) (3 + MAX_LEVELS) ->
  wp (sl ⇐ malloc 3;
      _ ⇐ store sl KEY_TYPE 0;
      _ ⇐ store sl HIGH_WATER 1;
      head ⇐ (_ ⇐ assert c; node_init MAX_LEVELS 0 0);
      _ ⇐ store sl HEAD head;
      _ ⇐ memset0 head (NEXT 0) MAX_LEVELS;
      Ret (SL sl head None)) m (fun sl m' => sl_rep base m' sl 1 []).
Proof.
  intros -> Ha1 Hc. apply wp_bind. eapply wp_malloc; [exact Ha1|]. intros Hfr Hp1 Hlen.
  destruct (junk (heap m) 3) as [|j0 [|j1 [|j2 [|]]]]; try done.
  wp_op. wp_op. rewrite !insert_insert_eq.  apply wp_bind, wp_bind, wp_assert; [done|].
  apply wp_node_init.
  { intros h Eh. apply Hc. rewrite Eh. cbn [heap set_heap]. by rewrite !dom_insert_L. }
  intros a Hfa Hpa. cbn [heap set_heap] in *. assert (Hne : a1 <> a) by (intros ->; by rewrite lookup_insert_eq in Hfa).
  apply wp_bind. eapply wp_store; [cbn [heap set_heap]; by rewrite lookup_insert_ne, lookup_insert_eq by done|simpl; unfold HEAD; lia|].
  cbn [heap set_heap]. apply wp_bind. eapply wp_memset0.
  { cbn [heap set_heap]. by rewrite lookup_insert_ne, lookup_insert_eq by done. }
  { done. }
  apply wp_ret. split; cbn [sl_addr sl_head sl_key_type heap set_heap]; try done.
  - intros [|x [|y A]] p R E; simplify_eq/=. by rewrite lookup_insert_eq.
  - eexists. rewrite lookup_insert_ne, lookup_insert_eq by done. done.
  - cbn. repeat constructor; set_solver.
  - by repeat constructor.
  - unfold MAX_LEVELS. lia.
Qed.

(** A block allocated elsewhere *)
Lemma rep_fresh m sl hw L a b :
  sl_rep base m sl hw L -> heap m !! a = None -> sl_rep base (set_heap m (<[a := b]> (heap m))) sl hw L.
Proof.
  intros [H1 H2 H3 H4 H5 H6 H7 H8] Hfr. split; try done.
  - apply skip_with_fresh; [|done]. intros (x & -> & (A & R & E)%list_elem_of_split)%list_elem_of_fmap.
    rewrite (H1 _ _ _ E) in Hfr. done.
  - destruct H2 as [k Hk']. exists k. cbn. rewrite lookup_insert_ne; [done|]. intros ->. congruence.
Qed.

(** ** A node that is not linked in yet *)

Lemma wp_set_links k l m nexts a p f g :
  heap m !! a = Some (words p f) -> (l + k <= s_lvl p)%nat ->
  (forall j, (l <= j < l + k)%nat -> nexts !! j = Some (g j)) ->
  wp (set_links a nexts l k) m (fun _ m' => exists f',
    m' = set_heap m (<[a := words p f']> (heap m)) /\
    (forall j, (l <= j < l + k)%nat -> f' j = g j) /\ (forall j, (j < l)%nat -> f' j = f j)).
Proof.
  revert l m f. induction k as [|k IH]; intros l m f Ha Hk Hn; cbn [set_links].
  { apply wp_ret. exists f. rewrite insert_id, set_heap_same by done. split_and!; [done|lia|done]. }
  unfold arr_get. rewrite Hn by lia. apply wp_bind, wp_ret, wp_bind.
  eapply wp_store; [done|unfold words, NEXT; rewrite length_app, length_fmap, length_seq; simpl; lia|].
  rewrite words_insert by lia. eapply wp_mono.
  { eapply (IH (S l) _ (fun j => if decide (j = l) then g l else f j)).
    - cbn [heap set_heap]. apply lookup_insert_eq.
    - lia.
    - intros j Hj. apply Hn. lia. }
  intros _ m' (f' & -> & H1 & H2). exists f'. cbn [heap set_heap]. rewrite insert_insert_eq.
  split_and!; [done|..].
  - intros j Hj. destruct (decide (j = l)) as [->|]; [|apply H1; lia]. rewrite H2 by lia. by rewrite decide_True.
  - intros j Hj. rewrite H2 by lia. by rewrite decide_False by lia.
Qed.

(** A fresh block for [nd], its links set to the nodes from [C] on. *)
Lemma rep_new_node m sl hw B C nd f h :
  sl_rep base m sl hw (B ++ C) -> heap m !! s_addr nd = None ->
  (forall l, (l < s_lvl nd)%nat -> f l = succ l C) -> h = <[s_addr nd := words nd f]> (heap m) ->
  skip_with (links_upto nd C 0) h (head_node sl :: B) /\ skip h (nd :: C) /\
  NoDup (s_addr <$> (head_node sl :: B) ++ nd :: C) /\
  h !! sl_addr sl = heap m !! sl_addr sl /\ sl_addr sl ∉ s_addr <$> (head_node sl :: B).
Proof.
  intros Hrep Hfr Hf ->. pose proof (sr_nodes _ _ _ _ _ Hrep) as Hsk.
  change (head_node sl :: B ++ C) with ((head_node sl :: B) ++ C) in Hsk.
  pose proof (sr_nodup _ _ _ _ _ Hrep) as [Hsl Hnd]%NoDup_cons.
  change (head_node sl :: B ++ C) with ((head_node sl :: B) ++ C) in Hsl, Hnd.
  assert (Hna : s_addr nd ∉ s_addr <$> (head_node sl :: B) ++ C).
  { intros (x & E & (A & R & Ex)%list_elem_of_split)%list_elem_of_fmap.
    rewrite E, (Hsk _ _ _ Ex) in Hfr. done. }
  assert (Hasl : s_addr nd <> sl_addr sl).
  { intros E. destruct (sr_struct _ _ _ _ _ Hrep) as [k Hk']. congruence. }
  pose proof Hna as Hna2. rewrite fmap_app in Hna2. apply not_elem_of_app in Hna2 as [HaB HaC].
  apply skip_with_app in Hsk as [HskB HskC]. split_and!.
  - apply links_upto_0, skip_with_fresh; [done|]. eapply skip_with_ext; [|exact HskB].
    intros. unfold links. by rewrite app_nil_r.
  - change (nd :: C) with ([nd] ++ C). unfold skip. rewrite skip_with_app. split.
    + intros [|x [|y A]] p R E; simplify_eq/=. rewrite lookup_insert_eq. f_equal. apply words_ext.
      intros l Hl. unfold links. rewrite app_nil_r. by apply Hf.
    + by apply skip_with_fresh.
  - rewrite fmap_app, (fmap_cons _ nd C), <- Permutation_middle, <- fmap_app. by apply NoDup_cons.
  - by apply lookup_insert_ne.
  - rewrite fmap_app in Hsl. by apply not_elem_of_app in Hsl as [? _].
Qed.

(** The list with the node [n] linked in between [B] and [C] *)
Lemma sl_rep_insert m m' sl hw B C n :
  sl_rep base m sl hw (B ++ C) -> heap m !! s_addr n = None -> node_ptr (s_addr n) ->
  (1 <= s_lvl n <= hw)%nat -> 0 < s_val n < 2 ^ 63 -> key_window base (s_key n) ->
  (forall x, x ∈ B -> s_key x < s_key n) -> (forall x, x ∈ C -> s_key n < s_key x) ->
  skip_with (links (n :: C)) (heap m') (head_node sl :: B) -> skip (heap m') (n :: C) ->
  heap m' !! sl_addr sl = heap m !! sl_addr sl ->
  sl_rep base m' sl hw (B ++ n :: C).
Proof.
  intros [H1 H2 H3 H4 H5 H6 H7 H8] Hfr Hptr Hlv Hv Hk HB HC HP HnC Hsl.
  assert (Hna : s_addr n ∉ sl_addr sl :: (s_addr <$> head_node sl :: B ++ C)).
  { intros [E|(x & E & (A & R & Ex)%list_elem_of_split)%list_elem_of_fmap]%elem_of_cons.
    - destruct H2 as [k Hk']. congruence.
    - rewrite E, (H1 _ _ _ Ex) in Hfr. done. }
  split; try done.
  - change (head_node sl :: B ++ n :: C) with ((head_node sl :: B) ++ n :: C). unfold skip in *.
    rewrite skip_with_app. split; [|done]. eapply skip_with_ext; [|exact HP].
    intros A p R l _ _. unfold links. by rewrite app_nil_r.
  - by rewrite Hsl.
  - assert (Hp : sl_addr sl :: (s_addr <$> head_node sl :: B ++ n :: C) ≡ₚ
      s_addr n :: sl_addr sl :: (s_addr <$> head_node sl :: B ++ C)).
    { cbn [fmap list_fmap]. rewrite !fmap_app. cbn [fmap list_fmap]. rewrite <- Permutation_middle.
      rewrite (Permutation_swap (s_addr n) (s_addr (head_node sl))). apply Permutation_swap. }
    rewrite Hp. by apply NoDup_cons.
  - change (n :: C) with ([n] ++ C). rewrite !sl_nodes_app in *. destruct H5 as (HwB & HwC & HBC).
    split_and!; try done.
    + split; [..|by apply Forall_singleton]; try (by rewrite Forall_singleton). by repeat constructor.
    + intros x y ->%list_elem_of_singleton. apply HC.
    + intros x y Hx [->%list_elem_of_singleton|Hy]%elem_of_app; auto.
  - rewrite Forall_app, Forall_cons in *. tauto.
Qed.

(** The list once the node [n] has been taken out *)
Lemma rep_delete m m' sl hw B C n :
  sl_rep base m sl hw (B ++ n :: C) ->
  skip_with (links C) (heap m') (head_node sl :: B) -> skip (heap m') C ->
  heap m' !! sl_addr sl = heap m !! sl_addr sl ->
  sl_rep base m' sl hw (B ++ C).
Proof.
  intros [H1 H2 H3 H4 H5 H6 H7 H8] HP HC Hsl. split; try done.
  - change (head_node sl :: B ++ C) with ((head_node sl :: B) ++ C). unfold skip in *.
    rewrite skip_with_app. split; [|done]. eapply skip_with_ext; [|exact HP].
    intros A p R l _ _. unfold links. by rewrite app_nil_r.
  - by rewrite Hsl.
  - eapply sublist_NoDup; [exact H3|]. apply sublist_skip. apply fmap_sublist. apply sublist_skip.
    apply sublist_app; [done|]. by apply sublist_cons.
  - change (n :: C) with ([n] ++ C) in H5. rewrite !sl_nodes_app in *.
    destruct H5 as (HwB & (_ & HwC & _) & HBC). split_and!; try done.
    intros x y Hx Hy. apply HBC; [done|]. apply elem_of_app. by right.
  - rewrite Forall_app, Forall_cons in *. tauto.
Qed.

Lemma abs_insert key v B C a l :
  (forall x, x ∈ B -> s_key x < key) -> (forall x, x ∈ C -> key < s_key x) -> sl_nodes base (B ++ C) ->
  abs (B ++ SNode a key v l :: C) = <[key := v]> (abs (B ++ C)).
Proof.
  intros HB HC Hw. apply sl_nodes_app in Hw as (_ & _ & HBC). rewrite !sl_abs_app by
    (done || (intros x y Hx [->|Hy]%elem_of_cons; auto)). simpl.
  symmetry. apply insert_union_r. apply abs_None. intros n ?%HB. lia.
Qed.

Lemma abs_delete B n C : sl_nodes base (B ++ n :: C) -> abs (B ++ C) = delete (s_key n) (abs (B ++ n :: C)).
Proof.
  intros (_ & (_ & _ & HnC)%sl_nodes_cons & HBn)%sl_nodes_app.
  rewrite !sl_abs_app by (done || (intros x y Hx Hy; apply HBn; [done|by right])). simpl.
  assert (abs B !! s_key n = None).
  { apply abs_None. intros x Hx. specialize (HBn x n Hx ltac:(left)). lia. }
  rewrite delete_union, (delete_id (abs B)), delete_insert_id; [done| |done].
  apply abs_None. intros x ?%HnC. lia.
Qed.

Lemma abs_update B n C v :
  sl_nodes base (B ++ n :: C) ->
  abs (B ++ SNode (s_addr n) (s_key n) v (s_lvl n) :: C) = <[s_key n := v]> (abs (B ++ n :: C)).
Proof.
  intros (_ & _ & HBn)%sl_nodes_app. rewrite !sl_abs_app by
    (done || (intros x y Hx [->|Hy]%elem_of_cons; [apply (HBn x n); [done|left]|apply HBn; [done|by right]])).
  simpl. assert (abs B !! s_key n = None).
  { apply abs_None. intros x Hx. specialize (HBn x n Hx ltac:(left)). lia. }
  by rewrite insert_union_r, insert_insert_eq.
Qed.
End water.

(** * Searches *)

Section search.
Context `{Allocator} (base : Z).
Implicit Types (m : mem) (sl : skiplist_t) (L R A B C : list snode) (p q : snode).

(** The nodes a search walks over: [B] below the key, [C] from the key on. *)
Record walk_nodes (sl : skiplist_t) (key : Z) (B C : list snode) : Prop := {
  wn_ptr : Forall (fun n => node_ptr (s_addr n)) (B ++ C);
  wn_below : Forall (fun n => s_key n < key) B;
  wn_above : Forall (fun n => key <= s_key n) C;
  wn_window : Forall (fun n => key_window base (s_key n)) (B ++ C);
  wn_key : key_window base key;
  wn_int : sl_key_type sl = None;
}.

(** A walk at level [l] that stands on the node [p] *)
Record walk_ctx (m : mem) (sl : skiplist_t) (key : Z) (l : nat) (A : list snode) (p : snode)
    (B C : list snode) : Prop := {
  wc_level : level_ok (heap m) l (A ++ p :: B ++ C);
  wc_pred : (l < s_lvl p)%nat;
  wc_nodes : walk_nodes sl key B C;
}.

Lemma walk_nodes_suffix sl key K R C : walk_nodes sl key (K ++ R) C -> walk_nodes sl key R C.
Proof.
  intros [H3 H4 H5 H6 H7 H8]. rewrite !Forall_app in *. split; rewrite ?Forall_app; tauto.
Qed.

(** The array entries of the levels below [k] (and below [n]) have been set. *)
Definition preds_set (k n : nat) (P : list snode) (a a' : option array) : Prop :=
  match a, a' with
  | None, None => True
  | Some a, Some a' =>
      (forall l, (l < k)%nat -> (l < n)%nat -> exists q, pred_at l P q /\ a' !! l = Some (s_addr q)) /\
      (forall l, (k <= l)%nat -> a' !! l = a !! l)
  | _, _ => False
  end.

Definition succs_set (k n : nat) (C : list snode) (a a' : option array) : Prop :=
  match a, a' with
  | None, None => True
  | Some a, Some a' =>
      (forall l, (l < k)%nat -> (l < n)%nat -> a' !! l = Some (succ l C)) /\
      (forall l, (k <= l)%nat -> a' !! l = a !! l)
  | _, _ => False
  end.

Lemma preds_set_step k (n : nat) P q a a' :
  preds_set k n P (if Nat.ltb k n then <[k := s_addr q]> <$> a else a) a' ->
  ((k < n)%nat -> pred_at k P q) -> preds_set (S k) n P a a'.
Proof.
  intros Ha Hq. destruct (Nat.ltb_spec k n); destruct a as [a|], a' as [a'|]; simpl in *; try done;
    destruct Ha as [H1 H2]; (split; [intros l Hl Hn; destruct (decide (l = k)) as [->|]|intros l Hl]).
  - exists q. rewrite H2, lookup_insert_eq by done. auto.
  - apply H1; lia.
  - rewrite H2, lookup_insert_ne by lia. done.
  - lia.
  - apply H1; lia.
  - apply H2. lia.
Qed.

Lemma succs_set_step k (n : nat) C a a' :
  succs_set k n C (if Nat.ltb k n then <[k := succ k C]> <$> a else a) a' -> succs_set (S k) n C a a'.
Proof.
  intros Ha. destruct (Nat.ltb_spec k n); destruct a as [a|], a' as [a'|]; simpl in *; try done;
    destruct Ha as [H1 H2]; (split; [intros l Hl Hn; destruct (decide (l = k)) as [->|]|intros l Hl]).
  - by rewrite H2, lookup_insert_eq by done.
  - apply H1; lia.
  - rewrite H2, lookup_insert_ne by lia. done.
  - lia.
  - apply H1; lia.
  - apply H2. lia.
Qed.

Lemma rep_walk_ctx m sl hw L key l :
  sl_rep base m sl hw L -> key_window base key -> (l < hw)%nat ->
  walk_ctx m sl key l [] (head_node sl) (below key L) (above key L).
Proof.
  intros [H1 _ _ _ Hw Hwat Hlv Hi] Hk Hl. pose proof (split_key base key L Hw) as E.
  destruct Hw as [W1 W2 W3 W4]. split; [simpl; rewrite <- E; by apply skip_level_ok|simpl; lia|].
  split; rewrite <- ?E; try done.
  - apply Forall_forall. by intros x [_ ?]%below_keys.
  - apply Forall_forall. by intros x [_ ?]%above_keys.
Qed.

Lemma above_levels key sl hw m L :
  sl_rep base m sl hw L -> Forall (fun x => (1 <= s_lvl x)%nat) (above key L).
Proof.
  intros Hrep. pose proof (sr_levels _ _ _ _ _ Hrep) as Hl. rewrite Forall_forall in Hl.
  apply Forall_forall. intros x [Hx _]%above_keys. by apply Hl.
Qed.

Lemma below_length key L : (length (below key L) <= length L)%nat.
Proof. apply length_filter. Qed.

Lemma rep_high_water m sl hw L : sl_rep base m sl hw L ->
  run (load (sl_addr sl) HIGH_WATER) m = Done (Z.of_nat hw) m.
Proof. intros [_ [k Hk] _ _ _ _ _ _]. by rewrite (run_load _ _ _ _ Hk). Qed.

(** The node that matches the key, or NULL *)
Definition found (key : Z) (C : list snode) : Z :=
  match C with c :: _ => if s_key c =? key then s_addr c else 0 | [] => 0 end.

Lemma found_miss key C : hit key C = false -> found key C = 0.
Proof. unfold hit, found. destruct C as [|c C]; [done|]. by intros ->. Qed.

Lemma miss_lookup key C : hit key C = false ->
  match C with [] => None | c :: _ => if s_key c =? key then Some (s_val c) else None end = None.
Proof. unfold hit. destruct C as [|c C]; [done|]. by intros ->. Qed.

Lemma rep_node m sl hw L A n R : sl_rep base m sl hw L -> L = A ++ n :: R ->
  heap m !! s_addr n = Some (words n (links [] R)) /\ node_ptr (s_addr n).
Proof.
  intros Hrep E. split.
  - apply (sr_nodes _ _ _ _ _ Hrep (head_node sl :: A)). by rewrite E.
  - destruct (sr_wf _ _ _ _ _ Hrep) as [Hp _ _ _]. rewrite E, Forall_app, Forall_cons in Hp. tauto.
Qed.

Lemma rep_found m sl hw L key c C : sl_rep base m sl hw L -> above key L = c :: C ->
  heap m !! s_addr c = Some (words c (links [] C)) /\ node_ptr (s_addr c) /\ 0 < s_val c < 2 ^ 63.
Proof.
  intros Hrep E. pose proof (split_key base key L (sr_wf _ _ _ _ _ Hrep)) as EL. rewrite E in EL.
  destruct (rep_node _ _ _ _ _ _ _ Hrep EL). split_and!; try done.
  all: destruct (sr_wf _ _ _ _ _ Hrep) as [_ _ _ Hv]; rewrite EL, Forall_app, Forall_cons in Hv; apply Hv.
Qed.

Lemma sl_size_abs L : sl_nodes base L -> size (abs L) = length L.
Proof.
  induction L as [|n L IH]; [done|]. intros (_ & Hw & Hlt)%sl_nodes_cons. simpl.
  rewrite map_size_insert_None, IH; [done|done|]. apply abs_None. intros x ?%Hlt. lia.
Qed.

Lemma rep_first m sl hw L :
  sl_rep base m sl hw L -> run (load (sl_head sl) (NEXT 0)) m = Done (addr_or L) m.
Proof.
  intros Hrep. pose proof (sr_nodes _ _ _ _ _ Hrep [] (head_node sl) L eq_refl) as Hh.
  rewrite (run_load _ _ _ _ Hh), words_next by (simpl; unfold MAX_LEVELS; lia). unfold links.
  rewrite app_nil_r. f_equal. pose proof (sr_levels _ _ _ _ _ Hrep) as Hl.
  destruct L as [|y L]; [done|]. apply succ_cons. apply Forall_cons in Hl as [? _]. lia.
Qed.

Lemma above_strict key L x :
  sl_nodes base L -> hit key (above key L) = false -> x ∈ above key L -> key < s_key x.
Proof.
  intros Hw Hh Hx. pose proof (above_keys key L x Hx) as [_ Hle].
  destruct (above key L) as [|c C] eqn:EC; [by apply not_elem_of_nil in Hx|].
  assert (key <= s_key c) by (apply (above_keys key L); rewrite EC; left).
  simpl in Hh. apply Z.eqb_neq in Hh. rewrite (split_key base key L Hw), EC in Hw.
  apply sl_nodes_app in Hw as (_ & (_ & _ & Hc)%sl_nodes_cons & _).
  apply elem_of_cons in Hx as [->|Hx]; [lia|]. specialize (Hc _ Hx). lia.
Qed.

End search.

(** * Walking along the nodes before the key *)

(** The heap links the nodes of [P] that are at level [l], the nodes [X] after
    them. *)
Definition level_of (h : heap_t) (l : nat) (P X : list snode) : Prop :=
  forall A p R, P = A ++ p :: R -> (l < s_lvl p)%nat ->
    exists b, h !! s_addr p = Some b /\ b !! KEY = Some (s_key p) /\ b !! NEXT l = Some (succ l (R ++ X)).

Lemma skip_level_of h l P X : skip h (P ++ X) -> level_of h l P X.
Proof.
  intros H A p R E Hl. exists (words p (links [] (R ++ X))). split.
  - apply (H A). by rewrite E, <- app_assoc.
  - split; [done|]. rewrite words_next by done. unfold links. by rewrite app_nil_r.
Qed.

Lemma upto_level_of h l k n C P :
  skip_with (links_upto n C k) h P -> (l < k)%nat -> level_of h l P (n :: C).
Proof.
  intros HP Hk A p R E Hl. exists (words p (links_upto n C k R)). split; [by eapply HP|]. split; [done|].
  rewrite words_next by done. unfold links_upto. by rewrite decide_True.
Qed.

Lemma succ_ptr l X : Forall (fun n => node_ptr (s_addr n)) X -> succ l X = 0 \/ node_ptr (succ l X).
Proof.
  intros HX. unfold succ. destruct (at_level l X) as [|y Y] eqn:E; [by left|right].
  apply at_level_first in E as (X1 & X2 & -> & _). rewrite Forall_app, Forall_cons in HX. apply HX.
Qed.

(** * A concrete skiplist *)

Definition ex_sl : skiplist_t := SL 8 16 None.

Definition ex_L : list snode := [SNode 400 5 50 2; SNode 480 9 90 1].

Definition ex_m : mem :=
  Mem {[ 8 := [16; 0; 2]; 16 := [0; 0; 24; 400; 400] ++ replicate 22 0;
         400 := [5; 50; 2; 480; 0]; 480 := [9; 90; 1; 0] ]} [] rng0.

Lemma ex_sl_rep : sl_rep 0 ex_m ex_sl 2 ex_L.
Proof.
  split; try done.
  - intros A p R E. unfold ex_L in E. destruct A as [|? [|? [|? [|? A]]]]; simplify_eq/=; done.
  - by exists 0.
  - apply (bool_decide_unpack _). by vm_compute.
  - unfold ex_L. split; rewrite ?StronglySorted_cons_iff, ?Forall_cons, ?Forall_nil; unfold key_window;
      split_and!; done || constructor.
  - unfold MAX_LEVELS. lia.
  - unfold ex_L. rewrite !Forall_cons, Forall_nil. simpl. lia.
Qed.

Lemma ex_sl_can_alloc k : can_alloc ex_m k.
Proof.
  intros h Eh. apply (bump_room h k 60); [|done..]. rewrite Eh. unfold ex_m. cbn [heap].
  rewrite !dom_insert_L, dom_singleton_L. intros a. rewrite !elem_of_union, !elem_of_singleton. zlia.
Qed.
