(* ===== verification/UnsafeSkiplist.v ===== *)
(** The sequential skiplist of [map/unsafe_skiplist.c]: its operations as programs
    of the machine and their refinement of a finite map. *)
From S2P Require Import Prelude Random Machine Datatype MapSpec SkipNodes.

Definition node_alloc (num_levels : nat) (key val : Z) : prog Z :=
  _ ⇐ assert (Nat.ltb 0 num_levels && Nat.leb num_levels MAX_LEVELS);
  node_init num_levels key val.

Definition sl_alloc (key_type : option datatype) : prog skiplist_t :=
  sl ⇐ malloc 3;
  _ ⇐ store sl KEY_TYPE (match key_type with None => 0 | Some _ => 1 end);
  _ ⇐ store sl HIGH_WATER 1;
  head ⇐ node_alloc MAX_LEVELS 0 0;
  _ ⇐ store sl HEAD head;
  _ ⇐ memset0 head (NEXT 0) MAX_LEVELS;
  Ret (SL sl head key_type).

(** The loop of [sl_free] *)
Fixpoint sl_free_loop (fuel : nat) (sl : skiplist_t) (item : Z) : prog unit :=
  match fuel with
  | O => Fail OutOfFuel
  | S fuel =>
      if item =? 0 then Ret tt
      else
        next ⇐ load item (NEXT 0);
        _ ⇐ (match sl_key_type sl with
             | Some _ => k ⇐ load item KEY; nbd_free k
             | None => Ret 0
             end);
        _ ⇐ nbd_free item;
        sl_free_loop fuel sl next
  end.

Definition sl_free (fuel : nat) (sl : skiplist_t) : prog unit :=
  item ⇐ load (sl_head sl) (NEXT 0);
  sl_free_loop fuel sl item.

(** The loop of [sl_count] *)
Fixpoint sl_count_loop (fuel : nat) (item count : Z) : prog Z :=
  match fuel with
  | O => Fail OutOfFuel
  | S fuel =>
      if item =? 0 then Ret count
      else
        next ⇐ load item (NEXT 0);
        sl_count_loop fuel next (u64 (count + 1))
  end.

Definition sl_count (fuel : nat) (sl : skiplist_t) : prog Z :=
  item ⇐ load (sl_head sl) (NEXT 0);
  sl_count_loop fuel item 0.

(** [while (item != NULL)] of [find_preds] at one level: the values of [pred],
    [item] and [d] it leaves. *)
Fixpoint find_preds_walk (fuel : nat) (sl : skiplist_t) (key : Z) (unlink : bool) (level : nat)
    (pred item d : Z) : prog (Z * Z * Z) :=
  match fuel with
  | O => Fail OutOfFuel
  | S fuel =>
      if item =? 0 then Ret (pred, item, d)
      else
        next ⇐ load item (NEXT level);
        k ⇐ load item KEY;
        d ⇐ key_diff (sl_key_type sl) k key;
        if 0 <=? d then
          if (d =? 0) && unlink then
            _ ⇐ store pred (NEXT level) next;
            let item := next in
            _ ⇐ (if negb (item =? 0) then load item (NEXT level) else Ret DOES_NOT_EXIST);
            Ret (pred, item, d)
          else Ret (pred, item, d)
        else find_preds_walk fuel sl key unlink level item next d
  end.

(** [for (int level = k - 1; level >= 0; --level)]; a null [preds] or [succs] is
    [None]. *)
Fixpoint find_preds_levels (k : nat) (fuel : nat) (preds succs : option array) (n : nat)
    (sl : skiplist_t) (key : Z) (unlink : bool) (pred item d : Z)
    : prog (Z * Z * option array * option array) :=
  match k with
  | O => Ret (item, d, preds, succs)
  | S level =>
      next ⇐ load pred (NEXT level);
      if (next =? DOES_NOT_EXIST) && Nat.leb n level
      then find_preds_levels level fuel preds succs n sl key unlink pred item d
      else
        r ⇐ find_preds_walk fuel sl key unlink level pred next d;
        match r with
        | (pred, item, d) =>
            let preds := if Nat.ltb level n then <[level := pred]> <$> preds else preds in
            let succs := if Nat.ltb level n then <[level := item]> <$> succs else succs in
            find_preds_levels level fuel preds succs n sl key unlink pred item d
        end
  end.

(** The node returned, with the arrays as they are left *)
Definition find_preds (fuel : nat) (preds succs : option array) (n : nat) (sl : skiplist_t) (key : Z)
    (unlink : bool) : prog (Z * option array * option array) :=
  hw ⇐ load (sl_addr sl) HIGH_WATER;
  r ⇐ find_preds_levels (Z.to_nat hw) fuel preds succs n sl key unlink (sl_head sl) 0 0;
  match r with
  | (item, d, preds, succs) => Ret (if d =? 0 then item else 0, preds, succs)
  end.

Definition sl_lookup (fuel : nat) (sl : skiplist_t) (key : Z) : prog Z :=
  r ⇐ find_preds fuel None None 0 sl key false;
  match r with
  | (item, _, _) => if negb (item =? 0) then load item VAL else Ret DOES_NOT_EXIST
  end.

Definition sl_min_key (sl : skiplist_t) : prog Z :=
  item ⇐ load (sl_head sl) (NEXT 0);
  if negb (item =? 0) then load item KEY else Ret DOES_NOT_EXIST.

(** [preds[level]->next[level] = new_item] *)
Fixpoint link_in (item : Z) (preds : array) (l k : nat) : prog unit :=
  match k with
  | O => Ret tt
  | S k => p ⇐ arr_get preds l; _ ⇐ store p (NEXT l) item; link_in item preds (S l) k
  end.

Definition sl_cas (fuel : nat) (sl : skiplist_t) (key expectation new_val : Z) : prog Z :=
  _ ⇐ assert (0 <? s64 new_val);
  n ⇐ random_levels sl;
  r ⇐ find_preds fuel (Some ∅) (Some ∅) n sl key false;
  match r with
  | (old_item, preds, nexts) =>
      if negb (old_item =? 0) then
        old_val ⇐ load old_item VAL;
        if (expectation =? CAS_EXPECT_DOES_NOT_EXIST) ||
           (negb (expectation =? CAS_EXPECT_WHATEVER) && negb (expectation =? CAS_EXPECT_EXISTS)
            && negb (expectation =? old_val))
        then Ret old_val
        else
          _ ⇐ store old_item VAL new_val;
          Ret old_val
      else if negb (expectation =? CAS_EXPECT_DOES_NOT_EXIST) && negb (expectation =? CAS_EXPECT_WHATEVER)
      then Ret DOES_NOT_EXIST
      else
        new_key ⇐ (match sl_key_type sl with None => Ret key | Some dt => clone dt key end);
        new_item ⇐ node_alloc n new_key new_val;
        _ ⇐ set_links new_item (default ∅ nexts) 0 n;
        _ ⇐ link_in new_item (default ∅ preds) 0 n;
        Ret DOES_NOT_EXIST
  end.

Definition sl_remove (fuel : nat) (sl : skiplist_t) (key : Z) : prog Z :=
  hw ⇐ load (sl_addr sl) HIGH_WATER;
  r ⇐ find_preds fuel (Some ∅) None (Z.to_nat hw) sl key false;
  match r with
  | (item, _, _) =>
      if item =? 0 then Ret DOES_NOT_EXIST
      else
        val ⇐ load item VAL;
        _ ⇐ find_preds fuel None None 0 sl key true;
        _ ⇐ (match sl_key_type sl with
             | Some _ => k ⇐ load item KEY; nbd_free k
             | None => Ret 0
             end);
        _ ⇐ nbd_free item;
        Ret val
  end.

(** [struct sl_iter] and its address *)
Record sl_iter_t := SLIter { sl_iter_addr : Z; sl_iter_node : Z }.

Definition sl_iter_begin (fuel : nat) (sl : skiplist_t) (key : Z) : prog sl_iter_t :=
  iter ⇐ malloc 1;
  if negb (key =? DOES_NOT_EXIST) then
    r ⇐ find_preds fuel None (Some ∅) 1 sl key false;
    match r with (_, _, succs) => next ⇐ arr_get (default ∅ succs) 0; Ret (SLIter iter next) end
  else
    next ⇐ load (sl_head sl) (NEXT 0);
    Ret (SLIter iter next).

(** [sl_iter_next]: the iterator, the value returned and [*key_ptr] (0 when it is
    not written). *)
Definition sl_iter_next (iter : sl_iter_t) : prog (sl_iter_t * Z * Z) :=
  let item := sl_iter_node iter in
  if item =? 0 then Ret (SLIter (sl_iter_addr iter) 0, DOES_NOT_EXIST, 0)
  else
    next ⇐ load item (NEXT 0);
    key ⇐ load item KEY;
    val ⇐ load item VAL;
    Ret (SLIter (sl_iter_addr iter) next, val, key).

Definition sl_iter_free (iter : sl_iter_t) : prog Z := nbd_free (sl_iter_addr iter).

(** * Searching *)

Section search.
Context `{Allocator} (base : Z).
Implicit Types (m : mem) (sl : skiplist_t) (L R A B C : list snode) (p q n : snode).

(** The walk moves on to the last node of the level that is below the key. *)
Lemma walk_to fuel m sl key unlink l A p B C d :
  walk_ctx base m sl key l A p B C -> (length B < fuel)%nat ->
  exists q d' fuel', (fuel <= fuel' + length B)%nat /\
    run (find_preds_walk fuel sl key unlink l (s_addr p) (succ l (B ++ C)) d) m =
    run (find_preds_walk fuel' sl key unlink l (s_addr q) (succ l C) d') m /\
    pred_at l (A ++ p :: B) q.
Proof.
  revert A p B d. induction fuel as [|fuel IH]; intros A p B d Hc Hf; [lia|].
  destruct (at_level l B) as [|b Y] eqn:EB.
  { exists p, d, (S fuel). split; [lia|]. rewrite succ_app_nil by done. split; [done|].
    by apply pred_at_here; [apply Hc|]. }
  apply at_level_first in EB as (B1 & B2 & -> & E1 & Hb & _).
  destruct Hc as [H1 H2 [H3 H4 H5 H6 H7 H8]]. rewrite length_app in Hf. simpl in Hf.
  assert (Es : succ l ((B1 ++ b :: B2) ++ C) = s_addr b).
  { rewrite <- app_assoc, succ_app_nil by done. simpl. by apply succ_cons. }
  assert (E : A ++ p :: (B1 ++ b :: B2) ++ C = (A ++ p :: B1) ++ b :: B2 ++ C).
  { by rewrite <- !app_assoc. }
  assert (E' : A ++ p :: B1 ++ b :: B2 = (A ++ p :: B1) ++ b :: B2) by (by rewrite <- app_assoc).
  rewrite !Forall_app, Forall_cons in *. destruct H3 as [(? & Hbp & ?) ?], H4 as (? & Hbk & ?), H6 as [(? & ? & ?) ?].
  destruct (H1 _ _ _ E Hb) as (w & Hw & Hwk & Hwn).
  rewrite Es, E'. cbn [find_preds_walk]. rewrite (proj2 (Z.eqb_neq (s_addr b) 0)) by (destruct Hbp; lia).
  rewrite run_bind, (run_load _ _ _ _ Hw), Hwn, run_bind, (run_load _ _ _ _ Hw), Hwk, run_bind, H8.
  unfold key_diff. rewrite run_ret, (window_diff base) by done.
  rewrite (proj2 (Z.leb_gt 0 _)) by lia.
  destruct (IH (A ++ p :: B1) b B2 (s_key b - key)) as (q & d' & fuel' & Hf' & Er & Hq).
  - rewrite E in H1. split; [done..|]. split; rewrite ?Forall_app; done.
  - lia.
  - exists q, d', fuel'. split; [rewrite length_app; simpl; lia|]. done.
Qed.

(** The walk without unlinking: it stops at the first node of the level that is
    not below the key. *)
Lemma walk_stop fuel m sl key l A p B C d unlink :
  walk_ctx base m sl key l A p B C -> (length B + 1 < fuel)%nat ->
  (unlink = true -> forall c Y, at_level l C = c :: Y -> s_key c <> key) ->
  exists q d', run (find_preds_walk fuel sl key unlink l (s_addr p) (succ l (B ++ C)) d) m =
      Done (s_addr q, succ l C, d') m /\ pred_at l (A ++ p :: B) q /\
    (forall c Y, at_level l C = c :: Y -> d' = s_key c - key).
Proof.
  intros Hc Hf Hu. destruct (walk_to fuel m sl key unlink l A p B C d Hc) as (q & d' & fuel' & Hf' & -> & Hq); [lia|].
  exists q. destruct fuel' as [|fuel']; [lia|]. cbn [find_preds_walk].
  destruct (at_level l C) as [|c Y] eqn:EC.
  { unfold succ. rewrite EC. simpl. by exists d'. }
  exists (s_key c - key). apply at_level_first in EC as (C1 & C2 & -> & E1 & Hl & EY).
  destruct Hc as [H1 H2 [H3 H4 H5 H6 H7 H8]]. specialize (Hu : unlink = true -> forall c0 Y0, c :: Y = c0 :: Y0 -> _).
  rewrite !Forall_app, !Forall_cons in *. destruct H3 as (? & ? & Hcp & ?), H5 as (? & Hck & ?), H6 as (? & ? & Hcw & ?).
  assert (Es : succ l (C1 ++ c :: C2) = s_addr c) by (rewrite succ_app_nil by done; by apply succ_cons).
  destruct (H1 (A ++ p :: B ++ C1) c C2) as (w & Hw & Hwk & Hwn); [by rewrite <- !app_assoc; simpl; rewrite <- app_assoc|done|].
  rewrite Es. rewrite (proj2 (Z.eqb_neq (s_addr c) 0)) by (destruct Hcp; lia).
  rewrite run_bind, (run_load _ _ _ _ Hw), Hwn, run_bind, (run_load _ _ _ _ Hw), Hwk, run_bind, H8.
  unfold key_diff. rewrite run_ret, (window_diff base) by done.
  rewrite (proj2 (Z.leb_le 0 _)) by lia.
  assert ((s_key c - key =? 0) && unlink = false) as ->.
  { destruct unlink; [|apply andb_false_r]. rewrite andb_true_r. apply Z.eqb_neq.
    specialize (Hu eq_refl c Y eq_refl). lia. }
  rewrite run_ret. split_and!; [done..|]. intros ? ? [= <- _]. done.
Qed.

(** The whole descent without unlinking *)
Lemma levels_run k fuel preds succs (n : nat) m sl key A p B C item d :
  (forall l, (l < k)%nat -> walk_ctx base m sl key l A p B C) -> (length B + 1 < fuel)%nat ->
  Forall (fun x => (1 <= s_lvl x)%nat) C ->
  exists item' d' preds' succs',
    run (find_preds_levels k fuel preds succs n sl key false (s_addr p) item d) m =
      Done (item', d', preds', succs') m /\
    preds_set k n (A ++ p :: B) preds preds' /\ succs_set k n C succs succs' /\
    match C with
    | [] => item = 0 -> item' = 0
    | c :: _ => if decide (k = 0)%nat then item' = item /\ d' = d
                else item' = s_addr c /\ d' = s_key c - key
    end.
Proof.
  revert A p B preds succs item d. induction k as [|k IH]; intros A p B preds succs item d Hc Hf HC.
  { exists item, d, preds, succs. split; [done|]. split_and!.
    - destruct preds; [|done]. split; [lia|done].
    - destruct succs; [|done]. split; [lia|done].
    - by destruct C. }
  cbn [find_preds_levels]. pose proof (Hc k ltac:(lia)) as Hk.
  destruct (wc_level _ _ _ _ _ _ _ _ _ Hk A p (B ++ C) eq_refl (wc_pred _ _ _ _ _ _ _ _ _ Hk)) as (w & Hw & _ & Hwn).
  rewrite run_bind, (run_load _ _ _ _ Hw), Hwn.
  destruct ((succ k (B ++ C) =? DOES_NOT_EXIST) && (n <=? k)%nat) eqn:Econt.
  - apply andb_true_iff in Econt as [Ez%Z.eqb_eq En%Nat.leb_le].
    apply (addr_or_zero k (B ++ C) (wn_ptr _ _ _ _ _ (wc_nodes _ _ _ _ _ _ _ _ _ Hk))) in Ez.
    destruct (IH A p B preds succs item d) as (item' & d' & preds' & succs' & -> & Hp & Hs & Hi); [auto|done|done|].
    exists item', d', preds', succs'. split_and!; [done|..].
    + apply (preds_set_step k n _ p); [|lia]. rewrite (proj2 (Nat.ltb_ge k n)) by lia. done.
    + apply succs_set_step. rewrite (proj2 (Nat.ltb_ge k n)) by lia. done.
    + destruct C as [|c C]; [done|]. rewrite (decide_False (P := S k = 0%nat)) by done.
      destruct (decide (k = 0)%nat) as [->|]; [|done]. exfalso. rewrite at_level_app, at_level_cons, decide_True in Ez.
      * by destruct (at_level 0 B).
      * by apply Forall_cons in HC as [? _].
  - clear Econt. destruct (walk_stop fuel m sl key k A p B C d false Hk) as (q & d1 & Er & Hq & Hd); [done..|].
    rewrite run_bind, Er.
    assert (Hmove : exists A' R, A ++ p :: B = A' ++ q :: R /\ (length R <= length B)%nat /\
      forall l, (l < k)%nat -> walk_ctx base m sl key l A' q R C).
    { pose proof (wc_pred _ _ _ _ _ _ _ _ _ Hk) as Hpk.
      destruct (pred_at_after _ _ _ _ _ Hq Hpk) as (A' & K & R & E & Hlq & EB & ER).
      exists A', R. split; [done|]. split; [rewrite EB, length_app; lia|]. intros l Hl.
      destruct (Hc l ltac:(lia)) as [H1 H2 H3]. rewrite EB in H3. apply walk_nodes_suffix in H3.
      split; [|lia|done].
      assert (A' ++ q :: R ++ C = A ++ p :: B ++ C) as ->; [|done].
      change (q :: R ++ C) with ((q :: R) ++ C). rewrite app_assoc, <- E. by rewrite <- app_assoc. }
    destruct Hmove as (A' & R & E & HlenR & Hctx).
    destruct (IH A' q R (if Nat.ltb k n then <[k := s_addr q]> <$> preds else preds)
      (if Nat.ltb k n then <[k := succ k C]> <$> succs else succs) (succ k C) d1)
      as (item' & d' & preds' & succs' & -> & Hp & Hs & Hi); [done|lia|done|].
    exists item', d', preds', succs'. split_and!; [done|..].
    + apply (preds_set_step k n _ q); [by rewrite E|done].
    + by apply succs_set_step.
    + destruct C as [|c C]; [intros _; by apply Hi|]. rewrite (decide_False (P := S k = 0%nat)) by done.
      destruct (decide (k = 0)%nat) as [->|]; [|done]. destruct Hi as [-> ->].
      apply Forall_cons in HC as [Hc1 _]. rewrite succ_cons by done. split; [done|].
      eapply Hd. rewrite at_level_cons, decide_True; done.
Qed.
End search.

(** * Refinement *)

Section refinement.
Context `{Allocator} (base : Z).
Implicit Types (m : mem) (sl : skiplist_t) (L R A B C : list snode) (p q : snode).

Lemma find_preds_run fuel preds succs (n : nat) m sl hw L key :
  sl_rep base m sl hw L -> key_window base key -> (length L + 1 < fuel)%nat ->
  exists preds' succs',
    run (find_preds fuel preds succs n sl key false) m = Done (found key (above key L), preds', succs') m /\
    preds_set hw n (head_node sl :: below key L) preds preds' /\
    succs_set hw n (above key L) succs succs'.
Proof.
  intros Hrep Hk Hf. unfold find_preds. rewrite run_bind, (rep_high_water _ _ _ _ _ Hrep), run_bind, Nat2Z.id.
  destruct (levels_run base hw fuel preds succs n m sl key [] (head_node sl) (below key L) (above key L) 0 0)
    as (item & d & preds' & succs' & Er & Hp & Hs & Hi).
  - intros l Hl. by eapply rep_walk_ctx.
  - pose proof (below_length key L). lia.
  - by eapply above_levels.
  - change (sl_head sl) with (s_addr (head_node sl)). rewrite Er, run_ret.
    exists preds', succs'. split_and!; [|done|done]. f_equal. f_equal. f_equal. unfold found.
    destruct (above key L) as [|c C]; [rewrite Hi by done; by destruct (d =? 0)|].
    pose proof (sr_water _ _ _ _ _ Hrep). rewrite decide_False in Hi by lia. destruct Hi as [-> ->].
    destruct (Z.eqb_spec (s_key c - key) 0), (Z.eqb_spec (s_key c) key); lia || done.
Qed.

Lemma sl_lookup_ok fuel m sl hw L key :
  sl_rep base m sl hw L -> key_window base key -> (length L + 1 < fuel)%nat ->
  run (sl_lookup fuel sl key) m = Done (lookup_spec (abs L) key) m.
Proof.
  intros Hrep Hk Hf. unfold sl_lookup. rewrite run_bind.
  destruct (find_preds_run fuel None None 0 m sl hw L key Hrep Hk Hf) as (? & ? & -> & _).
  unfold lookup_spec. rewrite (abs_lookup base) by apply Hrep.
  destruct (above key L) as [|c C] eqn:EC; [done|]. simpl. destruct (s_key c =? key); [|done].
  destruct (rep_found _ _ _ _ _ _ _ _ Hrep EC) as (Hw & [Hp _] & _).
  rewrite (proj2 (Z.eqb_neq (s_addr c) 0)) by lia. cbn [negb]. by rewrite (run_load _ _ _ _ Hw).
Qed.

(** [sl_lookup] of the sequential skiplist returns the value of the key, or
    [DOES_NOT_EXIST], and leaves the memory as it was. *)
Theorem sl_lookup_refines fuel m sl hw L key :
  sl_rep base m sl hw L -> key_window base key -> (length L + 1 < fuel)%nat ->
  run (sl_lookup fuel sl key) m = Done (lookup_spec (abs L) key) m.
Proof. exact (sl_lookup_ok fuel m sl hw L key). Qed.

Lemma sl_count_loop_run fuel m sl hw L A R c :
  sl_rep base m sl hw L -> L = A ++ R -> (length R < fuel)%nat ->
  run (sl_count_loop fuel (addr_or R) (u64 c)) m = Done (u64 (c + Z.of_nat (length R))) m.
Proof.
  revert A R c. induction fuel as [|fuel IH]; intros A R c Hrep E Hf; [lia|].
  cbn [sl_count_loop]. destruct R as [|n R]; simpl; [by rewrite Z.add_0_r|]. simpl in Hf.
  destruct (rep_node _ _ _ _ _ _ _ _ Hrep E) as [Hw [Hp _]]. rewrite (proj2 (Z.eqb_neq (s_addr n) 0)) by lia.
  assert (Hlv : Forall (fun x => (1 <= s_lvl x <= hw)%nat) L) by apply Hrep.
  rewrite E, Forall_app, Forall_cons in Hlv. destruct Hlv as (_ & Hn & HR).
  rewrite run_bind, (run_load _ _ _ _ Hw), words_next by lia. unfold links. rewrite app_nil_r.
  assert (succ 0 R = addr_or R) as ->.
  { destruct R as [|y R]; [done|]. apply succ_cons. apply Forall_cons in HR as [? _]. lia. }
  rewrite u64_add_l, (IH (A ++ [n]) R (c + 1)); [|done|by rewrite <- app_assoc|lia]. do 2 f_equal. lia.
Qed.

(** [sl_count] is the number of keys. *)
Theorem sl_count_refines fuel m sl hw L :
  sl_rep base m sl hw L -> (length L < fuel)%nat ->
  run (sl_count fuel sl) m = Done (u64 (Z.of_nat (size (abs L)))) m.
Proof.
  intros Hrep Hf. unfold sl_count. rewrite run_bind, (rep_first _ _ _ _ _ Hrep), (sl_size_abs base) by apply Hrep.
  exact (sl_count_loop_run fuel m sl hw L [] L 0 Hrep eq_refl Hf).
Qed.

(** [sl_min_key] is the smallest key, or [DOES_NOT_EXIST] when there is none. *)
Theorem sl_min_key_least m sl hw L :
  sl_rep base m sl hw L -> exists k, run (sl_min_key sl) m = Done k m /\
    (abs L = ∅ -> k = DOES_NOT_EXIST) /\
    (abs L <> ∅ -> is_Some (abs L !! k) /\ forall k', is_Some (abs L !! k') -> k <= k').
Proof.
  intros Hrep. unfold sl_min_key. rewrite run_bind, (rep_first _ _ _ _ _ Hrep). destruct L as [|n L].
  { exists DOES_NOT_EXIST. by split_and!. }
  simpl addr_or. destruct (rep_node _ _ _ _ _ [] _ _ Hrep eq_refl) as [Hw [Hp _]].
  rewrite (proj2 (Z.eqb_neq (s_addr n) 0)) by lia. cbn [negb]. rewrite (run_load _ _ _ _ Hw).
  exists (s_key n). split; [done|]. apply (abs_least base). apply Hrep.
Qed.

(** ** Insertion *)

(** The node [n] is linked in at the levels from [l] on. *)
Lemma wp_link_in k l m preds P n C :
  skip_with (links_upto n C l) (heap m) P -> skip (heap m) (n :: C) ->
  NoDup (s_addr <$> P ++ n :: C) -> (l + k <= s_lvl n)%nat ->
  (forall j, (l <= j < l + k)%nat -> exists q, pred_at j P q /\ preds !! j = Some (s_addr q)) ->
  wp (link_in (s_addr n) preds l k) m (fun _ m' =>
    skip_with (links_upto n C (l + k)) (heap m') P /\ skip (heap m') (n :: C) /\
    (forall a, a ∉ s_addr <$> P -> heap m' !! a = heap m !! a) /\ deferred m' = deferred m).
Proof.
  revert l m. induction k as [|k IH]; intros l m HP HC Hnd Hk Hq; cbn [link_in].
  { apply wp_ret. by rewrite Nat.add_0_r. }
  destruct (Hq l ltac:(lia)) as (q & Hpq & Eq). unfold arr_get. rewrite Eq. apply wp_bind, wp_ret, wp_bind.
  pose proof Hpq as (A & R & EP & Hlq & _). pose proof (HP _ _ _ EP) as Hw.
  eapply wp_store; [exact Hw|unfold words, NEXT; rewrite length_app, length_fmap, length_seq; simpl; lia|].
  rewrite fmap_app in Hnd. pose proof Hnd as (HndP & Hdis & _)%NoDup_app.
  assert (HqP : s_addr q ∈ s_addr <$> P).
  { rewrite EP, fmap_app. apply elem_of_app. right. left. }
  eapply wp_mono.
  { eapply (IH (S l)); cbn [heap set_heap].
    - eapply link_step; try done. lia.
    - apply skip_with_fresh; [by apply Hdis|done].
    - by rewrite fmap_app.
    - lia.
    - intros j Hj. apply Hq. lia. }
  intros _ m' (H1 & H2 & H3 & H4). replace (l + S k)%nat with (S l + k)%nat by lia. split_and!; try done.
  intros a Ha. rewrite H3 by done. cbn [heap set_heap]. apply lookup_insert_ne. by intros <-.
Qed.

(** A new node goes in between the nodes below the key and the nodes above. *)
Lemma wp_insert m sl hw L key v (n : nat) preds nexts :
  sl_rep base m sl hw L -> key_window base key -> 0 < v < 2 ^ 63 -> (1 <= n <= hw)%nat ->
  can_alloc m (3 + n) -> hit key (above key L) = false ->
  preds_set hw n (head_node sl :: below key L) (Some ∅) (Some preds) ->
  succs_set hw n (above key L) (Some ∅) (Some nexts) ->
  wp (new_item ⇐ node_alloc n key v;
      _ ⇐ set_links new_item nexts 0 n;
      _ ⇐ link_in new_item preds 0 n;
      Ret DOES_NOT_EXIST) m (fun r m' => r = DOES_NOT_EXIST /\ deferred m' = deferred m /\
    exists L', sl_rep base m' sl hw L' /\ abs L' = <[key := v]> (abs L)).
Proof.
  intros Hrep Hk Hv Hn Hc Hhit [Hp _] [Hs _]. pose proof (sr_water _ _ _ _ _ Hrep) as Hwat.
  pose proof (split_key base key L (sr_wf _ _ _ _ _ Hrep)) as EL.
  set (B := below key L) in *. set (C := above key L) in *.
  assert (HB : forall x, x ∈ B -> s_key x < key) by (intros x Hx; by apply (below_keys key L)).
  assert (HC : forall x, x ∈ C -> key < s_key x).
  { intros x Hx. by apply (above_strict base key L); [apply Hrep|..]. }
  rewrite EL in Hrep. unfold node_alloc. apply wp_bind.
  apply wp_bind, wp_assert. { apply andb_true_iff. split; [apply Nat.ltb_lt|apply Nat.leb_le]; lia. }
  apply wp_node_init; [done|]. intros a Hfr Hptr. set (nd := SNode a key v n).
  apply wp_bind. eapply wp_mono.
  { apply (wp_set_links n 0 _ nexts a nd (fun _ => 0) (fun l => succ l C)); [apply lookup_insert_eq|done|].
    intros j Hj. apply Hs; lia. }
  intros _ m2 (f' & -> & Hf & _). cbn [heap set_heap]. rewrite insert_insert_eq.
  destruct (rep_new_node base m sl hw B C nd f' (<[a := words nd f']> (heap m)) Hrep Hfr)
    as (HP & HnC & Hnd & Esl & Hsl); [intros l Hl; apply Hf; simpl in Hl; lia|done|].
  apply wp_bind. eapply wp_mono.
  { apply (wp_link_in n 0 _ preds (head_node sl :: B) nd C); cbn [heap set_heap]; try done.
    intros j Hj. apply Hp; lia. }
  intros _ m3 (HP3 & HC3 & Hother & Hd). apply wp_ret. split_and!; [done|done|].
  exists (B ++ nd :: C). split.
  - eapply (sl_rep_insert base m); try done.
    + by eapply links_upto_all; [|exact HP3].
    + by rewrite Hother.
  - unfold nd. rewrite (abs_insert base) by (done || apply Hrep). by rewrite <- EL.
Qed.

Lemma sl_cas_ok fuel m sl hw L key e v :
  sl_rep base m sl hw L -> key_window base key -> (length L + 1 < fuel)%nat ->
  0 < v < 2 ^ 63 -> rand_ok m -> (forall k, (k <= MAX_LEVELS)%nat -> can_alloc m (3 + k)) ->
  exists m' hw' L', run (sl_cas fuel sl key e v) m = Done (cas_spec (abs L) key e v).1 m' /\
    sl_rep base m' sl hw' L' /\ abs L' = (cas_spec (abs L) key e v).2 /\ deferred m' = deferred m.
Proof.
  intros Hrep Hk Hf Hv Hr Hc.
  enough (wp (sl_cas fuel sl key e v) m (fun r m' => r = (cas_spec (abs L) key e v).1 /\
    deferred m' = deferred m /\ exists hw' L', sl_rep base m' sl hw' L' /\ abs L' = (cas_spec (abs L) key e v).2)) as Hwp.
  { apply wp_run in Hwp as (? & m' & E & -> & ? & hw' & L' & ? & ?). eauto 10. }
  unfold sl_cas. wp_op. { apply Z.ltb_lt. rewrite s64_small; lia. }
  apply wp_bind. apply (wp_random_levels base m sl hw L); [done..|].
  intros n hw' m1 Hrep1 Hn _ Hdom Hd. apply wp_bind.
  destruct (find_preds_run fuel (Some ∅) (Some ∅) n m1 sl hw' L key Hrep1 Hk Hf) as (preds & nexts & Er & Hp & Hs).
  eapply wp_done; [exact Er|]. unfold cas_spec, lookup_spec. rewrite (abs_lookup base) by apply Hrep.
  pose proof (split_key base key L (sr_wf _ _ _ _ _ Hrep)) as EL.
  destruct (hit key (above key L)) eqn:Hhit.
  - destruct (above key L) as [|c C] eqn:EC; [done|]. simpl in Hhit. simpl found. rewrite Hhit.
    apply Z.eqb_eq in Hhit. destruct (rep_found _ _ _ _ _ _ _ _ Hrep1 EC) as (Hw & [Hptr _] & Hcv).
    rewrite (proj2 (Z.eqb_neq (s_addr c) 0)) by lia. cbn [negb]. apply wp_bind.
    eapply wp_load; [exact Hw|done|].
    assert (Ecase : (e =? CAS_EXPECT_DOES_NOT_EXIST) || negb (e =? CAS_EXPECT_WHATEVER) && negb (e =? CAS_EXPECT_EXISTS)
       && negb (e =? s_val c) = negb (cas_matches e (s_val c))).
    { apply cas_test. unfold DOES_NOT_EXIST. lia. }
    rewrite Ecase. change (default DOES_NOT_EXIST (Some (s_val c))) with (s_val c). cbn [fst snd].
    destruct (cas_matches e (s_val c)); cbn [negb].
    + apply wp_bind. eapply wp_store; [exact Hw|simpl; unfold VAL; lia|]. apply wp_ret. split_and!; [done|done|].
      rewrite EL in Hrep1. exists hw', (below key L ++ SNode (s_addr c) (s_key c) v (s_lvl c) :: C). split.
      * by apply rep_set_val.
      * rewrite (abs_update base) by apply Hrep1. rewrite Hhit. do 2 f_equal. symmetry. exact EL.
    + apply wp_ret. split_and!; [done|done|]. eauto.
  - pose proof (found_miss key (above key L) Hhit) as Ef. pose proof (miss_lookup key (above key L) Hhit) as En.
    rewrite Ef, En. cbn [Z.eqb negb fst snd].
    assert (Ecase : negb (e =? CAS_EXPECT_DOES_NOT_EXIST) && negb (e =? CAS_EXPECT_WHATEVER) = negb (cas_matches e DOES_NOT_EXIST)).
    { apply cas_test_absent. }
    rewrite Ecase. change (default DOES_NOT_EXIST None) with DOES_NOT_EXIST.
    destruct (cas_matches e DOES_NOT_EXIST); cbn [negb]; [|apply wp_ret; split_and!; eauto].
    rewrite (sr_int _ _ _ _ _ Hrep). wp_op.
    destruct preds as [preds|]; [|done]. destruct nexts as [nexts|]; [|done].
    eapply wp_mono.
    { apply (wp_insert m1 sl hw' L key v n preds nexts); try done.
      intros h Eh. apply (Hc n); [pose proof (sr_water _ _ _ _ _ Hrep1); lia|]. congruence. }
    intros r m' (-> & Hd' & L' & Hrep' & Habs). split_and!; [done|congruence|]. eauto.
Qed.

(** [sl_cas] of the sequential skiplist is the compare-and-swap of the map
    contract: it returns the previous value and stores the new one exactly when
    the expectation (a value, "exists", "does not exist" or "whatever") holds;
    the skiplist stays well formed at every level. *)
Theorem sl_cas_refines fuel m sl hw L key e v :
  sl_rep base m sl hw L -> key_window base key -> (length L + 1 < fuel)%nat ->
  0 < v < 2 ^ 63 -> rand_ok m -> (forall k, (k <= MAX_LEVELS)%nat -> can_alloc m (3 + k)) ->
  exists m' hw' L', run (sl_cas fuel sl key e v) m = Done (cas_spec (abs L) key e v).1 m' /\
    sl_rep base m' sl hw' L' /\ abs L' = (cas_spec (abs L) key e v).2 /\ deferred m' = deferred m.
Proof. exact (sl_cas_ok fuel m sl hw L key e v). Qed.

(** ** Removal *)

(** The memory while the node [x] is being unlinked: it is still linked at the
    levels below [k]. *)
Record unlinking (m : mem) (P : list snode) (x : snode) (C : list snode) (k : nat) : Prop := {
  ul_links : skip_with (links_upto x C k) (heap m) P;
  ul_rest : skip (heap m) (x :: C);
  ul_nodup : NoDup (s_addr <$> P ++ x :: C);
}.

Lemma unlinking_ctx m sl key l k A p B x C :
  unlinking m (A ++ p :: B) x C k -> (l < k)%nat -> (l < s_lvl p)%nat ->
  walk_nodes base sl key B (x :: C) -> walk_ctx base m sl key l A p B (x :: C).
Proof.
  intros [H1 H2 H3] Hl Hp Hn. split; [|done|done].
  rewrite (app_comm_cons B (x :: C) p), (app_assoc A (p :: B) (x :: C)). by eapply upto_level_ok.
Qed.

(** One level at which [x] is linked: the walk finds it and unlinks it. *)
Lemma walk_unlink fuel m sl key k A p B x C d :
  unlinking m (A ++ p :: B) x C (S k) -> walk_nodes base sl key B (x :: C) -> (k < s_lvl p)%nat ->
  (length B + 1 < fuel)%nat -> (k < s_lvl x)%nat -> s_key x = key ->
  exists q m', run (find_preds_walk fuel sl key true k (s_addr p) (succ k (B ++ x :: C)) d) m =
      Done (s_addr q, succ k C, 0) m' /\
    pred_at k (A ++ p :: B) q /\ unlinking m' (A ++ p :: B) x C k /\
    (forall a, a ∉ s_addr <$> A ++ p :: B -> heap m' !! a = heap m !! a) /\ deferred m' = deferred m.
Proof.
  intros Hu Hn Hp Hf Hx Hkey. pose proof (unlinking_ctx _ _ _ k _ _ _ _ _ _ Hu ltac:(lia) Hp Hn) as Hctx.
  destruct (walk_to base fuel m sl key true k A p B (x :: C) d Hctx) as (q & d' & fuel' & Hf' & -> & Hq); [lia|].
  destruct fuel' as [|fuel']; [lia|]. cbn [find_preds_walk]. rewrite (succ_cons k x C) by done.
  destruct Hn as [Hptr _ _ Hwin Hkw Hint]. rewrite !Forall_app, !Forall_cons in *.
  destruct Hptr as (_ & [Hx0 _] & HpC), Hwin as (_ & Hxw & _).
  destruct Hu as [Hl Hr Hnd]. pose proof Hq as (A' & R & EP & Hlq & ER).
  pose proof (Hr [] x C eq_refl) as Hw. pose proof (Hl _ _ _ EP) as Hwq.
  rewrite (proj2 (Z.eqb_neq (s_addr x) 0)) by lia.
  rewrite run_bind, (run_load _ _ _ _ Hw), words_next by done.
  rewrite run_bind, (run_load _ _ _ _ Hw). simpl lookup. cbv iota. rewrite run_bind, Hint. unfold key_diff.
  rewrite run_ret, (window_diff base) by done. rewrite Hkey, Z.sub_diag. simpl.
  assert (Hqa : s_addr q ∈ s_addr <$> A ++ p :: B).
  { rewrite EP, fmap_app. apply elem_of_app. right. left. }
  set (h' := <[s_addr q := <[NEXT k := succ k C]> (words q (links_upto x C (S k) R))]> (heap m)).
  assert (Hu' : unlinking (set_heap m h') (A ++ p :: B) x C k).
  { rewrite fmap_app in Hnd. pose proof Hnd as (HndP & Hdis & _)%NoDup_app. split; cbn [heap set_heap].
    - by eapply unlink_step.
    - apply skip_with_fresh; [by apply Hdis|done].
    - by rewrite fmap_app. }
  unfold links. rewrite app_nil_r. unfold store. rewrite run_bind, run_act. cbn [handle]. rewrite Hwq.
  rewrite decide_True by (unfold words, NEXT; rewrite length_app, length_fmap, length_seq; simpl; lia).
  fold h'. rewrite run_ret, run_bind.
  assert (exists w, run (if negb (succ k C =? 0) then load (succ k C) (NEXT k) else Ret DOES_NOT_EXIST)
                        (set_heap m h') = Done w (set_heap m h')) as [w Hld].
  { destruct (Z.eqb_spec (succ k C) 0) as [|Hne]; [by eexists|]. cbn [negb].
    destruct (at_level k C) as [|c Y] eqn:EC; [unfold succ in Hne; by rewrite EC in Hne|].
    apply at_level_first in EC as (C1 & C2 & -> & E1 & Hlc & _).
    rewrite succ_app_nil, succ_cons by done.
    pose proof (ul_rest _ _ _ _ _ Hu' (x :: C1) c C2 eq_refl) as Hc.
    rewrite (run_load _ _ _ _ Hc), words_next by done. by eexists. }
  rewrite Hld. rewrite run_ret. exists q, (set_heap m h'). split_and!; try done.
  intros a Ha. cbn [heap set_heap]. unfold h'. apply lookup_insert_ne. by intros <-.
Qed.

Lemma unlinking_skip m P x C k :
  unlinking m P x C (S k) -> (s_lvl x <= k)%nat -> unlinking m P x C k.
Proof. intros [H1 H2 H3] Hx. split; [by apply unlink_above|done|done]. Qed.

Lemma levels_unlink k fuel m sl key A p B x C item d :
  unlinking m (A ++ p :: B) x C k -> walk_nodes base sl key B (x :: C) -> (k <= s_lvl p)%nat ->
  (length B + 1 < fuel)%nat -> s_key x = key -> (forall c, c ∈ C -> s_key c <> key) ->
  exists r m', run (find_preds_levels k fuel None None 0 sl key true (s_addr p) item d) m = Done r m' /\
    unlinking m' (A ++ p :: B) x C 0 /\
    (forall a, a ∉ s_addr <$> A ++ p :: B -> heap m' !! a = heap m !! a) /\ deferred m' = deferred m.
Proof.
  revert m A p B item d. induction k as [|k IH]; intros m A p B item d Hu Hn Hp Hf Hx HC.
  { do 2 eexists. split; [done|]. done. }
  cbn [find_preds_levels]. pose proof (unlinking_ctx _ _ _ k _ _ _ _ _ _ Hu ltac:(lia) ltac:(lia) Hn) as Hctx.
  destruct (wc_level _ _ _ _ _ _ _ _ _ Hctx A p (B ++ x :: C) eq_refl ltac:(lia)) as (w & Hw & _ & Hwn).
  rewrite run_bind, (run_load _ _ _ _ Hw), Hwn. change (Nat.leb 0 k) with true. rewrite andb_true_r.
  destruct (Z.eqb_spec (succ k (B ++ x :: C)) DOES_NOT_EXIST) as [Ez|_].
  { apply (addr_or_zero k (B ++ x :: C) (wn_ptr _ _ _ _ _ Hn)) in Ez.
    apply IH; try done; [|lia]. apply unlinking_skip; [done|]. rewrite at_level_app, at_level_cons in Ez.
    destruct (decide (k < s_lvl x)%nat); [by destruct (at_level k B)|lia]. }
  destruct (decide (k < s_lvl x)%nat) as [Hlx|Hlx].
  - destruct (walk_unlink fuel m sl key k A p B x C d Hu Hn ltac:(lia) Hf Hlx Hx)
      as (q & m1 & Er & Hq & Hu1 & Ho & Hd).
    rewrite run_bind, Er. destruct (pred_at_after _ _ _ _ _ Hq ltac:(lia)) as (A' & K & R & E & Hlq & EB & _).
    change (Nat.ltb k 0) with false. cbv iota. rewrite E in *. rewrite EB in Hn, Hf. rewrite length_app in Hf.
    destruct (IH m1 A' q R (succ k C) 0 Hu1 (walk_nodes_suffix _ _ _ _ _ _ Hn) ltac:(lia) ltac:(lia) Hx HC)
      as (r & m' & Er' & Hu' & Ho' & Hd').
    exists r, m'. split; [done|]. split; [done|]. split; [|congruence]. intros a Ha. by rewrite Ho', Ho.
  - destruct (walk_stop base fuel m sl key k A p B (x :: C) d true Hctx Hf) as (q & d1 & Er & Hq & _).
    { intros _ c Y Ec. rewrite at_level_cons, decide_False in Ec by done. apply HC.
      apply at_level_first in Ec as (C1 & C2 & -> & _). apply elem_of_app. right. left. }
    rewrite run_bind, Er. destruct (pred_at_after _ _ _ _ _ Hq ltac:(lia)) as (A' & K & R & E & Hlq & EB & _).
    change (Nat.ltb k 0) with false. cbv iota. apply unlinking_skip in Hu; [|lia]. rewrite E in *.
    rewrite EB in Hn, Hf. rewrite length_app in Hf.
    apply IH; try done; [by eapply walk_nodes_suffix|lia..].
Qed.

(** The second search of [sl_remove] *)
Lemma find_preds_unlink fuel m sl hw B x C :
  sl_rep base m sl hw (B ++ x :: C) -> (forall y, y ∈ B -> s_key y < s_key x) ->
  (length B + 1 < fuel)%nat ->
  exists r m', run (find_preds fuel None None 0 sl (s_key x) true) m = Done r m' /\
    skip_with (links C) (heap m') (head_node sl :: B) /\ skip (heap m') (x :: C) /\
    (forall a, a ∉ s_addr <$> head_node sl :: B -> heap m' !! a = heap m !! a) /\ deferred m' = deferred m.
Proof.
  intros Hrep HB Hf. pose proof Hrep as [H1 H2 H3 H4 H5 H6 H7 H8]. pose proof H5 as [W1 W2 W3 W4].
  apply sl_nodes_app in H5 as (_ & (_ & _ & HxC)%sl_nodes_cons & _).
  assert (H1' := H1). change (head_node sl :: B ++ x :: C) with ((head_node sl :: B) ++ x :: C) in H1', H3.
  unfold skip in H1'. rewrite skip_with_app in H1'. destruct H1' as [HP HC].
  assert (Hlx : (s_lvl x <= hw)%nat) by (rewrite Forall_app, Forall_cons in H7; lia).
  destruct (levels_unlink hw fuel m sl (s_key x) [] (head_node sl) B x C 0 0) as (r & m' & Er & Hu & Ho & Hd); try done.
  - split; [|done|by apply NoDup_cons in H3 as [_ ?]]. apply links_upto_top; [done|].
    eapply skip_with_ext; [|exact HP]. intros. unfold links. by rewrite app_nil_r.
  - split; try done.
    + by apply Forall_forall.
    + apply Forall_cons. split; [done|]. apply Forall_forall. intros y ?%HxC. lia.
    + rewrite Forall_app, Forall_cons in W3. tauto.
  - simpl. lia.
  - intros c ?%HxC. lia.
  - unfold find_preds. rewrite run_bind, (rep_high_water _ _ _ _ _ Hrep), run_bind, Nat2Z.id.
    change (sl_head sl) with (s_addr (head_node sl)). rewrite Er. destruct r as [[[item d] ps] ss].
    rewrite run_ret. do 2 eexists. split; [done|]. destruct Hu as [Hl Hr _]. split_and!; try done.
Qed.

Lemma sl_remove_ok fuel m sl hw L key :
  sl_rep base m sl hw L -> key_window base key -> (length L + 1 < fuel)%nat ->
  exists m' L', run (sl_remove fuel sl key) m = Done (remove_spec (abs L) key).1 m' /\
    sl_rep base m' sl hw L' /\ abs L' = (remove_spec (abs L) key).2 /\ deferred m' = deferred m /\
    (forall a, is_Some (heap m' !! a) <-> is_Some (heap m !! a) /\
       (is_Some (abs L !! key) -> a <> found key (above key L))).
Proof.
  intros Hrep Hk Hf. unfold sl_remove. rewrite run_bind, (rep_high_water _ _ _ _ _ Hrep), Nat2Z.id, run_bind.
  destruct (find_preds_run fuel (Some ∅) None hw m sl hw L key Hrep Hk Hf) as (preds & nexts & -> & _ & _).
  unfold remove_spec, lookup_spec. rewrite (abs_lookup base) by apply Hrep.
  pose proof (split_key base key L (sr_wf _ _ _ _ _ Hrep)) as EL.
  destruct (hit key (above key L)) eqn:Hhit.
  - destruct (above key L) as [|x C] eqn:EC; [done|]. simpl in Hhit. simpl found. rewrite Hhit.
    apply Z.eqb_eq in Hhit. destruct (rep_found _ _ _ _ _ _ _ _ Hrep EC) as (Hw & [Hptr _] & Hcv).
    rewrite (proj2 (Z.eqb_neq (s_addr x) 0)) by lia.
    rewrite run_bind, (run_load _ _ _ _ Hw). simpl lookup. cbv iota. rewrite run_bind.
    pose proof (below_length key L) as HlB. pose proof (below_keys key L) as HB.
    set (B := below key L) in *. clearbody B. subst L. rewrite <- Hhit.
    destruct (find_preds_unlink fuel m sl hw B x C Hrep) as (r & m1 & -> & HP & HxC & Ho & Hd).
    { intros y Hy. rewrite Hhit. by apply HB. } { lia. }
    rewrite run_bind, (sr_int _ _ _ _ _ Hrep), run_ret, run_bind.
    pose proof (sr_nodup _ _ _ _ _ Hrep) as Hnd. cbn [fmap list_fmap] in Hnd. rewrite fmap_app in Hnd.
    cbn [fmap list_fmap] in Hnd.
    apply NoDup_cons in Hnd as [Hsl Hnd]. rewrite app_comm_cons in Hnd, Hsl. apply NoDup_app in Hnd as (_ & HdB & [HxnC _]%NoDup_cons).
    assert (HxB : s_addr x ∉ s_addr <$> head_node sl :: B) by (intros Hin; apply (HdB _ Hin); left).
    pose proof (HxC [] x C eq_refl) as Hx1. rewrite (run_free _ _ _ Hx1), run_ret.
    eexists _, (B ++ C). split_and!; [done|..].
    + eapply (rep_delete base m); cbn [heap set_heap]; try done.
      * by apply skip_with_delete.
      * apply skip_with_delete; [done|]. change (x :: C) with ([x] ++ C) in HxC. by apply skip_with_app in HxC as [_ ?].
      * apply not_elem_of_app in Hsl as [Hsl1 Hsl2]. rewrite lookup_delete_ne.
        -- by apply Ho.
        -- intros E. apply Hsl2. rewrite E. left.
    + cbn [fst snd]. apply (abs_delete base). apply Hrep.
    + done.
    + intros a. cbn [heap set_heap]. split.
      * intros [b Hb]. apply lookup_delete_Some in Hb as [Hne Hb]. split; [|by intros _ ->].
        destruct (decide (a ∈ s_addr <$> head_node sl :: B)) as [Ha|Ha]; [|rewrite <- Ho by done; eauto].
        apply list_elem_of_fmap in Ha as (y & -> & (A & R & Ey)%list_elem_of_split).
        pose proof (sr_nodes _ _ _ _ _ Hrep A y (R ++ x :: C)) as Hy. rewrite Hy; [eauto|].
        change (head_node sl :: B ++ x :: C) with ((head_node sl :: B) ++ x :: C). by rewrite Ey, <- app_assoc.
      * intros [Ha Hne]. rewrite lookup_delete_ne by (intros <-; by apply Hne).
        destruct (decide (a ∈ s_addr <$> head_node sl :: B)) as [Hin|Hin]; [|by rewrite Ho].
        apply list_elem_of_fmap in Hin as (y & -> & (A & R & Ey)%list_elem_of_split).
        rewrite (HP _ _ _ Ey). eauto.
  - pose proof (found_miss key (above key L) Hhit) as Ef. pose proof (miss_lookup key (above key L) Hhit) as En.
    rewrite Ef, En, Z.eqb_refl, run_ret. exists m, L. split_and!; try done.
    + cbn [snd]. rewrite delete_id; [done|]. by rewrite (abs_lookup base), En by apply Hrep.
    + intros a. split; [|tauto]. intros Ha. split; [done|]. by intros [].
Qed.

(** [sl_remove] of the sequential skiplist removes the key at every level and
    returns the value it had ([DOES_NOT_EXIST], and no change, when it was
    absent); the node is freed, once, and nothing else is. *)
Theorem sl_remove_refines fuel m sl hw L key :
  sl_rep base m sl hw L -> key_window base key -> (length L + 1 < fuel)%nat ->
  exists m' L', run (sl_remove fuel sl key) m = Done (remove_spec (abs L) key).1 m' /\
    sl_rep base m' sl hw L' /\ abs L' = (remove_spec (abs L) key).2 /\ deferred m' = deferred m /\
    (forall a, is_Some (heap m' !! a) <-> is_Some (heap m !! a) /\
       (is_Some (abs L !! key) -> a <> found key (above key L))).
Proof. exact (sl_remove_ok fuel m sl hw L key). Qed.

(** ** Iteration *)

(** A client's loop: the pairs an iterator yields until it returns
    [DOES_NOT_EXIST] *)
Fixpoint sl_drain (steps : nat) (iter : sl_iter_t) : prog (list (Z * Z)) :=
  match steps with
  | O => Fail OutOfFuel
  | S steps =>
      r ⇐ sl_iter_next iter;
      match r with
      | (iter, v, k) =>
          if v =? DOES_NOT_EXIST then Ret [] else rest ⇐ sl_drain steps iter; Ret ((k, v) :: rest)
      end
  end.

Lemma sl_drain_run steps a m sl hw L A R :
  sl_rep base m sl hw L -> L = A ++ R -> (length R < steps)%nat ->
  run (sl_drain steps (SLIter a (addr_or R))) m = Done (entries R) m.
Proof.
  revert A R. induction steps as [|steps IH]; intros A R Hrep E Hs; [lia|].
  cbn [sl_drain]. rewrite run_bind. unfold sl_iter_next. cbn [sl_iter_node].
  destruct R as [|n R]; simpl addr_or; [done|]. simpl in Hs.
  destruct (rep_node _ _ _ _ _ _ _ _ Hrep E) as [Hw [Hp _]]. rewrite (proj2 (Z.eqb_neq (s_addr n) 0)) by lia.
  assert (Hlv : Forall (fun x => (1 <= s_lvl x <= hw)%nat) L) by apply Hrep.
  assert (Hvs : Forall (fun x => 0 < s_val x < 2 ^ 63) L) by apply Hrep.
  rewrite E, Forall_app, Forall_cons in Hlv, Hvs. destruct Hlv as (_ & Hn & HR), Hvs as (_ & Hv & _).
  rewrite run_bind, (run_load _ _ _ _ Hw), words_next by lia.
  rewrite run_bind, (run_load _ _ _ _ Hw). simpl lookup. cbv iota.
  rewrite run_bind, (run_load _ _ _ _ Hw). simpl lookup. cbv iota. rewrite run_ret.
  rewrite (proj2 (Z.eqb_neq (s_val n) DOES_NOT_EXIST)) by (unfold DOES_NOT_EXIST; lia).
  unfold links. rewrite app_nil_r. assert (succ 0 R = addr_or R) as ->.
  { destruct R as [|y R]; [done|]. apply succ_cons. apply Forall_cons in HR as [? _]. lia. }
  rewrite run_bind, (IH (A ++ [n])); [done|done|by rewrite <- app_assoc|lia].
Qed.

(** An iterator of the sequential skiplist started at [key] yields exactly the
    entries whose keys are at least [key], in increasing order; started with
    [DOES_NOT_EXIST] it yields all of them. Once it is freed the memory is as it
    was before. *)
Theorem sl_iterates steps fuel m sl hw L key a :
  sl_rep base m sl hw L -> key_window base key -> alloc (heap m) 1 = Some a ->
  (length L < steps)%nat -> (length L + 1 < fuel)%nat ->
  run (iter ⇐ sl_iter_begin fuel sl key; es ⇐ sl_drain steps iter; _ ⇐ sl_iter_free iter; Ret es) m =
    Done (entries (if key =? DOES_NOT_EXIST then L else above key L)) m.
Proof.
  intros Hrep Hk Ha Hs Hf. set (m' := set_heap m (<[a := junk (heap m) 1]> (heap m))).
  assert (Hrep' : sl_rep base m' sl hw L).
  { apply rep_fresh; [done|]. by eapply alloc_fresh. }
  pose proof (alloc_fresh _ _ _ Ha) as Hfr. rewrite run_bind. unfold sl_iter_begin. rewrite run_bind. unfold malloc.
  rewrite run_act. cbn [handle]. rewrite Ha, run_ret. fold m'.
  destruct (Z.eqb_spec key DOES_NOT_EXIST); cbn [negb].
  - rewrite run_bind, (rep_first _ _ _ _ _ Hrep'), run_ret, run_bind, (sl_drain_run steps a m' sl hw L []) by done.
    by apply run_free_fresh.
  - rewrite run_bind. destruct (find_preds_run fuel None (Some ∅) 1 m' sl hw L key Hrep' Hk Hf)
      as (preds & succs & -> & _ & Hss). destruct succs as [succs|]; [|done]. destruct Hss as [Hss _].
    pose proof (sr_water _ _ _ _ _ Hrep). cbn [default from_option]. rewrite run_bind. unfold arr_get.
    change (default ∅ (Some succs)) with succs.
    rewrite Hss, run_ret, run_ret by lia. pose proof (split_key base key L (sr_wf _ _ _ _ _ Hrep)) as EL.
    assert (succ 0 (above key L) = addr_or (above key L)) as ->.
    { pose proof (above_levels base key sl hw m L Hrep) as Hl. destruct (above key L); [done|]. apply succ_cons.
      by apply Forall_cons in Hl as [? _]. }
    pose proof (f_equal length EL) as El. rewrite length_app in El.
    rewrite run_bind, (sl_drain_run steps a m' sl hw L (below key L)) by (done || lia).
    by apply run_free_fresh.
Qed.

(** ** Creation *)

(** A new skiplist is empty. *)
Theorem sl_alloc_empty m a1 :
  alloc (heap m) 3 = Some a1 ->
  can_alloc (set_heap m (<[a1 := [0; 0; 1]]> (heap m))) (3 + MAX_LEVELS) ->
  exists sl m', run (sl_alloc None) m = Done sl m' /\ sl_rep base m' sl 1 [] /\ abs [] = ∅.
Proof.
  intros Ha1 Hc. enough (wp (sl_alloc None) m (fun sl m' => sl_rep base m' sl 1 [])) as (sl & m' & ? & ?)%wp_run by eauto 10.
  by apply (wp_sl_init base m a1 true).
Qed.
End refinement.

(** * Witnesses *)

Lemma sl_lookup_refines_witness : run (sl_lookup 9 ex_sl 9) ex_m = Done 90 ex_m.
Proof.
  etransitivity; [apply (sl_lookup_refines 0 9 ex_m ex_sl 2 ex_L);
    [apply ex_sl_rep|by unfold key_window|simpl; lia]|by vm_compute].
Defined.

Lemma sl_count_refines_witness : run (sl_count 9 ex_sl) ex_m = Done 2 ex_m.
Proof. apply (sl_count_refines 0 9 ex_m ex_sl 2 ex_L); [apply ex_sl_rep|simpl; lia]. Defined.

Lemma sl_min_key_least_witness : exists k : Z, run (sl_min_key ex_sl) ex_m = Done k ex_m /\
  (abs ex_L = ∅ -> k = DOES_NOT_EXIST) /\
  (abs ex_L <> ∅ -> is_Some (abs ex_L !! k) /\ forall k', is_Some (abs ex_L !! k') -> k <= k').
Proof. apply (sl_min_key_least 0 ex_m ex_sl 2 ex_L). apply ex_sl_rep. Defined.

Lemma sl_cas_refines_witness : exists m' hw' L',
  run (sl_cas 9 ex_sl 7 CAS_EXPECT_WHATEVER 70) ex_m = Done 0 m' /\ sl_rep 0 m' ex_sl hw' L' /\
  abs L' = <[7 := 70]> (<[5 := 50]> (<[9 := 90]> ∅)) /\ deferred m' = [].
Proof.
  apply (sl_cas_refines 0 9 ex_m ex_sl 2 ex_L 7 CAS_EXPECT_WHATEVER 70);
    [apply ex_sl_rep|by unfold key_window|simpl; lia|lia|by vm_compute|intros; apply ex_sl_can_alloc].
Defined.

Lemma sl_remove_refines_witness : exists m' L',
  run (sl_remove 9 ex_sl 5) ex_m = Done 50 m' /\ sl_rep 0 m' ex_sl 2 L' /\
  abs L' = delete 5 (<[5 := 50]> (<[9 := 90]> ∅)) /\ deferred m' = [] /\
  (forall a, is_Some (heap m' !! a) <-> is_Some (heap ex_m !! a) /\ (is_Some (abs ex_L !! 5) -> a <> 400)).
Proof.
  apply (sl_remove_refines 0 9 ex_m ex_sl 2 ex_L 5); [apply ex_sl_rep|by unfold key_window|simpl; lia].
Defined.

Lemma sl_iterates_witness :
  run (iter ⇐ sl_iter_begin 9 ex_sl 6; es ⇐ sl_drain 9 iter; _ ⇐ sl_iter_free iter; Ret es) ex_m = Done [(9, 90)] ex_m.
Proof.
  apply (sl_iterates 0 9 9 ex_m ex_sl 2 ex_L 6 488);
    [apply ex_sl_rep|by unfold key_window|by vm_compute|simpl; lia|simpl; lia].
Defined.

Lemma sl_alloc_empty_witness : exists sl m',
  run (sl_alloc None) mem0 = Done sl m' /\ sl_rep 0 m' sl 1 [] /\ abs [] = ∅.
Proof.
  apply (sl_alloc_empty 0 mem0 8); [by vm_compute|].
  intros h Eh. apply (bump_room h _ 1); [|done..]. rewrite Eh. cbn [heap set_heap mem0].
  rewrite dom_insert_L, dom_empty_L. intros a. rewrite elem_of_union, elem_of_singleton, elem_of_empty. zlia.
Defined.
