(* ===== verification/Skiplist.v ===== *)
(** The lock-free skiplist of [map/skiplist.c]: its operations as programs of the
    machine (compare-and-swaps, marks and retries included) and their refinement of
    a finite map when they run one after the other. *)
From S2P Require Import Prelude Random Machine Datatype MapSpec SkipNodes.

(** [enum unlink] *)
Inductive unlink := FORCE_UNLINK | ASSIST_UNLINK | DONT_UNLINK.

#[export] Instance unlink_eq_dec : EqDecision unlink.
Proof. solve_decision. Defined.

Definition node_alloc (num_levels : nat) (key val : Z) : prog Z :=
  _ ⇐ assert (Nat.leb 0 num_levels && Nat.leb num_levels MAX_LEVELS);
  node_init num_levels key val.

Definition sl_alloc (key_type : option datatype) : prog skiplist_t :=
  sl ⇐ malloc 3;
  _ ⇐ store sl KEY_TYPE (match key_type with None => 0 | Some _ => 1 end);
  _ ⇐ store sl HIGH_WATER 1;
  head ⇐ node_alloc MAX_LEVELS 0 0;
  _ ⇐ store sl HEAD head;
  _ ⇐ memset0 head (NEXT 0) MAX_LEVELS;
  Ret (SL sl head key_type).

(** The loop of [sl_free] *)
Fixpoint sl_free_loop (fuel : nat) (sl : skiplist_t) (item : Z) : prog unit :=
  match fuel with
  | O => Fail OutOfFuel
  | S fuel =>
      if item =? 0 then Ret tt
      else
        n ⇐ load item (NEXT 0);
        let next := STRIP_MARK n in
        _ ⇐ (match sl_key_type sl with
             | Some _ => k ⇐ load item KEY; nbd_free k
             | None => Ret 0
             end);
        _ ⇐ nbd_free item;
        sl_free_loop fuel sl next
  end.

Definition sl_free (fuel : nat) (sl : skiplist_t) : prog unit :=
  item ⇐ load (sl_head sl) (NEXT 0);
  sl_free_loop fuel sl (GET_NODE item).

(** The loop of [sl_count] *)
Fixpoint sl_count_loop (fuel : nat) (item count : Z) : prog Z :=
  match fuel with
  | O => Fail OutOfFuel
  | S fuel =>
      if item =? 0 then Ret count
      else
        n ⇐ load item (NEXT 0);
        let count := if negb (HAS_MARK n) then u64 (count + 1) else count in
        n ⇐ load item (NEXT 0);
        sl_count_loop fuel (STRIP_MARK n) count
  end.

Definition sl_count (fuel : nat) (sl : skiplist_t) : prog Z :=
  item ⇐ load (sl_head sl) (NEXT 0);
  sl_count_loop fuel (GET_NODE item) 0.

(** How the loop over marked items ends: search again, or go on with [item] and
    its link [next] *)
Inductive scan := Retry | Continue (item next : Z).

(** [while (EXPECT_FALSE(HAS_MARK(next)))] *)
Fixpoint find_preds_marked (fuel : nat) (u : unlink) (level : nat) (pred item next : Z) : prog scan :=
  match fuel with
  | O => Fail OutOfFuel
  | S fuel =>
      if negb (HAS_MARK next) then Ret (Continue item next)
      else if decide (u = DONT_UNLINK) then
        let item := STRIP_MARK next in
        if item =? 0 then Ret (Continue item next)
        else
          next ⇐ load item (NEXT level);
          find_preds_marked fuel u level pred item next
      else
        other ⇐ SYNC_CAS pred (NEXT level) item (STRIP_MARK next);
        if negb (other =? item) && HAS_MARK other then Ret Retry
        else
          let item := if other =? item then STRIP_MARK next else GET_NODE other in
          next ⇐ (if negb (item =? 0) then load item (NEXT level) else Ret DOES_NOT_EXIST);
          find_preds_marked fuel u level pred item next
  end.

(** [while (item != NULL)] at one level; [None] asks for a retry. *)
Fixpoint find_preds_walk (fuel : nat) (sl : skiplist_t) (key : Z) (u : unlink) (level : nat)
    (pred item d : Z) : prog (option (Z * Z * Z)) :=
  match fuel with
  | O => Fail OutOfFuel
  | S fuel =>
      if item =? 0 then Ret (Some (pred, item, d))
      else
        next ⇐ load item (NEXT level);
        s ⇐ find_preds_marked fuel u level pred item next;
        match s with
        | Retry => Ret None
        | Continue item next =>
            if item =? 0 then Ret (Some (pred, item, d))
            else
              k ⇐ load item KEY;
              d ⇐ key_diff (sl_key_type sl) k key;
              if 0 <? d then Ret (Some (pred, item, d))
              else if (d =? 0) && negb (bool_decide (u = FORCE_UNLINK)) then Ret (Some (pred, item, d))
              else find_preds_walk fuel sl key u level item (GET_NODE next) d
        end
  end.

(** [for (int level = k - 1; level >= 0; --level)] *)
Fixpoint find_preds_levels (k : nat) (fuel : nat) (preds succs : option array) (n : nat)
    (sl : skiplist_t) (key : Z) (u : unlink) (pred item d : Z)
    : prog (option (Z * Z * option array * option array)) :=
  match k with
  | O => Ret (Some (item, d, preds, succs))
  | S level =>
      next ⇐ load pred (NEXT level);
      if (next =? DOES_NOT_EXIST) && Nat.leb n level
      then find_preds_levels level fuel preds succs n sl key u pred item d
      else if HAS_MARK next then
        nl ⇐ load pred LEVELS;
        _ ⇐ (if Z.of_nat level =? nl - 1 then Ret tt
             else up ⇐ load pred (NEXT (S level)); assert (HAS_MARK up));
        Ret None
      else
        r ⇐ find_preds_walk fuel sl key u level pred (GET_NODE next) d;
        match r with
        | None => Ret None
        | Some (pred, item, d) =>
            let preds := if Nat.ltb level n then <[level := pred]> <$> preds else preds in
            let succs := if Nat.ltb level n then <[level := item]> <$> succs else succs in
            find_preds_levels level fuel preds succs n sl key u pred item d
        end
  end.

Fixpoint find_preds_retry (tries fuel : nat) (preds succs : option array) (n : nat) (sl : skiplist_t)
    (key : Z) (u : unlink) : prog (Z * option array * option array) :=
  match tries with
  | O => Fail OutOfFuel
  | S tries =>
      hw ⇐ load (sl_addr sl) HIGH_WATER;
      r ⇐ find_preds_levels (Z.to_nat hw) fuel preds succs n sl key u (sl_head sl) 0 0;
      match r with
      | None => find_preds_retry tries fuel preds succs n sl key u
      | Some (item, d, preds, succs) => Ret (if d =? 0 then item else 0, preds, succs)
      end
  end.

Definition find_preds (fuel : nat) := find_preds_retry fuel fuel.

Definition sl_lookup (fuel : nat) (sl : skiplist_t) (key : Z) : prog Z :=
  r ⇐ find_preds fuel None None 0 sl key DONT_UNLINK;
  match r with
  | (item, _, _) =>
      if negb (item =? 0) then
        val ⇐ load item VAL;
        if negb (val =? DOES_NOT_EXIST) then Ret val else Ret DOES_NOT_EXIST
      else Ret DOES_NOT_EXIST
  end.

(** The loop of [sl_min_key] *)
Fixpoint sl_min_key_loop (fuel : nat) (item : Z) : prog Z :=
  match fuel with
  | O => Fail OutOfFuel
  | S fuel =>
      if item =? 0 then Ret DOES_NOT_EXIST
      else
        next ⇐ load item (NEXT 0);
        if negb (HAS_MARK next) then load item KEY else sl_min_key_loop fuel (STRIP_MARK next)
  end.

Definition sl_min_key (fuel : nat) (sl : skiplist_t) : prog Z :=
  item ⇐ load (sl_head sl) (NEXT 0);
  sl_min_key_loop fuel (GET_NODE item).

Fixpoint update_item (fuel : nat) (item expectation new_val : Z) : prog Z :=
  match fuel with
  | O => Fail OutOfFuel
  | S fuel =>
      old_val ⇐ load item VAL;
      if old_val =? DOES_NOT_EXIST then Ret DOES_NOT_EXIST
      else if expectation =? CAS_EXPECT_DOES_NOT_EXIST then Ret old_val
      else
        w ⇐ SYNC_CAS item VAL old_val new_val;
        if old_val =? w then Ret old_val else update_item fuel item expectation new_val
  end.

(** [for (int i = level; i < num_levels; ++i)] after a lost race: make the links of
    the new node agree with [nexts]; [true] when the node is being removed. *)
Fixpoint fix_links (item : Z) (nexts : array) (i k : nat) : prog bool :=
  match k with
  | O => Ret false
  | S k =>
      old_next ⇐ load item (NEXT i);
      v ⇐ arr_get nexts i;
      if v =? old_next then fix_links item nexts (S i) k
      else
        other ⇐ SYNC_CAS item (NEXT i) old_next v;
        _ ⇐ assert ((other =? old_next) || (other =? MARK_NODE old_next));
        if HAS_MARK other then Ret true else fix_links item nexts (S i) k
  end.

(** [do { ... } while (1)] at one level: the arrays as they are left, or [None]
    when the node is being removed. *)
Fixpoint link_level (tries fuel : nat) (sl : skiplist_t) (key new_item : Z) (num_levels level : nat)
    (preds nexts : array) : prog (option (array * array)) :=
  match tries with
  | O => Fail OutOfFuel
  | S tries =>
      pred ⇐ arr_get preds level;
      nx ⇐ arr_get nexts level;
      w ⇐ load new_item (NEXT level);
      _ ⇐ (if w =? nx then Ret tt else w ⇐ load new_item (NEXT level); assert (w =? MARK_NODE nx));
      other ⇐ SYNC_CAS pred (NEXT level) nx new_item;
      if other =? nx then Ret (Some (preds, nexts))
      else
        r ⇐ find_preds fuel (Some preds) (Some nexts) num_levels sl key ASSIST_UNLINK;
        match r with
        | (_, preds', nexts') =>
            let preds := default ∅ preds' in
            let nexts := default ∅ nexts' in
            removed ⇐ fix_links new_item nexts level (num_levels - level);
            if removed : bool then
              _ ⇐ find_preds fuel None None 0 sl key FORCE_UNLINK;
              Ret None
            else link_level tries fuel sl key new_item num_levels level preds nexts
        end
  end.

(** [for (int level = 1; ...)], [k] levels from [l] on; [false] when the node is
    being removed. *)
Fixpoint link_levels (k fuel : nat) (sl : skiplist_t) (key new_item : Z) (num_levels l : nat)
    (preds nexts : array) : prog bool :=
  match k with
  | O => Ret true
  | S k =>
      r ⇐ link_level fuel fuel sl key new_item num_levels l preds nexts;
      match r with
      | None => Ret false
      | Some (preds, nexts) => link_levels k fuel sl key new_item num_levels (S l) preds nexts
      end
  end.

(** The end of [sl_cas], once the new node is linked at the bottom level: link it
    at the other levels, and unlink it again if it was removed meanwhile. *)
Definition sl_cas_link (fuel : nat) (sl : skiplist_t) (key new_item : Z) (n : nat) (preds nexts : array) : prog Z :=
  nl ⇐ load new_item LEVELS;
  _ ⇐ assert (nl <=? Z.of_nat MAX_LEVELS);
  linked ⇐ link_levels (n - 1) fuel sl key new_item n 1 preds nexts;
  if negb linked then Ret DOES_NOT_EXIST
  else
    top ⇐ load new_item (NEXT (n - 1));
    _ ⇐ (if HAS_MARK top
         then _ ⇐ find_preds fuel None None 0 sl key FORCE_UNLINK; Ret tt
         else Ret tt);
    Ret DOES_NOT_EXIST.

Fixpoint sl_cas_retry (tries fuel : nat) (sl : skiplist_t) (key expectation new_val : Z) : prog Z :=
  match tries with
  | O => Fail OutOfFuel
  | S tries =>
      _ ⇐ assert (0 <? s64 new_val);
      n ⇐ random_levels sl;
      r ⇐ find_preds fuel (Some ∅) (Some ∅) n sl key ASSIST_UNLINK;
      match r with
      | (old_item, preds, nexts) =>
          if negb (old_item =? 0) then
            ret_val ⇐ update_item fuel old_item expectation new_val;
            if negb (ret_val =? DOES_NOT_EXIST) then Ret ret_val
            else sl_cas_retry tries fuel sl key expectation new_val
          else if negb (expectation =? CAS_EXPECT_DOES_NOT_EXIST) && negb (expectation =? CAS_EXPECT_WHATEVER)
          then Ret DOES_NOT_EXIST
          else
            let preds := default ∅ preds in
            let nexts := default ∅ nexts in
            new_key ⇐ (match sl_key_type sl with None => Ret key | Some dt => clone dt key end);
            new_item ⇐ node_alloc n new_key new_val;
            _ ⇐ set_links new_item nexts 0 n;
            next ⇐ arr_get nexts 0;
            pred ⇐ arr_get preds 0;
            other ⇐ SYNC_CAS pred (NEXT 0) next new_item;
            if negb (other =? next) then
              _ ⇐ (match sl_key_type sl with Some _ => nbd_free new_key | None => Ret 0 end);
              _ ⇐ nbd_free new_item;
              sl_cas_retry tries fuel sl key expectation new_val
            else
              sl_cas_link fuel sl key new_item n preds nexts
      end
  end.

Definition sl_cas (fuel : nat) := sl_cas_retry fuel fuel.

(** The marking loop of [sl_remove] at one level: whether the mark is this
    thread's. *)
Fixpoint mark_level (fuel : nat) (item : Z) (level : nat) (old_next : Z) : prog bool :=
  match fuel with
  | O => Fail OutOfFuel
  | S fuel =>
      let next := old_next in
      old_next ⇐ SYNC_CAS item (NEXT level) next (MARK_NODE next);
      if HAS_MARK old_next then Ret false
      else if negb (next =? old_next) then mark_level fuel item level old_next
      else Ret true
  end.

(** [for (int level = item->num_levels - 1; level >= 0; --level)]: [false] when
    another thread marked the bottom level first. *)
Fixpoint mark_levels (k fuel : nat) (item : Z) : prog bool :=
  match k with
  | O => Ret true
  | S level =>
      old_next ⇐ load item (NEXT level);
      mine ⇐ mark_level fuel item level old_next;
      if negb mine && Nat.eqb level 0 then Ret false else mark_levels level fuel item
  end.

Definition sl_remove (fuel : nat) (sl : skiplist_t) (key : Z) : prog Z :=
  hw ⇐ load (sl_addr sl) HIGH_WATER;
  r ⇐ find_preds fuel (Some ∅) None (Z.to_nat hw) sl key ASSIST_UNLINK;
  match r with
  | (item, _, _) =>
      if item =? 0 then Ret DOES_NOT_EXIST
      else
        nl ⇐ load item LEVELS;
        mine ⇐ mark_levels (Z.to_nat nl) fuel item;
        if negb mine then Ret DOES_NOT_EXIST
        else
          val ⇐ SYNC_SWAP item VAL DOES_NOT_EXIST;
          _ ⇐ find_preds fuel None None 0 sl key FORCE_UNLINK;
          _ ⇐ (match sl_key_type sl with
               | Some _ => k ⇐ load item KEY; rcu_defer_free k
               | None => Ret 0
               end);
          _ ⇐ rcu_defer_free item;
          Ret val
  end.

(** [struct sl_iter] and its address *)
Record sl_iter_t := SLIter { sl_iter_addr : Z; sl_iter_node : Z }.

Definition sl_iter_begin (fuel : nat) (sl : skiplist_t) (key : Z) : prog sl_iter_t :=
  iter ⇐ malloc 1;
  if negb (key =? DOES_NOT_EXIST) then
    r ⇐ find_preds fuel None (Some ∅) 1 sl key DONT_UNLINK;
    match r with (_, _, succs) => next ⇐ arr_get (default ∅ succs) 0; Ret (SLIter iter next) end
  else
    next ⇐ load (sl_head sl) (NEXT 0);
    Ret (SLIter iter (GET_NODE next)).

(** [while (item != NULL && HAS_MARK(item->next[0]))] *)
Fixpoint sl_iter_skip (fuel : nat) (item : Z) : prog Z :=
  match fuel with
  | O => Fail OutOfFuel
  | S fuel =>
      if item =? 0 then Ret item
      else
        w ⇐ load item (NEXT 0);
        if HAS_MARK w then w ⇐ load item (NEXT 0); sl_iter_skip fuel (STRIP_MARK w)
        else Ret item
  end.

(** [sl_iter_next]: the iterator, the value returned and [*key_ptr] (0 when it is
    not written). *)
Definition sl_iter_next (fuel : nat) (iter : sl_iter_t) : prog (sl_iter_t * Z * Z) :=
  item ⇐ sl_iter_skip fuel (sl_iter_node iter);
  if item =? 0 then Ret (SLIter (sl_iter_addr iter) 0, DOES_NOT_EXIST, 0)
  else
    next ⇐ load item (NEXT 0);
    key ⇐ load item KEY;
    val ⇐ load item VAL;
    Ret (SLIter (sl_iter_addr iter) (STRIP_MARK next), val, key).

Definition sl_iter_free (iter : sl_iter_t) : prog Z := nbd_free (sl_iter_addr iter).

(** * Searching a list without marks *)

Section search.
Context `{Allocator} (base : Z).
Implicit Types (m : mem) (sl : skiplist_t) (L R A B C : list snode) (p q x : snode).

Lemma marked_clean fuel u l pred item next m :
  (0 < fuel)%nat -> HAS_MARK next = false ->
  run (find_preds_marked fuel u l pred item next) m = Done (Continue item next) m.
Proof. intros Hf Hn. destruct fuel as [|fuel]; [lia|]. cbn [find_preds_marked]. by rewrite Hn. Qed.

(** The walk moves on to the last node of the level that is below the key. *)
Lemma lf_walk_to fuel m sl key u l A p B C d :
  level_of (heap m) l (A ++ p :: B) C -> walk_nodes base sl key B C -> (l < s_lvl p)%nat ->
  (length B + 1 < fuel)%nat ->
  exists q d' fuel', (fuel <= fuel' + length B)%nat /\
    run (find_preds_walk fuel sl key u l (s_addr p) (succ l (B ++ C)) d) m =
    run (find_preds_walk fuel' sl key u l (s_addr q) (succ l C) d') m /\
    pred_at l (A ++ p :: B) q.
Proof.
  revert A p B d. induction fuel as [|fuel IH]; intros A p B d Hlev Hn Hp Hf; [lia|].
  destruct (at_level l B) as [|b Y] eqn:EB.
  { exists p, d, (S fuel). split; [lia|]. rewrite succ_app_nil by done. split; [done|].
    by apply pred_at_here. }
  apply at_level_first in EB as (B1 & B2 & -> & E1 & Hb & _).
  pose proof Hn as [H3 H4 H5 H6 H7 H8]. rewrite length_app in Hf. simpl in Hf.
  assert (Es : succ l ((B1 ++ b :: B2) ++ C) = s_addr b).
  { rewrite <- app_assoc, succ_app_nil by done. simpl. by apply succ_cons. }
  assert (E' : A ++ p :: B1 ++ b :: B2 = (A ++ p :: B1) ++ b :: B2) by (by rewrite <- app_assoc).
  rewrite !Forall_app, Forall_cons in *. destruct H3 as [(? & Hbp & HpB2) HpC], H4 as (? & Hbk & ?), H6 as [(? & ? & ?) ?].
  destruct (Hlev _ _ _ E' Hb) as (w & Hw & Hwk & Hwn).
  assert (Hsp : succ l (B2 ++ C) = 0 \/ node_ptr (succ l (B2 ++ C))) by (apply succ_ptr; by rewrite Forall_app).
  rewrite Es, E'. cbn [find_preds_walk]. rewrite (proj2 (Z.eqb_neq (s_addr b) 0)) by (destruct Hbp; lia).
  rewrite run_bind, (run_load _ _ _ _ Hw), Hwn, run_bind, marked_clean by (lia || by apply HAS_MARK_ptr).
  rewrite (proj2 (Z.eqb_neq (s_addr b) 0)) by (destruct Hbp; lia).
  rewrite run_bind, (run_load _ _ _ _ Hw), Hwk, run_bind, H8.
  unfold key_diff. rewrite run_ret, (window_diff base) by done.
  rewrite (proj2 (Z.ltb_ge 0 _)), (proj2 (Z.eqb_neq (s_key b - key) 0)) by lia. cbn [andb].
  destruct (IH (A ++ p :: B1) b B2 (s_key b - key)) as (q & d' & fuel' & Hf' & Er & Hq).
  - by rewrite <- E'.
  - rewrite (cons_middle b B1 B2), app_assoc in Hn. by eapply walk_nodes_suffix.
  - done.
  - lia.
  - exists q, d', fuel'. split; [rewrite length_app; simpl; lia|]. done.
Qed.

(** The walk stops at the first node that is not below the key, when that node
    is not marked (and, with [FORCE_UNLINK], is above the key). *)
Lemma lf_walk_stop fuel m sl key u l A p B C d :
  level_of (heap m) l (A ++ p :: B) C -> walk_nodes base sl key B C -> (l < s_lvl p)%nat ->
  skip (heap m) C \/ at_level l C = [] -> (length B + 2 < fuel)%nat ->
  (u = FORCE_UNLINK -> forall c Y, at_level l C = c :: Y -> s_key c <> key) ->
  exists q d', run (find_preds_walk fuel sl key u l (s_addr p) (succ l (B ++ C)) d) m =
      Done (Some (s_addr q, succ l C, d')) m /\ pred_at l (A ++ p :: B) q /\
    (forall c Y, at_level l C = c :: Y -> d' = s_key c - key).
Proof.
  intros Hlev Hn Hp HC Hf Hu.
  destruct (lf_walk_to fuel m sl key u l A p B C d Hlev Hn Hp) as (q & d' & fuel' & Hf' & -> & Hq); [lia|].
  exists q. destruct fuel' as [|fuel']; [lia|]. cbn [find_preds_walk].
  destruct (at_level l C) as [|c Y] eqn:EC.
  { unfold succ. rewrite EC. simpl. by exists d'. }
  destruct HC as [HC|]; [|done].
  exists (s_key c - key). apply at_level_first in EC as (C1 & C2 & -> & E1 & Hl & EY).
  destruct Hn as [H3 H4 H5 H6 H7 H8].
  rewrite !Forall_app, !Forall_cons in *. destruct H3 as (? & ? & Hcp & HpC2), H5 as (? & Hck & ?), H6 as (? & ? & Hcw & ?).
  assert (Es : succ l (C1 ++ c :: C2) = s_addr c) by (rewrite succ_app_nil by done; by apply succ_cons).
  pose proof (HC C1 c C2 eq_refl) as Hw.
  rewrite Es. rewrite (proj2 (Z.eqb_neq (s_addr c) 0)) by (destruct Hcp; lia).
  rewrite run_bind, (run_load _ _ _ _ Hw), words_next by done. unfold links. rewrite app_nil_r, run_bind.
  rewrite marked_clean; [|lia|apply HAS_MARK_ptr; by apply succ_ptr].
  rewrite (proj2 (Z.eqb_neq (s_addr c) 0)) by (destruct Hcp; lia).
  rewrite run_bind, (run_load _ _ _ _ Hw). simpl lookup. cbv iota. rewrite run_bind, H8.
  unfold key_diff. rewrite run_ret, (window_diff base) by done.
  assert (Hd : forall c0 Y0, c :: Y = c0 :: Y0 -> s_key c - key = s_key c0 - key) by (by intros ?? [= <- _]).
  destruct (Z.ltb_spec 0 (s_key c - key)); [done|].
  assert (Ez : s_key c - key = 0) by lia. rewrite (proj2 (Z.eqb_eq (s_key c - key) 0)) by done.
  rewrite bool_decide_false; [done|]. intros Eu. specialize (Hu Eu c Y eq_refl). lia.
Qed.

(** The whole descent on a list without marks *)
Lemma lf_levels_run k fuel preds succs (n : nat) m sl key u A p B C item d :
  skip (heap m) ((A ++ p :: B) ++ C) -> walk_nodes base sl key B C -> (k <= s_lvl p)%nat ->
  (length B + 2 < fuel)%nat -> Forall (fun y => (1 <= s_lvl y)%nat) C -> u <> FORCE_UNLINK ->
  exists item' d' preds' succs',
    run (find_preds_levels k fuel preds succs n sl key u (s_addr p) item d) m =
      Done (Some (item', d', preds', succs')) m /\
    preds_set k n (A ++ p :: B) preds preds' /\ succs_set k n C succs succs' /\
    match C with
    | [] => item = 0 -> item' = 0
    | c :: _ => if decide (k = 0)%nat then item' = item /\ d' = d
                else item' = s_addr c /\ d' = s_key c - key
    end.
Proof.
  revert A p B preds succs item d. induction k as [|k IH]; intros A p B preds succs item d Hsk Hn Hp Hf HC Hu.
  { exists item, d, preds, succs. split; [done|]. split_and!.
    - destruct preds; [|done]. split; [lia|done].
    - destruct succs; [|done]. split; [lia|done].
    - by destruct C. }
  pose proof (skip_level_of (heap m) k _ _ Hsk) as Hlev. pose proof (wn_ptr _ _ _ _ _ Hn) as Hptr.
  cbn [find_preds_levels]. destruct (Hlev A p B eq_refl ltac:(lia)) as (w & Hw & _ & Hwn).
  rewrite run_bind, (run_load _ _ _ _ Hw), Hwn.
  destruct ((succ k (B ++ C) =? DOES_NOT_EXIST) && (n <=? k)%nat) eqn:Econt.
  - apply andb_true_iff in Econt as [Ez%Z.eqb_eq En%Nat.leb_le]. apply (addr_or_zero k (B ++ C) Hptr) in Ez.
    destruct (IH A p B preds succs item d) as (item' & d' & preds' & succs' & -> & Hps & Hs & Hi); try done; [lia|].
    exists item', d', preds', succs'. split_and!; [done|..].
    + apply (preds_set_step k n _ p); [|lia]. rewrite (proj2 (Nat.ltb_ge k n)) by lia. done.
    + apply succs_set_step. rewrite (proj2 (Nat.ltb_ge k n)) by lia. done.
    + destruct C as [|c C]; [done|]. rewrite (decide_False (P := S k = 0%nat)) by done.
      destruct (decide (k = 0)%nat) as [->|]; [|done]. exfalso. rewrite at_level_app, at_level_cons, decide_True in Ez.
      * by destruct (at_level 0 B).
      * by apply Forall_cons in HC as [? _].
  - clear Econt. rewrite HAS_MARK_ptr by (by apply succ_ptr).
    destruct (lf_walk_stop fuel m sl key u k A p B C d Hlev Hn ltac:(lia)) as (q & d1 & Er & Hq & Hd); [|done|done|].
    { left. unfold skip in Hsk. by apply skip_with_app in Hsk as [_ ?]. }
    unfold GET_NODE. rewrite run_bind, Er. destruct (pred_at_after _ _ _ _ _ Hq ltac:(lia)) as (A' & K & R & E & Hlq & EB & _).
    rewrite E in *. rewrite EB in Hn, Hf. rewrite length_app in Hf. apply walk_nodes_suffix in Hn.
    destruct (IH A' q R (if Nat.ltb k n then <[k := s_addr q]> <$> preds else preds)
      (if Nat.ltb k n then <[k := succ k C]> <$> succs else succs) (succ k C) d1)
      as (item' & d' & preds' & succs' & -> & Hps & Hs & Hi); try done; [lia|lia|].
    exists item', d', preds', succs'. split_and!; [done|..].
    + by apply (preds_set_step k n _ q).
    + by apply succs_set_step.
    + destruct C as [|c C]; [intros _; by apply Hi|]. rewrite (decide_False (P := S k = 0%nat)) by done.
      destruct (decide (k = 0)%nat) as [->|]; [|done]. destruct Hi as [-> ->].
      apply Forall_cons in HC as [Hc1 _]. rewrite succ_cons by done. split; [done|].
      eapply Hd. rewrite at_level_cons, decide_True; done.
Qed.

Lemma rep_walk m sl hw L key :
  sl_rep base m sl hw L -> key_window base key ->
  skip (heap m) (([] ++ head_node sl :: below key L) ++ above key L) /\
  walk_nodes base sl key (below key L) (above key L).
Proof.
  intros Hrep Hk. pose proof (split_key base key L (sr_wf _ _ _ _ _ Hrep)) as E. split.
  - simpl. rewrite <- E. apply Hrep.
  - pose proof (sr_water _ _ _ _ _ Hrep). by destruct (rep_walk_ctx base m sl hw L key 0 Hrep Hk ltac:(lia)).
Qed.

Lemma lf_find_preds_run fuel preds succs (n : nat) m sl hw L key u :
  sl_rep base m sl hw L -> key_window base key -> (length L + 2 < fuel)%nat -> u <> FORCE_UNLINK ->
  exists preds' succs',
    run (find_preds fuel preds succs n sl key u) m = Done (found key (above key L), preds', succs') m /\
    preds_set hw n (head_node sl :: below key L) preds preds' /\
    succs_set hw n (above key L) succs succs'.
Proof.
  intros Hrep Hk Hf Hu. destruct (rep_walk _ _ _ _ _ Hrep Hk) as [Hsk Hn]. pose proof (below_length key L).
  pose proof (sr_water _ _ _ _ _ Hrep) as Hwat. unfold find_preds. destruct fuel as [|fuel]; [lia|].
  cbn [find_preds_retry]. rewrite run_bind, (rep_high_water _ _ _ _ _ Hrep), run_bind, Nat2Z.id.
  destruct (lf_levels_run hw (S fuel) preds succs n m sl key u [] (head_node sl) (below key L) (above key L) 0 0)
    as (item & d & preds' & succs' & Er & Hp & Hs & Hi); try done; [simpl; lia|lia|by eapply above_levels|].
  change (sl_head sl) with (s_addr (head_node sl)). rewrite Er, run_ret.
  exists preds', succs'. split_and!; [|done|done]. f_equal. f_equal. f_equal. unfold found.
  destruct (above key L) as [|c C]; [rewrite Hi by done; by destruct (d =? 0)|].
  rewrite decide_False in Hi by lia. destruct Hi as [-> ->].
  destruct (Z.eqb_spec (s_key c - key) 0), (Z.eqb_spec (s_key c) key); lia || done.
Qed.
End search.

(** * Refinement *)

Section refinement.
Context `{Allocator} (base : Z).
Implicit Types (m : mem) (sl : skiplist_t) (L R A B C : list snode) (p q : snode).

Lemma lf_sl_lookup_ok fuel m sl hw L key :
  sl_rep base m sl hw L -> key_window base key -> (length L + 2 < fuel)%nat ->
  run (sl_lookup fuel sl key) m = Done (lookup_spec (abs L) key) m.
Proof.
  intros Hrep Hk Hf. unfold sl_lookup. rewrite run_bind.
  destruct (lf_find_preds_run base fuel None None 0 m sl hw L key DONT_UNLINK Hrep Hk Hf ltac:(done)) as (? & ? & -> & _).
  unfold lookup_spec. rewrite (abs_lookup base) by apply Hrep.
  destruct (above key L) as [|c C] eqn:EC; [done|]. simpl. destruct (s_key c =? key); [|done].
  destruct (rep_found _ _ _ _ _ _ _ _ Hrep EC) as (Hw & [Hp _] & Hv).
  rewrite (proj2 (Z.eqb_neq (s_addr c) 0)) by lia. cbn [negb]. rewrite run_bind, (run_load _ _ _ _ Hw).
  simpl lookup. cbv iota. by rewrite (proj2 (Z.eqb_neq (s_val c) DOES_NOT_EXIST)) by (unfold DOES_NOT_EXIST; lia).
Qed.

(** [sl_lookup] of the lock-free skiplist returns the value of the key, or
    [DOES_NOT_EXIST], and leaves the memory as it was. *)
Theorem lf_sl_lookup_refines fuel m sl hw L key :
  sl_rep base m sl hw L -> key_window base key -> (length L + 2 < fuel)%nat ->
  run (sl_lookup fuel sl key) m = Done (lookup_spec (abs L) key) m.
Proof. exact (lf_sl_lookup_ok fuel m sl hw L key). Qed.

(** The bottom link of a node of an unmarked list *)
Lemma rep_next0 m sl hw L A n R :
  sl_rep base m sl hw L -> L = A ++ n :: R ->
  run (load (s_addr n) (NEXT 0)) m = Done (addr_or R) m /\
  HAS_MARK (addr_or R) = false /\ STRIP_MARK (addr_or R) = addr_or R /\ s_addr n <> 0.
Proof.
  intros Hrep E. destruct (rep_node _ _ _ _ _ _ _ _ Hrep E) as [Hw [Hp _]].
  pose proof (sr_levels _ _ _ _ _ Hrep) as Hlv. pose proof (sn_ptr _ _ (sr_wf _ _ _ _ _ Hrep)) as Hptr.
  rewrite E, Forall_app, Forall_cons in Hlv, Hptr. destruct Hlv as (_ & Hn & HR), Hptr as (_ & _ & HpR).
  assert (Es : succ 0 R = addr_or R).
  { destruct R as [|y R]; [done|]. apply succ_cons. apply Forall_cons in HR as [? _]. lia. }
  assert (Hz : addr_or R = 0 \/ node_ptr (addr_or R)) by (rewrite <- Es; by apply succ_ptr).
  rewrite (run_load _ _ _ _ Hw), words_next by lia. unfold links. rewrite app_nil_r, Es.
  split_and!; [done|by apply HAS_MARK_ptr|by apply STRIP_MARK_ptr|lia].
Qed.

Lemma lf_sl_count_loop_run fuel m sl hw L A R c :
  sl_rep base m sl hw L -> L = A ++ R -> (length R < fuel)%nat ->
  run (sl_count_loop fuel (addr_or R) (u64 c)) m = Done (u64 (c + Z.of_nat (length R))) m.
Proof.
  revert A R c. induction fuel as [|fuel IH]; intros A R c Hrep E Hf; [lia|].
  cbn [sl_count_loop]. destruct R as [|n R]; [by rewrite Z.add_0_r|]. simpl in Hf. simpl addr_or.
  destruct (rep_next0 _ _ _ _ _ _ _ Hrep E) as (Hld & Hm & Hst & Hnz).
  rewrite (proj2 (Z.eqb_neq (s_addr n) 0)) by done. rewrite run_bind, Hld, Hm. cbn [negb].
  rewrite run_bind, Hld, Hst, u64_add_l, (IH (A ++ [n]) R (c + 1)); [|done|by rewrite <- app_assoc|lia].
  do 2 f_equal. simpl. lia.
Qed.

(** [sl_count] of the lock-free skiplist is the number of keys. *)
Theorem lf_sl_count_refines fuel m sl hw L :
  sl_rep base m sl hw L -> (length L < fuel)%nat ->
  run (sl_count fuel sl) m = Done (u64 (Z.of_nat (size (abs L)))) m.
Proof.
  intros Hrep Hf. unfold sl_count. rewrite run_bind, (rep_first _ _ _ _ _ Hrep), (sl_size_abs base) by apply Hrep.
  exact (lf_sl_count_loop_run fuel m sl hw L [] L 0 Hrep eq_refl Hf).
Qed.

(** [sl_min_key] of the lock-free skiplist is the smallest key, or
    [DOES_NOT_EXIST] when there is none. *)
Theorem lf_sl_min_key_least fuel m sl hw L :
  sl_rep base m sl hw L -> (0 < fuel)%nat -> exists k, run (sl_min_key fuel sl) m = Done k m /\
    (abs L = ∅ -> k = DOES_NOT_EXIST) /\
    (abs L <> ∅ -> is_Some (abs L !! k) /\ forall k', is_Some (abs L !! k') -> k <= k').
Proof.
  intros Hrep Hf. unfold sl_min_key. rewrite run_bind, (rep_first _ _ _ _ _ Hrep).
  destruct fuel as [|fuel]; [lia|]. cbn [sl_min_key_loop]. destruct L as [|n L].
  { exists DOES_NOT_EXIST. by split_and!. }
  simpl addr_or. destruct (rep_next0 _ _ _ _ [] _ _ Hrep eq_refl) as (Hld & Hm & _ & Hnz). unfold GET_NODE.
  rewrite (proj2 (Z.eqb_neq (s_addr n) 0)) by done. rewrite run_bind, Hld, Hm. cbn [negb].
  destruct (rep_node _ _ _ _ _ [] _ _ Hrep eq_refl) as [Hw _]. rewrite (run_load _ _ _ _ Hw).
  exists (s_key n). split; [done|]. apply (abs_least base). apply Hrep.
Qed.

(** ** Update and insertion *)

Lemma wp_update fuel m item b old e v (Q : Z -> mem -> Prop) :
  (0 < fuel)%nat -> heap m !! item = Some b -> b !! VAL = Some old -> old <> DOES_NOT_EXIST ->
  Q old (if e =? CAS_EXPECT_DOES_NOT_EXIST then m else set_heap m (<[item := <[VAL := v]> b]> (heap m))) ->
  wp (update_item fuel item e v) m Q.
Proof.
  intros Hf Hb Hv Hold HQ. destruct fuel as [|fuel]; [lia|]. cbn [update_item].
  apply wp_bind. eapply wp_load; [done..|]. rewrite (proj2 (Z.eqb_neq old DOES_NOT_EXIST)) by done.
  destruct (e =? CAS_EXPECT_DOES_NOT_EXIST); [by apply wp_ret|].
  apply wp_bind. eapply wp_cas_succ; [done..|]. by rewrite Z.eqb_refl.
Qed.

(** A compare-and-swap on the link of the last node of [P] at level [l] *)
Lemma wp_link_cas m P n C l q (Q : Z -> mem -> Prop) :
  skip_with (links_upto n C l) (heap m) P -> skip (heap m) (n :: C) ->
  NoDup (s_addr <$> P ++ n :: C) -> (l < s_lvl n)%nat -> pred_at l P q ->
  (forall m', skip_with (links_upto n C (S l)) (heap m') P -> skip (heap m') (n :: C) ->
     (forall a, a ∉ s_addr <$> P -> heap m' !! a = heap m !! a) -> deferred m' = deferred m ->
     Q (succ l C) m') ->
  wp (SYNC_CAS (s_addr q) (NEXT l) (succ l C) (s_addr n)) m Q.
Proof.
  intros HP HC Hnd Hl Hq HQ. pose proof Hq as (A & R & EP & Hlq & ER). pose proof (HP _ _ _ EP) as Hw.
  eapply wp_cas_succ; [exact Hw| |].
  { rewrite words_next by done. unfold links_upto. rewrite decide_False by lia. by rewrite succ_app_nil. }
  rewrite fmap_app in Hnd. pose proof Hnd as (HndP & Hdis & _)%NoDup_app.
  assert (HqP : s_addr q ∈ s_addr <$> P).
  { rewrite EP, fmap_app. apply elem_of_app. right. left. }
  apply HQ; cbn [heap set_heap deferred]; [|..|done].
  - by eapply link_step.
  - apply skip_with_fresh; [by apply Hdis|done].
  - intros a Ha. apply lookup_insert_ne. by intros <-.
Qed.

(** The node [n] is linked in at the levels from [l] on. *)
Lemma wp_link_levels k fuel l m sl key (num_levels : nat) preds nexts P n C :
  skip_with (links_upto n C l) (heap m) P -> skip (heap m) (n :: C) ->
  NoDup (s_addr <$> P ++ n :: C) -> (l + k <= s_lvl n)%nat -> (0 < fuel)%nat ->
  (forall j, (l <= j < l + k)%nat -> exists q, pred_at j P q /\ preds !! j = Some (s_addr q)) ->
  (forall j, (l <= j < l + k)%nat -> nexts !! j = Some (succ j C)) ->
  wp (link_levels k fuel sl key (s_addr n) num_levels l preds nexts) m (fun r m' => r = true /\
    skip_with (links_upto n C (l + k)) (heap m') P /\ skip (heap m') (n :: C) /\
    (forall a, a ∉ s_addr <$> P -> heap m' !! a = heap m !! a) /\ deferred m' = deferred m).
Proof.
  revert l m. induction k as [|k IH]; intros l m HP HC Hnd Hk Hf Hq Hs; cbn [link_levels].
  { apply wp_ret. by rewrite Nat.add_0_r. }
  destruct (Hq l ltac:(lia)) as (q & Hpq & Eq). destruct fuel as [|fuel]; [lia|]. cbn [link_level].
  unfold arr_get. rewrite Eq, (Hs l) by lia. apply wp_bind, wp_bind, wp_ret, wp_bind, wp_ret, wp_bind.
  pose proof (HC [] n C eq_refl) as Hw. eapply wp_load; [exact Hw|rewrite words_next by lia; done|].
  unfold links. rewrite app_nil_r, Z.eqb_refl. apply wp_bind, wp_ret, wp_bind.
  apply (wp_link_cas m P); try done; [lia|]. intros m1 HP1 HC1 Ho1 Hd1. rewrite Z.eqb_refl. apply wp_ret.
  eapply wp_mono.
  { apply (IH (S l)); try done; [lia|..].
    - intros j Hj. apply Hq. lia.
    - intros j Hj. apply Hs. lia. }
  intros r m' (-> & H1 & H2 & H3 & H4). replace (l + S k)%nat with (S l + k)%nat by lia.
  split_and!; try done; [|congruence]. intros a Ha. by rewrite H3, Ho1.
Qed.

Lemma wp_sl_cas_link fuel m sl hw key (n : nat) preds nexts P nd C :
  skip_with (links_upto nd C 1) (heap m) P -> skip (heap m) (nd :: C) ->
  NoDup (s_addr <$> P ++ nd :: C) -> s_lvl nd = n -> (1 <= n <= hw)%nat -> (hw <= MAX_LEVELS)%nat ->
  (0 < fuel)%nat -> Forall (fun y => node_ptr (s_addr y)) C ->
  (forall j, (j < n)%nat -> exists q, pred_at j P q /\ preds !! j = Some (s_addr q)) ->
  (forall j, (j < n)%nat -> nexts !! j = Some (succ j C)) ->
  wp (sl_cas_link fuel sl key (s_addr nd) n preds nexts) m (fun r m' => r = DOES_NOT_EXIST /\
    skip_with (links (nd :: C)) (heap m') P /\ skip (heap m') (nd :: C) /\
    (forall a, a ∉ s_addr <$> P -> heap m' !! a = heap m !! a) /\ deferred m' = deferred m).
Proof.
  intros HP HC Hnd Hlv Hn Hhw Hf Hptr Hq Hs. unfold sl_cas_link. apply wp_bind.
  eapply wp_load; [exact (HC [] nd C eq_refl)|done|]. apply wp_bind, wp_assert; [apply Z.leb_le; lia|].
  apply wp_bind. eapply wp_mono.
  { apply (wp_link_levels (n - 1) fuel 1 m sl key n preds nexts P nd C); try done; [lia|..].
    - intros j Hj. apply Hq. lia.
    - intros j Hj. apply Hs. lia. }
  intros r m1 (-> & HP1 & HC1 & Ho1 & Hd1). cbn [negb]. apply wp_bind.
  eapply wp_load; [exact (HC1 [] nd C eq_refl)|apply words_next; lia|].
  unfold links. rewrite app_nil_r, HAS_MARK_ptr by (by apply succ_ptr). wp_op. wp_op. split_and!; try done.
  eapply links_upto_all; [|exact HP1]. lia.
Qed.

(** A new node goes in between the nodes below the key and the nodes above. *)
Lemma lf_wp_insert tries fuel m sl hw L key e v (n : nat) preds nexts :
  sl_rep base m sl hw L -> key_window base key -> 0 < v < 2 ^ 63 -> (1 <= n <= hw)%nat -> (0 < fuel)%nat ->
  can_alloc m (3 + n) -> hit key (above key L) = false ->
  preds_set hw n (head_node sl :: below key L) (Some ∅) (Some preds) ->
  succs_set hw n (above key L) (Some ∅) (Some nexts) ->
  wp (new_item ⇐ node_alloc n key v;
      _ ⇐ set_links new_item nexts 0 n;
      next ⇐ arr_get nexts 0;
      pred ⇐ arr_get preds 0;
      other ⇐ SYNC_CAS pred (NEXT 0) next new_item;
      if negb (other =? next) then
        _ ⇐ Ret 0;
        _ ⇐ nbd_free new_item;
        sl_cas_retry tries fuel sl key e v
      else sl_cas_link fuel sl key new_item n preds nexts) m (fun r m' => r = DOES_NOT_EXIST /\ deferred m' = deferred m /\
    exists L', sl_rep base m' sl hw L' /\ abs L' = <[key := v]> (abs L)).
Proof.
  intros Hrep Hk Hv Hn Hf Hc Hhit [Hp _] [Hs _]. pose proof (sr_water _ _ _ _ _ Hrep) as Hwat.
  pose proof (split_key base key L (sr_wf _ _ _ _ _ Hrep)) as EL.
  set (B := below key L) in *. set (C := above key L) in *.
  assert (HB : forall x, x ∈ B -> s_key x < key) by (intros x Hx; by apply (below_keys key L)).
  assert (HC : forall x, x ∈ C -> key < s_key x).
  { intros x Hx. by apply (above_strict base key L); [apply Hrep|..]. }
  rewrite EL in Hrep. unfold node_alloc. apply wp_bind.
  apply wp_bind, wp_assert. { apply andb_true_iff. split; apply Nat.leb_le; lia. }
  apply wp_node_init; [done|]. intros a Hfr Hptr. set (nd := SNode a key v n).
  apply wp_bind. eapply wp_mono.
  { apply (wp_set_links n 0 _ nexts a nd (fun _ => 0) (fun l => succ l C)); [apply lookup_insert_eq|done|].
    intros j Hj. apply Hs; lia. }
  intros _ m2 (f' & -> & Hlk & _). cbn [heap set_heap]. rewrite insert_insert_eq.
  destruct (rep_new_node base m sl hw B C nd f' (<[a := words nd f']> (heap m)) Hrep Hfr)
    as (HP & HnC & Hnd & Esl & Hsl); [intros l Hl; apply Hlk; simpl in Hl; lia|done|].
  destruct (Hp 0%nat ltac:(lia) ltac:(lia)) as (q & Hq & Eq).
  unfold arr_get. rewrite (Hs 0%nat), Eq by lia. apply wp_bind, wp_ret, wp_bind, wp_ret, wp_bind.
  apply (wp_link_cas _ (head_node sl :: B) nd C 0 q); cbn [heap set_heap]; try done; [simpl; lia|].
  intros m3 HP3 HC3 Ho3 Hd3. rewrite Z.eqb_refl. cbn [negb]. eapply wp_mono.
  { apply (wp_sl_cas_link fuel m3 sl hw key n preds nexts (head_node sl :: B) nd C); try done; [lia|..].
    - pose proof (sn_ptr _ _ (sr_wf _ _ _ _ _ Hrep)) as Hps. by apply Forall_app in Hps as [_ ?].
    - intros j Hj. apply Hp; lia.
    - intros j Hj. apply Hs; lia. }
  intros r m' (-> & HP4 & HC4 & Ho4 & Hd4). split_and!; [done|by rewrite Hd4, Hd3|].
  exists (B ++ nd :: C). split.
  - eapply (sl_rep_insert base m); try done. by rewrite Ho4, Ho3.
  - unfold nd. rewrite (abs_insert base) by (done || apply Hrep). by rewrite <- EL.
Qed.

Lemma lf_sl_cas_ok fuel m sl hw L key e v :
  sl_rep base m sl hw L -> key_window base key -> (length L + 2 < fuel)%nat ->
  0 < v < 2 ^ 63 -> rand_ok m -> (forall k, (k <= MAX_LEVELS)%nat -> can_alloc m (3 + k)) ->
  exists m' hw' L', run (sl_cas fuel sl key e v) m = Done (loose_cas_spec (abs L) key e v).1 m' /\
    sl_rep base m' sl hw' L' /\ abs L' = (loose_cas_spec (abs L) key e v).2 /\ deferred m' = deferred m.
Proof.
  intros Hrep Hk Hf Hv Hr Hc.
  enough (wp (sl_cas fuel sl key e v) m (fun r m' => r = (loose_cas_spec (abs L) key e v).1 /\
    deferred m' = deferred m /\ exists hw' L', sl_rep base m' sl hw' L' /\ abs L' = (loose_cas_spec (abs L) key e v).2)) as Hwp.
  { apply wp_run in Hwp as (? & m' & E & -> & ? & hw' & L' & ? & ?). eauto 10. }
  unfold sl_cas. destruct fuel as [|fuel]; [lia|]. cbn [sl_cas_retry]. wp_op. { apply Z.ltb_lt. rewrite s64_small; lia. }
  apply wp_bind. apply (wp_random_levels base m sl hw L); [done..|].
  intros n hw' m1 Hrep1 Hn _ Hdom Hd. apply wp_bind.
  destruct (lf_find_preds_run base (S fuel) (Some ∅) (Some ∅) n m1 sl hw' L key ASSIST_UNLINK Hrep1 Hk Hf ltac:(done))
    as (preds & nexts & Er & Hp & Hs).
  eapply wp_done; [exact Er|]. unfold loose_cas_spec. rewrite (abs_lookup base) by apply Hrep.
  pose proof (split_key base key L (sr_wf _ _ _ _ _ Hrep)) as EL.
  destruct (hit key (above key L)) eqn:Hhit.
  - destruct (above key L) as [|c C] eqn:EC; [done|]. simpl in Hhit. simpl found. rewrite Hhit.
    apply Z.eqb_eq in Hhit. destruct (rep_found _ _ _ _ _ _ _ _ Hrep1 EC) as (Hw & [Hptr _] & Hcv).
    rewrite (proj2 (Z.eqb_neq (s_addr c) 0)) by lia. cbn [negb]. apply wp_bind.
    eapply wp_update; [lia|exact Hw|done|unfold DOES_NOT_EXIST; lia|].
    rewrite (proj2 (Z.eqb_neq (s_val c) DOES_NOT_EXIST)) by (unfold DOES_NOT_EXIST; lia). cbn [negb fst snd].
    apply wp_ret. destruct (e =? CAS_EXPECT_DOES_NOT_EXIST); split_and!; try done; [by eauto|].
    rewrite EL in Hrep1. exists hw', (below key L ++ SNode (s_addr c) (s_key c) v (s_lvl c) :: C). split.
    + by apply rep_set_val.
    + rewrite (abs_update base) by apply Hrep1. rewrite Hhit. do 2 f_equal. symmetry. exact EL.
  - rewrite (found_miss key (above key L)), (miss_lookup key (above key L)) by done. cbn [Z.eqb negb fst snd].
    rewrite <- negb_orb.
    destruct ((e =? CAS_EXPECT_DOES_NOT_EXIST) || (e =? CAS_EXPECT_WHATEVER)); cbn [negb];
      [|apply wp_ret; split_and!; eauto].
    rewrite (sr_int _ _ _ _ _ Hrep). apply wp_bind, wp_ret.
    destruct preds as [preds|]; [|done]. destruct nexts as [nexts|]; [|done].
    change (default ∅ (Some preds)) with preds. change (default ∅ (Some nexts)) with nexts.
    eapply wp_mono.
    { apply (lf_wp_insert fuel (S fuel) m1 sl hw' L key e v n preds nexts); try done; [lia|].
      intros h Eh. apply (Hc n); [pose proof (sr_water _ _ _ _ _ Hrep1); lia|]. congruence. }
    intros r m' (-> & Hd' & L' & Hrep' & Habs). split_and!; [done|congruence|]. eauto.
Qed.

(** C9: [sl_cas] of the lock-free skiplist, run by itself, is the loose
    compare-and-swap of the map: it returns the previous value; it stores the new
    one when the key is present and the expectation is not "does not exist", or
    when it is absent and the expectation is "does not exist" or "whatever". The
    skiplist stays well formed at every level and nothing is freed. *)
Theorem lf_sl_cas_refines fuel m sl hw L key e v :
  sl_rep base m sl hw L -> key_window base key -> (length L + 2 < fuel)%nat ->
  0 < v < 2 ^ 63 -> rand_ok m -> (forall k, (k <= MAX_LEVELS)%nat -> can_alloc m (3 + k)) ->
  exists m' hw' L', run (sl_cas fuel sl key e v) m = Done (loose_cas_spec (abs L) key e v).1 m' /\
    sl_rep base m' sl hw' L' /\ abs L' = (loose_cas_spec (abs L) key e v).2 /\ deferred m' = deferred m.
Proof. exact (lf_sl_cas_ok fuel m sl hw L key e v). Qed.

(** ** Removal *)

(** Marking the links of a node, from the top level down *)
Lemma wp_mark_levels k fuel m x C f :
  heap m !! s_addr x = Some (words x f) -> (k <= s_lvl x)%nat -> (0 < fuel)%nat ->
  (forall l, (l < k)%nat -> f l = succ l C) -> Forall (fun y => node_ptr (s_addr y)) C ->
  wp (mark_levels k fuel (s_addr x)) m (fun r m' => r = true /\ exists f',
    m' = set_heap m (<[s_addr x := words x f']> (heap m)) /\
    (forall l, (l < k)%nat -> f' l = link (succ l C) true) /\ (forall l, (k <= l)%nat -> f' l = f l)).
Proof.
  revert m f. induction k as [|k IH]; intros m f Hx Hk Hf Hl HC; cbn [mark_levels].
  { apply wp_ret. split; [done|]. exists f. rewrite insert_id, set_heap_same by done. split_and!; [done|lia|done]. }
  apply wp_bind. eapply wp_load; [exact Hx|by apply words_next|]. apply wp_bind.
  destruct fuel as [|fuel]; [lia|]. cbn [mark_level]. apply wp_bind.
  eapply wp_cas_succ; [exact Hx|by apply words_next|]. rewrite words_insert by done.
  pose proof (succ_ptr k C HC) as Hp. rewrite (Hl k), HAS_MARK_ptr, Z.eqb_refl by (done || lia). cbn [negb andb].
  apply wp_ret. cbn [negb andb]. eapply wp_mono.
  { eapply (IH (set_heap m _)); cbn [heap set_heap]; [apply lookup_insert_eq|lia|done| |done].
    intros l Hlk. simpl. rewrite decide_False by lia. apply Hl. lia. }
  intros r m' (-> & f' & -> & H1 & H2). split; [done|]. exists f'. cbn [heap set_heap]. rewrite insert_insert_eq.
  split_and!; [done|..].
  - intros l Hlk. destruct (decide (l = k)) as [->|]; [|apply H1; lia]. rewrite H2 by lia.
    rewrite decide_True by done. by apply MARK_NODE_ptr.
  - intros l Hlk. rewrite H2 by lia. by rewrite decide_False by lia.
Qed.

(** The memory while the marked node [x] is being unlinked: the nodes [P] before
    it still link it at the levels below [k]. *)
Record removing (m : mem) (P : list snode) (x : snode) (C : list snode) (k : nat) : Prop := {
  rm_links : skip_with (links_upto x C k) (heap m) P;
  rm_item : exists b, heap m !! s_addr x = Some b /\
    forall l, (l < s_lvl x)%nat -> b !! NEXT l = Some (link (succ l C) true);
  rm_rest : skip (heap m) C;
  rm_nodup : NoDup (s_addr <$> P ++ x :: C);
}.

Lemma removing_skip m P x C k : removing m P x C (S k) -> (s_lvl x <= k)%nat -> removing m P x C k.
Proof. intros [H1 H2 H3 H4] Hx. split; [by apply unlink_above|done..]. Qed.

(** The compare-and-swap that takes the node out of one level *)
Lemma removing_cas m P x C k q :
  removing m P x C (S k) -> pred_at k P q -> (k < s_lvl x)%nat ->
  exists m', run (SYNC_CAS (s_addr q) (NEXT k) (s_addr x) (succ k C)) m = Done (s_addr x) m' /\
    removing m' P x C k /\
    (forall a, a ∉ s_addr <$> P -> heap m' !! a = heap m !! a) /\ deferred m' = deferred m.
Proof.
  intros [H1 H2 H3 H4] Hq Hx. pose proof Hq as (A & R & EP & Hlq & ER). pose proof (H1 _ _ _ EP) as Hw.
  assert (Hqa : s_addr q ∈ s_addr <$> P) by (rewrite EP, fmap_app; apply elem_of_app; right; left).
  pose proof H4 as Hnd. rewrite fmap_app in Hnd. apply NoDup_app in Hnd as (HndP & Hdis & _).
  assert (Hv : words q (links_upto x C (S k) R) !! NEXT k = Some (s_addr x)).
  { rewrite words_next by done. unfold links_upto. rewrite decide_True by lia.
    by rewrite succ_app_nil, succ_cons. }
  unfold SYNC_CAS. rewrite run_act. cbn [handle]. rewrite Hw, Hv, Z.eqb_refl. cbn [heap set_heap].
  rewrite run_ret. eexists. split; [done|]. cbn [heap set_heap deferred]. split; [split|split].
  - by eapply unlink_step.
  - destruct H2 as (b & Hb & Hbl). exists b. cbn [heap set_heap]. rewrite lookup_insert_ne; [done|].
    intros E. apply (Hdis _ Hqa). rewrite E. left.
  - apply skip_with_fresh; [|done]. intros Hin. apply (Hdis _ Hqa). by right.
  - done.
  - intros a Ha. apply lookup_insert_ne. by intros <-.
  - done.
Qed.

(** The first node of a level, when there is one *)
Lemma level_first m l C : skip (heap m) C -> Forall (fun y => node_ptr (s_addr y)) C ->
  (succ l C = 0 /\ at_level l C = []) \/
  exists c R, c ∈ C /\ succ l C = s_addr c /\ s_addr c <> 0 /\
    run (load (s_addr c) (NEXT l)) m = Done (succ l R) m /\ HAS_MARK (succ l R) = false /\
    run (load (s_addr c) KEY) m = Done (s_key c) m.
Proof.
  intros HC Hp. destruct (at_level l C) as [|c Y] eqn:E; [left; unfold succ; by rewrite E|right].
  apply at_level_first in E as (C1 & C2 & -> & E1 & Hl & _). exists c, C2.
  rewrite Forall_app, Forall_cons in Hp. destruct Hp as (_ & Hc & Hp2).
  pose proof (HC _ _ _ eq_refl) as Hw. rewrite !(run_load _ _ _ _ Hw), words_next by done.
  unfold links. rewrite app_nil_r. split_and!; [set_solver| |destruct Hc; lia|done| |done].
  - rewrite succ_app_nil by done. by apply succ_cons.
  - apply HAS_MARK_ptr. by apply succ_ptr.
Qed.

(** One level at which [x] is linked: the walk finds it and unlinks it. *)
Lemma lf_walk_unlink fuel m sl key k A p B x C d :
  removing m (A ++ p :: B) x C (S k) -> walk_nodes base sl key B (x :: C) -> (k < s_lvl p)%nat ->
  (length B + 3 < fuel)%nat -> (k < s_lvl x)%nat -> (forall c, c ∈ C -> key < s_key c) ->
  exists q d' m', run (find_preds_walk fuel sl key FORCE_UNLINK k (s_addr p) (succ k (B ++ x :: C)) d) m =
      Done (Some (s_addr q, succ k C, d')) m' /\
    pred_at k (A ++ p :: B) q /\ removing m' (A ++ p :: B) x C k /\
    (forall a, a ∉ s_addr <$> A ++ p :: B -> heap m' !! a = heap m !! a) /\ deferred m' = deferred m.
Proof.
  intros Hu Hn Hp Hf Hx HC.
  pose proof (upto_level_of _ k _ _ _ _ (rm_links _ _ _ _ _ Hu) ltac:(lia)) as Hlev.
  destruct (lf_walk_to base fuel m sl key FORCE_UNLINK k A p B (x :: C) d Hlev Hn Hp) as (q & d' & fuel' & Hf' & -> & Hq); [lia|].
  destruct fuel' as [|[|[|fuel']]]; [lia..|]. cbn [find_preds_walk]. rewrite (succ_cons k x C) by done.
  destruct Hn as [Hptr _ _ Hwin Hkw Hint]. rewrite !Forall_app, !Forall_cons in *.
  destruct Hptr as (_ & [Hx0 _] & HpC), Hwin as (_ & _ & HwC). rewrite Forall_forall in HwC.
  pose proof (succ_ptr k C HpC) as Hsp.
  rewrite (proj2 (Z.eqb_neq (s_addr x) 0)) by lia.
  destruct (rm_item _ _ _ _ _ Hu) as (b & Hb & Hbl). rewrite run_bind, (run_load _ _ _ _ Hb), Hbl by done.
  rewrite run_bind. cbn [find_preds_marked]. rewrite HAS_MARK_link, STRIP_MARK_link by done. cbn [negb].
  rewrite decide_False by done. rewrite run_bind.
  destruct (removing_cas m _ x C k q Hu Hq Hx) as (m1 & -> & Hu1 & Ho1 & Hd1).
  rewrite Z.eqb_refl. cbn [negb andb]. rewrite run_bind. exists q.
  destruct (level_first m1 k C (rm_rest _ _ _ _ _ Hu1) HpC) as [[E0 _]|(c & R & Hc & Es & Hc0 & Hl1 & Hm & Hl2)].
  - rewrite E0. cbn [Z.eqb negb]. rewrite run_ret.
    change (HAS_MARK DOES_NOT_EXIST) with false. cbn [negb]. rewrite run_ret. cbn [Z.eqb]. rewrite run_ret. by exists d', m1.
  - rewrite Es, (proj2 (Z.eqb_neq (s_addr c) 0)) by done. cbn [negb]. rewrite Hl1, Hm. cbn [negb]. rewrite run_ret.
    rewrite (proj2 (Z.eqb_neq (s_addr c) 0)) by done. rewrite run_bind, Hl2, run_bind, Hint. unfold key_diff.
    rewrite run_ret, (window_diff base) by auto. specialize (HC c Hc).
    rewrite (proj2 (Z.ltb_lt 0 _)) by lia. rewrite run_ret. by exists (s_key c - key), m1.
Qed.

Lemma lf_levels_unlink k fuel m sl key A p B x C item d :
  removing m (A ++ p :: B) x C k -> walk_nodes base sl key B (x :: C) -> (k <= s_lvl p)%nat ->
  (length B + 3 < fuel)%nat -> (forall c, c ∈ C -> key < s_key c) ->
  exists r m', run (find_preds_levels k fuel None None 0 sl key FORCE_UNLINK (s_addr p) item d) m = Done (Some r) m' /\
    removing m' (A ++ p :: B) x C 0 /\
    (forall a, a ∉ s_addr <$> A ++ p :: B -> heap m' !! a = heap m !! a) /\ deferred m' = deferred m.
Proof.
  revert m A p B item d. induction k as [|k IH]; intros m A p B item d Hu Hn Hp Hf HC.
  { do 2 eexists. split; [done|]. done. }
  cbn [find_preds_levels]. pose proof (upto_level_of _ k _ _ _ _ (rm_links _ _ _ _ _ Hu) ltac:(lia)) as Hlev.
  destruct (Hlev A p B eq_refl ltac:(lia)) as (w & Hw & _ & Hwn).
  rewrite run_bind, (run_load _ _ _ _ Hw), Hwn. change (Nat.leb 0 k) with true. rewrite andb_true_r.
  pose proof (wn_ptr _ _ _ _ _ Hn) as Hptr. rewrite HAS_MARK_ptr by (by apply succ_ptr).
  destruct (Z.eqb_spec (succ k (B ++ x :: C)) DOES_NOT_EXIST) as [Ez|_].
  { apply (addr_or_zero k (B ++ x :: C) Hptr) in Ez.
    apply IH; try done; [|lia]. apply removing_skip; [done|]. rewrite at_level_app, at_level_cons in Ez.
    destruct (decide (k < s_lvl x)%nat); [by destruct (at_level k B)|lia]. }
  unfold GET_NODE. destruct (decide (k < s_lvl x)%nat) as [Hlx|Hlx].
  - destruct (lf_walk_unlink fuel m sl key k A p B x C d Hu Hn ltac:(lia) Hf Hlx HC)
      as (q & d1 & m1 & Er & Hq & Hu1 & Ho & Hd).
    rewrite run_bind, Er. destruct (pred_at_after _ _ _ _ _ Hq ltac:(lia)) as (A' & K & R & E & Hlq & EB & _).
    change (Nat.ltb k 0) with false. cbv iota. rewrite E in *. rewrite EB in Hn, Hf. rewrite length_app in Hf.
    destruct (IH m1 A' q R (succ k C) d1 Hu1 (walk_nodes_suffix _ _ _ _ _ _ Hn) ltac:(lia) ltac:(lia) HC)
      as (r & m' & Er' & Hu' & Ho' & Hd').
    exists r, m'. split; [done|]. split; [done|]. split; [|congruence]. intros a Ha. by rewrite Ho', Ho.
  - assert (Es : forall X, succ k (X ++ x :: C) = succ k (X ++ C)).
    { intros X. unfold succ. by rewrite !at_level_app, at_level_cons, decide_False by done. }
    assert (Hlev' : level_of (heap m) k (A ++ p :: B) C).
    { intros A' p' R' E' Hl'. destruct (Hlev A' p' R' E' Hl') as (b & Hb & Hbk & Hbn). exists b. by rewrite <- Es. }
    assert (Hn' : walk_nodes base sl key B C).
    { destruct Hn as [N1 N2 N3 N4 N5 N6]. split; try done; rewrite ?Forall_app, ?Forall_cons in *; tauto. }
    rewrite Es. destruct (lf_walk_stop base fuel m sl key FORCE_UNLINK k A p B C d Hlev' Hn' ltac:(lia)) as (q & d1 & Er & Hq & _).
    { left. apply Hu. } { lia. }
    { intros _ c Y Ec. apply at_level_first in Ec as (C1 & C2 & -> & _). specialize (HC c). set_solver by lia. }
    rewrite run_bind, Er. destruct (pred_at_after _ _ _ _ _ Hq ltac:(lia)) as (A' & K & R & E & Hlq & EB & _).
    change (Nat.ltb k 0) with false. cbv iota. apply removing_skip in Hu; [|lia]. rewrite E in *.
    rewrite EB in Hn, Hf. rewrite length_app in Hf.
    apply IH; try done; [by eapply walk_nodes_suffix|lia..].
Qed.

(** The search that follows the marking takes the node out of every level. *)
Lemma lf_find_preds_unlink fuel m sl hw B x C b :
  sl_rep base m sl hw (B ++ x :: C) -> (forall y, y ∈ B -> s_key y < s_key x) ->
  (forall l, (l < s_lvl x)%nat -> b !! NEXT l = Some (link (succ l C) true)) ->
  (length B + 3 < fuel)%nat ->
  exists r m', run (find_preds fuel None None 0 sl (s_key x) FORCE_UNLINK)
      (set_heap m (<[s_addr x := b]> (heap m))) = Done r m' /\
    skip_with (links C) (heap m') (head_node sl :: B) /\ skip (heap m') C /\
    heap m' !! s_addr x = Some b /\ heap m' !! sl_addr sl = heap m !! sl_addr sl /\
    (forall a, is_Some (heap m' !! a) <-> is_Some (heap m !! a)) /\ deferred m' = deferred m.
Proof.
  intros Hrep HB Hb Hf. pose proof Hrep as [H1 H2 H3 H4 H5 H6 H7 H8]. pose proof H5 as [W1 W2 W3 W4].
  apply sl_nodes_app in H5 as (_ & (_ & _ & HxC)%sl_nodes_cons & _).
  assert (Hx : heap m !! s_addr x = Some (words x (links [] C))) by (by apply (rep_node base m sl hw (B ++ x :: C) B x C)).
  change (head_node sl :: B ++ x :: C) with ((head_node sl :: B) ++ [x] ++ C) in H1, H3.
  unfold skip in H1. rewrite !skip_with_app in H1. destruct H1 as (HP & _ & HC).
  apply NoDup_cons in H3 as [Hsl Hnd]. pose proof Hnd as Hnd2.
  rewrite fmap_app in Hnd2, Hsl. apply NoDup_app in Hnd2 as (_ & Hdis & [HxnC _]%NoDup_cons).
  apply not_elem_of_app in Hsl as [HslB [Hslx _]%not_elem_of_cons].
  assert (HxB : s_addr x ∉ s_addr <$> head_node sl :: B) by (intros Hin; apply (Hdis _ Hin); left).
  assert (Hlx : (s_lvl x <= hw)%nat) by (rewrite Forall_app, Forall_cons in H7; lia).
  set (m1 := set_heap m (<[s_addr x := b]> (heap m))).
  destruct (lf_levels_unlink hw fuel m1 sl (s_key x) [] (head_node sl) B x C 0 0) as (r & m' & Er & Hu & Ho & Hd); try done.
  - split; unfold m1; cbn [heap set_heap].
    + apply links_upto_top; [done|]. apply skip_with_fresh; [done|].
      eapply skip_with_ext; [|exact HP]. intros. unfold links. by rewrite app_nil_r.
    + exists b. by rewrite lookup_insert_eq.
    + by apply skip_with_fresh.
    + done.
  - split; try done.
    + by apply Forall_forall.
    + apply Forall_cons. split; [done|]. apply Forall_forall. intros y ?%HxC. lia.
    + rewrite Forall_app, Forall_cons in W3. tauto.
  - simpl. lia.
  - simpl in Ho. assert (Esl : heap m1 !! sl_addr sl = heap m !! sl_addr sl) by (by apply lookup_insert_ne).
    unfold find_preds. destruct fuel as [|fuel]; [lia|]. cbn [find_preds_retry]. destruct H2 as [kt Hkt].
    rewrite run_bind, (run_load _ _ _ [sl_head sl; kt; Z.of_nat hw]) by (by rewrite Esl).
    simpl lookup. cbv iota. rewrite run_bind, Nat2Z.id. change (sl_head sl) with (s_addr (head_node sl)). rewrite Er.
    destruct r as [[[item d] ps] ss]. rewrite run_ret. do 2 eexists. split; [done|]. destruct Hu as [Hl Hr HuC _].
    split_and!; try done.
    + rewrite Ho by done. apply lookup_insert_eq.
    + by rewrite Ho.
    + intros a. destruct (decide (a ∈ s_addr <$> head_node sl :: B)) as [Ha|Ha].
      * apply list_elem_of_fmap in Ha as (y & -> & (A & R & Ey)%list_elem_of_split). simpl in Hl.
        by rewrite (Hl _ _ _ Ey), (HP _ _ _ Ey).
      * rewrite Ho by done. cbn [heap set_heap]. rewrite lookup_insert. case_decide as Ea; [|done].
        subst a. by rewrite Hx.
Qed.

Lemma lf_sl_remove_ok fuel m sl hw L key :
  sl_rep base m sl hw L -> key_window base key -> (length L + 3 < fuel)%nat ->
  exists m' L', run (sl_remove fuel sl key) m = Done (remove_spec (abs L) key).1 m' /\
    sl_rep base m' sl hw L' /\ abs L' = (remove_spec (abs L) key).2 /\
    (forall a, is_Some (heap m' !! a) <-> is_Some (heap m !! a)) /\
    (abs L !! key = None -> m' = m) /\
    (is_Some (abs L !! key) -> deferred m' = found key (above key L) :: deferred m /\
       run (load (found key (above key L)) VAL) m' = Done DOES_NOT_EXIST m').
Proof.
  intros Hrep Hk Hf. unfold sl_remove. rewrite run_bind, (rep_high_water _ _ _ _ _ Hrep), Nat2Z.id, run_bind.
  destruct (lf_find_preds_run base fuel (Some ∅) None hw m sl hw L key ASSIST_UNLINK Hrep Hk ltac:(lia) ltac:(done))
    as (preds & nexts & -> & _ & _).
  unfold remove_spec, lookup_spec. rewrite (abs_lookup base) by apply Hrep.
  pose proof (split_key base key L (sr_wf _ _ _ _ _ Hrep)) as EL.
  destruct (hit key (above key L)) eqn:Hhit.
  - destruct (above key L) as [|x C] eqn:EC; [done|]. simpl in Hhit. simpl found. rewrite Hhit.
    apply Z.eqb_eq in Hhit. destruct (rep_found _ _ _ _ _ _ _ _ Hrep EC) as (Hw & [Hptr _] & Hcv).
    rewrite (proj2 (Z.eqb_neq (s_addr x) 0)) by lia.
    rewrite run_bind, (run_load _ _ _ _ Hw). simpl lookup. cbv iota. rewrite run_bind, Nat2Z.id.
    pose proof (below_length key L) as HlB. pose proof (below_keys key L) as HB.
    set (B := below key L) in *. clearbody B. subst L. rewrite <- Hhit.
    assert (HpC : Forall (fun y => node_ptr (s_addr y)) C).
    { pose proof (sn_ptr _ _ (sr_wf _ _ _ _ _ Hrep)) as Hps. rewrite Forall_app, Forall_cons in Hps. tauto. }
    pose proof (wp_mark_levels (s_lvl x) fuel m x C (links [] C) Hw ltac:(done) ltac:(lia)) as Hmark.
    apply wp_run in Hmark as (mine & m1 & -> & -> & f' & -> & Hmk & _); [|intros; unfold links; by rewrite app_nil_r|done].
    cbn [negb]. rewrite run_bind. unfold SYNC_SWAP. rewrite run_act. cbn [handle heap set_heap].
    rewrite lookup_insert_eq. simpl lookup. cbv iota. rewrite run_ret, insert_insert_eq, run_bind.
    set (b := <[VAL := DOES_NOT_EXIST]> (words x f')).
    change (set_heap (set_heap m ?h1) ?h2) with (set_heap m h2).
    destruct (lf_find_preds_unlink fuel m sl hw B x C b Hrep) as (r & m2 & Er & HP & HC & Hxb & Hsl & Hdom & Hd).
    { intros y Hy. rewrite Hhit. by apply HB. }
    { intros l Hl. unfold b. rewrite list_lookup_insert_ne by (unfold VAL, NEXT; lia).
      rewrite words_next by done. by rewrite Hmk. }
    { lia. }
    rewrite Er, run_bind, (sr_int _ _ _ _ _ Hrep), run_ret, run_bind.
    unfold rcu_defer_free. rewrite run_act. cbn [handle]. rewrite run_ret, run_ret.
    eexists _, (B ++ C). split_and!; [done|..].
    + by apply (rep_delete base m _ sl hw B C x).
    + cbn [fst snd]. apply (abs_delete base). apply Hrep.
    + done.
    + done.
    + intros _. cbn [deferred]. rewrite Hd. split; [done|]. by rewrite (run_load _ _ _ b) by done.
  - pose proof (found_miss key (above key L) Hhit) as Ef. pose proof (miss_lookup key (above key L) Hhit) as En.
    rewrite Ef, En, Z.eqb_refl, run_ret. exists m, L. split_and!; try done.
    + cbn [snd]. rewrite delete_id; [done|]. by rewrite (abs_lookup base), En by apply Hrep.
Qed.

(** C10: [sl_remove] of the lock-free skiplist, run by itself, removes the key at
    every level and returns the value it had ([DOES_NOT_EXIST], and no change,
    when it was absent). The node is handed to [rcu_defer_free] exactly once and
    stays allocated, with its value cleared, for the threads that still hold it. *)
Theorem lf_sl_remove_refines fuel m sl hw L key :
  sl_rep base m sl hw L -> key_window base key -> (length L + 3 < fuel)%nat ->
  exists m' L', run (sl_remove fuel sl key) m = Done (remove_spec (abs L) key).1 m' /\
    sl_rep base m' sl hw L' /\ abs L' = (remove_spec (abs L) key).2 /\
    (forall a, is_Some (heap m' !! a) <-> is_Some (heap m !! a)) /\
    (abs L !! key = None -> m' = m) /\
    (is_Some (abs L !! key) -> deferred m' = found key (above key L) :: deferred m /\
       run (load (found key (above key L)) VAL) m' = Done DOES_NOT_EXIST m').
Proof. exact (lf_sl_remove_ok fuel m sl hw L key). Qed.

(** ** Iteration and creation *)

(** A client's loop: the pairs an iterator yields until it returns
    [DOES_NOT_EXIST] *)
Fixpoint sl_drain (steps fuel : nat) (iter : sl_iter_t) : prog (list (Z * Z)) :=
  match steps with
  | O => Fail OutOfFuel
  | S steps =>
      r ⇐ sl_iter_next fuel iter;
      match r with
      | (iter, v, k) =>
          if v =? DOES_NOT_EXIST then Ret [] else rest ⇐ sl_drain steps fuel iter; Ret ((k, v) :: rest)
      end
  end.

Lemma lf_sl_drain_run steps fuel a m sl hw L A R :
  sl_rep base m sl hw L -> L = A ++ R -> (length R < steps)%nat -> (0 < fuel)%nat ->
  run (sl_drain steps fuel (SLIter a (addr_or R))) m = Done (entries R) m.
Proof.
  revert A R. induction steps as [|steps IH]; intros A R Hrep E Hs Hf; [lia|].
  cbn [sl_drain]. rewrite run_bind. unfold sl_iter_next. cbn [sl_iter_node].
  destruct fuel as [|fuel]; [lia|]. rewrite run_bind. cbn [sl_iter_skip].
  destruct R as [|n R]; simpl addr_or; [done|]. simpl in Hs.
  destruct (rep_next0 _ _ _ _ _ _ _ Hrep E) as (Hld & Hm & Hst & Hnz).
  destruct (rep_node _ _ _ _ _ _ _ _ Hrep E) as [Hw _].
  assert (Hvs : Forall (fun x => 0 < s_val x < 2 ^ 63) L) by apply Hrep.
  rewrite E, Forall_app, Forall_cons in Hvs. destruct Hvs as (_ & Hv & _).
  rewrite (proj2 (Z.eqb_neq (s_addr n) 0)) by done.
  rewrite run_bind, Hld, Hm, run_ret. rewrite (proj2 (Z.eqb_neq (s_addr n) 0)) by done.
  rewrite run_bind, Hld, run_bind, (run_load _ _ _ _ Hw). simpl lookup. cbv iota.
  rewrite run_bind, (run_load _ _ _ _ Hw). simpl lookup. cbv iota. rewrite run_ret, Hst.
  rewrite (proj2 (Z.eqb_neq (s_val n) DOES_NOT_EXIST)) by (unfold DOES_NOT_EXIST; lia).
  rewrite run_bind, (IH (A ++ [n])); [done|done|by rewrite <- app_assoc|lia|lia].
Qed.

(** An iterator of the lock-free skiplist started at [key] yields exactly the
    entries whose keys are at least [key], in increasing order; started with
    [DOES_NOT_EXIST] it yields all of them. Once it is freed the memory is as it
    was before. *)
Theorem lf_sl_iterates steps fuel m sl hw L key a :
  sl_rep base m sl hw L -> key_window base key -> alloc (heap m) 1 = Some a ->
  (length L < steps)%nat -> (length L + 2 < fuel)%nat ->
  run (iter ⇐ sl_iter_begin fuel sl key; es ⇐ sl_drain steps fuel iter; _ ⇐ sl_iter_free iter; Ret es) m =
    Done (entries (if key =? DOES_NOT_EXIST then L else above key L)) m.
Proof.
  intros Hrep Hk Ha Hs Hf. set (m' := set_heap m (<[a := junk (heap m) 1]> (heap m))).
  assert (Hrep' : sl_rep base m' sl hw L) by (apply rep_fresh; [done|by eapply alloc_fresh]).
  pose proof (alloc_fresh _ _ _ Ha) as Hfr. rewrite run_bind. unfold sl_iter_begin. rewrite run_bind. unfold malloc.
  rewrite run_act. cbn [handle]. rewrite Ha, run_ret. fold m'.
  destruct (Z.eqb_spec key DOES_NOT_EXIST); cbn [negb].
  - rewrite run_bind, (rep_first _ _ _ _ _ Hrep'), run_ret, run_bind. unfold GET_NODE.
    rewrite (lf_sl_drain_run steps fuel a m' sl hw L []) by (done || lia).
    by apply run_free_fresh.
  - rewrite run_bind. destruct (lf_find_preds_run base fuel None (Some ∅) 1 m' sl hw L key DONT_UNLINK Hrep' Hk Hf ltac:(done))
      as (preds & succs & -> & _ & Hss). destruct succs as [succs|]; [|done]. destruct Hss as [Hss _].
    pose proof (sr_water _ _ _ _ _ Hrep). rewrite run_bind. unfold arr_get.
    change (default ∅ (Some succs)) with succs.
    rewrite Hss, run_ret, run_ret by lia. pose proof (split_key base key L (sr_wf _ _ _ _ _ Hrep)) as EL.
    assert (succ 0 (above key L) = addr_or (above key L)) as ->.
    { pose proof (above_levels base key sl hw m L Hrep) as Hl. destruct (above key L); [done|]. apply succ_cons.
      by apply Forall_cons in Hl as [? _]. }
    pose proof (f_equal length EL) as El. rewrite length_app in El.
    rewrite run_bind, (lf_sl_drain_run steps fuel a m' sl hw L (below key L)) by (done || lia).
    by apply run_free_fresh.
Qed.

(** A new lock-free skiplist is empty. *)
Theorem lf_sl_alloc_empty m a1 :
  alloc (heap m) 3 = Some a1 ->
  can_alloc (set_heap m (<[a1 := [0; 0; 1]]> (heap m))) (3 + MAX_LEVELS) ->
  exists sl m', run (sl_alloc None) m = Done sl m' /\ sl_rep base m' sl 1 [] /\ abs [] = ∅.
Proof.
  intros Ha1 Hc. enough (wp (sl_alloc None) m (fun sl m' => sl_rep base m' sl 1 [])) as (sl & m' & ? & ?)%wp_run by eauto 10.
  by apply (wp_sl_init base m a1 true).
Qed.
End refinement.

(** * Witnesses *)

Lemma lf_sl_lookup_refines_witness : run (sl_lookup 9 ex_sl 9) ex_m = Done 90 ex_m.
Proof.
  etransitivity; [apply (lf_sl_lookup_refines 0 9 ex_m ex_sl 2 ex_L);
    [apply ex_sl_rep|by unfold key_window|simpl; lia]|by vm_compute].
Defined.

Lemma lf_sl_count_refines_witness : run (sl_count 9 ex_sl) ex_m = Done 2 ex_m.
Proof. apply (lf_sl_count_refines 0 9 ex_m ex_sl 2 ex_L); [apply ex_sl_rep|simpl; lia]. Defined.

Lemma lf_sl_min_key_least_witness : exists k : Z, run (sl_min_key 9 ex_sl) ex_m = Done k ex_m /\
  (abs ex_L = ∅ -> k = DOES_NOT_EXIST) /\
  (abs ex_L <> ∅ -> is_Some (abs ex_L !! k) /\ forall k', is_Some (abs ex_L !! k') -> k <= k').
Proof. apply (lf_sl_min_key_least 0 9 ex_m ex_sl 2 ex_L); [apply ex_sl_rep|lia]. Defined.

Lemma lf_sl_cas_refines_witness : exists m' hw' L',
  run (sl_cas 9 ex_sl 7 CAS_EXPECT_WHATEVER 70) ex_m = Done 0 m' /\ sl_rep 0 m' ex_sl hw' L' /\
  abs L' = <[7 := 70]> (<[5 := 50]> (<[9 := 90]> ∅)) /\ deferred m' = [].
Proof.
  apply (lf_sl_cas_refines 0 9 ex_m ex_sl 2 ex_L 7 CAS_EXPECT_WHATEVER 70);
    [apply ex_sl_rep|by unfold key_window|simpl; lia|lia|by vm_compute|intros; apply ex_sl_can_alloc].
Defined.

Lemma lf_sl_remove_refines_witness : exists m' L',
  run (sl_remove 9 ex_sl 5) ex_m = Done 50 m' /\ sl_rep 0 m' ex_sl 2 L' /\
  abs L' = delete 5 (<[5 := 50]> (<[9 := 90]> ∅)) /\
  (forall a, is_Some (heap m' !! a) <-> is_Some (heap ex_m !! a)) /\
  (abs ex_L !! 5 = None -> m' = ex_m) /\
  (is_Some (abs ex_L !! 5) -> deferred m' = [400] /\ run (load 400 VAL) m' = Done 0 m').
Proof.
  apply (lf_sl_remove_refines 0 9 ex_m ex_sl 2 ex_L 5); [apply ex_sl_rep|by unfold key_window|simpl; lia].
Defined.

Lemma lf_sl_iterates_witness :
  run (iter ⇐ sl_iter_begin 9 ex_sl 6; es ⇐ sl_drain 9 9 iter; _ ⇐ sl_iter_free iter; Ret es) ex_m = Done [(9, 90)] ex_m.
Proof.
  apply (lf_sl_iterates 0 9 9 ex_m ex_sl 2 ex_L 6 488);
    [apply ex_sl_rep|by unfold key_window|by vm_compute|simpl; lia|simpl; lia].
Defined.

Lemma lf_sl_alloc_empty_witness : exists sl m',
  run (sl_alloc None) mem0 = Done sl m' /\ sl_rep 0 m' sl 1 [] /\ abs [] = ∅.
Proof.
  apply (lf_sl_alloc_empty 0 mem0 8); [by vm_compute|].
  intros h Eh. apply (bump_room h _ 1); [|done..]. rewrite Eh. cbn [heap set_heap mem0].
  rewrite dom_insert_L, dom_empty_L. intros a. rewrite elem_of_union, elem_of_singleton, elem_of_empty. zlia.
Defined.
