(* ===== verification/Rcu.v ===== *)
(** The quiescence-based reclamation of [runtime/rcu.c]: the queues of deferred
    blocks, the ring over which the threads pass the positions up to which a
    queue may be freed, the two operations as functions, and every interleaving
    of them as a step relation, with the grace-period theorem. *)
From S2P Require Import Prelude.

Definition RCU_POST_THRESHOLD : Z := 10.

Definition RCU_QUEUE_SCALE : Z := 20.

Definition MOD_SCALE (x b : Z) : Z := Z.land x (MASK b).

(** [fifo_t]: [head] and [tail] are [uint32_t] counters that wrap around; the
    slots of [x] are addressed modulo [2 ^ scale]. *)
Record fifo_t := Fifo { f_head : Z; f_tail : Z; f_scale : Z; f_x : gmap Z Z }.

(** The static variables of the file. The two arrays start zeroed, so an absent
    entry is 0; an absent queue is a null pointer. *)
Record rcu_t := Rcu {
  num_threads_ : Z;
  rcu_ : gmap (Z * Z) Z;
  rcu_last_posted_ : gmap (Z * Z) Z;
  pending_ : gmap Z fifo_t;
}.

Definition cell (a : gmap (Z * Z) Z) (i j : Z) : Z := default 0 (a !! (i, j)).

Definition fifo_alloc (scale : Z) : fifo_t := Fifo 0 0 scale ∅.

Definition rcu_thread_init (t : Z) (s : rcu_t) : rcu_t :=
  match pending_ s !! t with
  | None => Rcu (num_threads_ s + 1) (rcu_ s) (rcu_last_posted_ s)
                (<[t := fifo_alloc RCU_QUEUE_SCALE]> (pending_ s))
  | Some _ => s
  end.

Definition next_index (s : rcu_t) (t : Z) : Z := (t + 1) mod num_threads_ s.

(** [rcu_[next][i] = rcu_last_posted_[t][i] = x] *)
Definition post (s : rcu_t) (t next i x : Z) : rcu_t :=
  Rcu (num_threads_ s) (<[(next, i) := x]> (rcu_ s)) (<[(t, i) := x]> (rcu_last_posted_ s)) (pending_ s).

(** One iteration of the posting loop of [rcu_update] *)
Definition rcu_post_iter (t next : Z) (s : rcu_t) (i : Z) : rcu_t :=
  if i =? t then s
  else if cell (rcu_ s) t i =? cell (rcu_last_posted_ s) t i then s
  else post s t next i (cell (rcu_ s) t i).

(** Indices [i, i + 1, ...], [k] of them *)
Fixpoint upto (i : Z) (k : nat) : list Z :=
  match k with O => [] | S k => i :: upto (i + 1) k end.

Definition set_fifo (s : rcu_t) (t : Z) (q : fifo_t) : rcu_t :=
  Rcu (num_threads_ s) (rcu_ s) (rcu_last_posted_ s) (<[t := q]> (pending_ s)).

(** The block at the tail of a queue, and the queue without it *)
Definition fifo_tail (q : fifo_t) : Z := default 0 (f_x q !! MOD_SCALE (f_tail q) (f_scale q)).

Definition fifo_pop (q : fifo_t) : fifo_t := Fifo (f_head q) (u32 (f_tail q + 1)) (f_scale q) (f_x q).

(** The freeing loop of [rcu_update]: the blocks freed, in order; [None] when the
    queue is null or the fuel runs out. *)
Fixpoint rcu_free_loop (fuel : nat) (t : Z) (s : rcu_t) : option (rcu_t * list Z) :=
  match fuel with
  | O => None
  | S fuel =>
      match pending_ s !! t with
      | None => None
      | Some q =>
          if f_tail q =? cell (rcu_ s) t t then Some (s, [])
          else
            match rcu_free_loop fuel t (set_fifo s t (fifo_pop q)) with
            | Some (s', freed) => Some (s', fifo_tail q :: freed)
            | None => None
            end
      end
  end.

Definition rcu_update (fuel : nat) (t : Z) (s : rcu_t) : option (rcu_t * list Z) :=
  let next := next_index s t in
  let s := foldl (rcu_post_iter t next) s (upto 0 (Z.to_nat (num_threads_ s))) in
  rcu_free_loop fuel t s.

(** [x] is stored at the head of the queue. *)
Definition fifo_push (q : fifo_t) (x : Z) : fifo_t :=
  Fifo (u32 (f_head q + 1)) (f_tail q) (f_scale q)
       (<[MOD_SCALE (f_head q) (f_scale q) := x]> (f_x q)).

Definition fifo_full (q : fifo_t) : bool :=
  MOD_SCALE (u32 (f_head q + 1)) (f_scale q) =? MOD_SCALE (f_tail q) (f_scale q).

(** [None] when an assertion fails (a null block, a full queue) or the thread has
    no queue. *)
Definition rcu_defer_free (t x : Z) (s : rcu_t) : option rcu_t :=
  if x =? 0 then None
  else
    match pending_ s !! t with
    | None => None
    | Some q =>
        if fifo_full q then None
        else
          let q := fifo_push q x in
          let s := set_fifo s t q in
          if RCU_POST_THRESHOLD <=? u64 (f_head q - cell (rcu_last_posted_ s) t t)
          then Some (post s t (next_index s t) t (f_head q))
          else Some s
    end.

(** * Interleavings

    Each thread runs a sequence of calls to the two operations. A step of a
    thread performs at most one access to a variable another thread uses: an
    entry of [rcu_]; its row of [rcu_last_posted_] and its queue are its own. *)

(** Where a thread is: outside, in the posting loop at index [i] (before the test,
    between the test and the second read of the entry, between the read of [x] and
    its posting), or in the freeing loop. *)
Inductive pc :=
  | Idle
  | Posting (next i : Z)
  | Changed (next i : Z)
  | Holding (next i x : Z)
  | Freeing.

(** What happened, most recent first: thread [t] deferred [x], freed [x], or
    passed on a position of the queue of [c]. *)
Inductive event :=
  | EDefer (t x : Z)
  | EFree (t x : Z)
  | EPost (t c : Z).

Record config := Cfg { st : rcu_t; pcs : gmap Z pc; log : list event }.

Inductive step : config -> config -> Prop :=
  | step_defer s p l t x s' :
      p !! t = Some Idle -> rcu_defer_free t x s = Some s' ->
      step (Cfg s p l) (Cfg s' p (EDefer t x :: l))
  | step_begin s p l t :
      p !! t = Some Idle ->
      step (Cfg s p l) (Cfg s (<[t := Posting (next_index s t) 0]> p) l)
  | step_skip s p l t next i :
      p !! t = Some (Posting next i) -> i < num_threads_ s ->
      i = t \/ cell (rcu_ s) t i = cell (rcu_last_posted_ s) t i ->
      step (Cfg s p l) (Cfg s (<[t := Posting next (i + 1)]> p) l)
  | step_changed s p l t next i :
      p !! t = Some (Posting next i) -> i < num_threads_ s ->
      i <> t -> cell (rcu_ s) t i <> cell (rcu_last_posted_ s) t i ->
      step (Cfg s p l) (Cfg s (<[t := Changed next i]> p) l)
  | step_read s p l t next i :
      p !! t = Some (Changed next i) ->
      step (Cfg s p l) (Cfg s (<[t := Holding next i (cell (rcu_ s) t i)]> p) l)
  | step_post s p l t next i x :
      p !! t = Some (Holding next i x) ->
      step (Cfg s p l) (Cfg (post s t next i x) (<[t := Posting next (i + 1)]> p) (EPost t i :: l))
  | step_posted s p l t next i :
      p !! t = Some (Posting next i) -> num_threads_ s <= i ->
      step (Cfg s p l) (Cfg s (<[t := Freeing]> p) l)
  | step_free s p l t q :
      p !! t = Some Freeing -> pending_ s !! t = Some q -> f_tail q <> cell (rcu_ s) t t ->
      step (Cfg s p l) (Cfg (set_fifo s t (fifo_pop q)) p (EFree t (fifo_tail q) :: l))
  | step_return s p l t q :
      p !! t = Some Freeing -> pending_ s !! t = Some q -> f_tail q = cell (rcu_ s) t t ->
      step (Cfg s p l) (Cfg s (<[t := Idle]> p) l).

(** All threads have called [rcu_thread_init] before any of them uses the queues. *)
Definition rcu_start (n : nat) : rcu_t := foldr rcu_thread_init (Rcu 0 ∅ ∅ ∅) (upto 0 n).

Definition cfg_start (n : nat) : config :=
  Cfg (rcu_start n) (list_to_map ((fun t => (t, Idle)) <$> upto 0 n)) [].

(** The blocks thread [c] has deferred (oldest first) and the number it has freed *)
Fixpoint defers (c : Z) (l : list event) : list Z :=
  match l with
  | [] => []
  | EDefer t x :: l => if t =? c then defers c l ++ [x] else defers c l
  | _ :: l => defers c l
  end.

Fixpoint frees (c : Z) (l : list event) : list Z :=
  match l with
  | [] => []
  | EFree t x :: l => if t =? c then frees c l ++ [x] else frees c l
  | _ :: l => frees c l
  end.

(** * The ring *)

(** The successor of thread [t] in a ring of [n], and the distance a position of
    the queue of [c] has travelled when it is at thread [s]. *)
Definition nxt (n t : Z) : Z := if t + 1 =? n then 0 else t + 1.

Definition rank (n c s : Z) : Z := if c <? s then s - c - 1 else s - c - 1 + n.

Lemma next_nxt n t : 0 <= t < n -> (t + 1) mod n = nxt n t.
Proof.
  intros Ht. unfold nxt. destruct (Z.eqb_spec (t + 1) n) as [->|].
  - by rewrite Z_mod_same_full.
  - apply Z.mod_small. lia.
Qed.

Ltac ring_lia :=
  unfold rank, nxt in *;
  repeat match goal with
  | |- context [?a =? ?b] => destruct (Z.eqb_spec a b)
  | H : context [?a =? ?b] |- _ => destruct (Z.eqb_spec a b)
  | |- context [?a <? ?b] => destruct (Z.ltb_spec a b)
  | H : context [?a <? ?b] |- _ => destruct (Z.ltb_spec a b)
  end; subst; try lia.

(** Positions decrease along the ring. *)
Definition chain (n c : Z) (g : Z -> Z) : Prop :=
  forall s s', 0 <= s < n -> 0 <= s' < n -> rank n c s <= rank n c s' -> g s' <= g s.

Definition upd (g : Z -> Z) (a v : Z) : Z -> Z := fun s => if s =? a then v else g s.

Lemma chain_upd n c g a v :
  chain n c g -> 0 <= c < n -> 0 <= a < n -> g a <= v ->
  (forall s, 0 <= s < n -> rank n c s < rank n c a -> v <= g s) -> chain n c (upd g a v).
Proof.
  intros Hg Hc Ha Hv Hlt s s' Hs Hs' Hr. unfold upd.
  destruct (Z.eqb_spec s' a) as [->|]; destruct (Z.eqb_spec s a) as [->|]; [lia| |..].
  - apply Hlt; [done|]. ring_lia.
  - etransitivity; [apply (Hg a s')|]; done.
  - by apply Hg.
Qed.

Lemma chain_last n c g s : chain n c g -> 0 <= c < n -> 0 <= s < n -> g c <= g s.
Proof. intros Hg Hc Hs. apply Hg; try done. ring_lia. Qed.

(** A position moves one place on. *)
Lemma chain_post n c g s v :
  chain n c g -> 0 <= c < n -> 0 <= s < n -> s <> c -> g (nxt n s) <= v <= g s ->
  chain n c (upd g (nxt n s) v).
Proof.
  intros Hg Hc Hs Hne Hv. apply chain_upd; try done; [ring_lia|lia|].
  intros s' Hs' Hr. transitivity (g s); [lia|]. apply Hg; try done. ring_lia.
Qed.

(** A new position enters. *)
Lemma chain_enter n c g v :
  chain n c g -> 0 <= c < n -> (forall s, 0 <= s < n -> g s <= v) -> chain n c (upd g (nxt n c) v).
Proof.
  intros Hg Hc Hv. assert (0 <= nxt n c < n) by ring_lia.
  apply chain_upd; try done; [auto|]. intros s Hs Hr. exfalso. ring_lia.
Qed.

(** * Queues *)

Abbreviation len l := (Z.of_nat (length l)).

(** A queue holds the blocks of [D] (deferred) that are not in [F] (freed). *)
Record queue_ok (q : fifo_t) (D F : list Z) : Prop := {
  qo_head : f_head q = u32 (len D);
  qo_tail : f_tail q = u32 (len F);
  qo_scale : f_scale q = RCU_QUEUE_SCALE;
  qo_room : len D - len F < 2 ^ RCU_QUEUE_SCALE;
  qo_prefix : F `prefix_of` D;
  qo_slots : forall k x, D !! k = Some x -> (length F <= k)%nat ->
             f_x q !! (Z.of_nat k mod 2 ^ RCU_QUEUE_SCALE) = Some x;
}.

Lemma mod_scale_u32 z : MOD_SCALE (u32 z) RCU_QUEUE_SCALE = z mod 2 ^ RCU_QUEUE_SCALE.
Proof.
  unfold MOD_SCALE. change (MASK RCU_QUEUE_SCALE) with (Z.ones RCU_QUEUE_SCALE).
  rewrite Z.land_ones by done. unfold u32, RCU_QUEUE_SCALE. zlia.
Qed.

Lemma queue_alloc : queue_ok (fifo_alloc RCU_QUEUE_SCALE) [] [].
Proof. by split. Qed.

Lemma queue_push q D F x :
  queue_ok q D F -> fifo_full q = false -> queue_ok (fifo_push q x) (D ++ [x]) F.
Proof.
  intros [Hh Ht Hs Hr Hp Hx] Hf. unfold fifo_full in Hf. apply Z.eqb_neq in Hf.
  rewrite Hs, Hh, Ht, u32_add_l, !mod_scale_u32 in Hf.
  assert (Hle : len F <= len D) by (apply prefix_length in Hp; lia).
  assert (Hroom : len D + 1 - len F < 2 ^ RCU_QUEUE_SCALE).
  { destruct (decide (len D + 1 - len F = 2 ^ RCU_QUEUE_SCALE)) as [E|]; [|lia].
    exfalso. apply Hf. replace (len D + 1) with (len F + 1 * 2 ^ RCU_QUEUE_SCALE) by lia.
    by rewrite Z_mod_plus_full. }
  split; cbn [f_head f_tail f_scale f_x fifo_push]; try done.
  - rewrite Hh, u32_add_l, length_app. simpl. f_equal. lia.
  - rewrite length_app. simpl. lia.
  - by apply prefix_app_r.
  - intros k y Hk HF. rewrite Hh, Hs, mod_scale_u32.
    assert (k < length (D ++ [x]))%nat as Hlt by (by apply lookup_lt_Some in Hk).
    rewrite length_app in Hlt. simpl in Hlt. apply lookup_snoc_Some in Hk as [[Hk1 Hk]|[-> <-]].
    + rewrite lookup_insert_ne; [eauto|]. intros E. unfold RCU_QUEUE_SCALE in *. zlia.
    + by rewrite lookup_insert_eq.
Qed.

Lemma queue_pop q D F x :
  queue_ok q D F -> D !! length F = Some x -> fifo_tail q = x /\ queue_ok (fifo_pop q) D (F ++ [x]).
Proof.
  intros [Hh Ht Hs Hr Hp Hx] Hl. split.
  - unfold fifo_tail. rewrite Ht, Hs, mod_scale_u32. by rewrite (Hx _ _ Hl).
  - split; cbn [f_head f_tail f_scale f_x fifo_pop]; try done.
    + rewrite Ht, u32_add_l, length_app. simpl. f_equal. lia.
    + rewrite length_app. simpl. lia.
    + destruct Hp as [K ->]. rewrite lookup_app_r, Nat.sub_diag in Hl by lia.
      destruct K as [|y K]; simplify_eq/=. exists K. by rewrite <- app_assoc.
    + intros k y Hk. rewrite length_app. intros ?. apply Hx; [done|lia].
Qed.

(** * The invariant *)

(** Thread [t] has passed on a position of the queue of [c] that is at least [v],
    after [c] had deferred [v] blocks. *)
Definition passed (t c v : Z) (l : list event) : Prop :=
  exists l1 l2, l = l1 ++ EPost t c :: l2 /\ v <= len (defers c l2).

(** [g t] is the position of the queue of [c] that thread [t] was given, counted
    without wrap-around. *)
Record col_inv (n c : Z) (s : rcu_t) (l : list event) (g : Z -> Z) : Prop := {
  ci_cell : forall t, 0 <= t < n -> cell (rcu_ s) t c = u32 (g t);
  ci_chain : chain n c g;
  ci_freed : len (frees c l) <= g c;
  ci_head : g (nxt n c) <= len (defers c l);
  ci_posted : forall t, 0 <= t < n -> t <> c -> 0 < g (nxt n t) -> passed t c (g (nxt n t)) l;
  ci_queue : exists q, pending_ s !! c = Some q /\ queue_ok q (defers c l) (frees c l);
}.

(** What [rcu_last_posted_] records: row [t] is what [t] gave its successor, and the
    owner of a queue has posted all but the last few positions. *)
Record lag_inv (n c : Z) (s : rcu_t) (l : list event) (g : Z -> Z) : Prop := {
  li_cell : forall t, 0 <= t < n -> cell (rcu_last_posted_ s) t c = u32 (g (nxt n t));
  li_lag : len (defers c l) - g (nxt n c) < RCU_POST_THRESHOLD;
}.

(** What a thread holds between reading a position and posting it *)
Definition holds_ok (n c t : Z) (g : Z -> Z) (p : pc) : Prop :=
  match p with
  | Holding _ i x => i = c -> exists gx, x = u32 gx /\ g (nxt n t) <= gx <= g t
  | _ => True
  end.

Definition pc_ok (n t : Z) (p : pc) : Prop :=
  match p with
  | Idle | Freeing => True
  | Posting next i => next = nxt n t /\ 0 <= i
  | Changed next i | Holding next i _ => next = nxt n t /\ 0 <= i < n /\ i <> t
  end.

(** Every block freed is the oldest block deferred and not freed, and since it was
    deferred every other thread has been through [rcu_update]. *)
Definition graceful (n : Z) (l : list event) : Prop :=
  forall l1 c x l2, l = l1 ++ EFree c x :: l2 ->
    0 <= c < n /\ defers c l2 !! length (frees c l2) = Some x /\
    forall t, 0 <= t < n -> t <> c -> passed t c (len (frees c l2) + 1) l2.

Record inv (n : Z) (σ : config) : Prop := {
  iv_threads : num_threads_ (st σ) = n;
  iv_pcs : forall t p, pcs σ !! t = Some p -> 0 <= t < n /\ pc_ok n t p;
  iv_cols : forall c, 0 <= c < n -> exists g, col_inv n c (st σ) (log σ) g /\ lag_inv n c (st σ) (log σ) g /\
            forall t p, pcs σ !! t = Some p -> holds_ok n c t g p;
  iv_grace : graceful n (log σ);
}.

Lemma passed_cons t c v e l : passed t c v l -> passed t c v (e :: l).
Proof. intros (l1 & l2 & -> & Hv). exists (e :: l1), l2. done. Qed.

Lemma col_inv_all n c s l g t : col_inv n c s l g -> 0 <= c < n -> 0 <= t < n -> g t <= len (defers c l).
Proof.
  intros [_ Hc _ Hh _ _] Hcn Ht. etransitivity; [|exact Hh].
  apply Hc; try done; ring_lia.
Qed.

(** An event that neither defers nor frees a block of [c] *)
Lemma graceful_cons n e l :
  graceful n l -> (forall c x, e <> EFree c x) -> graceful n (e :: l).
Proof.
  intros Hg He [|e' l1] c x l2 E; simplify_eq/=; [by edestruct He|]. by eapply Hg.
Qed.

Definition quiet (c : Z) (e : event) : Prop :=
  match e with EDefer t _ | EFree t _ => t <> c | EPost _ _ => True end.

Lemma quiet_cons c e l : quiet c e -> defers c (e :: l) = defers c l /\ frees c (e :: l) = frees c l.
Proof. destruct e as [t x|t x|t c']; simpl; [..|done]; intros Hne%Z.eqb_neq; by rewrite Hne. Qed.

Lemma col_inv_quiet n c s s' l e g :
  col_inv n c s l g -> quiet c e ->
  (forall t, 0 <= t < n -> cell (rcu_ s') t c = cell (rcu_ s) t c) ->
  pending_ s' !! c = pending_ s !! c ->
  col_inv n c s' (e :: l) g.
Proof.
  intros [H1 H2 H3 H4 H5 H6] He Hcell Hq. destruct (quiet_cons c e l He) as [Ed Ef].
  split; rewrite ?Ed, ?Ef, ?Hq; try done.
  - intros t Ht. by rewrite Hcell, H1.
  - intros t Ht Hne Hp. by apply passed_cons, H5.
Qed.

Lemma cell_insert_ne a i j i' j' v : j <> j' -> cell (<[(i, j) := v]> a) i' j' = cell a i' j'.
Proof. intros. unfold cell. rewrite lookup_insert_ne; [done|congruence]. Qed.

Lemma cell_insert a i j i' v :
  cell (<[(i, j) := v]> a) i' j = if i' =? i then v else cell a i' j.
Proof.
  unfold cell. destruct (Z.eqb_spec i' i) as [->|]; [by rewrite lookup_insert_eq|].
  rewrite lookup_insert_ne; [done|congruence].
Qed.

(** ** A position is passed on *)
Lemma col_inv_post n c s l g t x gx :
  col_inv n c s l g -> 0 <= c < n -> 0 <= t < n -> t <> c -> x = u32 gx ->
  g (nxt n t) <= gx <= g t ->
  col_inv n c (post s t (nxt n t) c x) (EPost t c :: l) (upd g (nxt n t) gx).
Proof.
  intros Hi Hc Ht Hne -> Hx. pose proof (col_inv_all _ _ _ _ _ t Hi Hc Ht) as Hle.
  destruct Hi as [H1 H2 H3 H4 H5 H6].
  split; cbn [defers frees rcu_ pending_ post]; try done.
  - intros t' Ht'. rewrite cell_insert. unfold upd. destruct (_ =? _); auto.
  - by apply chain_post.
  - unfold upd. destruct (Z.eqb_spec c (nxt n t)); [subst; lia|done].
  - unfold upd. destruct (Z.eqb_spec (nxt n c) (nxt n t)); [lia|done].
  - intros t' Ht' Hne'. unfold upd. destruct (Z.eqb_spec (nxt n t') (nxt n t)) as [E|].
    + assert (t' = t) as -> by (clear -Ht' Ht E; ring_lia). exists [], l. split; [done|lia].
    + intros Hp. by apply passed_cons, H5.
Qed.

(** ** A block is deferred *)
Lemma col_inv_push n c s l g q x :
  col_inv n c s l g -> pending_ s !! c = Some q -> fifo_full q = false ->
  col_inv n c (set_fifo s c (fifo_push q x)) (EDefer c x :: l) g /\
  queue_ok (fifo_push q x) (defers c l ++ [x]) (frees c l).
Proof.
  intros [H1 H2 H3 H4 H5 (q' & Hq' & Hq)] Eq Hf. assert (q' = q) as -> by congruence.
  pose proof (queue_push q _ _ x Hq Hf) as Hq2. split; [|done].
  split; cbn [defers frees rcu_ pending_ set_fifo]; rewrite ?Z.eqb_refl; try done.
  - rewrite length_app. lia.
  - intros t Ht Hne Hp. by apply passed_cons, H5.
  - exists (fifo_push q x). by rewrite lookup_insert_eq.
Qed.

Lemma col_inv_enter n c s l g q :
  col_inv n c s l g -> 0 <= c < n -> pending_ s !! c = Some q ->
  col_inv n c (post s c (nxt n c) c (f_head q)) l (upd g (nxt n c) (len (defers c l))).
Proof.
  intros Hi Hc Eq. pose proof (fun t => col_inv_all _ _ _ _ _ t Hi Hc) as Hle.
  destruct Hi as [H1 H2 H3 H4 H5 (q' & Hq' & Hq)]. assert (q' = q) as -> by congruence.
  split; cbn [defers frees rcu_ pending_ post]; try done.
  - intros t' Ht'. rewrite cell_insert. unfold upd. destruct (_ =? _); [apply Hq|auto].
  - by apply chain_enter.
  - unfold upd. destruct (Z.eqb_spec c (nxt n c)); [|done]. specialize (Hle c Hc). lia.
  - unfold upd. by rewrite Z.eqb_refl.
  - intros t' Ht' Hne'. unfold upd. destruct (Z.eqb_spec (nxt n t') (nxt n c)) as [E|]; [|auto].
    exfalso. apply Hne'. clear -Ht' Hc E. ring_lia.
  - eauto.
Qed.

(** ** A block is freed *)
Lemma col_inv_pop n c s l g q :
  col_inv n c s l g -> 0 <= c < n -> pending_ s !! c = Some q -> f_tail q <> cell (rcu_ s) c c ->
  defers c l !! length (frees c l) = Some (fifo_tail q) /\
  (forall t, 0 <= t < n -> t <> c -> passed t c (len (frees c l) + 1) l) /\
  col_inv n c (set_fifo s c (fifo_pop q)) (EFree c (fifo_tail q) :: l) g.
Proof.
  intros Hi Hc Eq Hne. pose proof (fun t => col_inv_all _ _ _ _ _ t Hi Hc) as Hle.
  destruct Hi as [H1 H2 H3 H4 H5 (q' & Hq' & Hq)]. assert (q' = q) as -> by congruence.
  assert (Hlt : len (frees c l) < g c).
  { rewrite H1, (qo_tail _ _ _ Hq) in Hne by done.
    destruct (decide (len (frees c l) = g c)) as [E|]; [by rewrite E in Hne|lia]. }
  assert (is_Some (defers c l !! length (frees c l))) as [x Hx].
  { apply lookup_lt_is_Some. specialize (Hle c Hc). lia. }
  destruct (queue_pop q _ _ x Hq Hx) as [Ex Hq2]. rewrite Ex.
  assert (Hpass : forall t, 0 <= t < n -> t <> c -> passed t c (len (frees c l) + 1) l).
  { intros t Ht Htc. assert (g c <= g (nxt n t)) by (apply (chain_last n); try done; ring_lia).
    destruct (H5 t Ht Htc ltac:(lia)) as (l1 & l2 & -> & Hv). exists l1, l2. split; [done|lia]. }
  split_and!; [done..|].
  split; cbn [defers frees rcu_ pending_ set_fifo]; rewrite ?Z.eqb_refl; try done.
  - rewrite length_app. simpl. lia.
  - intros t Ht Htc Hp. by apply passed_cons, H5.
  - exists (fifo_pop q). by rewrite lookup_insert_eq.
Qed.

Lemma nxt_inj n s t : 0 <= s < n -> 0 <= t < n -> nxt n s = nxt n t -> s = t.
Proof. intros. ring_lia. Qed.

Lemma lag_quiet n c s s' l e g :
  lag_inv n c s l g -> quiet c e ->
  (forall t, 0 <= t < n -> cell (rcu_last_posted_ s') t c = cell (rcu_last_posted_ s) t c) ->
  lag_inv n c s' (e :: l) g.
Proof.
  intros [H1 H2] He Hcell. destruct (quiet_cons c e l He) as [Ed _].
  split; rewrite ?Ed; [|done]. intros t Ht. by rewrite Hcell, H1.
Qed.

Lemma lag_post n c s l g t x gx :
  lag_inv n c s l g -> 0 <= c < n -> 0 <= t < n -> t <> c -> x = u32 gx ->
  lag_inv n c (post s t (nxt n t) c x) (EPost t c :: l) (upd g (nxt n t) gx).
Proof.
  intros [H1 H2] Hc Ht Hne ->. split; unfold upd.
  - intros t' Ht'. cbn [rcu_last_posted_ post]. rewrite cell_insert.
    destruct (Z.eqb_spec t' t) as [->|]; [by rewrite Z.eqb_refl|].
    rewrite (proj2 (Z.eqb_neq (nxt n t') (nxt n t))); [auto|]. by intros ?%nxt_inj.
  - cbn [defers]. rewrite (proj2 (Z.eqb_neq (nxt n c) (nxt n t))); [done|]. intros ?%nxt_inj; congruence.
Qed.

(** The distance that is compared with the threshold, counters wrapping or not *)
Lemma threshold_test d g :
  0 <= d - g <= 2 ^ RCU_QUEUE_SCALE -> u64 (u32 d - u32 g) < RCU_POST_THRESHOLD ->
  d - g < RCU_POST_THRESHOLD.
Proof. unfold RCU_POST_THRESHOLD, RCU_QUEUE_SCALE, u64, u32. intros. zlia. Qed.

Lemma lag_push n c s l g q x q' :
  col_inv n c s l g -> 0 <= c < n -> lag_inv n c s l g -> q' = fifo_push q x ->
  queue_ok q' (defers c (EDefer c x :: l)) (frees c l) ->
  u64 (f_head q' - cell (rcu_last_posted_ s) c c) < RCU_POST_THRESHOLD ->
  len (defers c (EDefer c x :: l)) - g (nxt n c) < RCU_POST_THRESHOLD.
Proof.
  intros Hci Hc [Hl _] _ Hq Ht. rewrite (qo_head _ _ _ Hq), Hl in Ht by done.
  apply threshold_test; [|done]. pose proof (qo_room _ _ _ Hq).
  pose proof (ci_freed _ _ _ _ _ Hci). pose proof (ci_head _ _ _ _ _ Hci) as Hh.
  assert (g c <= g (nxt n c)) by (apply (chain_last n); [apply Hci|done|ring_lia]).
  revert Hh. cbn [defers] in *. rewrite Z.eqb_refl, length_app in *. simpl in *. lia.
Qed.

Lemma lag_enter n c s l l' g h :
  lag_inv n c s l g -> 0 <= c < n -> h = u32 (len (defers c l')) ->
  lag_inv n c (post s c (nxt n c) c h) l' (upd g (nxt n c) (len (defers c l'))).
Proof.
  intros [H1 H2] Hc ->. split; unfold upd.
  - intros t' Ht'. cbn [rcu_last_posted_ post]. rewrite cell_insert.
    destruct (Z.eqb_spec t' c) as [->|]; [by rewrite Z.eqb_refl|].
    rewrite (proj2 (Z.eqb_neq (nxt n t') (nxt n c))); [auto|]. by intros ?%nxt_inj.
  - rewrite Z.eqb_refl. unfold RCU_POST_THRESHOLD. lia.
Qed.

(** * Every step preserves the invariant *)

Lemma holds_upd n c s t g v p :
  0 <= s < n -> 0 <= t < n -> s <> t -> g (nxt n t) <= v ->
  holds_ok n c s g p -> holds_ok n c s (upd g (nxt n t) v) p.
Proof.
  intros Hs Ht Hne Hv. destruct p as [| | |next i x|]; try done. intros Hh E.
  destruct (Hh E) as (gx & -> & Hx). exists gx. split; [done|]. unfold upd.
  assert (nxt n s <> nxt n t) by (clear -Hs Ht Hne; ring_lia).
  destruct (Z.eqb_spec (nxt n s) (nxt n t)); [done|]. destruct (Z.eqb_spec s (nxt n t)); [subst; lia|done].
Qed.

Lemma inv_pc n s p l t p' :
  inv n (Cfg s p l) -> 0 <= t < n -> pc_ok n t p' ->
  (forall c g, 0 <= c < n -> col_inv n c s l g -> holds_ok n c t g p') ->
  inv n (Cfg s (<[t := p']> p) l).
Proof.
  intros [Hn Hp Hc Hg] Ht Hok Hh. split; cbn [st pcs log] in *; try done.
  - intros t' p1 [[<- <-]|[_ ?]]%lookup_insert_Some; auto.
  - intros c Hcn. destruct (Hc c Hcn) as (g & Hci & Hlag & Hhold). exists g. split_and!; [done..|].
    intros t' p1 [[<- <-]|[_ ?]]%lookup_insert_Some; auto.
Qed.

Lemma inv_defer n s p l t x s' :
  inv n (Cfg s p l) -> p !! t = Some Idle -> rcu_defer_free t x s = Some s' ->
  inv n (Cfg s' p (EDefer t x :: l)).
Proof.
  intros [Hn Hp Hc Hg] Et Hd. cbn [st pcs log] in *. destruct (Hp _ _ Et) as [Ht _].
  unfold rcu_defer_free in Hd. destruct (x =? 0); [done|].
  destruct (pending_ s !! t) as [q|] eqn:Eq; [|done]. destruct (fifo_full q) eqn:Hf; [done|].
  set (s1 := set_fifo s t (fifo_push q x)) in *.
  assert (Hs' : (s' = s1 /\ u64 (f_head (fifo_push q x) - cell (rcu_last_posted_ s) t t) < RCU_POST_THRESHOLD)
                \/ s' = post s1 t (nxt n t) t (f_head (fifo_push q x))).
  { destruct (Z.leb_spec RCU_POST_THRESHOLD (u64 (f_head (fifo_push q x) - cell (rcu_last_posted_ s1) t t)));
      simplify_eq; [right|by left]. unfold next_index. cbn [num_threads_ s1 set_fifo]. by rewrite next_nxt. }
  split; cbn [st pcs log].
  - by destruct Hs' as [[-> _]| ->].
  - done.
  - intros c Hcn. destruct (Hc c Hcn) as (g & Hci & Hlag & Hhold). destruct (decide (c = t)) as [->|Hne].
    + destruct (col_inv_push _ _ _ _ _ q x Hci Eq Hf) as [Hci1 Hq1]. fold s1 in Hci1.
      assert (Ed : defers t (EDefer t x :: l) = defers t l ++ [x]) by (simpl; by rewrite Z.eqb_refl).
      rewrite <- Ed in Hq1. destruct Hs' as [[-> Hthr]| ->].
      { exists g. split_and!; [done| |done]. split; [apply Hlag|].
        apply (lag_push n t s l g q x (fifo_push q x)); try done. }
      eexists. split_and!; [eapply col_inv_enter; [exact Hci1|done|apply lookup_insert_eq]| |].
      { eapply lag_enter; [by split; [apply Hlag|apply Hlag]|done|apply Hq1]. }
      intros t' p' Hp'. destruct (Hp _ _ Hp') as [Ht' _]. destruct (decide (t' = t)) as [->|].
      { by simplify_eq. }
      apply holds_upd; auto. apply (ci_head _ _ _ _ _ Hci1).
    + exists g. split_and!; [| |done].
      * eapply col_inv_quiet; [exact Hci|simpl; congruence|..].
        -- intros t' _. destruct Hs' as [[-> _]| ->]; [done|]. by apply cell_insert_ne.
        -- destruct Hs' as [[-> _]| ->]; by apply lookup_insert_ne.
      * eapply lag_quiet; [exact Hlag|simpl; congruence|]. intros t' _.
        destruct Hs' as [[-> _]| ->]; [done|]. by apply cell_insert_ne.
  - by apply graceful_cons.
Qed.

Lemma inv_post n s p l t next i x :
  inv n (Cfg s p l) -> p !! t = Some (Holding next i x) ->
  inv n (Cfg (post s t next i x) (<[t := Posting next (i + 1)]> p) (EPost t i :: l)).
Proof.
  intros [Hn Hp Hc Hg] Et. cbn [st pcs log] in *. destruct (Hp _ _ Et) as [Ht (-> & Hi & Hit)].
  split; cbn [st pcs log]; [done| | |by apply graceful_cons].
  - intros t' p1 [[<- <-]|[_ ?]]%lookup_insert_Some; [|auto]. simpl. lia.
  - intros c Hcn. destruct (Hc c Hcn) as (g & Hci & Hlag & Hhold). destruct (decide (c = i)) as [->|Hne].
    + destruct (Hhold _ _ Et eq_refl) as (gx & Ex & Hx).
      eexists. split_and!; [by eapply (col_inv_post n i s l g t x gx)|by apply lag_post|].
      intros t' p' [[<- <-]|[? Hp']]%lookup_insert_Some; [done|].
      destruct (Hp _ _ Hp') as [Ht' _]. apply holds_upd; auto. lia.
    + exists g. split_and!; [eapply col_inv_quiet; try done; intros; by apply cell_insert_ne| |].
      { eapply lag_quiet; try done. intros. by apply cell_insert_ne. }
      intros t' p' [[<- <-]|[? Hp']]%lookup_insert_Some; [done|auto].
Qed.

Lemma inv_free n s p l t q :
  inv n (Cfg s p l) -> p !! t = Some Freeing -> pending_ s !! t = Some q ->
  f_tail q <> cell (rcu_ s) t t ->
  inv n (Cfg (set_fifo s t (fifo_pop q)) p (EFree t (fifo_tail q) :: l)).
Proof.
  intros [Hn Hp Hc Hg] Et Eq Hne. cbn [st pcs log] in *. destruct (Hp _ _ Et) as [Ht _].
  split; cbn [st pcs log]; try done.
  - intros c Hcn. destruct (Hc c Hcn) as (g & Hci & Hlag & Hhold). exists g. split_and!; [|split; cbn; apply Hlag|done].
    destruct (decide (c = t)) as [->|Hct]; [by apply (col_inv_pop n t s l g q)|].
    eapply col_inv_quiet; [exact Hci|simpl; congruence|done|by apply lookup_insert_ne].
  - intros [|e l1] c x l2 E; simplify_eq/=; [|by eapply Hg].
    destruct (Hc c Ht) as (g & Hci & _). destruct (col_inv_pop _ _ _ _ _ _ Hci Ht Eq Hne) as (? & ? & _).
    auto.
Qed.

Lemma inv_step n σ σ' : inv n σ -> step σ σ' -> inv n σ'.
Proof.
  intros Hi Hs. destruct Hs.
  - by eapply inv_defer.
  - pose proof (iv_pcs _ _ Hi t _ H) as [Ht _]. apply inv_pc; try done. simpl. split; [|done].
    unfold next_index. rewrite (iv_threads _ _ Hi : num_threads_ s = n). by apply next_nxt.
  - pose proof (iv_pcs _ _ Hi t _ H) as [Ht [? ?]]. apply inv_pc; try done. simpl. split; [done|lia].
  - pose proof (iv_pcs _ _ Hi t _ H) as [Ht [? ?]]. pose proof (iv_threads _ _ Hi) as Hn. simpl in Hn.
    apply inv_pc; try done. simpl. split_and!; [done|lia..].
  - pose proof (iv_pcs _ _ Hi t _ H) as [Ht (-> & Hin & Hit)]. apply inv_pc; try done.
    intros c g Hc Hci ->. exists (g t). split; [by apply (ci_cell _ _ _ _ _ Hci)|].
    split; [|done]. apply (ci_chain _ _ _ _ _ Hci); try done; ring_lia.
  - by eapply inv_post.
  - pose proof (iv_pcs _ _ Hi t _ H) as [Ht _]. by apply inv_pc.
  - by eapply inv_free.
  - pose proof (iv_pcs _ _ Hi t _ H) as [Ht _]. by apply inv_pc.
Qed.

Lemma elem_of_upto i a k : i ∈ upto a k <-> a <= i < a + Z.of_nat k.
Proof.
  revert a. induction k as [|k IH]; intros a; cbn [upto].
  - rewrite elem_of_nil. lia.
  - rewrite elem_of_cons, IH. lia.
Qed.

Lemma rcu_start_spec k a :
  let s := foldr rcu_thread_init (Rcu 0 ∅ ∅ ∅) (upto a k) in
  num_threads_ s = Z.of_nat k /\ rcu_ s = ∅ /\ rcu_last_posted_ s = ∅ /\
  forall t, pending_ s !! t = if bool_decide (a <= t < a + Z.of_nat k)
                              then Some (fifo_alloc RCU_QUEUE_SCALE) else None.
Proof.
  revert a. induction k as [|k IH]; intros a.
  { split_and!; try done. intros t. rewrite bool_decide_false by lia. apply lookup_empty. }
  specialize (IH (a + 1)). cbn [upto foldr]. destruct (foldr _ _ _) as [n r lp p]. cbn in IH.
  destruct IH as (-> & -> & -> & Hp). unfold rcu_thread_init. cbn [pending_].
  rewrite Hp, bool_decide_false by lia. split_and!; try done; [cbn; lia|].
  intros t. cbn [pending_]. rewrite lookup_insert. case_decide.
  - rewrite bool_decide_true by lia. done.
  - rewrite Hp. repeat case_bool_decide; done || lia.
Qed.

Lemma inv_start n : inv (Z.of_nat n) (cfg_start n).
Proof.
  destruct (rcu_start_spec n 0) as (Hn & Hr & Hlp & Hp).
  split; cbn [st pcs log cfg_start].
  - done.
  - intros t p Hl%elem_of_list_to_map_2. apply list_elem_of_fmap in Hl as (t' & [= -> ->] & Ht).
    apply elem_of_upto in Ht. split; [lia|done].
  - intros c Hc. exists (fun _ => 0). split_and!.
    + split; try done.
      * intros t _. unfold rcu_start. by rewrite Hr.
      * unfold rcu_start. rewrite Hp, bool_decide_true by lia. eexists. split; [done|apply queue_alloc].
    + split; [|done]. intros t _. unfold rcu_start. by rewrite Hlp.
    + intros t p Hl%elem_of_list_to_map_2. by apply list_elem_of_fmap in Hl as (t' & [= -> ->] & Ht).
  - intros [|] ???; done.
Qed.

Lemma inv_reachable n σ : rtc step (cfg_start n) σ -> inv (Z.of_nat n) σ.
Proof.
  intros H. assert (forall σ0, inv (Z.of_nat n) σ0 -> rtc step σ0 σ -> inv (Z.of_nat n) σ) as Hind.
  { intros σ0 H0 Hr. induction Hr; eauto using inv_step. }
  eauto using inv_start.
Qed.

(** C13: the grace period. In every interleaving of [rcu_defer_free] and
    [rcu_update] calls of [n] threads, a block is freed only by the thread that
    deferred it, in the order in which it deferred them, and only after every
    other thread has, since the block was deferred, been inside [rcu_update]
    (passing on a position beyond the block). *)
Theorem rcu_grace_period n σ l1 l2 c x :
  rtc step (cfg_start n) σ -> log σ = l1 ++ EFree c x :: l2 ->
  defers c l2 !! length (frees c l2) = Some x /\
  forall t, 0 <= t < Z.of_nat n -> t <> c ->
    exists l3 l4, l2 = l3 ++ EPost t c :: l4 /\ defers c l4 !! length (frees c l2) = Some x.
Proof.
  intros Hr E. destruct (iv_grace _ _ (inv_reachable _ _ Hr) _ _ _ _ E) as (Hc & Hx & Hp).
  split; [done|]. intros t Ht Hne. destruct (Hp t Ht Hne) as (l3 & l4 & -> & Hv).
  exists l3, l4. split; [done|]. assert (Hpre : defers c l4 `prefix_of` defers c (l3 ++ EPost t c :: l4)).
  { clear. induction l3 as [|e l3 IH]; [done|]. destruct e; simpl; try done.
    destruct (_ =? _); [|done]. by apply prefix_app_r. }
  destruct (lookup_lt_is_Some_2 (defers c l4) (length (frees c (l3 ++ EPost t c :: l4)))) as [y Hy]; [lia|].
  rewrite Hy. f_equal. eapply (prefix_lookup_Some _ _ _ _ Hy) in Hpre. congruence.
Qed.

(** C14: no block is freed twice and none is lost: what thread [c] has freed is a
    prefix of what it has deferred, and its queue holds the rest, fewer than
    2^20 blocks, in order. *)
Theorem rcu_queue_exact n σ c :
  rtc step (cfg_start n) σ -> 0 <= c < Z.of_nat n ->
  exists q rest, pending_ (st σ) !! c = Some q /\ defers c (log σ) = frees c (log σ) ++ rest /\
    len rest < 2 ^ RCU_QUEUE_SCALE /\
    forall k x, rest !! k = Some x ->
      f_x q !! MOD_SCALE (u32 (f_tail q + Z.of_nat k)) (f_scale q) = Some x.
Proof.
  intros Hr Hc. destruct (iv_cols _ _ (inv_reachable _ _ Hr) c Hc) as (g & [_ _ _ _ _ (q & Eq & Hq)] & _ & _).
  destruct Hq as [Hh Ht Hs Hroom [rest E] Hx]. exists q, rest. split_and!; [done..| |].
  - rewrite E, length_app in Hroom. lia.
  - intros k x Hk. rewrite Ht, Hs, u32_add_l, mod_scale_u32, <- Nat2Z.inj_add.
    apply Hx; [|lia]. rewrite E, lookup_app_r by lia. by rewrite Nat.add_comm, Nat.add_sub.
Qed.

(** * The functions are paths of the step relation *)

Definition same_queues (l l' : list event) : Prop :=
  forall c, defers c l' = defers c l /\ frees c l' = frees c l.

Lemma post_iter_steps s p l t next i :
  p !! t = Some (Posting next i) -> i < num_threads_ s ->
  exists l', rtc step (Cfg s p l) (Cfg (rcu_post_iter t next s i) (<[t := Posting next (i + 1)]> p) l') /\
    same_queues l l'.
Proof.
  intros Ep Hi. unfold rcu_post_iter. destruct (Z.eqb_spec i t) as [E|Hne].
  { exists l. split; [apply rtc_once, step_skip; auto|done]. }
  destruct (Z.eqb_spec (cell (rcu_ s) t i) (cell (rcu_last_posted_ s) t i)).
  { exists l. split; [apply rtc_once, step_skip; auto|done]. }
  exists (EPost t i :: l). split; [|done].
  eapply rtc_l; [by apply (step_changed s p l t next i)|].
  eapply rtc_l; [apply (step_read s _ l t next i), lookup_insert_eq|].
  rewrite insert_insert_eq. eapply rtc_l; [eapply step_post, lookup_insert_eq|].
  by rewrite insert_insert_eq.
Qed.

Lemma post_loop_threads t next I s :
  num_threads_ (foldl (rcu_post_iter t next) s I) = num_threads_ s.
Proof.
  revert s. induction I as [|i I IH]; intros s; [done|]. simpl. rewrite IH. unfold rcu_post_iter.
  by repeat case_match.
Qed.

Lemma post_loop_steps k s p l t next i :
  p !! t = Some (Posting next i) -> i + Z.of_nat k = num_threads_ s ->
  exists l', rtc step (Cfg s p l) (Cfg (foldl (rcu_post_iter t next) s (upto i k))
                                       (<[t := Freeing]> p) l') /\ same_queues l l'.
Proof.
  revert s p l i. induction k as [|k IH]; intros s p l i Ep Hk; cbn [upto foldl].
  { exists l. split; [|done]. eapply rtc_once, step_posted; [done|lia]. }
  destruct (post_iter_steps s p l t next i Ep) as (l1 & Hr1 & Hq1); [lia|].
  destruct (IH (rcu_post_iter t next s i) (<[t := Posting next (i + 1)]> p) l1 (i + 1)) as (l2 & Hr2 & Hq2).
  - apply lookup_insert_eq.
  - pose proof (post_loop_threads t next [i] s) as En. simpl in En. lia.
  - rewrite insert_insert_eq in Hr2. exists l2. split; [by etransitivity|].
    intros c. destruct (Hq1 c), (Hq2 c). split; congruence.
Qed.

Lemma free_loop_steps fuel s p l t s' freed :
  rcu_free_loop fuel t s = Some (s', freed) -> p !! t = Some Freeing ->
  exists l', rtc step (Cfg s p l) (Cfg s' (<[t := Idle]> p) l') /\
    (forall c, defers c l' = defers c l) /\
    (forall c, frees c l' = frees c l ++ (if c =? t then freed else [])).
Proof.
  revert s l freed. induction fuel as [|fuel IH]; intros s l freed; cbn [rcu_free_loop]; [done|].
  destruct (pending_ s !! t) as [q|] eqn:Eq; [|done]. intros Hl Ep.
  destruct (Z.eqb_spec (f_tail q) (cell (rcu_ s) t t)) as [E|Hne].
  - simplify_eq. exists l. split_and!; [by eapply rtc_once, step_return|done|].
    intros c. destruct (c =? t); by rewrite app_nil_r.
  - destruct (rcu_free_loop fuel t _) as [[s1 fr]|] eqn:Er; simplify_eq.
    destruct (IH _ (EFree t (fifo_tail q) :: l) _ Er Ep) as (l' & Hr & Hd & Hf).
    exists l'. split_and!; [eapply rtc_l; [by eapply step_free|done]|done|].
    intros c. rewrite Hf. cbn [frees]. rewrite (Z.eqb_sym t c). destruct (c =? t); [|done].
    by rewrite <- app_assoc.
Qed.

Lemma update_steps fuel s p l t s' freed :
  rcu_update fuel t s = Some (s', freed) -> 0 <= num_threads_ s -> p !! t = Some Idle ->
  exists l', rtc step (Cfg s p l) (Cfg s' p l') /\
    (forall c, defers c l' = defers c l) /\
    (forall c, frees c l' = frees c l ++ (if c =? t then freed else [])).
Proof.
  unfold rcu_update. intros Hu Hn Ep.
  destruct (post_loop_steps (Z.to_nat (num_threads_ s)) s
              (<[t := Posting (next_index s t) 0]> p) l t (next_index s t) 0) as (l1 & Hr1 & Hq1);
    [apply lookup_insert_eq|lia|]. rewrite insert_insert_eq in Hr1.
  eapply (free_loop_steps _ _ (<[t := Freeing]> p) l1) in Hu as (l2 & Hr2 & Hd2 & Hf2);
    [|apply lookup_insert_eq]. rewrite insert_insert_eq, (insert_id p t Idle) in Hr2 by done.
  exists l2. split_and!.
  - eapply rtc_l; [by apply step_begin|]. by etransitivity.
  - intros c. rewrite Hd2. apply Hq1.
  - intros c. rewrite Hf2. by rewrite (proj2 (Hq1 c)).
Qed.

(** * Progress *)

(** Calls of [rcu_update] by the given threads, one after the other *)
Fixpoint rcu_updates (fuel : nat) (ts : list Z) (s : rcu_t) : option rcu_t :=
  match ts with
  | [] => Some s
  | t :: ts => match rcu_update fuel t s with Some (s', _) => rcu_updates fuel ts s' | None => None end
  end.

(** The threads after [c] around the ring, [k] of them *)
Fixpoint ring_from (n c : Z) (k : nat) : list Z :=
  match k with O => [] | S k => nxt n c :: ring_from n (nxt n c) k end.

Lemma post_iter_cell t next s i r c :
  t <> next -> cell (rcu_last_posted_ s) t i = cell (rcu_ s) next i ->
  cell (rcu_ (rcu_post_iter t next s i)) r c =
    (if (c =? i) && negb (i =? t) && (r =? next) then cell (rcu_ s) t i else cell (rcu_ s) r c) /\
  (c <> i \/ r <> t -> cell (rcu_last_posted_ (rcu_post_iter t next s i)) r c = cell (rcu_last_posted_ s) r c) /\
  pending_ (rcu_post_iter t next s i) = pending_ s.
Proof.
  intros Htn Hlp. unfold rcu_post_iter. destruct (Z.eqb_spec i t) as [->|Hit]; cbn [negb].
  { by rewrite andb_false_r. }
  rewrite andb_true_r. destruct (Z.eqb_spec (cell (rcu_ s) t i) (cell (rcu_last_posted_ s) t i)) as [E|].
  - split_and!; try done. destruct (Z.eqb_spec c i) as [->|], (Z.eqb_spec r next) as [->|]; simpl; congruence.
  - cbn [rcu_ rcu_last_posted_ post pending_]. split_and!; [| |done].
    + destruct (Z.eqb_spec c i) as [->|]; [by rewrite cell_insert|by rewrite cell_insert_ne by congruence].
    + intros [?|?]; [by rewrite cell_insert_ne by congruence|]. unfold cell. rewrite lookup_insert_ne; congruence.
Qed.

(** The posting loop copies the row of [t] to its successor, its own column
    excepted. *)
Lemma post_loop_cell t next I s :
  t <> next -> NoDup I -> (forall i, i ∈ I -> cell (rcu_last_posted_ s) t i = cell (rcu_ s) next i) ->
  let s' := foldl (rcu_post_iter t next) s I in
  (forall r c, cell (rcu_ s') r c =
     if bool_decide (c ∈ I /\ c <> t /\ r = next) then cell (rcu_ s) t c else cell (rcu_ s) r c) /\
  (forall r c, r <> t -> cell (rcu_last_posted_ s') r c = cell (rcu_last_posted_ s) r c) /\
  pending_ s' = pending_ s.
Proof.
  intros Htn. revert s. induction I as [|i I IH]; intros s Hnd Hlp; cbn [foldl].
  { done. }
  apply NoDup_cons in Hnd as [Hi Hnd].
  pose proof (fun r c => post_iter_cell t next s i r c Htn (Hlp i ltac:(left))) as Hit.
  destruct (IH (rcu_post_iter t next s i)) as (H1 & H2 & H3); [done|..].
  { intros j Hj. assert (j <> i) by congruence. destruct (Hit t j) as (_ & -> & _); [|by left].
    destruct (Hit next j) as (-> & _ & _). rewrite (proj2 (Z.eqb_neq j i)) by done. apply Hlp. by right. }
  split_and!.
  - intros r c. rewrite H1, !(proj1 (Hit _ _)). rewrite (proj2 (Z.eqb_neq t next)), andb_false_r by done.
    destruct (Z.eqb_spec c i) as [->|Hne]; simpl.
    + rewrite bool_decide_false by naive_solver. destruct (Z.eqb_spec i t), (Z.eqb_spec r next); simpl;
        case_bool_decide as Hb; try done; set_solver.
    + repeat case_bool_decide; try done; set_solver.
  - intros r c Hr. rewrite H2 by done. apply Hit. by right.
  - rewrite H3. apply (Hit 0 0).
Qed.

Lemma upto_NoDup i k : NoDup (upto i k).
Proof.
  revert i. induction k as [|k IH]; intros i; cbn [upto]; constructor; [|done].
  rewrite elem_of_upto. lia.
Qed.

Lemma free_loop_total n c fuel s l g :
  col_inv n c s l g -> 0 <= c < n -> g c - len (frees c l) < Z.of_nat fuel ->
  exists s' freed q, rcu_free_loop fuel c s = Some (s', freed) /\ pending_ s' !! c = Some q /\
    f_tail q = cell (rcu_ s) c c /\ rcu_ s' = rcu_ s /\ rcu_last_posted_ s' = rcu_last_posted_ s.
Proof.
  revert s l. induction fuel as [|fuel IH]; intros s l Hi Hc Hf; pose proof (ci_freed _ _ _ _ _ Hi); [lia|].
  cbn [rcu_free_loop]. destruct (ci_queue _ _ _ _ _ Hi) as (q & Eq & Hq). rewrite Eq.
  destruct (Z.eqb_spec (f_tail q) (cell (rcu_ s) c c)) as [E|Hne]; [by exists s, [], q|].
  destruct (col_inv_pop _ _ _ _ _ _ Hi Hc Eq Hne) as (_ & _ & Hi2).
  destruct (IH _ _ Hi2 Hc) as (s' & fr & q' & E & Eq' & Et & Er & El).
  { cbn [frees]. rewrite Z.eqb_refl, length_app. simpl. lia. }
  exists s', (fifo_tail q :: fr), q'. rewrite E. done.
Qed.

Lemma reach_dom n σ t : rtc step (cfg_start n) σ -> 0 <= t < Z.of_nat n -> is_Some (pcs σ !! t).
Proof.
  intros Hr Ht. assert (is_Some (pcs (cfg_start n) !! t)) as H0.
  { cbn [pcs cfg_start]. exists Idle. apply elem_of_list_to_map_1.
    - rewrite <- list_fmap_compose. unfold compose. rewrite list_fmap_id. apply upto_NoDup.
    - apply list_elem_of_fmap. exists t. split; [done|]. apply elem_of_upto. lia. }
  revert H0. induction Hr as [|σ1 σ2 σ3 Hs _ IH]; [done|]. intros H0. apply IH.
  destruct Hs; cbn [pcs] in *; try done; rewrite lookup_insert; case_decide; eauto.
Qed.

Lemma inv_rtc n σ σ' : inv n σ -> rtc step σ σ' -> inv n σ'.
Proof. intros Hi Hr. induction Hr; eauto using inv_step. Qed.

Definition all_idle (n : Z) (p : gmap Z pc) : Prop := forall t, 0 <= t < n -> p !! t = Some Idle.

(** A whole call of [rcu_update]: it returns, the successor learns what the caller
    knew about the other queues, and the caller's queue is freed up to the
    position that has come round. *)
Lemma update_total n fuel s p l t :
  inv n (Cfg s p l) -> p !! t = Some Idle -> 0 <= t < n -> 2 ^ RCU_QUEUE_SCALE < Z.of_nat fuel ->
  exists s' fr l' q, rcu_update fuel t s = Some (s', fr) /\ inv n (Cfg s' p l') /\
    (rtc step (Cfg s p l) (Cfg s' p l') /\ (forall c, defers c l' = defers c l) /\
     forall c, frees c l' = frees c l ++ (if c =? t then fr else [])) /\
    (forall c, 0 <= c < n -> c <> t -> cell (rcu_ s') (nxt n t) c = cell (rcu_ s) t c) /\
    (forall r c, r <> nxt n t \/ c = t -> cell (rcu_ s') r c = cell (rcu_ s) r c) /\
    pending_ s' !! t = Some q /\ f_tail q = cell (rcu_ s') t t.
Proof.
  intros Hi Hid Ht Hfuel. pose proof (iv_threads _ _ Hi : num_threads_ s = n) as Hn.
  set (s1 := foldl (rcu_post_iter t (nxt n t)) s (upto 0 (Z.to_nat n))).
  destruct (post_loop_steps (Z.to_nat n) s (<[t := Posting (nxt n t) 0]> p) l t (nxt n t) 0)
    as (l1 & Hr1 & _); [apply lookup_insert_eq|lia|]. fold s1 in Hr1. rewrite insert_insert_eq in Hr1.
  assert (Hi1 : inv n (Cfg s1 (<[t := Freeing]> p) l1)).
  { eapply inv_rtc; [exact Hi|]. eapply rtc_l; [apply (step_begin s p l t); auto|].
    unfold next_index. by rewrite Hn, next_nxt. }
  destruct (iv_cols _ _ Hi1 t Ht) as (g & Hci & _). cbn [st log] in Hci.
  pose proof (col_inv_all _ _ _ _ _ t Hci Ht Ht) as Hle.
  destruct (ci_queue _ _ _ _ _ Hci) as (q0 & _ & [_ _ _ Hroom _ _]).
  destruct (free_loop_total n t fuel s1 l1 g Hci Ht) as (s' & fr & q & E & Eq & Et & Er & _); [lia|].
  assert (Eu : rcu_update fuel t s = Some (s', fr)).
  { unfold rcu_update, next_index. rewrite Hn, next_nxt by done. exact E. }
  destruct (update_steps fuel s p l t s' fr Eu) as (l' & Hr & Hd & Hf); [lia|auto|].
  exists s', fr, l', q. split; [done|]. split; [by apply (inv_rtc _ _ _ Hi)|]. split; [done|]. split_and!; [..|done|by rewrite Et, Er]; rewrite Er.
  - intros c Hc Hne. destruct (post_loop_cell t (nxt n t) (upto 0 (Z.to_nat n)) s) as (Hcell & _).
    + ring_lia.
    + apply upto_NoDup.
    + intros i Hin%elem_of_upto. destruct (iv_cols _ _ Hi i) as (g' & Hci' & Hlag & _); [lia|].
      rewrite (li_cell _ _ _ _ _ Hlag), (ci_cell _ _ _ _ _ Hci'); [done|ring_lia|done].
    + unfold s1. rewrite Hcell, bool_decide_true; [done|]. rewrite elem_of_upto. split_and!; [lia|lia|done|done].
  - intros r c Hrc. unfold s1. clear -Hrc Ht. generalize (upto 0 (Z.to_nat n)). intros I. revert s.
    induction I as [|i I IH]; intros s; [done|]. cbn [foldl]. rewrite IH. unfold rcu_post_iter.
    destruct (Z.eqb_spec i t); [done|]. destruct (_ =? _); [done|]. cbn [rcu_ post].
    destruct (decide (c = i)) as [->|]; [|by rewrite cell_insert_ne by congruence].
    rewrite cell_insert. destruct (Z.eqb_spec r (nxt n t)); [|done]. destruct Hrc; congruence.
Qed.

(** C16: [rcu_update] returns, from every reachable state in which its thread is outside and the
    others are anywhere, with fuel for one queue. A call that no other thread interrupts is a path of
    the step relation from outside to outside, so that the theorems about interleavings cover
    the function as it is written; the blocks it frees are the next ones its thread has deferred, up
    to the position in the thread's own entry of [rcu_]. *)
Theorem rcu_update_refines_steps n σ t fuel :
  rtc step (cfg_start n) σ -> pcs σ !! t = Some Idle -> 2 ^ RCU_QUEUE_SCALE < Z.of_nat fuel ->
  exists s' freed l', rcu_update fuel t (st σ) = Some (s', freed) /\ rtc step σ (Cfg s' (pcs σ) l') /\
    (forall c, defers c l' = defers c (log σ)) /\
    (forall c, frees c l' = frees c (log σ) ++ (if c =? t then freed else [])) /\
    frees t l' `prefix_of` defers t (log σ) /\ u32 (len (frees t l')) = cell (rcu_ (st σ)) t t.
Proof.
  intros Hr Hid Hfuel. pose proof (inv_reachable _ _ Hr) as Hi. destruct σ as [s p l]. cbn [st pcs log] in *.
  destruct (iv_pcs _ _ Hi _ _ Hid) as [Ht _].
  destruct (update_total _ fuel s p l t Hi Hid Ht Hfuel) as (s' & fr & l' & q & E & Hi' & (Hs & Hd & Hf) & _ & Hc & Eq & Et).
  exists s', fr, l'. split_and!; [done..| |].
  - destruct (iv_cols _ _ Hi' t Ht) as (g & [_ _ _ _ _ (q' & _ & Hq)] & _). rewrite <- Hd. apply Hq.
  - destruct (iv_cols _ _ Hi' t Ht) as (g & [_ _ _ _ _ (q' & Eq' & Hq)] & _). cbn [st log] in *.
    assert (q' = q) as -> by congruence. rewrite <- (qo_tail _ _ _ Hq), Et. apply Hc. by right.
Qed.

Lemma round_loop n c fuel k a s p l :
  inv n (Cfg s p l) -> all_idle n p -> 0 <= c < n -> 0 <= a < n -> 2 ^ RCU_QUEUE_SCALE < Z.of_nat fuel ->
  Z.of_nat k = (if a =? c then n else n - 1 - rank n c a) ->
  cell (rcu_ s) (nxt n a) c = cell (rcu_ s) (nxt n c) c ->
  exists s' l' q, rcu_updates fuel (ring_from n a k) s = Some s' /\ inv n (Cfg s' p l') /\
    pending_ s' !! c = Some q /\ f_tail q = cell (rcu_ s') (nxt n c) c /\ f_tail q = cell (rcu_ s') c c.
Proof.
  revert a s l. induction k as [|k IH]; intros a s l Hi Hid Hc Ha Hfuel Hk Hv; [exfalso; ring_lia|].
  cbn [ring_from rcu_updates]. assert (Ha' : 0 <= nxt n a < n) by ring_lia.
  destruct (update_total n fuel s p l (nxt n a) Hi (Hid _ Ha') Ha' Hfuel) as (s' & fr & l' & q & -> & Hi' & _ & H1 & H2 & Eq & Et).
  destruct (decide (nxt n a = c)) as [E|Hne].
  - assert (k = 0%nat) as -> by ring_lia. cbn [rcu_updates]. rewrite E in *.
    exists s', l', q. split_and!; try done. by rewrite Et, !H2, Hv by auto.
  - apply (IH _ _ l'); try done; [ring_lia|].
    rewrite H1 by done. rewrite (H2 (nxt n c)), <- Hv; [done|]. left. intros E%nxt_inj; done || ring_lia.
Qed.

(** C15: progress. Whatever has happened, once every thread has returned, one call
    of [rcu_update] by each of them around the ring, the owner [c] last, returns
    and leaves fewer than [RCU_POST_THRESHOLD] blocks of [c] unfreed. *)
Theorem rcu_round_frees n σ c fuel :
  rtc step (cfg_start n) σ -> (forall t p, pcs σ !! t = Some p -> p = Idle) -> 0 <= c < Z.of_nat n ->
  2 ^ RCU_QUEUE_SCALE < Z.of_nat fuel ->
  exists s' q, rcu_updates fuel (ring_from (Z.of_nat n) c n) (st σ) = Some s' /\
    pending_ s' !! c = Some q /\ u32 (f_head q - f_tail q) < RCU_POST_THRESHOLD.
Proof.
  intros Hr Hid Hc Hfuel. pose proof (inv_reachable _ _ Hr) as Hi. destruct σ as [s p l]. cbn [st pcs] in *.
  destruct (round_loop (Z.of_nat n) c fuel n c s p l) as (s' & l' & q & E & Hi' & Eq & Ev & Et); try done.
  { intros t Ht. destruct (reach_dom _ _ t Hr Ht) as [x Hx]. cbn [pcs] in Hx. by rewrite (Hid _ _ Hx) in Hx. }
  { by rewrite Z.eqb_refl. }
  exists s', q. split_and!; [done..|].
  destruct (iv_cols _ _ Hi' c Hc) as (g & Hci & [_ Hlag] & _). cbn [st log] in *.
  assert (Hn : 0 <= nxt (Z.of_nat n) c < Z.of_nat n) by ring_lia.
  pose proof (chain_last _ _ _ _ (ci_chain _ _ _ _ _ Hci) Hc Hn) as Hch.
  destruct Hci as [Hcell _ Hfr Hhd _ (q' & Eq' & Hq)]. assert (q' = q) as -> by congruence.
  destruct Hq as [Hqh Hqt _ Hroom _ _]. rewrite Hcell, Hqt in Ev by done.
  rewrite Hqh, Hqt. unfold RCU_POST_THRESHOLD, RCU_QUEUE_SCALE, u32 in *. zlia.
Qed.

(** The queue is bounded: a thread that defers without any thread calling
    [rcu_update] fails the assertion of [rcu_defer_free] on its 2^20-th block. *)
Theorem rcu_defer_free_full q D F t x s :
  queue_ok q D F -> pending_ s !! t = Some q -> x <> 0 ->
  rcu_defer_free t x s = None <-> len D - len F = 2 ^ RCU_QUEUE_SCALE - 1.
Proof.
  intros [Hh Ht Hs Hr Hp _] Eq Hx. unfold rcu_defer_free. rewrite (proj2 (Z.eqb_neq x 0)), Eq by done.
  assert (Hle : len F <= len D) by (apply prefix_length in Hp; lia).
  assert (Ef : fifo_full q = true <-> len D - len F = 2 ^ RCU_QUEUE_SCALE - 1).
  { unfold fifo_full. rewrite Z.eqb_eq, Hs, Hh, Ht, u32_add_l, !mod_scale_u32.
    unfold RCU_QUEUE_SCALE in *. split; intros; zlia. }
  destruct (fifo_full q); [tauto|]. destruct (_ <=? _); split; intros E; try done; apply Ef in E; done.
Qed.

(** * Running schedules *)

(** A scheduler's choice: thread [t] calls [rcu_defer_free x], calls [rcu_update],
    or performs the next step of the call it is in. *)
Inductive choice := Defer (t x : Z) | Update (t : Z) | Continue (t : Z).

Definition exec1 (σ : config) (a : choice) : option config :=
  let s := st σ in
  match a with
  | Defer t x =>
      match pcs σ !! t, rcu_defer_free t x s with
      | Some Idle, Some s' => Some (Cfg s' (pcs σ) (EDefer t x :: log σ))
      | _, _ => None
      end
  | Update t =>
      match pcs σ !! t with
      | Some Idle => Some (Cfg s (<[t := Posting (next_index s t) 0]> (pcs σ)) (log σ))
      | _ => None
      end
  | Continue t =>
      match pcs σ !! t with
      | Some (Posting next i) =>
          if num_threads_ s <=? i then Some (Cfg s (<[t := Freeing]> (pcs σ)) (log σ))
          else if (i =? t) || (cell (rcu_ s) t i =? cell (rcu_last_posted_ s) t i)
          then Some (Cfg s (<[t := Posting next (i + 1)]> (pcs σ)) (log σ))
          else Some (Cfg s (<[t := Changed next i]> (pcs σ)) (log σ))
      | Some (Changed next i) =>
          Some (Cfg s (<[t := Holding next i (cell (rcu_ s) t i)]> (pcs σ)) (log σ))
      | Some (Holding next i x) =>
          Some (Cfg (post s t next i x) (<[t := Posting next (i + 1)]> (pcs σ)) (EPost t i :: log σ))
      | Some Freeing =>
          match pending_ s !! t with
          | Some q =>
              if f_tail q =? cell (rcu_ s) t t then Some (Cfg s (<[t := Idle]> (pcs σ)) (log σ))
              else Some (Cfg (set_fifo s t (fifo_pop q)) (pcs σ) (EFree t (fifo_tail q) :: log σ))
          | None => None
          end
      | _ => None
      end
  end.

Fixpoint exec (σ : config) (l : list choice) : option config :=
  match l with
  | [] => Some σ
  | a :: l => match exec1 σ a with Some σ' => exec σ' l | None => None end
  end.

Lemma exec1_step σ a σ' : exec1 σ a = Some σ' -> step σ σ'.
Proof.
  destruct σ as [s p l]. unfold exec1. destruct a as [t x|t|t]; cbn [st pcs log].
  - destruct (p !! t) as [[]|] eqn:E; try done. destruct (rcu_defer_free t x s) eqn:Ed; try done.
    intros [= <-]. by constructor.
  - destruct (p !! t) as [[]|] eqn:E; try done. intros [= <-]. by constructor.
  - destruct (p !! t) as [[| | | |]|] eqn:E; try done.
    + destruct (Z.leb_spec (num_threads_ s) i); [intros [= <-]; by eapply step_posted|].
      destruct (_ || _) eqn:Eb; intros [= <-].
      * apply orb_true_iff in Eb. rewrite !Z.eqb_eq in Eb. by apply step_skip.
      * apply orb_false_iff in Eb. rewrite !Z.eqb_neq in Eb. destruct Eb. by apply step_changed.
    + intros [= <-]. by constructor.
    + intros [= <-]. by constructor.
    + destruct (pending_ s !! t) as [q|] eqn:Eq; [|done].
      destruct (Z.eqb_spec (f_tail q) (cell (rcu_ s) t t)); intros [= <-].
      * by eapply step_return.
      * by apply step_free.
Qed.

Lemma exec_steps σ l σ' : exec σ l = Some σ' -> rtc step σ σ'.
Proof.
  revert σ. induction l as [|a l IH]; intros σ; cbn [exec]; [by intros [= <-]|].
  destruct (exec1 σ a) as [σ1|] eqn:E; [|done]. intros ?%IH. eapply rtc_l; [by eapply exec1_step|done].
Qed.

(** Two threads: thread 0 defers ten blocks, thread 1 passes the position on,
    thread 0 frees two of them. *)
Definition ex_schedule : list choice :=
  (Defer 0 <$> upto 100 10) ++ [Update 1] ++ replicate 6 (Continue 1) ++ [Update 0] ++ replicate 5 (Continue 0).

Definition ex_run : config := default (cfg_start 0) (exec (cfg_start 2) ex_schedule).

Lemma ex_run_reachable : rtc step (cfg_start 2) ex_run.
Proof. apply (exec_steps _ ex_schedule). by vm_compute. Qed.

Definition ex_log : list event := EPost 1 0 :: (EDefer 0 <$> rev (upto 100 10)).

Lemma rcu_grace_period_witness :
  log ex_run = [] ++ EFree 0 101 :: EFree 0 100 :: ex_log /\
  forall t, 0 <= t < 2 -> t <> 0 ->
    exists l3 l4, EFree 0 100 :: ex_log = l3 ++ EPost t 0 :: l4 /\ defers 0 l4 !! 1%nat = Some 101.
Proof.
  assert (E : log ex_run = [] ++ EFree 0 101 :: EFree 0 100 :: ex_log) by (by vm_compute).
  split; [exact E|].
  exact (proj2 (rcu_grace_period 2 ex_run [] (EFree 0 100 :: ex_log) 0 101 ex_run_reachable E)).
Defined.

Lemma rcu_queue_exact_witness :
  exists q rest, pending_ (st ex_run) !! 0 = Some q /\ defers 0 (log ex_run) = frees 0 (log ex_run) ++ rest /\
    len rest < 2 ^ RCU_QUEUE_SCALE /\
    forall k x, rest !! k = Some x ->
      f_x q !! MOD_SCALE (u32 (f_tail q + Z.of_nat k)) (f_scale q) = Some x.
Proof. apply (rcu_queue_exact 2 ex_run 0); [apply ex_run_reachable|lia]. Defined.

(** Thread 0 has deferred ten blocks, thread 1 has passed the position on and is in another call. *)
Definition ex_passed : config :=
  default (cfg_start 0) (exec (cfg_start 2) ((Defer 0 <$> upto 100 10) ++ [Update 1] ++ replicate 6 (Continue 1) ++ [Update 1])).

Lemma ex_passed_reachable : rtc step (cfg_start 2) ex_passed.
Proof.
  apply (exec_steps _ ((Defer 0 <$> upto 100 10) ++ [Update 1] ++ replicate 6 (Continue 1) ++ [Update 1])). by vm_compute.
Qed.

Lemma rcu_update_refines_steps_witness : frees 0 (log ex_passed) = [] /\ pcs ex_passed !! 1 = Some (Posting 0 0) /\
  exists s' freed l', rcu_update (Z.to_nat (2 ^ 20 + 1)) 0 (st ex_passed) = Some (s', freed) /\
    rtc step ex_passed (Cfg s' (pcs ex_passed) l') /\ frees 0 l' = freed /\ freed `prefix_of` upto 100 10 /\
    u32 (len freed) = 10.
Proof.
  split; [by vm_compute|]. split; [by vm_compute|].
  destruct (rcu_update_refines_steps 2 ex_passed 0 (Z.to_nat (2 ^ 20 + 1)) ex_passed_reachable)
    as (s' & freed & l' & E & Hr & _ & Hf & Hp & Hc); [by vm_compute|rewrite Z2Nat.id by done; unfold RCU_QUEUE_SCALE; lia|].
  assert (frees 0 (log ex_passed) = []) as E0 by (by vm_compute).
  assert (defers 0 (log ex_passed) = upto 100 10) as Ed by (by vm_compute).
  assert (cell (rcu_ (st ex_passed)) 0 0 = 10) as Ec by (by vm_compute).
  specialize (Hf 0). rewrite E0 in Hf. simpl in Hf. rewrite Hf, Ed in Hp. rewrite Hf, Ec in Hc.
  exists s', freed, l'. by split_and!.
Defined.

(** Thread 0 has deferred ten blocks, and both threads are idle. *)
Definition ex_deferred : config := default (cfg_start 0) (exec (cfg_start 2) (Defer 0 <$> upto 100 10)).

Lemma rcu_round_frees_witness :
  option_map (fun q => u32 (f_head q - f_tail q)) (pending_ (st ex_deferred) !! 0) = Some 10 /\
  exists s' q,
    rcu_updates (Z.to_nat (2 ^ 20 + 1)) (ring_from 2 0 2) (st ex_deferred) = Some s' /\
    pending_ s' !! 0 = Some q /\ u32 (f_head q - f_tail q) < RCU_POST_THRESHOLD.
Proof.
  split; [by vm_compute|]. apply (rcu_round_frees 2 ex_deferred 0); [|..|lia|].
  - apply (exec_steps _ (Defer 0 <$> upto 100 10)). by vm_compute.
  - assert (pcs ex_deferred = pcs (cfg_start 2)) as -> by (vm_compute; reflexivity).
    intros t p. cbn [pcs cfg_start]. intros Hl%elem_of_list_to_map_2.
    by apply list_elem_of_fmap in Hl as (? & [= _ ->] & _).
  - rewrite Z2Nat.id by done. unfold RCU_QUEUE_SCALE. lia.
Defined.

Lemma rcu_defer_free_full_witness :
  rcu_defer_free 0 5 (rcu_start 2) = None <-> len (@nil Z) - len (@nil Z) = 2 ^ RCU_QUEUE_SCALE - 1.
Proof.
  apply (rcu_defer_free_full (fifo_alloc RCU_QUEUE_SCALE)); [apply queue_alloc|by vm_compute|done].
Defined.
