(* ===== verification/Carray.v ===== *)
(** The arrays with a bound of [common/carray.h], and the memory that the bounded queue and the
    bounded stack ask for: enough for their elements as long as the size does not wrap. *)
From S2P Require Import Prelude.

(** [sizeof(ARRAY_VAR(_type))] for a type of alignment [align], a power of two: the bound, and
    padding up to the first element. Also the offset of the elements. *)
Definition ARRAY_VAR (align : Z) : Z := Z.max 8 align.

(** [sizeof(ARRAY_VAR(_type)) + (_bound) * sizeof(_type)], in [size_t] *)
Definition ARRAY_SIZE (align esize bound : Z) : Z := u64 (ARRAY_VAR align + u64 (bound * esize)).

(** The argument of [malloc] in [clifo_alloc] and [cfifo_alloc] on a 64-bit machine: their
    structures end with such an array, and have 16 and 40 bytes; a node of the stack has 16
    bytes, one of the queue 8, and the queue has one node more. *)
Definition clifo_bytes (size : Z) : Z := u64 (16 + ARRAY_SIZE 8 16 size).
Definition cfifo_bytes (size : Z) : Z := u64 (40 + ARRAY_SIZE 8 8 (u64 (size + 1))).

(** The end of element [i] of the array at the end of a structure of [hdr] bytes. *)
Definition element_end (hdr esize i : Z) : Z := hdr + (i + 1) * esize.

Lemma ARRAY_SIZE_small align esize bound : 0 <= bound -> 0 <= esize ->
  ARRAY_VAR align + bound * esize < 2 ^ 64 -> ARRAY_SIZE align esize bound = ARRAY_VAR align + bound * esize.
Proof.
  intros Hb He Hs. unfold ARRAY_SIZE, ARRAY_VAR in *. rewrite (u64_small (bound * esize)) by nia.
  apply u64_small. nia.
Qed.

(** The elements fit, with eight bytes to spare. *)
Lemma containers_fit size i :
  (0 <= i < size -> size < 2 ^ 60 - 1 -> element_end 16 16 i + 8 <= clifo_bytes size) /\
  (0 <= i < size + 1 -> size < 2 ^ 61 - 7 -> element_end 40 8 i + 8 <= cfifo_bytes size).
Proof.
  unfold clifo_bytes, cfifo_bytes, element_end. split; intros Hi Hs.
  - rewrite ARRAY_SIZE_small by (unfold ARRAY_VAR; lia). unfold ARRAY_VAR. rewrite u64_small; lia.
  - rewrite (u64_small (size + 1)) by lia. rewrite ARRAY_SIZE_small by (unfold ARRAY_VAR; lia).
    unfold ARRAY_VAR. rewrite u64_small; lia.
Qed.

Lemma u64_wraps y : 2 ^ 64 <= y -> u64 y <= y - 2 ^ 64.
Proof. intros Hy. zlia. Qed.

Lemma u64_nested a b c : u64 (a + u64 (b + u64 c)) = u64 (a + b + c).
Proof. rewrite (Z.add_comm b), u64_add_l, (Z.add_comm a), u64_add_l. f_equal. lia. Qed.

(** From 2^60 - 1 nodes (2^61 - 7 for the queue) on the number of bytes wraps, and the last
    element lies beyond what is allocated; just there, not even the first one fits. *)
Lemma containers_wrap :
  clifo_bytes (2 ^ 60 - 1) = 8 /\ cfifo_bytes (2 ^ 61 - 7) = 0 /\
  (forall size, 2 ^ 60 - 1 <= size < 2 ^ 64 -> clifo_bytes size < element_end 16 16 (size - 1)) /\
  (forall size, 2 ^ 61 - 7 <= size < 2 ^ 64 - 1 -> cfifo_bytes size < element_end 40 8 size).
Proof.
  split; [done|]. split; [done|]. unfold clifo_bytes, cfifo_bytes, element_end, ARRAY_SIZE, ARRAY_VAR.
  split; intros size Hs; rewrite u64_nested.
  - pose proof (u64_wraps (16 + Z.max 8 8 + size * 16)). lia.
  - rewrite (u64_small (size + 1)) by lia. pose proof (u64_wraps (40 + Z.max 8 8 + (size + 1) * 8)). lia.
Qed.
