(* ===== verification/Cfifo.v ===== *)
(** The bounded multi-producer queue of [fifo/cfifo.c]: each operation as an
    automaton whose transitions are the atomic accesses of the code, their
    sequential refinement of a bounded queue, the order of the values and the
    results of the calls under every interleaving with one consumer, the schedule of
    two consumers that breaks it, and one in which an empty queue is reported full. *)
From S2P Require Import Prelude.

(** [cfifo_s]: [head], [tail], [sentinel] and [used] are [size_t] counters;
    [buffer] holds the written slots. *)
Record cfifo_s := Cfifo {
  head : Z;
  tail : Z;
  sentinel : Z;
  used : Z;
  bound : Z;
  buffer : gmap Z Z;
}.

Definition cfifo_alloc (size : Z) : cfifo_s := Cfifo 0 0 0 0 (u64 (size + 1)) ∅.

Definition cfifo_size (f : cfifo_s) : Z := used f.

(** Where a call is, with its local variables, named after the access it performs
    next; [Returned] carries the value returned. *)
Inductive fpc :=
  | PushLoadTail (value : Z)
  | PushLoadHead (value tail : Z)
  | PushCasTail (value tail head : Z)
  | PushStore (value tail : Z)
  | PushCasSentinel (tail : Z)
  | PushCount
  | PopLoadSentinel
  | PopLoadHead (sentinel : Z)
  | PopRead (head : Z)
  | PopCasHead (head value : Z)
  | PopCount (value : Z)
  | Returned (ret : Z).

Definition cfifo_push (value : Z) : fpc := PushLoadTail value.

Definition cfifo_pop : fpc := PopLoadSentinel.

Definition slot (f : cfifo_s) (i : Z) : Z := i mod bound f.

Definition set_tail (f : cfifo_s) (x : Z) := Cfifo (head f) x (sentinel f) (used f) (bound f) (buffer f).
Definition set_head (f : cfifo_s) (x : Z) := Cfifo x (tail f) (sentinel f) (used f) (bound f) (buffer f).
Definition set_sentinel (f : cfifo_s) (x : Z) := Cfifo (head f) (tail f) x (used f) (bound f) (buffer f).
Definition set_used (f : cfifo_s) (x : Z) := Cfifo (head f) (tail f) (sentinel f) x (bound f) (buffer f).
Definition set_slot (f : cfifo_s) (i x : Z) :=
  Cfifo (head f) (tail f) (sentinel f) (used f) (bound f) (<[slot f i := x]> (buffer f)).

(** One atomic access of [cfifo_push] or [cfifo_pop] *)
Definition fstep (f : cfifo_s) (p : fpc) : cfifo_s * fpc :=
  match p with
  | PushLoadTail v => (f, PushLoadHead v (tail f))
  | PushLoadHead v t =>
      if slot f (u64 (t + 1)) =? slot f (head f) then (f, Returned (-1))
      else (f, PushCasTail v t (head f))
  | PushCasTail v t _ =>
      if tail f =? t then (set_tail f (u64 (t + 1)), PushStore v t) else (f, PushLoadTail v)
  | PushStore v t => (set_slot f t v, PushCasSentinel t)
  | PushCasSentinel t =>
      if sentinel f =? t then (set_sentinel f (u64 (t + 1)), PushCount) else (f, PushCasSentinel t)
  | PushCount => (set_used f (u64 (used f + 1)), Returned 0)
  | PopLoadSentinel => (f, PopLoadHead (sentinel f))
  | PopLoadHead s =>
      if slot f (head f) =? slot f s then (f, Returned 0) else (f, PopRead (head f))
  | PopRead h => (f, PopCasHead h (default 0 (buffer f !! slot f h)))
  | PopCasHead h v =>
      if head f =? h then (set_head f (u64 (h + 1)), PopCount v) else (f, PopLoadSentinel)
  | PopCount v => (set_used f (u64 (used f - 1)), Returned v)
  | Returned r => (f, Returned r)
  end.

(** A call that runs alone *)
Fixpoint frun (fuel : nat) (f : cfifo_s) (p : fpc) : option (Z * cfifo_s) :=
  match p with
  | Returned r => Some (r, f)
  | _ => match fuel with
         | O => None
         | S fuel => let '(f', p') := fstep f p in frun fuel f' p'
         end
  end.

Lemma frun_S fuel f p : frun (S fuel) f p = frun fuel (fstep f p).1 (fstep f p).2.
Proof. destruct p; simpl; try by destruct (_ =? _). all: by destruct fuel. Qed.

Lemma frun_ret fuel f r : frun fuel f (Returned r) = Some (r, f).
Proof. by destruct fuel. Qed.

#[global] Arguments frun : simpl never.

(** Perform the next access of a call that runs alone. *)
Ltac fnext := rewrite frun_S; cbn [fstep fst snd].

Ltac fcbn :=
  cbn [set_used set_sentinel set_slot set_tail set_head head tail sentinel used bound buffer] in *.

(** * Sequential behaviour: a bounded queue *)

(** [f] holds the values of [q], oldest first. *)
Record fifo_rep (f : cfifo_s) (q : list Z) : Prop := {
  fr_bound : 0 < bound f;
  fr_head : 0 <= head f;
  fr_tail : tail f = head f + Z.of_nat (length q);
  fr_sentinel : sentinel f = tail f;
  fr_used : used f = Z.of_nat (length q);
  fr_room : Z.of_nat (length q) < bound f;
  fr_wrap : tail f + 1 < 2 ^ 64;
  fr_slots : forall k x, q !! k = Some x -> buffer f !! slot f (head f + Z.of_nat k) = Some x;
}.

(** Two positions less than a turn apart share a slot only if they are equal. *)
Lemma slot_inj n i j : 0 < n -> i mod n = j mod n -> -n < i - j < n -> i = j.
Proof.
  intros Hn E Hij. rewrite (Z.div_mod i n), (Z.div_mod j n), E in Hij |- * by lia.
  assert (i / n = j / n) as ->; [nia|lia].
Qed.

Lemma fifo_rep_alloc size : 0 <= size < 2 ^ 64 - 1 -> fifo_rep (cfifo_alloc size) [].
Proof. intros Hs. split; cbn; rewrite ?u64_small by lia; try lia. done. Qed.

Lemma slot_eqb f i j : 0 < bound f -> -bound f < i - j < bound f -> (slot f i =? slot f j) = (i =? j).
Proof.
  intros Hb Hij. unfold slot. destruct (Z.eqb_spec (i mod bound f) (j mod bound f)) as [E|Hne].
  - symmetry. apply Z.eqb_eq. by apply (slot_inj (bound f)).
  - symmetry. apply Z.eqb_neq. by intros ->.
Qed.

(** The full test: the new tail would meet the head. *)
Lemma full_test f q :
  fifo_rep f q ->
  (slot f (u64 (tail f + 1)) =? slot f (head f)) = (Z.of_nat (length q) + 1 =? bound f).
Proof.
  intros [Hb Hh Ht _ _ Hr Hw _]. rewrite u64_small by lia.
  destruct (Z.eqb_spec (Z.of_nat (length q) + 1) (bound f)) as [E|Hne].
  - apply Z.eqb_eq. unfold slot. replace (tail f + 1) with (head f + 1 * bound f) by lia.
    by rewrite Z_mod_plus_full.
  - rewrite slot_eqb by lia. apply Z.eqb_neq. lia.
Qed.

(** [cfifo_push] run alone appends the value and returns 0, or returns -1 and
    changes nothing when the queue already holds as many values as it was
    allocated for. *)
Theorem cfifo_push_refines f q v fuel :
  fifo_rep f q -> (7 <= fuel)%nat ->
  exists f', frun fuel f (cfifo_push v) =
      Some (if Z.of_nat (length q) + 1 =? bound f then -1 else 0, f') /\
    bound f' = bound f /\
    (tail f + 2 < 2 ^ 64 -> fifo_rep f' (if Z.of_nat (length q) + 1 =? bound f then q else q ++ [v])).
Proof.
  intros Hrep Hf. pose proof (full_test f q Hrep) as Hfull. pose proof Hrep as [Hb Hh Ht Hs Hu Hr Hw Hx].
  do 7 (destruct fuel as [|fuel]; [lia|]). unfold cfifo_push. do 2 fnext. rewrite Hfull.
  destruct (Z.eqb_spec (Z.of_nat (length q) + 1) (bound f)) as [E|Hne].
  { cbn [fst snd]. rewrite frun_ret. by exists f. }
  cbn [fst snd]. fnext. rewrite Z.eqb_refl. cbn [fst snd]. do 2 fnext. fcbn.
  rewrite Hs, Z.eqb_refl. cbn [fst snd]. fnext. rewrite frun_ret.
  eexists. split; [done|]. split; [done|]. intros Hw'.
  assert (Hu64 : u64 (tail f + 1) = tail f + 1) by (apply u64_small; lia).
  fcbn. rewrite Hu64, Hu. split; fcbn; rewrite ?length_app; cbn [length]; try lia.
  - rewrite u64_small by lia. lia.
  - intros k x [[Hk Hl]|[-> <-]]%lookup_snoc_Some.
    + unfold slot in *. fcbn. rewrite lookup_insert_ne; [by apply Hx|].
      intros E%slot_inj; lia.
    + unfold slot in *. fcbn. by rewrite <- Ht, lookup_insert_eq.
Qed.

(** [cfifo_pop] run alone removes and returns the oldest value, or returns NULL
    and changes nothing when the queue is empty. *)
Theorem cfifo_pop_refines f q fuel :
  fifo_rep f q -> (6 <= fuel)%nat ->
  exists f', frun fuel f cfifo_pop = Some (match q with [] => 0 | v :: _ => v end, f') /\
    bound f' = bound f /\ tail f' = tail f /\
    fifo_rep f' (match q with [] => [] | _ :: q' => q' end).
Proof.
  intros Hrep Hf. pose proof Hrep as [Hb Hh Ht Hs Hu Hr Hw Hx].
  do 6 (destruct fuel as [|fuel]; [lia|]). unfold cfifo_pop. do 2 fnext.
  rewrite Hs, slot_eqb by lia. destruct q as [|v q]; simpl in Ht.
  { rewrite (proj2 (Z.eqb_eq (head f) (tail f))) by lia. cbn [fst snd]. rewrite frun_ret. by exists f. }
  rewrite (proj2 (Z.eqb_neq (head f) (tail f))) by lia. cbn [fst snd]. do 2 fnext.
  rewrite Z.eqb_refl. cbn [fst snd]. fnext. rewrite frun_ret.
  assert (Ev : buffer f !! slot f (head f) = Some v).
  { specialize (Hx 0%nat v eq_refl). by rewrite Z.add_0_r in Hx. }
  rewrite Ev. eexists. split; [done|]. split_and!; try done.
  fcbn.
  assert (Hu64 : u64 (head f + 1) = head f + 1) by (apply u64_small; lia).
  rewrite Hu64, Hu. simpl length in *.
  split; fcbn; try lia.
  - rewrite u64_small by lia. lia.
  - intros k x Hk. unfold slot in *. fcbn. specialize (Hx (S k) x Hk). unfold slot in Hx.
    by replace (head f + 1 + Z.of_nat k) with (head f + Z.of_nat (S k)) by lia.
Qed.

(** * Interleavings *)

(** What the threads do: they call, reserve a position for a value, publish a position, take
    a value, and return. *)
Inductive fevent :=
  | ECallPush (i : nat) (v : Z)
  | ECallPop (i : nat)
  | EPush (i : nat) (v : Z)
  | EPublish (i : nat)
  | EPop (i : nat) (v : Z)
  | ERet (i : nat) (r : Z).

Record fconfig := FCfg { fq : cfifo_s; calls : gmap nat fpc; flog : list fevent }.

(** The access that reserves a position, publishes one, or takes a value *)
Definition effect (i : nat) (f : cfifo_s) (p : fpc) : list fevent :=
  match p with
  | PushCasTail v t _ => if tail f =? t then [EPush i v] else []
  | PushCasSentinel t => if sentinel f =? t then [EPublish i] else []
  | PopCasHead h v => if head f =? h then [EPop i v] else []
  | _ => []
  end.

Definition returned (i : nat) (p p' : fpc) : list fevent :=
  match p, p' with
  | Returned _, _ => []
  | _, Returned r => [ERet i r]
  | _, _ => []
  end.

Definition fevents (i : nat) (f : cfifo_s) (p : fpc) : list fevent := effect i f p ++ returned i p (fstep f p).2.

(** Thread [i] performs its next access, or calls again after it returned; only
    the threads in [consumers] call [cfifo_pop]. *)
Inductive fcstep (consumers : nat -> Prop) : fconfig -> fconfig -> Prop :=
  | fc_access f c l i p :
      c !! i = Some p ->
      fcstep consumers (FCfg f c l) (FCfg (fstep f p).1 (<[i := (fstep f p).2]> c) (l ++ fevents i f p))
  | fc_push f c l i r v :
      c !! i = Some (Returned r) ->
      fcstep consumers (FCfg f c l) (FCfg f (<[i := cfifo_push v]> c) (l ++ [ECallPush i v]))
  | fc_pop f c l i r :
      c !! i = Some (Returned r) -> consumers i ->
      fcstep consumers (FCfg f c l) (FCfg f (<[i := cfifo_pop]> c) (l ++ [ECallPop i])).

Definition is_publish (e : fevent) : bool := match e with EPublish _ => true | _ => false end.

Definition pushes (l : list fevent) : list Z := omap (fun e => match e with EPush _ v => Some v | _ => None end) l.

Definition published (l : list fevent) : nat := length (filter (fun e => is_publish e = true) l).

Definition pops (l : list fevent) : list Z := omap (fun e => match e with EPop _ v => Some v | _ => None end) l.

(** [k] threads, none of them in a call *)
Definition fstart (size : Z) (k : nat) : fconfig :=
  FCfg (cfifo_alloc size) (list_to_map ((fun i => (i, Returned 0)) <$> seq 0 k)) [].

(** What a thread in the middle of a call knows about the queue; [vs] are the
    values of all reserved positions. *)
Definition call_ok (f : cfifo_s) (vs : list Z) (one : Prop) (p : fpc) : Prop :=
  match p with
  | PushLoadHead _ t => 0 <= t <= tail f
  | PushCasTail _ t h => 0 <= t <= tail f /\ (t = tail f -> h <= head f /\ t + 1 - h < bound f)
  | PushStore v t => sentinel f <= t < tail f /\ vs !! Z.to_nat t = Some v
  | PushCasSentinel t => sentinel f <= t < tail f /\ buffer f !! slot f t = vs !! Z.to_nat t
  | PopLoadSentinel => one
  | PopLoadHead s => one /\ head f <= s <= sentinel f
  | PopRead h => one /\ h = head f /\ h < sentinel f
  | PopCasHead h v => one /\ h = head f /\ h < sentinel f /\ vs !! Z.to_nat h = Some v
  | PushLoadTail _ | PushCount | PopCount _ | Returned _ => True
  end.

(** The position a thread has reserved and not yet published *)
Definition reserved (p : fpc) : option Z :=
  match p with PushStore _ t | PushCasSentinel t => Some t | _ => None end.

Record finv (size : Z) (consumer : nat) (σ : fconfig) : Prop := {
  fi_bound : bound (fq σ) = size + 1 /\ 0 <= size;
  fi_order : 0 <= head (fq σ) <= sentinel (fq σ) /\ sentinel (fq σ) <= tail (fq σ);
  fi_room : tail (fq σ) - head (fq σ) < bound (fq σ);
  fi_tail : tail (fq σ) = Z.of_nat (length (pushes (flog σ)));
  fi_pops : pops (flog σ) = take (Z.to_nat (head (fq σ))) (pushes (flog σ));
  fi_slots : forall p, head (fq σ) <= p < sentinel (fq σ) ->
    buffer (fq σ) !! slot (fq σ) p = pushes (flog σ) !! Z.to_nat p;
  fi_calls : forall i p, calls σ !! i = Some p -> call_ok (fq σ) (pushes (flog σ)) (i = consumer) p;
  fi_reserved : forall i j p q t, calls σ !! i = Some p -> calls σ !! j = Some q -> i <> j ->
    reserved p = Some t -> reserved q <> Some t;
}.

(** Fewer than 2^64 - 1 pushes: the counters have not wrapped around. *)
Definition no_wrap (σ : fconfig) : Prop := Z.of_nat (length (pushes (flog σ))) + 1 < 2 ^ 64.

Lemma pushes_app l l' : pushes (l ++ l') = pushes l ++ pushes l'.
Proof. apply omap_app. Qed.

Lemma pops_app l l' : pops (l ++ l') = pops l ++ pops l'.
Proof. apply omap_app. Qed.

Section interleaving.
Context (size : Z) (consumer : nat).
Implicit Types (f : cfifo_s) (c : gmap nat fpc) (l : list fevent).

(** The call of thread [i] moves on; every other call keeps what it knew. *)
Lemma finv_calls f f' c vs vs' i p' :
  (forall j q, j <> i -> c !! j = Some q ->
     call_ok f vs (j = consumer) q -> call_ok f' vs' (j = consumer) q) ->
  (forall j q, c !! j = Some q -> call_ok f vs (j = consumer) q) ->
  call_ok f' vs' (i = consumer) p' ->
  forall j q, <[i := p']> c !! j = Some q -> call_ok f' vs' (j = consumer) q.
Proof. intros Hkeep Hc Hp j q [[<- <-]|[Hne Hj]]%lookup_insert_Some; [done|]. eapply Hkeep; eauto. Qed.

(** Thread [i] reserves no position it had not, or a new one. *)
Lemma finv_reserved c i p' :
  (forall j k p q t, c !! j = Some p -> c !! k = Some q -> j <> k ->
     reserved p = Some t -> reserved q <> Some t) ->
  (forall t, reserved p' = Some t -> forall j q, j <> i -> c !! j = Some q -> reserved q <> Some t) ->
  forall j k p q t, <[i := p']> c !! j = Some p -> <[i := p']> c !! k = Some q -> j <> k ->
    reserved p = Some t -> reserved q <> Some t.
Proof.
  intros Hr Hnew j k p q t [[<- <-]|[Hj Ej]]%lookup_insert_Some [[<- <-]|[Hk Ek]]%lookup_insert_Some Hne Ep;
    [done|by eapply Hnew| |by eapply (Hr j k)].
  intros Ep'. by apply (Hnew t Ep' j p).
Qed.

Lemma finv_local f c l i p' :
  finv size consumer (FCfg f c l) -> call_ok f (pushes l) (i = consumer) p' -> reserved p' = None ->
  finv size consumer (FCfg f (<[i := p']> c) l).
Proof.
  intros [H1 H2 H3 H4 H5 H6 H7 H8] Hp Hr. split; try done; cbn [fq calls flog] in *.
  - by eapply finv_calls.
  - apply finv_reserved; [done|]. intros t Et. congruence.
Qed.

Lemma finv_cas_tail f c l i v t h :
  finv size consumer (FCfg f c l) -> c !! i = Some (PushCasTail v t h) -> tail f = t ->
  no_wrap (FCfg f c l) ->
  finv size consumer (FCfg (set_tail f (u64 (t + 1))) (<[i := PushStore v t]> c) (l ++ [EPush i v])).
Proof.
  intros [H1 H2 H3 H4 H5 H6 H7 H8] Ei <- Hw. unfold no_wrap in Hw. cbn [fq calls flog] in *.
  destruct (H7 _ _ Ei) as [_ Hroom]. specialize (Hroom eq_refl). rewrite u64_small by lia.
  assert (Hp : pushes (l ++ [EPush i v]) = pushes l ++ [v]) by (by rewrite pushes_app).
  assert (Hl : forall p, p < tail f -> 0 <= p -> (pushes l ++ [v]) !! Z.to_nat p = pushes l !! Z.to_nat p).
  { intros p Hp1 Hp2. apply lookup_app_l. lia. }
  split; cbn [fq calls flog]; rewrite ?Hp; fcbn.
  - done.
  - lia.
  - lia.
  - rewrite length_app. simpl. lia.
  - rewrite pops_app, app_nil_r, H5. by rewrite take_app_le by lia.
  - intros p Hp'. rewrite Hl by lia. by apply H6.
  - apply (finv_calls f _ c (pushes l)); [|done|].
    + intros j q _ Hj Hq. destruct q; simpl in *; try done; try lia; destruct Hq as [Hq1 Hq2].
      * rewrite Hl by lia. split; [lia|done].
      * unfold slot in *. fcbn. rewrite Hl by lia. split; [lia|done].
      * destruct Hq2 as (? & ? & ?). rewrite Hl by lia. done.
    + split; fcbn; [lia|]. rewrite lookup_app_r by lia.
      replace (Z.to_nat (tail f) - length (pushes l))%nat with 0%nat by lia. done.
  - apply finv_reserved; [done|]. intros t [= <-] j q Hne Hj Hr. specialize (H7 _ _ Hj).
    destruct q; simpl in *; simplify_eq; lia.
Qed.

Lemma finv_store f c l i v t :
  finv size consumer (FCfg f c l) -> c !! i = Some (PushStore v t) ->
  finv size consumer (FCfg (set_slot f t v) (<[i := PushCasSentinel t]> c) l).
Proof.
  intros [H1 H2 H3 H4 H5 H6 H7 H8] Ei. cbn [fq calls flog] in *. destruct (H7 _ _ Ei) as [Ht Hv].
  assert (Hother : forall p, head f <= p < tail f -> p <> t ->
    <[slot f t := v]> (buffer f) !! slot f p = buffer f !! slot f p).
  { intros p Hp Hne. apply lookup_insert_ne. unfold slot. intros E%slot_inj; lia. }
  split; cbn [fq calls flog]; fcbn; try done.
  - intros p Hp. change (slot (set_slot f t v) p) with (slot f p). rewrite Hother by lia. by apply H6.
  - apply (finv_calls f _ c (pushes l)); [|done|].
    + intros j q Hne Hj Hq. destruct q; simpl in *; try done.
      destruct Hq as [Hq1 Hq2]. split; [done|]. change (slot (set_slot f t v) tail0) with (slot f tail0).
      rewrite Hother; [done|lia|]. intros ->. eapply (H8 i j); [exact Ei|exact Hj|congruence|done|done].
    + split; [done|]. change (slot (set_slot f t v) t) with (slot f t). fcbn. by rewrite lookup_insert_eq.
  - apply finv_reserved; [done|]. intros t' [= <-] j q Hne Hj. by eapply (H8 i j).
Qed.

Lemma finv_cas_sentinel f c l i t :
  finv size consumer (FCfg f c l) -> c !! i = Some (PushCasSentinel t) -> sentinel f = t ->
  no_wrap (FCfg f c l) ->
  finv size consumer (FCfg (set_sentinel f (u64 (t + 1))) (<[i := PushCount]> c) l).
Proof.
  intros [H1 H2 H3 H4 H5 H6 H7 H8] Ei <- Hw. unfold no_wrap in Hw. cbn [fq calls flog] in *.
  destruct (H7 _ _ Ei) as [Ht Hv]. rewrite u64_small by lia.
  split; cbn [fq calls flog]; fcbn; try done; try lia.
  - intros p Hp. change (slot (set_sentinel f (sentinel f + 1)) p) with (slot f p).
    destruct (decide (p = sentinel f)) as [->|]; [done|]. apply H6. lia.
  - apply (finv_calls f _ c (pushes l)); [|done|done].
    intros j q Hne Hj Hq. specialize (H8 i j _ q (sentinel f) Ei Hj ltac:(congruence) eq_refl).
    destruct q; simpl in *; fcbn; try done; try lia;
      try (assert (tail0 <> sentinel f) by congruence); destruct_and! Hq; split_and!; done || lia.
  - by apply finv_reserved.
Qed.

Lemma finv_cas_head f c l i h v :
  finv size consumer (FCfg f c l) -> c !! i = Some (PopCasHead h v) -> no_wrap (FCfg f c l) ->
  finv size consumer (FCfg (set_head f (u64 (h + 1))) (<[i := PopCount v]> c) (l ++ [EPop i v])).
Proof.
  intros [H1 H2 H3 H4 H5 H6 H7 H8] Ei Hw. unfold no_wrap in Hw. cbn [fq calls flog] in *.
  destruct (H7 _ _ Ei) as (Hone & -> & Hlt & Hv). rewrite u64_small by lia.
  assert (Hp : pushes (l ++ [EPop i v]) = pushes l) by (by rewrite pushes_app, app_nil_r).
  split; cbn [fq calls flog]; rewrite ?Hp; fcbn; try done; try lia.
  - rewrite pops_app, H5. replace (Z.to_nat (head f + 1)) with (S (Z.to_nat (head f))) by lia.
    by rewrite (take_S_r _ _ _ Hv).
  - intros p Hp'. apply H6. lia.
  - apply (finv_calls f _ c (pushes l)); [|done|done].
    intros j q Hne Hj Hq. destruct q; simpl in *; fcbn; try done; try lia; try (exfalso; lia).
  - by apply finv_reserved.
Qed.

Lemma finv_used f c l i r x :
  finv size consumer (FCfg f c l) -> finv size consumer (FCfg (set_used f x) (<[i := Returned r]> c) l).
Proof.
  intros Hi. apply finv_local; [|done|done]. destruct Hi as [H1 H2 H3 H4 H5 H6 H7 H8]. by split.
Qed.

(** The log matters only for the values pushed and taken. *)
Lemma finv_log f c l l' : pushes l' = [] -> pops l' = [] ->
  finv size consumer (FCfg f c l) -> finv size consumer (FCfg f c (l ++ l')).
Proof.
  intros Hp Hq [H1 H2 H3 H4 H5 H6 H7 H8]. cbn [fq calls flog] in *.
  split; cbn [fq calls flog]; rewrite ?pushes_app, ?pops_app, ?Hp, ?Hq, ?app_nil_r; done.
Qed.

Lemma finv_access f c l i p :
  finv size consumer (FCfg f c l) -> c !! i = Some p -> no_wrap (FCfg f c l) ->
  finv size consumer (FCfg (fstep f p).1 (<[i := (fstep f p).2]> c) (l ++ fevents i f p)).
Proof.
  intros Hi' Ei' Hw'. unfold fevents. rewrite app_assoc. apply finv_log.
  { unfold returned. destruct p; try done; by destruct (fstep f _).2. }
  { unfold returned. destruct p; try done; by destruct (fstep f _).2. }
  revert Hi' Ei' Hw'.
  intros Hi Ei Hw. pose proof (fi_calls _ _ _ Hi i p Ei) as Hok. pose proof Hi as [[Hb ?] Ho Hr Ht _ Hs _ _].
  cbn [fq calls flog] in *. unfold no_wrap in Hw. cbn [flog] in Hw.
  destruct p; cbn [fstep effect]; rewrite ?app_nil_r; cbn [fst snd] in *.
  - apply finv_local; [done| |done]. simpl. lia.
  - simpl in Hok. destruct (Z.eqb_spec (slot f (u64 (tail0 + 1))) (slot f (head f))) as [E|Hne]; cbn [fst snd].
    + by apply finv_local.
    + apply finv_local; [done| |done]. split; [lia|]. intros ->. split; [lia|].
      assert (tail f + 1 - head f <> bound f); [|lia]. intros E. apply Hne. rewrite u64_small by lia.
      unfold slot. replace (tail f + 1) with (head f + 1 * bound f) by lia. by rewrite Z_mod_plus_full.
  - destruct (Z.eqb_spec (tail f) tail0); cbn [fst snd]; [by eapply finv_cas_tail|].
    rewrite app_nil_r. by apply finv_local.
  - by apply finv_store.
  - destruct (Z.eqb_spec (sentinel f) tail0); cbn [fst snd]; [|by rewrite app_nil_r, insert_id].
    apply finv_log; [done|done|]. by eapply finv_cas_sentinel.
  - by apply finv_used.
  - apply finv_local; [done| |done]. simpl. split; [done|lia].
  - destruct Hok as [? Hh]. rewrite slot_eqb by lia.
    destruct (Z.eqb_spec (head f) sentinel0); cbn [fst snd]; apply finv_local; try done. simpl. split_and!; [done..|lia].
  - destruct Hok as (? & -> & ?). apply finv_local; [done| |done]. simpl. split_and!; try done.
    rewrite Hs by lia. destruct (lookup_lt_is_Some_2 (pushes l) (Z.to_nat (head f))) as [x Hx]; [lia|].
    by rewrite Hx.
  - destruct Hok as (? & -> & ? & ?). rewrite Z.eqb_refl. cbn [fst snd]. by apply finv_cas_head.
  - by apply finv_used.
  - by apply finv_local.
Qed.

Lemma finv_step σ σ' :
  finv size consumer σ -> no_wrap σ -> fcstep (eq consumer) σ σ' -> finv size consumer σ'.
Proof.
  intros Hi Hw Hs. destruct Hs.
  - by apply finv_access.
  - by apply finv_log, finv_local.
  - by apply finv_log, finv_local.
Qed.

Lemma finv_start k : 0 <= size < 2 ^ 64 - 1 -> finv size consumer (fstart size k).
Proof.
  intros Hs. unfold fstart, cfifo_alloc. rewrite u64_small by lia.
  split; cbn [fq calls flog]; fcbn; try done; try lia.
  - intros i p Hl%elem_of_list_to_map_2. by apply list_elem_of_fmap in Hl as (? & [= -> ->] & _).
  - intros i j p q t Hl%elem_of_list_to_map_2. by apply list_elem_of_fmap in Hl as (? & [= -> ->] & _).
Qed.

Lemma no_wrap_back σ σ' : fcstep (eq consumer) σ σ' -> no_wrap σ' -> no_wrap σ.
Proof.
  intros Hs. unfold no_wrap. destruct Hs; cbn [flog]; rewrite pushes_app, length_app; lia.
Qed.

Lemma finv_reachable k σ :
  0 <= size < 2 ^ 64 - 1 -> rtc (fcstep (eq consumer)) (fstart size k) σ -> no_wrap σ ->
  finv size consumer σ.
Proof.
  intros Hs. revert σ. apply (rtc_ind_r (fun σ => no_wrap σ -> finv size consumer σ)).
  - intros _. by apply finv_start.
  - intros σ1 σ2 _ Hstep IH Hw. apply (finv_step σ1); eauto using no_wrap_back.
Qed.
End interleaving.

(** C21: with any number of producers and one consumer, under every interleaving,
    the values taken are exactly the first ones of the values pushed, in the order
    in which the pushes reserved their positions: nothing is lost, duplicated,
    reordered or made up; and at no time are more values held than the queue was
    allocated for. *)
Theorem cfifo_single_consumer_fifo size k consumer σ :
  0 <= size < 2 ^ 64 - 1 -> rtc (fcstep (eq consumer)) (fstart size k) σ -> no_wrap σ ->
  pops (flog σ) `prefix_of` pushes (flog σ) /\
  Z.of_nat (length (pushes (flog σ))) - Z.of_nat (length (pops (flog σ))) <= size.
Proof.
  intros Hs Hr Hw. destruct (finv_reachable size consumer k σ Hs Hr Hw) as [[Hb _] Ho Hroom Ht Hp _ _ _].
  rewrite Hp. split; [apply prefix_take|]. rewrite length_take. lia.
Qed.

(** * What the calls return *)

Section returns.
Context (size : Z) (consumer : nat).
Implicit Types (l : list fevent) (i : nat) (e x : fevent).

(** The effects of thread [i]; a call of it begins, or a call begins or ends. *)
Definition is_act i e : bool :=
  match e with EPush j _ | EPublish j | EPop j _ => bool_decide (j = i) | _ => false end.

Definition acts i l : list fevent := filter (fun e => is_act i e = true) l.

Definition is_call i e : bool :=
  match e with ECallPush j _ | ECallPop j => bool_decide (j = i) | _ => false end.

Definition is_ret i e : bool := match e with ERet j _ => bool_decide (j = i) | _ => false end.

(** Thread [i] stays inside one call. *)
Definition in_call i l : Prop := Forall (fun e => is_call i e = false /\ is_ret i e = false) l.

(** What a call that began with the event [e], after [l1], and that is at [p], has done in [l2]. *)
Definition mid_ok i l1 e l2 (p : fpc) : Prop :=
  match p with
  | PushLoadTail v | PushLoadHead v _ | PushCasTail v _ _ => e = ECallPush i v /\ acts i l2 = []
  | PushStore v _ => e = ECallPush i v /\ acts i l2 = [EPush i v]
  | PushCasSentinel _ => exists v, e = ECallPush i v /\ acts i l2 = [EPush i v]
  | PushCount => exists v, e = ECallPush i v /\ acts i l2 = [EPush i v; EPublish i]
  | PopLoadSentinel | PopRead _ | PopCasHead _ _ => e = ECallPop i /\ acts i l2 = []
  | PopLoadHead s => e = ECallPop i /\ acts i l2 = [] /\
      exists l3 l4, l2 = l3 ++ l4 /\ s = Z.of_nat (published (l1 ++ e :: l3))
  | PopCount v => e = ECallPop i /\ acts i l2 = [EPop i v]
  | Returned _ => False
  end.

Definition mid i p l : Prop :=
  forall l1 e l2, l = l1 ++ e :: l2 -> is_call i e = true -> in_call i l2 -> mid_ok i l1 e l2 p.

(** What a call that returned [r] has done in [l2]. *)
Definition done_ok i l1 e l2 (r : Z) : Prop :=
  match e with
  | ECallPush _ v => r = 0 /\ acts i l2 = [EPush i v; EPublish i] \/ r = -1 /\ acts i l2 = []
  | _ => acts i l2 = [EPop i r] \/ r = 0 /\ acts i l2 = [] /\
      exists l3 l4, l2 = l3 ++ l4 /\ published (l1 ++ e :: l3) = length (pops (l1 ++ e :: l3))
  end.

Lemma snoc_split l x l1 e l2 : l ++ [x] = l1 ++ e :: l2 ->
  l2 = [] /\ x = e /\ l = l1 \/ exists l3, l2 = l3 ++ [x] /\ l = l1 ++ e :: l3.
Proof.
  destruct l2 as [|y l2 _] using rev_ind; intros E.
  - apply app_inj_tail in E as [-> ->]. by left.
  - right. rewrite app_comm_cons, app_assoc in E. apply app_inj_tail in E as [-> ->]. by exists l2.
Qed.

Lemma in_call_snoc i l x : in_call i (l ++ [x]) <-> in_call i l /\ is_call i x = false /\ is_ret i x = false.
Proof. unfold in_call. by rewrite Forall_app, Forall_singleton. Qed.

Lemma acts_snoc i l x : acts i (l ++ [x]) = acts i l ++ if is_act i x then [x] else [].
Proof. unfold acts. rewrite filter_app, filter_cons, filter_nil. by destruct (is_act i x). Qed.

Lemma mid_same i p p' l :
  (forall l1 e l2, l = l1 ++ e :: l2 -> mid_ok i l1 e l2 p -> mid_ok i l1 e l2 p') -> mid i p l -> mid i p' l.
Proof. intros Hp Hm l1 e l2 -> He Hi. apply Hp; [done|by apply Hm]. Qed.

(** Another thread does something. *)
Lemma mid_other i p l x : is_act i x = false -> is_call i x = false -> mid i p l -> mid i p (l ++ [x]).
Proof.
  intros Ha Hc Hm l1 e l2 [(-> & -> & ->)|(l3 & -> & ->)]%snoc_split He; [congruence|].
  intros [Hi _]%in_call_snoc. specialize (Hm _ _ _ eq_refl He Hi).
  assert (acts i (l3 ++ [x]) = acts i l3) as E by by rewrite acts_snoc, Ha, app_nil_r.
  destruct p; simpl in *; rewrite ?E; try done. destruct Hm as (? & ? & l4 & l5 & -> & ->).
  split_and!; [done..|]. exists l4, (l5 ++ [x]). by rewrite app_assoc.
Qed.

Lemma mid_act i p p' l x : is_call i x = false ->
  (forall l1 e l2, mid_ok i l1 e l2 p -> mid_ok i l1 e (l2 ++ [x]) p') -> mid i p l -> mid i p' (l ++ [x]).
Proof.
  intros Hc Hp Hm l1 e l2 [(-> & -> & ->)|(l3 & -> & ->)]%snoc_split He; [congruence|].
  intros [Hi _]%in_call_snoc. by apply Hp, Hm.
Qed.

Lemma mid_call i l x p r : is_call i x = true -> mid_ok i l x [] p -> mid i (Returned r) l -> mid i p (l ++ [x]).
Proof.
  intros Hc Hp Hm l1 e l2 [(-> & -> & ->)|(l3 & -> & ->)]%snoc_split He; [done|].
  intros [Hi [Hx _]]%in_call_snoc. congruence.
Qed.

Lemma mid_ret i l r r' : mid i (Returned r) (l ++ [ERet i r']).
Proof.
  intros l1 e l2 [(-> & <- & ->)|(l3 & -> & ->)]%snoc_split He; [done|].
  intros [Hi [_ Hx]]%in_call_snoc. simpl in Hx. by rewrite bool_decide_true in Hx.
Qed.

(** The values taken are taken by the consumer; the sentinel counts the positions published; calls in the
    middle have done what they should, and so have calls that have returned. *)
Record rinv (σ : fconfig) : Prop := {
  ri_consumer i v : EPop i v ∈ flog σ -> i = consumer;
  ri_sentinel : sentinel (fq σ) = Z.of_nat (published (flog σ));
  ri_mid i p : calls σ !! i = Some p -> mid i p (flog σ);
  ri_done i r l1 e l2 l3 : flog σ = l1 ++ e :: l2 ++ ERet i r :: l3 -> is_call i e = true -> in_call i l2 ->
    done_ok i l1 e l2 r;
}.

(** Nothing is logged. *)
Lemma rinv_silent f f' c l i p p' : rinv (FCfg f c l) -> c !! i = Some p -> sentinel f' = sentinel f ->
  (forall l1 e l2, l = l1 ++ e :: l2 -> mid_ok i l1 e l2 p -> mid_ok i l1 e l2 p') ->
  rinv (FCfg f' (<[i := p']> c) l).
Proof.
  intros [H1 H2 H3 H4] Ei Hf Hp. cbn [fq calls flog] in *. split; cbn [fq calls flog]; [done|congruence| |done].
  intros j q [[<- <-]|[_ Hj]]%lookup_insert_Some; [|by apply H3]. eapply mid_same; [exact Hp|]. by apply H3.
Qed.

(** Thread [i] logs [x], which is no return. *)
Lemma rinv_event f f' c l i x p' : rinv (FCfg f c l) -> sentinel f' = Z.of_nat (published (l ++ [x])) ->
  (forall v j, x = EPop j v -> j = consumer) -> (forall j, is_ret j x = false) ->
  (forall j, j <> i -> is_act j x = false /\ is_call j x = false) -> mid i p' (l ++ [x]) ->
  rinv (FCfg f' (<[i := p']> c) (l ++ [x])).
Proof.
  intros [H1 H2 H3 H4] Hf Hc Hr Ho Hp. cbn [fq calls flog] in *. split; cbn [fq calls flog]; [|done|..].
  - intros j v [?|E%list_elem_of_singleton]%elem_of_app; [by eapply H1|by eapply Hc].
  - intros j q [[<- <-]|[Hne Hj]]%lookup_insert_Some; [done|]. destruct (Ho j) as [? ?]; [done|].
    apply mid_other; [done..|]. by apply H3.
  - intros j r l1 e l2 l3 E. rewrite app_comm_cons, app_assoc in E.
    apply snoc_split in E as [(-> & -> & _)|(l4 & -> & ->)].
    + specialize (Hr j). simpl in Hr. by rewrite bool_decide_true in Hr.
    + apply (H4 j r l1 e l2 l4). by rewrite <- app_assoc.
Qed.

(** Thread [i] returns. *)
Lemma rinv_return f f' c l i p r : rinv (FCfg f c l) -> c !! i = Some p -> sentinel f' = sentinel f ->
  (forall l1 e l2, l = l1 ++ e :: l2 -> is_call i e = true -> mid_ok i l1 e l2 p -> done_ok i l1 e l2 r) ->
  rinv (FCfg f' (<[i := Returned r]> c) (l ++ [ERet i r])).
Proof.
  intros [H1 H2 H3 H4] Ei Hf Hd. cbn [fq calls flog] in *.
  split; cbn [fq calls flog].
  - intros j v [?|E%list_elem_of_singleton]%elem_of_app; [by eapply H1|done].
  - rewrite Hf, H2. f_equal. unfold published. by rewrite filter_app, app_nil_r.
  - intros j q [[<- <-]|[Hne Hj]]%lookup_insert_Some; [apply mid_ret|]. apply mid_other; [done..|]. by apply H3.
  - intros j r' l1 e l2 l3 E He Hin. rewrite app_comm_cons, app_assoc in E.
    apply snoc_split in E as [(-> & [= -> ->] & ->)|(l4 & -> & ->)].
    + apply Hd; [done..|]. by apply (H3 _ _ Ei).
    + apply (H4 j r' l1 e l2 l4); [by rewrite <- app_assoc|done..].
Qed.
Lemma published_snoc l x : published (l ++ [x]) = (published l + if is_publish x then 1 else 0)%nat.
Proof. unfold published. rewrite filter_app, filter_cons, filter_nil, length_app. by destruct (is_publish x). Qed.

Lemma acts_pops i l : acts i l = [] -> (forall j v, EPop j v ∈ l -> j = i) -> pops l = [].
Proof.
  induction l as [|x l IH]; intros Ha Hp; [done|]. unfold acts in *. rewrite filter_cons in Ha. case_decide as Hx; [done|].
  assert (pops l = []) as E. { apply IH; [done|]. intros j v Hj. apply (Hp j v). by right. }
  destruct x as [| | | |j v|]; simpl; try done.
  exfalso. apply Hx. simpl. rewrite (Hp j v) by by left. by rewrite bool_decide_true.
Qed.

Lemma empty_pop f c l i s l1 e l2 : finv size consumer (FCfg f c l) -> rinv (FCfg f c l) ->
  c !! i = Some (PopLoadHead s) -> slot f (head f) = slot f s -> l = l1 ++ e :: l2 ->
  mid_ok i l1 e l2 (PopLoadHead s) -> done_ok i l1 e l2 0.
Proof.
  intros Hf Hr Ei Hs El (-> & Ha & l3 & l4 & -> & E). right. split; [done|]. split; [done|]. exists l3, l4. split; [done|].
  pose proof Hf as [[Hb _] Ho Hroom Ht Hp _ Hc _]. cbn [fq calls flog] in *.
  destruct (Hc _ _ Ei) as [Hone Hsn]. assert (head f = s) as Hh.
  { apply (slot_inj (bound f)); [lia|exact Hs|lia]. }
  assert (pops l4 = []) as E4.
  { apply (acts_pops i).
    - unfold acts in *. rewrite filter_app in Ha. by apply app_nil in Ha as [_ ?].
    - intros j v Hj. rewrite Hone. apply (ri_consumer _ Hr j v). cbn [flog]. rewrite El. set_solver. }
  assert (length (pops l) = Z.to_nat s) as El'. { rewrite Hp, length_take. lia. }
  rewrite El, app_comm_cons, app_assoc, pops_app, E4, app_nil_r in El'. lia.
Qed.

Lemma rinv_access f c l i p : finv size consumer (FCfg f c l) -> rinv (FCfg f c l) -> no_wrap (FCfg f c l) -> c !! i = Some p ->
  rinv (FCfg (fstep f p).1 (<[i := (fstep f p).2]> c) (l ++ fevents i f p)).
Proof.
  intros Hf Hr Hw Ei. unfold no_wrap in Hw. pose proof (ri_mid _ Hr i p Ei) as Hm.
  pose proof (ri_sentinel _ Hr) as Hsen. pose proof (fi_calls _ _ _ Hf i p Ei) as Hok.
  pose proof Hf as [_ Ho _ Ht _ _ _ _]. cbn [fq calls flog] in *.
  assert (forall f' p', sentinel f' = sentinel f ->
    (forall l1 e l2, l = l1 ++ e :: l2 -> mid_ok i l1 e l2 p -> mid_ok i l1 e l2 p') ->
    rinv (FCfg f' (<[i := p']> c) (l ++ []))) as Hsil.
  { intros f' p' ? ?. rewrite app_nil_r. by eapply rinv_silent. }
  assert (forall f' x p', (forall v j, x = EPop j v -> j = consumer) -> (forall j, is_ret j x = false) ->
    (forall j, j <> i -> is_act j x = false /\ is_call j x = false) -> is_call i x = false ->
    sentinel f' = Z.of_nat (published (l ++ [x])) ->
    (forall l1 e l2, mid_ok i l1 e l2 p -> mid_ok i l1 e (l2 ++ [x]) p') ->
    rinv (FCfg f' (<[i := p']> c) (l ++ [x]))) as Hev.
  { intros f' x p' ? ? ? ? ? ?. eapply rinv_event; [done..|]. by eapply mid_act. }
  destruct p as [v|v t|v t h|v t|t| | |s|h|h v|v|r]; unfold fevents; cbn [fstep effect app].
  - by apply Hsil.
  - destruct (_ =? _); [|by apply Hsil]. eapply rinv_return; [done..|]. intros l1 e l2 _ _ [-> ?]. by right.
  - destruct (_ =? _); [|by apply Hsil].
    apply Hev; try done.
    + intros j Hj. simpl. by rewrite bool_decide_false.
    + by rewrite published_snoc, Nat.add_0_r.
    + intros l1 e l2 [-> E]. split; [done|]. rewrite acts_snoc, E. simpl. by rewrite bool_decide_true.
  - apply Hsil; [done|]. intros l1 e l2 _ [? ?]. by exists v.
  - destruct (Z.eqb_spec (sentinel f) t) as [<-|]; [|by apply Hsil]. simpl in Hok.
    apply Hev; try done.
    + intros j Hj. simpl. by rewrite bool_decide_false.
    + rewrite published_snoc. cbn [is_publish set_sentinel sentinel fst]. rewrite u64_small; lia.
    + intros l1 e l2 (v & -> & E). exists v. split; [done|]. rewrite acts_snoc, E. simpl. by rewrite bool_decide_true.
  - eapply rinv_return; [done..|]. intros l1 e l2 _ _ (v & -> & ?). by left.
  - apply Hsil; [done|]. intros l1 e l2 -> [-> ?]. split; [done|]. split; [done|]. exists l2, []. by rewrite app_nil_r.
  - destruct (Z.eqb_spec (slot f (head f)) (slot f s)) as [E|]; [|by apply Hsil; [|intros l1 e l2 _ (? & ? & _)]].
    eapply rinv_return; [done..|]. intros l1 e l2 El _ ?. by eapply empty_pop.
  - by apply Hsil.
  - destruct (_ =? _); [|by apply Hsil]. destruct Hok as [Hone _].
    apply Hev; try done.
    + by intros v' j [= -> _].
    + intros j Hj. simpl. by rewrite bool_decide_false.
    + by rewrite published_snoc, Nat.add_0_r.
    + intros l1 e l2 [-> E]. split; [done|]. rewrite acts_snoc, E. simpl. by rewrite bool_decide_true.
  - eapply rinv_return; [done..|]. intros l1 e l2 _ _ [-> ?]. by left.
  - by apply Hsil.
Qed.

Lemma rinv_call f c l i x p r : rinv (FCfg f c l) -> c !! i = Some (Returned r) -> is_call i x = true ->
  mid_ok i l x [] p -> rinv (FCfg f (<[i := p]> c) (l ++ [x])).
Proof.
  intros Hr Ei Hx Hp. pose proof (ri_mid _ Hr i _ Ei) as Hm. pose proof (ri_sentinel _ Hr) as Hsen. cbn [fq calls flog] in *.
  eapply rinv_event; [done|..]; [|by destruct x..| |by eapply mid_call].
  - rewrite Hsen, published_snoc. destruct x; simpl in *; try done; lia.
  - intros j Hj. destruct x; simpl in *; try done; apply bool_decide_eq_true in Hx as ->; by rewrite bool_decide_false.
Qed.

Lemma rinv_reachable k σ : 0 <= size < 2 ^ 64 - 1 -> rtc (fcstep (eq consumer)) (fstart size k) σ -> no_wrap σ -> rinv σ.
Proof.
  intros Hs. revert σ. apply (rtc_ind_r (fun σ => no_wrap σ -> rinv σ)).
  - intros _. split; cbn [fq calls flog fstart]; [by intros ? ? ?%not_elem_of_nil|done|by intros i p _ []|by intros i r []].
  - intros σ1 σ2 Hr1 Hstep IH Hw. pose proof (no_wrap_back consumer _ _ Hstep Hw) as Hw1.
    pose proof (finv_reachable size consumer k σ1 Hs Hr1 Hw1) as Hf. specialize (IH Hw1). destruct Hstep.
    + by apply rinv_access.
    + eapply rinv_call; [done..| |done]. simpl. by rewrite bool_decide_true.
    + eapply rinv_call; [done..| |done]. simpl. by rewrite bool_decide_true.
Qed.
End returns.

(** C22: what the calls return, with any number of producers and one consumer: a push that
    returns 0 has reserved one position for its value and published it; one that returns -1
    has done nothing. A pop that returns [r] has taken one value, which is [r]; or it has taken none,
    [r] is NULL, and at a moment during the call every published value had been taken. *)
Theorem cfifo_calls_return size k consumer σ i e l1 l2 l3 r :
  0 <= size < 2 ^ 64 - 1 -> rtc (fcstep (eq consumer)) (fstart size k) σ -> no_wrap σ ->
  flog σ = l1 ++ e :: l2 ++ ERet i r :: l3 -> is_call i e = true -> in_call i l2 ->
  match e with
  | ECallPush _ v => r = 0 /\ acts i l2 = [EPush i v; EPublish i] \/ r = -1 /\ acts i l2 = []
  | _ => acts i l2 = [EPop i r] \/ r = 0 /\ acts i l2 = [] /\
      exists l4 l5, l2 = l4 ++ l5 /\ published (l1 ++ e :: l4) = length (pops (l1 ++ e :: l4))
  end.
Proof. intros Hs Hr Hw. by apply (ri_done consumer σ), (rinv_reachable size consumer k). Qed.

(** * Two consumers *)

(** A schedule: which thread moves, and what it calls when it is idle *)
Inductive fchoice := Move (i : nat) | CallPush (i : nat) (v : Z) | CallPop (i : nat).

Definition fexec1 (σ : fconfig) (a : fchoice) : option fconfig :=
  let '(FCfg f c l) := σ in
  match a with
  | Move i => match c !! i with
              | Some p => Some (FCfg (fstep f p).1 (<[i := (fstep f p).2]> c) (l ++ fevents i f p))
              | None => None
              end
  | CallPush i v => match c !! i with
                    | Some (Returned _) => Some (FCfg f (<[i := cfifo_push v]> c) (l ++ [ECallPush i v]))
                    | _ => None
                    end
  | CallPop i => match c !! i with
                 | Some (Returned _) => Some (FCfg f (<[i := cfifo_pop]> c) (l ++ [ECallPop i]))
                 | _ => None
                 end
  end.

Fixpoint fexec (σ : fconfig) (l : list fchoice) : option fconfig :=
  match l with
  | [] => Some σ
  | a :: l => match fexec1 σ a with Some σ' => fexec σ' l | None => None end
  end.

Definition calls_pop_of (P : nat -> Prop) (a : fchoice) : Prop :=
  match a with CallPop i => P i | _ => True end.

Lemma fexec_steps P σ l σ' :
  fexec σ l = Some σ' -> Forall (calls_pop_of P) l -> rtc (fcstep P) σ σ'.
Proof.
  revert σ. induction l as [|a l IH]; intros σ; cbn [fexec]; [by intros [= <-]|].
  destruct (fexec1 σ a) as [σ1|] eqn:E; [|done]. intros Hl [Ha Hf]%Forall_cons.
  eapply rtc_l; [|by apply IH]. destruct σ as [f c l0]. unfold fexec1 in E.
  destruct a as [i|i v|i]; destruct (c !! i) as [p|] eqn:Ei; try done.
  - simplify_eq. by apply fc_access.
  - destruct p; simplify_eq. by eapply fc_push.
  - destruct p; simplify_eq. by eapply fc_pop.
Qed.

(** Thread 1 begins a pop and loads the sentinel; thread 0 pushes two values and
    thread 2 takes both; then thread 1 goes on. *)
Definition two_consumers : list fchoice :=
  [CallPop 1; Move 1] ++
  [CallPush 0 11] ++ replicate 6 (Move 0) ++ [CallPush 0 22] ++ replicate 6 (Move 0) ++
  [CallPop 2] ++ replicate 5 (Move 2) ++ [CallPop 2] ++ replicate 5 (Move 2) ++
  replicate 4 (Move 1).

(** With two consumers the queue is broken: the sentinel is loaded before the
    head, so a consumer can take a value from an empty queue. In this schedule
    two values are pushed and three are taken, the last one from a slot that was
    never written (its contents, modelled as 0, are whatever [malloc] left), and
    the head overtakes the tail. *)
Theorem cfifo_two_consumers_overrun : exists σ,
  rtc (fcstep (fun i => i = 1%nat \/ i = 2%nat)) (fstart 3 3) σ /\ no_wrap σ /\
  pushes (flog σ) = [11; 22] /\ pops (flog σ) = [11; 22; 0] /\
  head (fq σ) = 3 /\ tail (fq σ) = 2 /\ cfifo_size (fq σ) = 2 ^ 64 - 1.
Proof.
  assert (is_Some (fexec (fstart 3 3) two_consumers)) as [σ E] by (vm_compute; eauto).
  exists σ. split; [apply (fexec_steps _ _ two_consumers); [done|]|].
  - repeat (constructor; [simpl; auto|]). constructor.
  - vm_compute in E. injection E as <-. by vm_compute.
Qed.

(** * Examples *)

Lemma cfifo_push_refines_witness : exists f',
  frun 7 (cfifo_alloc 3) (cfifo_push 5) = Some (0, f') /\ bound f' = 4 /\ (2 < 2 ^ 64 -> fifo_rep f' [5]).
Proof.
  apply (cfifo_push_refines (cfifo_alloc 3) [] 5 7); [apply fifo_rep_alloc; lia|lia].
Defined.

Definition ex_fifo : cfifo_s := Cfifo 6 8 8 2 4 {[2 := 55; 3 := 66]}.

Lemma ex_fifo_rep : fifo_rep ex_fifo [55; 66].
Proof.
  split; cbn; try lia. intros [|[|k]] x Hx; simpl in Hx; simplify_eq; by vm_compute.
Qed.

Lemma cfifo_pop_refines_witness : exists f',
  frun 6 ex_fifo cfifo_pop = Some (55, f') /\ bound f' = 4 /\ tail f' = 8 /\ fifo_rep f' [66].
Proof. apply (cfifo_pop_refines ex_fifo [55; 66] 6); [apply ex_fifo_rep|lia]. Defined.

(** Two producers that overlap, one consumer that then takes a value and begins
    another pop *)
Definition ex_fschedule : list fchoice :=
  [CallPush 0 11; CallPush 1 22; Move 1; Move 1; Move 1; Move 0; Move 0; Move 0; Move 0] ++
  replicate 3 (Move 1) ++ replicate 2 (Move 0) ++ [CallPop 2] ++ replicate 4 (Move 2).

Definition ex_fconfig : fconfig := default (fstart 3 3) (fexec (fstart 3 3) ex_fschedule).

Lemma ex_fconfig_reachable : rtc (fcstep (eq 2%nat)) (fstart 3 3) ex_fconfig.
Proof.
  apply (fexec_steps _ _ ex_fschedule); [by vm_compute|].
  repeat (constructor; [simpl; auto|]). constructor.
Qed.

Lemma cfifo_single_consumer_fifo_witness :
  pops (flog ex_fconfig) = [22] /\ pops (flog ex_fconfig) `prefix_of` pushes (flog ex_fconfig) /\
  Z.of_nat (length (pushes (flog ex_fconfig))) - Z.of_nat (length (pops (flog ex_fconfig))) <= 3.
Proof.
  split; [by vm_compute|].
  apply (cfifo_single_consumer_fifo 3 3 2 ex_fconfig); [lia|apply ex_fconfig_reachable|by vm_compute].
Defined.

(** That run goes on: the consumer takes the second value and finds the queue empty. *)
Definition ex_schedule : list fchoice :=
  ex_fschedule ++ [Move 2; CallPop 2] ++ replicate 5 (Move 2) ++ [CallPop 2; Move 2; Move 2].

Definition ex_returns : fconfig := default (fstart 3 3) (fexec (fstart 3 3) ex_schedule).

Lemma ex_returns_reachable : rtc (fcstep (eq 2%nat)) (fstart 3 3) ex_returns.
Proof.
  apply (fexec_steps _ _ ex_schedule); [by vm_compute|]. repeat (constructor; [simpl; auto|]). constructor.
Qed.

Lemma cfifo_calls_return_witness : exists l1 l2 l3 l4,
  flog ex_returns = l1 ++ ECallPop 2 :: [EPop 2 11] ++ ERet 2 11 :: l2 /\
  flog ex_returns = l3 ++ ECallPop 2 :: [] ++ ERet 2 0 :: l4 /\
  (acts 2 [] = [EPop 2 0] \/ 0 = 0 /\ acts 2 [] = [] /\
     exists l5 l6, [] = l5 ++ l6 /\ published (l3 ++ ECallPop 2 :: l5) = length (pops (l3 ++ ECallPop 2 :: l5))).
Proof.
  exists (take 11 (flog ex_returns)), (drop 14 (flog ex_returns)), (take 14 (flog ex_returns)), [].
  split; [by vm_compute|]. split; [by vm_compute|].
  apply (cfifo_calls_return 3 3 2 ex_returns 2 (ECallPop 2) (take 14 (flog ex_returns)) [] [] 0);
    [lia|apply ex_returns_reachable|by vm_compute..|constructor].
Defined.

(** [cfifo_push] loads the tail before the head. When a value is pushed and taken in between, the
    head is one ahead of that tail, and the push returns -1 although the queue is empty. *)
Lemma cfifo_push_spurious_full : exists σ,
  rtc (fcstep (eq 2%nat)) (fstart 3 3) σ /\
  flog σ = [ECallPush 0 11; ECallPush 1 22; EPush 1 22; EPublish 1; ERet 1 0; ECallPop 2; EPop 2 22; ERet 2 22; ERet 0 (-1)] /\
  cfifo_size (fq σ) = 0 /\ bound (fq σ) = 4.
Proof.
  set (l := [CallPush 0 11; Move 0; CallPush 1 22] ++ replicate 6 (Move 1) ++ [CallPop 2] ++ replicate 5 (Move 2) ++ [Move 0]).
  exists (default (fstart 3 3) (fexec (fstart 3 3) l)). split; [|by vm_compute].
  apply (fexec_steps _ _ l); [by vm_compute|]. repeat (constructor; [simpl; auto|]). constructor.
Qed.
