(* ===== verification/Clifo.v ===== *)
(** The bounded stack of [lifo/clifo.c]: a position is reserved by moving [head],
    then the slot is passed between pushers and poppers through a three-state
    lock. The operations as automata, their sequential refinement of a bounded
    stack, and the conservation of values under every interleaving. *)
From S2P Require Import Prelude.

(** Node states *)
Inductive nst := NST_EMPTY | NST_BUSY | NST_FULL.

#[export] Instance nst_eq_dec : EqDecision nst.
Proof. solve_decision. Defined.

(** [clifo_node_s] *)
Record clifo_node_s := Node { value : Z; lock : nst }.

(** [clifo_s] *)
Record clifo_s := Clifo { head : Z; bound : Z; buffer : list clifo_node_s }.

(** The values of the slots are not initialised: [junk] stands for what [malloc]
    left in them. *)
Definition clifo_alloc (junk size : Z) : clifo_s :=
  Clifo 0 size (replicate (Z.to_nat size) (Node junk NST_EMPTY)).

Definition clifo_size (s : clifo_s) : Z := head s.

(** Where a call is, named after the access it performs next; [Fault] is an
    access outside the buffer. *)
Inductive lpc :=
  | PushLoad (v : Z)
  | PushCas (v head : Z)
  | PushLock (v head : Z)
  | PushWrite (v head : Z)
  | PushUnlock (head : Z)
  | PopLoad
  | PopCas (head : Z)
  | PopLock (next : Z)
  | PopRead (next : Z)
  | PopUnlock (next value : Z)
  | Returned (ret : Z)
  | Fault.

Definition clifo_push (v : Z) : lpc := PushLoad v.

Definition clifo_pop : lpc := PopLoad.

Definition set_head (s : clifo_s) (h : Z) : clifo_s := Clifo h (bound s) (buffer s).

Definition set_node (s : clifo_s) (i : Z) (n : clifo_node_s) : clifo_s :=
  Clifo (head s) (bound s) (<[Z.to_nat i := n]> (buffer s)).

(** Access to slot [i]: the continuation gets its node. *)
Definition at_node (s : clifo_s) (i : Z) (k : clifo_node_s -> clifo_s * lpc) : clifo_s * lpc :=
  match buffer s !! Z.to_nat i with Some n => k n | None => (s, Fault) end.

(** One atomic access of [clifo_push] or [clifo_pop]; a [PushLock] or [PopLock]
    whose compare-and-swap fails spins. *)
Definition lstep (s : clifo_s) (p : lpc) : clifo_s * lpc :=
  match p with
  | PushLoad v =>
      if head s =? u64 (bound s - 1) then (s, Returned (-1)) else (s, PushCas v (head s))
  | PushCas v h =>
      if head s =? h then (set_head s (u64 (h + 1)), PushLock v h) else (s, PushLoad v)
  | PushLock v h => at_node s h (fun n =>
      if decide (lock n = NST_EMPTY) then (set_node s h (Node (value n) NST_BUSY), PushWrite v h)
      else (s, PushLock v h))
  | PushWrite v h => at_node s h (fun n => (set_node s h (Node v (lock n)), PushUnlock h))
  | PushUnlock h => at_node s h (fun n => (set_node s h (Node (value n) NST_FULL), Returned 0))
  | PopLoad => if head s =? 0 then (s, Returned 0) else (s, PopCas (head s))
  | PopCas h =>
      let next := u64 (h - 1) in
      if head s =? h then (set_head s next, PopLock next) else (s, PopLoad)
  | PopLock i => at_node s i (fun n =>
      if decide (lock n = NST_FULL) then (set_node s i (Node (value n) NST_BUSY), PopRead i)
      else (s, PopLock i))
  | PopRead i => at_node s i (fun n => (s, PopUnlock i (value n)))
  | PopUnlock i v => at_node s i (fun n => (set_node s i (Node (value n) NST_EMPTY), Returned v))
  | Returned r => (s, Returned r)
  | Fault => (s, Fault)
  end.

(** A call that runs alone *)
Fixpoint lrun (fuel : nat) (s : clifo_s) (p : lpc) : option (Z * clifo_s) :=
  match p with
  | Returned r => Some (r, s)
  | Fault => None
  | _ => match fuel with
         | O => None
         | S fuel => let '(s', p') := lstep s p in lrun fuel s' p'
         end
  end.

Lemma lrun_S fuel s p : lrun (S fuel) s p = lrun fuel (lstep s p).1 (lstep s p).2.
Proof. destruct p; simpl; try by repeat case_match. all: by destruct fuel. Qed.

Lemma lrun_ret fuel s r : lrun fuel s (Returned r) = Some (r, s).
Proof. by destruct fuel. Qed.

#[global] Arguments lrun : simpl never.

Ltac lnext := rewrite lrun_S; cbn [lstep fst snd].

(** * Sequential behaviour: a bounded stack *)

(** [s] holds the values of [q], the top first; the slots above are empty. *)
Record lifo_rep (s : clifo_s) (q : list Z) : Prop := {
  lr_bound : 0 < bound s < 2 ^ 64 /\ Z.of_nat (length (buffer s)) = bound s;
  lr_head : head s = Z.of_nat (length q);
  lr_room : head s <= bound s - 1;
  lr_full : forall k v, rev q !! k = Some v -> buffer s !! k = Some (Node v NST_FULL);
  lr_empty : forall k, (length q <= k)%nat -> (k < length (buffer s))%nat ->
    exists v, buffer s !! k = Some (Node v NST_EMPTY);
}.

Lemma lifo_rep_alloc junk size : 0 < size < 2 ^ 64 -> lifo_rep (clifo_alloc junk size) [].
Proof.
  intros Hs. split; cbn [bound buffer head clifo_alloc length]; try lia; try done.
  - rewrite length_replicate. lia.
  - intros k _. rewrite length_replicate. intros Hk. exists junk. apply lookup_replicate. split; [done|lia].
Qed.

(** [clifo_push] run alone puts the value on top and returns 0, or returns -1 and
    changes nothing when the stack holds one value less than it was allocated
    for. *)
Theorem clifo_push_refines s q v fuel :
  lifo_rep s q -> (6 <= fuel)%nat ->
  exists s', lrun fuel s (clifo_push v) =
      Some (if Z.of_nat (length q) =? bound s - 1 then -1 else 0, s') /\
    bound s' = bound s /\ lifo_rep s' (if Z.of_nat (length q) =? bound s - 1 then q else v :: q).
Proof.
  intros Hrep Hf. pose proof Hrep as [[Hb Hlen] Hh Hr Hfull Hempty].
  do 6 (destruct fuel as [|fuel]; [lia|]). unfold clifo_push. lnext.
  rewrite u64_small, <- Hh by lia. destruct (Z.eqb_spec (head s) (bound s - 1)) as [E|Hne].
  { cbn [fst snd]. rewrite lrun_ret. by exists s. }
  cbn [fst snd]. lnext. rewrite Z.eqb_refl, u64_small by lia. cbn [fst snd].
  destruct (Hempty (Z.to_nat (head s))) as [v0 E0]; [lia..|].
  assert (Hlt : (Z.to_nat (head s) < length (buffer s))%nat) by lia.
  lnext. unfold at_node. cbn [buffer set_head]. rewrite E0. cbn [lock]. rewrite decide_True by done. cbn [fst snd].
  lnext. unfold at_node. cbn [buffer set_head set_node]. rewrite list_lookup_insert_eq by done. cbn [fst snd].
  lnext. unfold at_node. cbn [buffer set_head set_node]. rewrite list_lookup_insert_eq by (by rewrite length_insert).
  cbn [fst snd]. rewrite lrun_ret. eexists. split; [done|]. split; [done|].
  unfold set_node, set_head. cbn [value buffer bound head]. rewrite !list_insert_insert_eq.
  split; cbn [bound buffer head length]; rewrite ?length_insert; try lia.
  - intros k x Hk. simpl in Hk. apply lookup_snoc_Some in Hk as [[Hk Hx]|[-> <-]]; rewrite length_rev in *.
    + rewrite list_lookup_insert_ne by lia. by apply Hfull.
    + rewrite Hh, Nat2Z.id in *. by rewrite list_lookup_insert_eq.
  - intros k Hk Hk2. rewrite list_lookup_insert_ne by lia. apply Hempty; lia.
Qed.

(** [clifo_pop] run alone removes and returns the value pushed last, or returns
    NULL and changes nothing when the stack is empty. *)
Theorem clifo_pop_refines s q fuel :
  lifo_rep s q -> (6 <= fuel)%nat ->
  exists s', lrun fuel s clifo_pop = Some (match q with [] => 0 | v :: _ => v end, s') /\
    bound s' = bound s /\ lifo_rep s' (match q with [] => [] | _ :: q' => q' end).
Proof.
  intros Hrep Hf. pose proof Hrep as [[Hb Hlen] Hh Hr Hfull Hempty].
  do 6 (destruct fuel as [|fuel]; [lia|]). unfold clifo_pop. lnext.
  destruct q as [|v q]; simpl length in *.
  { rewrite (proj2 (Z.eqb_eq (head s) 0)) by lia. cbn [fst snd]. rewrite lrun_ret. by exists s. }
  rewrite (proj2 (Z.eqb_neq (head s) 0)) by lia. cbn [fst snd]. lnext.
  rewrite Z.eqb_refl, u64_small by lia. cbn [fst snd].
  assert (E0 : buffer s !! Z.to_nat (head s - 1) = Some (Node v NST_FULL)).
  { apply Hfull. simpl. apply lookup_snoc_Some. right. rewrite length_rev. split; [lia|done]. }
  assert (Hlt : (Z.to_nat (head s - 1) < length (buffer s))%nat) by lia.
  lnext. unfold at_node. cbn [buffer set_head]. rewrite E0. cbn [lock]. rewrite decide_True by done. cbn [fst snd].
  lnext. unfold at_node. cbn [buffer set_head set_node]. rewrite list_lookup_insert_eq by done. cbn [fst snd].
  lnext. unfold at_node. cbn [buffer set_head set_node]. rewrite list_lookup_insert_eq by done.
  cbn [fst snd value]. rewrite lrun_ret. eexists. split; [done|]. split; [done|].
  unfold set_node, set_head. cbn [value buffer bound head]. rewrite !list_insert_insert_eq.
  split; cbn [bound buffer head length]; rewrite ?length_insert; try lia.
  - intros k x Hk. pose proof (lookup_lt_Some _ _ _ Hk) as Hk'. rewrite length_rev in Hk'.
    rewrite list_lookup_insert_ne by lia. apply Hfull. simpl. by apply lookup_app_l_Some.
  - intros k Hk Hk2. destruct (decide (k = Z.to_nat (head s - 1))) as [->|].
    + exists v. by rewrite list_lookup_insert_eq.
    + rewrite list_lookup_insert_ne by lia. apply Hempty; lia.
Qed.

(** * Interleavings *)

(** A value is put into a slot, or taken out of one. *)
Inductive levent := EPut (v : Z) | ETake (v : Z).

Record lconfig := LCfg { stack : clifo_s; calls : gmap nat lpc; llog : list levent }.

Definition levents (s : clifo_s) (p : lpc) : list levent :=
  match p with
  | PushWrite v _ => [EPut v]
  | PopRead i => match buffer s !! Z.to_nat i with Some n => [ETake (value n)] | None => [] end
  | _ => []
  end.

(** Any thread performs its next access, or calls again after it returned. *)
Inductive lcstep : lconfig -> lconfig -> Prop :=
  | lc_access s c l i p :
      c !! i = Some p ->
      lcstep (LCfg s c l) (LCfg (lstep s p).1 (<[i := (lstep s p).2]> c) (l ++ levents s p))
  | lc_push s c l i r v :
      c !! i = Some (Returned r) -> lcstep (LCfg s c l) (LCfg s (<[i := clifo_push v]> c) l)
  | lc_pop s c l i r :
      c !! i = Some (Returned r) -> lcstep (LCfg s c l) (LCfg s (<[i := clifo_pop]> c) l).

Definition puts (l : list levent) : list Z := omap (fun e => match e with EPut v => Some v | _ => None end) l.

Definition takes (l : list levent) : list Z := omap (fun e => match e with ETake v => Some v | _ => None end) l.

Definition lstart (junk size : Z) (k : nat) : lconfig :=
  LCfg (clifo_alloc junk size) (list_to_map ((fun i => (i, Returned 0)) <$> seq 0 k)) [].

(** The slot a thread has locked *)
Definition owns (p : lpc) : option nat :=
  match p with
  | PushWrite _ h | PushUnlock h | PopRead h | PopUnlock h _ => Some (Z.to_nat h)
  | _ => None
  end.

(** [g i] is the value in slot [i] that has been put there and not taken. *)
Definition node_ok (g : option Z) (n : clifo_node_s) : Prop :=
  match lock n with NST_EMPTY => g = None | NST_FULL => g = Some (value n) | NST_BUSY => True end.

Definition call_ok (s : clifo_s) (g : nat -> option Z) (p : lpc) : Prop :=
  match p with
  | PushCas _ h | PushLock _ h => 0 <= h < bound s - 1
  | PopCas h => 0 < h <= bound s - 1
  | PopLock i => 0 <= i < bound s - 1
  | PushWrite _ i | PopUnlock i _ =>
      g (Z.to_nat i) = None /\ exists v, buffer s !! Z.to_nat i = Some (Node v NST_BUSY)
  | PushUnlock i | PopRead i =>
      exists v, g (Z.to_nat i) = Some v /\ buffer s !! Z.to_nat i = Some (Node v NST_BUSY)
  | PushLoad _ | PopLoad | Returned _ => True
  | Fault => False
  end.

Record linv (size : Z) (g : nat -> option Z) (σ : lconfig) : Prop := {
  li_bound : bound (stack σ) = size /\ 0 < size < 2 ^ 64;
  li_length : Z.of_nat (length (buffer (stack σ))) = size;
  li_head : 0 <= head (stack σ) <= size - 1;
  li_nodes : forall i n, buffer (stack σ) !! i = Some n -> node_ok (g i) n;
  li_calls : forall j p, calls σ !! j = Some p -> call_ok (stack σ) g p;
  li_owns : forall j k p q i, calls σ !! j = Some p -> calls σ !! k = Some q -> j <> k ->
    owns p = Some i -> owns q <> Some i;
  li_values : takes (llog σ) ++ omap g (seq 0 (Z.to_nat size)) ≡ₚ puts (llog σ);
}.

Definition fupd (g : nat -> option Z) (i : nat) (x : option Z) : nat -> option Z :=
  fun j => if decide (j = i) then x else g j.

Lemma fupd_eq g i x : fupd g i x i = x.
Proof. unfold fupd. by rewrite decide_True. Qed.

Lemma fupd_ne g i j x : j <> i -> fupd g i x j = g j.
Proof. intros. unfold fupd. by rewrite decide_False. Qed.

Lemma omap_fupd_fresh g i x (L : list nat) : i ∉ L -> omap (fupd g i x) L = omap g L.
Proof.
  induction L as [|j L IH]; [done|]. intros [Hj HL]%not_elem_of_cons. cbn.
  rewrite fupd_ne by congruence. by rewrite IH.
Qed.

(** Putting a value into a slot that holds none *)
Lemma omap_fupd_Some g i v (L : list nat) :
  NoDup L -> i ∈ L -> g i = None -> omap (fupd g i (Some v)) L ≡ₚ v :: omap g L.
Proof.
  induction L as [|j L IH]; [by intros _ ?%not_elem_of_nil|].
  intros [Hj HL]%NoDup_cons [->|Hi]%elem_of_cons Hg; cbn.
  - by rewrite fupd_eq, Hg, omap_fupd_fresh.
  - assert (j <> i) by congruence. rewrite fupd_ne by done.
    destruct (g j) as [w|]; rewrite IH by done; [|done]. apply Permutation_swap.
Qed.

(** Taking the value of a slot *)
Lemma omap_fupd_None g i v (L : list nat) :
  NoDup L -> i ∈ L -> g i = Some v -> v :: omap (fupd g i None) L ≡ₚ omap g L.
Proof.
  intros HL Hi Hg. rewrite <- (omap_fupd_Some (fupd g i None) i v L HL Hi) by apply fupd_eq.
  assert (omap (fupd (fupd g i None) i (Some v)) L = omap g L) as ->; [|done].
  clear HL Hi. induction L as [|j L IH]; [done|]. cbn. rewrite IH. unfold fupd.
  destruct (decide (j = i)) as [->|]; by rewrite ?Hg.
Qed.

Section interleaving.
Context (size : Z).
Implicit Types (s : clifo_s) (c : gmap nat lpc) (l : list levent) (g : nat -> option Z).

Lemma owns_busy s g p i :
  call_ok s g p -> owns p = Some i -> exists v, buffer s !! i = Some (Node v NST_BUSY).
Proof. destruct p; intros Hok [= <-]; naive_solver. Qed.

Lemma linv_owns c i p' :
  (forall j k p q x, c !! j = Some p -> c !! k = Some q -> j <> k ->
     owns p = Some x -> owns q <> Some x) ->
  (forall x, owns p' = Some x -> forall j q, j <> i -> c !! j = Some q -> owns q <> Some x) ->
  forall j k p q x, <[i := p']> c !! j = Some p -> <[i := p']> c !! k = Some q -> j <> k ->
    owns p = Some x -> owns q <> Some x.
Proof.
  intros Hr Hnew j k p q x [[<- <-]|[Hj Ej]]%lookup_insert_Some [[<- <-]|[Hk Ek]]%lookup_insert_Some Hne Ep;
    [done|by eapply Hnew| |by eapply (Hr j k)].
  intros Ep'. by apply (Hnew x Ep' j p).
Qed.

Lemma linv_local s c l i p' g :
  linv size g (LCfg s c l) -> call_ok s g p' -> owns p' = None -> linv size g (LCfg s (<[i := p']> c) l).
Proof.
  intros [H1 H2 H3 H4 H5 H6 H7] Hp Ho. split; try done; cbn [stack calls llog] in *.
  - intros j q [[<- <-]|[_ ?]]%lookup_insert_Some; eauto.
  - apply linv_owns; [done|]. congruence.
Qed.

(** Moving [head] *)
Lemma linv_head s c l i h p' g :
  linv size g (LCfg s c l) -> 0 <= h <= size - 1 -> call_ok s g p' -> owns p' = None ->
  linv size g (LCfg (set_head s h) (<[i := p']> c) l).
Proof. intros Hi Hh Hp Ho. apply (linv_local (set_head s h)); [|done|done]. by destruct Hi; split. Qed.

(** A thread that keeps or obtains the lock of slot [x] changes the node there,
    and with it the contents. *)
Lemma linv_node s c l l' i x n n' p p' g y :
  linv size g (LCfg s c l) -> c !! i = Some p -> buffer s !! Z.to_nat x = Some n ->
  (owns p = Some (Z.to_nat x) \/ lock n <> NST_BUSY) ->
  (owns p' = Some (Z.to_nat x) \/ owns p' = None) ->
  node_ok y n' -> call_ok (set_node s x n') (fupd g (Z.to_nat x) y) p' ->
  takes l' ++ omap (fupd g (Z.to_nat x) y) (seq 0 (Z.to_nat size)) ≡ₚ puts l' ->
  linv size (fupd g (Z.to_nat x) y) (LCfg (set_node s x n') (<[i := p']> c) l').
Proof.
  intros [H1 H2 H3 H4 H5 H6 H7] Ei Ex Hown Hown' Hn Hp Hv. cbn [stack calls llog] in *.
  assert (Hfree : forall j q, j <> i -> c !! j = Some q -> owns q <> Some (Z.to_nat x)).
  { intros j q Hne Hj Hq. destruct Hown as [Hown|Hb]; [by eapply (H6 i j)|]. specialize (H5 _ _ Hj).
    apply Hb. destruct (owns_busy _ _ _ _ H5 Hq) as [v Hv']. by simplify_eq. }
  split; cbn [stack calls llog]; try done.
  - cbn [buffer set_node]. by rewrite length_insert.
  - intros k m. cbn [buffer set_node]. intros [(<- & <- & _)|[Hne Hk]]%list_lookup_insert_Some.
    + by rewrite fupd_eq.
    + rewrite fupd_ne by congruence. by apply H4.
  - intros j q [[<- <-]|[Hne Hj]]%lookup_insert_Some; [done|].
    specialize (Hfree j q ltac:(congruence) Hj). specialize (H5 _ _ Hj).
    destruct q; simpl in *; try done; rewrite fupd_ne, list_lookup_insert_ne by congruence; done.
  - apply linv_owns; [done|]. intros z Ez j q Hne Hj. destruct Hown' as [E|E]; [|congruence].
    assert (z = Z.to_nat x) as -> by congruence. by apply (Hfree j).
Qed.

Lemma omap_fupd_same g i y (L : list nat) : g i = y -> omap (fupd g i y) L = omap g L.
Proof.
  intros <-. induction L as [|j L IH]; [done|]. cbn. rewrite IH. unfold fupd.
  by destruct (decide (j = i)) as [->|].
Qed.

(** Locking or unlocking a slot leaves its contents alone. *)
Lemma linv_lock s c l i x n k p p' g :
  linv size g (LCfg s c l) -> c !! i = Some p -> buffer s !! Z.to_nat x = Some n ->
  (owns p = Some (Z.to_nat x) \/ lock n <> NST_BUSY) ->
  (owns p' = Some (Z.to_nat x) \/ owns p' = None) ->
  node_ok (g (Z.to_nat x)) (Node (value n) k) ->
  call_ok (set_node s x (Node (value n) k)) (fupd g (Z.to_nat x) (g (Z.to_nat x))) p' ->
  exists g', linv size g' (LCfg (set_node s x (Node (value n) k)) (<[i := p']> c) l).
Proof.
  intros Hi Ei En Ho Ho' Hn Hp. eexists. eapply linv_node; try done.
  rewrite omap_fupd_same by done. apply Hi.
Qed.

Lemma set_node_lookup s x n n' :
  buffer s !! Z.to_nat x = Some n -> buffer (set_node s x n') !! Z.to_nat x = Some n'.
Proof. intros ?%lookup_lt_Some. cbn. by rewrite list_lookup_insert_eq. Qed.

Lemma linv_put s c l i v x g :
  linv size g (LCfg s c l) -> c !! i = Some (PushWrite v x) ->
  exists g', linv size g' (LCfg (lstep s (PushWrite v x)).1 (<[i := (lstep s (PushWrite v x)).2]> c) (l ++ [EPut v])).
Proof.
  intros Hi Ei. destruct (li_calls _ _ _ Hi i _ Ei) as [Hg [w En]]. cbn [lstep stack] in *. unfold at_node.
  rewrite En. cbn [fst snd lock]. exists (fupd g (Z.to_nat x) (Some v)).
  eapply linv_node; try done; [by left|by left|..].
  - simpl. exists v. split; [apply fupd_eq|]. by eapply set_node_lookup.
  - unfold takes, puts. rewrite !omap_app, app_nil_r.
    rewrite omap_fupd_Some; [|apply NoDup_seq| |done].
    + rewrite <- Permutation_middle, Permutation_cons_append. apply Permutation_app_tail, Hi.
    + apply elem_of_seq. apply lookup_lt_Some in En. pose proof (li_length _ _ _ Hi). cbn [stack] in *. lia.
Qed.

Lemma linv_take s c l i x g :
  linv size g (LCfg s c l) -> c !! i = Some (PopRead x) ->
  exists g', linv size g' (LCfg (lstep s (PopRead x)).1 (<[i := (lstep s (PopRead x)).2]> c)
                                (l ++ levents s (PopRead x))).
Proof.
  intros Hi Ei. destruct (li_calls _ _ _ Hi i _ Ei) as (w & Hg & En). cbn [lstep levents stack] in *.
  unfold at_node. rewrite En. cbn [fst snd value]. exists (fupd g (Z.to_nat x) None).
  assert (Es : s = set_node s x (Node w NST_BUSY)).
  { destruct s. unfold set_node. cbn in *. by rewrite list_insert_id. }
  rewrite Es at 1. eapply linv_node; try done; [by left|by left|..].
  - simpl. split; [apply fupd_eq|]. exists w. by eapply set_node_lookup.
  - unfold takes, puts. rewrite !omap_app, app_nil_r. cbn [omap list_omap].
    rewrite <- app_assoc. cbn [app]. rewrite omap_fupd_None; [apply Hi|apply NoDup_seq| |done].
    apply elem_of_seq. apply lookup_lt_Some in En. pose proof (li_length _ _ _ Hi). cbn [stack] in *. lia.
Qed.

Lemma linv_access s c l i p g :
  linv size g (LCfg s c l) -> c !! i = Some p ->
  exists g', linv size g' (LCfg (lstep s p).1 (<[i := (lstep s p).2]> c) (l ++ levents s p)).
Proof.
  intros Hi Ei. pose proof (li_calls _ _ _ Hi i p Ei) as Hok. pose proof Hi as [[Hb Hsz] Hlen Hh Hn _ _ _].
  cbn [stack calls llog] in *.
  destruct p; try solve [by eapply linv_put | by eapply linv_take]; cbn [lstep levents] in *;
    rewrite ?app_nil_r; unfold at_node.
  - rewrite u64_small by lia. exists g. destruct (Z.eqb_spec (head s) (bound s - 1)); apply linv_local; try done.
    simpl. lia.
  - simpl in Hok. exists g. destruct (Z.eqb_spec (head s) head0) as [<-|]; [|by apply linv_local].
    rewrite u64_small by lia. apply linv_head; try done; simpl; lia.
  - simpl in Hok. destruct (lookup_lt_is_Some_2 (buffer s) (Z.to_nat head0)) as [n En]; [lia|]. rewrite En.
    specialize (Hn _ _ En). unfold node_ok in Hn. case_decide as El; [|exists g; by apply linv_local].
    rewrite El in Hn. eapply linv_lock; try done; [right; congruence|by left|].
    simpl. split; [by rewrite fupd_eq|]. eexists. by eapply set_node_lookup.
  - destruct Hok as (w & Hg & En). rewrite En. cbn [fst snd].
    eapply linv_lock; try done; [by left|by right].
  - exists g. destruct (Z.eqb_spec (head s) 0); apply linv_local; try done. simpl. lia.
  - simpl in Hok. exists g. destruct (Z.eqb_spec (head s) head0) as [<-|]; [|by apply linv_local].
    rewrite u64_small by lia. apply linv_head; try done; simpl; lia.
  - simpl in Hok. destruct (lookup_lt_is_Some_2 (buffer s) (Z.to_nat next)) as [n En]; [lia|]. rewrite En.
    specialize (Hn _ _ En). unfold node_ok in Hn. case_decide as El; [|exists g; by apply linv_local].
    rewrite El in Hn. eapply linv_lock; try done; [right; congruence|by left|].
    simpl. exists (value n). split; [by rewrite fupd_eq|]. by eapply set_node_lookup.
  - destruct Hok as (Hg & w & En). rewrite En. cbn [fst snd].
    eapply linv_lock; try done; [by left|by right].
  - exists g. by apply linv_local.
  - done.
Qed.

Lemma linv_step σ σ' g : linv size g σ -> lcstep σ σ' -> exists g', linv size g' σ'.
Proof.
  intros Hi Hs. destruct Hs; [by eapply linv_access|..]; exists g; by apply linv_local.
Qed.

Lemma linv_start junk k : 0 < size < 2 ^ 64 -> linv size (fun _ => None) (lstart junk size k).
Proof.
  intros Hs. split; cbn [stack calls llog lstart clifo_alloc head bound buffer]; try lia; try done.
  - rewrite length_replicate. lia.
  - by intros i n [-> _]%lookup_replicate.
  - intros i p Hl%elem_of_list_to_map_2. by apply list_elem_of_fmap in Hl as (? & [= -> ->] & _).
  - intros i j p q t Hl%elem_of_list_to_map_2. by apply list_elem_of_fmap in Hl as (? & [= -> ->] & _).
  - generalize 0%nat. induction (Z.to_nat size) as [|m IH]; intros a; [done|]. cbn. apply IH.
Qed.

Lemma linv_reachable junk k σ :
  0 < size < 2 ^ 64 -> rtc lcstep (lstart junk size k) σ -> exists g, linv size g σ.
Proof.
  intros Hs Hr. assert (exists g, linv size g (lstart junk size k)) as H0 by eauto using linv_start.
  revert H0. induction Hr as [|σ1 σ2 σ3 Hst _ IH]; [done|]. intros [g Hg]. apply IH. by eapply linv_step.
Qed.
End interleaving.

(** C23: under every interleaving of any number of threads, no slot outside the
    buffer is touched, at most one thread is inside a slot at a time, and the
    values taken are among the values put, each of them at most once: no value is
    duplicated or made up. *)
Theorem clifo_conserves_values junk size k σ :
  0 < size < 2 ^ 64 -> rtc lcstep (lstart junk size k) σ ->
  (exists rest, takes (llog σ) ++ rest ≡ₚ puts (llog σ)) /\
  (forall j, calls σ !! j <> Some Fault) /\
  (forall i j p q x, calls σ !! i = Some p -> calls σ !! j = Some q ->
     owns p = Some x -> owns q = Some x -> i = j).
Proof.
  intros Hs Hr. destruct (linv_reachable size junk k σ Hs Hr) as [g [_ _ _ _ Hc Ho Hv]].
  split_and!; [eauto| |].
  - intros j Hj. by apply Hc in Hj.
  - intros i j p q x Hi Hj Hp Hq. destruct (decide (i = j)); [done|]. by destruct (Ho i j p q x).
Qed.

(** A stack allocated with size 0 accepts a push, because the full test compares
    with [size - 1], which wraps around, and the push then accesses a slot outside
    the (empty) buffer. *)
Theorem clifo_size_zero_faults junk v : exists s, 
  lstep (clifo_alloc junk 0) (clifo_push v) = (clifo_alloc junk 0, PushCas v 0) /\
  lstep (clifo_alloc junk 0) (PushCas v 0) = (s, PushLock v 0) /\ lstep s (PushLock v 0) = (s, Fault).
Proof. eexists. split_and!; by vm_compute. Qed.

Lemma clifo_push_refines_witness : exists s',
  lrun 6 (clifo_alloc 7 3) (clifo_push 5) = Some (0, s') /\ bound s' = 3 /\ lifo_rep s' [5].
Proof. apply (clifo_push_refines (clifo_alloc 7 3) [] 5 6); [apply lifo_rep_alloc; lia|lia]. Defined.

Lemma clifo_pop_refines_witness : exists s',
  lrun 6 (clifo_alloc 7 3) clifo_pop = Some (0, s') /\ bound s' = 3 /\ lifo_rep s' [].
Proof. apply (clifo_pop_refines (clifo_alloc 7 3) [] 6); [apply lifo_rep_alloc; lia|lia]. Defined.

(** A scheduler's choice: a thread that has returned calls, or a thread performs its
    next access. *)
Inductive lchoice := LPush (i : nat) (v : Z) | LPop (i : nat) | LMove (i : nat).

Definition lexec1 (σ : lconfig) (a : lchoice) : option lconfig :=
  let '(LCfg s c l) := σ in
  match a with
  | LPush i v => match c !! i with Some (Returned _) => Some (LCfg s (<[i := clifo_push v]> c) l) | _ => None end
  | LPop i => match c !! i with Some (Returned _) => Some (LCfg s (<[i := clifo_pop]> c) l) | _ => None end
  | LMove i =>
      match c !! i with
      | Some p => Some (LCfg (lstep s p).1 (<[i := (lstep s p).2]> c) (l ++ levents s p))
      | None => None
      end
  end.

Fixpoint lexec (σ : lconfig) (l : list lchoice) : option lconfig :=
  match l with [] => Some σ | a :: l => match lexec1 σ a with Some σ' => lexec σ' l | None => None end end.

Lemma lexec_steps σ l σ' : lexec σ l = Some σ' -> rtc lcstep σ σ'.
Proof.
  revert σ. induction l as [|a l IH]; intros [s c g]; cbn [lexec]; [by intros [= <-]|].
  destruct (lexec1 _ a) as [σ1|] eqn:E; [|done]. intros Hr%IH. eapply rtc_l; [|exact Hr].
  destruct a as [i v|i|i]; simpl in E; destruct (c !! i) as [p|] eqn:Hi; try done.
  - destruct p; try done. injection E as <-. by eapply lc_push.
  - destruct p; try done. injection E as <-. by eapply lc_pop.
  - injection E as <-. by apply lc_access.
Qed.

(** Thread 0 reserves a slot for 5 and is overtaken by thread 1, which pushes 6; thread 2
    pops 6 while thread 0 writes its slot. *)
Definition lex_schedule : list lchoice :=
  [LPush 0 5; LMove 0; LMove 0; LPush 1 6] ++ replicate 5 (LMove 1) ++
  [LPop 2; LMove 2; LMove 2; LMove 0; LMove 2; LMove 0; LMove 2; LMove 2; LMove 0].

Definition lex_run : lconfig := default (lstart 7 3 3) (lexec (lstart 7 3 3) lex_schedule).

Lemma clifo_conserves_values_witness :
  puts (llog lex_run) = [6; 5] /\ takes (llog lex_run) = [6] /\ calls lex_run !! 2%nat = Some (Returned 6) /\
  (exists rest, takes (llog lex_run) ++ rest ≡ₚ puts (llog lex_run)) /\
  (forall j, calls lex_run !! j <> Some Fault) /\
  (forall i j p q x, calls lex_run !! i = Some p -> calls lex_run !! j = Some q ->
     owns p = Some x -> owns q = Some x -> i = j).
Proof.
  do 3 (split; [by vm_compute|]).
  apply (clifo_conserves_values 7 3 3 lex_run); [lia|]. apply (lexec_steps _ lex_schedule). by vm_compute.
Defined.
