(* ===== verification/Cmpool.v ===== *)
(** The fixed-block pool of [manager/cmpool.c], laid out at the start of a region
    of memory: header, index of nodes, blocks. [blockbase] in [cmpool_init] is read
    as the field of that name and [max_id] in [regbufidx] as [max_idx]: the file
    does not declare them. *)
From S2P Require Import Prelude.

Inductive nst := NST_EMPTY | NST_USED.

#[export] Instance nst_eq_dec : EqDecision nst.
Proof. solve_decision. Defined.

(** [cmpool_node_s] and [cmpool_head_s]; [mbase] is the address of the region. *)
Record cmpool_node_s := MNode { offset : Z; state : nst; refcount : Z }.

Record cmpool_head_s := MHead {
  magic : Z;
  blksz : Z;
  latestidx : Z;
  blockbase : Z;
  blknum : Z;
  index : list cmpool_node_s;
}.

Record cmpool_s := MPool { mbase : Z; msize : Z }.

Definition CMPOOL_MAGIC : Z :=
  Z.lor (Z.lor (Z.shiftl 109 24) (Z.shiftl 112 16)) (Z.shiftl 108 8).

Definition sizeof_node : Z := 16.

Definition sizeof_head : Z := 40.

(** [cmpool_init] on a region whose header reads as [head] *)
Definition cmpool_init (mbase msize blksz : Z) (head : cmpool_head_s) : cmpool_s * cmpool_head_s :=
  (MPool mbase msize,
   if magic head =? CMPOOL_MAGIC then head
   else
     let blknum := u64 (msize - sizeof_head) / u64 (blksz + sizeof_node) in
     let blockbase := u64 (sizeof_head + blknum * sizeof_node) in
     MHead CMPOOL_MAGIC blksz 0 blockbase blknum
       ((fun i => MNode (u64 (blockbase + Z.of_nat i * blksz)) NST_EMPTY 0) <$> seq 0 (Z.to_nat blknum))).

(** [ATOMIC_CAS(&pnode[idx].state, old, new)] *)
Definition cas_state (h : cmpool_head_s) (idx : Z) (old new : nst) : bool * cmpool_head_s :=
  match index h !! Z.to_nat idx with
  | Some n =>
      if decide (state n = old)
      then (true, MHead (magic h) (blksz h) (latestidx h) (blockbase h) (blknum h)
                    (<[Z.to_nat idx := MNode (offset n) new (refcount n)]> (index h)))
      else (false, h)
  | None => (false, h)
  end.

Definition set_latest (h : cmpool_head_s) (i : Z) : cmpool_head_s :=
  MHead (magic h) (blksz h) i (blockbase h) (blknum h) (index h).

(** [for (idx = 0; idx < max_idx; ++idx)], [k] iterations left *)
Fixpoint regbufidx_loop (k : nat) (h : cmpool_head_s) (idx : Z) : Z * cmpool_head_s :=
  match k with
  | O => (-1, h)
  | S k =>
      let '(ok, h') := cas_state h idx NST_EMPTY NST_USED in
      if ok then (idx, set_latest h' idx) else regbufidx_loop k h (idx + 1)
  end.

Definition regbufidx (h : cmpool_head_s) : Z * cmpool_head_s :=
  let idx := s32 (latestidx h + 1) in
  let max_idx := s32 (blknum h) in
  let '(ok, h') := if idx <? max_idx then cas_state h idx NST_EMPTY NST_USED else (false, h) in
  if ok then (idx, set_latest h' idx) else regbufidx_loop (Z.to_nat max_idx) h 0.

Definition unregbufidx (h : cmpool_head_s) (idx : Z) : cmpool_head_s :=
  if (0 <=? idx) && (idx <? s32 (blknum h)) then (cas_state h idx NST_USED NST_EMPTY).2 else h.

Definition getbufaddr (base : Z) (h : cmpool_head_s) (idx : Z) : Z :=
  if (0 <=? idx) && (idx <? s32 (blknum h))
  then match index h !! Z.to_nat idx with Some n => u64 (base + offset n) | None => 0 end
  else 0.

Definition getbufidx (base : Z) (h : cmpool_head_s) (ptr : Z) : Z :=
  s32 (u64 (ptr - base - blockbase h) / blksz h).

Definition cmpool_alloc (p : cmpool_s) (h : cmpool_head_s) : Z * cmpool_head_s :=
  let '(i, h') := regbufidx h in (getbufaddr (mbase p) h' i, h').

Definition cmpool_free (p : cmpool_s) (h : cmpool_head_s) (ptr : Z) : cmpool_head_s :=
  unregbufidx h (getbufidx (mbase p) h ptr).

(** * Well-formed pools *)

(** A pool over the region [mbase, mbase + msize) *)
Record pool_ok (p : cmpool_s) (h : cmpool_head_s) : Prop := {
  po_base : 0 < mbase p /\ mbase p + msize p < 2 ^ 63;
  po_size : 0 < blksz h /\ 0 <= blknum h < 2 ^ 31 - 1;
  po_layout : blockbase h = sizeof_head + blknum h * sizeof_node /\
              blockbase h + blknum h * blksz h <= msize p;
  po_length : Z.of_nat (length (index h)) = blknum h;
  po_offsets : forall i n, index h !! i = Some n -> offset n = blockbase h + Z.of_nat i * blksz h;
  po_latest : 0 <= latestidx h /\ (latestidx h < blknum h \/ latestidx h = 0);
}.

Definition free_idx (h : cmpool_head_s) (i : Z) : Prop :=
  0 <= i /\ exists n, index h !! Z.to_nat i = Some n /\ state n = NST_EMPTY.

Definition used_idx (h : cmpool_head_s) (i : Z) : Prop :=
  0 <= i /\ exists n, index h !! Z.to_nat i = Some n /\ state n = NST_USED.

(** The address of block [i] *)
Definition block_addr (p : cmpool_s) (h : cmpool_head_s) (i : Z) : Z := mbase p + blockbase h + i * blksz h.

(** The state of every node but [i] is unchanged, [i] is now [st]. *)
Record marks (h h' : cmpool_head_s) (i : Z) (st : nst) : Prop := {
  mk_index : exists n, index h !! Z.to_nat i = Some n /\
             index h' = <[Z.to_nat i := MNode (offset n) st (refcount n)]> (index h);
  mk_same : blksz h' = blksz h /\ blockbase h' = blockbase h /\ blknum h' = blknum h;
}.

Lemma cas_state_true h i old new h' :
  cas_state h i old new = (true, h') ->
  marks h h' i new /\ latestidx h' = latestidx h /\
  exists n, index h !! Z.to_nat i = Some n /\ state n = old.
Proof.
  unfold cas_state. destruct (index h !! Z.to_nat i) as [n|] eqn:En; [|done]. case_decide; [|done].
  intros [= <-]. split_and!; [|done|eauto]. split; [|done]. eauto.
Qed.

Lemma cas_state_false h i old new h' :
  cas_state h i old new = (false, h') -> h' = h /\
  forall n, index h !! Z.to_nat i = Some n -> state n <> old.
Proof.
  unfold cas_state. destruct (index h !! Z.to_nat i) as [n|] eqn:En; [|by intros [= <-]].
  case_decide; [done|]. intros [= <-]. split; [done|]. intros m ?. by simplify_eq.
Qed.

Lemma marks_ok p h h' i st :
  pool_ok p h -> marks h h' i st -> (latestidx h' = latestidx h \/ 0 <= latestidx h' < blknum h) ->
  pool_ok p h'.
Proof.
  intros [H1 H2 H3 H4 H5 H6] [(n & En & Ei) (E1 & E2 & E3)] Hl.
  split; rewrite ?E1, ?E2, ?E3, ?Ei, ?length_insert; try done.
  - intros k m [(<- & <- & _)|[Hne Hk]]%list_lookup_insert_Some; [exact (H5 _ _ En)|by apply H5].
  - destruct Hl as [->|Hl]; [done|lia].
Qed.

(** What a successful or a failed reservation does *)
Definition reserved (h h' : cmpool_head_s) (i : Z) : Prop :=
  (i = -1 /\ h' = h /\ (forall j, j < blknum h -> ~ free_idx h j)) \/
  (free_idx h i /\ i < blknum h /\ marks h h' i NST_USED /\ latestidx h' = i).

Lemma regbufidx_loop_spec k h idx :
  Z.of_nat (length (index h)) = blknum h -> 0 <= idx -> idx + Z.of_nat k = blknum h ->
  (forall j, j < idx -> ~ free_idx h j) ->
  reserved h (regbufidx_loop k h idx).2 (regbufidx_loop k h idx).1.
Proof.
  intros Hlen. revert idx. induction k as [|k IH]; intros idx H0 Hk Hfree; cbn [regbufidx_loop].
  { left. split_and!; [done|done|]. intros j Hj. apply Hfree. lia. }
  destruct (cas_state h idx NST_EMPTY NST_USED) as [[] h'] eqn:E.
  - apply cas_state_true in E as (Hm & _ & n & En & Hn). right. cbn [fst snd].
    split_and!; [split; [lia|eauto]|lia| |done]. destruct Hm as [Hi Hs]. by split.
  - apply cas_state_false in E as [_ Hne]. apply IH; [lia..|]. intros j Hj [Hj0 (n & En & Hn)].
    destruct (decide (j = idx)) as [->|]; [by eapply Hne|]. apply (Hfree j); [lia|]. split; eauto.
Qed.

Lemma regbufidx_spec p h : pool_ok p h -> reserved h (regbufidx h).2 (regbufidx h).1.
Proof.
  intros [H1 H2 H3 H4 H5 H6]. unfold regbufidx. rewrite !s32_small by lia.
  assert (Hloop : reserved h (regbufidx_loop (Z.to_nat (blknum h)) h 0).2 (regbufidx_loop (Z.to_nat (blknum h)) h 0).1).
  { apply regbufidx_loop_spec; [done|lia..|]. intros j Hj [? _]. lia. }
  destruct (Z.ltb_spec (latestidx h + 1) (blknum h)); [|done].
  destruct (cas_state h (latestidx h + 1) NST_EMPTY NST_USED) as [[] h'] eqn:E; [|done].
  apply cas_state_true in E as (Hm & _ & n & En & Hn). right. cbn [fst snd].
  split_and!; [split; [lia|eauto]|lia| |done]. destruct Hm as [Hi Hs]. by split.
Qed.

(** * The contract *)

Lemma getbufaddr_spec p h i :
  pool_ok p h -> 0 <= i < blknum h -> getbufaddr (mbase p) h i = block_addr p h i.
Proof.
  intros [H1 H2 H3 H4 H5 H6] Hi. unfold getbufaddr, block_addr. rewrite s32_small by lia.
  rewrite (proj2 (Z.leb_le 0 i)), (proj2 (Z.ltb_lt i (blknum h))) by lia. cbn [andb].
  destruct (lookup_lt_is_Some_2 (index h) (Z.to_nat i)) as [n En]; [lia|]. rewrite En, (H5 _ _ En).
  unfold sizeof_head, sizeof_node in *. rewrite u64_small by nia. lia.
Qed.

Lemma getbufidx_spec p h i :
  pool_ok p h -> 0 <= i < blknum h -> getbufidx (mbase p) h (block_addr p h i) = i.
Proof.
  intros [H1 H2 H3 H4 H5 H6] Hi. unfold getbufidx, block_addr.
  replace (mbase p + blockbase h + i * blksz h - mbase p - blockbase h) with (i * blksz h) by lia.
  unfold sizeof_head, sizeof_node in *. rewrite u64_small by nia. rewrite Z.div_mul by lia.
  apply s32_small. lia.
Qed.

(** C38: [cmpool_init] on a region that is not a pool yet lays out as many blocks as
    fit: the blocks are all free, follow the header and the index, and end inside
    the region. *)
Theorem cmpool_init_ok mbase msize blksz h :
  0 < mbase -> mbase + msize < 2 ^ 63 -> sizeof_head <= msize -> 0 < blksz < 2 ^ 62 ->
  (msize - sizeof_head) / (blksz + sizeof_node) < 2 ^ 31 - 1 -> magic h <> CMPOOL_MAGIC ->
  let '(p, h') := cmpool_init mbase msize blksz h in
  pool_ok p h' /\ blknum h' = (msize - sizeof_head) / (blksz + sizeof_node) /\
  (forall i, 0 <= i < blknum h' -> free_idx h' i) /\
  msize < blockbase h' + (blknum h' + 1) * blksz + sizeof_node.
Proof.
  intros Hb Hm Hs Hz Hn Hmag. unfold cmpool_init. rewrite (proj2 (Z.eqb_neq (magic h) CMPOOL_MAGIC)) by done.
  unfold sizeof_head, sizeof_node in *. rewrite !(u64_small (msize - 40)), (u64_small (blksz + 16)) by lia.
  set (k := (msize - 40) / (blksz + 16)) in *.
  assert (Hk : 0 <= k /\ k * (blksz + 16) <= msize - 40 < (k + 1) * (blksz + 16)).
  { pose proof (Z.mul_div_le (msize - 40) (blksz + 16)). pose proof (Z.mul_succ_div_gt (msize - 40) (blksz + 16)).
    pose proof (Z.div_pos (msize - 40) (blksz + 16)). unfold k in *. lia. }
  rewrite (u64_small (40 + k * 16)) by nia. split_and!; cbn [blknum blockbase index]; [|done| |nia].
  - split; cbn; unfold sizeof_head, sizeof_node; try lia; try nia.
    + rewrite length_fmap, length_seq. lia.
    + intros i n (j & -> & [-> Hj]%lookup_seq)%list_lookup_fmap_Some. cbn. rewrite u64_small by nia. lia.
  - intros i Hi. split; [lia|]. eexists. cbn [index]. rewrite list_lookup_fmap, lookup_seq_lt by lia. done.
Qed.

(** C37: [cmpool_alloc] returns NULL exactly when no block is free, and then changes
    nothing; otherwise it returns the address of a block that was free, inside the
    region, and marks that block, and no other, as used. *)
Theorem cmpool_alloc_spec p h :
  pool_ok p h ->
  let '(a, h') := cmpool_alloc p h in
  pool_ok p h' /\
  ((a = 0 /\ h' = h /\ forall j, j < blknum h -> ~ free_idx h j) \/
   (exists i, a = block_addr p h i /\ mbase p < a /\ a + blksz h <= mbase p + msize p /\
      free_idx h i /\ used_idx h' i /\ forall j, 0 <= j -> j <> i -> index h' !! Z.to_nat j = index h !! Z.to_nat j)).
Proof.
  intros Hok. unfold cmpool_alloc. pose proof (regbufidx_spec p h Hok) as Hr.
  destruct (regbufidx h) as [i h']. cbn [fst snd] in Hr.
  destruct Hr as [(-> & -> & Hnone)|(Hfree & Hlt & Hm & Hl)].
  - split; [done|]. left. done.
  - assert (0 <= i) by apply Hfree. pose proof Hm as [(n & En & Ei) (E1 & E2 & E3)].
    assert (Hok' : pool_ok p h') by (eapply marks_ok; [done..|]; lia).
    split; [done|]. right. exists i.
    rewrite getbufaddr_spec by (done || lia). unfold block_addr. rewrite E1, E2.
    destruct Hok as [P1 P2 P3 P4 P5 P6]. unfold sizeof_head, sizeof_node in *. split_and!; try done; try nia.
    + split; [done|]. rewrite Ei. eexists. rewrite list_lookup_insert_eq; [done|]. lia.
    + intros j Hj Hne. rewrite Ei. apply list_lookup_insert_ne. lia.
Qed.

(** [cmpool_free] of the address of a used block makes that block free again and
    touches no other; freeing a block that is free changes nothing. *)
Theorem cmpool_free_spec p h i :
  pool_ok p h -> 0 <= i < blknum h ->
  let h' := cmpool_free p h (block_addr p h i) in
  pool_ok p h' /\ free_idx h' i /\ (free_idx h i -> h' = h) /\
  (forall j, 0 <= j -> j <> i -> index h' !! Z.to_nat j = index h !! Z.to_nat j).
Proof.
  intros Hok Hi. unfold cmpool_free. cbn zeta. rewrite getbufidx_spec by done. unfold unregbufidx.
  pose proof Hok as [P1 P2 P3 P4 P5 P6]. rewrite s32_small by lia.
  rewrite (proj2 (Z.leb_le 0 i)), (proj2 (Z.ltb_lt i (blknum h))) by lia. cbn [andb].
  destruct (cas_state h i NST_USED NST_EMPTY) as [[] h'] eqn:E; cbn [snd].
  - apply cas_state_true in E as (Hm & Hl & n & En & Hn). pose proof Hm as [(n' & En' & Ei) _].
    split_and!; [by eapply marks_ok; eauto|..].
    + split; [lia|]. rewrite Ei. eexists. rewrite list_lookup_insert_eq; [done|]. lia.
    + intros [_ (m & Em & Hst)]. congruence.
    + intros j Hj Hne. rewrite Ei. apply list_lookup_insert_ne. lia.
  - apply cas_state_false in E as [-> Hne]. split_and!; try done. split; [lia|].
    destruct (lookup_lt_is_Some_2 (index h) (Z.to_nat i)) as [n En]; [lia|]. exists n. split; [done|].
    specialize (Hne _ En). by destruct (state n).
Qed.

(** Different blocks do not overlap, and the block at an address that was handed
    out is found again from the address. *)
Theorem cmpool_blocks_disjoint p h i j :
  pool_ok p h -> 0 <= i < blknum h -> 0 <= j < blknum h -> i <> j ->
  getbufidx (mbase p) h (getbufaddr (mbase p) h i) = i /\
  (getbufaddr (mbase p) h i + blksz h <= getbufaddr (mbase p) h j \/
   getbufaddr (mbase p) h j + blksz h <= getbufaddr (mbase p) h i).
Proof.
  intros Hok Hi Hj Hne. rewrite !getbufaddr_spec, getbufidx_spec by done. split; [done|].
  destruct Hok as [_ P2 _ _ _ _]. unfold block_addr. nia.
Qed.

(** * Examples *)

Definition ex_pool : cmpool_s := MPool 4096 200.

Definition ex_head : cmpool_head_s := (cmpool_init 4096 200 24 (MHead 0 0 0 0 0 [])).2.

Lemma cmpool_init_ok_witness :
  pool_ok ex_pool ex_head /\ blknum ex_head = 4 /\ (forall i, 0 <= i < 4 -> free_idx ex_head i) /\
  200 < blockbase ex_head + (4 + 1) * 24 + 16.
Proof. apply (cmpool_init_ok 4096 200 24 (MHead 0 0 0 0 0 [])); done || (unfold sizeof_head, sizeof_node; lia). Defined.

Lemma ex_pool_ok : pool_ok ex_pool ex_head.
Proof.
  split; [by vm_compute..| |by split; [|left]].
  intros [|[|[|[|[|k]]]]] n Hn; simplify_eq/=; done.
Qed.

Lemma cmpool_alloc_spec_witness :
  (cmpool_alloc ex_pool ex_head).1 = 4096 + 128 /\
  let '(a, h') := cmpool_alloc ex_pool ex_head in
  pool_ok ex_pool h' /\
  ((a = 0 /\ h' = ex_head /\ forall j, j < blknum ex_head -> ~ free_idx ex_head j) \/
   (exists i, a = block_addr ex_pool ex_head i /\ 4096 < a /\ a + 24 <= 4096 + 200 /\
      free_idx ex_head i /\ used_idx h' i /\
      forall j, 0 <= j -> j <> i -> index h' !! Z.to_nat j = index ex_head !! Z.to_nat j)).
Proof. split; [by vm_compute|]. apply (cmpool_alloc_spec ex_pool ex_head). apply ex_pool_ok. Defined.

Lemma cmpool_free_spec_witness :
  let h' := cmpool_free ex_pool ex_head (block_addr ex_pool ex_head 2) in
  pool_ok ex_pool h' /\ free_idx h' 2 /\ (free_idx ex_head 2 -> h' = ex_head) /\
  (forall j, 0 <= j -> j <> 2 -> index h' !! Z.to_nat j = index ex_head !! Z.to_nat j).
Proof. apply (cmpool_free_spec ex_pool ex_head 2); [apply ex_pool_ok|by vm_compute]. Defined.

Lemma cmpool_blocks_disjoint_witness :
  getbufidx 4096 ex_head (getbufaddr 4096 ex_head 1) = 1 /\
  (getbufaddr 4096 ex_head 1 + 24 <= getbufaddr 4096 ex_head 2 \/
   getbufaddr 4096 ex_head 2 + 24 <= getbufaddr 4096 ex_head 1).
Proof. apply (cmpool_blocks_disjoint ex_pool ex_head 1 2); [apply ex_pool_ok|by vm_compute..|done]. Defined.
