(* ===== verification/MemAlloc.v ===== *)
(** The multi-threaded allocator of [runtime/mem.c] (the build without
    [RECYCLE_PAGES] and [USE_SYSTEM_MALLOC]): per-thread free lists of blocks of a
    power-of-two size, page headers that name the owner and the size, and the
    queues through which blocks freed by other threads come back. The calls of all
    threads are executed one at a time, in any order; no block is handed out
    twice. *)
From S2P Require Import Prelude Machine.

Definition MAX_SCALE : Z := 36.

Definition MIN_SCALE : Z := 3.

Definition MAX_POINTER_BITS : Z := 48.

Definition PAGE_SCALE : Z := 21.

Definition PAGE_SIZE : Z := 2 ^ PAGE_SCALE.

Definition MAX_NUM_THREADS : nat := 32.

(** [header_t] is two bytes. *)
Record header_t := Header { owner : Z; scale : Z }.

Definition HEADERS_SIZE : Z := 2 ^ (MAX_POINTER_BITS - PAGE_SCALE) * 2.

(** What [blocks_to] points to: a block, or the field [blocks_from[p]] of thread [o],
    both of which hold a [next] pointer. *)
Inductive block_ptr := AtBlock (b : Z) | AtFrom (o p : Z).

(** [headers_] and [tl_]: absent entries are zero (the [blocks_to] of a thread are
    set by [mem_init]). [next] is the first word of a block that is not in use;
    [mapped] the address ranges (start and length) the system has mapped. *)
Record alloc_s := Alloc {
  headers_ : gmap Z header_t;
  next : gmap Z Z;
  free_list : gmap (Z * Z) Z;
  blocks_from : gmap (Z * Z) Z;
  blocks_to : gmap (Z * Z) block_ptr;
  mapped : list (Z * Z);
}.

Definition set_headers (s : alloc_s) h := Alloc h (next s) (free_list s) (blocks_from s) (blocks_to s) (mapped s).

Definition set_next (s : alloc_s) (b x : Z) :=
  Alloc (headers_ s) (<[b := x]> (next s)) (free_list s) (blocks_from s) (blocks_to s) (mapped s).

Definition set_free (s : alloc_s) (t sc x : Z) :=
  Alloc (headers_ s) (next s) (<[(t, sc) := x]> (free_list s)) (blocks_from s) (blocks_to s) (mapped s).

Definition set_from (s : alloc_s) (o p x : Z) :=
  Alloc (headers_ s) (next s) (free_list s) (<[(o, p) := x]> (blocks_from s)) (blocks_to s) (mapped s).

Definition set_to (s : alloc_s) (p o : Z) (x : block_ptr) :=
  Alloc (headers_ s) (next s) (free_list s) (blocks_from s) (<[(p, o) := x]> (blocks_to s)) (mapped s).

Definition set_mapped (s : alloc_s) (l : list (Z * Z)) :=
  Alloc (headers_ s) (next s) (free_list s) (blocks_from s) (blocks_to s) l.

Definition next_of (s : alloc_s) (b : Z) : Z := default 0 (next s !! b).

Definition first_free (s : alloc_s) (t sc : Z) : Z := default 0 (free_list s !! (t, sc)).

Definition from (s : alloc_s) (o p : Z) : Z := default 0 (blocks_from s !! (o, p)).

Definition get_header (s : alloc_s) (r : Z) : res header_t :=
  let* _ := check (Z.shiftr r PAGE_SCALE <? HEADERS_SIZE) in
  inl (default (Header 0 0) (headers_ s !! Z.shiftr r PAGE_SCALE)).

(** [munmap(a, n)]: the ranges without [a, a + n) *)
Definition cut (a n : Z) (r : Z * Z) : list (Z * Z) :=
  let '(b, m) := r in
  (if b <? Z.min (b + m) a then [(b, Z.min (b + m) a - b)] else []) ++
  (if Z.max b (a + n) <? b + m then [(Z.max b (a + n), b + m - Z.max b (a + n))] else []).

Definition munmap (s : alloc_s) (a n : Z) : alloc_s := set_mapped s (concat (cut a n <$> mapped s)).

Section alloc.
(** [mmap] of a number of bytes, given what is mapped: the system chooses the
    address, or fails, and then the program calls [exit(-1)] ([OutOfMemory]). *)
Context (mmap : list (Z * Z) -> Z -> option Z).

Definition mmap_region (s : alloc_s) (n : Z) : res (Z * alloc_s) :=
  match mmap (mapped s) n with
  | Some r => inl (r, set_mapped s ((r, n) :: mapped s))
  | None => inr OutOfMemory
  end.

Definition get_new_region (t block_scale : Z) (s : alloc_s) : res (Z * alloc_s) :=
  let region_size := 2 ^ block_scale in
  let region_size := if region_size <? PAGE_SIZE then PAGE_SIZE else region_size in
  let* (region, s) := mmap_region s region_size in
  let* (region, s) :=
    (if Z.land region (region_size - 1) =? 0 then inl (region, s)
     else
       let s := munmap s region region_size in
       let* (region, s) := mmap_region s (region_size * 2) in
       let aligned := Z.land (u64 (region + region_size)) (u64 (Z.lnot (region_size - 1))) in
       let extra := aligned - region in
       let s := if extra =? 0 then s else munmap s region extra in
       let extra := region + region_size - aligned in
       let s := if extra =? 0 then s else munmap s (aligned + region_size) extra in
       inl (aligned, s)) in
  let* _ := check (negb (region =? 0)) in
  let* h := get_header s region in
  let* _ := check (scale h =? 0) in
  inl (region, set_headers s (<[Z.shiftr region PAGE_SCALE := Header (u8 t) (u8 block_scale)]> (headers_ s))).

(** The indices of the threads *)
Definition threads : list Z := Z.of_nat <$> seq 0 MAX_NUM_THREADS.

(** [mem_init], from the zeroed static variables *)
Definition mem_init : alloc_s :=
  Alloc ∅ ∅ ∅ ∅
    (list_to_map (i ← threads; j ← threads; if decide (i = j) then [] else [((i, j), AtFrom j i)])) [].

Definition nbd_free (t x : Z) (s : alloc_s) : res alloc_s :=
  let* _ := check (negb (x =? 0)) in
  let* h := get_header s x in
  let b_scale := scale h in
  let* _ := check (negb (b_scale =? 0) && (b_scale <=? MAX_SCALE)) in
  let s := set_next s x 0xcdcdcdcdcdcdcdcd in
  if owner h =? t then
    let s := set_next s x (first_free s t b_scale) in
    inl (set_free s t b_scale x)
  else
    let b_owner := owner h in
    let s := set_next s x 0 in
    match blocks_to s !! (t, b_owner) with
    | Some (AtBlock b) => inl (set_to (set_next s b x) t b_owner (AtBlock x))
    | Some (AtFrom o p) => inl (set_to (set_from s o p x) t b_owner (AtBlock x))
    | None => inr SegFault
    end.

(** The loop over one queue: every block but the last goes to a free list *)
Fixpoint incoming_loop (fuel : nat) (t b next : Z) (s : alloc_s) : res (Z * alloc_s) :=
  match fuel with
  | O => inr OutOfFuel
  | S fuel =>
      if next =? 0 then inl (b, s)
      else
        let* h := get_header s b in
        let s := set_next s b (first_free s t (scale h)) in
        let s := set_free s t (scale h) b in
        let b := next in
        incoming_loop fuel t b (next_of s b) s
  end.

(** [for (int p = 0; p < MAX_NUM_THREADS; ++p)], over the queues [ps] *)
Fixpoint incoming_from (fuel : nat) (t : Z) (ps : list Z) (s : alloc_s) : res alloc_s :=
  match ps with
  | [] => inl s
  | p :: ps =>
      let b := from s t p in
      if b =? 0 then incoming_from fuel t ps s
      else
        let* (b, s) := incoming_loop fuel t b (next_of s b) s in
        incoming_from fuel t ps (set_from s t p b)
  end.

Definition process_incoming_blocks (fuel : nat) (t : Z) (s : alloc_s) : res alloc_s :=
  incoming_from fuel t threads s.

(** The block popped, 0 if there is none *)
Definition pop_free_list (t sc : Z) (s : alloc_s) : res (Z * alloc_s) :=
  let b := first_free s t sc in
  if b =? 0 then inl (0, s)
  else
    let* h := get_header s b in
    let* _ := check (scale h =? sc) in
    inl (b, set_free s t sc (next_of s b)).

(** [__builtin_clzl], undefined on 0 *)
Definition clzl (x : Z) : res Z := if x =? 0 then inr Undefined else inl (63 - Z.log2 x).

(** The loop that breaks a page into blocks, from the last offset down *)
Fixpoint carve (fuel : nat) (page block_size offset head : Z) (s : alloc_s) : res (Z * alloc_s) :=
  match fuel with
  | O => inr OutOfFuel
  | S fuel =>
      if 0 <? offset then
        let x := page + offset in
        carve fuel page block_size (offset - block_size) x (set_next s x head)
      else inl (head, s)
  end.

(** The address of the block, 0 for [NULL] *)
Definition nbd_malloc (fuel : nat) (t n : Z) (s : alloc_s) : res (Z * alloc_s) :=
  let* z := clzl (u64 (n - 1)) in
  let b_scale := 64 - z in
  let b_scale := if b_scale <? MIN_SCALE then MIN_SCALE else b_scale in
  if MAX_SCALE <? b_scale then inl (0, s)
  else
    let* (b, s) := pop_free_list t b_scale s in
    if negb (b =? 0) then inl (b, s)
    else
      let* s := process_incoming_blocks fuel t s in
      let* (b, s) := pop_free_list t b_scale s in
      if negb (b =? 0) then inl (b, s)
      else
        let* (page, s) := get_new_region t b_scale s in
        let b := page in
        let* s :=
          (if b_scale <? PAGE_SCALE then
             let block_size := 2 ^ b_scale in
             let* (head, s) := carve fuel page block_size (PAGE_SIZE - block_size) 0 s in
             inl (set_free s t b_scale head)
           else inl s) in
        let* _ := check (negb (b =? 0)) in
        inl (b, s).
End alloc.
