(* ===== verification/MemProof.v ===== *)
(** The blocks of the allocator of [MemAlloc]: where each one is (in use, on a free
    list, on a queue), the invariant of the lists and queues, and that blocks in
    use never overlap. *)
From stdpp Require Import functions.
From S2P Require Import Prelude Machine MemAlloc.

(** * Address ranges *)

Definition covers (l : list (Z * Z)) (x : Z) : Prop := exists b n, (b, n) ∈ l /\ b <= x < b + n.

Lemma covers_cons r n l x : covers ((r, n) :: l) x <-> r <= x < r + n \/ covers l x.
Proof.
  unfold covers. split.
  - intros (b & m & [E|Hin]%elem_of_cons & Hx); [injection E as -> ->; by left|right; eauto].
  - intros [Hx|(b & m & Hin & Hx)]; [exists r, n; split; [left|done]|exists b, m; split; [by right|done]].
Qed.

Lemma covers_app l l' x : covers (l ++ l') x <-> covers l x \/ covers l' x.
Proof.
  split.
  - intros (b & n & [Hin|Hin]%elem_of_app & Hx); [left|right]; by exists b, n.
  - intros [(b & n & Hin & Hx)|(b & n & Hin & Hx)]; exists b, n; (split; [apply elem_of_app; auto|done]).
Qed.

Lemma covers_cut l a n x : covers (concat (cut a n <$> l)) x <-> covers l x /\ ~ (a <= x < a + n).
Proof.
  induction l as [|[b m] l IH].
  - split; [|intros [(? & ? & ?%not_elem_of_nil & _) _]; done]. intros (? & ? & ?%not_elem_of_nil & _). done.
  - assert (Hc : covers (cut a n (b, m)) x <-> (b <= x < b + m) /\ ~ (a <= x < a + n)).
    { unfold cut. split.
      - intros (b' & m' & Hin & Hx). apply elem_of_app in Hin.
        destruct Hin as [Hin|Hin]; case_match eqn:Hlt; try (by apply not_elem_of_nil in Hin);
          apply list_elem_of_singleton in Hin; injection Hin as -> ->; lia.
      - intros [Hx Hn]. destruct (Z.lt_ge_cases x a) as [Hxa|Hxa].
        + exists b, (Z.min (b + m) a - b). rewrite (proj2 (Z.ltb_lt b (Z.min (b + m) a))) by lia. split; [left|lia].
        + exists (Z.max b (a + n)), (b + m - Z.max b (a + n)). rewrite (proj2 (Z.ltb_lt (Z.max b (a + n)) (b + m))) by lia.
          split; [apply elem_of_app; right; left|lia]. }
    rewrite fmap_cons, covers_cons. change (concat (?x :: ?y)) with (x ++ concat y). rewrite covers_app.
    rewrite Hc, IH. tauto.
Qed.

(** * Powers of two *)

Lemma land_ones_sub x k : 0 <= k -> Z.land x (2 ^ k - 1) = x mod 2 ^ k.
Proof. intros Hk. rewrite <- Z.land_ones by done. by rewrite Z.ones_equiv. Qed.

Lemma align_down x k : 0 <= k <= 62 -> in_u64 x -> Z.land x (u64 (Z.lnot (2 ^ k - 1))) = x - x mod 2 ^ k.
Proof.
  intros Hk Hx. unfold u64. rewrite <- (Z.land_ones _ 64), Z.land_assoc by lia.
  replace (2 ^ k - 1) with (Z.ones k) by (rewrite Z.ones_equiv; lia).
  rewrite <- Z.ldiff_land, Z.ldiff_ones_r, Z.land_ones by lia. rewrite Z.shiftl_mul_pow2, Z.shiftr_div_pow2 by lia.
  rewrite Z.mod_small; [rewrite Z.mod_eq by lia; lia|]. pose proof (Z.pow_pos_nonneg 2 k ltac:(lia) ltac:(lia)).
  pose proof (Z.mul_div_le x (2 ^ k) ltac:(lia)). split; [apply Z.mul_nonneg_nonneg; [apply Z.div_pos|]|]; lia.
Qed.

Lemma pow2_divide j k : 0 <= j <= k -> (2 ^ j | 2 ^ k).
Proof. intros Hj. exists (2 ^ (k - j)). rewrite <- Z.pow_add_r by lia. f_equal. lia. Qed.

Lemma multiple_lt a b n : 0 < n -> (n | a) -> (n | b) -> a < b -> a + n <= b.
Proof. intros Hn [x ->] [y ->] Hlt. assert (x < y) by nia. assert (x + 1 <= y) by lia. nia. Qed.

(** * The invariant *)

(** The bytes of the region of a page whose blocks have scale [sc] *)
Definition region_size (sc : Z) : Z := Z.max (2 ^ sc) PAGE_SIZE.

Definition page_addr (i : Z) : Z := i * PAGE_SIZE.

(** Where a block is *)
Inductive place := Live | InFree (t sc : Z) | InQueue (o p : Z).

#[export] Instance place_eq_dec : EqDecision place.
Proof. solve_decision. Defined.

(** The blocks of a list that starts at [a] *)
Fixpoint chain (nx : gmap Z Z) (a : Z) (L : list Z) : Prop :=
  match L with
  | [] => a = 0
  | b :: L => a = b /\ chain nx (default 0 (nx !! b)) L
  end.

Definition thread (t : Z) : Prop := 0 <= t < 32.

(** [b] is the address of a block of the page with header [h]. *)
Definition is_block (s : alloc_s) (b : Z) (h : header_t) : Prop :=
  0 < b < 2 ^ 47 /\ headers_ s !! Z.shiftr b PAGE_SCALE = Some h /\ (2 ^ scale h | b).

Record pages_ok (s : alloc_s) : Prop := {
  pg_header i h : headers_ s !! i = Some h ->
    MIN_SCALE <= scale h <= MAX_SCALE /\ thread (owner h) /\ 0 < i /\ (2 ^ scale h | page_addr i);
  pg_range i h : headers_ s !! i = Some h -> page_addr i + region_size (scale h) <= 2 ^ 47 /\
    forall x, page_addr i <= x < page_addr i + region_size (scale h) -> covers (mapped s) x;
  pg_apart i j hi hj : headers_ s !! i = Some hi -> headers_ s !! j = Some hj -> i <> j ->
    page_addr i + region_size (scale hi) <= page_addr j \/ page_addr j + region_size (scale hj) <= page_addr i;
}.

(** [pl] says where every block is; [FL] and [Q] are the contents of the free lists
    (by thread and scale) and of the queues (by owner and producer). *)
Record heap_inv (s : alloc_s) (pl : gmap Z place) (FL Q : Z * Z -> list Z) : Prop := {
  hi_pages : pages_ok s;
  hi_block b p : pl !! b = Some p -> exists h, is_block s b h /\
    match p with
    | Live => True
    | InFree t sc => h = Header t sc
    | InQueue o pr => owner h = o
    end;
  hi_free k : NoDup (FL k) /\ (forall b, b ∈ FL k <-> pl !! b = Some (InFree k.1 k.2)) /\
    chain (next s) (first_free s k.1 k.2) (FL k);
  hi_queue o p : thread o -> thread p -> o <> p ->
    NoDup (Q (o, p)) /\ (forall b, b ∈ Q (o, p) <-> pl !! b = Some (InQueue o p)) /\
    chain (next s) (from s o p) (Q (o, p)) /\
    blocks_to s !! (p, o) = Some (match last (Q (o, p)) with Some b => AtBlock b | None => AtFrom o p end);
  hi_self o : from s o o = 0;
}.

Lemma chain_frame nx a L b x : b ∉ L -> chain nx a L -> chain (<[b := x]> nx) a L.
Proof.
  revert a. induction L as [|y L IH]; intros a Hb; [done|]. apply not_elem_of_cons in Hb as [Hy Hb].
  intros [-> Hc]. split; [done|]. rewrite lookup_insert_ne by done. auto.
Qed.

(** Appending a block at the end of a chain *)
Lemma chain_snoc nx a L y b : chain nx a (L ++ [y]) -> NoDup (L ++ [y]) -> b ∉ L ++ [y] ->
  chain (<[y := b]> (<[b := 0]> nx)) a (L ++ [y; b]).
Proof.
  revert a. induction L as [|z L IH]; intros a; simpl.
  - intros [-> _] _ Hb. apply not_elem_of_cons in Hb as [Hb _]. rewrite lookup_insert_eq.
    rewrite lookup_insert_ne, lookup_insert_eq by done. done.
  - intros [-> Hc] [Hz Hn]%NoDup_cons Hb. apply not_elem_of_cons in Hb as [Hbz Hb]. split; [done|].
    rewrite !lookup_insert_ne by (done || (intros ->; apply Hz, elem_of_app; right; left)). by apply IH.
Qed.

Lemma get_header_ok s b h : is_block s b h -> get_header s b = inl h.
Proof.
  intros (Hb & Hh & _). unfold get_header. assert ((Z.shiftr b PAGE_SCALE <? HEADERS_SIZE) = true) as ->.
  { apply Z.ltb_lt. unfold HEADERS_SIZE, MAX_POINTER_BITS, PAGE_SCALE. rewrite Z.shiftr_div_pow2 by lia.
    apply Z.div_lt_upper_bound; lia. }
  cbn [check rbind]. by rewrite Hh.
Qed.

(** The page of a block *)
Lemma block_page s b h : pages_ok s -> is_block s b h ->
  let i := Z.shiftr b PAGE_SCALE in
  MIN_SCALE <= scale h <= MAX_SCALE /\ page_addr i <= b /\ b + 2 ^ scale h <= page_addr i + region_size (scale h).
Proof.
  intros Hp (Hb & Hh & Hd). cbn zeta. destruct (pg_header s Hp _ _ Hh) as (Hsc & _ & Hi & Hdi).
  unfold MIN_SCALE, MAX_SCALE in Hsc. unfold page_addr, region_size, PAGE_SIZE, PAGE_SCALE in *.
  rewrite Z.shiftr_div_pow2 in * by lia. pose proof (Z.mul_div_le b (2 ^ 21) ltac:(lia)).
  pose proof (Z.mul_succ_div_gt b (2 ^ 21) ltac:(lia)). assert (0 < 2 ^ scale h) by (apply Z.pow_pos_nonneg; lia).
  split; [done|]. split; [lia|]. destruct (Z.le_gt_cases 21 (scale h)) as [H21|H21].
  - assert (2 ^ 21 <= 2 ^ scale h) by (apply Z.pow_le_mono_r; lia).
    assert (b <= b / 2 ^ 21 * 2 ^ 21) as Hle; [|lia].
    apply Z.nlt_ge. intros Hlt. pose proof (multiple_lt _ _ (2 ^ scale h) ltac:(lia) Hdi Hd Hlt). lia.
  - assert (Hx : (2 ^ scale h | b / 2 ^ 21 * 2 ^ 21 + 2 ^ 21)).
    { apply Z.divide_add_r; [done|]. apply pow2_divide. lia. }
    pose proof (multiple_lt _ _ (2 ^ scale h) ltac:(lia) Hd Hx ltac:(lia)). lia.
Qed.

(** Blocks do not overlap. *)
Lemma blocks_apart s b1 b2 h1 h2 : pages_ok s -> is_block s b1 h1 -> is_block s b2 h2 -> b1 <> b2 ->
  b1 + 2 ^ scale h1 <= b2 \/ b2 + 2 ^ scale h2 <= b1.
Proof.
  intros Hp H1 H2 Hne. destruct (block_page _ _ _ Hp H1) as (Hs1 & Hl1 & Hu1), (block_page _ _ _ Hp H2) as (Hs2 & Hl2 & Hu2).
  destruct H1 as (Hb1 & Hh1 & Hd1), H2 as (Hb2 & Hh2 & Hd2). cbn zeta in *.
  destruct (decide (Z.shiftr b1 PAGE_SCALE = Z.shiftr b2 PAGE_SCALE)) as [E|E].
  - rewrite E in Hh1. rewrite Hh1 in Hh2. injection Hh2 as ->. unfold MIN_SCALE, MAX_SCALE in *.
    assert (0 < 2 ^ scale h2) by (apply Z.pow_pos_nonneg; lia).
    destruct (Z.lt_ge_cases b1 b2); [left|right]; apply multiple_lt; done || lia.
  - pose proof (pg_apart s Hp _ _ _ _ Hh1 Hh2 E). lia.
Qed.

Lemma block_inj s b h h' : is_block s b h -> is_block s b h' -> h = h'.
Proof. intros (_ & E & _) (_ & E' & _). rewrite E in E'. by injection E'. Qed.

Lemma live_not_free s pl FL Q b k : heap_inv s pl FL Q -> pl !! b = Some Live -> b ∉ FL k.
Proof. intros Hi Hb Hin. apply (hi_free _ _ _ _ Hi) in Hin. rewrite Hb in Hin. done. Qed.

Lemma live_not_queued s pl FL Q b o p : heap_inv s pl FL Q -> thread o -> thread p -> o <> p ->
  pl !! b = Some Live -> b ∉ Q (o, p).
Proof.
  intros Hi Ho Hp Hop Hb Hin. destruct (hi_queue _ _ _ _ Hi o p Ho Hp Hop) as (_ & Hq & _).
  apply Hq in Hin. rewrite Hb in Hin. done.
Qed.

(** Where the blocks are after block [b] has moved from [old] to [new] *)
Section moved.
Context (pl : gmap Z place) (b : Z) (p new : place) (L : list Z).
Context (HL : forall x, x ∈ L <-> pl !! x = Some p).

Lemma elsewhere x : pl !! b <> Some p -> new <> p -> x ∈ L <-> <[b := new]> pl !! x = Some p.
Proof using HL.
  intros Hb Hn. rewrite HL, lookup_insert. case_decide as E; [subst x|done].
  split; [done|by intros [= ?]].
Qed.

Lemma added x : x ∈ b :: L <-> <[b := p]> pl !! x = Some p.
Proof using HL.
  rewrite elem_of_cons, lookup_insert. case_decide as E; [subst x; split; by try left|].
  rewrite <- HL. split; [by intros [->|?]|by right].
Qed.

Lemma taken R x : L = b :: R -> b ∉ R -> new <> p -> x ∈ R <-> <[b := new]> pl !! x = Some p.
Proof using HL.
  intros EL Hb Hn. rewrite lookup_insert. case_decide as E.
  - subst x. split; [done|by intros [= ?]].
  - rewrite <- HL, EL, elem_of_cons. split; [by right|by intros [->|?]].
Qed.
End moved.

(** ** The elementary changes of the heap

    A block in use may be overwritten. *)
Lemma inv_write s pl FL Q b x : heap_inv s pl FL Q -> pl !! b = Some Live ->
  heap_inv (set_next s b x) pl FL Q.
Proof.
  intros Hi Hb. pose proof Hi as [Hp Hbl Hf Hq Hs]. split; [by destruct Hp|done| | |done].
  - intros k. destruct (Hf k) as (Hn & He & Hc). split; [done|]. split; [done|].
    apply chain_frame; [by eapply live_not_free|done].
  - intros o p Ho Hpr Hop. destruct (Hq o p Ho Hpr Hop) as (Hn & He & Hc & Ht). split_and!; [done..| |done].
    apply chain_frame; [by eapply live_not_queued|done].
Qed.

(** A free block is taken off its list. *)
Lemma inv_pop s pl FL Q t sc b R : heap_inv s pl FL Q -> FL (t, sc) = b :: R ->
  first_free s t sc = b /\ pl !! b = Some (InFree t sc) /\
  heap_inv (set_free s t sc (next_of s b)) (<[b := Live]> pl) (<[(t, sc) := R]> FL) Q.
Proof.
  intros Hi E. pose proof Hi as [Hp Hbl Hf Hq Hs]. destruct (Hf (t, sc)) as (Hn & He & Hc). rewrite E in *.
  destruct Hc as [Hb0 Hc]. apply NoDup_cons in Hn as [Hb Hn].
  assert (Hpl : pl !! b = Some (InFree t sc)) by (apply (He b); left). split_and!; [done..|].
  split; [by destruct Hp| | | |done].
  - intros b' p'. rewrite lookup_insert. case_decide as Eb; [|apply Hbl]. subst b'. intros [= <-].
    destruct (Hbl _ _ Hpl) as (h & Hh & _). by exists h.
  - intros k. destruct (decide (k = (t, sc))) as [->|Hk].
    + rewrite fn_lookup_insert. split; [done|]. split.
      * intros x. by eapply taken.
      * unfold first_free. cbn. by rewrite lookup_insert_eq.
    + rewrite fn_lookup_insert_ne by done. destruct (Hf k) as (Hn' & He' & Hc'). split; [done|]. split.
      * intros x. apply elsewhere; [done|rewrite Hpl; intros [= -> ->]; by destruct Hk, k|done].
      * unfold first_free. cbn. rewrite lookup_insert_ne; [done|]. intros ?. by destruct Hk, k.
  - intros o p Ho Hpr Hop. destruct (Hq o p Ho Hpr Hop) as (Hn' & He' & Hc' & Ht). split_and!; [done| |done..].
    intros x. apply elsewhere; [done|by rewrite Hpl|done].
Qed.

(** A block in use is put on the free list of its size. *)
Lemma inv_push s pl FL Q t sc b : heap_inv s pl FL Q -> pl !! b = Some Live -> is_block s b (Header t sc) ->
  heap_inv (set_free (set_next s b (first_free s t sc)) t sc b)
    (<[b := InFree t sc]> pl) (<[(t, sc) := b :: FL (t, sc)]> FL) Q.
Proof.
  intros Hi Hb Hh. pose proof (inv_write _ _ _ _ _ (first_free s t sc) Hi Hb) as [Hp Hbl Hf Hq Hs].
  assert (Hnf : forall k, b ∉ FL k) by (intros; by eapply live_not_free).
  split; [by destruct Hp| | | |done].
  - intros b' p'. rewrite lookup_insert. case_decide as Eb; [|apply Hbl]. subst b'. intros [= <-]. by eexists.
  - intros k. destruct (Hf k) as (Hn & He & Hc). destruct (decide (k = (t, sc))) as [->|Hk].
    + rewrite fn_lookup_insert. split; [by apply NoDup_cons|]. split.
      * intros x. by apply added.
      * unfold first_free. cbn. rewrite !lookup_insert_eq. by split.
    + rewrite fn_lookup_insert_ne by done. split; [done|]. split.
      * intros x. apply elsewhere; [done|by rewrite Hb|]. intros [= -> ->]. by destruct Hk, k.
      * unfold first_free. cbn. rewrite lookup_insert_ne; [done|]. intros ?. by destruct Hk, k.
  - intros o p Ho Hpr Hop. destruct (Hq o p Ho Hpr Hop) as (Hn & He & Hc & Ht). split_and!; [done| |done..].
    intros x. apply elsewhere; [done|by rewrite Hb|done].
Qed.

(** A block that is nowhere yet *)
Lemma inv_fresh s pl FL Q b h : heap_inv s pl FL Q -> pl !! b = None -> is_block s b h ->
  heap_inv s (<[b := Live]> pl) FL Q.
Proof.
  intros Hi Hb Hh. pose proof Hi as [Hp Hbl Hf Hq Hs]. split; [done| | | |done].
  - intros b' p'. rewrite lookup_insert. case_decide as Eb; [|apply Hbl]. subst b'. intros [= <-]. by exists h.
  - intros k. destruct (Hf k) as (Hn & He & Hc). split_and!; [done| |done]. intros x.
    apply elsewhere; [done|by rewrite Hb|done].
  - intros o p Ho Hpr Hop. destruct (Hq o p Ho Hpr Hop) as (Hn & He & Hc & Ht). split_and!; [done| |done..].
    intros x. apply elsewhere; [done|by rewrite Hb|done].
Qed.

(** An empty free list may be emptied. *)
Lemma inv_empty s pl FL Q t sc : heap_inv s pl FL Q -> FL (t, sc) = [] -> heap_inv (set_free s t sc 0) pl FL Q.
Proof.
  intros [Hp Hbl Hf Hq Hs] Hnil. split; [by destruct Hp|done| |done..].
  intros k'. destruct (Hf k') as (Hn & He & Hc'). split_and!; [done..|]. unfold first_free. cbn.
  rewrite lookup_insert. case_decide as E; [|done]. destruct k' as [t' sc']. injection E as <- <-. by rewrite Hnil.
Qed.

(** The owner takes the first of several blocks off a queue. *)
Lemma inv_dequeue s pl FL Q o p b n R : heap_inv s pl FL Q -> thread o -> thread p -> o <> p ->
  Q (o, p) = b :: n :: R ->
  from s o p = b /\ next_of s b = n /\ pl !! b = Some (InQueue o p) /\
  heap_inv (set_from s o p n) (<[b := Live]> pl) FL (<[(o, p) := n :: R]> Q).
Proof.
  intros Hi Ho Hpr Hop E. pose proof Hi as [Hp Hbl Hf Hq Hs]. destruct (Hq o p Ho Hpr Hop) as (Hn & He & Hc & Ht).
  rewrite E in *. destruct Hc as (Hb0 & Hn0 & Hc). apply NoDup_cons in Hn as [Hb Hn].
  assert (Hpl : pl !! b = Some (InQueue o p)) by (apply He; left). split_and!; [done..|].
  split; [by destruct Hp| | | |].
  - intros b' p'. rewrite lookup_insert. case_decide as Eb; [|apply Hbl]. subst b'. intros [= <-].
    destruct (Hbl _ _ Hpl) as (h & Hh & _). by exists h.
  - intros k. destruct (Hf k) as (Hn' & He' & Hc'). split_and!; [done| |done]. intros x.
    apply elsewhere; [done|by rewrite Hpl|done].
  - intros o' p' Ho' Hp' Hop'. destruct (decide ((o', p') = (o, p))) as [[= -> ->]|Hk].
    + rewrite fn_lookup_insert. split_and!; [done| | |done].
      * intros x. by eapply taken.
      * unfold from. cbn. by rewrite lookup_insert_eq.
    + rewrite fn_lookup_insert_ne by done. destruct (Hq o' p' Ho' Hp' Hop') as (Hn' & He' & Hc' & Ht').
      split_and!; [done| | |done].
      * intros x. apply elsewhere; [done|rewrite Hpl; intros [= -> ->]; done|done].
      * unfold from. cbn. by rewrite lookup_insert_ne by done.
  - intros o'. unfold from. cbn. rewrite lookup_insert_ne; [apply Hs|]. intros [= -> ->]. done.
Qed.

(** Another thread appends a block to the queue of its owner. *)
Definition link_last (s : alloc_s) (o p b : Z) (last : option Z) : alloc_s :=
  match last with Some y => set_next s y b | None => set_from s o p b end.

Lemma inv_enqueue s pl FL Q o p b h : heap_inv s pl FL Q -> thread o -> thread p -> o <> p ->
  pl !! b = Some Live -> is_block s b h -> owner h = o ->
  heap_inv (set_to (link_last (set_next s b 0) o p b (last (Q (o, p)))) p o (AtBlock b))
    (<[b := InQueue o p]> pl) FL (<[(o, p) := Q (o, p) ++ [b]]> Q).
Proof.
  intros Hi Ho Hpr Hop Hb Hh Hown. pose proof (inv_write _ _ _ _ _ 0 Hi Hb) as [Hp Hbl Hf Hq Hs].
  assert (Hnf : forall k, b ∉ FL k) by (intros; by eapply live_not_free).
  pose proof (live_not_queued _ _ _ _ _ _ _ Hi Ho Hpr Hop Hb) as Hnq.
  destruct (Hq o p Ho Hpr Hop) as (Hn & He & Hc & Ht).
  assert (Hlast : forall y, last (Q (o, p)) = Some y -> pl !! y = Some (InQueue o p)).
  { intros y [L HL]%last_Some. apply He. rewrite HL. apply elem_of_app. right; left. }
  split.
  - destruct (last (Q (o, p))); by destruct Hp.
  - intros b' p'. rewrite lookup_insert. case_decide as Eb.
    + subst b'. intros [= <-]. exists h. destruct (last (Q (o, p))); done.
    + intros Hb'. destruct (Hbl _ _ Hb') as (h' & Hh' & Hm). exists h'. destruct (last (Q (o, p))); done.
  - intros k. destruct (Hf k) as (Hn' & He' & Hc'). split_and!; [done| |].
    + intros x. apply elsewhere; [done|by rewrite Hb|done].
    + destruct (last (Q (o, p))) as [y|] eqn:Ey; [|done]. apply chain_frame; [|done].
      rewrite He', (Hlast y); done.
  - intros o' p' Ho' Hp' Hop'. destruct (decide ((o', p') = (o, p))) as [[= -> ->]|Hk].
    + rewrite fn_lookup_insert. split_and!.
      * apply NoDup_app. split; [done|]. split; [|apply NoDup_singleton].
        intros x Hx ->%list_elem_of_singleton. done.
      * intros x. rewrite (Permutation_app_comm _ [b]). by apply added.
      * unfold from. destruct (last (Q (o, p))) as [y|] eqn:Ey.
        { apply last_Some in Ey as [L HL]. rewrite HL, <- app_assoc in *. cbn.
          destruct (hi_queue _ _ _ _ Hi o p Ho Hpr Hop) as (_ & _ & Hc0 & _). rewrite HL in Hc0. by apply chain_snoc. }
        apply last_None in Ey. rewrite Ey. cbn. by rewrite !lookup_insert_eq.
      * rewrite last_snoc. cbn. by rewrite lookup_insert_eq.
    + rewrite fn_lookup_insert_ne by done. destruct (Hq o' p' Ho' Hp' Hop') as (Hn' & He' & Hc' & Ht').
      split_and!; [done| | |].
      * intros x. apply elsewhere; [done|by rewrite Hb|]. intros [= -> ->]. done.
      * destruct (last (Q (o, p))) as [y|] eqn:Ey; unfold from; cbn.
        { apply chain_frame; [|done]. rewrite He', (Hlast y) by done. intros [= -> ->]. done. }
        by rewrite lookup_insert_ne by done.
      * cbn. rewrite lookup_insert_ne by (intros [= -> ->]; done). by destruct (last (Q (o, p))).
  - intros o'. unfold from. destruct (last (Q (o, p))); cbn; [apply Hs|].
    rewrite lookup_insert_ne; [apply Hs|]. intros [= -> ->]. done.
Qed.

(** * The operations *)

(** The headers stay, and the same blocks are in use. *)
Definition evolves (s : alloc_s) (pl : gmap Z place) (s' : alloc_s) (pl' : gmap Z place) : Prop :=
  headers_ s ⊆ headers_ s' /\ forall x, pl' !! x = Some Live <-> pl !! x = Some Live.

Lemma evolves_refl s pl : evolves s pl s pl.
Proof. done. Qed.

Lemma evolves_trans s1 pl1 s2 pl2 s3 pl3 :
  evolves s1 pl1 s2 pl2 -> evolves s2 pl2 s3 pl3 -> evolves s1 pl1 s3 pl3.
Proof. intros [H1 H2] [H3 H4]. split; [by trans (headers_ s2)|]. intros x. by rewrite H4. Qed.

(** A block that is not in use moves to another place. *)
Lemma evolves_move s pl s' b p p' : headers_ s ⊆ headers_ s' -> pl !! b = Some p -> p <> Live -> p' <> Live ->
  evolves s pl s' (<[b := p']> pl).
Proof.
  intros Hh Hb Hp Hp'. split; [done|]. intros x. rewrite lookup_insert. case_decide as E; [subst x|done].
  rewrite Hb. split; by intros [= ?].
Qed.

Lemma evolves_block s pl s' pl' b h : evolves s pl s' pl' -> is_block s b h -> is_block s' b h.
Proof. intros [Hs _] (Hb & Hh & Hd). split; [done|]. split; [by eapply lookup_weaken|done]. Qed.

Lemma pop_run s pl FL Q t sc : heap_inv s pl FL Q -> thread t ->
  match FL (t, sc) with
  | [] => pop_free_list t sc s = inl (0, s)
  | b :: _ => pop_free_list t sc s = inl (b, set_free s t sc (next_of s b)) /\ b <> 0 /\ is_block s b (Header t sc)
  end.
Proof.
  intros Hi Ht. destruct (FL (t, sc)) as [|b R] eqn:E.
  - destruct (hi_free _ _ _ _ Hi (t, sc)) as (_ & _ & Hc). rewrite E in Hc. cbn in Hc.
    unfold pop_free_list. by rewrite Hc.
  - destruct (inv_pop _ _ _ _ _ _ _ _ Hi E) as (Hb & Hpl & _).
    destruct (hi_block _ _ _ _ Hi _ _ Hpl) as (h & Hh & ->). assert (b <> 0) by (destruct Hh as [Hb0 _]; lia).
    split_and!; [|done..]. unfold pop_free_list. rewrite Hb, (proj2 (Z.eqb_neq b 0)) by done.
    rewrite (get_header_ok _ _ _ Hh). cbn [rbind scale]. by rewrite Z.eqb_refl.
Qed.

Lemma set_from_twice s o p x y : set_from (set_from s o p x) o p y = set_from s o p y.
Proof. unfold set_from. cbn. by rewrite insert_insert_eq. Qed.

Lemma incoming_loop_run o p R : thread o -> thread p -> o <> p -> forall fuel b s pl FL Q,
  heap_inv (set_from s o p b) pl FL Q -> Q (o, p) = b :: R -> (length R < fuel)%nat ->
  exists b' s' pl' FL' Q', incoming_loop fuel o b (next_of s b) s = inl (b', s') /\
    heap_inv (set_from s' o p b') pl' FL' Q' /\ evolves s pl s' pl'.
Proof.
  intros Ho Hp Hop. induction R as [|n R IH]; intros fuel b s pl FL Q Hi E Hf; (destruct fuel as [|fuel]; [simpl in Hf; lia|]).
  - destruct (hi_queue _ _ _ _ Hi o p Ho Hp Hop) as (_ & _ & Hc & _). rewrite E in Hc. destruct Hc as (_ & Hn).
    change (next_of s b = 0) in Hn. cbn [incoming_loop]. rewrite Hn. by exists b, s, pl, FL, Q.
  - destruct (inv_dequeue _ _ _ _ _ _ _ _ _ Hi Ho Hp Hop E) as (_ & Hn & Hpl & Hi').
    change (next_of s b = n) in Hn. rewrite set_from_twice in Hi'.
    destruct (hi_block _ _ _ _ Hi _ _ Hpl) as ([ow sc] & Hh & Hown). cbn in Hown. subst ow.
    assert (n <> 0) as Hn0.
    { assert (Hin : n ∈ Q (o, p)) by (rewrite E; right; left).
      destruct (hi_queue _ _ _ _ Hi o p Ho Hp Hop) as (_ & Hq & _). apply Hq in Hin.
      destruct (hi_block _ _ _ _ Hi _ _ Hin) as (h & (Hb & _) & _). lia. }
    pose proof (inv_push _ _ _ _ o sc b Hi' (lookup_insert_eq _ _ _) Hh) as Hi2. rewrite insert_insert_eq in Hi2.
    cbn [incoming_loop]. rewrite Hn, (proj2 (Z.eqb_neq n 0)) by done.
    rewrite (get_header_ok s b (Header o sc)) by apply Hh. cbn [rbind scale].
    change (heap_inv (set_from (set_free (set_next s b (first_free s o sc)) o sc b) o p n)
      (<[b := InFree o sc]> pl) (<[(o, sc) := b :: FL (o, sc)]> FL) (<[(o, p) := n :: R]> Q)) in Hi2.
    edestruct (IH fuel n _ _ _ _ Hi2) as (b' & s' & pl' & FL' & Q' & Hrun & Hi3 & Hev).
    { by rewrite fn_lookup_insert. }
    { simpl in Hf. lia. }
    exists b', s', pl', FL', Q'. split_and!; [done..|]. eapply evolves_trans; [|done].
    by apply (evolves_move _ _ _ _ (InQueue o p)).
Qed.

(** Distinct numbers below a bound are at most so many. *)
Lemma NoDup_bounded (L : list Z) n : NoDup L -> (forall x, x ∈ L -> 0 <= x < n) -> (length L <= Z.to_nat n)%nat.
Proof.
  intros Hn Hb. rewrite <- (length_seqZ 0 n). apply submseteq_length, NoDup_submseteq; [done|].
  intros x Hx. apply elem_of_seqZ. specialize (Hb x Hx). lia.
Qed.

(** The fuel of a loop over distinct addresses *)
Definition enough (fuel : nat) : Prop := 2 ^ 47 < Z.of_nat fuel.

Lemma queue_length s pl FL Q o p : heap_inv s pl FL Q -> thread o -> thread p -> o <> p ->
  Z.of_nat (length (Q (o, p))) <= 2 ^ 47.
Proof.
  intros Hi Ho Hp Hop. destruct (hi_queue _ _ _ _ Hi o p Ho Hp Hop) as (Hn & Hq & _).
  assert (length (Q (o, p)) <= Z.to_nat (2 ^ 47))%nat; [|lia]. apply NoDup_bounded; [done|].
  intros x Hx. apply Hq in Hx. destruct (hi_block _ _ _ _ Hi _ _ Hx) as (h & (Hb & _) & _). lia.
Qed.

Lemma incoming_from_run fuel o ps : thread o -> Forall thread ps -> enough fuel -> forall s pl FL Q,
  heap_inv s pl FL Q ->
  exists s' pl' FL' Q', incoming_from fuel o ps s = inl s' /\ heap_inv s' pl' FL' Q' /\ evolves s pl s' pl'.
Proof.
  intros Ho Hps Hf. induction Hps as [|p ps Hp Hps IH]; intros s pl FL Q Hi; cbn [incoming_from].
  { by exists s, pl, FL, Q. }
  destruct (Z.eqb_spec (from s o p) 0) as [Hb|Hb]; [by apply (IH _ _ _ _ Hi)|].
  assert (o <> p) as Hop. { intros <-. by rewrite (hi_self _ _ _ _ Hi) in Hb. }
  pose proof (queue_length _ _ _ _ _ _ Hi Ho Hp Hop) as Hlen.
  destruct (hi_queue _ _ _ _ Hi o p Ho Hp Hop) as (_ & _ & Hc & _).
  destruct (Q (o, p)) as [|b R] eqn:E; [done|]. destruct Hc as (Hb0 & _).
  assert (set_from s o p b = s) as Hs.
  { unfold from in *. destruct (blocks_from s !! (o, p)) as [b'|] eqn:Eb; [|done]. cbn in Hb0. subst b'.
    destruct s. unfold set_from. cbn in *. by rewrite insert_id. }
  rewrite Hb0. rewrite <- Hs in Hi.
  destruct (incoming_loop_run _ _ _ Ho Hp Hop fuel _ _ _ _ _ Hi E) as (b' & s' & pl' & FL' & Q' & -> & Hi' & Hev).
  { unfold enough in Hf. simpl in Hlen. lia. }
  cbn [rbind]. destruct (IH _ _ _ _ Hi') as (s2 & pl2 & FL2 & Q2 & -> & Hi2 & Hev2).
  exists s2, pl2, FL2, Q2. split_and!; [done..|]. by eapply evolves_trans.
Qed.

Section with_mmap.
(** [mmap] returns a range of the lower half of the address space, none of it in
    use. *)
Context (mmap : list (Z * Z) -> Z -> option Z).
Context (Hmmap : forall l n r, mmap l n = Some r ->
  0 < r /\ r + n <= 2 ^ 47 /\ forall x, r <= x < r + n -> ~ covers l x).

(** The part of [get_new_region] that finds an aligned range *)
Definition aligned_region (s : alloc_s) (region_size : Z) : res (Z * alloc_s) :=
  let* (region, s) := mmap_region mmap s region_size in
  if Z.land region (region_size - 1) =? 0 then inl (region, s)
  else
    let s := munmap s region region_size in
    let* (region, s) := mmap_region mmap s (region_size * 2) in
    let aligned := Z.land (u64 (region + region_size)) (u64 (Z.lnot (region_size - 1))) in
    let extra := aligned - region in
    let s := if extra =? 0 then s else munmap s region extra in
    let extra := region + region_size - aligned in
    let s := if extra =? 0 then s else munmap s (aligned + region_size) extra in
    inl (aligned, s).

(** [r] is a new range of [n] bytes, added to the mapped ones. *)
Definition maps (s s' : alloc_s) (r n : Z) : Prop :=
  0 < r /\ r + n <= 2 ^ 47 /\ (n | r) /\ (forall x, r <= x < r + n -> ~ covers (mapped s) x) /\
  s' = set_mapped s (mapped s') /\ forall x, covers (mapped s') x <-> covers (mapped s) x \/ r <= x < r + n.

Lemma covers_munmap s a n x : covers (mapped (munmap s a n)) x <-> covers (mapped s) x /\ ~ (a <= x < a + n).
Proof. apply covers_cut. Qed.

(** Unmapping nothing changes nothing. *)
Lemma covers_trim s a n x :
  covers (mapped (if n =? 0 then s else munmap s a n)) x <-> covers (mapped s) x /\ ~ (a <= x < a + n).
Proof.
  destruct (Z.eqb_spec n 0) as [->|Hn]; [|apply covers_munmap]. split; [|tauto]. intros Hx. split; [done|lia].
Qed.

Lemma munmap_other s a n b : set_mapped s (mapped (if b : bool then s else munmap s a n)) = if b then s else munmap s a n.
Proof. by destruct b, s. Qed.

Lemma region_aligned s k : 21 <= k <= MAX_SCALE ->
  ok (aligned_region s (2 ^ k)) (fun '(r, s') => maps s s' r (2 ^ k)).
Proof using Hmmap.
  unfold MAX_SCALE. intros Hk. assert (0 < 2 ^ k <= 2 ^ 36) as Hpos.
  { split; [apply Z.pow_pos_nonneg; lia|apply Z.pow_le_mono_r; lia]. }
  unfold aligned_region, mmap_region. destruct (mmap (mapped s) (2 ^ k)) as [r|] eqn:Er; [|done].
  destruct (Hmmap _ _ _ Er) as (Hr0 & Hr & Hfresh). cbn [rbind]. rewrite land_ones_sub by lia.
  destruct (Z.eqb_spec (r mod 2 ^ k) 0) as [Ha|Ha].
  { split_and!; [done..|by apply Z.mod_divide; lia|done|by destruct s|].
    intros x. cbn. rewrite covers_cons. tauto. }
  set (s1 := munmap _ _ _). destruct (mmap (mapped s1) (2 ^ k * 2)) as [r2|] eqn:Er2; [|done].
  assert (Hs1 : forall x, covers (mapped s1) x <-> covers (mapped s) x).
  { intros x. unfold s1. rewrite covers_munmap. cbn. rewrite covers_cons. specialize (Hfresh x). tauto. }
  destruct (Hmmap _ _ _ Er2) as (Hq0 & Hq & Hfresh2). cbn [rbind].
  rewrite (u64_small (r2 + 2 ^ k)), align_down by lia. set (a := r2 + 2 ^ k - (r2 + 2 ^ k) mod 2 ^ k).
  assert (r2 < a <= r2 + 2 ^ k) as Hau by (pose proof (Z.mod_pos_bound (r2 + 2 ^ k) (2 ^ k)); lia).
  assert (2 ^ k | a) as Hdiv.
  { exists ((r2 + 2 ^ k) / 2 ^ k). unfold a. rewrite Z.mod_eq by lia. lia. }
  split_and!; [lia|lia|done| | |].
  - intros x Hx. rewrite <- Hs1. apply Hfresh2. lia.
  - by destruct s, (_ =? 0), (_ =? 0).
  - intros x. rewrite !covers_trim. cbn [mapped set_mapped]. rewrite covers_cons, Hs1.
    specialize (Hfresh2 x). rewrite Hs1 in Hfresh2.
    split; [intros [[[?|?] ?] ?]; [right; lia|by left]|].
    intros [Hc|Hx]; [|split; [split; [left; lia|lia]|lia]].
    destruct (decide (r2 <= x < r2 + 2 ^ k * 2)) as [Hin|Hout]; [by destruct Hfresh2|].
    split; [split; [by right|lia]|lia].
Qed.

Lemma region_size_pow sc : 0 <= sc -> region_size sc = 2 ^ Z.max sc PAGE_SCALE.
Proof using Type.
  intros Hsc. unfold region_size, PAGE_SIZE, PAGE_SCALE. destruct (Z.le_gt_cases sc 21).
  - rewrite (Z.max_r sc) by done. apply Z.max_r. by apply Z.pow_le_mono_r; lia.
  - rewrite (Z.max_l sc) by lia. apply Z.max_l. apply Z.pow_le_mono_r; lia.
Qed.

(** A new page keeps the pages in order. *)
Lemma pages_add s s' r t sc : pages_ok s -> thread t -> MIN_SCALE <= sc <= MAX_SCALE ->
  maps s s' r (region_size sc) ->
  headers_ s !! Z.shiftr r PAGE_SCALE = None /\ page_addr (Z.shiftr r PAGE_SCALE) = r /\
  pages_ok (set_headers s' (<[Z.shiftr r PAGE_SCALE := Header t sc]> (headers_ s))).
Proof using Type.
  intros Hp Ht Hsc (Hr0 & Hr & Hdiv & Hfresh & Hs' & Hcov). unfold MIN_SCALE, MAX_SCALE in Hsc.
  rewrite region_size_pow in * by lia. set (n := 2 ^ Z.max sc PAGE_SCALE) in *.
  assert (2 ^ PAGE_SCALE | n) as Hn by (apply pow2_divide; unfold PAGE_SCALE; lia).
  assert (0 < n) as Hn0 by (apply Z.pow_pos_nonneg; unfold PAGE_SCALE; lia).
  assert (Hpg : page_addr (Z.shiftr r PAGE_SCALE) = r).
  { assert (2 ^ PAGE_SCALE | r) as [z Hz] by (by trans n). unfold page_addr, PAGE_SIZE.
    rewrite Z.shiftr_div_pow2 by (unfold PAGE_SCALE; lia). rewrite Hz, Z.div_mul by (unfold PAGE_SCALE; lia). done. }
  assert (Hdisj : forall j h, headers_ s !! j = Some h ->
    page_addr j + region_size (scale h) <= r \/ r + n <= page_addr j).
  { intros j h Hj. destruct (pg_range s Hp _ _ Hj) as (_ & Hc).
    assert (0 < region_size (scale h)) by (unfold region_size, PAGE_SIZE, PAGE_SCALE; lia).
    destruct (decide (page_addr j + region_size (scale h) <= r \/ r + n <= page_addr j)) as [|Hno]; [done|].
    exfalso. apply (Hfresh (Z.max r (page_addr j))); [lia|]. apply Hc. lia. }
  assert (Hnone : headers_ s !! Z.shiftr r PAGE_SCALE = None).
  { destruct (headers_ s !! _) as [h|] eqn:E; [|done]. specialize (Hdisj _ _ E). rewrite Hpg in Hdisj.
    assert (0 < region_size (scale h)) by (unfold region_size, PAGE_SIZE, PAGE_SCALE; lia). lia. }
  assert (Hsz : region_size sc = n) by (apply region_size_pow; lia).
  split; [done|]. split; [done|]. split.
  - intros i h. cbn. rewrite lookup_insert. case_decide as E; [|apply (pg_header s Hp)]. intros [= <-]. cbn.
    subst i. split; [done|]. split; [done|]. split.
    + unfold page_addr, PAGE_SIZE, PAGE_SCALE in *. lia.
    + rewrite Hpg. trans n; [|done]. apply pow2_divide. lia.
  - intros i h. cbn. rewrite lookup_insert. case_decide as E.
    + intros [= <-]. subst i. cbn. rewrite Hpg, Hsz. split; [done|]. intros x Hx. apply Hcov. by right.
    + intros Hi. destruct (pg_range s Hp _ _ Hi) as [Hle Hc]. split; [done|].
      intros x Hx. apply Hcov. left. by apply Hc.
  - intros i j hi hj. cbn. rewrite !lookup_insert. do 2 case_decide; subst.
    + done.
    + intros [= <-] Hj _. cbn. rewrite Hpg, Hsz. destruct (Hdisj _ _ Hj); lia.
    + intros Hi [= <-] _. cbn. rewrite Hpg, Hsz. destruct (Hdisj _ _ Hi); lia.
    + apply (pg_apart s Hp).
Qed.

Lemma get_new_region_eq s t sc : get_new_region mmap t sc s =
  (let* (region, s) := aligned_region s (region_size sc) in
   let* _ := check (negb (region =? 0)) in
   let* h := get_header s region in
   let* _ := check (scale h =? 0) in
   inl (region, set_headers s (<[Z.shiftr region PAGE_SCALE := Header (u8 t) (u8 sc)]> (headers_ s)))).
Proof using Type.
  unfold get_new_region. cbv zeta.
  assert ((if 2 ^ sc <? PAGE_SIZE then PAGE_SIZE else 2 ^ sc) = region_size sc) as ->.
  { unfold region_size. destruct (Z.ltb_spec (2 ^ sc) PAGE_SIZE); lia. }
  unfold aligned_region. by destruct (mmap_region mmap s (region_size sc)) as [[]|].
Qed.

(** The page of an address *)
Lemma page_of i x : page_addr i <= x < page_addr i + PAGE_SIZE -> Z.shiftr x PAGE_SCALE = i.
Proof using Type.
  unfold page_addr, PAGE_SIZE, PAGE_SCALE. intros Hx. rewrite Z.shiftr_div_pow2 by lia.
  symmetry. apply (Z.div_unique _ _ _ (x - i * 2 ^ 21)); lia.
Qed.

Lemma new_region_run s pl FL Q t sc : heap_inv s pl FL Q -> thread t -> MIN_SCALE <= sc <= MAX_SCALE ->
  ok (get_new_region mmap t sc s) (fun '(r, s') => r <> 0 /\ heap_inv s' pl FL Q /\ headers_ s ⊆ headers_ s' /\
    (2 ^ sc | r) /\
    forall x, r <= x < r + PAGE_SIZE -> (2 ^ sc | x) -> is_block s' x (Header t sc) /\ pl !! x = None).
Proof using Hmmap.
  intros Hi Ht Hsc. pose proof Hi as [Hp Hbl Hf Hq Hs]. rewrite get_new_region_eq. apply ok_bind.
  assert (3 <= sc <= 36) as Hsc' by (unfold MIN_SCALE, MAX_SCALE in Hsc; lia).
  pose proof (region_aligned s (Z.max sc PAGE_SCALE)) as Hreg. rewrite <- region_size_pow in Hreg by lia.
  eapply ok_mono; [apply Hreg; unfold PAGE_SCALE, MAX_SCALE; lia|]. intros [r s1] Hm.
  destruct (pages_add _ _ _ t sc Hp Ht Hsc Hm) as (Hnone & Hpg & Hpages).
  destruct Hm as (Hr0 & Hr & Hdiv & Hfresh & Hs' & Hcov). rewrite Hs' in Hpages |- *. set (s2 := set_headers _ _) in Hpages.
  assert (PAGE_SIZE <= region_size sc) by (unfold region_size; lia).
  assert (0 < PAGE_SIZE) by (unfold PAGE_SIZE, PAGE_SCALE; lia).
  rewrite (proj2 (Z.eqb_neq r 0)) by lia. cbn [negb check rbind].
  unfold get_header. assert ((Z.shiftr r PAGE_SCALE <? HEADERS_SIZE) = true) as ->.
  { apply Z.ltb_lt. unfold HEADERS_SIZE, MAX_POINTER_BITS, PAGE_SCALE in *. rewrite Z.shiftr_div_pow2 by lia.
    apply Z.div_lt_upper_bound; lia. }
  cbn [check rbind set_mapped headers_]. rewrite Hnone. cbn [default scale Z.eqb check rbind].
  assert (u8 t = t) as -> by (unfold u8, thread in *; rewrite Z.mod_small; lia).
  assert (u8 sc = sc) as -> by (unfold u8; rewrite Z.mod_small; lia).
  assert (Hsub : headers_ s ⊆ headers_ s2) by by apply insert_subseteq.
  assert (Hmono : forall b h, is_block s b h -> is_block s2 b h).
  { intros b h (Hb & Hh & Hd). split; [done|]. split; [by eapply lookup_weaken|done]. }
  cbn. split_and!; [lia| |done| |].
  - split; [done| |done..]. intros b p Hb. destruct (Hbl _ _ Hb) as (h & Hh & Hpl). exists h. auto.
  - trans (region_size sc); [|done]. rewrite region_size_pow by lia. apply pow2_divide. lia.
  - intros x Hx Hxd. split.
    + split; [lia|]. split; [|done]. cbn. rewrite (page_of (Z.shiftr r PAGE_SCALE)) by (rewrite Hpg; lia).
      apply lookup_insert_eq.
    + destruct (pl !! x) as [p|] eqn:Epl; [|done]. destruct (Hbl _ _ Epl) as (h & Hh & _).
      destruct (block_page _ _ _ Hp Hh) as (Hs1 & Hl & Hu). unfold MIN_SCALE in Hs1.
      assert (0 < 2 ^ scale h) by (apply Z.pow_pos_nonneg; lia).
      destruct Hh as (_ & Hh & _). destruct (pg_range s Hp _ _ Hh) as [_ Hc].
      exfalso. apply (Hfresh x); [lia|]. apply Hc. cbn zeta in *. lia.
Qed.

(** The other blocks of a new page end up on the free list. *)
Lemma carve_run t sc r : forall fuel k s head pl FL Q, (k < fuel)%nat ->
  heap_inv (set_free s t sc head) pl FL Q ->
  (forall j, 1 <= j <= Z.of_nat k -> is_block s (r + j * 2 ^ sc) (Header t sc) /\ pl !! (r + j * 2 ^ sc) = None) ->
  0 < 2 ^ sc ->
  exists head' s' pl' FL', carve fuel r (2 ^ sc) (Z.of_nat k * 2 ^ sc) head s = inl (head', s') /\
    heap_inv (set_free s' t sc head') pl' FL' Q /\ evolves s pl s' pl'.
Proof using Type.
  induction fuel as [|fuel IH]; intros k s head pl FL Q Hk Hi Hnew Hpos; [lia|]. cbn [carve].
  destruct k as [|k].
  { by exists head, s, pl, FL. }
  rewrite (proj2 (Z.ltb_lt 0 _)) by nia. set (x := r + Z.of_nat (S k) * 2 ^ sc).
  destruct (Hnew (Z.of_nat (S k)) ltac:(lia)) as [Hx Hpl]. change (is_block s x (Header t sc)) in Hx.
  change (pl !! x = None) in Hpl.
  pose proof (inv_fresh _ _ _ _ _ _ Hi Hpl Hx) as Hi1.
  pose proof (inv_push _ _ _ _ t sc x Hi1 (lookup_insert_eq _ _ _) Hx) as Hi2. rewrite insert_insert_eq in Hi2.
  assert (first_free (set_free s t sc head) t sc = head) as Hhd.
  { unfold first_free. cbn. by rewrite lookup_insert_eq. }
  rewrite Hhd in Hi2.
  assert (set_free (set_next (set_free s t sc head) x head) t sc x = set_free (set_next s x head) t sc x) as Heq.
  { unfold set_free, set_next. cbn. by rewrite insert_insert_eq. }
  rewrite Heq in Hi2. replace (Z.of_nat (S k) * 2 ^ sc - 2 ^ sc) with (Z.of_nat k * 2 ^ sc) by lia.
  destruct (IH k _ _ _ _ _ ltac:(lia) Hi2) as (head' & s' & pl' & FL' & Hrun & Hi' & Hev); [|done|].
  - intros j Hj. destruct (Hnew j ltac:(lia)) as [Hj1 Hj2]. split; [done|].
    rewrite lookup_insert_ne; [done|]. unfold x. nia.
  - exists head', s', pl', FL'. split_and!; [done..|]. eapply evolves_trans; [|done].
    split; [done|]. intros y. rewrite lookup_insert. case_decide as E; [subst y|done]. rewrite Hpl. split; by intros [= ?].
Qed.

(** The heap is in order, and the blocks of [live] are the ones in use. *)
Definition alloc_inv (s : alloc_s) (live : gset Z) : Prop :=
  exists pl FL Q, heap_inv s pl FL Q /\ forall b, b ∈ live <-> pl !! b = Some Live.

(** Thread [t] has got a block of scale [sc] that was not in use. *)
Definition gives (s0 : alloc_s) (live : gset Z) (t sc : Z) (r : Z * alloc_s) : Prop :=
  ~ r.1 ∈ live /\ alloc_inv r.2 ({[r.1]} ∪ live) /\ headers_ s0 ⊆ headers_ r.2 /\ is_block r.2 r.1 (Header t sc).

Lemma gives_block s0 live s pl FL Q t sc b : heap_inv s (<[b := Live]> pl) FL Q -> pl !! b <> Some Live ->
  (forall x, x ∈ live <-> pl !! x = Some Live) -> headers_ s0 ⊆ headers_ s -> is_block s b (Header t sc) ->
  gives s0 live t sc (b, s).
Proof using Type.
  intros Hi Hb Hl Hs Hh. split; [cbn; by rewrite Hl|]. split_and!; [|done..]. exists (<[b := Live]> pl), FL, Q.
  split; [done|]. intros x. rewrite elem_of_union, elem_of_singleton, Hl, lookup_insert. cbn.
  case_decide as E; [subst x; split; by try left|]. split; [by intros [->|?]|by right].
Qed.

(** Popping either gives a block or finds the list empty. *)
Lemma pop_gives s0 live s pl FL Q t sc : heap_inv s pl FL Q -> thread t ->
  (forall x, x ∈ live <-> pl !! x = Some Live) -> headers_ s0 ⊆ headers_ s ->
  exists r, pop_free_list t sc s = inl r /\
    ((r = (0, s) /\ FL (t, sc) = []) \/ (r.1 <> 0 /\ gives s0 live t sc r)).
Proof using Type.
  intros Hi Ht Hl Hs. pose proof (pop_run _ _ _ _ t sc Hi Ht) as Hrun.
  destruct (FL (t, sc)) as [|b R] eqn:E; [by exists (0, s); auto|].
  destruct Hrun as (Hrun & Hb0 & Hb). destruct (inv_pop _ _ _ _ _ _ _ _ Hi E) as (_ & Hpl & Hi').
  eexists; split; [done|]. right. split; [done|]. eapply gives_block; [done|by rewrite Hpl|done..].
Qed.

(** The scale of a request *)
Lemma malloc_scale n : 2 <= n <= 2 ^ 36 ->
  let sc := 64 - (63 - Z.log2 (n - 1)) in
  let sc := if sc <? MIN_SCALE then MIN_SCALE else sc in
  MIN_SCALE <= sc <= MAX_SCALE /\ n <= 2 ^ sc.
Proof using Type.
  intros Hn. cbn zeta. unfold MIN_SCALE, MAX_SCALE. pose proof (Z.log2_spec (n - 1) ltac:(lia)) as [_ Hlt].
  assert (0 <= Z.log2 (n - 1) < 36) as Hlog.
  { split; [apply Z.log2_nonneg|]. apply Z.log2_lt_pow2; lia. }
  replace (Z.succ (Z.log2 (n - 1))) with (64 - (63 - Z.log2 (n - 1))) in Hlt by lia.
  destruct (Z.ltb_spec (64 - (63 - Z.log2 (n - 1))) 3); [|lia].
  assert (2 ^ (64 - (63 - Z.log2 (n - 1))) <= 2 ^ 3) by (apply Z.pow_le_mono_r; lia). lia.
Qed.

Lemma threads_ok : Forall thread threads.
Proof using Type.
  apply Forall_forall. intros x (i & -> & Hi)%list_elem_of_fmap. apply elem_of_seq in Hi.
  unfold thread, MAX_NUM_THREADS in *. lia.
Qed.

(** The last part of [nbd_malloc]: a new page *)
Lemma new_page_gives s0 live s pl FL Q t sc fuel : heap_inv s pl FL Q -> thread t -> enough fuel ->
  (forall x, x ∈ live <-> pl !! x = Some Live) -> headers_ s0 ⊆ headers_ s -> FL (t, sc) = [] ->
  MIN_SCALE <= sc <= MAX_SCALE ->
  ok (let* (page, s) := get_new_region mmap t sc s in
      let b := page in
      let* s :=
        (if sc <? PAGE_SCALE then
           let block_size := 2 ^ sc in
           let* (head, s) := carve fuel page block_size (PAGE_SIZE - block_size) 0 s in
           inl (set_free s t sc head)
         else inl s) in
      let* _ := check (negb (b =? 0)) in
      inl (b, s)) (gives s0 live t sc).
Proof using Hmmap.
  intros Hi Ht Hfuel Hl Hs0 Hnil Hsc. apply ok_bind. eapply ok_mono; [by eapply new_region_run|].
  intros [r s1] (Hr0 & Hi1 & Hs1 & Hd & Hnew). cbn zeta. assert (3 <= sc <= 36) as Hsc' by done.
  assert (Hpg : r <= r < r + PAGE_SIZE) by (unfold PAGE_SIZE, PAGE_SCALE; lia).
  destruct (Hnew r Hpg Hd) as [Hrb Hrpl]. destruct (Z.ltb_spec sc PAGE_SCALE) as [Hsmall|Hbig].
  - unfold PAGE_SCALE in Hsmall. set (k := Z.to_nat (2 ^ (21 - sc) - 1)).
    assert (0 < 2 ^ (21 - sc) <= 2 ^ 21) as Hk.
    { split; [apply Z.pow_pos_nonneg; lia|apply Z.pow_le_mono_r; lia]. }
    assert (0 < 2 ^ sc) as Hpos by (apply Z.pow_pos_nonneg; lia).
    assert (PAGE_SIZE = 2 ^ (21 - sc) * 2 ^ sc) as Hps.
    { rewrite <- Z.pow_add_r by lia. unfold PAGE_SIZE, PAGE_SCALE. f_equal. lia. }
    replace (PAGE_SIZE - 2 ^ sc) with (Z.of_nat k * 2 ^ sc) by (subst k; nia).
    pose proof (inv_fresh _ _ _ _ _ _ Hi1 Hrpl Hrb) as Hi2.
    pose proof (inv_empty _ _ _ _ _ _ Hi2 Hnil) as Hi3.
    destruct (carve_run t sc r fuel k _ _ _ _ _ ltac:(unfold enough in Hfuel; lia) Hi3) as
      (head & s2 & pl2 & FL2 & -> & Hi4 & Hs2 & Hev); [|done|].
    { intros j Hj. assert (r <= r + j * 2 ^ sc < r + PAGE_SIZE) as Hin by nia.
      destruct (Hnew _ Hin) as [Hj1 Hj2]; [by apply Z.divide_add_r; [|exists j]|].
      split; [done|]. rewrite lookup_insert_ne; [done|]. nia. }
    cbn [rbind check]. rewrite (proj2 (Z.eqb_neq r 0)) by done. cbn [negb check rbind ok].
    assert (pl2 !! r = Some Live) as Hr2 by (apply Hev; by rewrite lookup_insert_eq).
    apply (gives_block _ _ _ (<[r := InFree 0 0]> pl2) FL2 Q).
    + by rewrite insert_insert_eq, insert_id.
    + by rewrite lookup_insert_eq.
    + intros x. rewrite lookup_insert. case_decide as E.
      * subst x. rewrite Hl, Hrpl. done.
      * rewrite Hev, lookup_insert_ne, Hl by done. done.
    + cbn. trans (headers_ s); [done|]. by trans (headers_ s1).
    + destruct Hrb as (Hb & Hh & _). split; [done|]. split; [|done]. cbn. by eapply lookup_weaken.
  - cbn [rbind]. rewrite (proj2 (Z.eqb_neq r 0)) by done. cbn [negb check rbind ok].
    apply (gives_block _ _ _ pl FL Q); [by eapply inv_fresh|by rewrite Hrpl|done|by trans (headers_ s)|done].
Qed.

Lemma nbd_malloc_ok fuel t n s live : alloc_inv s live -> thread t -> 2 <= n <= 2 ^ 36 -> enough fuel ->
  ok (nbd_malloc mmap fuel t n s) (fun r => exists sc, MIN_SCALE <= sc /\ n <= 2 ^ sc /\ gives s live t sc r).
Proof using Hmmap.
  intros (pl & FL & Q & Hi & Hl) Ht Hn Hfuel. destruct (malloc_scale n Hn) as [Hsc Hle].
  unfold nbd_malloc, clzl. rewrite u64_small, (proj2 (Z.eqb_neq (n - 1) 0)) by lia. cbn [rbind].
  set (sc := if _ <? MIN_SCALE then _ else _) in *. rewrite (proj2 (Z.ltb_ge _ _)) by apply Hsc.
  cut (forall x, ok x (gives s live t sc) -> ok x (fun r => exists sc, MIN_SCALE <= sc /\ n <= 2 ^ sc /\ gives s live t sc r)).
  2: { intros x Hx. eapply ok_mono; [done|]. intros r Hr. exists sc. by destruct Hsc. }
  intros Hcut. apply Hcut.
  destruct (pop_gives s live _ _ _ _ t sc Hi Ht Hl ltac:(done)) as ([b s1] & -> & [[[= -> ->] Hnil]|[Hb Hg]]); cbn [rbind].
  2: { by rewrite (proj2 (Z.eqb_neq b 0)). }
  cbn [Z.eqb negb]. unfold process_incoming_blocks.
  destruct (incoming_from_run fuel t threads Ht threads_ok Hfuel _ _ _ _ Hi) as (s2 & pl2 & FL2 & Q2 & -> & Hi2 & Hs2 & Hev).
  cbn [rbind]. assert (Hl2 : forall x, x ∈ live <-> pl2 !! x = Some Live) by (intros x; by rewrite Hev).
  destruct (pop_gives s live _ _ _ _ t sc Hi2 Ht Hl2 Hs2) as ([b s3] & -> & [[[= -> ->] Hnil2]|[Hb Hg]]); cbn [rbind].
  2: { by rewrite (proj2 (Z.eqb_neq b 0)). }
  cbn [Z.eqb negb]. by eapply new_page_gives.
Qed.
End with_mmap.

Lemma nbd_free_ok t b s live : alloc_inv s live -> thread t -> b ∈ live ->
  exists s', nbd_free t b s = inl s' /\ alloc_inv s' (live ∖ {[b]}) /\ headers_ s' = headers_ s.
Proof.
  intros (pl & FL & Q & Hi & Hl) Ht Hb. apply Hl in Hb.
  destruct (hi_block _ _ _ _ Hi _ _ Hb) as (h & Hh & _). pose proof Hh as (Hb0 & Hhd & _).
  destruct (pg_header _ (hi_pages _ _ _ _ Hi) _ _ Hhd) as (Hsc & Hown & _). unfold MIN_SCALE, MAX_SCALE in Hsc.
  unfold nbd_free. rewrite (proj2 (Z.eqb_neq b 0)) by lia. rewrite (get_header_ok _ _ _ Hh). cbn [negb check rbind].
  rewrite (proj2 (Z.eqb_neq (scale h) 0)) by lia. unfold MAX_SCALE. rewrite (proj2 (Z.leb_le _ _)) by lia.
  cbn [negb andb check rbind].
  assert (Hlive : forall p x, p <> Live -> x ∈ live ∖ {[b]} <-> <[b := p]> pl !! x = Some Live).
  { intros p x Hp. rewrite elem_of_difference, elem_of_singleton, Hl, lookup_insert.
    case_decide as E; [subst x; split; [by intros [_ ?]|by intros [= ?]]|].
    split; [by intros [? _]|split; [done|by intros ->]]. }
  assert (Htwice : forall x y, set_next (set_next s b x) b y = set_next s b y).
  { intros x y. unfold set_next. cbn. by rewrite insert_insert_eq. }
  destruct (Z.eqb_spec (owner h) t) as [Ho|Ho].
  - eexists; split; [done|]. split; [|done]. destruct h as [ow sc]. cbn in Ho. subst ow.
    eexists _, _, _. split; [exact (inv_push _ _ _ _ t sc b (inv_write _ _ _ _ _ _ Hi Hb) Hb Hh)|].
    intros x. by apply Hlive.
  - cbn [blocks_to set_next]. destruct (hi_queue _ _ _ _ Hi (owner h) t Hown Ht Ho) as (_ & _ & _ & Hto).
    rewrite Hto, Htwice. pose proof (inv_enqueue _ _ _ _ _ _ _ _ Hi Hown Ht Ho Hb Hh eq_refl) as Hi'.
    destruct (last (Q (owner h, t))) as [y|]; (eexists; split; [done|]; split; [|done]);
      (eexists _, _, _; split; [exact Hi'|]; intros x; by apply Hlive).
Qed.

Lemma thread_listed t : thread t -> t ∈ threads.
Proof.
  intros Ht. apply list_elem_of_fmap. exists (Z.to_nat t). unfold thread in Ht. rewrite Z2Nat.id by lia.
  split; [done|]. apply elem_of_seq. unfold MAX_NUM_THREADS. lia.
Qed.

Lemma mem_init_ok : alloc_inv mem_init ∅.
Proof.
  exists ∅, (fun _ => []), (fun _ => []). split; [|intros b; rewrite lookup_empty; split; [set_solver|done]].
  split.
  - split; intros *; cbn; by rewrite lookup_empty.
  - intros b p. by rewrite lookup_empty.
  - intros k. split; [apply NoDup_nil_2|]. split; [|done]. intros b. rewrite lookup_empty. split; [|done].
    by intros ?%not_elem_of_nil.
  - intros o p Ho Hp Hop. split; [apply NoDup_nil_2|]. split; [|split; [done|]].
    { intros b. rewrite lookup_empty. split; [|done]. by intros ?%not_elem_of_nil. }
    cbn [last blocks_to mem_init]. apply elem_of_list_to_map_1'.
    + intros y (i & (j & Hi & _)%list_elem_of_bind & _)%list_elem_of_bind.
      case_decide; [by apply not_elem_of_nil in Hi|]. apply list_elem_of_singleton in Hi. by injection Hi as -> -> ->.
    + apply list_elem_of_bind. exists p. split; [|by apply thread_listed].
      apply list_elem_of_bind. exists o. split; [|by apply thread_listed]. rewrite decide_False by done. left.
  - done.
Qed.

(** * The allocator and its clients *)

(** What the threads do: [t] asks for [n] bytes, [t] frees the block at [b], some
    thread writes to the first word of a block. *)
Inductive call := CMalloc (t n : Z) | CFree (t b : Z) | CWrite (b x : Z).

(** One byte is not asked for: the size would be computed by [clzl(0)]. *)
Definition valid_call (c : call) : Prop :=
  match c with
  | CMalloc t n => thread t /\ in_u64 n /\ n <> 1
  | CFree t _ => thread t
  | CWrite _ _ => True
  end.

Section clients.
Context (mmap : list (Z * Z) -> Z -> option Z).

(** A call, in a state where the clients hold the blocks of [L] (address and number of
    bytes asked for); clients free and write only blocks they hold. *)
Definition client_call (fuel : nat) (c : call) (st : alloc_s * gmap Z Z) : res (alloc_s * gmap Z Z) :=
  let '(s, L) := st in
  match c with
  | CMalloc t n =>
      let* (b, s) := nbd_malloc mmap fuel t n s in
      inl (s, if b =? 0 then L else <[b := n]> L)
  | CFree t b =>
      if decide (is_Some (L !! b)) then
        let* s := nbd_free t b s in
        inl (s, delete b L)
      else inl st
  | CWrite b x => if decide (is_Some (L !! b)) then inl (set_next s b x, L) else inl st
  end.

Fixpoint client_calls (fuel : nat) (cs : list call) (st : alloc_s * gmap Z Z) : res (alloc_s * gmap Z Z) :=
  match cs with
  | [] => inl st
  | c :: cs => let* st := client_call fuel c st in client_calls fuel cs st
  end.

(** The blocks the clients hold are the ones in use, and big enough. *)
Definition client_inv (st : alloc_s * gmap Z Z) : Prop :=
  alloc_inv st.1 (dom st.2) /\
  forall b n, st.2 !! b = Some n -> exists h, is_block st.1 b h /\ n <= 2 ^ scale h.

(** What clients rely on: the blocks are in mapped memory, aligned, and apart. *)
Definition blocks_good (st : alloc_s * gmap Z Z) : Prop :=
  (forall b n, st.2 !! b = Some n ->
    0 < b < 2 ^ 47 /\ (8 | b) /\ forall x, b <= x < b + n -> covers (mapped st.1) x) /\
  (forall a b n k, st.2 !! a = Some n -> st.2 !! b = Some k -> a <> b -> a + n <= b \/ b + k <= a).

Lemma block_divide s b h k : pages_ok s -> is_block s b h -> 0 <= k <= scale h -> (2 ^ k | b).
Proof using Type. intros _ (_ & _ & Hd) Hk. trans (2 ^ scale h); [by apply pow2_divide|done]. Qed.

Lemma client_good st : client_inv st -> blocks_good st.
Proof using Type.
  destruct st as [s L]. intros [(pl & FL & Q & Hi & Hl) Hb]. cbn [fst snd] in *. pose proof (hi_pages _ _ _ _ Hi) as Hp.
  split; cbn [fst snd].
  - intros b n Hn. destruct (Hb _ _ Hn) as (h & Hh & Hle). destruct (block_page _ _ _ Hp Hh) as (Hsc & Hl1 & Hu1).
    split; [apply Hh|]. split; [apply (block_divide _ _ _ 3 Hp Hh); unfold MIN_SCALE in Hsc; lia|].
    destruct Hh as (_ & Hh & _). destruct (pg_range s Hp _ _ Hh) as [_ Hc].
    intros x Hx. apply Hc. cbn zeta in *. lia.
  - intros a b n k Hn Hk Hab. destruct (Hb _ _ Hn) as (h1 & H1 & Hle1), (Hb _ _ Hk) as (h2 & H2 & Hle2).
    pose proof (blocks_apart _ _ _ _ _ Hp H1 H2 Hab). lia.
Qed.

Lemma nbd_malloc_null fuel t n s : in_u64 n -> n = 0 \/ 2 ^ 36 < n -> nbd_malloc mmap fuel t n s = inl (0, s).
Proof using Type.
  intros Hn Hcase. unfold nbd_malloc, clzl.
  assert (2 ^ 36 <= u64 (n - 1) < 2 ^ 64) as Hu.
  { destruct Hcase as [->|Hbig]; [done|]. rewrite u64_small; lia. }
  rewrite (proj2 (Z.eqb_neq _ 0)) by lia. cbn [rbind].
  assert (36 <= Z.log2 (u64 (n - 1))) as Hlog by (apply Z.log2_le_pow2; lia).
  unfold MIN_SCALE, MAX_SCALE. rewrite (proj2 (Z.ltb_ge _ 3)) by lia. by rewrite (proj2 (Z.ltb_lt 36 _)) by lia.
Qed.

Section correct.
Context (Hmmap : forall l n r, mmap l n = Some r ->
  0 < r /\ r + n <= 2 ^ 47 /\ forall x, r <= x < r + n -> ~ covers l x).
Context (fuel : nat) (Hfuel : enough fuel).

Lemma client_malloc s L t n : client_inv (s, L) -> thread t -> 2 <= n <= 2 ^ 36 ->
  ok (nbd_malloc mmap fuel t n s) (fun '(b, s') => b <> 0 /\ L !! b = None /\ (64 <= n -> (64 | b)) /\
    client_inv (s', <[b := n]> L)).
Proof using Hmmap Hfuel.
  intros [Hi Hb] Ht Hn. eapply ok_mono; [by apply (nbd_malloc_ok mmap Hmmap fuel t n s (dom L))|].
  intros [b s'] (sc & Hsc & Hle & Hfresh & Hi' & Hs & Hblk). cbn [fst snd] in *.
  split; [destruct Hblk as [Hb0 _]; lia|]. split; [by apply not_elem_of_dom|]. split.
  - intros H64. destruct Hi' as (pl & FL & Q & Hi' & _). apply (block_divide _ _ _ 6 (hi_pages _ _ _ _ Hi') Hblk).
    cbn. split; [lia|]. apply Z.nlt_ge. intros Hlt. assert (2 ^ sc <= 2 ^ 5) by (apply Z.pow_le_mono_r; lia). lia.
  - split; cbn [fst snd]; [by rewrite dom_insert_L|]. intros b' n'. rewrite lookup_insert. case_decide as E.
    + intros [= <-]. subst b'. by eexists.
    + intros Hn'. destruct (Hb _ _ Hn') as (h & (H1 & H2 & H3) & Hle'). exists h. split; [|done].
      split; [done|]. split; [by eapply lookup_weaken|done].
Qed.

Lemma client_call_ok c st : client_inv st -> valid_call c -> ok (client_call fuel c st) client_inv.
Proof using Hmmap Hfuel.
  destruct st as [s L]. intros Hi Hc. destruct c as [t n|t b|b x]; cbn [client_call valid_call] in *.
  - destruct Hc as (Ht & Hn & Hn1). apply ok_bind. destruct (decide (2 <= n <= 2 ^ 36)) as [Hr|Hr].
    + eapply ok_mono; [by apply client_malloc|]. intros [b s'] (Hb & _ & _ & Hi'). by rewrite (proj2 (Z.eqb_neq b 0)).
    + rewrite nbd_malloc_null by (done || lia). done.
  - case_decide as Hb; [|done]. destruct Hi as [Hi Hsz]. cbn [fst snd] in Hi, Hsz. apply elem_of_dom in Hb.
    destruct (nbd_free_ok _ _ _ _ Hi Hc Hb) as (s' & -> & Hi' & Hs). cbn.
    split; cbn [fst snd]; [by rewrite dom_delete_L|]. intros b' n [_ Hn]%lookup_delete_Some.
    destruct (Hsz _ _ Hn) as (h & (H1 & H2 & H3) & Hle). exists h. split; [|done]. split; [done|]. by rewrite Hs.
  - case_decide as Hb; [|done]. destruct Hi as [(pl & FL & Q & Hi & Hl) Hsz]. apply elem_of_dom, Hl in Hb.
    split; [|done]. exists pl, FL, Q. split; [by apply inv_write|done].
Qed.

Lemma client_calls_ok cs st : client_inv st -> Forall valid_call cs -> ok (client_calls fuel cs st) client_inv.
Proof using Hmmap Hfuel.
  intros Hi Hcs. revert st Hi. induction Hcs as [|c cs Hc Hcs IH]; intros st Hi; [done|].
  cbn [client_calls]. apply ok_bind. eapply ok_mono; [by apply client_call_ok|]. auto.
Qed.

Lemma client_init : client_inv (mem_init, ∅).
Proof using Type. split; cbn; [rewrite dom_empty_L; apply mem_init_ok|]. intros b n. by rewrite lookup_empty. Qed.

(** C11: Whatever the threads ask for (any size but one byte, for which the code counts the
    leading zeros of 0, mem.c:261) and free, in any order, every call returns unless
    the system runs out of memory, and the blocks held by the clients are always in
    mapped memory, 8-byte aligned and pairwise disjoint (so that clients may write
    to them without harm to each other or to the allocator's lists). *)
Theorem allocator_correct cs : Forall valid_call cs ->
  ok (client_calls fuel cs (mem_init, ∅)) blocks_good.
Proof using Hmmap Hfuel.
  intros Hcs. eapply ok_mono; [by apply client_calls_ok; [apply client_init|]|]. apply client_good.
Qed.

(** C12: What [Machine.Allocator] assumes of [nbd_malloc]: in any state the clients can
    reach, a request of 2 to 2^36 bytes yields the address of a block that is not
    in use, 64-byte aligned if the request is of 64 bytes or more, or the system has
    no memory left. *)
Theorem nbd_malloc_fresh cs s L t n : Forall valid_call cs ->
  client_calls fuel cs (mem_init, ∅) = inl (s, L) -> thread t -> 2 <= n <= 2 ^ 36 ->
  ok (nbd_malloc mmap fuel t n s) (fun '(b, s') => b <> 0 /\ L !! b = None /\ (64 <= n -> (64 | b)) /\
    blocks_good (s', <[b := n]> L)).
Proof using Hmmap Hfuel.
  intros Hcs Hrun Ht Hn. pose proof (client_calls_ok cs _ client_init Hcs) as Hi. rewrite Hrun in Hi.
  eapply ok_mono; [by apply client_malloc|]. intros [b s'] (? & ? & ? & ?). split_and!; [done..|by apply client_good].
Qed.

End correct.
End clients.

(** * A concrete [mmap]: the next multiple of 4096 above everything mapped *)
Definition bump_mmap (l : list (Z * Z)) (n : Z) : option Z :=
  let r := 4096 * (1 + foldr (fun x a => Z.max ((x.1 + x.2) / 4096) a) 0 l) in
  if r + n <=? 2 ^ 47 then Some r else None.

Lemma bump_mmap_ok l n r : bump_mmap l n = Some r ->
  0 < r /\ r + n <= 2 ^ 47 /\ forall x, r <= x < r + n -> ~ covers l x.
Proof.
  unfold bump_mmap. set (top := foldr _ 0 l). destruct (Z.leb_spec (4096 * (1 + top) + n) (2 ^ 47)) as [Hle|]; [|done].
  intros [= <-].
  assert (Hf : 0 <= top /\ forall b m, (b, m) ∈ l -> (b + m) / 4096 <= top).
  { subst top. clear. induction l as [|[b m] l [IH0 IH]]; cbn.
    - split; [done|]. by intros ?? ?%not_elem_of_nil.
    - split; [lia|]. intros b' m' [[= -> ->]|Hin]%elem_of_cons; [lia|]. specialize (IH _ _ Hin). lia. }
  destruct Hf as [H0 Hf]. split; [lia|]. split; [lia|]. intros x Hx (b & m & Hin & Hc). specialize (Hf _ _ Hin).
  Z.to_euclidean_division_equations; lia.
Qed.

(** Fuel for the examples *)
Definition much : nat := Z.to_nat (2 ^ 48).

Lemma much_enough : enough much.
Proof. unfold enough, much. rewrite Z2Nat.id; lia. Qed.

Lemma much_S : exists f, much = S f.
Proof. pose proof much_enough as H. unfold enough in H. destruct much as [|f]; [lia|by exists f]. Qed.

#[global] Opaque much.

(** Two threads ask for blocks of one and two pages; the second thread frees the
    block of the first, which asks again. *)
Definition sample : list call :=
  [CMalloc 0 2097152; CMalloc 1 3000000; CFree 1 2097152; CWrite 8388608 7; CMalloc 0 1500000].

Lemma sample_valid : Forall valid_call sample.
Proof. by repeat constructor. Qed.

Definition held (r : res (alloc_s * gmap Z Z)) : list (Z * Z) :=
  match r with inl (_, L) => map_to_list L | inr _ => [] end.

Lemma sample_run : held (client_calls bump_mmap much sample (mem_init, ∅)) = [(14680064, 1500000); (8388608, 3000000)].
Proof. destruct much_S as [f ->]. by vm_compute. Qed.

Lemma allocator_correct_witness :
  ok (client_calls bump_mmap much sample (mem_init, ∅)) blocks_good /\
  held (client_calls bump_mmap much sample (mem_init, ∅)) = [(14680064, 1500000); (8388608, 3000000)].
Proof.
  split; [|exact sample_run].
  exact (allocator_correct bump_mmap bump_mmap_ok much much_enough sample sample_valid).
Defined.

Lemma nbd_malloc_fresh_witness : exists s L, client_calls bump_mmap much sample (mem_init, ∅) = inl (s, L) /\
  ok (nbd_malloc bump_mmap much 1 100 s) (fun '(b, s') => b <> 0 /\ L !! b = None /\ (64 <= 100 -> (64 | b)) /\
    blocks_good (s', <[b := 100]> L)).
Proof.
  pose proof sample_run as Hs. destruct (client_calls bump_mmap much sample (mem_init, ∅)) as [[s L]|e] eqn:E; [|discriminate Hs].
  exists s, L. split; [reflexivity|].
  apply (nbd_malloc_fresh bump_mmap bump_mmap_ok much much_enough sample s L 1 100 sample_valid E); unfold thread; lia.
Defined.

(** A request that is too large, or for no bytes at all, returns [NULL] and changes
    nothing; a request for one byte computes [clzl(0)], which is undefined. *)
Theorem nbd_malloc_bad_size mmap fuel t s :
  (forall n, in_u64 n -> n = 0 \/ 2 ^ 36 < n -> nbd_malloc mmap fuel t n s = inl (0, s)) /\
  nbd_malloc mmap fuel t 1 s = inr Undefined.
Proof. split; [intros n Hn Hc; by apply nbd_malloc_null|done]. Qed.

Lemma nbd_malloc_bad_size_witness :
  nbd_malloc bump_mmap 0 0 (2 ^ 36 + 1) mem_init = inl (0, mem_init) /\
  nbd_malloc bump_mmap 0 0 1 mem_init = inr Undefined.
Proof. split; [apply (proj1 (nbd_malloc_bad_size bump_mmap 0 0 mem_init)); lia|reflexivity]. Defined.
