(* ===== verification/Lwt.v ===== *)
(** The trace buffers of [runtime/lwt.c]: every thread records into a ring of 2^20
    records, and a dump prints the rings from the oldest record to the newest. *)
From S2P Require Import Prelude Machine MemAlloc.

Definition LWT_BUFFER_SCALE : Z := 20.

Definition LWT_BUFFER_SIZE : Z := Z.shiftl 1 LWT_BUFFER_SCALE.

Definition LWT_BUFFER_MASK : Z := LWT_BUFFER_SIZE - 1.

(** [lwt_record_t] *)
Record lwt_record_t := Record_ { timestamp : Z; format : Z; value1 : Z; value2 : Z }.

(** [lwt_buffer_t]: [head] is a [uint32_t]. *)
Record lwt_buffer_t := Buffer { head : Z; x : list lwt_record_t }.

(** [halt_], [TraceBuffer] (by thread index) and [TraceLevel] (256 [char]s) *)
Record lwt_s := Lwt { halt_ : bool; TraceBuffer : gmap Z lwt_buffer_t; TraceLevel : list Z }.

Definition lwt_init : lwt_s := Lwt false ∅ (replicate 256 0).

(** The contents of a new buffer are [junk]; [memset] clears the head. *)
Definition lwt_thread_init (junk : list lwt_record_t) (t : Z) (s : lwt_s) : lwt_s :=
  match TraceBuffer s !! t with
  | Some _ => s
  | None => Lwt (halt_ s) (<[t := Buffer 0 junk]> (TraceBuffer s)) (TraceLevel s)
  end.

(** [TraceLevel[(unsigned)c]] for a [char] [c] *)
Definition level_of (s : lwt_s) (c : Z) : res Z :=
  match TraceLevel s !! Z.to_nat (u32 c) with Some l => inl l | None => inr SegFault end.

(** The loop over the pairs of [flags] *)
Fixpoint set_levels (flags levels : list Z) : res (list Z) :=
  match flags with
  | [] => inl levels
  | [_] => inr SegFault
  | c :: l :: flags =>
      if u32 c <? 256 then set_levels flags (<[Z.to_nat (u32 c) := l]> levels) else inr SegFault
  end.

Definition lwt_set_trace_level (flags : list Z) (s : lwt_s) : res lwt_s :=
  let* _ := check (Nat.even (length flags)) in
  let* levels := set_levels flags (replicate 256 0) in
  inl (Lwt (halt_ s) (TraceBuffer s) levels).

Definition lwt_halt (s : lwt_s) : lwt_s := Lwt true (TraceBuffer s) (TraceLevel s).

(** The ring takes a record. *)
Definition push (tb : lwt_buffer_t) (r : lwt_record_t) : lwt_buffer_t :=
  Buffer (u32 (head tb + 1)) (<[Z.to_nat (Z.land (head tb) LWT_BUFFER_MASK) := r]> (x tb)).

(** [now] is the time stamp counter; once tracing is halted a thread waits for
    ever. *)
Definition lwt_trace_i (t now format v1 v2 : Z) (s : lwt_s) : res lwt_s :=
  if halt_ s then inr OutOfFuel
  else
    match TraceBuffer s !! t with
    | None => inl s
    | Some tb => inl (Lwt (halt_ s) (<[t := push tb (Record_ now format v1 v2)]> (TraceBuffer s)) (TraceLevel s))
    end.

(** [lwt_trace] of lwt.h: the two characters of the flag go into the high bytes of
    the format. *)
Definition lwt_trace (t now f0 f1 format v1 v2 : Z) (s : lwt_s) : res lwt_s :=
  let* l := level_of s f0 in
  if f1 <=? l then
    let f := Z.lor (Z.lor format (Z.shiftl (u64 f0) 56 mod 2 ^ 64)) (Z.shiftl (u64 f1) 48 mod 2 ^ 64) in
    lwt_trace_i t now f v1 v2 s
  else inl s.

(** A line of the dump: time, thread, flag, level, format and values *)
Record line := Line { l_time : Z; l_thread : Z; l_flag : Z; l_level : Z; l_format : Z; l_v1 : Z; l_v2 : Z }.

Definition dump_record (s : lwt_s) (thread_id : Z) (offset : Z) (r : lwt_record_t) : res (list line) :=
  let flag := Z.shiftr (format r) 56 in
  let level := Z.land (Z.shiftr (format r) 48) 0xff in
  let* l := level_of s flag in
  inl (if level <=? l then
         [Line (Z.shiftr (u64 (timestamp r - offset)) 5) thread_id flag level (Z.land (format r) (MASK 48)) (value1 r) (value2 r)]
       else []).

(** The records that [dump_buffer] passes to [dump_record], in order *)
Definition dump_order (tb : lwt_buffer_t) : list lwt_record_t :=
  let i := Z.to_nat (Z.land (head tb) LWT_BUFFER_MASK) in
  (if LWT_BUFFER_SIZE <? head tb then drop i (x tb) else []) ++ take i (x tb).

Fixpoint dump_records (s : lwt_s) (thread_id offset : Z) (rs : list lwt_record_t) : res (list line) :=
  match rs with
  | [] => inl []
  | r :: rs =>
      let* l := dump_record s thread_id offset r in
      let* ls := dump_records s thread_id offset rs in
      inl (l ++ ls)
  end.

Definition dump_buffer (s : lwt_s) (thread_index offset : Z) : res (list line) :=
  match TraceBuffer s !! thread_index with
  | None => inr AssertFail
  | Some tb => dump_records s (thread_index + 1) offset (dump_order tb)
  end.

(** The least time stamp of the oldest records, 2^64 - 1 if there is none *)
Definition dump_offset (s : lwt_s) (offset t : Z) : Z :=
  match TraceBuffer s !! t with
  | None => offset
  | Some tb =>
      if head tb =? 0 then offset
      else
        let offset := Z.min offset (default 0 (timestamp <$> x tb !! 0%nat)) in
        if LWT_BUFFER_SIZE <? head tb then
          Z.min offset (default 0 (timestamp <$> x tb !! Z.to_nat (Z.land (head tb) LWT_BUFFER_MASK)))
        else offset
  end.

Fixpoint dump_buffers (s : lwt_s) (offset : Z) (ts : list Z) : res (list line) :=
  match ts with
  | [] => inl []
  | t :: ts =>
      let* ls := match TraceBuffer s !! t with None => inl [] | Some _ => dump_buffer s t offset end in
      let* rest := dump_buffers s offset ts in
      inl (ls ++ rest)
  end.

(** The lines written to the file, [None] if no file is written *)
Definition lwt_dump (s : lwt_s) : res (option (list line) * lwt_s) :=
  let s := lwt_halt s in
  let offset := foldl (dump_offset s) (u64 (-1)) threads in
  if offset =? u64 (-1) then inl (None, s)
  else let* ls := dump_buffers s offset threads in inl (Some ls, s).

(** * The ring *)

Lemma land_mask h : 0 <= h -> Z.land h LWT_BUFFER_MASK = h mod LWT_BUFFER_SIZE.
Proof. intros _. change LWT_BUFFER_MASK with (Z.ones 20). by rewrite Z.land_ones. Qed.

(** The buffer holds the last records of [rs]; the record with number [k] is in slot
    [k mod 2^20]. *)
Record ring (tb : lwt_buffer_t) (rs : list lwt_record_t) : Prop := {
  ring_head : head tb = Z.of_nat (length rs);
  ring_length : Z.of_nat (length (x tb)) = LWT_BUFFER_SIZE;
  ring_slots k r : rs !! k = Some r -> Z.of_nat (length rs) <= Z.of_nat k + LWT_BUFFER_SIZE ->
    x tb !! Z.to_nat (Z.of_nat k mod LWT_BUFFER_SIZE) = Some r;
}.

Lemma size_pos : 0 < LWT_BUFFER_SIZE < 2 ^ 32.
Proof. done. Qed.

#[global] Opaque LWT_BUFFER_SIZE.

Lemma mod_close a b n : 0 < n -> a mod n = b mod n -> b <= a < b + n -> a = b.
Proof.
  intros Hn Hm Hab. pose proof (Z.div_mod a n ltac:(lia)). pose proof (Z.div_mod b n ltac:(lia)).
  assert (0 <= n * (a / n - b / n) < n) by lia. assert (a / n - b / n = 0) as E by nia.
  assert (a / n = b / n) as E' by lia. rewrite E' in *. lia.
Qed.

Lemma push_ring tb rs r : ring tb rs -> Z.of_nat (length rs) + 1 < 2 ^ 32 -> ring (push tb r) (rs ++ [r]).
Proof.
  intros [Hh Hl Hs] Hn. pose proof size_pos as Hsz. unfold push. rewrite land_mask by lia. split; cbn [head x].
  - rewrite Hh, u32_small, length_app by lia. cbn. lia.
  - by rewrite length_insert.
  - intros k r' Hk. rewrite length_app. cbn [length]. intros Hin.
    destruct (decide (k = length rs)) as [->|Hne].
    + rewrite list_lookup_middle in Hk by done. injection Hk as <-. rewrite Hh. apply list_lookup_insert_eq.
      pose proof (Z.mod_pos_bound (Z.of_nat (length rs)) LWT_BUFFER_SIZE ltac:(lia)). lia.
    + pose proof (lookup_lt_Some _ _ _ Hk) as Hlt. rewrite length_app in Hlt. cbn in Hlt.
      rewrite lookup_app_l in Hk by lia. rewrite list_lookup_insert_ne; [apply Hs; [done|lia]|].
      rewrite Hh. intros E. apply Hne.
      pose proof (Z.mod_pos_bound (Z.of_nat (length rs)) LWT_BUFFER_SIZE ltac:(lia)).
      pose proof (Z.mod_pos_bound (Z.of_nat k) LWT_BUFFER_SIZE ltac:(lia)).
      assert (Z.of_nat (length rs) mod LWT_BUFFER_SIZE = Z.of_nat k mod LWT_BUFFER_SIZE) as E' by lia.
      pose proof (mod_close (Z.of_nat (length rs)) (Z.of_nat k) LWT_BUFFER_SIZE ltac:(lia) E' ltac:(lia)). lia.
Qed.

(** A ring prints what was recorded, oldest first, up to its size; but nothing when
    exactly 2^20 records were made. *)
Lemma dump_order_ring tb rs : ring tb rs ->
  dump_order tb = if Z.of_nat (length rs) =? LWT_BUFFER_SIZE then []
                  else drop (length rs - Z.to_nat LWT_BUFFER_SIZE) rs.
Proof.
  intros [Hh Hl Hs]. pose proof size_pos as Hsz. unfold dump_order. rewrite land_mask, Hh by lia.
  set (n := length rs) in *. set (S := LWT_BUFFER_SIZE) in *.
  pose proof (Z.mod_pos_bound (Z.of_nat n) S ltac:(lia)) as Hi. set (i := Z.to_nat (Z.of_nat n mod S)).
  assert (Hti : forall j, (j < i)%nat -> (take i (x tb)) !! j = x tb !! j) by (intros; by apply lookup_take_lt).
  destruct (Z.eqb_spec (Z.of_nat n) S) as [E|E].
  - rewrite E, (proj2 (Z.ltb_ge S S)) by lia. assert (i = 0%nat) as -> by (subst i; rewrite E, Z.mod_same; lia). done.
  - apply list_eq. intros j. rewrite lookup_drop. destruct (Z.ltb_spec S (Z.of_nat n)) as [Hbig|Hsmall].
    + assert (Hq : exists q, Z.of_nat n = S * q + Z.of_nat i /\ 1 <= q).
      { exists (Z.of_nat n / S). pose proof (Z.div_mod (Z.of_nat n) S ltac:(lia)). split; [lia|].
        apply Z.div_le_lower_bound; lia. }
      destruct Hq as (q & Hq & Hq1).
      assert (Hld : length (drop i (x tb)) = (Z.to_nat S - i)%nat) by (rewrite length_drop; lia).
      set (k := (n - Z.to_nat S + j)%nat). destruct (decide (j < Z.to_nat S)%nat) as [Hj|Hj].
      * destruct (lookup_lt_is_Some_2 rs k ltac:(subst k; lia)) as [r Hr]. rewrite Hr.
        pose proof (Hs k r Hr ltac:(subst k; lia)) as Hx.
        destruct (decide (j < Z.to_nat S - i)%nat) as [Hlt|Hge].
        -- rewrite lookup_app_l, lookup_drop by lia. rewrite <- Hx. f_equal.
           rewrite <- (Z.mod_unique (Z.of_nat k) S (q - 1) (Z.of_nat (i + j))) by (subst k; nia). lia.
        -- rewrite lookup_app_r, Hld, Hti by lia. rewrite <- Hx. f_equal.
           rewrite <- (Z.mod_unique (Z.of_nat k) S q (Z.of_nat (j - (Z.to_nat S - i)))) by (subst k; nia). lia.
      * rewrite (lookup_ge_None_2 rs) by (subst k; lia). apply lookup_ge_None_2. rewrite length_app, Hld, length_take. lia.
    + assert (i = n) as Ei by (subst i; rewrite Z.mod_small by lia; lia). rewrite app_nil_l.
      replace (n - Z.to_nat S + j)%nat with j by lia. destruct (decide (j < n)%nat) as [Hj|Hj].
      * rewrite Hti by lia. destruct (lookup_lt_is_Some_2 rs j Hj) as [r Hr]. rewrite Hr, <- (Hs j r Hr) by lia.
        f_equal. rewrite Z.mod_small; lia.
      * rewrite (lookup_ge_None_2 rs) by lia. apply lookup_ge_None_2. rewrite length_take. lia.
Qed.

(** A thread records [rs]. *)
Fixpoint trace_all (t : Z) (rs : list lwt_record_t) (s : lwt_s) : res lwt_s :=
  match rs with
  | [] => inl s
  | r :: rs =>
      let* s := lwt_trace_i t (timestamp r) (format r) (value1 r) (value2 r) s in
      trace_all t rs s
  end.

Lemma trace_all_ring t rs : forall s tb old, halt_ s = false -> TraceBuffer s !! t = Some tb -> ring tb old ->
  Z.of_nat (length (old ++ rs)) < 2 ^ 32 ->
  exists s' tb', trace_all t rs s = inl s' /\ TraceBuffer s' !! t = Some tb' /\ ring tb' (old ++ rs).
Proof.
  induction rs as [|r rs IH]; intros s tb old Hh Ht Hr Hn.
  - rewrite app_nil_r. by exists s, tb.
  - cbn [trace_all]. unfold lwt_trace_i. rewrite Hh, Ht. cbn [rbind].
    destruct r as [ts f v1 v2]. cbn [timestamp format value1 value2]. rewrite length_app in Hn. cbn [length] in Hn.
    rewrite (cons_middle _ old rs), app_assoc.
    apply (IH _ (push tb (Record_ ts f v1 v2))); cbn [halt_ TraceBuffer]; [done|by rewrite lookup_insert_eq| |].
    + apply push_ring; [done|lia].
    + rewrite !length_app. cbn. lia.
Qed.

(** After [n < 2^32] trace calls of a thread, a dump goes through the last 2^20
    records of its ring, from the oldest to the newest; but if there were exactly
    2^20 calls it prints none. *)
Theorem lwt_dump_order junk t rs s : halt_ s = false -> TraceBuffer s !! t = None ->
  Z.of_nat (length junk) = LWT_BUFFER_SIZE -> Z.of_nat (length rs) < 2 ^ 32 ->
  exists s' tb, trace_all t rs (lwt_thread_init junk t s) = inl s' /\ TraceBuffer s' !! t = Some tb /\
    dump_order tb = if Z.of_nat (length rs) =? LWT_BUFFER_SIZE then []
                    else drop (length rs - Z.to_nat LWT_BUFFER_SIZE) rs.
Proof.
  intros Hh Ht Hj Hn. unfold lwt_thread_init. rewrite Ht.
  destruct (trace_all_ring t rs (Lwt (halt_ s) (<[t := Buffer 0 junk]> (TraceBuffer s)) (TraceLevel s)) (Buffer 0 junk) [])
    as (s' & tb & Hrun & Htb & Hr); [done|cbn; by rewrite lookup_insert_eq| |done|].
  - split; [done|done|]. intros k r Hk. done.
  - exists s', tb. split; [done|]. split; [done|]. by apply dump_order_ring.
Qed.

Definition ex_record (i : Z) : lwt_record_t := Record_ i 0 0 0.

Lemma lwt_dump_order_witness :
  let junk := replicate (Z.to_nat LWT_BUFFER_SIZE) (ex_record 7) in
  exists s' tb, trace_all 0 [ex_record 1; ex_record 2] (lwt_thread_init junk 0 lwt_init) = inl s' /\
    TraceBuffer s' !! 0 = Some tb /\
    dump_order tb = if 2 =? LWT_BUFFER_SIZE then [] else drop (2 - Z.to_nat LWT_BUFFER_SIZE) [ex_record 1; ex_record 2].
Proof.
  intros junk. apply (lwt_dump_order junk 0 [ex_record 1; ex_record 2] lwt_init); [reflexivity|reflexivity| |cbn; lia].
  unfold junk. rewrite length_replicate. pose proof size_pos. lia.
Defined.
