(* ===== verification/Hazard.v ===== *)
(** Hazard pointers ([runtime/hazard.c], [runtime/hazard.h]): per-thread lists of
    objects to be freed, static and registered hazard pointers, and the scan that
    frees what no hazard pointer protects. The calls of all threads are executed one
    at a time, in any order. *)
From S2P Require Import Prelude Machine MemAlloc.

Definition STATIC_HAZ_PER_THREAD : nat := 2.

Record pending_t := Pending { ptr : Z; free_ : Z }.

(** [pending] and [dynamic] are the arrays the fields point to. *)
Record haz_local_t := Local {
  pending : list pending_t;
  pending_size : Z;
  pending_count : Z;
  static_haz : list Z;
  dynamic : list Z;
  dynamic_size : Z;
  dynamic_count : Z;
}.

(** [haz_local_]; the words the registered hazard pointers refer to; and the calls
    [f(d)] that were made to free an object [d], most recent first. *)
Record haz_s := Haz {
  haz_local_ : list haz_local_t;
  cells : gmap Z Z;
  freed : list pending_t;
}.

Definition set_pending (l : haz_local_t) (a : list pending_t) (size count : Z) : haz_local_t :=
  Local a size count (static_haz l) (dynamic l) (dynamic_size l) (dynamic_count l).

Definition set_dynamic (l : haz_local_t) (a : list Z) (size count : Z) : haz_local_t :=
  Local (pending l) (pending_size l) (pending_count l) (static_haz l) a size count.

Definition set_local (s : haz_s) (t : nat) (l : haz_local_t) : haz_s :=
  Haz (<[t := l]> (haz_local_ s)) (cells s) (freed s).

Definition get_local (s : haz_s) (t : nat) : res haz_local_t :=
  match haz_local_ s !! t with Some l => inl l | None => inr SegFault end.

(** The static variable, all zeros *)
Definition haz_init : haz_s :=
  Haz (replicate MAX_NUM_THREADS (Local [] 0 0 (replicate STATIC_HAZ_PER_THREAD 0) [] 0 0)) ∅ [].

(** Twice a positive [int] *)
Definition double (n : Z) : res Z := if 2 * n <? 2 ^ 31 then inl (2 * n) else inr Undefined.

Definition in_hazards (p : Z) (hazards : list Z) : bool := existsb (Z.eqb p) hazards.

Definition search_hazards (p : Z) (hazards : list Z) (n : nat) : bool := in_hazards p (take n hazards).

Section hazard.
(** What a new array of [n] words holds. *)
Context (junk : Z -> list Z).

(** An array of [pending_t] in words that are not initialised *)
Fixpoint as_pending (ws : list Z) : list pending_t :=
  match ws with
  | p :: f :: ws => Pending p f :: as_pending ws
  | _ => []
  end.

(** [memcpy] of [l->pending_size] bytes; a [pending_t] has 16 bytes, and the size is
    a multiple of 64. *)
Definition resize_pending (l : haz_local_t) : res haz_local_t :=
  let* size := double (pending_size l) in
  let p := as_pending (junk (2 * size)) in
  let n := Z.to_nat (pending_size l / 16) in
  inl (set_pending l (take n (pending l) ++ drop n p) size (pending_count l)).

(** The words the scan reads, in its order: [None] for a registered pointer that
    refers to no word. *)
Definition slots (s : haz_s) : list (option Z) :=
  h ← haz_local_ s;
  (Some <$> static_haz h) ++
  ((fun d => if d =? 0 then Some 0 else cells s !! d) <$> take (Z.to_nat (dynamic_count h)) (dynamic h)).

(** The scan: the hazards found, or [None] if there are more than [size] *)
Fixpoint collect (size : Z) (reads : list (option Z)) (hazards : list Z) : res (option (list Z)) :=
  match reads with
  | [] => inl (Some hazards)
  | None :: _ => inr SegFault
  | Some h :: reads =>
      if h =? 0 then collect size reads hazards
      else if Z.of_nat (length hazards) =? size then inl None
      else collect size reads (hazards ++ [h])
  end.

(** The check for conflicts: the entries that are kept, and the ones that are freed
    (most recent first) *)
Fixpoint release (hazards : list Z) (entries kept gone : list pending_t) : res (list pending_t * list pending_t) :=
  match entries with
  | [] => inl (kept, gone)
  | p :: entries =>
      if search_hazards (ptr p) hazards (length hazards) then release hazards entries (kept ++ [p]) gone
      else
        let* _ := check (negb (free_ p =? 0)) in
        let* _ := check (negb (ptr p =? 0)) in
        release hazards entries kept (p :: gone)
  end.

(** One more iteration of the [while] loop and the recursive call that follows a
    resize are the same computation. *)
Fixpoint haz_defer_free (fuel : nat) (t : nat) (d f : Z) (s : haz_s) : res haz_s :=
  match fuel with
  | O => inr OutOfFuel
  | S fuel =>
      let* _ := check (negb (d =? 0)) in
      let* _ := check (negb (f =? 0)) in
      let* l := get_local s t in
      let append (l : haz_local_t) :=
        let* _ := check (pending_count l <? pending_size l) in
        inl (set_local s t (set_pending l (<[Z.to_nat (pending_count l) := Pending d f]> (pending l))
                              (pending_size l) (pending_count l + 1))) in
      if negb (pending_count l =? pending_size l) then append l
      else if pending_size l =? 0 then
        let size := Z.of_nat (MAX_NUM_THREADS * STATIC_HAZ_PER_THREAD) in
        append (set_pending l (as_pending (junk (2 * size))) size (pending_count l))
      else
        let* hazards := collect (pending_size l) (slots s) [] in
        match hazards with
        | None =>
            let* l := resize_pending l in
            haz_defer_free fuel t d f (set_local s t l)
        | Some hazards =>
            let* (kept, gone) := release hazards (take (Z.to_nat (pending_count l)) (pending l)) [] [] in
            let l := set_pending l (kept ++ drop (length kept) (pending l)) (pending_size l) (Z.of_nat (length kept)) in
            let s := set_local s t l in
            haz_defer_free fuel t d f (Haz (haz_local_ s) (cells s) (gone ++ freed s))
        end
  end.

(** The slot a static hazard pointer lives in *)
Definition haz_get_static (t i : nat) : option (nat * nat) :=
  if (STATIC_HAZ_PER_THREAD <=? i)%nat then None else Some (t, i).

(** [*haz = x] on a static slot and on a registered word *)
Definition haz_set_static (slot : nat * nat) (x : Z) (s : haz_s) : res haz_s :=
  let* l := get_local s slot.1 in
  inl (set_local s slot.1 (Local (pending l) (pending_size l) (pending_count l)
         (<[slot.2 := x]> (static_haz l)) (dynamic l) (dynamic_size l) (dynamic_count l))).

Definition haz_set (haz x : Z) (s : haz_s) : haz_s := Haz (haz_local_ s) (<[haz := x]> (cells s)) (freed s).

(** [memcpy] of [l->dynamic_size] bytes, of pointers of 8 bytes *)
Definition haz_register_dynamic (t : nat) (haz : Z) (s : haz_s) : res haz_s :=
  let* l := get_local s t in
  let l :=
    if dynamic_size l =? 0 then
      let n := Z.of_nat (MAX_NUM_THREADS * STATIC_HAZ_PER_THREAD) in
      set_dynamic l (junk n) n (dynamic_count l)
    else l in
  let* l :=
    (if dynamic_count l =? dynamic_size l then
       let* size := double (dynamic_size l) in
       let n := Z.to_nat (dynamic_size l / 8) in
       inl (set_dynamic l (take n (dynamic l) ++ drop n (junk size)) size (dynamic_count l))
     else inl l) in
  inl (set_local s t (set_dynamic l (<[Z.to_nat (dynamic_count l) := haz]> (dynamic l))
                        (dynamic_size l) (dynamic_count l + 1))).

(** The loop over the registered pointers: the index of [haz] *)
Fixpoint find_dynamic (haz : Z) (i : nat) (a : list Z) : option nat :=
  match a with
  | [] => None
  | d :: a => if d =? haz then Some i else find_dynamic haz (S i) a
  end.

Definition haz_unregister_dynamic (t : nat) (haz : Z) (s : haz_s) : res haz_s :=
  let* l := get_local s t in
  match find_dynamic haz 0 (take (Z.to_nat (dynamic_count l)) (dynamic l)) with
  | None => inr AssertFail
  | Some i =>
      let a :=
        if Z.of_nat i =? dynamic_count l - 1 then dynamic l
        else <[i := default 0 (dynamic l !! Z.to_nat (dynamic_count l - 1))]> (dynamic l) in
      inl (set_local s t (set_dynamic l a (dynamic_size l) (dynamic_count l - 1)))
  end.
End hazard.

(** * Properties *)

(** The objects waiting to be freed *)
Definition entries (l : haz_local_t) : list pending_t := take (Z.to_nat (pending_count l)) (pending l).

(** The hazard pointers that are set *)
Definition hazards_of (s : haz_s) : list Z := filter (fun h => h <> 0) (omap id (slots s)).

Record local_ok (l : haz_local_t) : Prop := {
  lo_count : 0 <= pending_count l <= pending_size l;
  lo_size : (pending_size l = 0 /\ pending l = []) \/ 64 <= pending_size l;
  lo_length : Z.of_nat (length (pending l)) = pending_size l;
  lo_entries : Forall (fun p => ptr p <> 0 /\ free_ p <> 0) (entries l);
}.

(** All registered pointers refer to words. *)
Definition haz_ok (s : haz_s) : Prop :=
  Forall local_ok (haz_local_ s) /\ Forall (fun x => is_Some x) (slots s).

Lemma collect_run size reads hz : Forall (fun x => is_Some x) reads -> Z.of_nat (length hz) <= size ->
  collect size reads hz = inl (if Z.of_nat (length (hz ++ filter (fun h => h <> 0) (omap id reads))) <=? size
                               then Some (hz ++ filter (fun h => h <> 0) (omap id reads)) else None).
Proof.
  revert hz. induction reads as [|[h|] reads IH]; intros hz Hr Hl.
  - cbn. rewrite app_nil_r. by rewrite (proj2 (Z.leb_le _ _)).
  - apply Forall_cons in Hr as [_ Hr]. cbn [collect omap list_omap id].
    destruct (Z.eqb_spec h 0) as [->|Hh].
    + rewrite (IH _ Hr Hl). by rewrite filter_cons_False by (by intros []).
    + rewrite filter_cons_True by done. destruct (Z.eqb_spec (Z.of_nat (length hz)) size) as [E|E].
      * rewrite (proj2 (Z.leb_gt _ _)); [done|]. rewrite length_app. cbn. lia.
      * rewrite IH; [|done|rewrite length_app; cbn; lia]. by rewrite <- app_assoc.
  - apply Forall_cons in Hr as [[? ?] _]. done.
Qed.

Lemma search_all p hz : search_hazards p hz (length hz) = bool_decide (p ∈ hz).
Proof.
  unfold search_hazards. rewrite take_ge by done. apply eq_true_iff_eq.
  unfold in_hazards. rewrite existsb_exists, bool_decide_eq_true. split.
  - intros (x & Hx%list_elem_of_In & ->%Z.eqb_eq). done.
  - intros Hp%list_elem_of_In. exists p. split; [done|apply Z.eqb_refl].
Qed.

Lemma release_run hz es kept gone : Forall (fun p => ptr p <> 0 /\ free_ p <> 0) es ->
  release hz es kept gone =
    inl (kept ++ filter (fun p => ptr p ∈ hz) es, reverse (filter (fun p => ~ ptr p ∈ hz) es) ++ gone).
Proof.
  revert kept gone. induction es as [|p es IH]; intros kept gone Hes.
  - cbn. by rewrite app_nil_r.
  - apply Forall_cons in Hes as [[Hp Hf] Hes]. cbn [release]. rewrite search_all. case_bool_decide as Hin.
    + rewrite IH by done. rewrite filter_cons_True by done. rewrite filter_cons_False by (by intros []).
      by rewrite <- app_assoc.
    + rewrite (proj2 (Z.eqb_neq _ _) Hf), (proj2 (Z.eqb_neq _ _) Hp). cbn [negb check rbind].
      rewrite IH by done. rewrite filter_cons_False by done. rewrite filter_cons_True by done.
      by rewrite reverse_cons, <- app_assoc.
Qed.

(** Fewer hazards than distinct objects: one of them is not protected. *)
Lemma pigeonhole (hz : list Z) (es : list pending_t) : NoDup (ptr <$> es) -> (length hz < length es)%nat ->
  (length (filter (fun p => ptr p ∈ hz) es) < length es)%nat.
Proof.
  intros Hn Hl. destruct (decide (Forall (fun p => ptr p ∈ hz) es)) as [Hall|Hex].
  - exfalso. assert (Hin : forall x, x ∈ ptr <$> es -> x ∈ hz).
    { intros x (p & -> & Hp)%list_elem_of_fmap. rewrite Forall_forall in Hall. by apply Hall. }
    pose proof (submseteq_length _ _ (NoDup_submseteq _ _ Hn Hin)) as Hle. rewrite length_fmap in Hle. lia.
  - apply not_Forall_Exists in Hex; [|apply _]. apply Exists_exists in Hex as (p & Hp & Hno).
    by apply (length_filter_lt _ _ p).
Qed.

(** An entry of [haz_local_] changes, but not its hazard pointers. *)
Lemma bind_insert_same {A B} (g : A -> list B) ls t l l' : ls !! t = Some l -> g l' = g l ->
  (<[t := l']> ls ≫= g) = ls ≫= g.
Proof.
  revert t. induction ls as [|x ls IH]; intros [|t] Ht Hg; simpl in *; try done.
  - injection Ht as ->. by rewrite Hg.
  - by rewrite IH.
Qed.

Lemma slots_same s s' t l l' : haz_local_ s !! t = Some l -> haz_local_ s' = <[t := l']> (haz_local_ s) ->
  static_haz l' = static_haz l -> dynamic l' = dynamic l -> dynamic_count l' = dynamic_count l ->
  cells s' = cells s -> slots s' = slots s.
Proof.
  intros Hl Es E1 E2 E3 E4. unfold slots. rewrite Es, E4. eapply bind_insert_same; [done|]. cbv beta. by rewrite E1, E2, E3.
Qed.

(** ** Freeing an object *)

Section defer.
Context (junk : Z -> list Z) (Hjunk : forall n, 0 <= n -> Z.of_nat (length (junk n)) = n).
Context (t : nat) (d f : Z) (Hd : d <> 0) (Hf : f <> 0).

Lemma as_pending_length n ws : length ws = (2 * n)%nat -> length (as_pending ws) = n.
Proof using Type.
  revert ws. induction n as [|n IH]; intros [|p [|q ws]] Hl; simpl in *; try lia. rewrite IH; lia.
Qed.

(** The object is appended to the pending ones of thread [t]. *)
Definition appended (s s' : haz_s) (l : haz_local_t) : Prop :=
  exists l', haz_local_ s' = <[t := l']> (haz_local_ s) /\ entries l' = entries l ++ [Pending d f] /\
    local_ok l' /\ static_haz l' = static_haz l /\ dynamic l' = dynamic l /\ dynamic_count l' = dynamic_count l /\
    cells s' = cells s /\ freed s' = freed s.

Lemma append_run s l : local_ok l -> pending_count l < pending_size l ->
  exists s', (let* _ := check (pending_count l <? pending_size l) in
     inl (set_local s t (set_pending l (<[Z.to_nat (pending_count l) := Pending d f]> (pending l))
                           (pending_size l) (pending_count l + 1)))) = inl s' /\ appended s s' l.
Proof using Hd Hf.
  intros [Hc Hs Hl He] Hlt. rewrite (proj2 (Z.ltb_lt _ _)) by done. eexists; split; [done|].
  assert (Hent : take (Z.to_nat (pending_count l + 1)) (<[Z.to_nat (pending_count l) := Pending d f]> (pending l)) =
    entries l ++ [Pending d f]).
  { replace (Z.to_nat (pending_count l + 1)) with (S (Z.to_nat (pending_count l))) by lia.
    erewrite take_S_r by (apply list_lookup_insert_eq; lia). by rewrite take_insert_ge. }
  eexists; split_and!; [done|exact Hent| |done..]. split; cbn.
  - lia.
  - right. destruct Hs as [[Hs _]|]; lia.
  - by rewrite length_insert.
  - unfold entries. cbn [pending_count pending set_pending]. rewrite Hent. apply Forall_app. split; [done|]. by apply Forall_singleton.
Qed.

(** What a call does: [gone] are the objects it frees. *)
Definition deferred_ok (s s' : haz_s) (l : haz_local_t) (gone : list pending_t) : Prop :=
  exists l', haz_local_ s' = <[t := l']> (haz_local_ s) /\ freed s' = gone ++ freed s /\
    entries l' ++ gone ≡ₚ Pending d f :: entries l /\ haz_ok s' /\ hazards_of s' = hazards_of s.

Lemma appended_deferred s s0 s' l l0 gone : haz_ok s -> haz_local_ s !! t = Some l ->
  haz_local_ s0 = <[t := l0]> (haz_local_ s) -> cells s0 = cells s -> freed s0 = gone ++ freed s ->
  static_haz l0 = static_haz l -> dynamic l0 = dynamic l -> dynamic_count l0 = dynamic_count l ->
  entries l0 ++ gone ≡ₚ entries l -> appended s0 s' l0 -> deferred_ok s s' l gone.
Proof using Type.
  intros [Hok Hsl] Hl E0 Ec Ef E1 E2 E3 Hp (l' & Es & Ee & Hl' & F1 & F2 & F3 & F4 & F5).
  rewrite E0, list_insert_insert_eq in Es. exists l'. rewrite E1 in F1. rewrite E2 in F2. rewrite E3 in F3.
  assert (slots s' = slots s) as Hs by (eapply slots_same; [exact Hl|exact Es|done..|by rewrite F4]).
  split; [done|]. split; [by rewrite F5|]. split.
  { rewrite Ee, <- Hp, <- app_assoc. rewrite (Permutation_app_comm (entries l0)). cbn. by rewrite Permutation_app_comm. }
  split; [|by unfold hazards_of; rewrite Hs]. split; [|by rewrite Hs]. rewrite Es. by apply Forall_insert.
Qed.

Lemma set_local_same s l : haz_local_ s !! t = Some l -> haz_local_ s = <[t := l]> (haz_local_ s).
Proof using Type. intros Hl. by rewrite list_insert_id. Qed.

(** A list that is not full takes the object at once. *)
Lemma defer_room s l fuel : haz_ok s -> haz_local_ s !! t = Some l -> pending_count l <> pending_size l -> (0 < fuel)%nat ->
  exists s', haz_defer_free junk fuel t d f s = inl s' /\ appended s s' l.
Proof using Hd Hf.
  intros [Hok Hsl] Hl Hne Hfuel. destruct fuel as [|fuel]; [lia|]. cbn [haz_defer_free].
  rewrite (proj2 (Z.eqb_neq _ _) Hd), (proj2 (Z.eqb_neq _ _) Hf). cbn [negb check rbind].
  unfold get_local. rewrite Hl. cbn [rbind]. rewrite (proj2 (Z.eqb_neq _ _) Hne). cbn [negb].
  pose proof (Forall_lookup_1 _ _ _ _ Hok Hl) as Hlo. destruct (lo_count l Hlo). apply append_run; [done|lia].
Qed.

(** C28: With fewer hazard pointers set than the static ones there are slots for (64), a
    call always returns. The object is added to the pending ones; if the list was
    full, exactly the pending objects that no hazard pointer protects are freed, each
    once, and the others stay pending. *)
Theorem haz_defer_free_frees s l fuel : haz_ok s -> haz_local_ s !! t = Some l -> (length (hazards_of s) < 64)%nat ->
  NoDup (ptr <$> entries l) -> (2 <= fuel)%nat ->
  exists s', haz_defer_free junk fuel t d f s = inl s' /\ deferred_ok s s' l
    (if (pending_count l =? pending_size l) && negb (pending_size l =? 0)
     then reverse (filter (fun p => ~ ptr p ∈ hazards_of s) (entries l)) else []).
Proof using Hjunk Hd Hf.
  intros Hok Hl Hh Hn Hfuel. pose proof (Forall_lookup_1 _ _ _ _ (proj1 Hok) Hl) as Hlo. pose proof Hlo as [Hc Hsz Hlen He].
  destruct (Z.eqb_spec (pending_count l) (pending_size l)) as [Hfull|Hroom].
  2: { cbn [andb]. destruct (defer_room s l fuel Hok Hl Hroom ltac:(lia)) as (s' & Hrun & Ha).
       exists s'. split; [done|]. apply (appended_deferred s s s' l l);
         [exact Hok|exact Hl|by apply set_local_same|done|done|done|done|done|by rewrite app_nil_r|exact Ha]. }
  destruct fuel as [|fuel]; [lia|]. cbn [haz_defer_free andb].
  rewrite (proj2 (Z.eqb_neq _ _) Hd), (proj2 (Z.eqb_neq _ _) Hf). cbn [negb check rbind].
  unfold get_local. rewrite Hl. cbn [rbind]. rewrite (proj2 (Z.eqb_eq _ _) Hfull). cbn [negb].
  destruct (Z.eqb_spec (pending_size l) 0) as [Hz|Hz]; cbn [negb].
  - destruct Hsz as [[_ Hnil]|]; [|lia]. set (size := Z.of_nat _). set (l0 := set_pending l _ size (pending_count l)).
    assert (Hlo0 : local_ok l0).
    { split; cbn.
      - unfold size. cbn. lia.
      - by right.
      - rewrite (as_pending_length 64); [done|]. specialize (Hjunk 128 ltac:(lia)). change (length (junk 128) = 128%nat). lia.
      - unfold entries. cbn. rewrite Hfull, Hz. apply Forall_nil_2. }
    destruct (append_run s l0 Hlo0) as (s' & Hrun & Ha); [cbn; rewrite Hfull, Hz; done|]. exists s'. split; [done|].
    destruct Ha as (l' & Es & Hrest).
    apply (appended_deferred s (set_local s t l0) s' l l0); try done.
    + unfold entries. cbn. rewrite Hfull, Hz. by rewrite Hnil.
    + exists l'. split; [|done]. cbn [set_local haz_local_]. by rewrite list_insert_insert_eq.
  - rewrite (collect_run _ _ []) by (try apply Hok; cbn; lia). cbn [app]. fold (hazards_of s).
    destruct Hsz as [[? _]|Hsz]; [done|]. rewrite (proj2 (Z.leb_le _ _)) by lia. cbn [rbind].
    fold (entries l). rewrite release_run by done. cbn [rbind app]. rewrite app_nil_r.
    set (kept := filter _ (entries l)). set (gone := reverse _).
    assert (Hlt : (length kept < length (entries l))%nat).
    { apply pigeonhole; [done|]. unfold entries. rewrite length_take. lia. }
    assert (Hel : length (entries l) = length (pending l)) by (unfold entries; rewrite length_take; lia).
    set (l0 := set_pending l _ _ _). set (s0 := Haz _ _ _).
    assert (Hlo0 : local_ok l0).
    { split; cbn.
      - lia.
      - by right.
      - rewrite length_app, length_drop. lia.
      - unfold entries. cbn. rewrite Nat2Z.id, take_app_length. apply Forall_forall.
        intros p [_ Hp]%list_elem_of_filter. rewrite Forall_forall in He. by apply He. }
    assert (Hl0 : haz_local_ s0 !! t = Some l0).
    { cbn. apply list_lookup_insert_eq. by eapply lookup_lt_Some. }
    assert (Hok0 : haz_ok s0).
    { split; [by apply Forall_insert; [apply Hok|]|].
      rewrite (slots_same s s0 t l l0); [apply Hok|done..]. }
    destruct (defer_room s0 l0 fuel Hok0 Hl0) as (s' & Hrun & Ha); [cbn; lia|lia|].
    exists s'. split; [exact Hrun|]. apply (appended_deferred s s0 s' l l0);
      [exact Hok|exact Hl|reflexivity|reflexivity|reflexivity|reflexivity|reflexivity|reflexivity| |exact Ha].
    unfold entries at 1. cbn. rewrite Nat2Z.id, take_app_length. unfold gone, kept.
    rewrite reverse_Permutation. apply filter_app_complement.
Qed.
End defer.

(** ** Registered hazard pointers *)

(** The registered pointers of a thread *)
Definition registered (l : haz_local_t) : list Z := take (Z.to_nat (dynamic_count l)) (dynamic l).

Lemma find_dynamic_first haz i a : haz ∈ a ->
  exists j, find_dynamic haz i a = Some (i + j)%nat /\ a !! j = Some haz.
Proof.
  revert i. induction a as [|x a IH]; intros i Hin; [by apply not_elem_of_nil in Hin|]. cbn [find_dynamic].
  destruct (Z.eqb_spec x haz) as [->|Hne]; [exists 0%nat; split; [f_equal; lia|done]|].
  apply elem_of_cons in Hin as [->|Hin]; [done|]. destruct (IH (S i) Hin) as (j & -> & Hj).
  exists (S j). split; [f_equal; lia|done].
Qed.

(** Moving the last element into the place of another one removes the latter. *)
Lemma swap_remove (a : list Z) j x : a !! j = Some x ->
  x :: take (length a - 1) (if Z.of_nat j =? Z.of_nat (length a) - 1 then a
                             else <[j := default 0 (a !! (length a - 1)%nat)]> a) ≡ₚ a.
Proof.
  intros Hj. pose proof (lookup_lt_Some _ _ _ Hj) as Hlt.
  destruct (exists_last (l := a)) as (b & y & ->); [by intros ->|].
  rewrite length_app. cbn. replace (length b + 1 - 1)%nat with (length b) by lia.
  destruct (Z.eqb_spec (Z.of_nat j) (Z.of_nat (length b + 1) - 1)) as [E|E].
  - assert (j = length b) as -> by lia. rewrite list_lookup_middle in Hj by done. injection Hj as ->.
    rewrite take_app_length. by rewrite Permutation_app_comm.
  - rewrite length_app in Hlt. cbn in Hlt. assert (j < length b)%nat by lia.
    rewrite list_lookup_middle by done. cbn. rewrite insert_app_l, take_app_le by (rewrite ?length_insert; lia).
    rewrite take_ge by (rewrite length_insert; lia). rewrite lookup_app_l in Hj by done.
    rewrite insert_take_drop by done. pose proof (take_drop_middle b j x Hj) as Hb.
    remember (take j b) as A. remember (drop (S j) b) as B. rewrite <- Hb. clear.
    rewrite (Permutation_app_comm (A ++ x :: B)). cbn. rewrite <- !Permutation_middle. apply perm_swap.
Qed.

(** Registering a pointer adds it to the ones the scans of all threads read, as long
    as the array need not grow; unregistering removes one registration of it. *)
Theorem haz_register_unregister junk s t l haz :
  (forall n, 0 <= n -> Z.of_nat (length (junk n)) = n) ->
  haz_local_ s !! t = Some l -> Z.of_nat (length (dynamic l)) = dynamic_size l ->
  0 <= dynamic_count l -> (dynamic_size l = 0 /\ dynamic_count l = 0 \/ dynamic_count l < dynamic_size l) ->
  exists s' l', haz_register_dynamic junk t haz s = inl s' /\ haz_local_ s' = <[t := l']> (haz_local_ s) /\
    registered l' = registered l ++ [haz] /\ entries l' = entries l /\
    exists s2 l2, haz_unregister_dynamic t haz s' = inl s2 /\ haz_local_ s2 = <[t := l2]> (haz_local_ s) /\
      registered l2 ≡ₚ registered l /\ entries l2 = entries l.
Proof.
  intros Hjunk Hl Hlen Hc Hcase. unfold haz_register_dynamic, get_local. rewrite Hl. cbn [rbind].
  set (l0 := if dynamic_size l =? 0 then _ else l).
  assert (dynamic_count l0 = dynamic_count l /\ dynamic_count l < dynamic_size l0 /\
    Z.of_nat (length (dynamic l0)) = dynamic_size l0 /\ registered l0 = registered l /\ entries l0 = entries l) as (E1 & E2 & E3 & E4 & E5).
  { unfold l0. destruct (Z.eqb_spec (dynamic_size l) 0) as [E|E].
    - destruct Hcase as [[_ Hc0]|]; [|lia]. cbn. rewrite Hjunk, Hc0 by lia. split_and!; [done..| |done].
      unfold registered. cbn. by rewrite Hc0.
    - split_and!; [done|lia|done..]. }
  rewrite E1, (proj2 (Z.eqb_neq _ _)) by lia. cbn [rbind]. rewrite E1.
  set (a := <[Z.to_nat (dynamic_count l) := haz]> (dynamic l0)).
  assert (Hreg : take (Z.to_nat (dynamic_count l + 1)) a = registered l ++ [haz]).
  { replace (Z.to_nat (dynamic_count l + 1)) with (S (Z.to_nat (dynamic_count l))) by lia. unfold a.
    erewrite take_S_r by (apply list_lookup_insert_eq; lia). rewrite take_insert_ge by done.
    rewrite <- E4. unfold registered. by rewrite E1. }
  eexists _, _. split; [done|]. split; [done|]. split; [exact Hreg|]. split; [exact E5|].
  unfold haz_unregister_dynamic, get_local. cbn [set_local haz_local_].
  rewrite list_lookup_insert_eq by (by eapply lookup_lt_Some). cbn [rbind set_dynamic dynamic dynamic_count dynamic_size].
  rewrite Hreg. destruct (find_dynamic_first haz 0 (registered l ++ [haz])) as (j & -> & Hj).
  { apply elem_of_app. right; left. }
  cbn [Nat.add]. eexists _, _. split; [done|]. cbn [haz_local_ set_local]. rewrite list_insert_insert_eq. split; [done|]. split; [|exact E5].
  unfold registered. cbn [dynamic dynamic_count set_dynamic]. pose proof (swap_remove _ _ _ Hj) as Hsw.
  assert (Hlr : length (registered l) = Z.to_nat (dynamic_count l)).
  { rewrite <- E4. unfold registered. rewrite length_take, E1. lia. }
  set (n := Z.to_nat (dynamic_count l)) in *.
  replace (Z.to_nat (dynamic_count l + 1 - 1)) with n by lia.
  rewrite length_app in Hsw. cbn [length] in Hsw. rewrite Hlr in Hsw. replace (n + 1 - 1)%nat with n in Hsw by lia.
  replace (Z.of_nat (n + 1) - 1) with (dynamic_count l + 1 - 1) in Hsw by lia.
  apply (fun H => Permutation_trans H (Permutation_app_comm (registered l) [haz])), Permutation_cons_inv in Hsw.
  change (take n (dynamic l)) with (registered l). rewrite <- Hsw. clear Hsw.
  assert (Hjn : (j < S n)%nat) by (apply lookup_lt_Some in Hj; rewrite length_app in Hj; cbn in Hj; lia).
  replace (Z.to_nat (dynamic_count l + 1)) with (S n) in Hreg by lia. rewrite <- Hreg.
  assert (Htt : forall x : list Z, take n (take (S n) x) = take n x) by (intros; rewrite take_take; f_equal; lia).
  case_match; [by rewrite Htt|].
  rewrite lookup_take_lt by lia. rewrite <- take_insert_lt by done. by rewrite Htt.
Qed.

(** * Examples *)

Definition junk0 (n : Z) : list Z := replicate (Z.to_nat n) 7.

Lemma junk0_length n : 0 <= n -> Z.of_nat (length (junk0 n)) = n.
Proof. intros Hn. unfold junk0. rewrite length_replicate. lia. Qed.

(** Thread 0 has 64 objects to free, at 1000 to 1063; [hz] are the static hazard
    pointers of the threads, [dyn] the registered ones of thread 1, at 64 and on. *)
Definition ex_pending : list pending_t := (fun i => Pending (1000 + Z.of_nat i) 1) <$> seq 0 64.

Definition ex_haz (hz : nat -> Z) (dyn : list Z) : haz_s :=
  Haz ((fun t => Local (if decide (t = 0)%nat then ex_pending else []) (if decide (t = 0)%nat then 64 else 0)
                   (if decide (t = 0)%nat then 64 else 0) [hz (2 * t)%nat; hz (2 * t + 1)%nat]
                   (if decide (t = 1)%nat then (fun i => 64 + Z.of_nat i) <$> seq 0 (length dyn) else [])
                   (if decide (t = 1)%nat then Z.of_nat (length dyn) else 0)
                   (if decide (t = 1)%nat then Z.of_nat (length dyn) else 0)) <$> seq 0 32)
    (list_to_map (zip ((fun i => 64 + Z.of_nat i) <$> seq 0 (length dyn)) dyn)) [].

(** Thread 1 protects two of the objects. *)
Definition ex_two : haz_s := ex_haz (fun i => match i with 2%nat => 1005 | 3%nat => 1010 | _ => 0 end) [].

Definition ex_local : haz_local_t := Local ex_pending 64 64 [0; 0] [] 0 0.

#[export] Instance pending_eq_dec : EqDecision pending_t.
Proof. solve_decision. Defined.

Lemma ex_local_ok : local_ok ex_local.
Proof.
  split; cbn [pending_count pending_size pending ex_local].
  - lia.
  - by right.
  - done.
  - apply (bool_decide_eq_true_1 (Forall (fun p => ptr p <> 0 /\ free_ p <> 0) (entries ex_local))). by vm_compute.
Qed.

Lemma ex_two_ok : haz_ok ex_two.
Proof.
  split.
  - apply Forall_forall. intros l (t & -> & Ht)%list_elem_of_fmap. destruct (decide (t = 0%nat)) as [->|Hne].
    + exact ex_local_ok.
    + split; cbn; [lia|by left|done|apply Forall_nil_2].
  - apply (bool_decide_eq_true_1 (Forall (fun x => is_Some x) (slots ex_two))). by vm_compute.
Qed.

Lemma haz_defer_free_frees_witness : exists s', haz_defer_free junk0 2 0 9000 1 ex_two = inl s' /\
  deferred_ok 0 9000 1 ex_two s' ex_local (reverse (filter (fun p => ~ ptr p ∈ [1005; 1010]) ex_pending)).
Proof.
  apply (haz_defer_free_frees junk0 junk0_length 0 9000 1 ltac:(done) ltac:(done) ex_two ex_local 2).
  - apply ex_two_ok.
  - reflexivity.
  - vm_compute. lia.
  - apply (bool_decide_eq_true_1 (NoDup (ptr <$> entries ex_local))). by vm_compute.
  - lia.
Defined.

Lemma haz_register_unregister_witness : exists s' l', haz_register_dynamic junk0 0 500 ex_two = inl s' /\
  haz_local_ s' = <[0%nat := l']> (haz_local_ ex_two) /\ registered l' = [500] /\ entries l' = ex_pending /\
  exists s2 l2, haz_unregister_dynamic 0 500 s' = inl s2 /\ haz_local_ s2 = <[0%nat := l2]> (haz_local_ ex_two) /\
    registered l2 ≡ₚ [] /\ entries l2 = ex_pending.
Proof.
  apply (haz_register_unregister junk0 ex_two 0 ex_local 500 junk0_length); [reflexivity|reflexivity|cbn; lia|by left].
Defined.

(** When the hazard pointers of all 32 threads protect the 64 objects a thread has
    to free, [haz_defer_free] never returns (there are then as many hazard pointers
    as the list is long). *)
Theorem haz_defer_free_spins fuel :
  haz_defer_free junk0 fuel 0 9000 1 (ex_haz (fun i => 1000 + Z.of_nat i) []) = inr OutOfFuel.
Proof.
  set (s := ex_haz _ _). induction fuel as [|fuel IH]; [done|]. cbn [haz_defer_free].
  pose (l := Local ex_pending 64 64 [1000; 1001] [] 0 0). pose (hz := ptr <$> ex_pending).
  assert (get_local s 0 = inl l) as -> by (vm_compute; reflexivity). cbn [Z.eqb negb check rbind].
  change (pending_count l =? pending_size l) with true. change (pending_size l =? 0) with false. cbn [negb].
  assert (collect (pending_size l) (slots s) [] = inl (Some hz)) as -> by (vm_compute; reflexivity). cbn [rbind].
  assert (release hz (take (Z.to_nat (pending_count l)) (pending l)) [] [] = inl (ex_pending, [])) as ->
    by (vm_compute; reflexivity).
  cbn [rbind]. set (s' := Haz _ _ _). assert (s' = s) as -> by (vm_compute; reflexivity). exact IH.
Qed.

(** With one hazard pointer more the list is resized, but [memcpy] copies as many
    bytes as the list has elements: the objects after the fourth are neither freed
    nor kept. *)
Theorem haz_resize_loses : exists s' l',
  haz_defer_free junk0 2 0 9000 1 (ex_haz (fun i => 1000 + Z.of_nat i) [2000]) = inl s' /\
  haz_local_ s' !! 0%nat = Some l' /\ freed s' = [] /\
  Forall (fun p => 1000 <= ptr p < 1064) ex_pending /\ Forall (fun p => ~ (1004 <= ptr p < 1064)) (entries l').
Proof.
  eexists _, _. split; [vm_compute; reflexivity|]. split; [reflexivity|]. split; [reflexivity|].
  split; (eapply bool_decide_eq_true_1; vm_compute; reflexivity).
Qed.
