(* ===== verification/Txn.v ===== *)
(** Transactions ([txn/txn.c]): multi-version records that hang off the values of
    a map, validation at commit, and the collection of old versions. The maps and the
    skiplist of active read versions are finite maps with the operations of
    [MapSpec] that the components are proved to refine; the calls of all
    transactions are executed one at a time, in any order. *)
From S2P Require Import Prelude Machine MapSpec.

Definition UNDETERMINED_VERSION : Z := 0.

Definition ABORTED_VERSION : Z := TAG_VALUE 0 TAG1.

Definition INITIAL_WRITES_SIZE : Z := 4.

Definition PTR_TO_VAL (x : Z) : Z := Z.shiftr x 2.

Definition VAL_TO_PTR (x : Z) : Z := u64 (Z.shiftl x 2).

Inductive txn_state_e := TXN_RUNNING | TXN_VALIDATING | TXN_VALIDATED | TXN_ABORTED.

#[export] Instance txn_state_eq_dec : EqDecision txn_state_e.
Proof. solve_decision. Defined.

(** [struct update_rec] *)
Record update_t := Update { version : Z; value : Z; next : Z }.

(** [write_rec_t]: key and record *)
Record write_rec_t := Write { wr_key : Z; wr_rec : Z }.

(** [struct txn]; [writes] is the used part of the array. *)
Record txn_t := Txn {
  rv : Z;
  wv : Z;
  map : Z;
  writes : list write_rec_t;
  writes_size : Z;
  state : txn_state_e;
}.

Definition writes_count (t : txn_t) : Z := Z.of_nat (length (writes t)).

(** The maps, update records and transactions by address; [active_] and [version_];
    [retired] are the blocks handed to [rcu_defer_free]. *)
Record db := Db {
  maps : gmap Z (gmap Z Z);
  updates : gmap Z update_t;
  txns : gmap Z txn_t;
  active_ : option (gmap Z Z);
  version_ : Z;
  retired : list Z;
}.

Definition set_maps (s : db) x := Db x (updates s) (txns s) (active_ s) (version_ s) (retired s).

Definition set_updates (s : db) x := Db (maps s) x (txns s) (active_ s) (version_ s) (retired s).

Definition set_txns (s : db) x := Db (maps s) (updates s) x (active_ s) (version_ s) (retired s).

Definition set_active (s : db) x := Db (maps s) (updates s) (txns s) x (version_ s) (retired s).

Definition set_version (s : db) x := Db (maps s) (updates s) (txns s) (active_ s) x (retired s).

Definition rcu_defer_free (s : db) (x : Z) := Db (maps s) (updates s) (txns s) (active_ s) (version_ s) (x :: retired s).

(** Reading through a pointer *)
Definition deref {A} (m : gmap Z A) (p : Z) : res A :=
  match m !! p with Some a => inl a | None => inr SegFault end.

Definition set_update (s : db) (p : Z) (u : update_t) : db := set_updates s (<[p := u]> (updates s)).

Definition set_txn (s : db) (p : Z) (t : txn_t) : db := set_txns s (<[p := t]> (txns s)).

Definition set_state (s : db) (p : Z) (st : txn_state_e) : res db :=
  let* t := deref (txns s) p in
  inl (set_txn s p (Txn (rv t) (wv t) (map t) (writes t) (writes_size t) st)).

Definition map_get (s : db) (m key : Z) : res Z :=
  let* M := deref (maps s) m in inl (lookup_spec M key).

Section txn.
(** The compare-and-swap of the map, and the allocator, given the addresses in use. *)
Context (cas : gmap Z Z -> Z -> Z -> Z -> Z * gmap Z Z).
Context (malloc : gset Z -> option Z).

Definition map_cas (s : db) (m key expectation new_val : Z) : res (Z * db) :=
  let* M := deref (maps s) m in
  let '(r, M') := cas M key expectation new_val in
  inl (r, set_maps s (<[m := M']> (maps s))).

Definition nbd_malloc (s : db) : res Z :=
  match malloc (dom (updates s) ∪ dom (txns s)) with Some p => inl p | None => inr OutOfMemory end.

(** The skiplist [active_] *)
Definition active_cas (s : db) (key expectation new_val : Z) : res (Z * db) :=
  match active_ s with
  | None => inr SegFault
  | Some A =>
      let* _ := check (0 <? s64 new_val) in
      let '(r, A') := loose_cas_spec A key expectation new_val in
      inl (r, set_active s (Some A'))
  end.

Definition active_remove (s : db) (key : Z) : res db :=
  match active_ s with
  | None => inr SegFault
  | Some A => inl (set_active s (Some (remove_spec A key).2))
  end.

(** The least key, [DOES_NOT_EXIST] if there is none *)
Definition min_key (A : gmap Z Z) : Z :=
  map_fold (fun k _ a => if (a =? 0) || (k <? a) then k else a) DOES_NOT_EXIST A.

Definition active_min_key (s : db) : res Z :=
  match active_ s with None => inr SegFault | Some A => inl (min_key A) end.

(** ** Validation

    [validate] is [txn_validate] on another transaction. *)
Fixpoint validate_updates (validate : Z -> db -> res (txn_state_e * db)) (fuel : nat) (txn val : Z) (s : db)
    : res (txn_state_e * db) :=
  match fuel with
  | O => inr OutOfFuel
  | S fuel =>
      if val =? DOES_NOT_EXIST then inl (TXN_VALIDATED, s)
      else if IS_TAGGED val TAG2 =? 0 then inl (TXN_VALIDATED, s)
      else
        let update := VAL_TO_PTR val in
        let* u := deref (updates s) update in
        let* t := deref (txns s) txn in
        let continue (s : db) :=
          let* u := deref (updates s) update in validate_updates validate fuel txn (next u) s in
        let verdict (v : Z) := if v <=? rv t then TXN_VALIDATED else TXN_ABORTED in
        if IS_TAGGED (version u) TAG1 =? 0 then inl (verdict (version u), s)
        else if version u =? ABORTED_VERSION then continue s
        else
          let writer := VAL_TO_PTR (version u) in
          if writer =? txn then continue s
          else
            let* w := deref (txns s) writer in
            if decide (state w = TXN_RUNNING) then continue s
            else if bool_decide (state w = TXN_VALIDATING) && (wv t <? wv w) then continue s
            else
              let* (writer_state, s) :=
                (if decide (state w = TXN_VALIDATING) then validate writer s else inl (state w, s)) in
              if decide (writer_state = TXN_ABORTED) then continue s
              else
                let* _ := check (bool_decide (writer_state = TXN_VALIDATED)) in
                let* w := deref (txns s) writer in
                inl (verdict (wv w), s)
  end.

Definition validate_key (validate : Z -> db -> res (txn_state_e * db)) (fuel : nat) (txn key : Z) (s : db)
    : res (txn_state_e * db) :=
  let* t := deref (txns s) txn in
  let* _ := check (negb (bool_decide (state t = TXN_RUNNING))) in
  let* val := map_get s (map t) key in
  validate_updates validate fuel txn val s.

(** The loop over the write set *)
Fixpoint validate_writes (validate : Z -> db -> res (txn_state_e * db)) (fuel : nat) (txn : Z) (ws : list write_rec_t)
    (s : db) : res db :=
  match ws with
  | [] => inl s
  | w :: ws =>
      let* (st, s) := validate_key validate fuel txn (wr_key w) s in
      if decide (st = TXN_ABORTED) then set_state s txn TXN_ABORTED
      else
        let* _ := check (bool_decide (st = TXN_VALIDATED)) in
        validate_writes validate fuel txn ws s
  end.

(** [depth] bounds the chain of transactions that help each other. *)
Fixpoint txn_validate (depth fuel : nat) (txn : Z) (s : db) : res (txn_state_e * db) :=
  match depth with
  | O => inr OutOfFuel
  | S depth =>
      let* t := deref (txns s) txn in
      match state t with
      | TXN_RUNNING => inr AssertFail
      | TXN_VALIDATING =>
          let s :=
            if wv t =? UNDETERMINED_VERSION then
              let s := set_version s (u64 (version_ s + 1)) in
              set_txn s txn (Txn (rv t) (version_ s) (map t) (writes t) (writes_size t) (state t))
            else s in
          let* s := validate_writes (txn_validate depth fuel) fuel txn (writes t) s in
          let* t := deref (txns s) txn in
          let* s := (if decide (state t = TXN_VALIDATING) then set_state s txn TXN_VALIDATED else inl s) in
          let* t := deref (txns s) txn in
          inl (state t, s)
      | st => inl (st, s)
      end
  end.

(** ** Transactions *)

Definition alloc_update_rec (ver val : Z) (s : db) : res (Z * db) :=
  let* u := nbd_malloc s in
  inl (u, set_update s u (Update ver val DOES_NOT_EXIST)).

(** [do { old_count = temp; temp = sl_cas(...); } while (temp != old_count)] with the
    count changed by [d] *)
Fixpoint count_loop (fuel : nat) (key d temp : Z) (s : db) : res db :=
  match fuel with
  | O => inr OutOfFuel
  | S fuel =>
      let old_count := temp in
      let* (r, s) := active_cas s key old_count (u32 (old_count + d)) in
      let temp := u32 r in
      if temp =? old_count then inl s else count_loop fuel key d temp s
  end.

Fixpoint read_version (fuel : nat) (txn : Z) (s : db) : res db :=
  match fuel with
  | O => inr OutOfFuel
  | S fuel' =>
      let* t := deref (txns s) txn in
      let s := set_txn s txn (Txn (version_ s) (wv t) (map t) (writes t) (writes_size t) (state t)) in
      let* t := deref (txns s) txn in
      let* s := count_loop fuel (rv t) 1 0 s in
      if rv t =? version_ s then inl s
      else
        let* s := count_loop fuel (rv t) (-1) 1 s in
        read_version fuel' txn s
  end.

Definition txn_begin (fuel : nat) (m : Z) (s : db) : res (Z * db) :=
  let* txn := nbd_malloc s in
  let s := set_txn s txn (Txn 0 UNDETERMINED_VERSION m [] INITIAL_WRITES_SIZE TXN_RUNNING) in
  let s := match active_ s with None => set_active s (Some ∅) | Some _ => s end in
  let* s := read_version fuel txn s in
  inl (txn, s).

(** [update->version = v] for the records of the write set *)
Fixpoint detach (v : Z) (ws : list write_rec_t) (s : db) : res db :=
  match ws with
  | [] => inl s
  | w :: ws =>
      let* u := deref (updates s) (wr_rec w) in
      detach v ws (set_update s (wr_rec w) (Update v (value u) (next u)))
  end.

(** [rcu_defer_free(txn->writes)] frees the array the model keeps in the record. *)
Definition txn_abort (txn : Z) (s : db) : res db :=
  let* t := deref (txns s) txn in
  if negb (bool_decide (state t = TXN_RUNNING)) then inl s
  else
    let* s := detach ABORTED_VERSION (writes t) s in
    inl (rcu_defer_free s txn).

(** The loop that lowers the reference count of the read version *)
Fixpoint release_version (fuel : nat) (key temp : Z) (s : db) : res db :=
  match fuel with
  | O => inr OutOfFuel
  | S fuel =>
      let old_count := temp in
      let* (r, s) := active_cas s key old_count (u32 (old_count - 1)) in
      let temp := u32 r in
      if (temp =? 1) && negb (key =? version_ s) then active_remove s key
      else if old_count =? temp then inl s
      else release_version fuel key temp s
  end.

Definition txn_commit (depth fuel : nat) (txn : Z) (s : db) : res (txn_state_e * db) :=
  let* t := deref (txns s) txn in
  if negb (bool_decide (state t = TXN_RUNNING)) then inl (state t, s)
  else
    let* s := set_state s txn TXN_VALIDATING in
    let* (st, s) := txn_validate depth fuel txn s in
    let* t := deref (txns s) txn in
    let v := if decide (state t = TXN_ABORTED) then ABORTED_VERSION else wv t in
    let* s := detach v (writes t) s in
    let* s := release_version fuel (rv t) 2 s in
    inl (st, rcu_defer_free s txn).

(** ** Reading and writing *)

(** How the search of [txn_map_get] ends *)
Inductive found_t := Literal (val : Z) | Found (val : Z) | Nothing.

(** [validate] is [txn_validate]. *)
Fixpoint find_visible (validate : Z -> db -> res (txn_state_e * db)) (fuel : nat) (txn val : Z) (s : db)
    : res (found_t * db) :=
  match fuel with
  | O => inr OutOfFuel
  | S fuel =>
      let update := VAL_TO_PTR val in
      if update =? 0 then inl (Nothing, s)
      else if IS_TAGGED val TAG2 =? 0 then inl (Literal val, s)
      else
        let* u := deref (updates s) update in
        let* t := deref (txns s) txn in
        let continue (s : db) :=
          let* u := deref (updates s) update in find_visible validate fuel txn (next u) s in
        if IS_TAGGED (version u) TAG1 =? 0 then
          if version u <=? rv t then inl (Found val, s) else continue s
        else if version u =? ABORTED_VERSION then continue s
        else
          let writer := VAL_TO_PTR (version u) in
          if writer =? txn then inl (Found val, s)
          else
            let* w := deref (txns s) writer in
            if decide (state w = TXN_RUNNING) then continue s
            else if bool_decide (state w = TXN_VALIDATING) && (rv t <? wv w) then continue s
            else
              let* (writer_state, s) :=
                (if decide (state w = TXN_VALIDATING) then validate writer s else inl (state w, s)) in
              if decide (writer_state = TXN_ABORTED) then continue s
              else
                let* _ := check (bool_decide (writer_state = TXN_VALIDATED)) in
                let* w := deref (txns s) writer in
                if rv t <? wv w then continue s else inl (Found val, s)
  end.

(** The loop that skips aborted records: [None] to give up *)
Fixpoint skip_aborted (fuel : nat) (min_active temp : Z) (s : db) : res (option Z) :=
  match fuel with
  | O => inr OutOfFuel
  | S fuel =>
      let* u := deref (updates s) temp in
      if negb (version u =? ABORTED_VERSION) then inl (Some temp)
      else
        let* _ := check (IS_TAGGED (version u) TAG1 =? 0) in
        if IS_TAGGED (next u) TAG2 =? 0 then inl (Some temp)
        else
          let* n := deref (updates s) (VAL_TO_PTR (next u)) in
          if min_active <=? version n then inl None
          else skip_aborted fuel min_active (VAL_TO_PTR (next u)) s
  end.

(** The loop that frees a record and the ones that follow it: whether it ran into a
    race (and the caller returns at once) *)
Fixpoint free_updates (fuel : nat) (temp : Z) (s : db) : res (bool * db) :=
  match fuel with
  | O => inr OutOfFuel
  | S fuel =>
      let* u := deref (updates s) temp in
      let n := next u in
      let s := set_update s temp (Update (version u) (value u) DOES_NOT_EXIST) in
      if n =? DOES_NOT_EXIST then inl (true, s)
      else
        let s := set_updates s (delete temp (updates s)) in
        if IS_TAGGED n TAG2 =? 0 then inl (false, s) else free_updates fuel (VAL_TO_PTR n) s
  end.

(** The part of [txn_map_get] after a record has been found *)
Definition collect_garbage (fuel : nat) (txn key newest_val val : Z) (s : db) : res db :=
  let update := VAL_TO_PTR val in
  let* u := deref (updates s) update in
  let tagged := negb (IS_TAGGED (next u) TAG2 =? 0) in
  let next_update := if tagged then VAL_TO_PTR (next u) else 0 in
  let* (stop, min_active_version, s) :=
    (if negb tagged then inl (false, UNDETERMINED_VERSION, s)
     else
       let* min := active_min_key s in
       let* n := deref (updates s) next_update in
       if version n <? min then
         let* r := skip_aborted fuel min next_update s in
         match r with
         | None => inl (true, min, s)
         | Some _ => let* (race, s) := free_updates fuel next_update s in inl (race, min, s)
         end
       else inl (false, min, s)) in
  if stop : bool then inl s
  else if (next_update =? 0) && (val =? newest_val) then
    let* min := (if min_active_version =? UNDETERMINED_VERSION then active_min_key s else inl min_active_version) in
    let* u := deref (updates s) update in
    if version u <=? min then
      let* t := deref (txns s) txn in
      let* (r, s) := map_cas s (map t) key (TAG_VALUE val TAG2) (value u) in
      inl (if r =? TAG_VALUE val TAG2 then rcu_defer_free s update else s)
    else inl s
  else inl s.

Definition txn_map_get (depth fuel : nat) (txn key : Z) (s : db) : res (Z * db) :=
  let* t := deref (txns s) txn in
  if negb (bool_decide (state t = TXN_RUNNING)) then inl (ERROR_TXN_NOT_RUNNING, s)
  else
    let* newest_val := map_get s (map t) key in
    let* (f, s) := find_visible (txn_validate depth fuel) fuel txn newest_val s in
    match f with
    | Literal val => inl (val, s)
    | Nothing => inl (DOES_NOT_EXIST, s)
    | Found val =>
        let* u := deref (updates s) (VAL_TO_PTR val) in
        let value := value u in
        let* s := collect_garbage fuel txn key newest_val val s in
        inl (value, s)
    end.

(** The loop that pushes a record onto the list of its key *)
Fixpoint push_update (fuel : nat) (m key update old_update : Z) (s : db) : res db :=
  match fuel with
  | O => inr OutOfFuel
  | S fuel =>
      let* u := deref (updates s) update in
      let s := set_update s update (Update (version u) (value u) old_update) in
      let* (temp, s) := map_cas s m key old_update (TAG_VALUE (PTR_TO_VAL update) TAG2) in
      if temp =? old_update then inl s else push_update fuel m key update temp s
  end.

(** The write set doubles when it is full. *)
Definition txn_map_set (fuel : nat) (txn key val : Z) (s : db) : res db :=
  let* _ := check ((IS_TAGGED val TAG1 =? 0) && (IS_TAGGED val TAG2 =? 0)) in
  let* t := deref (txns s) txn in
  if negb (bool_decide (state t = TXN_RUNNING)) then inl s
  else
    let ver := TAG_VALUE (PTR_TO_VAL txn) TAG1 in
    let* (update, s) := alloc_update_rec ver val s in
    let* old_update := map_get s (map t) key in
    let* s := push_update fuel (map t) key update old_update s in
    let size := if writes_count t =? writes_size t then u64 (writes_size t * 2) else writes_size t in
    inl (set_txn s txn (Txn (rv t) (wv t) (map t) (writes t ++ [Write key update]) size (state t))).
End txn.
