(* ===== verification/TxnProof.v ===== *)
(** What the transactions of [Txn] promise: a transaction reads its own writes and
    otherwise the versions committed before it began, and its commit succeeds if
    and only if no key it wrote was committed by another one in the meantime. *)
From S2P Require Import Prelude Machine MapSpec Txn.

(** * Tagged words *)

Definition update_val (p : Z) : Z := TAG_VALUE (PTR_TO_VAL p) TAG2.

Definition txn_ver (p : Z) : Z := TAG_VALUE (PTR_TO_VAL p) TAG1.

Section tags.
Context (p : Z) (Hp : node_ptr p).

Lemma tag_sum k : 46 <= k < 64 -> TAG_VALUE (PTR_TO_VAL p) (2 ^ k) = p / 4 + 2 ^ k.
Proof using Hp.
  intros Hk. destruct Hp as [Hr _]. unfold PTR_TO_VAL. rewrite Z.shiftr_div_pow2 by lia.
  apply TAG_VALUE_untagged; [lia|]. apply (testbit_high _ 46); [|lia]. change (2 ^ 2) with 4. split; [apply Z.div_pos; lia|].
  apply Z.div_lt_upper_bound; lia.
Qed.

Lemma update_val_sum : update_val p = p / 4 + 2 ^ 62.
Proof using Hp. by apply (tag_sum 62). Qed.

Lemma txn_ver_sum : txn_ver p = p / 4 + 2 ^ 63.
Proof using Hp. by apply (tag_sum 63). Qed.

Lemma shift_back k : 46 <= k < 64 -> u64 (4 * 2 ^ k) = 0 -> VAL_TO_PTR (p / 4 + 2 ^ k) = p.
Proof using Hp.
  intros Hk Hz. destruct Hp as [Hr Ha]. unfold VAL_TO_PTR. rewrite Z.shiftl_mul_pow2 by lia. change (2 ^ 2) with 4.
  assert (4 * (p / 4) = p) by (pose proof (Z.mod_pos_bound p 8 ltac:(lia)); zlia).
  replace ((p / 4 + 2 ^ k) * 4) with (p + 4 * 2 ^ k) by lia. unfold u64 in *.
  rewrite <- Z.add_mod_idemp_r, Hz by lia. rewrite Z.add_0_r. apply Z.mod_small. lia.
Qed.

Lemma update_ptr : VAL_TO_PTR (update_val p) = p.
Proof using Hp. rewrite update_val_sum. by apply shift_back. Qed.

Lemma txn_ptr : VAL_TO_PTR (txn_ver p) = p.
Proof using Hp. rewrite txn_ver_sum. by apply shift_back. Qed.

Lemma quarter_range : 0 < p / 4 < 2 ^ 46.
Proof using Hp. destruct Hp as [Hr Ha]. zlia. Qed.

Lemma update_val_tagged : (IS_TAGGED (update_val p) TAG2 =? 0) = false.
Proof using Hp.
  rewrite (IS_TAGGED_bit _ 62) by lia. unfold update_val, TAG2. rewrite (testbit_TAG_VALUE _ 62) by lia.
  by rewrite bool_decide_true, orb_true_r.
Qed.

Lemma txn_ver_tagged : (IS_TAGGED (txn_ver p) TAG1 =? 0) = false.
Proof using Hp.
  rewrite (IS_TAGGED_bit _ 63) by lia. unfold txn_ver, TAG1. rewrite (testbit_TAG_VALUE _ 63) by lia.
  by rewrite bool_decide_true, orb_true_r.
Qed.

Lemma txn_ver_not_aborted : (txn_ver p =? ABORTED_VERSION) = false.
Proof using Hp.
  apply Z.eqb_neq. rewrite txn_ver_sum. change ABORTED_VERSION with (2 ^ 63). pose proof quarter_range. lia.
Qed.
End tags.

Lemma untagged x k : 0 <= x < 2 ^ k -> 0 <= k < 64 -> (IS_TAGGED x (2 ^ k) =? 0) = true.
Proof. intros Hx Hk. by rewrite IS_TAGGED_bit, (testbit_high x k k) by lia. Qed.

Lemma untagged1 x : 0 <= x < 2 ^ 63 -> (IS_TAGGED x TAG1 =? 0) = true.
Proof. intros. by apply (untagged x 63). Qed.

Lemma untagged2 x : 0 <= x < 2 ^ 62 -> (IS_TAGGED x TAG2 =? 0) = true.
Proof. intros. by apply (untagged x 62). Qed.

Lemma update_val_inj p q : node_ptr p -> node_ptr q -> update_val p = update_val q -> p = q.
Proof. intros Hp Hq E. by rewrite <- (update_ptr p Hp), E, update_ptr. Qed.

Lemma txn_ver_inj p q : node_ptr p -> node_ptr q -> txn_ver p = txn_ver q -> p = q.
Proof. intros Hp Hq E. by rewrite <- (txn_ptr p Hp), E, txn_ptr. Qed.

Lemma deref_some {A} (m : gmap Z A) p a : m !! p = Some a -> deref m p = inl a.
Proof. intros E. unfold deref. by rewrite E. Qed.

(** * Version lists *)

(** The records that hang off a map value, newest first, and the plain value at the
    end ([DOES_NOT_EXIST] if there is none) *)
Fixpoint history (U : gmap Z update_t) (val : Z) (L : list (Z * update_t)) (base : Z) : Prop :=
  match L with
  | [] => val = base /\ 0 <= base < 2 ^ 62
  | (p, u) :: L => val = update_val p /\ node_ptr p /\ U !! p = Some u /\ history U (next u) L base
  end.

Definition committed (u : update_t) : Prop := 0 < version u < 2 ^ 62.

(** A record is committed, aborted, or of a transaction that is running, other
    transactions than [me] that is. *)
Definition rec_ok (s : db) (me : Z) (u : update_t) : Prop :=
  committed u \/ version u = ABORTED_VERSION \/
  exists w t, node_ptr w /\ version u = txn_ver w /\ txns s !! w = Some t /\ (w = me \/ state t = TXN_RUNNING).

#[export] Instance committed_dec u : Decision (committed u).
Proof. unfold committed. apply _. Defined.

(** What transaction [me], whose read version is [r], sees *)
Definition visible (r me : Z) (pu : Z * update_t) : bool :=
  bool_decide (committed pu.2) && (version pu.2 <=? r) || (version pu.2 =? txn_ver me).

Definition read_spec (r me : Z) (L : list (Z * update_t)) (base : Z) : Z :=
  match find (visible r me) L with Some (_, u) => value u | None => base end.

(** Whether the newest committed version is one that a transaction with read version
    [r] has seen *)
Definition valid_spec (r : Z) (L : list (Z * update_t)) : bool :=
  match find (fun pu => bool_decide (committed pu.2)) L with Some (_, u) => version u <=? r | None => true end.

(** The four cases of a record, as the code tests them *)
Inductive rec_case (s : db) (me : Z) (u : update_t) : Prop :=
  | case_committed : committed u -> (IS_TAGGED (version u) TAG1 =? 0) = true -> version u <> txn_ver me -> rec_case s me u
  | case_aborted : ~ committed u -> (IS_TAGGED (version u) TAG1 =? 0) = false ->
      (version u =? ABORTED_VERSION) = true -> version u <> txn_ver me -> rec_case s me u
  | case_own : ~ committed u -> (IS_TAGGED (version u) TAG1 =? 0) = false ->
      (version u =? ABORTED_VERSION) = false -> version u = txn_ver me -> VAL_TO_PTR (version u) = me -> rec_case s me u
  | case_running w t : ~ committed u -> (IS_TAGGED (version u) TAG1 =? 0) = false ->
      (version u =? ABORTED_VERSION) = false -> version u <> txn_ver me -> VAL_TO_PTR (version u) = w -> w <> me ->
      txns s !! w = Some t -> state t = TXN_RUNNING -> rec_case s me u.

Lemma rec_cases s me u : node_ptr me -> rec_ok s me u -> rec_case s me u.
Proof.
  intros Hme Hu. pose proof (txn_ver_sum me Hme) as Hv. pose proof (quarter_range me Hme) as Hq. destruct Hu as [Hc|[Ha|Hw]].
  - unfold committed in Hc. apply case_committed; [done|apply untagged1; lia|lia].
  - change ABORTED_VERSION with (2 ^ 63) in Ha. apply case_aborted.
    + unfold committed. lia.
    + by rewrite Ha.
    + by rewrite Ha.
    + lia.
  - destruct Hw as (w & t & Hw & Hver & Ht & Hst). pose proof (txn_ver_sum w Hw) as Hvw.
    pose proof (quarter_range w Hw) as Hqw.
    assert (~ committed u) by (unfold committed; lia).
    destruct (decide (w = me)) as [->|Hne].
    + apply case_own; [done|by rewrite Hver, txn_ver_tagged|by rewrite Hver, txn_ver_not_aborted|done|by rewrite Hver, txn_ptr].
    + destruct Hst as [->|Hst]; [done|].
      apply (case_running _ _ _ w t); [done|by rewrite Hver, txn_ver_tagged|by rewrite Hver, txn_ver_not_aborted|
        rewrite Hver; by intros ?%txn_ver_inj|by rewrite Hver, txn_ptr|done..].
Qed.

(** ** The searches *)

Lemma find_visible_run validate s me t : node_ptr me -> txns s !! me = Some t -> forall L fuel val base,
  history (updates s) val L base -> Forall (fun pu => rec_ok s me pu.2) L -> (length L < fuel)%nat ->
  find_visible validate fuel me val s = inl (match find (visible (rv t) me) L with
    | Some (p, _) => Found (update_val p)
    | None => if base =? 0 then Nothing else Literal base
    end, s).
Proof.
  intros Hme Ht. induction L as [|[p u] L IH]; intros fuel val base Hh Hok Hf;
    (destruct fuel as [|fuel]; [simpl in Hf; lia|]); cbn [find_visible].
  - destruct Hh as [-> Hb]. cbn [find]. destruct (Z.eqb_spec base 0) as [->|Hb0]; [done|].
    assert (VAL_TO_PTR base = base * 4) as ->.
    { unfold VAL_TO_PTR. rewrite Z.shiftl_mul_pow2 by lia. apply u64_small. lia. }
    rewrite (proj2 (Z.eqb_neq (base * 4) 0)) by lia. by rewrite (untagged2 base) by lia.
  - destruct Hh as (-> & Hp & Hu & Hh). apply Forall_cons in Hok as [Hr Hok]. cbn [snd] in Hr.
    rewrite update_ptr by done. rewrite (proj2 (Z.eqb_neq p 0)) by (destruct Hp; lia). rewrite update_val_tagged by done.
    unfold deref. rewrite Hu, Ht. cbn [rbind find]. simpl in Hf. specialize (IH fuel _ _ Hh Hok ltac:(lia)).
    unfold visible at 1. cbn [snd].
    destruct (rec_cases _ _ _ Hme Hr) as [Hc E1 Hne|Hc E1 E2 Hne|Hc E1 E2 Eq E3|w tw Hc E1 E2 Hne E3 Hw Htw Hst].
    + rewrite E1, bool_decide_true, (proj2 (Z.eqb_neq _ _) Hne), orb_false_r by done. cbn [andb].
      by destruct (version u <=? rv t).
    + rewrite E1, E2, bool_decide_false, (proj2 (Z.eqb_neq _ _) Hne) by done. exact IH.
    + rewrite E1, E2, E3, (proj2 (Z.eqb_eq _ _) Eq), orb_true_r. by rewrite Z.eqb_refl.
    + rewrite E1, E2, E3, (proj2 (Z.eqb_neq _ _) Hw), Htw, bool_decide_false, (proj2 (Z.eqb_neq _ _) Hne) by done.
      cbn [rbind]. rewrite decide_True by done. exact IH.
Qed.

Lemma validate_updates_run validate s me t : node_ptr me -> txns s !! me = Some t -> forall L fuel val base,
  history (updates s) val L base -> Forall (fun pu => rec_ok s me pu.2) L -> (length L < fuel)%nat ->
  validate_updates validate fuel me val s = inl (if valid_spec (rv t) L then TXN_VALIDATED else TXN_ABORTED, s).
Proof.
  intros Hme Ht. induction L as [|[p u] L IH]; intros fuel val base Hh Hok Hf;
    (destruct fuel as [|fuel]; [simpl in Hf; lia|]); cbn [validate_updates].
  - destruct Hh as [-> Hb]. destruct (base =? DOES_NOT_EXIST); [done|]. by rewrite (untagged2 base) by lia.
  - destruct Hh as (-> & Hp & Hu & Hh). apply Forall_cons in Hok as [Hr Hok]. cbn [snd] in Hr.
    pose proof (update_val_sum p Hp) as Hs. pose proof (quarter_range p Hp) as Hq. unfold DOES_NOT_EXIST.
    rewrite (proj2 (Z.eqb_neq (update_val p) 0)) by lia. rewrite update_val_tagged by done. rewrite update_ptr by done.
    unfold deref. rewrite Hu, Ht. cbn [rbind]. simpl in Hf. specialize (IH fuel _ _ Hh Hok ltac:(lia)).
    unfold valid_spec. cbn [find snd]. unfold valid_spec in IH.
    destruct (rec_cases _ _ _ Hme Hr) as [Hc E1 Hne|Hc E1 E2 Hne|Hc E1 E2 Eq E3|w tw Hc E1 E2 Hne E3 Hw Htw Hst].
    + by rewrite E1, bool_decide_true by done.
    + rewrite E1, E2, bool_decide_false by done. exact IH.
    + rewrite E1, E2, E3, bool_decide_false, Z.eqb_refl by done. exact IH.
    + rewrite E1, E2, E3, (proj2 (Z.eqb_neq _ _) Hw), Htw, bool_decide_false by done.
      cbn [rbind]. rewrite decide_True by done. exact IH.
Qed.

(** ** Reading *)

Lemma history_fresh U val L base p u : ~ p ∈ L.*1 -> history U val L base -> history (<[p := u]> U) val L base.
Proof.
  revert val. induction L as [|[q w] L IH]; intros val Hp; [done|]. cbn [fmap list_fmap fst] in Hp.
  apply not_elem_of_cons in Hp as [Hpq Hp]. intros (E & Hq & Hu & Hh). split_and!; [done..| |by apply IH].
  by rewrite lookup_insert_ne.
Qed.

Lemma history_delete U val L base p : ~ p ∈ L.*1 -> history U val L base -> history (delete p U) val L base.
Proof.
  revert val. induction L as [|[q w] L IH]; intros val Hp; [done|]. cbn [fmap list_fmap fst] in Hp.
  apply not_elem_of_cons in Hp as [Hpq Hp]. intros (E & Hq & Hu & Hh). split_and!; [done..| |by apply IH].
  by rewrite lookup_delete_ne.
Qed.

(** Every suffix of a history is one. *)
Lemma history_find U f L base : forall val p u, history U val L base -> find f L = Some (p, u) ->
  exists L', history U (update_val p) ((p, u) :: L') base /\ (length L' < length L)%nat /\ L'.*1 ⊆ L.*1 /\
    (NoDup L.*1 -> NoDup (p :: L'.*1)).
Proof.
  induction L as [|[q w] L IH]; intros val p u Hh Hf; [done|]. cbn [find] in Hf. destruct Hh as (E & Hq & Hu & Hh).
  destruct (f (q, w)).
  - injection Hf as -> ->. exists L. split; [done|]. split; [simpl; lia|]. split; [|done]. intros x Hx. by right.
  - destruct (IH _ _ _ Hh Hf) as (L' & Hh' & Hl & Hs & Hn). exists L'. split; [done|]. split; [simpl; lia|]. split.
    + intros x Hx. right. by apply Hs.
    + intros [_ Hnd]%NoDup_cons. by apply Hn.
Qed.

Lemma min_key_in A : min_key A = 0 \/ is_Some (A !! min_key A).
Proof.
  unfold min_key. apply (map_fold_weak_ind (fun a (A : gmap Z Z) => a = 0 \/ is_Some (A !! a))); [by left|].
  intros k x A' a Hk IH. destruct ((a =? 0) || (k <? a)) eqn:E.
  - right. rewrite lookup_insert_eq. by eexists.
  - destruct IH as [IH|IH]; [by left|]. right. rewrite lookup_insert. case_decide; [by eexists|done].
Qed.

Lemma free_updates_run L base : forall fuel s p u, history (updates s) (update_val p) ((p, u) :: L) base ->
  NoDup (p :: L.*1) -> (length L < fuel)%nat -> exists r, free_updates fuel p s = inl r.
Proof.
  induction L as [|[q w] L IH]; intros fuel s p u (_ & Hp & Hu & Hh) Hn Hf; (destruct fuel as [|fuel]; [simpl in Hf; lia|]);
    cbn [free_updates]; unfold deref; rewrite Hu; cbn [rbind].
  - destruct Hh as [-> Hb]. destruct (base =? DOES_NOT_EXIST); [by eexists|]. rewrite untagged2 by done. by eexists.
  - destruct Hh as (E & Hq & Hw & Hh). rewrite E. destruct (update_val q =? DOES_NOT_EXIST); [by eexists|].
    rewrite update_val_tagged, update_ptr by done. apply NoDup_cons in Hn as [Hpn Hn]. cbn [fmap list_fmap fst] in Hpn, Hn.
    apply (IH _ _ _ w); [|done|simpl in Hf; lia].
    apply history_delete; [done|]. apply history_fresh; done.
Qed.

(** The skiplist of active versions *)
Definition active_ok (A : gmap Z Z) : Prop := map_Forall (fun k c => 0 < k < 2 ^ 62 /\ 0 < c < 2 ^ 32) A.

Lemma collect_garbage_run cas fuel s me t key newest L base p u A M :
  txns s !! me = Some t -> maps s !! map t = Some M -> active_ s = Some A -> active_ok A ->
  history (updates s) (update_val p) ((p, u) :: L) base -> NoDup (p :: L.*1) -> (length L < fuel)%nat ->
  exists s', collect_garbage cas fuel me key newest (update_val p) s = inl s'.
Proof.
  intros Ht HM HA HAok Hh Hn Hf. pose proof Hh as (_ & Hp & Hu & Hh').
  assert (Hmerge : forall min : res Z, (exists m, min = inl m) ->
    exists s', (let* min := min in
      let* u := deref (updates s) p in
      if version u <=? min then
        let* t := deref (txns s) me in
        let* (r, s) := map_cas cas s (map t) key (TAG_VALUE (update_val p) TAG2) (value u) in
        inl (if r =? TAG_VALUE (update_val p) TAG2 then rcu_defer_free s p else s)
      else inl s) = inl s').
  { intros ? [m ->]. unfold deref, map_cas. rewrite Hu. cbn [rbind]. destruct (version u <=? m); [|by eexists].
    rewrite Ht. cbn [rbind]. unfold deref. rewrite HM. cbn [rbind]. destruct (cas M key _ _) as [r M']. by eexists. }
  unfold collect_garbage. cbv zeta. rewrite update_ptr by done. unfold deref at 1. rewrite Hu. cbn [rbind].
  destruct L as [|[q w] L].
  - destruct Hh' as [-> Hb]. rewrite untagged2 by done. cbn [negb rbind].
    destruct (update_val p =? newest); cbn [andb]; [|by eexists]. apply Hmerge.
    change (UNDETERMINED_VERSION =? UNDETERMINED_VERSION) with true. unfold active_min_key. rewrite HA. by eexists.
  - pose proof Hh' as (E & Hq & Hw & Hh2). rewrite E, update_val_tagged, update_ptr by done. cbn [negb].
    unfold active_min_key at 1. rewrite HA. cbn [rbind]. unfold deref at 1. rewrite Hw. cbn [rbind].
    assert ((q =? 0) = false) as Hq0 by (apply Z.eqb_neq; destruct Hq; lia).
    destruct (Z.ltb_spec (version w) (min_key A)) as [Hlt|Hge]; cbn [rbind]; rewrite Hq0; cbn [andb]; [|by eexists].
    assert (version w <> ABORTED_VERSION) as Hna.
    { change ABORTED_VERSION with (2 ^ 63). destruct (min_key_in A) as [Hz|[c Hc]].
      - rewrite Hz in Hlt. lia.
      - apply HAok in Hc as [Hc _]. lia. }
    destruct fuel as [|fuel]; [simpl in Hf; lia|]. cbn [skip_aborted]. unfold deref at 1. rewrite Hw. cbn [rbind].
    rewrite (proj2 (Z.eqb_neq _ _) Hna). cbn [negb rbind]. apply NoDup_cons in Hn as [Hpn Hn]. rewrite E in Hh'.
    destruct (free_updates_run L base (S fuel) s q w Hh' Hn) as ([race s'] & ->); [simpl in Hf; lia|].
    cbn [rbind]. destruct race; rewrite ?Hq0; by eexists.
Qed.

(** Transaction [me] is running on a map whose key [key] has the history [L], [base]. *)
Record reads (s : db) (me key : Z) (t : txn_t) (M : gmap Z Z) (L : list (Z * update_t)) (base : Z) : Prop := {
  rd_ptr : node_ptr me;
  rd_txn : txns s !! me = Some t;
  rd_running : state t = TXN_RUNNING;
  rd_map : maps s !! map t = Some M;
  rd_history : history (updates s) (lookup_spec M key) L base;
  rd_nodup : NoDup L.*1;
  rd_recs : Forall (fun pu => rec_ok s me pu.2) L;
  rd_active : exists A, active_ s = Some A /\ active_ok A;
}.

Lemma txn_map_get_run cas depth fuel s me key t M L base : reads s me key t M L base -> (length L < fuel)%nat ->
  exists s', txn_map_get cas depth fuel me key s = inl (read_spec (rv t) me L base, s').
Proof.
  intros [Hme Ht Hst HM Hh Hn Hok (A & HA & HAok)] Hf. unfold txn_map_get, map_get, deref at 1. rewrite Ht. cbn [rbind].
  rewrite bool_decide_true by done. cbn [negb]. unfold deref at 1. rewrite HM. cbn [rbind].
  rewrite (find_visible_run _ s me t Hme Ht L fuel _ base Hh Hok Hf). cbn [rbind].
  unfold read_spec. destruct (find (visible (rv t) me) L) as [[p u]|] eqn:E.
  - destruct (history_find _ _ _ _ _ _ _ Hh E) as (L' & Hh' & Hl & _ & Hn'). pose proof Hh' as (_ & Hp & Hu & _).
    rewrite update_ptr by done. unfold deref at 1. rewrite Hu. cbn [rbind].
    destruct (collect_garbage_run cas fuel s me t key (lookup_spec M key) L' base p u A M) as [s' ->]; try done; [by apply Hn'|lia|].
    by exists s'.
  - destruct (Z.eqb_spec base 0) as [->|]; by exists s.
Qed.

(** [txn_map_get] returns the newest value of the key that is the transaction's own or
    was committed before the transaction began, whatever old versions it collects. *)
Theorem txn_map_get_reads cas depth fuel s me key t M L base :
  reads s me key t M L base -> (length L < fuel)%nat ->
  exists s', txn_map_get cas depth fuel me key s = inl (read_spec (rv t) me L base, s').
Proof. exact (txn_map_get_run cas depth fuel s me key t M L base). Qed.

(** ** Writing *)

Lemma history_dom U val L base p : history U val L base -> p ∈ L.*1 -> is_Some (U !! p).
Proof.
  revert val. induction L as [|[q w] L IH]; intros val Hh Hp; [by apply not_elem_of_nil in Hp|].
  destruct Hh as (_ & _ & Hw & Hh). cbn [fmap list_fmap fst] in Hp. apply elem_of_cons in Hp as [->|Hp]; [by eexists|by eapply IH].
Qed.

Section operations.
Context (cas : gmap Z Z -> Z -> Z -> Z -> Z * gmap Z Z) (malloc : gset Z -> option Z).

(** What the transactions rely on: [map_cas] with the value the map holds stores the
    new value; and [nbd_malloc] returns blocks that are not in use. *)
Context (Hcas : forall M k v, map_Forall (fun _ x => 0 < x < 2 ^ 63) M ->
  cas M k (lookup_spec M k) v = (lookup_spec M k, <[k := v]> M)).
Context (Hmalloc : forall used p, malloc used = Some p -> ~ p ∈ used /\ node_ptr p).

(** [s'] is [s] after [me] has written [v] to [key]: a record at [p]. *)
Definition written (s s' : db) (me key v : Z) (t : txn_t) (M : gmap Z Z) (p : Z) : Prop :=
  updates s !! p = None /\ node_ptr p /\
  updates s' = <[p := Update (txn_ver me) v (lookup_spec M key)]> (updates s) /\
  maps s' = <[map t := <[key := update_val p]> M]> (maps s) /\
  (exists size, txns s' = <[me := Txn (rv t) (wv t) (map t) (writes t ++ [Write key p]) size (state t)]> (txns s)) /\
  active_ s' = active_ s /\ version_ s' = version_ s.

Lemma txn_map_set_run fuel s me key v t M : txns s !! me = Some t -> state t = TXN_RUNNING ->
  maps s !! map t = Some M -> map_Forall (fun _ x => 0 < x < 2 ^ 63) M -> 0 < v < 2 ^ 62 -> (0 < fuel)%nat ->
  ok (txn_map_set cas malloc fuel me key v s) (fun s' => exists p, written s s' me key v t M p).
Proof using Hcas Hmalloc.
  intros Ht Hst HM Hvals Hv Hf. unfold txn_map_set. rewrite untagged1, untagged2 by lia. cbn [andb check rbind].
  unfold deref at 1. rewrite Ht. cbn [rbind]. rewrite bool_decide_true by done. cbn [negb].
  unfold alloc_update_rec, nbd_malloc. destruct (malloc _) as [p|] eqn:Ep; [|done]. cbn [rbind].
  apply Hmalloc in Ep as [Hp Hnp]. apply not_elem_of_union in Hp as [Hp _]. apply not_elem_of_dom in Hp.
  unfold map_get, deref at 1. cbn [set_update set_updates maps]. rewrite HM. cbn [rbind].
  destruct fuel as [|fuel]; [lia|]. cbn [push_update]. unfold deref at 1. cbn [set_update set_updates updates].
  rewrite lookup_insert_eq. cbn [rbind version value]. unfold map_cas, deref at 1. cbn [set_update set_updates maps].
  rewrite HM. cbn [rbind]. rewrite Hcas by done. cbn [rbind]. rewrite Z.eqb_refl. cbn [rbind ok].
  exists p. split; [done|]. split; [done|]. split; [cbn; by rewrite insert_insert_eq|]. split; [done|]. split; [by eexists|]. done.
Qed.

(** The effect of a write on a transaction that reads the key (the writer itself, or
    another one) *)
Lemma written_reads s s' me key v t M p me2 t2 L base : written s s' me key v t M p ->
  txns s !! me = Some t -> state t = TXN_RUNNING -> node_ptr me -> map t2 = map t ->
  reads s me2 key t2 M L base ->
  exists t2', rv t2' = rv t2 /\ (me2 <> me -> t2' = t2) /\
    reads s' me2 key t2' (<[key := update_val p]> M) ((p, Update (txn_ver me) v (lookup_spec M key)) :: L) base.
Proof using Type.
  intros (Hp & Hnp & EU & EM & [size ET] & EA & EV) Ht Hst Hme Hmap [Hme2 Ht2 Hst2 HM Hh Hn Hok Hact].
  assert (HpL : ~ p ∈ L.*1). { intros Hin. destruct (history_dom _ _ _ _ _ Hh Hin) as [? E]. by rewrite Hp in E. }
  set (t2' := if decide (me2 = me) then Txn (rv t) (wv t) (map t) (writes t ++ [Write key p]) size (state t) else t2).
  assert (Hboth : me2 = me -> t2 = t) by (intros ->; rewrite Ht in Ht2; by injection Ht2).
  exists t2'. split; [|split].
  - subst t2'. case_decide as E; [|done]. by rewrite (Hboth E).
  - intros Hne. subst t2'. by rewrite decide_False.
  - assert (Hmono : forall u, rec_ok s me2 u -> rec_ok s' me2 u).
    { intros u [?|[?|(w & tw & Hw & Hver & Htw & Hor)]]; [by left|by right; left|]. right; right.
      destruct (decide (w = me)) as [->|Hne].
      - exists me. eexists. rewrite ET, lookup_insert_eq. split_and!; [done..|]. by right.
      - exists w, tw. rewrite ET, lookup_insert_ne by done. done. }
    split; try done.
    + rewrite ET, lookup_insert. subst t2'. case_decide; case_decide; congruence.
    + subst t2'. by case_decide.
    + rewrite EM. subst t2'. case_decide; cbn [map]; [|rewrite Hmap]; by rewrite lookup_insert_eq.
    + unfold lookup_spec at 1. rewrite lookup_insert_eq. cbn [default]. cbn [history]. rewrite EU, lookup_insert_eq.
      split_and!; [done..|]. cbn [next]. by apply history_fresh.
    + cbn [fmap list_fmap fst]. by apply NoDup_cons.
    + apply Forall_cons. split; [|by eapply Forall_impl; [done|]; cbn; intros; apply Hmono].
      right; right. exists me. eexists. rewrite ET, lookup_insert_eq. split_and!; [done..|]. by right.
    + by rewrite EA.
Qed.

(** C27: A transaction reads what it wrote last; the other running transactions keep
    reading what they read before. *)
Theorem txn_reads_own_writes fuel s me key v t M L base :
  reads s me key t M L base -> map_Forall (fun _ x => 0 < x < 2 ^ 63) M -> 0 < v < 2 ^ 62 -> (0 < fuel)%nat ->
  ok (txn_map_set cas malloc fuel me key v s) (fun s' => forall depth fuel', (length L + 1 < fuel')%nat ->
    (exists s2, txn_map_get cas depth fuel' me key s' = inl (v, s2)) /\
    (forall me2 t2, me2 <> me -> map t2 = map t -> reads s me2 key t2 M L base ->
       exists s2, txn_map_get cas depth fuel' me2 key s' = inl (read_spec (rv t2) me2 L base, s2))).
Proof using Hcas Hmalloc.
  intros Hr Hvals Hv Hf. pose proof Hr as [Hme Ht Hst HM Hh Hn Hok Hact].
  eapply ok_mono; [by apply (txn_map_set_run fuel s me key v t M)|]. intros s' [p Hw] depth fuel' Hf'. split.
  - destruct (written_reads _ _ _ _ _ _ _ _ me t L base Hw Ht Hst Hme eq_refl Hr) as (t' & _ & _ & Hr').
    destruct (txn_map_get_run cas depth fuel' _ _ _ _ _ _ _ Hr' ltac:(simpl; lia)) as (s2 & ->). exists s2.
    unfold read_spec. cbn [find]. unfold visible at 1. cbn [snd version]. by rewrite Z.eqb_refl, orb_true_r.
  - intros me2 t2 Hne Hmap Hr2.
    destruct (written_reads _ _ _ _ _ _ _ _ me2 t2 L base Hw Ht Hst Hme Hmap Hr2) as (t' & Erv & _ & Hr').
    destruct (txn_map_get_run cas depth fuel' _ _ _ _ _ _ _ Hr' ltac:(simpl; lia)) as (s2 & ->). exists s2.
    unfold read_spec. cbn [find]. unfold visible at 1. cbn [snd version]. rewrite Erv.
    pose proof (rd_ptr _ _ _ _ _ _ _ Hr2) as Hme2.
    rewrite bool_decide_false; [|unfold committed; cbn; rewrite txn_ver_sum by done; pose proof (quarter_range me Hme); lia].
    rewrite (proj2 (Z.eqb_neq (txn_ver me) (txn_ver me2))); [done|]. by intros ?%txn_ver_inj.
Qed.
End operations.

(** ** Commit *)

Definition recs (t : txn_t) : list Z := wr_rec <$> writes t.

Definition restamp (v : Z) (u : update_t) : update_t := Update v (value u) (next u).

Lemma detach_run v ws s : Forall (fun w => is_Some (updates s !! wr_rec w)) ws ->
  exists U', detach v ws s = inl (set_updates s U') /\
    forall q, U' !! q = if decide (q ∈ wr_rec <$> ws) then restamp v <$> updates s !! q else updates s !! q.
Proof.
  revert s. induction ws as [|w ws IH]; intros s Hs.
  - exists (updates s). split; [by destruct s|]. intros q. rewrite decide_False; [done|apply not_elem_of_nil].
  - apply Forall_cons in Hs as [[u Hu] Hs]. cbn [detach]. unfold deref. rewrite Hu. cbn [rbind].
    destruct (IH (set_update s (wr_rec w) (restamp v u))) as (U' & HU & Hlk).
    { eapply Forall_impl; [done|]. intros w' [u' Hu']. cbn. rewrite lookup_insert. case_decide; by eexists. }
    exists U'. split; [exact HU|]. intros q. rewrite Hlk. cbn. rewrite lookup_insert.
    destruct (decide (wr_rec w = q)) as [<-|Hne].
    + rewrite Hu. cbn. rewrite (decide_True (P := wr_rec w ∈ wr_rec w :: _)) by (by left). by case_decide.
    + case_decide as Hin; [rewrite decide_True by (by right)|rewrite decide_False]; [done|done|].
      intros [->|?]%elem_of_cons; done.
Qed.

(** What the loop that lowers a reference count does to the versions. It starts from the count 2, and
    the skiplist does not compare the expectation with the count it finds: only the count 2 is lowered;
    a version with any other count is removed, and one that is not there is added with the
    count -1. *)
Definition release_spec (A : gmap Z Z) (key : Z) : gmap Z Z :=
  match A !! key with
  | Some c => if c =? 2 then <[key := 1]> A else delete key A
  | None => <[key := 2 ^ 32 - 1]> A
  end.

Lemma release_ok A key : active_ok A -> 0 < key < 2 ^ 62 -> active_ok (release_spec A key).
Proof.
  intros Hok Hk. unfold release_spec. destruct (A !! key) as [c|]; [destruct (c =? 2)|].
  - by apply map_Forall_insert_2.
  - by apply map_Forall_delete.
  - by apply map_Forall_insert_2.
Qed.

Lemma release_other A key k : k <> key -> release_spec A key !! k = A !! k.
Proof.
  intros Hk. unfold release_spec. destruct (A !! key) as [c|]; [destruct (c =? 2)|];
    by rewrite ?lookup_insert_ne, ?lookup_delete_ne.
Qed.

(** The loop ends after at most two rounds. *)
Lemma release_version_run fuel key s A : active_ s = Some A -> active_ok A -> (2 <= fuel)%nat -> key <> version_ s ->
  release_version fuel key 2 s = inl (set_active s (Some (release_spec A key))).
Proof.
  intros HA Hok Hf Hk. unfold release_spec.
  destruct fuel as [|[|fuel]]; [lia..|]. cbn [release_version]. unfold active_cas at 1. rewrite HA.
  change (u32 (2 - 1)) with 1. cbn [s64 check rbind]. change (0 <? s64 1) with true. cbn [check rbind].
  assert ((key =? version_ s) = false) as Hkey by (by apply Z.eqb_neq).
  unfold loose_cas_spec at 1. destruct (A !! key) as [c|] eqn:Ec.
  - change (2 =? CAS_EXPECT_DOES_NOT_EXIST) with false. cbn [rbind]. pose proof (Hok _ _ Ec) as [_ Hc]. cbn in Hc.
    rewrite u32_small by lia. cbn [version_ set_active]. rewrite Hkey. cbn [negb]. rewrite andb_true_r.
    destruct (Z.eqb_spec c 1) as [->|Hc1].
    { unfold active_remove. cbn. by rewrite delete_insert_eq. }
    rewrite (Z.eqb_sym 2 c). destruct (Z.eqb_spec c 2) as [->|Hc2]; [done|].
    unfold active_cas. cbn [active_ set_active]. rewrite (u32_small (c - 1)) by lia.
    rewrite (proj2 (Z.ltb_lt 0 _)) by (rewrite s64_small; lia). cbn [check rbind].
    unfold loose_cas_spec. rewrite lookup_insert_eq. rewrite (proj2 (Z.eqb_neq c CAS_EXPECT_DOES_NOT_EXIST))
      by (unfold CAS_EXPECT_DOES_NOT_EXIST; lia).
    cbn [rbind]. change (u32 1) with 1. cbn [Z.eqb Pos.eqb version_ set_active]. rewrite Hkey. cbn [negb andb].
    unfold active_remove. cbn. by rewrite !delete_insert_eq.
  - change ((2 =? CAS_EXPECT_DOES_NOT_EXIST) || (2 =? CAS_EXPECT_WHATEVER)) with false. cbn [rbind].
    change (u32 DOES_NOT_EXIST) with 0. cbn [Z.eqb andb].
    unfold active_cas. cbn [active_ set_active]. change (0 <? s64 (u32 (0 - 1))) with true. cbn [check rbind].
    unfold loose_cas_spec. rewrite Ec. cbn [Z.eqb orb rbind]. change (u32 DOES_NOT_EXIST) with 0.
    change (0 =? CAS_EXPECT_DOES_NOT_EXIST) with true. cbn [Z.eqb andb orb rbind]. done.
Qed.

(** Transaction [me] can commit: [H] are the histories of the keys it has written. *)
Record commits (s : db) (me : Z) (t : txn_t) (M : gmap Z Z) (H : Z -> list (Z * update_t)) : Prop := {
  cm_ptr : node_ptr me;
  cm_txn : txns s !! me = Some t;
  cm_running : state t = TXN_RUNNING;
  cm_undetermined : wv t = UNDETERMINED_VERSION;
  cm_map : maps s !! map t = Some M;
  cm_versions : 0 < rv t <= version_ s /\ version_ s < 2 ^ 62 - 1;
  cm_writes : Forall (fun w => is_Some (updates s !! wr_rec w) /\
    (exists base, history (updates s) (lookup_spec M (wr_key w)) (H (wr_key w)) base) /\
    Forall (fun pu => rec_ok s me pu.2) (H (wr_key w))) (writes t);
  cm_active : exists A, active_ s = Some A /\ active_ok A /\ A !! (version_ s + 1) = None;
}.

(** Every key that was written has been seen in its newest committed version. *)
Definition no_conflict (t : txn_t) (H : Z -> list (Z * update_t)) : bool :=
  forallb (fun w => valid_spec (rv t) (H (wr_key w))) (writes t).

Definition commit_state (t : txn_t) (H : Z -> list (Z * update_t)) : txn_state_e :=
  if no_conflict t H then TXN_VALIDATED else TXN_ABORTED.

(** The version the records of the transaction get *)
Definition commit_version (s : db) (t : txn_t) (H : Z -> list (Z * update_t)) : Z :=
  if no_conflict t H then version_ s + 1 else ABORTED_VERSION.

(** [rec_ok] only depends on the transactions that are running, and on [me]. *)
Lemma rec_ok_me s s' me u t' : (forall w, w <> me -> txns s' !! w = txns s !! w) -> txns s' !! me = Some t' ->
  rec_ok s me u -> rec_ok s' me u.
Proof.
  intros Hw Hme [?|[?|(w & tw & Hp & Hv & Htw & Hor)]]; [by left|by right; left|]. right; right.
  destruct (decide (w = me)) as [->|Hne]; [exists me, t'|exists w, tw; rewrite Hw by done]; split_and!; try done. by left.
Qed.

Lemma validate_writes_run validate fuel s me t M H ws : node_ptr me -> txns s !! me = Some t -> state t = TXN_VALIDATING ->
  maps s !! map t = Some M ->
  Forall (fun w => (exists base, history (updates s) (lookup_spec M (wr_key w)) (H (wr_key w)) base) /\
    Forall (fun pu => rec_ok s me pu.2) (H (wr_key w)) /\ (length (H (wr_key w)) < fuel)%nat) ws ->
  validate_writes validate fuel me ws s =
    inl (if forallb (fun w => valid_spec (rv t) (H (wr_key w))) ws then s
         else set_txn s me (Txn (rv t) (wv t) (map t) (writes t) (writes_size t) TXN_ABORTED)).
Proof.
  intros Hme Ht Hst HM. induction ws as [|w ws IH]; intros Hws; [done|].
  apply Forall_cons in Hws as [([base Hh] & Hok & Hf) Hws]. cbn [validate_writes forallb].
  unfold validate_key, map_get, deref at 1. rewrite Ht. cbn [rbind]. rewrite Hst, bool_decide_false by done. cbn [negb check rbind].
  unfold deref at 1. rewrite HM. cbn [rbind].
  rewrite (validate_updates_run validate s me t Hme Ht _ fuel _ base Hh Hok Hf). cbn [rbind].
  destruct (valid_spec (rv t) (H (wr_key w))); cbn [andb].
  - rewrite decide_False, bool_decide_true by done. cbn [check rbind]. by apply IH.
  - rewrite decide_True by done. unfold set_state, deref. by rewrite Ht.
Qed.

(** What a commit leaves behind *)
Record committed_as (s s' : db) (me : Z) (t : txn_t) (H : Z -> list (Z * update_t)) : Prop := {
  ca_version : version_ s' = version_ s + 1;
  ca_maps : maps s' = maps s;
  ca_updates q : updates s' !! q =
    if decide (q ∈ recs t) then restamp (commit_version s t H) <$> updates s !! q else updates s !! q;
  ca_txns : txns s' = <[me := Txn (rv t) (version_ s + 1) (map t) (writes t) (writes_size t) (commit_state t H)]> (txns s);
  ca_retired : retired s' = me :: retired s;
  ca_active : active_ s' = (fun A => release_spec A (rv t)) <$> active_ s;
}.

Lemma txn_commit_run depth fuel s me t M H : commits s me t M H ->
  (forall w, w ∈ writes t -> (length (H (wr_key w)) < fuel)%nat) -> (3 <= fuel)%nat ->
  exists s', txn_commit (S depth) fuel me s = inl (commit_state t H, s') /\ committed_as s s' me t H.
Proof.
  intros [Hme Ht Hst Hwv HM [Hrv Hver] Hws (A & HA & HAok & HAnew)] Hlen Hf.
  unfold txn_commit, set_state, deref at 1. rewrite Ht. cbn [rbind]. rewrite bool_decide_true by done. cbn [negb].
  unfold deref at 1. rewrite Ht. cbn [rbind]. cbn [txn_validate]. unfold deref at 1. cbn [set_txn set_txns txns].
  rewrite lookup_insert_eq. cbn [rbind state wv]. rewrite Hwv, Z.eqb_refl. cbn [rv map writes writes_size state].
  set (s1 := set_txn (set_version _ _) _ _).
  assert (Ev : u64 (version_ s + 1) = version_ s + 1) by (apply u64_small; lia).
  assert (Es1 : s1 = set_txns (set_version s (version_ s + 1))
    (<[me := Txn (rv t) (version_ s + 1) (map t) (writes t) (writes_size t) TXN_VALIDATING]> (txns s))).
  { unfold s1, set_txn, set_txns, set_version. cbn. by rewrite insert_insert_eq, Ev. }
  rewrite Es1. clear s1 Es1. set (s1 := set_txns (set_version _ _) _).
  set (t1 := Txn (rv t) (version_ s + 1) (map t) (writes t) (writes_size t) TXN_VALIDATING) in *.
  assert (Ht1 : txns s1 !! me = Some t1) by (cbn; by rewrite lookup_insert_eq).
  rewrite (validate_writes_run _ fuel s1 me t1 M H); [|done..|].
  2: { apply Forall_forall. intros w Hw. rewrite Forall_forall in Hws. destruct (Hws w Hw) as (_ & Hh & Hok).
       split; [done|]. split; [|by apply Hlen]. eapply Forall_impl; [done|]. intros pu. apply (rec_ok_me _ _ _ _ t1); [|done].
       intros w' Hne. cbn. by rewrite lookup_insert_ne. }
  change (forallb _ (writes t)) with (no_conflict t H). cbn [rbind].
  set (t2 := Txn (rv t) (version_ s + 1) (map t) (writes t) (writes_size t) (commit_state t H)).
  (* both ways lead to the same state *)
  assert (Hend : forall st2, st2 = set_txns (set_version s (version_ s + 1)) (<[me := t2]> (txns s)) ->
    exists s', (let* t := deref (txns st2) me in
      let v := if decide (state t = TXN_ABORTED) then ABORTED_VERSION else wv t in
      let* s := detach v (writes t) st2 in
      let* s := release_version fuel (rv t) 2 s in
      inl (commit_state t2 H, rcu_defer_free s me)) = inl (commit_state t H, s') /\ committed_as s s' me t H).
  { intros ? ->. unfold deref. cbn [txns set_txns]. rewrite lookup_insert_eq. cbn [rbind state wv writes rv t2].
    assert ((if decide (commit_state t H = TXN_ABORTED) then ABORTED_VERSION else version_ s + 1) = commit_version s t H) as ->.
    { unfold commit_state, commit_version. by destruct (no_conflict t H); case_decide. }
    destruct (detach_run (commit_version s t H) (writes t) (set_txns (set_version s (version_ s + 1)) (<[me := t2]> (txns s))))
      as (U' & -> & HU).
    { eapply Forall_impl; [done|]. by intros w [? _]. }
    cbn [rbind]. rewrite (release_version_run fuel (rv t) _ A); [|done|done|lia|cbn; lia]. cbn [rbind].
    eexists. split; [done|]. split; try done. cbn. by rewrite HA. }
  assert (Hsame : commit_state t2 H = commit_state t H) by done.
  destruct (no_conflict t H) eqn:Enc; cbn [rbind].
  - rewrite (deref_some _ _ _ Ht1). cbn [rbind state t1]. rewrite decide_True by done.
    unfold set_state. rewrite (deref_some _ _ _ Ht1). cbn [rbind].
    rewrite (deref_some _ _ t2) by (cbn; rewrite lookup_insert_eq; unfold t2, commit_state; by rewrite Enc). cbn [rbind].
    apply Hend. unfold s1, t2, commit_state. rewrite Enc. cbn. unfold set_txn, set_txns. cbn. by rewrite insert_insert_eq.
  - rewrite (deref_some _ _ t2) by (cbn; rewrite lookup_insert_eq; unfold t2, commit_state; by rewrite Enc). cbn [rbind].
    rewrite decide_False by (unfold t2, commit_state; by rewrite Enc). cbn [rbind].
    rewrite (deref_some _ _ t2) by (cbn; rewrite lookup_insert_eq; unfold t2, commit_state; by rewrite Enc). cbn [rbind].
    apply Hend. unfold s1, t2, commit_state. rewrite Enc. cbn. unfold set_txn, set_txns. cbn. by rewrite insert_insert_eq.
Qed.

Lemma committed_active s s' me t M H : commits s me t M H -> committed_as s s' me t H ->
  exists A, active_ s' = Some A /\ active_ok A /\ A !! version_ s' = None.
Proof.
  intros Hc Hca. destruct (cm_active _ _ _ _ _ Hc) as (A & HA & Hok & Hnew). pose proof (cm_versions _ _ _ _ _ Hc) as Hv.
  exists (release_spec A (rv t)). rewrite (ca_active _ _ _ _ _ Hca), HA. split; [done|].
  split; [apply release_ok; [done|lia]|]. rewrite (ca_version _ _ _ _ _ Hca), release_other; [done|lia].
Qed.

(** ** The versions after a commit *)

(** The records of [ps] get version [v]. *)
Definition stamped (v : Z) (ps : list Z) (L : list (Z * update_t)) : list (Z * update_t) :=
  (fun pu => (pu.1, if decide (pu.1 ∈ ps) then restamp v pu.2 else pu.2)) <$> L.

Lemma stamped_fst v ps L : (stamped v ps L).*1 = L.*1.
Proof. unfold stamped. rewrite <- list_fmap_compose. by apply list_fmap_ext. Qed.

Lemma history_stamped U U' v ps L base : (forall q, U' !! q = if decide (q ∈ ps) then restamp v <$> U !! q else U !! q) ->
  forall val, history U val L base -> history U' val (stamped v ps L) base.
Proof.
  intros HU. induction L as [|[p u] L IH]; intros val; [done|]. intros (E & Hp & Hu & Hh). cbn [stamped fmap list_fmap fst snd].
  split; [done|]. split; [done|]. split.
  - rewrite HU, Hu. by case_decide.
  - apply IH. by case_decide.
Qed.

(** The records of [ps] are the ones of transaction [me]. *)
Definition own_records (me : Z) (ps : list Z) (L : list (Z * update_t)) : Prop :=
  Forall (fun pu => pu.1 ∈ ps <-> version pu.2 = txn_ver me) L.

(** What a transaction with an older read version sees is not affected, *)
Lemma read_old s v r me me2 ps L base : node_ptr me -> node_ptr me2 -> me2 <> me -> own_records me ps L ->
  Forall (fun pu => rec_ok s me pu.2) L -> v = ABORTED_VERSION \/ r < v < 2 ^ 62 ->
  read_spec r me2 (stamped v ps L) base = read_spec r me2 L base.
Proof.
  intros Hme Hme2 Hne Hown Hok Hv. unfold read_spec.
  pose proof (txn_ver_sum _ Hme) as Ev. pose proof (quarter_range _ Hme) as Eq.
  pose proof (txn_ver_sum _ Hme2) as Ev2. pose proof (quarter_range _ Hme2) as Eq2.
  change ABORTED_VERSION with (2 ^ 63) in Hv.
  induction L as [|[p u] L IH]; [done|]. apply Forall_cons in Hown as [Hp Hown]. apply Forall_cons in Hok as [Hu Hok].
  cbn [stamped fmap list_fmap find fst snd] in *. fold (stamped v ps L). specialize (IH Hown Hok).
  case_decide as Hin; [|by destruct (visible r me2 (p, u))]. apply Hp in Hin.
  assert (visible r me2 (p, u) = false) as ->.
  { unfold visible. cbn [snd]. rewrite Hin, bool_decide_false by (unfold committed; lia).
    rewrite (proj2 (Z.eqb_neq _ _)); [done|]. by intros ?%txn_ver_inj. }
  assert (visible r me2 (p, restamp v u) = false) as ->; [|done].
  unfold visible. cbn [snd version restamp]. rewrite (proj2 (Z.eqb_neq v _)) by lia. rewrite orb_false_r.
  destruct Hv as [->|Hv]; [by rewrite bool_decide_false by (unfold committed; cbn; lia)|].
  rewrite (proj2 (Z.leb_gt v r)) by lia. by rewrite andb_false_r.
Qed.

(** A transaction that begins after a successful commit reads what the committed
    one read itself. *)
Lemma read_new s v r me me3 ps L base : node_ptr me -> node_ptr me3 -> own_records me ps L ->
  Forall (fun pu => rec_ok s me pu.2) L -> Forall (fun pu => version pu.2 <> txn_ver me3) L ->
  r <= v -> 0 < v < 2 ^ 62 -> valid_spec r L = true ->
  read_spec v me3 (stamped v ps L) base = read_spec r me L base.
Proof.
  intros Hme Hme3 Hown Hok Hno Hrv Hv Hval. unfold read_spec.
  pose proof (txn_ver_sum _ Hme) as Ev. pose proof (quarter_range _ Hme) as Eq.
  pose proof (txn_ver_sum _ Hme3) as Ev3. pose proof (quarter_range _ Hme3) as Eq3.
  induction L as [|[p u] L IH]; [done|]. apply Forall_cons in Hown as [Hp Hown]. apply Forall_cons in Hok as [Hu Hok].
  apply Forall_cons in Hno as [Hno' Hno].
  unfold valid_spec in Hval. cbn [find snd] in Hval. cbn [stamped fmap list_fmap find fst snd] in *. fold (stamped v ps L).
  unfold visible at 1 3. cbn [snd]. case_decide as Hin.
  - apply Hp in Hin. rewrite Hin, Z.eqb_refl, orb_true_r. cbn [version restamp value].
    by rewrite bool_decide_true, (proj2 (Z.leb_le v v)) by (unfold committed; cbn; lia).
  - assert (version u <> txn_ver me) as Hnm by tauto. rewrite (proj2 (Z.eqb_neq _ _) Hnm), orb_false_r.
    rewrite (proj2 (Z.eqb_neq _ _) Hno'), orb_false_r. destruct (decide (committed u)) as [Hc|Hc].
    + rewrite bool_decide_true in Hval |- * by done. rewrite Hval. apply Z.leb_le in Hval.
      by rewrite (proj2 (Z.leb_le (version u) v)) by lia.
    + rewrite bool_decide_false in Hval |- * by done. by apply IH.
Qed.

Lemma commit_version_range s t H : 0 < version_ s < 2 ^ 62 - 1 ->
  commit_version s t H = ABORTED_VERSION \/ version_ s < commit_version s t H < 2 ^ 62.
Proof. intros Hv. unfold commit_version. destruct (no_conflict t H); [right; lia|by left]. Qed.

(** A transaction that was running before the commit can go on reading. *)
Lemma committed_reads s s' me t M H me2 key t2 M2 L base : commits s me t M H -> committed_as s s' me t H ->
  me2 <> me -> own_records me (recs t) L -> reads s me2 key t2 M2 L base ->
  reads s' me2 key t2 M2 (stamped (commit_version s t H) (recs t) L) base.
Proof.
  intros Hc Hca Hne Hown [Hme2 Ht2 Hst2 HM2 Hh Hn Hok _].
  destruct (committed_active _ _ _ _ _ _ Hc Hca) as (A & HA & HAok & _). destruct Hca as [Ev Em Eu Et Er _].
  pose proof (cm_versions _ _ _ _ _ Hc) as Hver. pose proof (commit_version_range s t H ltac:(lia)) as Hcv.
  split; try done.
  - by rewrite Et, lookup_insert_ne.
  - by rewrite Em.
  - by eapply history_stamped.
  - by rewrite stamped_fst.
  - apply Forall_fmap, Forall_forall. intros [p u] Hin. cbn [compose snd fst].
    unfold own_records in Hown. rewrite Forall_forall in Hown, Hok. specialize (Hown _ Hin). specialize (Hok _ Hin). cbn [fst snd] in *.
    case_decide as Hp.
    + destruct Hcv as [Hcv|Hcv]; [by right; left|left]. unfold committed. cbn. lia.
    + destruct Hok as [?|[?|(w & tw & Hw & Hver' & Htw & Hor)]]; [by left|by right; left|]. right; right.
      exists w, tw. rewrite Et, lookup_insert_ne; [done|]. intros <-. tauto.
  - by exists A.
Qed.

(** C24: A commit succeeds if and only if every key the transaction has written is, in
    its newest committed version, one the transaction could see ("first committer
    wins"); its records then get the next version number, otherwise they are marked
    as aborted. The version counter advances by one, the transaction is retired and its read version is
    released as [release_spec] says: with the count 2 it is left with 1; with any other count it is
    no longer registered, also when others still use it. The maps, the other records, the other transactions
    and the other registered versions stay as they are. *)
Theorem txn_commit_first_wins depth fuel s me t M H : commits s me t M H ->
  (forall w, w ∈ writes t -> (length (H (wr_key w)) < fuel)%nat) -> (3 <= fuel)%nat ->
  exists s', txn_commit (S depth) fuel me s = inl (commit_state t H, s') /\ committed_as s s' me t H.
Proof. exact (txn_commit_run depth fuel s me t M H). Qed.

(** C25: A transaction that is running while another one commits (or fails to) keeps
    reading the versions it read before: its snapshot does not change. *)
Theorem txn_snapshot cas depth fuel s me t M H me2 key t2 M2 L base :
  commits s me t M H -> (forall w, w ∈ writes t -> (length (H (wr_key w)) < fuel)%nat) -> (3 <= fuel)%nat ->
  reads s me2 key t2 M2 L base -> me2 <> me -> rv t2 <= version_ s -> own_records me (recs t) L ->
  Forall (fun pu => rec_ok s me pu.2) L ->
  exists s', txn_commit (S depth) fuel me s = inl (commit_state t H, s') /\
    forall depth' fuel', (length L < fuel')%nat ->
      exists s2, txn_map_get cas depth' fuel' me2 key s' = inl (read_spec (rv t2) me2 L base, s2).
Proof.
  intros Hc Hlen Hf Hr Hne Hrv Hown Hok. destruct (txn_commit_run depth fuel s me t M H Hc Hlen Hf) as (s' & Hrun & Hca).
  exists s'. split; [done|]. intros depth' fuel' Hf'.
  pose proof (committed_reads _ _ _ _ _ _ _ _ _ _ _ _ Hc Hca Hne Hown Hr) as Hr'.
  destruct (txn_map_get_run cas depth' fuel' _ _ _ _ _ _ _ Hr') as (s2 & ->).
  { unfold stamped. by rewrite length_fmap. }
  exists s2. do 2 f_equal. pose proof (cm_versions _ _ _ _ _ Hc) as Hver.
  apply (read_old s _ _ me); [apply Hc|apply Hr|done..|].
  destruct (commit_version_range s t H ltac:(lia)); [by left|right; lia].
Qed.

(** ** Begin *)

Lemma count_loop_run fuel key s A : active_ s = Some A -> active_ok A -> A !! key = None -> (1 <= fuel)%nat -> 0 < key < 2 ^ 62 ->
  exists A', count_loop fuel key 1 0 s = inl (set_active s (Some A')) /\ active_ok A'.
Proof.
  intros HA Hok Hk Hf Hkr. destruct fuel as [|fuel]; [lia|]. cbn [count_loop]. unfold active_cas. rewrite HA.
  change (u32 (0 + 1)) with 1. change (0 <? s64 1) with true. cbn [check rbind]. unfold loose_cas_spec. rewrite Hk.
  cbn [Z.eqb orb rbind]. change (u32 DOES_NOT_EXIST) with 0. cbn [Z.eqb].
  change (0 =? CAS_EXPECT_DOES_NOT_EXIST) with true. cbn [orb].
  eexists. split; [done|]. by apply map_Forall_insert_2.
Qed.

Lemma txn_begin_run malloc fuel m s A : (forall used p, malloc used = Some p -> ~ p ∈ used /\ node_ptr p) ->
  active_ s = Some A -> active_ok A -> A !! version_ s = None -> 0 < version_ s < 2 ^ 62 -> (1 <= fuel)%nat ->
  ok (txn_begin malloc fuel m s) (fun '(me, s') => node_ptr me /\ txns s !! me = None /\
    txns s' = <[me := Txn (version_ s) UNDETERMINED_VERSION m [] INITIAL_WRITES_SIZE TXN_RUNNING]> (txns s) /\
    updates s' = updates s /\ maps s' = maps s /\ version_ s' = version_ s /\
    exists A', active_ s' = Some A' /\ active_ok A').
Proof.
  intros Hmalloc HA Hok Hnew Hv Hf. unfold txn_begin, nbd_malloc. destruct (malloc _) as [me|] eqn:Em; [|done].
  apply Hmalloc in Em as [Hme Hp]. apply not_elem_of_union in Hme as [_ Hme]. apply not_elem_of_dom in Hme.
  cbn [rbind set_txn set_txns active_]. rewrite HA. destruct fuel as [|fuel]; [lia|]. cbn [read_version].
  rewrite (deref_some _ _ (Txn 0 UNDETERMINED_VERSION m [] INITIAL_WRITES_SIZE TXN_RUNNING)) by (cbn; by rewrite lookup_insert_eq).
  cbn [rbind wv map writes writes_size state version_ set_txns].
  rewrite (deref_some _ _ (Txn (version_ s) UNDETERMINED_VERSION m [] INITIAL_WRITES_SIZE TXN_RUNNING))
    by (cbn; by rewrite lookup_insert_eq).
  cbn [rbind rv]. set (s1 := set_txn _ _ _).
  destruct (count_loop_run (S fuel) (version_ s) s1 A) as (A' & -> & HA'); [done..|lia|done|].
  cbn [rbind]. change (version_ (set_active s1 (Some A'))) with (version_ s). rewrite Z.eqb_refl. cbn [rbind ok].
  split; [done|]. split; [done|]. split; [cbn; by rewrite insert_insert_eq|]. split_and!; [done..|]. by exists A'.
Qed.

(** C26: A transaction that begins after another one has committed reads, for every key
    that one has written, the value it had read for it itself: its own last write. *)
Theorem txn_commit_visible cas malloc depth fuel s me t M H key base :
  (forall used p, malloc used = Some p -> ~ p ∈ used /\ node_ptr p) ->
  commits s me t M H -> (forall w, w ∈ writes t -> (length (H (wr_key w)) < fuel)%nat) -> (3 <= fuel)%nat ->
  no_conflict t H = true -> key ∈ wr_key <$> writes t -> history (updates s) (lookup_spec M key) (H key) base ->
  NoDup (H key).*1 -> own_records me (recs t) (H key) ->
  exists s', txn_commit (S depth) fuel me s = inl (TXN_VALIDATED, s') /\
    ok (txn_begin malloc fuel (map t) s') (fun '(me3, s3) => forall depth' fuel', (length (H key) < fuel')%nat ->
      exists s4, txn_map_get cas depth' fuel' me3 key s3 = inl (read_spec (rv t) me (H key) base, s4)).
Proof.
  intros Hmalloc Hc Hlen Hf Hnc Hkey Hh Hn Hown. destruct (txn_commit_run depth fuel s me t M H Hc Hlen Hf) as (s' & Hrun & Hca).
  exists s'. unfold commit_state in Hrun. rewrite Hnc in Hrun. split; [done|].
  pose proof Hc as [Hme Ht Hst Hwv HM [Hrv Hver] Hws _].
  destruct (committed_active _ _ _ _ _ _ Hc Hca) as (A & HA & HAok & HAnew). pose proof Hca as [Ev Em Eu Et Er _].
  eapply ok_mono; [apply (txn_begin_run malloc fuel (map t) s' A); try done; lia|].
  intros [me3 s3] (Hp3 & Hfresh & E3t & E3u & E3m & E3v & HA3) depth' fuel' Hf'.
  apply list_elem_of_fmap in Hkey as (w & -> & Hw).
  rewrite Forall_forall in Hws. destruct (Hws w Hw) as (_ & _ & Hok).
  unfold commit_version in Eu. rewrite Hnc in Eu.
  assert (Hne3 : me3 <> me) by (intros ->; by rewrite Et, lookup_insert_eq in Hfresh).
  assert (Hno : Forall (fun pu => version pu.2 <> txn_ver me3) (H (wr_key w))).
  { eapply Forall_impl; [exact Hok|]. intros [p u] Hu E. cbn [snd] in *.
    pose proof (txn_ver_sum _ Hp3) as Ev3. pose proof (quarter_range _ Hp3).
    destruct Hu as [Hcu|[Ha|(x & tx & Hx & Hvx & Htx & _)]].
    - unfold committed in Hcu. lia.
    - change ABORTED_VERSION with (2 ^ 63) in Ha. lia.
    - rewrite Hvx in E. apply txn_ver_inj in E; [|done..]. subst x. rewrite Et, lookup_insert_ne in Hfresh by done.
      by rewrite Htx in Hfresh. }
  assert (Hvalid : valid_spec (rv t) (H (wr_key w)) = true).
  { unfold no_conflict in Hnc. rewrite forallb_forall in Hnc. by apply Hnc, list_elem_of_In. }
  set (t3 := Txn (version_ s') UNDETERMINED_VERSION (map t) [] INITIAL_WRITES_SIZE TXN_RUNNING) in *.
  assert (Hr : reads s3 me3 (wr_key w) t3 M (stamped (version_ s + 1) (recs t) (H (wr_key w))) base).
  { split; [done|by rewrite E3t, lookup_insert_eq|done|by rewrite E3m, Em|rewrite E3u; by eapply history_stamped|
      by rewrite stamped_fst| |done].
    apply Forall_fmap, Forall_forall. intros [p u] Hin. cbn [compose snd fst].
    unfold own_records in Hown. rewrite Forall_forall in Hown, Hok. specialize (Hown _ Hin). specialize (Hok _ Hin).
    cbn [fst snd] in *. case_decide as Hp; [left; unfold committed; cbn; lia|].
    destruct Hok as [?|[?|(x & tx & Hx & Hvx & Htx & Hor)]]; [by left|by right; left|]. right; right.
    exists x, tx. assert (x <> me) by (intros ->; tauto). assert (x <> me3).
    { intros ->. rewrite Et, lookup_insert_ne, Htx in Hfresh by done. done. }
    rewrite E3t, lookup_insert_ne, Et, lookup_insert_ne by done. destruct Hor; [done|]. by split_and!; try right. }
  destruct (txn_map_get_run cas depth' fuel' _ _ _ _ _ _ _ Hr) as (s4 & ->).
  { unfold stamped. by rewrite length_fmap. }
  exists s4. do 2 f_equal. cbn [rv t3]. rewrite Ev. by apply (read_new s); [done|done|done|done|done|lia|lia|].
Qed.

(** * Examples *)

(** An allocator: the next multiple of 8 above the blocks in use *)
Definition bump_malloc (used : gset Z) : option Z :=
  let p := 8 * (1 + foldr (fun x a => Z.max (x / 8) a) 0 (elements used)) in
  if p <? 2 ^ 48 then Some p else None.

Lemma bump_malloc_ok used p : bump_malloc used = Some p -> ~ p ∈ used /\ node_ptr p.
Proof.
  unfold bump_malloc. set (top := foldr _ 0 (elements used)). case_match eqn:Hlt; [|done]. intros [= <-]. apply Z.ltb_lt in Hlt.
  assert (Hf : 0 <= top /\ forall x, x ∈ elements used -> x / 8 <= top).
  { subst top. clear. induction (elements used) as [|y l [IH0 IH]]; cbn.
    - split; [done|]. by intros ? ?%not_elem_of_nil.
    - split; [lia|]. intros x [->|Hx]%elem_of_cons; [lia|]. specialize (IH _ Hx). lia. }
  destruct Hf as [H0 Hf]. split; [|split; [lia|zlia]].
  intros Hin%elem_of_elements. apply Hf in Hin. zlia.
Qed.

Lemma cas_spec_current M k v : map_Forall (fun _ x => 0 < x < 2 ^ 63) M ->
  cas_spec M k (lookup_spec M k) v = (lookup_spec M k, <[k := v]> M).
Proof. intros _. unfold cas_spec, cas_matches. by rewrite Z.eqb_refl, orb_true_r. Qed.

(** Transactions 24 and 40 run on map 8000; 24 has written 51 to key 5, which has 50
    since version 2. *)
Definition ex_own : update_t := Update (txn_ver 24) 51 (update_val 32).

Definition ex_old : update_t := Update 2 50 DOES_NOT_EXIST.

Definition ex_L : list (Z * update_t) := [(16, ex_own); (32, ex_old)].

Definition ex_t : txn_t := Txn 2 0 8000 [Write 5 16] 4 TXN_RUNNING.

Definition ex_t2 : txn_t := Txn 2 0 8000 [] 4 TXN_RUNNING.

Definition ex_M : gmap Z Z := {[5 := update_val 16]}.

Definition ex_db : db :=
  Db {[8000 := ex_M]} (<[16 := ex_own]> {[32 := ex_old]}) (<[24 := ex_t]> {[40 := ex_t2]}) (Some {[2 := 2]}) 2 [].

Lemma ex_history : history (updates ex_db) (lookup_spec ex_M 5) ex_L 0.
Proof. cbn [history ex_L]. split_and!; try reflexivity; (split; [lia|reflexivity]) || lia. Qed.

Lemma ex_recs me : Forall (fun pu => rec_ok ex_db me pu.2) ex_L.
Proof.
  repeat apply Forall_cons_2; [| |apply Forall_nil_2].
  - right; right. exists 24, ex_t. split; [split; [lia|reflexivity]|]. split; [reflexivity|]. split; [reflexivity|by right].
  - left. unfold committed. cbn. lia.
Qed.

Lemma ex_nodup : NoDup ex_L.*1.
Proof. apply (bool_decide_eq_true_1 (NoDup ex_L.*1)). by vm_compute. Qed.

Lemma ex_active : active_ok {[2 := 2]}.
Proof. apply map_Forall_singleton. lia. Qed.

Lemma ex_reads me t : node_ptr me -> txns ex_db !! me = Some t -> state t = TXN_RUNNING -> map t = 8000 ->
  reads ex_db me 5 t ex_M ex_L 0.
Proof.
  intros Hme Ht Hst Hm. split; [done|done|done|by rewrite Hm|exact ex_history|exact ex_nodup|apply ex_recs|].
  eexists. split; [reflexivity|apply ex_active].
Qed.

Lemma ex_commits : commits ex_db 24 ex_t ex_M (fun _ => ex_L).
Proof.
  split; try reflexivity; [by split|cbn; lia| |].
  - apply Forall_singleton. split; [by eexists|]. split; [exists 0; exact ex_history|apply ex_recs].
  - eexists. split; [reflexivity|]. split; [apply ex_active|reflexivity].
Qed.

Lemma ex_own_records : own_records 24 (recs ex_t) ex_L.
Proof.
  repeat apply Forall_cons_2; [| |apply Forall_nil_2]; cbn [fst snd].
  - split; [reflexivity|]. intros _. left.
  - split; [|done]. intros Hin. apply list_elem_of_singleton in Hin. done.
Qed.

Lemma ex_lengths w : w ∈ writes ex_t -> (length ex_L < 9)%nat.
Proof. intros _. cbn. lia. Qed.

Lemma txn_map_get_reads_witness : exists s', txn_map_get cas_spec 0 3 40 5 ex_db = inl (50, s').
Proof.
  apply (txn_map_get_reads cas_spec 0 3 ex_db 40 5 ex_t2 ex_M ex_L 0); [|cbn; lia].
  apply ex_reads; try reflexivity. by split.
Defined.

Lemma txn_reads_own_writes_witness :
  ok (txn_map_set cas_spec bump_malloc 9 24 5 52 ex_db) (fun s' => forall depth fuel', (3 < fuel')%nat ->
    (exists s2, txn_map_get cas_spec depth fuel' 24 5 s' = inl (52, s2)) /\
    (forall me2 t2, me2 <> 24 -> map t2 = 8000 -> reads ex_db me2 5 t2 ex_M ex_L 0 ->
       exists s2, txn_map_get cas_spec depth fuel' me2 5 s' = inl (read_spec (rv t2) me2 ex_L 0, s2))).
Proof.
  apply (txn_reads_own_writes cas_spec bump_malloc cas_spec_current bump_malloc_ok 9 ex_db 24 5 52 ex_t ex_M ex_L 0).
  - apply ex_reads; try reflexivity. by split.
  - apply map_Forall_singleton. by vm_compute.
  - lia.
  - lia.
Defined.

Lemma txn_commit_first_wins_witness : exists s', txn_commit 1 9 24 ex_db = inl (TXN_VALIDATED, s') /\
  committed_as ex_db s' 24 ex_t (fun _ => ex_L).
Proof. apply (txn_commit_first_wins 0 9 ex_db 24 ex_t ex_M (fun _ => ex_L) ex_commits ex_lengths). lia. Defined.

Lemma txn_snapshot_witness : exists s', txn_commit 1 9 24 ex_db = inl (TXN_VALIDATED, s') /\
  forall depth' fuel', (2 < fuel')%nat -> exists s2, txn_map_get cas_spec depth' fuel' 40 5 s' = inl (50, s2).
Proof.
  apply (txn_snapshot cas_spec 0 9 ex_db 24 ex_t ex_M (fun _ => ex_L) 40 5 ex_t2 ex_M ex_L 0 ex_commits ex_lengths).
  - lia.
  - apply ex_reads; try reflexivity. by split.
  - done.
  - cbn. lia.
  - exact ex_own_records.
  - apply ex_recs.
Defined.

Lemma txn_commit_visible_witness : exists s', txn_commit 1 9 24 ex_db = inl (TXN_VALIDATED, s') /\
  ok (txn_begin bump_malloc 9 8000 s') (fun '(me3, s3) => forall depth' fuel', (2 < fuel')%nat ->
    exists s4, txn_map_get cas_spec depth' fuel' me3 5 s3 = inl (51, s4)).
Proof.
  apply (txn_commit_visible cas_spec bump_malloc 0 9 ex_db 24 ex_t ex_M (fun _ => ex_L) 5 0 bump_malloc_ok ex_commits ex_lengths).
  - lia.
  - reflexivity.
  - left.
  - exact ex_history.
  - exact ex_nodup.
  - exact ex_own_records.
Defined.

(** ** Histories that go wrong *)

Definition db0 : db := Db {[8000 := ∅]} ∅ ∅ None 1 [].

Definition set_commit (key v : Z) (s : db) : res db :=
  let* (t, s) := txn_begin bump_malloc 9 8000 s in
  let* s := txn_map_set cas_spec bump_malloc 9 t key v s in
  let* (_, s) := txn_commit 5 9 t s in
  inl s.

(** Three transactions write a key, one after the other, and a fourth one reads it
    twice: the first read frees the second newest record, which the newest one
    still points to, and the second read goes through that pointer. *)
Theorem txn_read_after_free :
  (let* s := set_commit 5 50 db0 in
   let* s := set_commit 5 51 s in
   let* s := set_commit 5 52 s in
   let* (t, s) := txn_begin bump_malloc 9 8000 s in
   let* (v, s) := txn_map_get cas_spec 5 9 t 5 s in
   inl v) = inl 52 /\
  (let* s := set_commit 5 50 db0 in
   let* s := set_commit 5 51 s in
   let* s := set_commit 5 52 s in
   let* (t, s) := txn_begin bump_malloc 9 8000 s in
   let* (_, s) := txn_map_get cas_spec 5 9 t 5 s in
   let* (v, s) := txn_map_get cas_spec 5 9 t 5 s in
   inl v) = inr SegFault.
Proof. by vm_compute. Qed.

(** Three transactions begin at the same version: when the first one commits, the
    version is no longer registered as active although the two others still run. *)
Theorem txn_commit_unregisters :
  (let* (t1, s) := txn_begin bump_malloc 9 8000 db0 in
   let* (t2, s) := txn_begin bump_malloc 9 8000 s in
   let* (t3, s) := txn_begin bump_malloc 9 8000 s in
   let* (_, s1) := txn_commit 5 9 t1 s in
   inl (map_to_list <$> active_ s, map_to_list <$> active_ s1,
        [state <$> txns s1 !! t2; state <$> txns s1 !! t3])) =
  inl (Some [(1, 3)], Some [], [Some TXN_RUNNING; Some TXN_RUNNING]).
Proof. by vm_compute. Qed.

(** An aborted transaction stays registered. *)
Theorem txn_abort_keeps_version :
  (let* (t1, s) := txn_begin bump_malloc 9 8000 db0 in
   let* s := txn_abort t1 s in
   inl (map_to_list <$> active_ s, retired s)) = inl (Some [(1, 1)], [8]).
Proof. by vm_compute. Qed.
