(* ===== verification/Hashtable.v ===== *)
(** The lock-free hash table of [map/hashtable.c] (after Cliff Click): open
    addressing over cache-line buckets, removal by tombstones, and growth by an
    incremental copy into a chain of tables. The operations as programs of the
    machine, every compare-and-swap and retry included. *)
From S2P Require Import Prelude Random Machine Datatype MapSpec SkipNodes.

(** [GET_PTR]: the low-order 48 bits of a string key's word *)
Definition GET_PTR (x : Z) : Z := Z.land x (MASK 48).

(** The words of an [entry_t], the [i]-th of a table *)
Definition ENT_KEY (i : nat) : nat := 2 * i.

Definition ENT_VAL (i : nat) : nat := 2 * i + 1.

(** The words of a [hti_t] *)
Definition TABLE : nat := 0.

Definition PARENT : nat := 1.

Definition HTI_NEXT : nat := 2.

Definition COUNT : nat := 3.

Definition KEY_COUNT : nat := 4.

Definition COPY_SCAN : nat := 5.

Definition NUM_COPIED : nat := 6.

Definition PROBE : nat := 7.

Definition REF_COUNT : nat := 8.

Definition SCALE : nat := 9.

(** The words of a [struct ht]; [density] is a statistic that only [ht_print]
    reads, its word is not written here. *)
Definition HT_HTI : nat := 0.

Definition HT_KEY_TYPE : nat := 1.

Definition HT_COPIES : nat := 2.

Definition HT_PROBE : nat := 4.

(** A [hashtable_t *]: its address; [key_type] never changes after [ht_alloc]. *)
Record hashtable_t := HT { ht_addr : Z; ht_key_type : option datatype }.

Definition COPIED_VALUE : Z := TAG_VALUE DOES_NOT_EXIST TAG1.

Definition TOMBSTONE : Z := STRIP_TAG (-1) TAG1.

Definition TAGGED_TOMBSTONE : Z := TAG_VALUE TOMBSTONE TAG1.

Definition ENTRIES_PER_BUCKET : nat := 4.

Definition ENTRIES_PER_COPY_CHUNK : nat := 8.

Definition MIN_SCALE : Z := 4.

(** [1ULL << scale], as a number of entries *)
Definition size_of (scale : Z) : nat := Z.to_nat (2 ^ scale).

Definition key_hash_of (kt : option datatype) (key : Z) : prog Z :=
  match kt with None => Ret (murmur32_8b key) | Some dt => hash dt key end.

Definition get_next_ndx (old_ndx key_hash ht_scale : Z) : Z :=
  let incr := s32 (Z.shiftr key_hash (32 - ht_scale)) in
  let incr := if u32 incr <? Z.of_nat ENTRIES_PER_BUCKET then s32 (u32 incr + Z.of_nat ENTRIES_PER_BUCKET) else incr in
  s32 (Z.land (u64 (s32 (old_ndx + incr))) (MASK ht_scale)).

(** [for (int j = ...)], [k] entries of the bucket left: the entry and [*is_empty] *)
Fixpoint lookup_bucket (k : nat) (kt : option datatype) (table key key_hash ndx j : Z)
    : prog (option (nat * bool)) :=
  match k with
  | O => Ret None
  | S k =>
      let ent := Z.to_nat (Z.land ndx (u32 (Z.lnot (Z.of_nat ENTRIES_PER_BUCKET - 1))) +
                           Z.land (ndx + j) (Z.of_nat ENTRIES_PER_BUCKET - 1)) in
      ent_key ⇐ load table (ENT_KEY ent);
      if ent_key =? DOES_NOT_EXIST then Ret (Some (ent, true))
      else
        match kt with
        | None =>
            if ent_key =? key then Ret (Some (ent, false))
            else lookup_bucket k kt table key key_hash ndx (j + 1)
        | Some dt =>
            if Z.shiftr key_hash 16 =? Z.shiftr ent_key 48 then
              d ⇐ cmp dt (GET_PTR ent_key) key;
              if d =? 0 then Ret (Some (ent, false))
              else lookup_bucket k kt table key key_hash ndx (j + 1)
            else lookup_bucket k kt table key key_hash ndx (j + 1)
        end
  end.

(** [for (int i = 0; i < hti->probe; ++i)], [k] probes left *)
Fixpoint lookup_probes (k : nat) (kt : option datatype) (table scale key key_hash ndx : Z)
    : prog (option (nat * bool)) :=
  match k with
  | O => Ret None
  | S k =>
      r ⇐ lookup_bucket ENTRIES_PER_BUCKET kt table key key_hash ndx 0;
      match r with
      | Some r => Ret (Some r)
      | None => lookup_probes k kt table scale key key_hash (get_next_ndx ndx key_hash scale)
      end
  end.

(** The entry of a key and whether it is empty; [table], [scale] and [probe] do not
    change once [hti_alloc] has set them. *)
Definition hti_lookup (ht : hashtable_t) (hti key key_hash : Z) : prog (option (nat * bool)) :=
  scale ⇐ load hti SCALE;
  probe ⇐ load hti PROBE;
  table ⇐ load hti TABLE;
  lookup_probes (Z.to_nat probe) (ht_key_type ht) table scale key key_hash (s32 (Z.land key_hash (MASK scale))).

Definition hti_alloc (parent scale : Z) : prog Z :=
  hti ⇐ malloc 10;
  _ ⇐ memset0 hti 0 10;
  _ ⇐ store hti SCALE (u8 scale);
  let sz := (2 * size_of scale)%nat in
  table ⇐ malloc sz;
  _ ⇐ store hti TABLE table;
  _ ⇐ memset0 table 0 sz;
  scale ⇐ load hti SCALE;
  _ ⇐ store hti PROBE (3 * scale / 2 + 2);
  let quarter := s32 (2 ^ (scale - 2) / Z.of_nat ENTRIES_PER_BUCKET) in
  probe ⇐ load hti PROBE;
  _ ⇐ (if (quarter <? probe) && (4 <? quarter) then store hti PROBE quarter else Ret 0);
  probe ⇐ load hti PROBE;
  _ ⇐ assert (negb (probe =? 0));
  _ ⇐ store hti PARENT parent;
  _ ⇐ store hti REF_COUNT 1;
  _ ⇐ assert ((MIN_SCALE <=? scale) && (scale <? 63));
  _ ⇐ assert (16 * Z.of_nat ENTRIES_PER_BUCKET mod 64 =? 0);
  _ ⇐ assert (table mod 64 =? 0);
  Ret hti.

(** [while (hti)] of [ht_count] *)
Fixpoint ht_count_loop (fuel : nat) (hti count : Z) : prog Z :=
  match fuel with
  | O => Fail OutOfFuel
  | S fuel =>
      if hti =? 0 then Ret count
      else
        c ⇐ load hti COUNT;
        next ⇐ load hti HTI_NEXT;
        ht_count_loop fuel next (u64 (count + c))
  end.

Definition ht_count (fuel : nat) (ht : hashtable_t) : prog Z :=
  hti ⇐ load (ht_addr ht) HT_HTI;
  ht_count_loop fuel hti 0.

Definition hti_start_copy (fuel : nat) (ht : hashtable_t) (hti : Z) : prog unit :=
  count ⇐ ht_count fuel ht;
  scale ⇐ load hti SCALE;
  grow ⇐ (if 2 ^ (scale - 1) <? count then Ret true
          else kc ⇐ load hti KEY_COUNT; Ret (2 ^ (scale - 2) + 2 ^ (scale - 3) <? kc));
  let new_scale := if grow : bool then scale + 1 else scale in
  next ⇐ hti_alloc (ht_addr ht) new_scale;
  old_next ⇐ SYNC_CAS hti HTI_NEXT 0 next;
  if negb (old_next =? 0) then
    table ⇐ load next TABLE;
    _ ⇐ nbd_free table;
    Ret tt
  else
    _ ⇐ SYNC_ADD 32 (ht_addr ht) HT_COPIES 1;
    probe ⇐ load hti PROBE;
    _ ⇐ store (ht_addr ht) HT_PROBE probe;
    Ret tt.

(** The assertions of [hti_copy_entry]; the table of [ht1] *)
Definition copy_checks (ht : hashtable_t) (ht1 : Z) (ht1_ent : nat) (key_hash ht2 : Z) : prog Z :=
  _ ⇐ assert (negb (ht1 =? 0));
  n1 ⇐ load ht1 HTI_NEXT;
  _ ⇐ assert (negb (n1 =? 0));
  _ ⇐ assert (negb (ht2 =? 0));
  scale ⇐ load ht1 SCALE;
  _ ⇐ assert (Nat.ltb ht1_ent (size_of scale));
  table1 ⇐ load ht1 TABLE;
  _ ⇐ (match ht_key_type ht with
       | None => Ret tt
       | Some _ =>
           if key_hash =? 0 then Ret tt
           else k ⇐ load table1 (ENT_KEY ht1_ent); assert (Z.shiftr key_hash 16 =? Z.shiftr k 48)
       end);
  Ret table1.

(** [hti_copy_entry]: [true] unless the entry was copied already *)
Fixpoint hti_copy_entry (fuel : nat) (ht : hashtable_t) (ht1 : Z) (ht1_ent : nat) (key_hash ht2 : Z) : prog bool :=
  match fuel with
  | O => Fail OutOfFuel
  | S fuel =>
      table1 ⇐ copy_checks ht ht1 ht1_ent key_hash ht2;
      val ⇐ load table1 (ENT_VAL ht1_ent);
      if (val =? COPIED_VALUE) || (val =? TAGGED_TOMBSTONE) then Ret false
      else
        killed ⇐ (if val =? DOES_NOT_EXIST then
                    v ⇐ SYNC_CAS table1 (ENT_VAL ht1_ent) DOES_NOT_EXIST COPIED_VALUE;
                    Ret (v =? DOES_NOT_EXIST)
                  else Ret false);
        if killed : bool then Ret true
        else
          val ⇐ SYNC_FETCH_AND_OR table1 (ENT_VAL ht1_ent) (TAG_VALUE 0 TAG1);
          if (val =? COPIED_VALUE) || (val =? TAGGED_TOMBSTONE) then Ret false
          else if val =? TOMBSTONE then Ret true
          else
            ent_key ⇐ load table1 (ENT_KEY ht1_ent);
            let key := match ht_key_type ht with None => ent_key | Some _ => GET_PTR ent_key end in
            key_hash ⇐ (if key_hash =? 0 then
                          match ht_key_type ht with None => Ret (murmur32_8b ent_key) | Some dt => hash dt key end
                        else Ret key_hash);
            r ⇐ hti_lookup ht ht2 key key_hash;
            match r with
            | None =>
                next2 ⇐ load ht2 HTI_NEXT;
                _ ⇐ (if next2 =? 0 then hti_start_copy fuel ht ht2 else Ret tt);
                next2 ⇐ load ht2 HTI_NEXT;
                hti_copy_entry fuel ht ht1 ht1_ent key_hash next2
            | Some (ht2_ent, is_empty) =>
                table2 ⇐ load ht2 TABLE;
                old_key ⇐ (if is_empty : bool then SYNC_CAS table2 (ENT_KEY ht2_ent) DOES_NOT_EXIST ent_key
                           else Ret DOES_NOT_EXIST);
                if negb (old_key =? DOES_NOT_EXIST) then hti_copy_entry fuel ht ht1 ht1_ent key_hash ht2
                else
                  _ ⇐ (if is_empty : bool then SYNC_ADD 64 ht2 KEY_COUNT 1 else Ret 0);
                  let val := STRIP_TAG val TAG1 in
                  old_val ⇐ SYNC_CAS table2 (ENT_VAL ht2_ent) DOES_NOT_EXIST val;
                  if old_val =? COPIED_VALUE then
                    next2 ⇐ load ht2 HTI_NEXT;
                    hti_copy_entry fuel ht ht1 ht1_ent key_hash next2
                  else
                    _ ⇐ store table1 (ENT_VAL ht1_ent) COPIED_VALUE;
                    if old_val =? DOES_NOT_EXIST then
                      _ ⇐ SYNC_ADD 64 ht1 COUNT (-1);
                      _ ⇐ SYNC_ADD 64 ht2 COUNT 1;
                      Ret true
                    else Ret false
            end
  end.

(** The end of [hti_cas] and [hti_get] on an entry whose value [ent_val] is tagged:
    complete the copy unless it is complete. *)
Definition finish_copy (fuel : nat) (ht : hashtable_t) (hti : Z) (ent : nat) (key_hash ent_val : Z) : prog unit :=
  if negb (ent_val =? COPIED_VALUE) && negb (ent_val =? TAGGED_TOMBSTONE) then
    next ⇐ load hti HTI_NEXT;
    did_copy ⇐ hti_copy_entry fuel ht hti ent key_hash next;
    if did_copy : bool then _ ⇐ SYNC_ADD 64 hti NUM_COPIED 1; Ret tt else Ret tt
  else Ret tt.

Fixpoint hti_cas (fuel : nat) (ht : hashtable_t) (hti key key_hash expected new : Z) : prog Z :=
  match fuel with
  | O => Fail OutOfFuel
  | S fuel =>
      _ ⇐ assert (negb (hti =? 0));
      _ ⇐ assert (IS_TAGGED new TAG1 =? 0);
      _ ⇐ assert (negb (key =? 0));
      r ⇐ hti_lookup ht hti key key_hash;
      match r with
      | None =>
          next ⇐ load hti HTI_NEXT;
          _ ⇐ (if next =? 0 then hti_start_copy fuel ht hti else Ret tt);
          Ret COPIED_VALUE
      | Some (ent, is_empty) =>
          table ⇐ load hti TABLE;
          if is_empty && negb (expected =? CAS_EXPECT_WHATEVER) && negb (expected =? CAS_EXPECT_DOES_NOT_EXIST)
          then Ret DOES_NOT_EXIST
          else if is_empty && (new =? DOES_NOT_EXIST) then Ret DOES_NOT_EXIST
          else
            stolen ⇐ (if is_empty : bool then
                        new_key ⇐ (match ht_key_type ht with
                                   | None => Ret key
                                   | Some dt => c ⇐ clone dt key;
                                                Ret (Z.lor (u64 (Z.shiftl (Z.shiftr key_hash 16) 48)) c)
                                   end);
                        old_key ⇐ SYNC_CAS table (ENT_KEY ent) DOES_NOT_EXIST new_key;
                        if negb (old_key =? DOES_NOT_EXIST) then
                          _ ⇐ (match ht_key_type ht with None => Ret 0 | Some _ => nbd_free (GET_PTR new_key) end);
                          Ret true
                        else _ ⇐ SYNC_ADD 64 hti KEY_COUNT 1; Ret false
                      else Ret false);
            if stolen : bool then hti_cas fuel ht hti key key_hash expected new
            else
              ent_val ⇐ load table (ENT_VAL ent);
              if negb (IS_TAGGED ent_val TAG1 =? 0) then
                _ ⇐ finish_copy fuel ht hti ent key_hash ent_val;
                Ret COPIED_VALUE
              else
                let old_existed := negb (ent_val =? TOMBSTONE) && negb (ent_val =? DOES_NOT_EXIST) in
                if negb (expected =? CAS_EXPECT_WHATEVER) && negb (expected =? ent_val) &&
                   negb (expected =? (if old_existed then CAS_EXPECT_EXISTS else CAS_EXPECT_DOES_NOT_EXIST))
                then Ret ent_val
                else if (new =? DOES_NOT_EXIST) && negb old_existed || (ent_val =? new) then Ret ent_val
                else
                  v ⇐ SYNC_CAS table (ENT_VAL ent) ent_val (if new =? DOES_NOT_EXIST then TOMBSTONE else new);
                  if negb (v =? ent_val) then hti_cas fuel ht hti key key_hash expected new
                  else
                    _ ⇐ (if old_existed && (new =? DOES_NOT_EXIST) then SYNC_ADD 64 hti COUNT (-1)
                         else if negb old_existed && negb (new =? DOES_NOT_EXIST) then SYNC_ADD 64 hti COUNT 1
                         else Ret 0);
                    Ret ent_val
      end
  end.

Fixpoint hti_get (fuel : nat) (ht : hashtable_t) (hti key key_hash : Z) : prog Z :=
  match fuel with
  | O => Fail OutOfFuel
  | S fuel =>
      r ⇐ hti_lookup ht hti key key_hash;
      match r with
      | None =>
          next ⇐ load hti HTI_NEXT;
          if negb (next =? 0) then hti_get fuel ht next key key_hash else Ret DOES_NOT_EXIST
      | Some (_, true) => Ret DOES_NOT_EXIST
      | Some (ent, false) =>
          table ⇐ load hti TABLE;
          ent_val ⇐ load table (ENT_VAL ent);
          if negb (IS_TAGGED ent_val TAG1 =? 0) then
            _ ⇐ finish_copy fuel ht hti ent key_hash ent_val;
            next ⇐ load hti HTI_NEXT;
            hti_get fuel ht next key key_hash
          else Ret (if ent_val =? TOMBSTONE then DOES_NOT_EXIST else ent_val)
      end
  end.

Definition ht_get (fuel : nat) (ht : hashtable_t) (key : Z) : prog Z :=
  h ⇐ key_hash_of (ht_key_type ht) key;
  hti ⇐ load (ht_addr ht) HT_HTI;
  hti_get fuel ht hti key h.

(** [for (int i = 0; i < limit; ++i)], [k] entries from [ent] on: the number copied *)
Fixpoint help_copy_loop (k fuel : nat) (ht : hashtable_t) (hti : Z) (ent : nat) (num_copied : Z) : prog Z :=
  match k with
  | O => Ret num_copied
  | S k =>
      next ⇐ load hti HTI_NEXT;
      c ⇐ hti_copy_entry fuel ht hti ent 0 next;
      scale ⇐ load hti SCALE;
      _ ⇐ assert (Nat.leb (S ent) (size_of scale));
      help_copy_loop k fuel ht hti (S ent) (u64 (num_copied + Z.b2z c))
  end.

(** [hti_help_copy]: whether the copy is done *)
Definition hti_help_copy (fuel : nat) (ht : hashtable_t) (hti : Z) : prog bool :=
  total_copied ⇐ load hti NUM_COPIED;
  x ⇐ load hti COPY_SCAN;
  scale ⇐ load hti SCALE;
  if negb (total_copied =? 2 ^ scale) then
    let panic := 2 ^ (scale + 1) <=? x in
    num_copied ⇐ (if panic then help_copy_loop (size_of scale) fuel ht hti 0 0
                  else
                    _ ⇐ store hti COPY_SCAN (u64 (x + Z.of_nat ENTRIES_PER_COPY_CHUNK));
                    help_copy_loop ENTRIES_PER_COPY_CHUNK fuel ht hti (Z.to_nat (Z.land x (MASK scale))) 0);
    total_copied ⇐ (if negb (num_copied =? 0) then SYNC_ADD 64 hti NUM_COPIED num_copied else Ret total_copied);
    Ret (total_copied =? 2 ^ scale)
  else Ret (total_copied =? 2 ^ scale).

(** The loop of [hti_defer_free], [k] entries from [i] on *)
Fixpoint defer_keys (k : nat) (ht : hashtable_t) (hti : Z) (i : nat) : prog unit :=
  match k with
  | O => Ret tt
  | S k =>
      table ⇐ load hti TABLE;
      key ⇐ load table (ENT_KEY i);
      val ⇐ load table (ENT_VAL i);
      if val =? COPIED_VALUE then defer_keys k ht hti (S i)
      else
        _ ⇐ assert ((IS_TAGGED val TAG1 =? 0) || (val =? TAGGED_TOMBSTONE));
        _ ⇐ (match ht_key_type ht with
             | Some _ => if negb (key =? DOES_NOT_EXIST) then rcu_defer_free (GET_PTR key) else Ret 0
             | None => Ret 0
             end);
        defer_keys k ht hti (S i)
  end.

Definition hti_defer_free (ht : hashtable_t) (hti : Z) : prog unit :=
  rc ⇐ load hti REF_COUNT;
  _ ⇐ assert (rc =? 0);
  scale ⇐ load hti SCALE;
  _ ⇐ defer_keys (size_of scale) ht hti 0;
  table ⇐ load hti TABLE;
  _ ⇐ rcu_defer_free table;
  _ ⇐ rcu_defer_free hti;
  Ret tt.

Definition hti_release (ht : hashtable_t) (hti : Z) : prog unit :=
  rc ⇐ load hti REF_COUNT;
  _ ⇐ assert (0 <? rc);
  ref_count ⇐ SYNC_ADD 32 hti REF_COUNT (-1);
  if ref_count =? 0 then hti_defer_free ht hti else Ret tt.

(** [while ((old_val = hti_cas(...)) == COPIED_VALUE)], also the loop of
    [ht_remove] *)
Fixpoint cas_chain (chain fuel : nat) (ht : hashtable_t) (hti key key_hash expected new : Z) : prog Z :=
  match chain with
  | O => Fail OutOfFuel
  | S chain =>
      old_val ⇐ hti_cas fuel ht hti key key_hash expected new;
      if old_val =? COPIED_VALUE then
        next ⇐ load hti HTI_NEXT;
        _ ⇐ assert (negb (next =? 0));
        next ⇐ load hti HTI_NEXT;
        cas_chain chain fuel ht next key key_hash expected new
      else Ret (if old_val =? TOMBSTONE then DOES_NOT_EXIST else old_val)
  end.

Definition ht_cas (fuel : nat) (ht : hashtable_t) (key expected_val new_val : Z) : prog Z :=
  _ ⇐ assert (negb (key =? DOES_NOT_EXIST));
  _ ⇐ assert ((IS_TAGGED new_val TAG1 =? 0) && negb (new_val =? DOES_NOT_EXIST) && negb (new_val =? TOMBSTONE));
  hti ⇐ load (ht_addr ht) HT_HTI;
  next ⇐ load hti HTI_NEXT;
  _ ⇐ (if negb (next =? 0) then
         done ⇐ hti_help_copy fuel ht hti;
         if done : bool then
           next ⇐ load hti HTI_NEXT;
           _ ⇐ assert (negb (next =? 0));
           next ⇐ load hti HTI_NEXT;
           old ⇐ SYNC_CAS (ht_addr ht) HT_HTI hti next;
           if old =? hti then hti_release ht hti else Ret tt
         else Ret tt
       else Ret tt);
  key_hash ⇐ key_hash_of (ht_key_type ht) key;
  cas_chain fuel fuel ht hti key key_hash expected_val new_val.

Definition ht_remove (fuel : nat) (ht : hashtable_t) (key : Z) : prog Z :=
  hti ⇐ load (ht_addr ht) HT_HTI;
  key_hash ⇐ key_hash_of (ht_key_type ht) key;
  cas_chain fuel fuel ht hti key key_hash CAS_EXPECT_WHATEVER DOES_NOT_EXIST.

Definition ht_alloc (key_type : option datatype) : prog hashtable_t :=
  ht ⇐ malloc 5;
  _ ⇐ store ht HT_KEY_TYPE (match key_type with None => 0 | Some _ => 1 end);
  hti ⇐ hti_alloc ht MIN_SCALE;
  _ ⇐ store ht HT_HTI hti;
  _ ⇐ store ht HT_COPIES 0;
  Ret (HT ht key_type).

(** [do ... while (hti)] of [ht_free] *)
Fixpoint ht_free_loop (fuel : nat) (ht : hashtable_t) (hti : Z) : prog unit :=
  match fuel with
  | O => Fail OutOfFuel
  | S fuel =>
      next ⇐ load hti HTI_NEXT;
      rc ⇐ load hti REF_COUNT;
      _ ⇐ assert (rc =? 1);
      _ ⇐ hti_release ht hti;
      if next =? 0 then Ret tt else ht_free_loop fuel ht next
  end.

Definition ht_free (fuel : nat) (ht : hashtable_t) : prog unit :=
  hti ⇐ load (ht_addr ht) HT_HTI;
  _ ⇐ ht_free_loop fuel ht hti;
  _ ⇐ nbd_free (ht_addr ht);
  Ret tt.

(** [struct ht_iter], at the address [it_addr] *)
Record ht_iter_t := HTIter { it_addr : Z; it_hti : Z; it_idx : Z }.

(** [do { } while (hti_help_copy(hti) != TRUE)], at most [calls] calls *)
Fixpoint help_until_done (calls fuel : nat) (ht : hashtable_t) (hti : Z) : prog unit :=
  match calls with
  | O => Fail OutOfFuel
  | S calls =>
      done ⇐ hti_help_copy fuel ht hti;
      if done : bool then Ret tt else help_until_done calls fuel ht hti
  end.

(** [while (hti->next != NULL)] of [ht_iter_begin]: the last table *)
Fixpoint last_table (fuel : nat) (ht : hashtable_t) (hti : Z) : prog Z :=
  match fuel with
  | O => Fail OutOfFuel
  | S fuel' =>
      next ⇐ load hti HTI_NEXT;
      if negb (next =? 0) then
        _ ⇐ help_until_done fuel fuel ht hti;
        next ⇐ load hti HTI_NEXT;
        last_table fuel' ht next
      else Ret hti
  end.

(** Take a reference unless the table is being released: whether it was taken *)
Fixpoint take_ref (fuel : nat) (hti : Z) : prog bool :=
  match fuel with
  | O => Fail OutOfFuel
  | S fuel =>
      rc ⇐ load hti REF_COUNT;
      if rc =? 0 then Ret false
      else
        old ⇐ SYNC_CAS hti REF_COUNT rc (rc + 1);
        if rc =? old then Ret true else take_ref fuel hti
  end.

Fixpoint iter_table (fuel : nat) (ht : hashtable_t) : prog Z :=
  match fuel with
  | O => Fail OutOfFuel
  | S fuel' =>
      hti ⇐ load (ht_addr ht) HT_HTI;
      hti ⇐ last_table fuel ht hti;
      taken ⇐ take_ref fuel hti;
      if taken : bool then Ret hti else iter_table fuel' ht
  end.

Definition ht_iter_begin (fuel : nat) (ht : hashtable_t) (key : Z) : prog ht_iter_t :=
  hti ⇐ iter_table fuel ht;
  iter ⇐ malloc 2;
  Ret (HTIter iter hti (-1)).

(** [do ... while] of [ht_iter_next]: the next entry in use (its index, key word
    and value), or the end of the table *)
Fixpoint iter_scan (fuel : nat) (ht : hashtable_t) (hti idx : Z) : prog (Z * option (Z * Z)) :=
  match fuel with
  | O => Fail OutOfFuel
  | S fuel =>
      scale ⇐ load hti SCALE;
      let idx := idx + 1 in
      if idx =? 2 ^ scale then Ret (idx, None)
      else
        table ⇐ load hti TABLE;
        k ⇐ load table (ENT_KEY (Z.to_nat idx));
        let key := match ht_key_type ht with None => k | Some _ => GET_PTR k end in
        val ⇐ load table (ENT_VAL (Z.to_nat idx));
        if (key =? DOES_NOT_EXIST) || (val =? DOES_NOT_EXIST) || (val =? TOMBSTONE)
        then iter_scan fuel ht hti idx
        else Ret (idx, Some (key, val))
  end.

(** [ht_iter_next]: the iterator, the value returned and [*key_ptr] (0 when it is
    not written) *)
Fixpoint ht_iter_next (fuel : nat) (ht : hashtable_t) (iter : ht_iter_t) : prog (ht_iter_t * Z * Z) :=
  match fuel with
  | O => Fail OutOfFuel
  | S fuel' =>
      r ⇐ iter_scan fuel ht (it_hti iter) (it_idx iter);
      match r with
      | (idx, None) => Ret (HTIter (it_addr iter) (it_hti iter) idx, DOES_NOT_EXIST, 0)
      | (idx, Some (key, val)) =>
          let iter := HTIter (it_addr iter) (it_hti iter) idx in
          if val =? COPIED_VALUE then
            hash ⇐ key_hash_of (ht_key_type ht) key;
            next ⇐ load (it_hti iter) HTI_NEXT;
            table ⇐ load (it_hti iter) TABLE;
            ent_key ⇐ load table (ENT_KEY (Z.to_nat idx));
            val ⇐ hti_get fuel ht next ent_key hash;
            if val =? DOES_NOT_EXIST then ht_iter_next fuel' ht iter else Ret (iter, val, key)
          else Ret (iter, val, key)
      end
  end.

Definition ht_iter_free (ht : hashtable_t) (iter : ht_iter_t) : prog unit :=
  _ ⇐ hti_release ht (it_hti iter);
  _ ⇐ nbd_free (it_addr iter);
  Ret tt.
