(* ===== verification/HashChain.v ===== *)
(** The chain of tables of a hash table as data: which entry a key probes to, the
    value a key has in a chain, the invariant of the chain, and what installing a
    key, changing a value and killing an entry do to it. [HashtableProof] shows that
    the programs of [Hashtable] work on such chains. *)
From S2P Require Import Prelude Random Machine Datatype MapSpec SkipNodes Hashtable.

(** A [hti_t] and its table of entries *)
Record tbl := Tbl {
  t_addr : Z; t_tab : Z; t_scale : Z; t_probe : Z; t_ents : list (Z * Z);
  t_count : Z; t_keys : Z; t_scan : Z; t_copied : Z; t_ref : Z;
}.

(** The entries of a table in the order a key with hash [h] probes them *)
Definition bucket_slots (ndx : Z) : list nat :=
  (fun j => Z.to_nat (Z.land ndx (u32 (Z.lnot (Z.of_nat ENTRIES_PER_BUCKET - 1))) +
                      Z.land (ndx + j) (Z.of_nat ENTRIES_PER_BUCKET - 1))) <$> [0; 1; 2; 3].

Fixpoint probe_slots (n : nat) (scale h ndx : Z) : list nat :=
  match n with
  | O => []
  | S n => bucket_slots ndx ++ probe_slots n scale h (get_next_ndx ndx h scale)
  end.

Definition slots (t : tbl) (k : Z) : list nat :=
  probe_slots (Z.to_nat (t_probe t)) (t_scale t) (murmur32_8b k) (s32 (Z.land (murmur32_8b k) (MASK (t_scale t)))).

(** The first of these entries that is empty or holds the key *)
Fixpoint find_slot (ents : list (Z * Z)) (sl : list nat) (k : Z) : option (nat * bool) :=
  match sl with
  | [] => None
  | i :: sl =>
      match ents !! i with
      | None => None
      | Some (k', _) =>
          if k' =? 0 then Some (i, true) else if k' =? k then Some (i, false) else find_slot ents sl k
      end
  end.

Definition find (t : tbl) (k : Z) : option (nat * bool) := find_slot (t_ents t) (slots t k) k.

(** Values: [0] (none yet), a live value, a tombstone, and the two that mark an
    entry as dead because it is copied. *)
Definition is_dead (v : Z) : bool := (v =? COPIED_VALUE) || (v =? TAGGED_TOMBSTONE).

Definition is_live (v : Z) : bool := (0 <? v) && (v <? TOMBSTONE).

(** The value of [k] in a chain *)
Fixpoint get (ts : list tbl) (k : Z) : option Z :=
  match ts with
  | [] => None
  | t :: ts =>
      match find t k with
      | None => get ts k
      | Some (_, true) => None
      | Some (i, false) =>
          match t_ents t !! i with
          | Some (_, v) => if is_dead v then get ts k else if is_live v then Some v else None
          | None => None
          end
      end
  end.

Lemma not_dead v : 0 <= v <= TOMBSTONE -> is_dead v = false.
Proof.
  unfold is_dead. change TOMBSTONE with (2 ^ 63 - 1). change COPIED_VALUE with (2 ^ 63).
  change TAGGED_TOMBSTONE with (2 ^ 64 - 1). lia.
Qed.

Lemma is_live_range v : is_live v = true -> 0 < v < TOMBSTONE.
Proof. unfold is_live. lia. Qed.

Definition has (t : tbl) (k : Z) : Prop := exists i v, t_ents t !! i = Some (k, v) /\ k <> 0.

(** A search for [k] goes on to the next table. *)
Definition passed (t : tbl) (k : Z) : Prop :=
  find t k = None \/ exists i v, find t k = Some (i, false) /\ t_ents t !! i = Some (k, v) /\ is_dead v = true.

(** The number of entries whose value satisfies [P] *)
Definition num (P : Z -> bool) (ents : list (Z * Z)) : Z := Z.of_nat (length (filter (fun e => P e.2 = true) ents)).

(** The invariant of one table *)
Record tbl_ok (t : tbl) : Prop := {
  to_scale : 4 <= t_scale t <= 27;
  to_probe : 0 < t_probe t;
  to_len : length (t_ents t) = size_of (t_scale t);
  to_vals : forall i k v, t_ents t !! i = Some (k, v) ->
    (0 <= v <= TOMBSTONE \/ is_dead v = true) /\ 0 <= k < 2 ^ 64 /\ (k = 0 -> v = 0 \/ v = COPIED_VALUE);
  to_found : forall i k v, t_ents t !! i = Some (k, v) -> k <> 0 -> find t k = Some (i, false);
  to_copied : t_copied t = num is_dead (t_ents t);
  to_count : t_count t = num is_live (t_ents t);
  to_ref : 0 < t_ref t < 2 ^ 31;
  to_scan : 0 <= t_scan t <= 2 ^ t_scale t /\ t_scan t mod 8 = 0;
  to_scanned : forall i k v, t_ents t !! i = Some (k, v) -> Z.of_nat i < t_scan t -> is_dead v = true;
}.

(** The invariant of a chain: a key of a later table is dead, or finds no room, in
    the earlier ones; nothing has been copied out of the last one. *)
Fixpoint chain_ok (ts : list tbl) : Prop :=
  match ts with
  | [] => True
  | t :: ts =>
      tbl_ok t /\ (forall t' k, t' ∈ ts -> has t' k -> passed t k) /\
      (ts = [] -> t_copied t = 0) /\ chain_ok ts
  end.

Definition with_ents (t : tbl) (ents : list (Z * Z)) : tbl :=
  Tbl (t_addr t) (t_tab t) (t_scale t) (t_probe t) ents (t_count t) (t_keys t) (t_scan t) (t_copied t) (t_ref t).

(** Sum of the counters, which [ht_count] returns *)
Definition total (ts : list tbl) : Z := foldr (fun t c => t_count t + c) 0 ts.

(** * Slots *)

Lemma u32_3 : u32 (Z.lnot (Z.of_nat ENTRIES_PER_BUCKET - 1)) = 2 ^ 32 - 4.
Proof. done. Qed.

Lemma land_not3 ndx : in_u32 ndx -> Z.land ndx (2 ^ 32 - 4) = 4 * (ndx / 4).
Proof.
  intros Hn. change (2 ^ 32 - 4) with (Z.shiftl (Z.ones 30) 2).
  apply Z.bits_inj'. intros i Hi. rewrite Z.land_spec, Z.shiftl_spec by lia.
  change 4 with (2 ^ 2). rewrite <- Z.shiftr_div_pow2, Z.mul_comm, <- Z.shiftl_mul_pow2, Z.shiftl_spec by lia.
  destruct (Z.leb_spec 2 i).
  - rewrite Z.shiftr_spec by lia. replace (i - 2 + 2) with i by lia.
    destruct (Z.ltb_spec i 32).
    + rewrite Z.ones_spec_low by lia. by rewrite andb_true_r.
    + rewrite (testbit_high ndx 32) by lia. done.
  - rewrite !(Z.testbit_neg_r _ (i - 2)) by lia. apply andb_false_r.
Qed.

Lemma bucket_bound ndx n i : (4 | n) -> 0 <= ndx < n -> n <= 2 ^ 32 -> i ∈ bucket_slots ndx -> Z.of_nat i < n.
Proof.
  intros [q ->] Hn Hm (j & -> & _)%list_elem_of_fmap. rewrite u32_3, land_not3 by lia.
  change (Z.of_nat ENTRIES_PER_BUCKET - 1) with (Z.ones 2). rewrite Z.land_ones by lia.
  pose proof (Z.mod_pos_bound (ndx + j) (2 ^ 2)). zlia.
Qed.

Lemma land_MASK x n : 0 <= n < 64 -> Z.land x (MASK n) = x mod 2 ^ n.
Proof.
  intros Hn. assert (MASK n = Z.ones n) as ->.
  { unfold MASK. rewrite Z.shiftl_1_l, u64_small; [by rewrite Z.ones_equiv, Z.sub_1_r|].
    assert (2 ^ n < 2 ^ 64) by (apply Z.pow_lt_mono_r; lia). lia. }
  apply Z.land_ones. lia.
Qed.

Lemma land_MASK_range x n : 0 <= n <= 27 -> 0 <= s32 (Z.land x (MASK n)) < 2 ^ n.
Proof.
  intros Hn. rewrite land_MASK by lia. assert (2 ^ n <= 2 ^ 27) by (apply Z.pow_le_mono_r; lia).
  pose proof (Z.mod_pos_bound x (2 ^ n)). rewrite s32_small; lia.
Qed.

Lemma slots_bound t k i : tbl_ok t -> i ∈ slots t k -> (i < length (t_ents t))%nat.
Proof.
  intros [Hs _ -> _ _ _ _ _ _]. unfold slots, size_of. set (s := t_scale t) in *.
  assert (Hp : 2 ^ s <= 2 ^ 27) by (apply Z.pow_le_mono_r; lia).
  assert (Hd : (4 | 2 ^ s)).
  { exists (2 ^ (s - 2)). change 4 with (2 ^ 2). rewrite <- Z.pow_add_r by lia. f_equal. lia. }
  generalize (Z.to_nat (t_probe t)). intros n. assert (Hx := land_MASK_range (murmur32_8b k) s ltac:(lia)). revert Hx.
  generalize (s32 (Z.land (murmur32_8b k) (MASK s))). induction n as [|n IH]; intros ndx Hx Hi; cbn [probe_slots] in Hi.
  { by apply not_elem_of_nil in Hi. }
  apply elem_of_app in Hi as [Hi|Hi].
  - apply (bucket_bound ndx (2 ^ s)) in Hi; lia || done.
  - eapply IH; [|exact Hi]. unfold get_next_ndx. apply land_MASK_range. lia.
Qed.

(** * Searching a table *)

Section find.
Implicit Types (ents : list (Z * Z)) (sl : list nat) (t : tbl).

Lemma find_slot_inv ents sl k i b :
  find_slot ents sl k = Some (i, b) ->
  i ∈ sl /\ exists k' v, ents !! i = Some (k', v) /\ (if b then k' = 0 else k' = k /\ k <> 0).
Proof.
  induction sl as [|j sl IH]; [done|]. simpl. destruct (ents !! j) as [[k' v]|] eqn:E; [|done].
  destruct (Z.eqb_spec k' 0) as [->|].
  { intros [= <- <-]. split; [left|]. by exists 0, v. }
  destruct (Z.eqb_spec k' k) as [->|].
  - intros [= <- <-]. split; [left|]. exists k, v. done.
  - intros [? ?]%IH. split; [by right|done].
Qed.

Lemma find_slot_None ents sl k i :
  find_slot ents sl k = None -> (forall j, j ∈ sl -> is_Some (ents !! j)) -> i ∈ sl ->
  exists k' v, ents !! i = Some (k', v) /\ k' <> 0 /\ k' <> k.
Proof.
  intros Hn Hs Hi. revert Hn Hs. induction Hi as [i sl|i j sl Hi IH]; simpl; intros Hn Hs.
  - destruct (ents !! i) as [[k' v]|] eqn:E; [|destruct (Hs i) as [? ?]; [left|congruence]]. exists k', v.
    destruct (Z.eqb_spec k' 0); [done|]. by destruct (Z.eqb_spec k' k).
  - destruct (ents !! j) as [[k' v]|] eqn:E; [|destruct (Hs j) as [? ?]; [left|congruence]].
    destruct (k' =? 0); [done|]. destruct (k' =? k); [done|]. apply IH; [done|]. intros ? ?. apply Hs. by right.
Qed.

(** The keys of [ents] are still there. *)
Definition extends ents ents' : Prop :=
  forall i k v, ents !! i = Some (k, v) -> k <> 0 -> exists v', ents' !! i = Some (k, v').

Lemma find_slot_extends ents ents' sl k :
  extends ents ents' -> (forall j, j ∈ sl -> is_Some (ents !! j)) ->
  match find_slot ents sl k with
  | None => find_slot ents' sl k = None
  | Some (i, false) => find_slot ents' sl k = Some (i, false)
  | Some (_, true) => True
  end.
Proof.
  intros He. induction sl as [|i sl IH]; intros Hs; [done|]. simpl.
  destruct (Hs i) as [[k' v] E]; [left|]. rewrite E. destruct (Z.eqb_spec k' 0) as [|H0]; [done|].
  destruct (He _ _ _ E H0) as [v' E']. destruct (Z.eqb_spec k' k) as [Hk|Hk].
  - rewrite E'. rewrite (proj2 (Z.eqb_neq k' 0)), (proj2 (Z.eqb_eq k' k)) by done. done.
  - assert (Hs' : forall j, j ∈ sl -> is_Some (ents !! j)) by (intros j Hj; apply Hs; by right).
    specialize (IH Hs'). destruct (find_slot ents sl k) as [[j []]|]; [done|..]; rewrite E';
      rewrite (proj2 (Z.eqb_neq k' 0)), (proj2 (Z.eqb_neq k' k)) by done; done.
Qed.

(** Only the keys matter. *)
Lemma find_slot_keys ents ents' sl k : ents.*1 = ents'.*1 -> find_slot ents sl k = find_slot ents' sl k.
Proof.
  intros E. induction sl as [|i sl IH]; [done|]. simpl. pose proof (f_equal (.!! i) E) as Ei.
  rewrite !list_lookup_fmap in Ei. destruct (ents !! i) as [[k1 v1]|], (ents' !! i) as [[k2 v2]|]; simplify_eq/=; [|done].
  by rewrite IH.
Qed.

(** Installing the key in the empty entry found for it *)
Lemma find_slot_install ents sl k e v :
  find_slot ents sl k = Some (e, true) -> k <> 0 ->
  find_slot (<[e := (k, v)]> ents) sl k = Some (e, false).
Proof.
  induction sl as [|i sl IH]; [done|]. simpl. destruct (ents !! i) as [[k' v']|] eqn:E; [|done].
  intros Hf H0. destruct (Z.eqb_spec k' 0) as [->|Hk'].
  - injection Hf as <-. rewrite list_lookup_insert_eq by (by eapply lookup_lt_Some).
    by rewrite (proj2 (Z.eqb_neq k 0)), Z.eqb_refl.
  - destruct (Z.eqb_spec k' k) as [|Hne]; [done|]. rewrite list_lookup_insert_ne, E.
    + rewrite (proj2 (Z.eqb_neq k' 0)), (proj2 (Z.eqb_neq k' k)) by done. by apply IH.
    + intros ->. apply find_slot_inv in Hf as (_ & k1 & v1 & E1 & ->). congruence.
Qed.

Lemma slots_some t k j : tbl_ok t -> j ∈ slots t k -> is_Some (t_ents t !! j).
Proof. intros Ht Hj. apply lookup_lt_is_Some. by eapply slots_bound. Qed.

Lemma find_inv t k i b :
  find t k = Some (i, b) -> exists k' v, t_ents t !! i = Some (k', v) /\ (if b then k' = 0 else k' = k /\ k <> 0).
Proof. by intros (_ & ?)%find_slot_inv. Qed.

(** A key that a search reaches an empty entry for is not in the table. *)
Lemma find_empty_absent t k i : tbl_ok t -> find t k = Some (i, true) -> ~ has t k.
Proof. intros Ht Hf (j & v & Hj & Hk). by rewrite (to_found _ Ht _ _ _ Hj Hk) in Hf. Qed.

Lemma find_None_absent t k : tbl_ok t -> find t k = None -> ~ has t k.
Proof. intros Ht Hf (j & v & Hj & Hk). by rewrite (to_found _ Ht _ _ _ Hj Hk) in Hf. Qed.

Lemma has_dec t k : tbl_ok t -> k <> 0 -> has t k \/ ~ has t k.
Proof.
  intros Ht Hk. destruct (find t k) as [[i []]|] eqn:E; [right; by eapply find_empty_absent| |right; by eapply find_None_absent].
  left. apply find_inv in E as (k' & v & Hi & -> & _). by exists i, v.
Qed.

Lemma get_absent ts k : chain_ok ts -> (forall t, t ∈ ts -> ~ has t k) -> get ts k = None.
Proof.
  induction ts as [|t ts IH]; [done|]. intros (Ht & _ & _ & Hts) Hn. simpl.
  destruct (find t k) as [[i []]|] eqn:E; [done| |].
  - exfalso. apply find_inv in E as (k' & v & Hi & -> & Hk). apply (Hn t); [left|]. by exists i, v.
  - apply IH; [done|]. intros t' Ht'. apply Hn. by right.
Qed.
End find.

(** * Changing one entry *)

Definition same_shape (t t' : tbl) : Prop := t_scale t' = t_scale t /\ t_probe t' = t_probe t.

Lemma same_shape_slots t t' k : same_shape t t' -> slots t' k = slots t k.
Proof. intros [E1 E2]. unfold slots. by rewrite E1, E2. Qed.

(** Keys stay where they are and dead entries stay dead. *)
Definition evolves (t t' : tbl) : Prop :=
  same_shape t t' /\
  forall i k v, t_ents t !! i = Some (k, v) -> k <> 0 ->
    exists v', t_ents t' !! i = Some (k, v') /\ (is_dead v = true -> is_dead v' = true).

Lemma evolves_find t t' k : tbl_ok t -> evolves t t' ->
  match find t k with
  | None => find t' k = None
  | Some (i, false) => find t' k = Some (i, false)
  | Some (_, true) => True
  end.
Proof.
  intros Ht [Hs He]. unfold find. rewrite (same_shape_slots t t') by done. apply find_slot_extends.
  - intros i k' v Hi Hk. destruct (He _ _ _ Hi Hk) as (v' & ? & _). eauto.
  - intros j Hj. by eapply slots_some.
Qed.

Lemma passed_evolves t t' k : tbl_ok t -> evolves t t' -> passed t k -> passed t' k.
Proof.
  intros Ht He. pose proof (evolves_find t t' k Ht He) as Hf. intros [E|(i & v & E & Hi & Hd)]; rewrite E in Hf.
  - by left.
  - right. pose proof E as (k' & v1 & Hi1 & -> & Hk)%find_inv. destruct He as [_ He].
    destruct (He _ _ _ Hi Hk) as (v' & Hi' & Hd'). exists i, v'. auto.
Qed.

Lemma num_insert P ents e old new :
  ents !! e = Some old -> num P (<[e := new]> ents) = num P ents - Z.b2z (P old.2) + Z.b2z (P new.2).
Proof.
  intros E. unfold num. pose proof (take_drop_middle _ _ _ E) as Hs.
  rewrite (insert_take_drop _ _ _ (lookup_lt_Some _ _ _ E)). rewrite <- Hs at 3.
  rewrite !filter_app, !filter_cons. destruct (P old.2), (P new.2);
    repeat case_decide; try done; rewrite !length_app; simpl; lia.
Qed.

Lemma num_range P t : tbl_ok t -> 0 <= num P (t_ents t) <= 2 ^ 27.
Proof.
  intros Ht. unfold num. pose proof (length_filter (fun e : Z * Z => P e.2 = true) (t_ents t)).
  rewrite (to_len _ Ht) in *. unfold size_of in *. pose proof (to_scale _ Ht).
  assert (2 ^ t_scale t <= 2 ^ 27) by (apply Z.pow_le_mono_r; lia). lia.
Qed.

(** The entry [e] of [t] becomes [(k, w)] *)
Record update (t t' : tbl) (e : nat) (k w : Z) : Prop := {
  up_place : t_addr t' = t_addr t /\ t_tab t' = t_tab t;
  up_shape : same_shape t t';
  up_scan : t_scan t' = t_scan t;
  up_ref : t_ref t' = t_ref t;
  up_ents : t_ents t' = <[e := (k, w)]> (t_ents t);
}.

Lemma update_lookup t t' e k w i :
  update t t' e k w -> (e < length (t_ents t))%nat ->
  t_ents t' !! i = if decide (i = e) then Some (k, w) else t_ents t !! i.
Proof.
  intros [_ _ _ _ ->] He. case_decide as E; [subst; by apply list_lookup_insert_eq|by apply list_lookup_insert_ne].
Qed.

(** A table stays where it is, with its size and its references, and the copy of
    it does not go back. *)
Record kept (t t' : tbl) : Prop := {
  kp_addr : t_addr t' = t_addr t;
  kp_tab : t_tab t' = t_tab t;
  kp_shape : same_shape t t';
  kp_ref : t_ref t' = t_ref t;
  kp_scan : t_scan t <= t_scan t';
}.

(** The tables of a chain are kept in their order; new ones are behind them. *)
Definition kept_chain (ts ts' : list tbl) : Prop := exists X N, ts' = X ++ N /\ Forall2 kept ts X.

#[export] Instance kept_preorder : PreOrder kept.
Proof.
  split.
  - intros t. by split.
  - intros t1 t2 t3 [A1 A2 [A3 A4] A5 A6] [B1 B2 [B3 B4] B5 B6]. split; [congruence|congruence| |congruence|lia].
    split; congruence.
Qed.

#[export] Instance kept_chain_preorder : PreOrder kept_chain.
Proof.
  split.
  - intros ts. exists ts, []. by rewrite app_nil_r.
  - intros ts1 ts2 ts3 (X1 & N1 & -> & H1) (X2 & N2 & -> & H2). apply Forall2_app_inv_l in H2 as (Y & Z & HY & HZ & ->).
    exists Y, (Z ++ N2). rewrite (assoc_L (++)). split; [done|]. by etrans.
Qed.

Lemma kept_chain_cons t t' R R' : kept t t' -> kept_chain R R' -> kept_chain (t :: R) (t' :: R').
Proof. intros Ht (X & N & -> & HX). exists (t' :: X), N. split; [done|by constructor]. Qed.

Lemma kept_chain_prefix A R R' : kept_chain R R' -> kept_chain (A ++ R) (A ++ R').
Proof. intros HR. induction A as [|a A IH]; [done|]. by apply kept_chain_cons. Qed.

Lemma kept_chain_head t R ts' : kept_chain (t :: R) ts' -> exists t' R', ts' = t' :: R' /\ kept t t' /\ kept_chain R R'.
Proof.
  intros (X & N & -> & HX). apply Forall2_cons_inv_l in HX as (t' & X' & Ht & HX & ->).
  exists t', (X' ++ N). split_and!; [done..|]. by exists X', N.
Qed.

Lemma update_kept t t' e k w : update t t' e k w -> kept t t'.
Proof. intros [[] ? ? ? _]. split; try done. lia. Qed.

(** [w] may replace [w0] as the value of an entry. *)
Definition val_step (w0 w : Z) : Prop :=
  (0 <= w <= TOMBSTONE \/ is_dead w = true) /\ (is_dead w0 = true -> is_dead w = true).

Lemma update_evolves t t' e k0 k w0 w :
  update t t' e k w -> t_ents t !! e = Some (k0, w0) -> (k0 = 0 \/ k0 = k) -> val_step w0 w -> evolves t t'.
Proof.
  intros Hu He Hk [_ Hd]. split; [apply Hu|]. intros i k' v Hi Hk'.
  rewrite (update_lookup _ _ _ _ _ _ Hu) by (by eapply lookup_lt_Some). case_decide as E; [subst i|by eauto].
  rewrite He in Hi. injection Hi as <- <-. exists w. split; [|done]. destruct Hk as [? | ->]; done.
Qed.

Lemma update_has t t' e k w k' :
  update t t' e k w -> (e < length (t_ents t))%nat -> has t' k' -> k' = k \/ has t k'.
Proof.
  intros Hu He (i & v & Hi & Hk). rewrite (update_lookup _ _ _ _ _ _ Hu) in Hi by done.
  case_decide; [left; congruence|right; by exists i, v].
Qed.

(** The two ways an entry changes: a new value for its key, or a key installed in
    the empty entry its search reached. *)
Lemma update_tbl_ok t t' e k0 k w0 w :
  tbl_ok t -> update t t' e k w -> t_ents t !! e = Some (k0, w0) ->
  k0 = k \/ (k0 = 0 /\ find t k = Some (e, true) /\ k <> 0) ->
  val_step w0 w -> 0 <= k < 2 ^ 64 -> (k = 0 -> w = 0 \/ w = COPIED_VALUE) ->
  t_copied t' = t_copied t - Z.b2z (is_dead w0) + Z.b2z (is_dead w) ->
  t_count t' = u64 (t_count t - Z.b2z (is_live w0) + Z.b2z (is_live w)) -> tbl_ok t'.
Proof.
  intros Ht Hu He Hk Hw Hkr Hk0 Hc Hct. pose proof (lookup_lt_Some _ _ _ He) as Hlt.
  pose proof (num_range is_live t Ht) as Hr.
  assert (Hev : evolves t t') by (eapply update_evolves; [done|done|naive_solver|done]).
  destruct Ht as [H1 H2 H3 H4 H5 H6 H7 H10 H8 H9] eqn:Et. destruct Hu as [Eap [Es Ep] Esc Er Ee] eqn:Eu. split.
  - by rewrite Es.
  - by rewrite Ep.
  - by rewrite Ee, length_insert, Es.
  - intros i k' v. rewrite (update_lookup _ _ _ _ _ _ Hu) by done. case_decide; [|by apply H4].
    intros [= <- <-]. destruct Hw. done.
  - intros i k' v Hi Hk'. pose proof (evolves_find t t' k' Ht Hev) as Hf.
    rewrite (update_lookup _ _ _ _ _ _ Hu) in Hi by done. case_decide as E.
    + injection Hi as -> ->. subst i. destruct Hk as [->|(-> & Hfe & _)].
      * by rewrite (H5 _ _ _ He Hk') in Hf.
      * unfold find in *. rewrite (same_shape_slots t t') by done. rewrite Ee. by apply find_slot_install.
    + by rewrite (H5 _ _ _ Hi Hk') in Hf.
  - rewrite Hc, H6, Ee. by rewrite (num_insert _ _ _ (k0, w0)).
  - rewrite Hct, H7, Ee, (num_insert _ _ _ (k0, w0)) by done. apply u64_small. simpl.
    pose proof (num_insert is_live (t_ents t) e (k0, w0) (k, w) He) as En. simpl in En. rewrite <- En.
    unfold num in *. pose proof (length_filter (fun e0 : Z * Z => is_live e0.2 = true) (<[e:=(k, w)]> (t_ents t))) as Hlf.
    rewrite length_insert, H3 in Hlf. unfold size_of in *. assert (2 ^ t_scale t <= 2 ^ 27) by (apply Z.pow_le_mono_r; lia). lia.
  - by rewrite Er.
  - by rewrite Esc, Es.
  - intros i k' v. rewrite (update_lookup _ _ _ _ _ _ Hu), Esc by done. case_decide as E; [|by apply H9].
    intros [= <- <-] Hlt'. subst i. destruct Hw as [_ Hw]. by eapply Hw, H9.
Qed.

(** * Changing a chain *)

Section chain.
Implicit Types (t n : tbl) (A B R : list tbl).

Lemma chain_ok_app A R : chain_ok (A ++ R) -> chain_ok R.
Proof. induction A as [|a A IH]; [done|]. intros (_ & _ & _ & H). by apply IH. Qed.

Lemma chain_tbl_ok A t R : chain_ok (A ++ t :: R) -> tbl_ok t.
Proof. by intros [? _]%chain_ok_app. Qed.

(** The tables [A] in front do not matter for a change behind them whose new keys
    pass them. *)
Lemma chain_ok_prefix A R R' :
  chain_ok (A ++ R) -> chain_ok R' -> R' <> [] ->
  (forall t' k', t' ∈ R' -> has t' k' -> (forall a, a ∈ A -> passed a k') \/ exists t, t ∈ R /\ has t k') ->
  chain_ok (A ++ R').
Proof.
  intros Hc HR' Hne Hk. induction A as [|a A IH]; [done|]. simpl in *. destruct Hc as (Ha & Hpa & _ & Hc).
  split; [done|]. split; [|split].
  - intros t' k' Ht' Hh. apply elem_of_app in Ht' as [Ht'|Ht'].
    + apply (Hpa t'); [|done]. apply elem_of_app. by left.
    + destruct (Hk _ _ Ht' Hh) as [Hp|(t & Ht & Hh')]; [apply Hp; left|]. apply (Hpa t); [|done].
      apply elem_of_app. by right.
  - by intros [_ ?]%app_nil.
  - apply IH; [done|]. intros t' k' Ht' Hh. destruct (Hk _ _ Ht' Hh) as [Hp|]; [left|by right].
    intros a' Ha'. apply Hp. by right.
Qed.

Lemma get_prefix A R R' k' : get R' k' = get R k' -> get (A ++ R') k' = get (A ++ R) k'.
Proof. intros E. induction A as [|a A IH]; [done|]. simpl. by rewrite IH. Qed.

Lemma get_cons_passed t R k : passed t k -> get (t :: R) k = get R k.
Proof. intros [E|(i & v & E & Hi & Hd)]; simpl; rewrite E; [done|]. by rewrite Hi, Hd. Qed.

Lemma get_passed A R k : (forall a, a ∈ A -> passed a k) -> get (A ++ R) k = get R k.
Proof.
  intros Hp. induction A as [|a A IH]; [done|]. simpl app. rewrite get_cons_passed by (apply Hp; left).
  apply IH. intros a' ?. apply Hp. by right.
Qed.

(** A key that does not pass the first table is in no later one. *)
Lemma not_passed_absent t R k : chain_ok (t :: R) -> ~ passed t k -> forall t', t' ∈ R -> ~ has t' k.
Proof. intros (_ & Hp & _) Hn t' Ht' Hh. by apply Hn, (Hp t'). Qed.

Lemma empty_not_passed t k e : find t k = Some (e, true) -> ~ passed t k.
Proof. intros E [E'|(i & v & E' & _)]; congruence. Qed.

Lemma alive_not_passed t k e v :
  find t k = Some (e, false) -> t_ents t !! e = Some (k, v) -> is_dead v = false -> ~ passed t k.
Proof. intros E He Hd [E'|(i & v' & E' & Hi & Hd')]; simplify_eq; congruence. Qed.

(** Changing an entry of the first table does not change the other keys. *)
Lemma get_update_ne t t' R R' e k0 k w0 w k' :
  chain_ok (t :: R) -> chain_ok R' -> tbl_ok t' -> update t t' e k w -> t_ents t !! e = Some (k0, w0) ->
  k0 = 0 \/ k0 = k -> val_step w0 w -> k' <> k ->
  (forall t1, t1 ∈ R' -> has t1 k' -> exists t2, t2 ∈ R /\ has t2 k') ->
  get R' k' = get R k' -> get (t' :: R') k' = get (t :: R) k'.
Proof.
  intros Hc HR' Ht' Hu He Hk0 Hw Hne Hh Eg. pose proof Hc as (Ht & Hp & _).
  pose proof (lookup_lt_Some _ _ _ He) as Hlt.
  pose proof (evolves_find t t' k' Ht (update_evolves _ _ _ _ _ _ _ Hu He Hk0 Hw)) as Hf. simpl.
  destruct (find t k') as [[i []]|] eqn:E.
  - assert (Hab : forall t1, t1 ∈ R' -> ~ has t1 k').
    { intros t1 Ht1 Hh1. destruct (Hh _ Ht1 Hh1) as (t2 & Ht2 & Hh2).
      by eapply (not_passed_absent t R k'); [done|by eapply empty_not_passed|..]. }
    destruct (find t' k') as [[j []]|] eqn:E'; [done| |by apply get_absent].
    exfalso. apply find_inv in E' as (k1 & v1 & Hj & -> & Hk'). assert (has t' k') as Hh' by (by exists j, v1).
    destruct (update_has _ _ _ _ _ _ Hu Hlt Hh') as [?|Hh2]; [done|]. by eapply find_empty_absent.
  - rewrite Hf. pose proof E as (k1 & v1 & Hi & -> & Hk')%find_inv.
    rewrite (update_lookup _ _ _ _ _ _ Hu) by done. case_decide as Ei; [|by rewrite Hi, Eg].
    exfalso. subst i. rewrite He in Hi. destruct Hk0 as [-> | ->]; simplify_eq.
  - by rewrite Hf.
Qed.

(** The first table of a chain after a change of one entry, the rest changed by at
    most the key [k] *)
Lemma chain_ok_update t t' R R' e k0 k w0 w :
  chain_ok (t :: R) -> chain_ok R' -> (R = [] <-> R' = []) -> update t t' e k w ->
  t_ents t !! e = Some (k0, w0) -> k0 = k \/ (k0 = 0 /\ find t k = Some (e, true) /\ k <> 0) ->
  val_step w0 w -> 0 <= k < 2 ^ 64 -> (k = 0 -> w = 0 \/ w = COPIED_VALUE) ->
  t_copied t' = t_copied t - Z.b2z (is_dead w0) + Z.b2z (is_dead w) ->
  t_count t' = u64 (t_count t - Z.b2z (is_live w0) + Z.b2z (is_live w)) ->
  (R = [] -> is_dead w = false) ->
  (forall t1 k', t1 ∈ R' -> has t1 k' -> (k' = k /\ is_dead w = true) \/ exists t2, t2 ∈ R /\ has t2 k') ->
  chain_ok (t' :: R').
Proof.
  intros Hc HR' Hnil Hu He Hk Hw Hkr Hk0 Hcp Hct Hlast Hh. pose proof Hc as (Ht & Hp & Hl & _).
  assert (Ht' : tbl_ok t') by (by eapply update_tbl_ok).
  assert (Hev : evolves t t') by (eapply update_evolves; [done|done|naive_solver|done]).
  pose proof (lookup_lt_Some _ _ _ He) as Hlt. split; [done|]. split; [|split; [|done]].
  - intros t1 k' Ht1 Hh1. destruct (Hh _ _ Ht1 Hh1) as [[-> Hd]|(t2 & Ht2 & Hh2)].
    + right. assert (Hk1 : k <> 0) by (destruct Hh1 as (? & ? & _ & ?); done).
      assert (Hi : t_ents t' !! e = Some (k, w)) by (rewrite (update_lookup _ _ _ _ _ _ Hu) by done; by rewrite decide_True).
      exists e, w. split_and!; [|done|done]. by apply (to_found _ Ht' _ _ w).
    + eapply (passed_evolves t); [done..|]. by apply (Hp t2).
  - intros HR0%Hnil. rewrite Hcp, (Hl HR0), (Hlast HR0).
    destruct (is_dead w0) eqn:Ed; [|done]. destruct Hw as [_ Hw]. rewrite (Hw Ed) in Hlast. by specialize (Hlast HR0).
Qed.
End chain.

(** * Steps of a chain

    The chain [ts] becomes [ts'], in which the key [k] has the value [g] and every
    other key the value it had; the counters grow by [d]. *)
Record chain_step (k : Z) (ts ts' : list tbl) (g : option Z) (d : Z) : Prop := {
  cs_ok : chain_ok ts';
  cs_ne : ts' <> [];
  cs_get : get ts' k = g;
  cs_others : forall k', k' <> k -> get ts' k' = get ts k';
  cs_keys : forall t' k', t' ∈ ts' -> has t' k' -> k' = k \/ exists t, t ∈ ts /\ has t k';
  cs_total : total ts' = total ts + d;
  cs_kept : kept_chain ts ts';
}.

Lemma total_app A R : total (A ++ R) = total A + total R.
Proof. induction A as [|a A IH]; simpl; [done|]. unfold total in *. simpl. lia. Qed.

Section steps.
Implicit Types (t n : tbl) (A B R : list tbl).

Lemma chain_step_refl k ts : chain_ok ts -> ts <> [] -> chain_step k ts ts (get ts k) 0.
Proof. intros. split; try done; [by eauto|lia]. Qed.

Lemma chain_step_trans k ts1 ts2 ts3 g2 g3 d1 d2 :
  chain_step k ts1 ts2 g2 d1 -> chain_step k ts2 ts3 g3 d2 -> chain_step k ts1 ts3 g3 (d1 + d2).
Proof.
  intros [A1 A2 A3 A4 A5 A6 A7] [B1 B2 B3 B4 B5 B6 B7]. split; try done; [|..|by etrans].
  - intros k' Hk. by rewrite B4, A4.
  - intros t' k' Ht' Hh. destruct (B5 _ _ Ht' Hh) as [->|(t & Ht & Hh')]; [by left|]. by eapply A5.
  - lia.
Qed.

Lemma chain_step_prefix A k R R' g d :
  chain_ok (A ++ R) -> chain_step k R R' g d -> (forall a, a ∈ A -> passed a k) ->
  chain_step k (A ++ R) (A ++ R') g d.
Proof.
  intros Hc [S1 S2 S3 S4 S5 S6 S7] Hp. split; [..|by apply kept_chain_prefix].
  - apply (chain_ok_prefix A R R'); try done. intros t' k' Ht' Hh. destruct (S5 _ _ Ht' Hh) as [->|]; auto.
  - by intros [_ ?]%app_nil.
  - by rewrite get_passed.
  - intros k' Hk. by apply get_prefix, S4.
  - intros t' k' [Ht'|Ht']%elem_of_app Hh.
    + right. exists t'. split; [|done]. apply elem_of_app. by left.
    + destruct (S5 _ _ Ht' Hh) as [->|(t & Ht & Hh')]; [by left|right]. exists t. split; [|done].
      apply elem_of_app. by right.
  - rewrite !total_app. lia.
Qed.

(** One entry of the first table changes, and the rest by at most the key. *)
Lemma chain_step_update t t' R R' e k0 k w0 w g d :
  chain_ok (t :: R) -> chain_ok (t' :: R') -> update t t' e k w -> t_ents t !! e = Some (k0, w0) ->
  k0 = 0 \/ k0 = k -> val_step w0 w -> (forall k', k' <> k -> get R' k' = get R k') ->
  (forall t1 k', t1 ∈ R' -> has t1 k' -> k' = k \/ exists t2, t2 ∈ R /\ has t2 k') ->
  get (t' :: R') k = g -> total (t' :: R') = total (t :: R) + d -> kept_chain R R' ->
  chain_step k (t :: R) (t' :: R') g d.
Proof.
  intros Hc Hc' Hu He Hk0 Hw Hg Hh Hgk Htot HRR. pose proof (lookup_lt_Some _ _ _ He) as Hlt.
  pose proof Hc' as (Ht' & _ & _ & HR'). split; try done; [|..|by apply kept_chain_cons; [eapply update_kept|]].
  - intros k' Hne. eapply (get_update_ne t t' R R' e k0 k w0 w); try done; [|by apply Hg].
    intros t1 Ht1 Hh1. by destruct (Hh _ _ Ht1 Hh1).
  - intros t1 k' [->|Ht1]%elem_of_cons Hh1.
    + destruct (update_has _ _ _ _ _ _ Hu Hlt Hh1) as [->|]; [by left|right]. exists t. split; [left|done].
    + destruct (Hh _ _ Ht1 Hh1) as [->|(t2 & Ht2 & Hh2)]; [by left|right]. exists t2. split; [by right|done].
Qed.

(** The counter of a table that has changed *)
Lemma count_change t t' e k0 k w0 w :
  tbl_ok t -> tbl_ok t' -> update t t' e k w -> t_ents t !! e = Some (k0, w0) ->
  t_count t' = t_count t - Z.b2z (is_live w0) + Z.b2z (is_live w).
Proof.
  intros Ht Ht' Hu He. rewrite (to_count _ Ht), (to_count _ Ht'), (up_ents _ _ _ _ _ Hu).
  by rewrite (num_insert _ _ _ (k0, w0)).
Qed.

Lemma count_u64 t : tbl_ok t -> u64 (t_count t) = t_count t.
Proof. intros Ht. apply u64_small. rewrite (to_count _ Ht). pose proof (num_range is_live t Ht). lia. Qed.

Lemma total_cons t t' R d : t_count t' = t_count t + d -> total (t' :: R) = total (t :: R) + d.
Proof. unfold total. simpl. lia. Qed.

Lemma update_entry t t' e k w w0 k0 :
  update t t' e k w -> t_ents t !! e = Some (k0, w0) -> t_ents t' !! e = Some (k, w).
Proof.
  intros Hu He. rewrite (update_lookup _ _ _ _ _ _ Hu) by (by eapply lookup_lt_Some). by rewrite decide_True.
Qed.

(** A new key in an entry that is alive *)
Lemma step_put t t' R e k v :
  chain_ok (t :: R) -> find t k = Some (e, true) -> t_ents t !! e = Some (0, 0) ->
  update t t' e k v -> is_live v = true -> 0 < k < 2 ^ 64 ->
  t_copied t' = t_copied t -> t_count t' = u64 (t_count t + 1) ->
  chain_step k (t :: R) (t' :: R) (Some v) 1.
Proof.
  intros Hc Hf He Hu Hv Hk Hcp Hct. pose proof Hc as (Ht & _ & _ & HR).
  pose proof (is_live_range v Hv) as Hlv. assert (Hd : is_dead v = false) by (apply not_dead; lia).
  assert (Hw : val_step 0 v) by (split; [left; lia|done]).
  assert (Hok : chain_ok (t' :: R)).
  { eapply chain_ok_update; try done; [right; split_and!; done || lia|lia|lia|..|by eauto].
    - rewrite Hcp, Hd. simpl. lia.
    - rewrite Hct, Hv. f_equal. simpl. lia. }
  pose proof Hok as [Ht' _]. pose proof (update_entry _ _ _ _ _ _ _ Hu He) as Hi.
  eapply chain_step_update; try done; [by left|by eauto|..].
  - simpl. rewrite (to_found _ Ht' _ _ _ Hi) by lia. by rewrite Hi, Hd, Hv.
  - apply total_cons. rewrite (count_change t t' e 0 k 0 v), Hv by done. simpl. lia.
Qed.

(** A new key in an entry that is dead *)
Lemma step_put_dead t t' R e k :
  chain_ok (t :: R) -> R <> [] -> find t k = Some (e, true) -> t_ents t !! e = Some (0, COPIED_VALUE) ->
  update t t' e k COPIED_VALUE -> 0 < k < 2 ^ 64 ->
  t_copied t' = t_copied t -> t_count t' = t_count t ->
  chain_step k (t :: R) (t' :: R) None 0 /\ passed t' k /\ get R k = None.
Proof.
  intros Hc HR0 Hf He Hu Hk Hcp Hct. pose proof Hc as (Ht & _ & _ & HR).
  assert (Hab : get R k = None).
  { apply get_absent; [done|]. by eapply not_passed_absent; [|eapply empty_not_passed]. }
  assert (Hw : val_step COPIED_VALUE COPIED_VALUE) by (split; [by right|done]).
  assert (Hok : chain_ok (t' :: R)).
  { eapply chain_ok_update; try done; [right; split_and!; done || lia|lia|lia|..|by eauto].
    - rewrite Hcp. lia.
    - rewrite Hct, Z.sub_add. by rewrite count_u64. }
  pose proof Hok as [Ht' _]. pose proof (update_entry _ _ _ _ _ _ _ Hu He) as Hi.
  assert (Hp : passed t' k).
  { right. exists e, COPIED_VALUE. split_and!; try done. apply (to_found _ Ht' _ _ COPIED_VALUE); [done|lia]. }
  split_and!; [|done|done].
  eapply chain_step_update; try done; [by left|by eauto|by rewrite get_cons_passed|apply total_cons; lia].
Qed.

(** A new value, or a tombstone, for a key of an entry that is alive *)
Lemma step_set t t' R e k v w :
  chain_ok (t :: R) -> t_ents t !! e = Some (k, v) -> k <> 0 -> is_dead v = false ->
  update t t' e k w -> 0 <= w <= TOMBSTONE ->
  t_copied t' = t_copied t -> t_count t' = u64 (t_count t - Z.b2z (is_live v) + Z.b2z (is_live w)) ->
  chain_step k (t :: R) (t' :: R) (if is_live w then Some w else None) (Z.b2z (is_live w) - Z.b2z (is_live v)).
Proof.
  intros Hc He Hk Hdv Hu Hwr Hcp Hct. pose proof Hc as (Ht & _ & _ & HR).
  assert (Hd : is_dead w = false) by (by apply not_dead).
  assert (Hw : val_step v w) by (split; [by left|by rewrite Hdv]).
  destruct (to_vals _ Ht _ _ _ He) as (_ & Hkr & _).
  assert (Hok : chain_ok (t' :: R)).
  { eapply chain_ok_update; try done; [by left| |by eauto]. rewrite Hcp, Hd, Hdv. simpl. lia. }
  pose proof Hok as [Ht' _]. pose proof (update_entry _ _ _ _ _ _ _ Hu He) as Hi.
  eapply chain_step_update; try done; [by right|by eauto|..].
  - simpl. rewrite (to_found _ Ht' _ _ _ Hi) by lia. by rewrite Hi, Hd.
  - apply total_cons. rewrite (count_change t t' e k k v w) by done. lia.
Qed.

(** An entry without a live value dies: its key, if it has one, has no value
    anywhere. *)
Lemma step_kill t t' R e k v w :
  chain_ok (t :: R) -> R <> [] -> t_ents t !! e = Some (k, v) ->
  (v = 0 /\ w = COPIED_VALUE) \/ (v = TOMBSTONE /\ w = TAGGED_TOMBSTONE) ->
  update t t' e k w -> t_copied t' = t_copied t + 1 -> t_count t' = t_count t ->
  chain_step k (t :: R) (t' :: R) (get (t :: R) k) 0.
Proof.
  intros Hc HR0 He Hvw Hu Hcp Hct. pose proof Hc as (Ht & _ & _ & HR).
  assert (is_dead v = false /\ is_live v = false /\ is_dead w = true /\ is_live w = false /\ (k = 0 -> w = COPIED_VALUE))
    as (Hdv & Hlv & Hdw & Hlw & Hk0).
  { destruct (to_vals _ Ht _ _ _ He) as (_ & _ & H0). destruct Hvw as [[-> ->]|[-> ->]]; split_and!; try done.
    intros Ek. by destruct (H0 Ek). }
  assert (Hw : val_step v w) by (split; [by right|done]).
  destruct (to_vals _ Ht _ _ _ He) as (_ & Hkr & _).
  assert (Hok : chain_ok (t' :: R)).
  { eapply chain_ok_update; try done; [by left|auto|..|by eauto].
    - rewrite Hcp, Hdv, Hdw. simpl. lia.
    - rewrite Hct, Hlv, Hlw, Z.sub_add. by rewrite count_u64. }
  pose proof Hok as [Ht' _]. pose proof (update_entry _ _ _ _ _ _ _ Hu He) as Hi.
  eapply chain_step_update; try done; [by right|by eauto| |apply total_cons; lia].
  destruct (decide (k = 0)) as [->|Hk].
  - assert (find t' 0 = find t 0) as Ef.
    { unfold find. rewrite (same_shape_slots t t') by apply Hu. apply find_slot_keys. rewrite (up_ents _ _ _ _ _ Hu).
      rewrite list_fmap_insert. simpl. apply list_insert_id. by rewrite list_lookup_fmap, He. }
    simpl. rewrite Ef. destruct (find t 0) as [[i []]|] eqn:E; [done| |done].
    by apply find_inv in E as (? & ? & _ & _ & ?).
  - pose proof (to_found _ Ht _ _ _ He Hk) as Ef. pose proof (to_found _ Ht' _ _ _ Hi Hk) as Ef'.
    simpl. rewrite Ef, Ef', He, Hi, Hdv, Hdw, Hlv. apply get_absent; [done|].
    apply (not_passed_absent t R k Hc). by apply (alive_not_passed t k e v).
Qed.

(** A live entry is copied: its key and value are put in a later table. *)
Lemma step_copy t t' R R' e k v :
  chain_ok (t :: R) -> t_ents t !! e = Some (k, v) -> k <> 0 -> is_live v = true -> R <> [] ->
  chain_step k R R' (Some v) 1 -> update t t' e k COPIED_VALUE ->
  t_copied t' = t_copied t + 1 -> t_count t' = u64 (t_count t - 1) ->
  chain_step k (t :: R) (t' :: R') (get (t :: R) k) 0.
Proof.
  intros Hc He Hk Hv HR0 [S1 S2 S3 S4 S5 S6 S7] Hu Hcp Hct. pose proof Hc as (Ht & _ & _ & HR).
  pose proof (is_live_range v Hv) as Hlv. assert (Hd : is_dead v = false) by (apply not_dead; lia).
  assert (Hw : val_step v COPIED_VALUE) by (split; [by right|done]).
  destruct (to_vals _ Ht _ _ _ He) as (_ & Hkr & _).
  assert (Hok : chain_ok (t' :: R')).
  { eapply (chain_ok_update t t' R R'); try done; [by left|rewrite Hcp, Hd; simpl; lia|..].
    - rewrite Hct, Hv. f_equal. simpl. lia.
    - intros t1 k' Ht1 Hh. destruct (S5 _ _ Ht1 Hh); auto. }
  pose proof Hok as [Ht' _]. pose proof (update_entry _ _ _ _ _ _ _ Hu He) as Hi.
  eapply chain_step_update; try done; [by right|..].
  - simpl. rewrite (to_found _ Ht _ _ _ He Hk), (to_found _ Ht' _ _ _ Hi Hk), He, Hi, Hd, Hv. simpl. by rewrite S3.
  - change (t_count t' + total R' = t_count t + total R + 0). rewrite (count_change t t' e k k v COPIED_VALUE), Hv by done.
    rewrite S6. simpl. lia.
Qed.
End steps.

(** * Growth and release *)

(** A table as [hti_alloc] leaves it *)
Record new_tbl (t : tbl) : Prop := {
  nt_scale : 4 <= t_scale t <= 27;
  nt_probe : 0 < t_probe t;
  nt_ents : t_ents t = replicate (size_of (t_scale t)) (0, 0);
  nt_count : t_count t = 0;
  nt_copied : t_copied t = 0;
  nt_scan : t_scan t = 0;
  nt_ref : t_ref t = 1;
}.

Lemma new_has t k : new_tbl t -> ~ has t k.
Proof. intros Hn (i & v & Hi & Hk). rewrite (nt_ents _ Hn) in Hi. apply lookup_replicate in Hi as [[= ->] _]. done. Qed.

Lemma num_replicate P n : P 0 = false -> num P (replicate n (0, 0)) = 0.
Proof.
  intros HP. unfold num. induction n as [|n IH]; [done|]. simpl. rewrite filter_cons, decide_False; [done|].
  simpl. by rewrite HP.
Qed.

Lemma new_tbl_ok t : new_tbl t -> tbl_ok t.
Proof.
  intros Hn. destruct Hn as [H1 H2 H3 H4 H5 H6 H7] eqn:En. split; try done.
  - by rewrite H3, length_replicate.
  - intros i k v Hi. rewrite H3 in Hi. apply lookup_replicate in Hi as [[= -> ->] _].
    split_and!; [left|lia..|by left]. change TOMBSTONE with (2 ^ 63 - 1). lia.
  - intros i k v Hi Hk. exfalso. apply (new_has t k Hn). by exists i, v.
  - by rewrite H5, H3, num_replicate.
  - by rewrite H4, H3, num_replicate.
  - by rewrite H7.
  - rewrite H6. split; [|done]. split; [done|]. apply Z.pow_nonneg. lia.
  - intros i k v _ Hlt. lia.
Qed.

(** A new table has room for every key. *)
Lemma new_find t k : new_tbl t -> exists e, find t k = Some (e, true) /\ t_ents t !! e = Some (0, 0).
Proof.
  intros Hn. pose proof (new_tbl_ok t Hn) as Ht. pose proof (slots_bound t k) as Hb. unfold find.
  destruct (slots t k) as [|e sl] eqn:E.
  - exfalso. unfold slots in E. pose proof (nt_probe _ Hn) as Hp.
    destruct (Z.to_nat (t_probe t)) as [|n] eqn:En; [lia|]. done.
  - assert (Hl : t_ents t !! e = Some (0, 0)).
    { rewrite (nt_ents _ Hn). apply lookup_replicate. split; [done|]. rewrite <- (to_len _ Ht). apply Hb; [done|left]. }
    exists e. cbn [find_slot]. by rewrite Hl.
Qed.

Lemma chain_grow ts n k :
  chain_ok ts -> ts <> [] -> new_tbl n -> chain_step k ts (ts ++ [n]) (get ts k) 0.
Proof.
  intros Hc Hne Hn.
  assert (Hg : forall k', get [n] k' = None).
  { intros k'. destruct (new_find n k' Hn) as (e & E & _). simpl. by rewrite E. }
  assert (Hget : forall k', get (ts ++ [n]) k' = get ts k').
  { intros k'. rewrite <- (app_nil_r ts) at 2. apply get_prefix. by rewrite Hg. }
  split; try done; [..|by exists ts, [n]].
  - clear Hget. induction ts as [|t ts IH]; [done|]. destruct Hc as (Ht & Hp & Hl & Hc). simpl. split; [done|]. split; [|split].
    + intros t' k' [Ht'| ->%list_elem_of_singleton]%elem_of_app Hh; [by apply (Hp t')|]. by apply new_has in Hh.
    + by intros [_ ?]%app_nil.
    + destruct ts as [|t2 ts]; [|by apply IH]. simpl. split_and!; try done; [by apply new_tbl_ok|..].
      * by intros t' k' ?%not_elem_of_nil.
      * intros _. apply Hn.
  - by intros [_ ?]%app_nil.
  - intros t' k' [Ht'| ->%list_elem_of_singleton]%elem_of_app Hh; [by eauto|]. by apply new_has in Hh.
  - rewrite total_app. unfold total at 2. simpl. rewrite (nt_count _ Hn). lia.
Qed.

Lemma num_all P (ents : list (Z * Z)) i k v :
  num P ents = Z.of_nat (length ents) -> ents !! i = Some (k, v) -> P v = true.
Proof.
  intros Hn Hi.
  destruct (P v) eqn:E; [done|exfalso]. pose proof (take_drop_middle _ _ _ Hi) as Hs. unfold num in Hn.
  rewrite <- Hs in Hn. rewrite filter_app, filter_cons, decide_False in Hn by (simpl; by rewrite E).
  rewrite !length_app in Hn. simpl in Hn.
  pose proof (length_filter (fun e : Z * Z => P e.2 = true) (take i ents)).
  pose proof (length_filter (fun e : Z * Z => P e.2 = true) (drop (S i) ents)). lia.
Qed.

Lemma num_none P (ents : list (Z * Z)) :
  (forall i k v, ents !! i = Some (k, v) -> P v = false) -> num P ents = 0.
Proof.
  intros H. unfold num. induction ents as [|[k v] ents IH]; [done|]. rewrite filter_cons, decide_False.
  - apply IH. intros i. apply (H (S i)).
  - simpl. by rewrite (H 0%nat k v).
Qed.

Lemma num_full P (ents : list (Z * Z)) :
  (forall i k v, ents !! i = Some (k, v) -> P v = true) -> num P ents = Z.of_nat (length ents).
Proof.
  intros H. unfold num. induction ents as [|[k v] ents IH]; [done|]. rewrite filter_cons, decide_True.
  - simpl. rewrite !Nat2Z.inj_succ. f_equal. apply IH. intros i. apply (H (S i)).
  - simpl. by apply (H 0%nat k).
Qed.

(** A table all of whose entries are dead can be unlinked. *)
Lemma chain_drop t R k :
  chain_ok (t :: R) -> t_copied t = 2 ^ t_scale t ->
  R <> [] /\ chain_ok R /\ get R k = get (t :: R) k /\ total R = total (t :: R).
Proof.
  intros Hc Hcp. pose proof Hc as (Ht & Hp & Hl & HR).
  assert (Hdead : forall i k v, t_ents t !! i = Some (k, v) -> is_dead v = true).
  { intros i k' v. apply num_all. rewrite <- (to_copied _ Ht), Hcp, (to_len _ Ht). unfold size_of.
    rewrite Z2Nat.id; [done|]. apply Z.pow_nonneg. lia. }
  assert (HR0 : R <> []).
  { intros ->. rewrite (Hl eq_refl) in Hcp. assert (0 < 2 ^ t_scale t); [|lia]. apply Z.pow_pos_nonneg; [lia|].
    pose proof (to_scale _ Ht). lia. }
  split_and!; try done.
  - simpl. destruct (find t k) as [[i []]|] eqn:E; [| |done].
    + apply get_absent; [done|]. eapply not_passed_absent; [done|]. by eapply empty_not_passed.
    + apply find_inv in E as (k1 & v & Hi & -> & _). by rewrite Hi, (Hdead _ _ _ Hi).
  - change (total R = t_count t + total R). rewrite (to_count _ Ht), num_none; [done|].
    intros i k' v Hi. specialize (Hdead _ _ _ Hi). unfold is_dead in Hdead. unfold is_live.
    change TOMBSTONE with (2 ^ 63 - 1). change COPIED_VALUE with (2 ^ 63) in Hdead. change TAGGED_TOMBSTONE with (2 ^ 64 - 1) in Hdead.
    lia.
Qed.

(** The map a chain stands for *)
Record chain_map (M : gmap Z Z) (ts : list tbl) : Prop := {
  cm_ok : chain_ok ts;
  cm_ne : ts <> [];
  cm_get : forall k, M !! k = get ts k;
  cm_total : total ts = Z.of_nat (size M);
}.

Lemma chain_map_step M ts ts' k g d :
  chain_map M ts -> chain_step k ts ts' g d ->
  d = Z.b2z (bool_decide (is_Some g)) - Z.b2z (bool_decide (is_Some (M !! k))) ->
  chain_map (partial_alter (fun _ => g) k M) ts'.
Proof.
  intros [M1 M2 M3 M4] [S1 S2 S3 S4 S5 S6 _] ->. split; try done.
  - intros k'. destruct (decide (k' = k)) as [->|Hne].
    + by rewrite lookup_partial_alter_eq.
    + rewrite lookup_partial_alter_ne by done. by rewrite S4.
  - rewrite S6, M4. destruct g as [v|].
    + rewrite bool_decide_true by done. change (partial_alter _ k M) with (<[k := v]> M).
      destruct (M !! k) as [v0|] eqn:E.
      * rewrite bool_decide_true by done. rewrite map_size_insert_Some by done. simpl. lia.
      * rewrite bool_decide_false by (by intros []). rewrite map_size_insert_None by done. simpl. lia.
    + rewrite (bool_decide_false (is_Some None)) by (by intros []). change (partial_alter _ k M) with (delete k M).
      destruct (M !! k) as [v0|] eqn:E.
      * rewrite bool_decide_true by done. rewrite map_size_delete_Some by done.
        assert (size M <> 0)%nat by (intros E0%map_size_empty_inv; by rewrite E0 in E).
        simpl. lia.
      * rewrite bool_decide_false by (by intros []). rewrite delete_id by done. simpl. lia.
Qed.

(** A step that changes no value and adds no key *)
Record chain_same (ts ts' : list tbl) : Prop := {
  sm_ok : chain_ok ts';
  sm_ne : ts' <> [];
  sm_get : forall k, get ts' k = get ts k;
  sm_keys : forall t' k', t' ∈ ts' -> has t' k' -> exists t, t ∈ ts /\ has t k';
  sm_total : total ts' = total ts;
  sm_kept : kept_chain ts ts';
}.

Lemma chain_same_refl ts : chain_ok ts -> ts <> [] -> chain_same ts ts.
Proof. intros. split; by eauto. Qed.

Lemma chain_same_trans ts1 ts2 ts3 : chain_same ts1 ts2 -> chain_same ts2 ts3 -> chain_same ts1 ts3.
Proof.
  intros [A1 A2 A3 A4 A5 A6] [B1 B2 B3 B4 B5 B6]. split; try done; [|..|congruence|by etrans].
  - intros k. by rewrite B3.
  - intros t' k' Ht' Hh. destruct (B4 _ _ Ht' Hh) as (t & Ht & Hh'). by eapply A4.
Qed.

Lemma chain_step_same k ts ts' :
  chain_step k ts ts' (get ts k) 0 -> k = 0 \/ (exists t, t ∈ ts /\ has t k) -> chain_same ts ts'.
Proof.
  intros [S1 S2 S3 S4 S5 S6 S7] Hk. split; try done; [|..|lia].
  - intros k'. destruct (decide (k' = k)) as [->|]; auto.
  - intros t' k' Ht' Hh. destruct (S5 _ _ Ht' Hh) as [->|]; [|done]. destruct Hk as [->|]; [|done].
    by destruct Hh as (? & ? & _ & ?).
Qed.

Lemma chain_same_prefix A R R' : chain_ok (A ++ R) -> chain_same R R' -> chain_same (A ++ R) (A ++ R').
Proof.
  intros Hc [S1 S2 S3 S4 S5 S6]. split; [..|by apply kept_chain_prefix].
  - apply (chain_ok_prefix A R R'); try done. intros t' k' Ht' Hh. right. by eapply S4.
  - by intros [_ ?]%app_nil.
  - intros k. by apply get_prefix.
  - intros t' k' [Ht'|Ht']%elem_of_app Hh; [exists t'|destruct (S4 _ _ Ht' Hh) as (t & Ht & Hh'); exists t];
      (split; [|done]); apply elem_of_app; auto.
  - rewrite !total_app. lia.
Qed.

Lemma chain_map_same M ts ts' : chain_map M ts -> chain_same ts ts' -> chain_map M ts'.
Proof.
  intros [M1 M2 M3 M4] [S1 S2 S3 S4 S5 _]. split; try done; [|lia]. intros k'. by rewrite M3, S3.
Qed.

(** Unlinking a table all of whose entries are dead *)
Lemma chain_map_drop M t R : chain_map M (t :: R) -> t_copied t = 2 ^ t_scale t -> chain_map M R.
Proof.
  intros [M1 M2 M3 M4] Hcp. destruct (chain_drop t R 0 M1 Hcp) as (HR & Hc & _ & Ht). split; try done; [|congruence].
  intros k. destruct (chain_drop t R k M1 Hcp) as (_ & _ & Hg & _). by rewrite M3.
Qed.

(** The values of a chain are live. *)
Lemma get_live ts k v : get ts k = Some v -> is_live v = true.
Proof.
  induction ts as [|t ts IH]; [done|]. simpl. destruct (find t k) as [[i []]|]; [done| |done].
  destruct (t_ents t !! i) as [[k' v']|]; [|done]. destruct (is_dead v'); [done|].
  destruct (is_live v') eqn:E; [|done]. by intros [= <-].
Qed.
