(* ===== verification/HashtableProof.v ===== *)
(** The hash table of integer keys refines a finite map: the programs of
    [Hashtable] on the chains of [HashChain]. *)
From S2P Require Import Prelude Random Machine Datatype MapSpec SkipNodes Hashtable HashChain.

(** * Tables in memory *)

Definition hti_words (parent next : Z) (t : tbl) : list Z :=
  [t_tab t; parent; next; t_count t; t_keys t; t_scan t; t_copied t; t_probe t; t_ref t; t_scale t].

Fixpoint flat (ents : list (Z * Z)) : list Z :=
  match ents with [] => [] | (k, v) :: ents => k :: v :: flat ents end.

Definition next_of (ts : list tbl) : Z := match ts with [] => 0 | t :: _ => t_addr t end.

Fixpoint chain_at (h : heap_t) (parent : Z) (ts : list tbl) : Prop :=
  match ts with
  | [] => True
  | t :: R =>
      h !! t_addr t = Some (hti_words parent (next_of R) t) /\
      h !! t_tab t = Some (flat (t_ents t)) /\ chain_at h parent R
  end.

Definition addrs (ts : list tbl) : list Z := concat ((fun t => [t_addr t; t_tab t]) <$> ts).

(** The hash table [ht] of integer keys is the chain [ts] in memory [m]; its first
    [dr] tables are copied and unlinked, and only a call that began before that
    still uses them. *)
Record ht_rep_at (dr : nat) (m : mem) (ht : hashtable_t) (ts : list tbl) : Prop := {
  hr_int : ht_key_type ht = None;
  hr_linked : (dr < length ts)%nat;
  hr_struct : exists k c d p, heap m !! ht_addr ht = Some [next_of (drop dr ts); k; c; d; p];
  hr_chain : chain_at (heap m) (ht_addr ht) ts;
  hr_nodup : NoDup (ht_addr ht :: addrs ts);
  hr_ptr : Forall (fun t => t_addr t <> 0) ts;
}.
Arguments hr_int {dr} _ _ _ _.
Arguments hr_linked {dr} _ _ _ _.
Arguments hr_struct {dr} _ _ _ _.
Arguments hr_chain {dr} _ _ _ _.
Arguments hr_nodup {dr} _ _ _ _.
Arguments hr_ptr {dr} _ _ _ _.

Lemma flat_length ents : length (flat ents) = (2 * length ents)%nat.
Proof. induction ents as [|[k v] ents IH]; [done|]. simpl. rewrite IH. lia. Qed.

Lemma flat_lookup ents e k v :
  ents !! e = Some (k, v) -> flat ents !! ENT_KEY e = Some k /\ flat ents !! ENT_VAL e = Some v.
Proof.
  unfold ENT_KEY, ENT_VAL. revert e. induction ents as [|[k' v'] ents IH]; intros [|e] E; try done.
  - by injection E as -> ->.
  - apply IH in E as [E1 E2]. replace (2 * S e)%nat with (S (S (2 * e))) by lia. done.
Qed.

Lemma flat_insert_key ents e k v k' :
  ents !! e = Some (k, v) -> <[ENT_KEY e := k']> (flat ents) = flat (<[e := (k', v)]> ents).
Proof.
  unfold ENT_KEY. revert e. induction ents as [|[k0 v0] ents IH]; intros [|e] E; try done.
  - by injection E as -> ->.
  - apply IH in E. replace (2 * S e)%nat with (S (S (2 * e))) by lia.
    change (k0 :: v0 :: <[(2 * e)%nat := k']> (flat ents) = flat ((k0, v0) :: <[e := (k', v)]> ents)). by rewrite E.
Qed.

Lemma flat_insert_val ents e k v v' :
  ents !! e = Some (k, v) -> <[ENT_VAL e := v']> (flat ents) = flat (<[e := (k, v')]> ents).
Proof.
  unfold ENT_VAL. revert e. induction ents as [|[k0 v0] ents IH]; intros [|e] E; try done.
  - by injection E as -> ->.
  - apply IH in E. replace (2 * S e + 1)%nat with (S (S (2 * e + 1))) by lia.
    change (k0 :: v0 :: <[(2 * e + 1)%nat := v']> (flat ents) = flat ((k0, v0) :: <[e := (k, v')]> ents)). by rewrite E.
Qed.

Lemma flat_replicate n : flat (replicate n (0, 0)) = replicate (2 * n) 0.
Proof. induction n as [|n IH]; [done|]. replace (2 * S n)%nat with (S (S (2 * n))) by lia. cbn [replicate flat]. by rewrite IH. Qed.

Lemma addrs_app A B : addrs (A ++ B) = addrs A ++ addrs B.
Proof. unfold addrs. by rewrite fmap_app, concat_app. Qed.

Lemma addrs_cons t R : addrs (t :: R) = t_addr t :: t_tab t :: addrs R.
Proof. done. Qed.

Lemma chain_at_app h p A t B :
  chain_at h p (A ++ t :: B) -> h !! t_addr t = Some (hti_words p (next_of B) t) /\ h !! t_tab t = Some (flat (t_ents t)).
Proof. induction A as [|a A IH]; [by intros (? & ? & _)|]. intros (_ & _ & H). by apply IH. Qed.

Lemma chain_at_fresh h p ts a b : a ∉ addrs ts -> chain_at h p ts -> chain_at (<[a := b]> h) p ts.
Proof.
  induction ts as [|t ts IH]; [done|]. rewrite addrs_cons. intros Ha (H1 & H2 & H3).
  apply not_elem_of_cons in Ha as [Ha1 Ha]. apply not_elem_of_cons in Ha as [Ha2 Ha].
  simpl. rewrite !lookup_insert_ne by congruence. auto.
Qed.

(** [t'] in the place of [t]: one of its two blocks has changed. *)
Lemma chain_at_replace h p A t t' B a b :
  chain_at h p (A ++ t :: B) -> NoDup (addrs (A ++ t :: B)) -> t_addr t' = t_addr t -> t_tab t' = t_tab t ->
  (a = t_addr t /\ b = hti_words p (next_of B) t' /\ t_ents t' = t_ents t) \/
  (a = t_tab t /\ b = flat (t_ents t') /\ hti_words p (next_of B) t' = hti_words p (next_of B) t) ->
  chain_at (<[a := b]> h) p (A ++ t' :: B).
Proof.
  intros Hc Hnd Ea Et Hb. assert (Ha : a = t_addr t \/ a = t_tab t) by naive_solver.
  induction A as [|x A IH].
  - rewrite app_nil_l, addrs_cons in Hnd. apply NoDup_cons in Hnd as [H1 [H2 Hnd]%NoDup_cons].
    apply not_elem_of_cons in H1 as [H0 H1]. destruct Hc as (C1 & C2 & C3). simpl. rewrite Ea, Et.
    destruct Hb as [(-> & -> & Ee)|(-> & -> & Ew)].
    + rewrite lookup_insert_eq, lookup_insert_ne by done. rewrite Ee. split_and!; try done. by apply chain_at_fresh.
    + rewrite lookup_insert_eq, lookup_insert_ne by done. rewrite Ew. split_and!; try done. by apply chain_at_fresh.
  - cbn [app] in *. rewrite addrs_cons in Hnd. apply NoDup_cons in Hnd as [H1 [H2 Hnd]%NoDup_cons].
    destruct Hc as (C1 & C2 & C3). assert (Hin : a ∈ addrs (A ++ t :: B)).
    { rewrite addrs_app, addrs_cons. apply elem_of_app. right. destruct Ha as [-> | ->]; set_solver. }
    simpl. rewrite !lookup_insert_ne by (set_solver). split_and!; try done; [|by apply IH].
    rewrite C1. do 2 f_equal. destruct A; simpl; congruence.
Qed.

Lemma next_of_drop n A t t' B :
  t_addr t' = t_addr t -> next_of (drop n (A ++ t' :: B)) = next_of (drop n (A ++ t :: B)).
Proof. intros E. revert n. induction A as [|x A IH]; intros [|n]; simpl; done. Qed.

Lemma addrs_replace A t t' B :
  t_addr t' = t_addr t -> t_tab t' = t_tab t -> addrs (A ++ t' :: B) = addrs (A ++ t :: B).
Proof. intros E1 E2. by rewrite !addrs_app, !addrs_cons, E1, E2. Qed.

Lemma next_of_grow n A t x : (n < length A + 1)%nat -> next_of (drop n (A ++ [t; x])) = next_of (drop n (A ++ [t])).
Proof.
  revert n. induction A as [|y A IH]; intros [|n] Hn; simpl in *; try done; [lia|]. apply IH. lia.
Qed.

Section chain.
Context {dr : nat}.
Local Notation ht_rep := (ht_rep_at dr).

(** The table [t'] is [t] with one word changed. *)
Lemma ht_rep_replace m ht A t t' B a b :
  ht_rep m ht (A ++ t :: B) -> t_addr t' = t_addr t -> t_tab t' = t_tab t ->
  (a = t_addr t /\ b = hti_words (ht_addr ht) (next_of B) t' /\ t_ents t' = t_ents t) \/
  (a = t_tab t /\ b = flat (t_ents t') /\ hti_words (ht_addr ht) (next_of B) t' = hti_words (ht_addr ht) (next_of B) t) ->
  ht_rep (set_heap m (<[a := b]> (heap m))) ht (A ++ t' :: B).
Proof.
  intros [H1 H0 (k & c & d & p & H2) H3 H4 H5] Ea Et Hb. pose proof H4 as [Hn1 Hn2]%NoDup_cons. split; try done.
  - rewrite !length_app in *. done.
  - exists k, c, d, p. cbn [heap set_heap]. rewrite (next_of_drop dr A t t' B), lookup_insert_ne by (done ||
      (intros ->; apply Hn1; rewrite addrs_app, addrs_cons; destruct Hb as [(-> & _)|(-> & _)]; set_solver)). done.
  - by apply (chain_at_replace _ _ A t).
  - by rewrite (addrs_replace A t).
  - rewrite Forall_app, Forall_cons in *. by rewrite Ea.
Qed.

(** * Reading and writing the words of a table *)

Definition set_ent (t : tbl) (e : nat) (k v : Z) : tbl := with_ents t (<[e := (k, v)]> (t_ents t)).

Definition set_count (t : tbl) (c : Z) : tbl :=
  Tbl (t_addr t) (t_tab t) (t_scale t) (t_probe t) (t_ents t) c (t_keys t) (t_scan t) (t_copied t) (t_ref t).

Definition set_keys (t : tbl) (c : Z) : tbl :=
  Tbl (t_addr t) (t_tab t) (t_scale t) (t_probe t) (t_ents t) (t_count t) c (t_scan t) (t_copied t) (t_ref t).

Definition set_scan (t : tbl) (c : Z) : tbl :=
  Tbl (t_addr t) (t_tab t) (t_scale t) (t_probe t) (t_ents t) (t_count t) (t_keys t) c (t_copied t) (t_ref t).

Definition set_copied (t : tbl) (c : Z) : tbl :=
  Tbl (t_addr t) (t_tab t) (t_scale t) (t_probe t) (t_ents t) (t_count t) (t_keys t) (t_scan t) c (t_ref t).

Definition set_ref (t : tbl) (c : Z) : tbl :=
  Tbl (t_addr t) (t_tab t) (t_scale t) (t_probe t) (t_ents t) (t_count t) (t_keys t) (t_scan t) (t_copied t) c.

Lemma set_ent_id t e k v : t_ents t !! e = Some (k, v) -> set_ent t e k v = t.
Proof. intros E. destruct t. unfold set_ent, with_ents. simpl in *. by rewrite list_insert_id. Qed.

Section words.
Context `{Allocator}.
Implicit Types (m : mem) (ht : hashtable_t) (t : tbl) (A B : list tbl).

Lemma wpo_done {X} (p : prog X) m a m' (Q : X -> mem -> Prop) : run p m = Done a m' -> Q a m' -> wpo p m Q.
Proof. intros E ?. unfold wpo. by rewrite E. Qed.

Lemma rep_load m ht A t B i v :
  ht_rep m ht (A ++ t :: B) -> hti_words (ht_addr ht) (next_of B) t !! i = Some v ->
  run (load (t_addr t) i) m = Done v m.
Proof. intros Hr Hi. apply hr_chain, chain_at_app in Hr as [Hw _]. by rewrite (run_load _ _ _ _ Hw), Hi. Qed.

Lemma rep_key m ht A t B e k v :
  ht_rep m ht (A ++ t :: B) -> t_ents t !! e = Some (k, v) -> run (load (t_tab t) (ENT_KEY e)) m = Done k m.
Proof.
  intros Hr He. apply hr_chain, chain_at_app in Hr as [_ Hw]. apply flat_lookup in He as [He _].
  by rewrite (run_load _ _ _ _ Hw), He.
Qed.

Lemma rep_val m ht A t B e k v :
  ht_rep m ht (A ++ t :: B) -> t_ents t !! e = Some (k, v) -> run (load (t_tab t) (ENT_VAL e)) m = Done v m.
Proof.
  intros Hr He. apply hr_chain, chain_at_app in Hr as [_ Hw]. apply flat_lookup in He as [_ He].
  by rewrite (run_load _ _ _ _ Hw), He.
Qed.

(** An atomic update of a word of the [hti_t] *)
Lemma wp_word m ht A t t' B i f v (Q : Z -> mem -> Prop) :
  ht_rep m ht (A ++ t :: B) -> hti_words (ht_addr ht) (next_of B) t !! i = Some v ->
  t_addr t' = t_addr t -> t_tab t' = t_tab t -> t_ents t' = t_ents t ->
  hti_words (ht_addr ht) (next_of B) t' = <[i := f v]> (hti_words (ht_addr ht) (next_of B) t) ->
  (forall m', ht_rep m' ht (A ++ t' :: B) -> deferred m' = deferred m -> Q v m') ->
  wp (Act (Rmw (t_addr t) i f) Ret) m Q.
Proof.
  intros Hr Hi Ea Et Ee Ew HQ. pose proof Hr as [Hw _]%hr_chain%chain_at_app.
  eapply wp_rmw; [exact Hw|exact Hi|]. rewrite <- Ew. apply HQ; [|done]. eapply ht_rep_replace; [done..|]. left. done.
Qed.

Lemma wp_word_add m ht A t t' B i n v (Q : Z -> mem -> Prop) :
  ht_rep m ht (A ++ t :: B) -> hti_words (ht_addr ht) (next_of B) t !! i = Some v ->
  t_addr t' = t_addr t -> t_tab t' = t_tab t -> t_ents t' = t_ents t ->
  hti_words (ht_addr ht) (next_of B) t' = <[i := u64 (v + n)]> (hti_words (ht_addr ht) (next_of B) t) ->
  (forall m', ht_rep m' ht (A ++ t' :: B) -> deferred m' = deferred m -> Q (u64 (v + n)) m') ->
  wp (SYNC_ADD 64 (t_addr t) i n) m Q.
Proof.
  intros Hr Hi Ea Et Ee Ew HQ. pose proof Hr as [Hw _]%hr_chain%chain_at_app.
  eapply wp_add; [exact Hw|exact Hi|]. change ((v + n) mod 2 ^ 64) with (u64 (v + n)). rewrite <- Ew.
  apply HQ; [|done]. eapply ht_rep_replace; [done..|]. left. done.
Qed.

Lemma wp_word_store m ht A t t' B i w (Q : Z -> mem -> Prop) :
  ht_rep m ht (A ++ t :: B) -> (i < 10)%nat ->
  t_addr t' = t_addr t -> t_tab t' = t_tab t -> t_ents t' = t_ents t ->
  hti_words (ht_addr ht) (next_of B) t' = <[i := w]> (hti_words (ht_addr ht) (next_of B) t) ->
  (forall m', ht_rep m' ht (A ++ t' :: B) -> deferred m' = deferred m -> Q 0 m') ->
  wp (store (t_addr t) i w) m Q.
Proof.
  intros Hr Hi Ea Et Ee Ew HQ. pose proof Hr as [Hw _]%hr_chain%chain_at_app.
  eapply wp_store; [exact Hw|done|]. rewrite <- Ew. apply HQ; [|done]. eapply ht_rep_replace; [done..|]. left. done.
Qed.

(** An atomic update of a value, or of a key, of the table *)
Lemma wp_value m ht A t B e k v f (Q : Z -> mem -> Prop) :
  ht_rep m ht (A ++ t :: B) -> t_ents t !! e = Some (k, v) ->
  (forall m', ht_rep m' ht (A ++ set_ent t e k (f v) :: B) -> deferred m' = deferred m -> Q v m') ->
  wp (Act (Rmw (t_tab t) (ENT_VAL e) f) Ret) m Q.
Proof.
  intros Hr He HQ. pose proof Hr as [_ Hw]%hr_chain%chain_at_app. pose proof (flat_lookup _ _ _ _ He) as [_ Hv].
  eapply wp_rmw; [exact Hw|exact Hv|]. apply HQ; [|done]. eapply ht_rep_replace; [done..|]. right.
  split_and!; try done. by apply (flat_insert_val _ _ _ v).
Qed.

Lemma wp_value_store m ht A t B e k v w (Q : Z -> mem -> Prop) :
  ht_rep m ht (A ++ t :: B) -> t_ents t !! e = Some (k, v) ->
  (forall m', ht_rep m' ht (A ++ set_ent t e k w :: B) -> deferred m' = deferred m -> Q 0 m') ->
  wp (store (t_tab t) (ENT_VAL e) w) m Q.
Proof.
  intros Hr He HQ. pose proof Hr as [_ Hw]%hr_chain%chain_at_app. pose proof (flat_lookup _ _ _ _ He) as [_ Hv].
  eapply wp_store; [exact Hw|by eapply lookup_lt_Some|]. apply HQ; [|done]. eapply ht_rep_replace; [done..|]. right.
  split_and!; try done. by apply (flat_insert_val _ _ _ v).
Qed.

(** The key of an empty entry *)
Lemma wp_install m ht A t B e k v (Q : Z -> mem -> Prop) :
  ht_rep m ht (A ++ t :: B) -> t_ents t !! e = Some (0, v) ->
  (forall m', ht_rep m' ht (A ++ set_ent t e k v :: B) -> deferred m' = deferred m -> Q 0 m') ->
  wp (SYNC_CAS (t_tab t) (ENT_KEY e) DOES_NOT_EXIST k) m Q.
Proof.
  intros Hr He HQ. pose proof Hr as [_ Hw]%hr_chain%chain_at_app. pose proof (flat_lookup _ _ _ _ He) as [Hk _].
  eapply wp_cas_succ; [exact Hw|exact Hk|]. apply HQ; [|done]. eapply ht_rep_replace; [done..|]. right.
  split_and!; try done. by apply (flat_insert_key _ _ 0).
Qed.
End words.

(** * Searching *)

Fixpoint slots_from (ndx j : Z) (k : nat) : list nat :=
  match k with
  | O => []
  | S k => Z.to_nat (Z.land ndx (u32 (Z.lnot (Z.of_nat ENTRIES_PER_BUCKET - 1))) +
                     Z.land (ndx + j) (Z.of_nat ENTRIES_PER_BUCKET - 1)) :: slots_from ndx (j + 1) k
  end.

Lemma find_slot_app ents s1 s2 k :
  (forall j, j ∈ s1 -> is_Some (ents !! j)) ->
  find_slot ents (s1 ++ s2) k = match find_slot ents s1 k with Some r => Some r | None => find_slot ents s2 k end.
Proof.
  induction s1 as [|i s1 IH]; intros Hs; [done|]. simpl. destruct (Hs i) as [[k' v] E]; [left|]. rewrite E.
  destruct (k' =? 0); [done|]. destruct (k' =? k); [done|]. apply IH. intros j Hj. apply Hs. by right.
Qed.

Section lookup.
Context `{Allocator}.
Implicit Types (m : mem) (ht : hashtable_t) (t : tbl) (A B : list tbl).

Lemma lookup_bucket_run n m ht A t B key h ndx j :
  ht_rep m ht (A ++ t :: B) -> (forall i, i ∈ slots_from ndx j n -> is_Some (t_ents t !! i)) ->
  run (lookup_bucket n None (t_tab t) key h ndx j) m = Done (find_slot (t_ents t) (slots_from ndx j n) key) m.
Proof.
  intros Hr. revert j. induction n as [|n IH]; intros j Hs; [done|]. cbn [lookup_bucket slots_from find_slot].
  set (i := Z.to_nat _). destruct (Hs i) as [[k' v] E]; [left|]. rewrite E, run_bind, (rep_key _ _ _ _ _ _ _ _ Hr E).
  change DOES_NOT_EXIST with 0. destruct (k' =? 0); [done|]. destruct (k' =? key); [done|]. apply IH.
  intros i' Hi'. apply Hs. by right.
Qed.

Lemma lookup_probes_run n m ht A t B key h ndx :
  ht_rep m ht (A ++ t :: B) -> (forall i, i ∈ probe_slots n (t_scale t) h ndx -> is_Some (t_ents t !! i)) ->
  run (lookup_probes n None (t_tab t) (t_scale t) key h ndx) m =
  Done (find_slot (t_ents t) (probe_slots n (t_scale t) h ndx) key) m.
Proof.
  intros Hr. revert ndx. induction n as [|n IH]; intros ndx Hs; [done|]. cbn [lookup_probes probe_slots] in *.
  assert (Hb : forall i, i ∈ bucket_slots ndx -> is_Some (t_ents t !! i)).
  { intros i Hi. apply Hs, elem_of_app. by left. }
  rewrite run_bind, find_slot_app by done. unfold ENTRIES_PER_BUCKET at 1.
  rewrite (lookup_bucket_run 4 m ht A t B) by done.
  change (slots_from ndx 0 4) with (bucket_slots ndx). destruct (find_slot (t_ents t) (bucket_slots ndx) key); [done|].
  apply IH. intros i Hi. apply Hs, elem_of_app. by right.
Qed.

(** [hti_lookup] finds the entry of the key. *)
Lemma hti_lookup_slots m ht A t B key :
  ht_rep m ht (A ++ t :: B) -> (forall i, i ∈ slots t key -> is_Some (t_ents t !! i)) ->
  run (hti_lookup ht (t_addr t) key (murmur32_8b key)) m = Done (find t key) m.
Proof.
  intros Hr Ht. unfold hti_lookup. rewrite run_bind, (rep_load _ _ _ _ _ SCALE _ Hr eq_refl).
  rewrite run_bind, (rep_load _ _ _ _ _ PROBE _ Hr eq_refl), run_bind, (rep_load _ _ _ _ _ TABLE _ Hr eq_refl).
  rewrite (hr_int _ _ _ Hr). by apply (lookup_probes_run _ m ht A t B).
Qed.

Lemma hti_lookup_run m ht A t B key :
  ht_rep m ht (A ++ t :: B) -> tbl_ok t ->
  run (hti_lookup ht (t_addr t) key (murmur32_8b key)) m = Done (find t key) m.
Proof. intros Hr Ht. apply (hti_lookup_slots m ht A t B); [done|]. intros i Hi. by eapply (slots_some t key). Qed.
End lookup.

(** * Values *)

Lemma tagged_small v : 0 <= v <= TOMBSTONE -> IS_TAGGED v TAG1 = 0.
Proof.
  change TOMBSTONE with (2 ^ 63 - 1). intros Hv. unfold TAG1. rewrite (IS_TAGGED_bit _ 63) by lia.
  by rewrite (testbit_high v 63) by lia.
Qed.

Lemma is_dead_cases v : is_dead v = true -> v = COPIED_VALUE \/ v = TAGGED_TOMBSTONE.
Proof. unfold is_dead. rewrite orb_true_iff, !Z.eqb_eq. done. Qed.

Lemma tagged_dead v : is_dead v = true -> (IS_TAGGED v TAG1 =? 0) = false.
Proof. by intros [-> | ->]%is_dead_cases. Qed.

(** A value that is not dead, as the code classifies it *)
Lemma alive_cases t e k v :
  tbl_ok t -> t_ents t !! e = Some (k, v) -> is_dead v = false -> 0 <= v <= TOMBSTONE.
Proof. intros Ht He Hd. destruct (to_vals _ Ht _ _ _ He) as ([?|Hv] & _); [done|congruence]. Qed.

Lemma is_live_eqb v : 0 <= v <= TOMBSTONE -> is_live v = negb (v =? TOMBSTONE) && negb (v =? DOES_NOT_EXIST).
Proof. unfold is_live, DOES_NOT_EXIST. change TOMBSTONE with (2 ^ 63 - 1). lia. Qed.

Lemma num_zero P (ents : list (Z * Z)) e k v : num P ents = 0 -> ents !! e = Some (k, v) -> P v = false.
Proof.
  intros Hn He. destruct (P v) eqn:E; [exfalso|done]. unfold num in Hn.
  assert (Hin : (k, v) ∈ filter (fun x : Z * Z => P x.2 = true) ents).
  { apply list_elem_of_filter. split; [done|]. by eapply list_elem_of_lookup_2. }
  destruct (filter _ ents); [by apply not_elem_of_nil in Hin|]. simpl in Hn. lia.
Qed.

(** Only a table with a successor has dead entries. *)
Lemma dead_next t B e k v : chain_ok (t :: B) -> t_ents t !! e = Some (k, v) -> is_dead v = true -> B <> [].
Proof.
  intros (Ht & _ & Hl & _) He Hd ->. specialize (Hl eq_refl). rewrite (to_copied _ Ht) in Hl.
  by rewrite (num_zero _ _ _ _ _ Hl He) in Hd.
Qed.

(** Tagged live values *)
Lemma live_tagged v : is_live v = true ->
  TAG_VALUE v TAG1 = v + 2 ^ 63 /\ STRIP_TAG v TAG1 = v /\ STRIP_TAG (TAG_VALUE v TAG1) TAG1 = v /\
  TAG_VALUE (TAG_VALUE v TAG1) TAG1 = TAG_VALUE v TAG1.
Proof.
  intros Hv%is_live_range. change TOMBSTONE with (2 ^ 63 - 1) in Hv.
  assert (Hb : Z.testbit v 63 = false) by (apply (testbit_high v 63); lia).
  assert (E1 : TAG_VALUE v TAG1 = v + 2 ^ 63) by (apply TAG_VALUE_untagged; [lia|done]).
  split_and!; [done|apply STRIP_TAG_untagged; lia || done|..].
  - unfold TAG1. apply Z.bits_inj'. intros i Hi. fold TAG1. rewrite E1. unfold TAG1.
    rewrite testbit_STRIP_TAG by lia. rewrite <- E1. unfold TAG1. rewrite testbit_TAG_VALUE by lia.
    destruct (decide (i = 63)) as [->|]; [by rewrite Hb, andb_false_r by done|].
    rewrite bool_decide_false, bool_decide_true by done. by rewrite orb_false_r, andb_true_r.
  - unfold TAG_VALUE. by rewrite <- Z.lor_assoc, Z.lor_diag.
Qed.

Lemma set_ent_set t e k k' v v' : set_ent (set_ent t e k v) e k' v' = set_ent t e k' v'.
Proof. unfold set_ent, with_ents. simpl. by rewrite list_insert_insert_eq. Qed.

Lemma set_ent_lookup t e k v x : t_ents t !! e = Some x -> t_ents (set_ent t e k v) !! e = Some (k, v).
Proof. intros E. simpl. apply list_lookup_insert_eq. by eapply lookup_lt_Some. Qed.

Lemma set_ent_update t e k v : update t (set_ent t e k v) e k v.
Proof. done. Qed.

Section get.
Context `{Allocator}.
Implicit Types (m : mem) (ht : hashtable_t) (t : tbl) (A B R : list tbl).

Lemma next_of_nz m ht A R : ht_rep m ht (A ++ R) -> R <> [] -> (next_of R =? 0) = false.
Proof.
  intros Hr HR. pose proof (hr_ptr _ _ _ Hr) as Hp. rewrite Forall_app in Hp. destruct Hp as [_ Hp].
  destruct R as [|t R]; [done|]. apply Forall_cons in Hp as [Hp _]. by apply Z.eqb_neq.
Qed.

Lemma hti_get_run fuel m ht A R key :
  ht_rep m ht (A ++ R) -> chain_ok (A ++ R) -> R <> [] -> (length R < fuel)%nat ->
  run (hti_get fuel ht (next_of R) key (murmur32_8b key)) m = Done (default DOES_NOT_EXIST (get R key)) m.
Proof.
  revert A R. induction fuel as [|fuel IH]; intros A R Hr Hc HR Hf; [lia|]. destruct R as [|t R]; [done|].
  pose proof (chain_ok_app _ _ Hc) as Hct. pose proof (chain_tbl_ok _ _ _ Hc) as Ht. simpl in Hf.
  assert (Hrec : R <> [] -> run (hti_get fuel ht (next_of R) key (murmur32_8b key)) m =
    Done (default DOES_NOT_EXIST (get R key)) m).
  { intros HR'. apply (IH (A ++ [t])); rewrite <- ?app_assoc; done || lia. }
  cbn [hti_get next_of]. rewrite run_bind, (hti_lookup_run m ht A t R key Hr Ht). cbn [get].
  destruct (find t key) as [[e []]|] eqn:E; [done| |].
  - pose proof E as (k' & v & He & -> & _)%find_inv.
    rewrite run_bind, (rep_load _ _ _ _ _ TABLE _ Hr eq_refl), run_bind, (rep_val _ _ _ _ _ _ _ _ Hr He), He.
    destruct (is_dead v) eqn:Hd.
    + rewrite (tagged_dead v Hd). cbn [negb]. unfold finish_copy.
      assert (negb (v =? COPIED_VALUE) && negb (v =? TAGGED_TOMBSTONE) = false) as ->.
      { unfold is_dead in Hd. by destruct (v =? COPIED_VALUE), (v =? TAGGED_TOMBSTONE). }
      rewrite run_bind, run_ret, run_bind, (rep_load _ _ _ _ _ HTI_NEXT _ Hr eq_refl). apply Hrec. by eapply dead_next.
    + pose proof (alive_cases _ _ _ _ Ht He Hd) as Hv. rewrite tagged_small by done. cbn [Z.eqb negb].
      rewrite run_ret, is_live_eqb by done. change DOES_NOT_EXIST with 0.
      destruct (v =? TOMBSTONE); [done|]. destruct (Z.eqb_spec v 0) as [->|]; done.
  - rewrite run_bind, (rep_load _ _ _ _ _ HTI_NEXT _ Hr eq_refl). destruct R as [|t' R]; [done|].
    rewrite cons_middle, app_assoc in Hr. rewrite (next_of_nz _ _ _ _ Hr) by done. by apply Hrec.
Qed.

Lemma rep_first_table m ht ts : ht_rep m ht ts -> run (load (ht_addr ht) HT_HTI) m = Done (next_of (drop dr ts)) m.
Proof. intros Hr. destruct (hr_struct _ _ _ Hr) as (k & c & d & p & E). by rewrite (run_load _ _ _ _ E). Qed.

Lemma ht_count_loop_run fuel m ht A R c :
  ht_rep m ht (A ++ R) -> (length R < fuel)%nat ->
  run (ht_count_loop fuel (next_of R) (u64 c)) m = Done (u64 (c + total R)) m.
Proof.
  revert A R c. induction fuel as [|fuel IH]; intros A R c Hr Hf; [lia|]. cbn [ht_count_loop].
  destruct R as [|t R]; [by rewrite Z.add_0_r|]. rewrite (next_of_nz _ _ _ _ Hr) by done. simpl in Hf. cbn [next_of].
  rewrite run_bind, (rep_load _ _ _ _ _ COUNT _ Hr eq_refl), run_bind, (rep_load _ _ _ _ _ HTI_NEXT _ Hr eq_refl).
  rewrite u64_add_l, (IH (A ++ [t])); [|by rewrite <- app_assoc|lia]. do 2 f_equal.
  change (total (t :: R)) with (t_count t + total R). lia.
Qed.

Lemma ht_count_run fuel m ht ts :
  ht_rep m ht ts -> (length ts < fuel)%nat -> run (ht_count fuel ht) m = Done (u64 (total (drop dr ts))) m.
Proof.
  intros Hr Hf. unfold ht_count. rewrite run_bind, (rep_first_table _ _ _ Hr).
  apply (ht_count_loop_run fuel m ht (take dr ts) (drop dr ts) 0); [by rewrite take_drop|].
  rewrite length_drop. lia.
Qed.


End get.

Lemma chain_at_grow h p A t n :
  chain_at h p (A ++ [t]) -> NoDup (addrs (A ++ [t; n])) ->
  h !! t_addr n = Some (hti_words p 0 n) -> h !! t_tab n = Some (flat (t_ents n)) ->
  chain_at (<[t_addr t := hti_words p (t_addr n) t]> h) p (A ++ [t; n]).
Proof.
  intros Hc Hnd Hn1 Hn2. induction A as [|x A IH].
  - cbn [app] in *. rewrite !addrs_cons in Hnd. destruct Hc as (C1 & C2 & _).
    apply NoDup_cons in Hnd as [Hn _]. simpl. rewrite lookup_insert_eq.
    rewrite !lookup_insert_ne by (intros E; apply Hn; rewrite E; set_solver). done.
  - cbn [app] in *. rewrite addrs_cons in Hnd. apply NoDup_cons in Hnd as [H1 [H2 Hnd]%NoDup_cons].
    destruct Hc as (C1 & C2 & C3). assert (Hin : t_addr t ∈ addrs (A ++ [t; n])).
    { rewrite addrs_app, addrs_cons. apply elem_of_app. right. left. }
    assert (t_addr t <> t_addr x) by (intros E; rewrite E in Hin; apply H1; by right).
    assert (t_addr t <> t_tab x) by (intros E; by rewrite E in Hin).
    simpl. rewrite !lookup_insert_ne by done. split_and!; [|done|by apply IH]. rewrite C1. by destruct A.
Qed.

Lemma ht_rep_struct m ht ts k c d p :
  ht_rep m ht ts -> ht_rep (set_heap m (<[ht_addr ht := [next_of (drop dr ts); k; c; d; p]]> (heap m))) ht ts.
Proof.
  intros [H1 H0 H2 H3 H4 H5]. pose proof H4 as [Hn _]%NoDup_cons. split; try done.
  - exists k, c, d, p. apply lookup_insert_eq.
  - by apply chain_at_fresh.
Qed.

(** The parts of the heap that belong to the hash table *)
Lemma ht_rep_addr m ht ts a : ht_rep m ht ts -> heap m !! a = None -> a <> ht_addr ht /\ a ∉ addrs ts.
Proof.
  intros [H1 H0 (k & c & d & p & H2) H3 H4 H5] Ha. split; [intros ->; congruence|].
  clear H0 H4 H5 H2. induction ts as [|t ts IH]; [apply not_elem_of_nil|]. destruct H3 as (C1 & C2 & C3). rewrite addrs_cons.
  apply not_elem_of_cons. split; [intros ->; congruence|]. apply not_elem_of_cons. split; [intros ->; congruence|].
  by apply IH.
Qed.

(** * Growth

    [Hlimit]: no block of more than 2^31 bytes can be had, so that a table has at
    most 2^27 entries and every index and shift count of the code is in range. *)
Section grow.
Context `{Allocator}.
Context (Hlimit : forall h n p, alloc h n = Some p -> Z.of_nat n <= 2 ^ 28).
Implicit Types (m : mem) (ht : hashtable_t) (t : tbl) (A B R : list tbl).

Lemma memset_all m p n b (Q : unit -> mem -> Prop) :
  heap m !! p = Some b -> length b = n -> Q tt (set_heap m (<[p := replicate n 0]> (heap m))) -> wp (memset0 p 0 n) m Q.
Proof.
  intros Hb Hl HQ. eapply wp_memset0; [done|lia|]. simpl. rewrite drop_ge by lia. by rewrite app_nil_r.
Qed.

(** Load and store on a block that is known *)
Ltac step := apply wpo_bind, wp_wpo; first
  [ eapply wp_load; [cbn [heap set_heap]; by simplify_map_eq|done|]
  | eapply wp_store; [cbn [heap set_heap]; by simplify_map_eq|simpl; unfold TABLE, PARENT, REF_COUNT, PROBE, SCALE; lia|]
  | apply wp_assert; [done|] ]; cbn [heap set_heap].

Definition probe_of (scale : Z) : Z :=
  let quarter := s32 (2 ^ (scale - 2) / Z.of_nat ENTRIES_PER_BUCKET) in
  if (quarter <? 3 * scale / 2 + 2) && (4 <? quarter) then quarter else 3 * scale / 2 + 2.

Lemma probe_of_pos scale : 4 <= scale -> 0 < probe_of scale.
Proof.
  intros Hs. unfold probe_of. set (q := s32 _). destruct ((q <? _) && (4 <? q)) eqn:E; [lia|].
  assert (0 <= 3 * scale / 2) by (apply Z.div_pos; lia). lia.
Qed.

Definition fresh_tbl (a tab scale : Z) : tbl :=
  Tbl a tab scale (probe_of scale) (replicate (size_of scale) (0, 0)) 0 0 0 0 1.

Lemma wpo_hti_alloc m parent scale (Q : Z -> mem -> Prop) :
  4 <= scale < 63 ->
  (forall a tab, let t := fresh_tbl a tab scale in
     new_tbl t -> heap m !! a = None -> heap m !! tab = None -> a <> tab -> a <> 0 ->
     Q a (set_heap m (<[tab := flat (t_ents t)]> (<[a := hti_words parent 0 t]> (heap m))))) ->
  wpo (hti_alloc parent scale) m Q.
Proof using Hlimit.
  intros Hs HQ. unfold hti_alloc. apply wpo_bind, wpo_malloc. intros a _ Hfa [Hpa _] Hla.
  apply wpo_bind, wp_wpo. eapply memset_all; [cbn [heap set_heap]; apply lookup_insert_eq|done|].
  cbn [heap set_heap]. rewrite insert_insert_eq. simpl replicate. step.
  rewrite insert_insert_eq. cbn [insert list_insert SCALE].
  assert (Eu : u8 scale = scale) by (unfold u8; apply Z.mod_small; lia). rewrite Eu.
  apply wpo_bind, wpo_malloc. cbn [heap set_heap]. intros tab Etab Hft Hpt Hlt.
  assert (Hne : a <> tab) by (intros ->; by rewrite lookup_insert_eq in Hft).
  rewrite lookup_insert_ne in Hft by done.
  assert (Hsc : scale <= 27).
  { apply Hlimit in Etab. unfold size_of in Etab. apply Z.nlt_ge. intros Hlt28.
    assert (2 ^ 28 <= 2 ^ scale) by (apply Z.pow_le_mono_r; lia). lia. }
  assert (Hal : (tab mod 64 =? 0) = true).
  { apply Z.eqb_eq. apply (alloc_aligned _ _ _ Etab). unfold size_of.
    assert (2 ^ 4 <= 2 ^ scale) by (apply Z.pow_le_mono_r; lia). lia. }
  step. apply wpo_bind, wp_wpo. eapply memset_all; [cbn [heap set_heap]; rewrite lookup_insert_ne, lookup_insert_eq by done; done|done|].
  cbn [heap set_heap]. step. step. step.
  set (q := s32 (2 ^ (scale - 2) / Z.of_nat ENTRIES_PER_BUCKET)).
  set (cond := (q <? 3 * scale / 2 + 2) && (4 <? q)).
  apply wpo_bind. eapply (wpo_mono _ _ (fun _ m' => m' = set_heap m (<[tab := replicate (2 * size_of scale) 0]>
    (<[a := [tab; 0; 0; 0; 0; 0; 0; probe_of scale; 0; scale]]> (heap m))))).
  { unfold probe_of. fold q. fold cond. destruct cond.
    - apply wp_wpo. eapply wp_store; [cbn [heap set_heap]; by simplify_map_eq|simpl; unfold PROBE; lia|].
      cbn [heap set_heap]. f_equal. apply map_eq. intros i. destruct (decide (i = a)) as [->|]; [by simplify_map_eq|].
      destruct (decide (i = tab)) as [->|]; by simplify_map_eq.
    - apply wpo_ret. f_equal. apply map_eq. intros i. destruct (decide (i = a)) as [->|]; [by simplify_map_eq|].
      destruct (decide (i = tab)) as [->|]; by simplify_map_eq. }
  intros _ m' ->. step. pose proof (probe_of_pos scale ltac:(lia)).
  apply wpo_bind, wp_wpo, wp_assert; [by rewrite (proj2 (Z.eqb_neq (probe_of scale) 0)) by lia|].
  step. step.
  apply wpo_bind, wp_wpo, wp_assert; [unfold MIN_SCALE; lia|]. step.
  apply wpo_bind, wp_wpo, wp_assert; [done|].
  assert (Hnew : new_tbl (fresh_tbl a tab scale)) by (split; try done; simpl; lia).
  apply wpo_ret. specialize (HQ a tab Hnew Hfa Hft Hne ltac:(lia)). refine (eq_ind _ (Q a) HQ _ _). f_equal.
  apply map_eq. intros i. destruct (decide (i = a)) as [->|]; [by simplify_map_eq|].
  destruct (decide (i = tab)) as [->|]; [|by simplify_map_eq]. simplify_map_eq. by rewrite flat_replicate.
Qed.

(** The scale of the table that is to follow [t] when the tables have [c] keys *)
Definition next_scale (c : Z) (t : tbl) : Z :=
  if (2 ^ (t_scale t - 1) <? c) || (2 ^ (t_scale t - 2) + 2 ^ (t_scale t - 3) <? t_keys t)
  then t_scale t + 1 else t_scale t.

Lemma wpo_start_copy fuel m ht A t (Q : unit -> mem -> Prop) :
  ht_rep m ht (A ++ [t]) -> tbl_ok t -> (length (A ++ [t]) < fuel)%nat ->
  (forall m' n, new_tbl n -> t_scale n = next_scale (u64 (total (drop dr (A ++ [t])))) t ->
     ht_rep m' ht (A ++ [t; n]) -> deferred m' = deferred m -> Q tt m') ->
  wpo (hti_start_copy fuel ht (t_addr t)) m Q.
Proof using Hlimit.
  intros Hr Ht Hf HQ. unfold hti_start_copy. apply wpo_bind. eapply wpo_done; [by apply ht_count_run|].
  apply wpo_bind. eapply wpo_done; [by apply (rep_load _ _ _ _ _ SCALE _ Hr)|]. apply wpo_bind.
  set (cn := u64 _) in *.
  eapply (wpo_mono _ _ (fun g m' => m' = m /\ (if g : bool then t_scale t + 1 else t_scale t) = next_scale cn t)).
  { unfold next_scale. destruct (2 ^ (t_scale t - 1) <? cn); [by apply wpo_ret|]. apply wpo_bind.
    eapply wpo_done; [by apply (rep_load _ _ _ _ _ KEY_COUNT _ Hr)|]. by apply wpo_ret. }
  intros grow m' [-> Hns]. pose proof (to_scale _ Ht). set (ns := if grow then _ else _) in *.
  apply wpo_bind, wpo_hti_alloc; [destruct grow; unfold ns; lia|]. intros a tab n Hn Ha Htab Hne Ha0.
  destruct (ht_rep_addr _ _ _ _ Hr Ha) as [Ha1 Ha2]. destruct (ht_rep_addr _ _ _ _ Hr Htab) as [Ht1 Ht2].
  set (h1 := <[tab := flat (t_ents n)]> (<[a := hti_words (ht_addr ht) 0 n]> (heap m))).
  pose proof Hr as [H1 Hdr (k & c & d & p & H2) H3 H4 H5].
  assert (Hta : t_addr t ∈ addrs (A ++ [t])) by (rewrite addrs_app, addrs_cons; apply elem_of_app; right; left).
  pose proof H4 as [Hn1 Hn2]%NoDup_cons.
  assert (t_addr t <> ht_addr ht /\ a <> t_addr t /\ tab <> t_addr t) as (Hth & Hat & Htt)
    by (split_and!; intros E; rewrite E in *; contradiction).
  assert (Hr1 : ht_rep (set_heap m (<[t_addr t := hti_words (ht_addr ht) a t]> h1)) ht (A ++ [t; n])).
  { assert (Hnd : NoDup (ht_addr ht :: addrs (A ++ [t; n]))).
    { change [t; n] with ([t] ++ [n]). rewrite app_assoc, addrs_app, app_comm_cons. apply NoDup_app. split_and!; [done| |].
      - intros x Hx Hx'. change (x ∈ [a; tab]) in Hx'. rewrite !elem_of_cons, elem_of_nil in Hx'.
        apply elem_of_cons in Hx as [->|Hx]; [naive_solver|]. destruct Hx' as [-> |[-> |[]]]; contradiction.
      - change (NoDup [a; tab]). apply NoDup_cons. split; [|apply NoDup_singleton]. by intros ->%list_elem_of_singleton. }
    rewrite length_app in Hdr. split; try done.
    - rewrite length_app. simpl in *. lia.
    - exists k, c, d, p. cbn [heap set_heap]. rewrite lookup_insert_ne by done. unfold h1.
      rewrite !lookup_insert_ne, H2 by done. by rewrite next_of_grow.
    - cbn [heap set_heap]. apply (chain_at_grow h1 (ht_addr ht) A t n).
      + unfold h1. by apply chain_at_fresh, chain_at_fresh.
      + by apply NoDup_cons in Hnd as [_ ?].
      + unfold h1. by rewrite lookup_insert_ne, lookup_insert_eq by done.
      + unfold h1. by rewrite lookup_insert_eq.
    - rewrite Forall_app, Forall_cons in *. destruct H5 as (? & ? & _). rewrite Forall_singleton. done. }
  apply wpo_bind, wp_wpo. apply chain_at_app in H3 as [Hw _].
  eapply wp_cas_succ; [cbn [heap set_heap]; unfold h1; rewrite !lookup_insert_ne by done; exact Hw|done|].
  cbn [Z.eqb negb heap set_heap]. change (<[HTI_NEXT := a]> (hti_words (ht_addr ht) (next_of []) t)) with (hti_words (ht_addr ht) a t).
  set (m2 := set_heap m (<[t_addr t := hti_words (ht_addr ht) a t]> h1)).
  change (wpo (_ ⇐ SYNC_ADD 32 (ht_addr ht) HT_COPIES 1; probe ⇐ load (t_addr t) PROBE;
               _ ⇐ store (ht_addr ht) HT_PROBE probe; Ret tt) m2 Q).
  pose proof (hr_struct _ _ _ Hr1) as (k1 & c1 & d1 & p1 & E1). fold m2 in E1.
  apply wpo_bind, wp_wpo. eapply wp_add; [exact E1|done|]. cbn [insert list_insert HT_COPIES].
  pose proof (ht_rep_struct m2 ht _ k1 ((c1 + 1) mod 2 ^ 32) d1 p1 Hr1) as Hr2.
  apply wpo_bind. eapply wpo_done; [by apply (rep_load _ _ _ _ _ PROBE _ Hr2)|].
  apply wpo_bind, wp_wpo. eapply wp_store; [cbn [heap set_heap]; apply lookup_insert_eq|simpl; unfold HT_PROBE; lia|].
  cbn [heap set_heap insert list_insert HT_PROBE]. apply wpo_ret.
  apply (HQ _ n); [done|exact Hns| |done]. pose proof (ht_rep_struct _ ht _ k1 ((c1 + 1) mod 2 ^ 32) d1 (t_probe t) Hr2) as Hr3. done.
Qed.

(** Whether the last table has an entry for the key *)
Definition roomy (R : list tbl) (k : Z) : bool :=
  match last R with Some t => bool_decide (is_Some (find t k)) | None => false end.

Lemma app_shift (A : list tbl) (x : tbl) B R : (A ++ x :: B) ++ R = A ++ x :: B ++ R.
Proof. by rewrite <- app_assoc. Qed.

(** The source of a copy as it ends: the entry dead, the counter lowered *)
Definition copied_out (t : tbl) (e : nat) (k : Z) : tbl :=
  set_count (set_ent t e k COPIED_VALUE) (u64 (t_count t - 1)).

(** What is known when a live entry [e] of [t] is being copied into the tables
    [R], those between being passed *)
Record copying (m : mem) ht A t B1 R (e : nat) (k v w : Z) : Prop := {
  cp_rep : ht_rep m ht (A ++ set_ent t e k w :: B1 ++ R);
  cp_ent : t_ents t !! e = Some (k, v);
  cp_len : length (t_ents t) = size_of (t_scale t);
  cp_live : is_live v = true;
  cp_key : 0 < k < 2 ^ 64;
  cp_val : w = v \/ w = TAG_VALUE v TAG1;
  cp_ok : chain_ok R;
  cp_ne : R <> [];
  cp_absent : forall t', t' ∈ R -> ~ has t' k;
}.

Lemma run_assert c m : c = true -> run (assert c) m = Done tt m.
Proof. by intros ->. Qed.

Lemma copy_checks_run m ht A s B e h (dst : Z) :
  ht_rep m ht (A ++ s :: B) -> B <> [] -> (dst =? 0) = false -> (e < size_of (t_scale s))%nat ->
  run (copy_checks ht (t_addr s) e h dst) m = Done (t_tab s) m.
Proof using Type.
  intros Hr HB H2 He. pose proof (hr_ptr _ _ _ Hr) as Hp. rewrite Forall_app, Forall_cons in Hp. destruct Hp as (_ & Hs0 & _).
  unfold copy_checks. rewrite run_bind, run_assert by (by rewrite (proj2 (Z.eqb_neq (t_addr s) 0))).
  rewrite run_bind, (rep_load _ _ _ s _ HTI_NEXT _ Hr eq_refl).
  assert (HnB : (next_of B =? 0) = false) by (rewrite cons_middle, app_assoc in Hr; by eapply next_of_nz).
  rewrite run_bind, run_assert by (by rewrite HnB). rewrite run_bind, run_assert by (by rewrite H2).
  rewrite run_bind, (rep_load _ _ _ s _ SCALE _ Hr eq_refl).
  rewrite run_bind, run_assert by (by apply Nat.ltb_lt).
  rewrite run_bind, (rep_load _ _ _ s _ TABLE _ Hr eq_refl), (hr_int _ _ _ Hr). done.
Qed.

(** The guards of [hti_copy_entry], up to the search in the destination *)
Lemma wpo_copy_guards fuel m ht A t B1 R e k v w h (Q : bool -> mem -> Prop) :
  copying m ht A t B1 R e k v w -> h = 0 \/ h = murmur32_8b k ->
  (forall m', copying m' ht A t B1 R e k v (TAG_VALUE v TAG1) -> deferred m' = deferred m ->
     wpo (r ⇐ hti_lookup ht (next_of R) k (murmur32_8b k);
          match r with
          | None =>
              next2 ⇐ load (next_of R) HTI_NEXT;
              _ ⇐ (if next2 =? 0 then hti_start_copy fuel ht (next_of R) else Ret tt);
              next2 ⇐ load (next_of R) HTI_NEXT;
              hti_copy_entry fuel ht (t_addr t) e (murmur32_8b k) next2
          | Some (ht2_ent, is_empty) =>
              table2 ⇐ load (next_of R) TABLE;
              old_key ⇐ (if is_empty : bool then SYNC_CAS table2 (ENT_KEY ht2_ent) DOES_NOT_EXIST k
                         else Ret DOES_NOT_EXIST);
              if negb (old_key =? DOES_NOT_EXIST) then hti_copy_entry fuel ht (t_addr t) e (murmur32_8b k) (next_of R)
              else
                _ ⇐ (if is_empty : bool then SYNC_ADD 64 (next_of R) KEY_COUNT 1 else Ret 0);
                old_val ⇐ SYNC_CAS table2 (ENT_VAL ht2_ent) DOES_NOT_EXIST v;
                if old_val =? COPIED_VALUE then
                  next2 ⇐ load (next_of R) HTI_NEXT;
                  hti_copy_entry fuel ht (t_addr t) e (murmur32_8b k) next2
                else
                  _ ⇐ store (t_tab t) (ENT_VAL e) COPIED_VALUE;
                  if old_val =? DOES_NOT_EXIST then
                    _ ⇐ SYNC_ADD 64 (t_addr t) COUNT (-1);
                    _ ⇐ SYNC_ADD 64 (next_of R) COUNT 1;
                    Ret true
                  else Ret false
          end) m' Q) ->
  wpo (hti_copy_entry (S fuel) ht (t_addr t) e h (next_of R)) m Q.
Proof using Type.
  intros [Hr He Hlen Hv Hk Hw Hok Hne Hab] Hh HQ. cbn [hti_copy_entry].
  set (s := set_ent t e k w) in *.
  assert (HnR : (next_of R =? 0) = false).
  { rewrite <- app_shift in Hr. by eapply next_of_nz. }
  apply wpo_bind. eapply wpo_done.
  { apply (copy_checks_run m ht A s (B1 ++ R)); [done|by intros [_ ?]%app_nil|done|].
    change (t_scale s) with (t_scale t). rewrite <- Hlen. by eapply lookup_lt_Some. }
  rewrite (hr_int _ _ _ Hr). apply wpo_bind.
  assert (Hse : t_ents s !! e = Some (k, w)) by (by eapply set_ent_lookup).
  eapply wpo_done; [by eapply (rep_val _ _ _ s)|].
  pose proof (is_live_range v Hv) as Hvr. change TOMBSTONE with (2 ^ 63 - 1) in Hvr.
  destruct (live_tagged v Hv) as (E1 & E2 & E3 & E4).
  assert ((w =? COPIED_VALUE) = false /\ (w =? TAGGED_TOMBSTONE) = false /\ (w =? DOES_NOT_EXIST) = false /\ (w =? TOMBSTONE) = false)
    as (W1 & W2 & W3 & W4).
  { change COPIED_VALUE with (2 ^ 63). change TAGGED_TOMBSTONE with (2 ^ 64 - 1). change TOMBSTONE with (2 ^ 63 - 1).
    change DOES_NOT_EXIST with 0. destruct Hw as [-> | ->]; rewrite ?E1; lia. }
  rewrite W1, W2, W3. cbn [orb]. apply wpo_bind, wpo_ret, wpo_bind, wp_wpo.
  eapply (wp_value _ _ _ s); [done..|]. intros m' Hr' Hd'. rewrite W1, W2, W4. cbn [orb].
  assert (Et : set_ent s e k (Z.lor w (TAG_VALUE 0 TAG1)) = set_ent t e k (TAG_VALUE v TAG1)).
  { unfold s. rewrite set_ent_set. f_equal. change (Z.lor w (TAG_VALUE 0 TAG1)) with (TAG_VALUE w TAG1).
    destruct Hw as [-> | ->]; done. }
  rewrite Et in Hr'. apply wpo_bind. eapply wpo_done; [eapply (rep_key _ _ _ (set_ent t e k (TAG_VALUE v TAG1))); [done|by eapply set_ent_lookup]|].
  apply wpo_bind. assert (Eh : (if h =? 0 then Ret (murmur32_8b k) else Ret h) = Ret (murmur32_8b k)).
  { destruct (Z.eqb_spec h 0); [done|]. by destruct Hh as [| ->]. }
  rewrite Eh. apply wpo_ret. change (t_tab s) with (t_tab t).
  assert (STRIP_TAG w TAG1 = v) as -> by (by destruct Hw as [-> | ->]).
  apply HQ; [|done]. split; auto.
Qed.

Lemma roomy_cons t R k : R <> [] -> roomy (t :: R) k = roomy R k.
Proof. intros HR. unfold roomy. by destruct R. Qed.

Lemma absent_tail t R k : (forall t', t' ∈ t :: R -> ~ has t' k) -> forall t', t' ∈ R -> ~ has t' k.
Proof. intros Hab t' Ht'. apply Hab. by right. Qed.

(** The number of tables a copy of the key adds *)
Definition grows (R : list tbl) (k : Z) : nat := if roomy R k then 0 else 1.

Lemma grows_cons t R k : R <> [] -> grows (t :: R) k = grows R k.
Proof. intros HR. unfold grows. by rewrite roomy_cons. Qed.

(** The step of the chain when the first table is passed, possibly after a change
    of that table *)
Lemma step_pass t t' R R' k v g :
  chain_step k (t :: R) (t' :: R) g 0 -> passed t' k -> chain_step k R R' (Some v) 1 ->
  chain_step k (t :: R) (t' :: R') (Some v) 1.
Proof.
  intros Hs Hp HR. change 1 with (0 + 1). eapply chain_step_trans; [done|].
  apply (chain_step_prefix [t'] k R R'); [apply (cs_ok _ _ _ _ _ Hs)|done|]. by intros a ->%list_elem_of_singleton.
Qed.

(** The entry found in a table behind is empty: it takes the key, and the value
    unless it is dead. *)
Lemma wpo_copy_found fuel m ht A t B1 t2 B2 e k v e2 (Q : bool -> mem -> Prop) :
  (forall m B1 R w h (Q : bool -> mem -> Prop), copying m ht A t B1 R e k v w -> h = 0 \/ h = murmur32_8b k ->
     (length (A ++ t :: B1 ++ R) + length R + 2 * grows R k + 2 < fuel)%nat ->
     (forall m' R', ht_rep m' ht (A ++ copied_out t e k :: B1 ++ R') -> chain_step k R R' (Some v) 1 ->
        (length R' <= length R + grows R k)%nat -> deferred m' = deferred m -> Q true m') ->
     wpo (hti_copy_entry fuel ht (t_addr t) e h (next_of R)) m Q) ->
  copying m ht A t B1 (t2 :: B2) e k v (TAG_VALUE v TAG1) -> find t2 k = Some (e2, true) ->
  (length (A ++ t :: B1 ++ t2 :: B2) + length (t2 :: B2) + 2 * grows (t2 :: B2) k + 2 < S fuel)%nat ->
  (forall m' R', ht_rep m' ht (A ++ copied_out t e k :: B1 ++ R') -> chain_step k (t2 :: B2) R' (Some v) 1 ->
     (length R' <= length (t2 :: B2) + grows (t2 :: B2) k)%nat -> deferred m' = deferred m -> Q true m') ->
  wpo (table2 ⇐ load (t_addr t2) TABLE;
       old_key ⇐ SYNC_CAS table2 (ENT_KEY e2) DOES_NOT_EXIST k;
       if negb (old_key =? DOES_NOT_EXIST) then hti_copy_entry fuel ht (t_addr t) e (murmur32_8b k) (t_addr t2)
       else
         _ ⇐ SYNC_ADD 64 (t_addr t2) KEY_COUNT 1;
         old_val ⇐ SYNC_CAS table2 (ENT_VAL e2) DOES_NOT_EXIST v;
         if old_val =? COPIED_VALUE then
           next2 ⇐ load (t_addr t2) HTI_NEXT;
           hti_copy_entry fuel ht (t_addr t) e (murmur32_8b k) next2
         else
           _ ⇐ store (t_tab t) (ENT_VAL e) COPIED_VALUE;
           if old_val =? DOES_NOT_EXIST then
             _ ⇐ SYNC_ADD 64 (t_addr t) COUNT (-1);
             _ ⇐ SYNC_ADD 64 (t_addr t2) COUNT 1;
             Ret true
           else Ret false) m Q.
Proof using Type.
  intros IH Hcp E2 Hf HQ. pose proof Hcp as [Hr He Hlen Hv Hk Hw Hok Hne Hab]. set (s := set_ent t e k (TAG_VALUE v TAG1)) in *.
  assert (Hr2 : ht_rep m ht ((A ++ s :: B1) ++ t2 :: B2)) by (by rewrite app_shift).
  pose proof Hok as (Ht2 & _ & _ & HB2). pose proof E2 as (k' & w2 & Hi & ->)%find_inv.
  destruct (to_vals _ Ht2 _ _ _ Hi) as (_ & _ & Hw2). specialize (Hw2 eq_refl).
  apply wpo_bind. eapply wpo_done; [by apply (rep_load _ _ _ _ _ TABLE _ Hr2)|].
  apply wpo_bind, wp_wpo. eapply (wp_install _ _ _ t2); [done..|]. intros m1 Hr1 Hd1. cbn [Z.eqb DOES_NOT_EXIST negb].
  set (t2a := set_ent t2 e2 k w2) in *. apply wpo_bind, wp_wpo.
  eapply (wp_word_add _ _ _ t2a (set_keys t2a (u64 (t_keys t2 + 1)))); [done..|]. intros m2 Hr3 Hd2.
  set (t2b := set_keys t2a (u64 (t_keys t2 + 1))) in *.
  assert (Hib : t_ents t2b !! e2 = Some (k, w2)) by (by apply (set_ent_lookup t2 e2 k w2 (0, w2))).
  apply wpo_bind, wp_wpo. eapply (wp_value _ _ _ t2b); [done..|]. intros m3 Hr4 Hd3.
  destruct Hw2 as [-> | ->].
  - cbn [Z.eqb DOES_NOT_EXIST] in Hr4. change (0 =? COPIED_VALUE) with false. cbv iota.
    set (t2c := set_ent t2b e2 k v) in *. rewrite app_shift in Hr4.
    assert (Hse : t_ents s !! e = Some (k, TAG_VALUE v TAG1)) by (by eapply set_ent_lookup).
    apply wpo_bind, wp_wpo. eapply (wp_value_store _ _ _ s); [done..|]. intros m4 Hr5 Hd4.
    change (0 =? DOES_NOT_EXIST) with true. cbv iota. unfold s in Hr5. rewrite set_ent_set in Hr5. apply wpo_bind, wp_wpo.
    eapply (wp_word_add _ _ _ (set_ent t e k COPIED_VALUE) (copied_out t e k)); [done..|]. intros m5 Hr6 Hd5.
    rewrite <- app_shift in Hr6. apply wpo_bind, wp_wpo.
    eapply (wp_word_add _ _ _ t2c (set_count t2c (u64 (t_count t2 + 1)))); [done..|]. intros m6 Hr7 Hd6.
    rewrite app_shift in Hr7. apply wpo_ret. eapply HQ; [exact Hr7| |simpl; lia|congruence].
    apply (step_put t2 _ B2 e2 k v); try done. split; try done.
    unfold t2c, t2b, t2a, set_count, set_keys, set_ent, with_ents. simpl. by rewrite list_insert_insert_eq.
  - change (COPIED_VALUE =? DOES_NOT_EXIST) with false in Hr4. cbv iota in Hr4. rewrite set_ent_id in Hr4 by done.
    change (COPIED_VALUE =? COPIED_VALUE) with true. cbv iota. apply wpo_bind.
    eapply wpo_done; [by apply (rep_load _ _ _ _ _ HTI_NEXT _ Hr4)|].
    pose proof (dead_next t2 B2 e2 _ _ Hok Hi eq_refl) as HB0.
    assert (Hup : update t2 t2b e2 k COPIED_VALUE) by done.
    destruct (step_put_dead t2 t2b B2 e2 k Hok HB0 E2 Hi Hup ltac:(lia) eq_refl eq_refl) as (Hst & Hpb & _).
    apply (IH m3 (B1 ++ [t2b]) B2 (TAG_VALUE v TAG1)).
    + split; try done; [by rewrite <- (app_assoc B1), <- app_shift|by apply (absent_tail t2)].
    + by right.
    + rewrite grows_cons in Hf by done. rewrite !length_app in *. simpl in *. rewrite !length_app in *. simpl in *. lia.
    + intros m' R' Hr' Hs' Hl' Hd'. rewrite <- (app_assoc B1) in Hr'. apply (HQ m' (t2b :: R')); [done|..|congruence].
      * by eapply step_pass.
      * rewrite grows_cons by done. simpl in *. lia.
Qed.

(** A live entry ends up, with its value, in the first table behind that has a
    live place for it. *)
Lemma wpo_copy_live fuel m ht A t B1 R e k v w h (Q : bool -> mem -> Prop) :
  copying m ht A t B1 R e k v w -> h = 0 \/ h = murmur32_8b k ->
  (length (A ++ t :: B1 ++ R) + length R + 2 * grows R k + 2 < fuel)%nat ->
  (forall m' R', ht_rep m' ht (A ++ copied_out t e k :: B1 ++ R') -> chain_step k R R' (Some v) 1 ->
     (length R' <= length R + grows R k)%nat -> deferred m' = deferred m -> Q true m') ->
  wpo (hti_copy_entry fuel ht (t_addr t) e h (next_of R)) m Q.
Proof using Hlimit.
  revert m B1 R w h Q. induction fuel as [|fuel IH]; intros m B1 R w h Q Hcp Hh Hf HQ; [lia|].
  apply (wpo_copy_guards fuel m ht A t B1 R e k v w); [done..|]. clear Hcp Hh. rename HQ into HQ0, m into m0.
  intros m Hcp Hdm. set (s := set_ent t e k (TAG_VALUE v TAG1)) in *.
  assert (HQ : forall m' R', ht_rep m' ht (A ++ copied_out t e k :: B1 ++ R') -> chain_step k R R' (Some v) 1 ->
    (length R' <= length R + grows R k)%nat -> deferred m' = deferred m -> Q true m').
  { intros m' R' ? ? ? ?. apply (HQ0 m' R'); congruence || done. } clear HQ0 Hdm m0.
  destruct R as [|t2 B2]; [by destruct (cp_ne _ _ _ _ _ _ _ _ _ _ Hcp)|]. cbn [next_of].
  pose proof Hcp as [Hr He Hlen Hv Hk Hw Hok Hne Hab].
  assert (Hr2 : ht_rep m ht ((A ++ s :: B1) ++ t2 :: B2)) by (by rewrite app_shift).
  pose proof Hok as (Ht2 & _ & _ & HB2). apply wpo_bind. eapply wpo_done; [by eapply hti_lookup_run|].
  destruct (find t2 k) as [[e2 []]|] eqn:E2.
  - by apply (wpo_copy_found fuel m ht A t B1 t2 B2 e k v e2 Q IH).
  - exfalso. pose proof E2 as (k' & v' & Hi & -> & ?)%find_inv. apply (Hab t2); [left|]. by exists e2, v'.
  - apply wpo_bind. eapply wpo_done; [by apply (rep_load _ _ _ _ _ HTI_NEXT _ Hr2)|]. destruct B2 as [|t3 B2].
    + cbn [next_of Z.eqb]. apply wpo_bind. eapply wpo_start_copy; [done|done|..].
      { rewrite !length_app in *. simpl in *. rewrite !length_app in *. simpl in *. lia. }
      intros m1 n Hn _ Hr1 Hd1. replace ((A ++ s :: B1) ++ [t2; n]) with ((A ++ s :: B1) ++ t2 :: [n]) in Hr1 by done.
      apply wpo_bind. eapply wpo_done; [by apply (rep_load _ _ _ _ _ HTI_NEXT _ Hr1)|].
      destruct (new_find n k Hn) as (en & En & _).
      assert (Hrn : roomy [n] k = true) by (unfold roomy; simpl; rewrite En; by apply bool_decide_true).
      assert (Hgr : grows [t2] k = 1%nat) by (unfold grows, roomy; simpl; rewrite E2; by rewrite bool_decide_false by (by intros [])).
      apply (IH m1 (B1 ++ [t2]) [n] (TAG_VALUE v TAG1)).
      * split; try done.
        -- rewrite <- (app_assoc B1), <- app_shift. done.
        -- split_and!; try done; [by apply new_tbl_ok|by intros ? ? ?%not_elem_of_nil|intros _; apply Hn].
        -- intros t' ->%list_elem_of_singleton. by apply new_has.
      * by right.
      * rewrite Hgr in Hf. unfold grows. rewrite Hrn. rewrite !length_app in *. simpl in *. rewrite !length_app in *. simpl in *. lia.
      * intros m' R' Hr' Hs' Hl' Hd'. rewrite <- (app_assoc B1) in Hr'. apply (HQ m' (t2 :: R')); [done|..|congruence].
        -- change 1 with (0 + 1). eapply chain_step_trans; [by apply (chain_grow [t2] n k)|].
           apply (chain_step_prefix [t2] k [n] R'); [|done|intros a ->%list_elem_of_singleton; by left].
           apply (cs_ok _ _ _ _ _ (chain_grow [t2] n k Hok ltac:(done) Hn)).
        -- unfold grows in Hl'. rewrite Hrn in Hl'. rewrite Hgr. simpl in *. lia.
    + rewrite (cons_middle t2), app_assoc in Hr2. rewrite (next_of_nz _ _ _ _ Hr2) by done.
      rewrite <- app_assoc in Hr2. apply wpo_bind, wpo_ret, wpo_bind.
      eapply wpo_done; [by apply (rep_load _ _ _ t2 _ HTI_NEXT _ Hr2)|].
      apply (IH m (B1 ++ [t2]) (t3 :: B2) (TAG_VALUE v TAG1)).
      * split; try done; [by rewrite <- (app_assoc B1)|by apply (absent_tail t2)].
      * by right.
      * rewrite grows_cons in Hf by done. rewrite !length_app in *. simpl in *. rewrite !length_app in *. simpl in *. lia.
      * intros m' R' Hr' Hs' Hl' Hd'. rewrite <- (app_assoc B1) in Hr'. apply (HQ m' (t2 :: R')); [done|..|congruence].
        -- eapply step_pass; [by apply chain_step_refl|by left|done].
        -- rewrite grows_cons by done. simpl in *. lia.
Qed.

(** A table in memory whose counters [num_entries_copied] and [copy_scan] are not
    yet those of [g] *)
Definition lag (g : tbl) (c x : Z) : tbl := set_scan (set_copied g c) x.

Definition dead_at (t : tbl) (i : nat) : Prop := exists k v, t_ents t !! i = Some (k, v) /\ is_dead v = true.

(** The entry [e] has been seen to; [b] when this call did it. *)
Record entry_copied (g g' : tbl) (e : nat) (b : bool) : Prop := {
  ec_addr : t_addr g' = t_addr g;
  ec_shape : same_shape g g';
  ec_scan : t_scan g' = t_scan g;
  ec_ref : t_ref g' = t_ref g;
  ec_copied : t_copied g' = t_copied g + Z.b2z b;
  ec_dead : dead_at g' e;
  ec_mono : forall i, dead_at g i -> dead_at g' i;
}.

Lemma update_entry_copied g g' e k0 k v w :
  update g g' e k w -> t_ents g !! e = Some (k0, v) -> is_dead w = true -> t_addr g' = t_addr g ->
  t_ref g' = t_ref g -> t_copied g' = t_copied g + 1 -> entry_copied g g' e true.
Proof using Type.
  intros Hu He Hw Ha Hr Hc. pose proof (lookup_lt_Some _ _ _ He) as Hlt. split; try done; [apply Hu|apply Hu|..].
  - exists k, w. split; [|done]. by eapply update_entry.
  - intros i (k' & v' & Hi & Hd). unfold dead_at. rewrite (update_lookup _ _ _ _ _ _ Hu) by done.
    case_decide; by eauto.
Qed.

Lemma wpo_copy_entry fuel m ht A g R e c x (Q : bool -> mem -> Prop) :
  ht_rep m ht (A ++ lag g c x :: R) -> chain_ok (g :: R) -> R <> [] -> (e < length (t_ents g))%nat ->
  (length (A ++ g :: R) + length R + 4 < fuel)%nat ->
  (forall b m' g' R', ht_rep m' ht (A ++ lag g' c x :: R') -> chain_same (g :: R) (g' :: R') ->
     entry_copied g g' e b -> (length R' <= length R + 1)%nat -> R' <> [] -> deferred m' = deferred m -> Q b m') ->
  wpo (hti_copy_entry fuel ht (t_addr g) e 0 (next_of R)) m Q.
Proof using Hlimit.
  intros Hr Hc HR Hlt Hf HQ. destruct (lookup_lt_is_Some_2 _ _ Hlt) as [[k v] He].
  pose proof Hc as (Hg & _ & _ & HcR). destruct (to_vals _ Hg _ _ _ He) as (Hvr & Hkr & Hk0).
  assert (Hsame : forall g' R', chain_step k (g :: R) (g' :: R') (get (g :: R) k) 0 -> chain_same (g :: R) (g' :: R')).
  { intros g' R' Hs. eapply chain_step_same; [done|]. destruct (decide (k = 0)); [by left|right].
    exists g. split; [left|]. by exists e, v. }
  destruct (is_live v) eqn:Hlv.
  { (* a live value *)
    pose proof (is_live_range v Hlv) as Hv. assert (Hdv : is_dead v = false) by (apply not_dead; lia).
    assert (Hk : k <> 0) by (intros ->; destruct (Hk0 eq_refl) as [-> | ->]; done).
    change (t_addr g) with (t_addr (lag g c x)).
    apply (wpo_copy_live fuel m ht A (lag g c x) [] R e k v v 0); [|by left|..].
    - split; try done; [by rewrite set_ent_id|apply Hg|lia|by left|].
      apply (not_passed_absent g R k Hc). eapply alive_not_passed; [|done|done]. by apply (to_found _ Hg _ _ v).
    - unfold grows. rewrite !length_app in *. simpl in *. destruct (roomy R k); lia.
    - intros m' R' Hr' Hs Hl Hd. assert (HR' : R' <> []) by apply Hs.
      set (g' := set_copied (copied_out g e k) (t_copied g + 1)).
      apply (HQ true m' g' R'); [done| |..|unfold grows in Hl; destruct (roomy R k); lia|done|done].
      + apply Hsame. by apply (step_copy g g' R R' e k v).
      + by apply (update_entry_copied g g' e k k v COPIED_VALUE). }
  destruct fuel as [|fuel]; [lia|]. cbn [hti_copy_entry]. apply wpo_bind.
  assert (HnR : (next_of R =? 0) = false) by (rewrite cons_middle, app_assoc in Hr; by eapply next_of_nz).
  eapply wpo_done; [apply (copy_checks_run m ht A (lag g c x) R); try done; change (t_scale (lag g c x)) with (t_scale g); by rewrite <- (to_len _ Hg)|].
  apply wpo_bind. eapply wpo_done; [by eapply (rep_val _ _ _ (lag g c x))|].
  destruct (is_dead v) eqn:Hdv.
  { fold (is_dead v). rewrite Hdv. apply wpo_ret. apply (HQ false m g R); try done; [by apply chain_same_refl| |lia].
    split; try done; [simpl; lia|by exists k, v]. }
  fold (is_dead v). rewrite Hdv. destruct Hvr as [Hvr|]; [|congruence]. rewrite is_live_eqb in Hlv by done.
  destruct (Z.eqb_spec v DOES_NOT_EXIST) as [->|Hv0].
  - apply wpo_bind, wpo_bind, wp_wpo. eapply (wp_value _ _ _ (lag g c x)); [done..|]. intros m1 Hr1 Hd1.
    apply wpo_ret, wpo_ret. set (g' := set_copied (set_ent g e k COPIED_VALUE) (t_copied g + 1)).
    apply (HQ true m1 g' R); [exact Hr1|..|lia|exact HR|exact Hd1].
    + apply Hsame. eapply (step_kill g g' R e k 0 COPIED_VALUE); try done. by left.
    + by apply (update_entry_copied g g' e k k 0 COPIED_VALUE).
  - apply wpo_bind, wpo_ret, wpo_bind, wp_wpo. rewrite andb_true_r in Hlv. apply negb_false_iff, Z.eqb_eq in Hlv as ->.
    eapply (wp_value _ _ _ (lag g c x)); [done..|]. intros m1 Hr1 Hd1.
    change (TOMBSTONE =? COPIED_VALUE) with false. change (TOMBSTONE =? TAGGED_TOMBSTONE) with false. cbn [orb].
    change (TOMBSTONE =? TOMBSTONE) with true. cbv iota.
    apply wpo_ret. set (g' := set_copied (set_ent g e k TAGGED_TOMBSTONE) (t_copied g + 1)).
    apply (HQ true m1 g' R); [exact Hr1|..|lia|exact HR|exact Hd1].
    + apply Hsame. eapply (step_kill g g' R e k TOMBSTONE TAGGED_TOMBSTONE); try done. by right.
    + by apply (update_entry_copied g g' e k k TOMBSTONE TAGGED_TOMBSTONE).
Qed.

(** A run of [hti_copy_entry] over [n] entries *)
Record entries_copied (g g' : tbl) (e n : nat) (c : Z) : Prop := {
  es_addr : t_addr g' = t_addr g;
  es_shape : same_shape g g';
  es_scan : t_scan g' = t_scan g;
  es_ref : t_ref g' = t_ref g;
  es_copied : t_copied g' = t_copied g + c;
  es_dead : forall i, (e <= i < e + n)%nat -> dead_at g' i;
  es_mono : forall i, dead_at g i -> dead_at g' i;
  es_range : 0 <= c <= Z.of_nat n;
}.

Lemma wpo_help_loop n fuel m ht A g R e c x (num : Z) (Q : Z -> mem -> Prop) :
  ht_rep m ht (A ++ lag g c x :: R) -> chain_ok (g :: R) -> R <> [] -> (e + n <= length (t_ents g))%nat ->
  (length (A ++ g :: R) + length R + 2 * n + 4 < fuel)%nat -> 0 <= num -> num + Z.of_nat n < 2 ^ 64 ->
  (forall d m' g' R', ht_rep m' ht (A ++ lag g' c x :: R') -> chain_same (g :: R) (g' :: R') ->
     entries_copied g g' e n d -> (length R' <= length R + n)%nat -> R' <> [] -> deferred m' = deferred m -> Q (num + d) m') ->
  wpo (help_copy_loop n fuel ht (t_addr g) e num) m Q.
Proof using Hlimit.
  revert m g R e num. induction n as [|n IH]; intros m g R e num Hr Hc HR Hlt Hf Hn0 Hn HQ; cbn [help_copy_loop].
  { apply wpo_ret. rewrite <- (Z.add_0_r num). apply (HQ 0 m g R); try done; [by apply chain_same_refl| |lia].
    split; try done; [simpl; lia|lia]. }
  apply wpo_bind. eapply wpo_done; [by apply (rep_load _ _ _ (lag g c x) _ HTI_NEXT _ Hr)|].
  apply wpo_bind. apply (wpo_copy_entry fuel m ht A g R e c x); [done|done|done|lia|lia|].
  intros b m1 g1 R1 Hr1 Hs1 He1 Hl1 HR1 Hd1. rewrite <- (ec_addr _ _ _ _ He1).
  apply wpo_bind. eapply wpo_done; [by apply (rep_load _ _ _ (lag g1 c x) _ SCALE _ Hr1)|].
  pose proof Hs1 as [Hc1 _ _ _ _]. pose proof Hc1 as (Hg1 & _). pose proof Hc as (Hg & _).
  assert (El : length (t_ents g1) = length (t_ents g)).
  { rewrite (to_len _ Hg1), (to_len _ Hg). f_equal. apply He1. }
  apply wpo_bind, wp_wpo, wp_assert.
  { apply Nat.leb_le. change (t_scale (lag g1 c x)) with (t_scale g1). rewrite <- (to_len _ Hg1). lia. }
  rewrite u64_small by (destruct b; simpl; lia).
  apply (IH m1 g1 R1 (S e)); [done|done|done|lia| |destruct b; simpl; lia|destruct b; simpl; lia|].
  { rewrite !length_app in *. simpl in *. lia. }
  intros d m2 g2 R2 Hr2 Hs2 He2 Hl2 HR2 Hd2. rewrite <- Z.add_assoc.
  apply (HQ _ m2 g2 R2); [done|by eapply chain_same_trans| |lia|done|congruence].
  destruct He1 as [A1 A2 A3 A4 A5 A6 A7], He2 as [B1 B2 B3 B4 B5 B6 B7 B8].
  split; [congruence|destruct A2, B2; split; congruence|congruence|congruence|lia|..|by eauto|destruct b; simpl; lia].
  intros i Hi. destruct (decide (i = e)) as [->|]; [by apply B7|]. apply B6. lia.
Qed.

(** The counters brought up to date *)
Lemma lag_id g : lag g (t_copied g) (t_scan g) = g.
Proof. by destruct g. Qed.

Lemma chain_ok_scan g R x :
  chain_ok (g :: R) -> 0 <= x <= 2 ^ t_scale g -> x mod 8 = 0 -> (forall i, Z.of_nat i < x -> dead_at g i) ->
  chain_ok (set_scan g x :: R) /\ forall k, get (set_scan g x :: R) k = get (g :: R) k.
Proof using Type.
  intros (Hg & Hp & Hl & HR) Hx Hx8 Hd. split; [|done]. split; [|done]. destruct Hg as [H1 H2 H3 H4 H5 H6 H7 H8 H9].
  split; try done. intros i k v Hi Hlt. destruct (Hd i Hlt) as (k' & v' & Hi' & Hdv). simpl in Hi. congruence.
Qed.

(** A table that has been scanned to the end is copied. *)
Lemma scan_end g : tbl_ok g -> t_scan g = 2 ^ t_scale g -> t_copied g = 2 ^ t_scale g.
Proof using Type.
  intros Hg Hx. assert (0 <= 2 ^ t_scale g) by (apply Z.pow_nonneg; lia).
  rewrite (to_copied _ Hg). pose proof (to_len _ Hg) as Hlen. unfold size_of in Hlen.
  rewrite num_full; [lia|]. intros i k v Hi. apply (to_scanned _ Hg _ _ _ Hi). pose proof (lookup_lt_Some _ _ _ Hi). lia.
Qed.

(** What [hti_help_copy] does to the table: the next chunk of entries is dead, and
    the copy is done when all of them are. *)
Record helped (t t' : tbl) : Prop := {
  hp_addr : t_addr t' = t_addr t;
  hp_shape : same_shape t t';
  hp_ref : t_ref t' = t_ref t;
  hp_progress : t_copied t' = 2 ^ t_scale t \/ t_scan t' = t_scan t + Z.of_nat ENTRIES_PER_COPY_CHUNK;
}.

Lemma wpo_help_copy fuel m ht A t R (Q : bool -> mem -> Prop) :
  ht_rep m ht (A ++ t :: R) -> chain_ok (t :: R) -> R <> [] ->
  (length (A ++ t :: R) + length R + 20 < fuel)%nat ->
  (forall m' t' R', ht_rep m' ht (A ++ t' :: R') -> chain_same (t :: R) (t' :: R') -> helped t t' ->
     (length R' <= length R + 8)%nat -> R' <> [] -> deferred m' = deferred m ->
     Q (t_copied t' =? 2 ^ t_scale t) m') ->
  wpo (hti_help_copy fuel ht (t_addr t)) m Q.
Proof using Hlimit.
  intros Hr Hc HR Hf HQ. pose proof Hc as (Ht & _). unfold hti_help_copy.
  apply wpo_bind. eapply wpo_done; [by apply (rep_load _ _ _ t _ NUM_COPIED _ Hr)|].
  apply wpo_bind. eapply wpo_done; [by apply (rep_load _ _ _ t _ COPY_SCAN _ Hr)|].
  apply wpo_bind. eapply wpo_done; [by apply (rep_load _ _ _ t _ SCALE _ Hr)|].
  destruct (Z.eqb_spec (t_copied t) (2 ^ t_scale t)) as [Eq|Hne]; cbn [negb].
  { apply wpo_ret. rewrite <- (proj2 (Z.eqb_eq _ _) Eq). apply (HQ m t R); try done; [by apply chain_same_refl| |lia].
    split; try done. by left. }
  pose proof (to_scan _ Ht) as [Hx Hx8]. pose proof (to_scale _ Ht) as Hsc.
  assert (Hx' : t_scan t + 8 <= 2 ^ t_scale t).
  { assert (t_scan t <> 2 ^ t_scale t) by (intros E; by apply Hne, scan_end).
    assert (2 ^ t_scale t mod 8 = 0).
    { replace (t_scale t) with (t_scale t - 3 + 3) by lia. rewrite Z.pow_add_r by lia. apply Z_mod_mult. }
    zlia. }
  assert (Hsz : 2 ^ t_scale t <= 2 ^ 27) by (apply Z.pow_le_mono_r; lia).
  assert (E1 : 2 ^ (t_scale t + 1) = 2 * 2 ^ t_scale t) by (rewrite Z.pow_add_r by lia; lia).
  rewrite E1, (proj2 (Z.leb_gt (2 * 2 ^ t_scale t) (t_scan t))) by lia.
  apply wpo_bind, wpo_bind, wp_wpo. rewrite u64_small by (unfold ENTRIES_PER_COPY_CHUNK; lia).
  change (Z.of_nat ENTRIES_PER_COPY_CHUNK) with 8.
  eapply (wp_word_store _ _ _ t (lag t (t_copied t) (t_scan t + 8))); [done|unfold COPY_SCAN; lia|done..|].
  intros m1 Hr1 Hd1. rewrite land_MASK by lia. rewrite Z.mod_small by lia.
  apply (wpo_help_loop ENTRIES_PER_COPY_CHUNK fuel m1 ht A t R _ (t_copied t) (t_scan t + 8)); [done|done|done|..|lia|unfold ENTRIES_PER_COPY_CHUNK; lia|].
  { rewrite (to_len _ Ht). unfold size_of, ENTRIES_PER_COPY_CHUNK. lia. } { unfold ENTRIES_PER_COPY_CHUNK. lia. }
  intros d m2 g R2 Hr2 Hs2 [B1 B2 B3 B4 B5 B6 B7 B8] Hl2 HR2 Hd2. rewrite Z.add_0_l. pose proof Hs2 as [Hc2 _ Hg2 Hk2 Ht2 Hkp2].
  set (t' := set_scan g (t_scan t + 8)).
  assert (Hdead : forall i, Z.of_nat i < t_scan t + 8 -> dead_at g i).
  { intros i Hi. destruct (decide (Z.of_nat i < t_scan t)).
    - apply B7. assert (Hlt : (i < length (t_ents t))%nat) by (rewrite (to_len _ Ht); unfold size_of; lia).
      destruct (lookup_lt_is_Some_2 _ _ Hlt) as [[k v] Hi']. exists k, v. split; [done|]. by eapply (to_scanned _ Ht).
    - apply B6. unfold ENTRIES_PER_COPY_CHUNK. lia. }
  assert (Esc : t_scale g = t_scale t) by apply B2.
  destruct (chain_ok_scan g R2 (t_scan t + 8)) as [Hc3 Hg3]; [done|rewrite Esc; lia|zlia|done|]. fold t' in Hc3, Hg3.
  assert (Hsame : chain_same (t :: R) (t' :: R2)).
  { split; [done|done|intros k; by rewrite Hg3, Hg2| |exact Ht2|].
    2:{ apply kept_chain_head in Hkp2 as (? & ? & [= <- <-] & [] & HRR). apply kept_chain_cons; [|done]. split; try done. simpl. lia. }
    intros t1 k1 [->|Ht1]%elem_of_cons Hh; [apply (Hk2 g); [left|exact Hh]|apply (Hk2 t1); [by right|exact Hh]]. }
  assert (Hhelp : helped t t') by (split; try done; right; done).
  assert (Hgc : 0 <= t_copied t /\ t_copied g <= 2 ^ 27).
  { pose proof Hc2 as (Hg & _). rewrite (to_copied _ Ht), (to_copied _ Hg).
    pose proof (num_range is_dead t Ht). pose proof (num_range is_dead g Hg). lia. }
  apply wpo_bind. destruct (Z.eqb_spec d 0) as [->|Hd0]; cbn [negb].
  - apply wpo_ret, wpo_ret. assert (Ec : t_copied t = t_copied t') by (simpl; lia). rewrite Ec.
    apply (HQ m2 t' R2); try done; [|congruence]. rewrite <- (lag_id t'). rewrite <- Ec. exact Hr2.
  - apply wp_wpo. rewrite <- B1. eapply (wp_word_add _ _ _ (lag g (t_copied t) (t_scan t + 8)) t'); [done|done|done|done|done|..].
    { unfold t'. rewrite u64_small by (simpl; lia). unfold hti_words. simpl. by rewrite B5. }
    intros m3 Hr3 Hd3. apply wpo_ret. change (t_copied (lag g (t_copied t) (t_scan t + 8))) with (t_copied t).
    rewrite u64_small by lia. rewrite <- B5. apply (HQ m3 t' R2); try done. congruence.
Qed.

(** ** Compare-and-swap in one table *)

(** The value of the key after a compare-and-swap to [new] ([0] removes it) *)
Definition cas_value (expected new : Z) (old : option Z) : option Z :=
  if cas_matches expected (default DOES_NOT_EXIST old) then (if new =? DOES_NOT_EXIST then None else Some new) else old.

Definition added (old g : option Z) : Z := Z.b2z (bool_decide (is_Some g)) - Z.b2z (bool_decide (is_Some old)).

Lemma added_same g : added g g = 0.
Proof. unfold added. lia. Qed.

Definition new_ok (new : Z) : Prop := new = DOES_NOT_EXIST \/ is_live new = true.

(** What one [hti_cas] leaves: the operation is done, or the key is to be looked
    for in the next table. *)
Record cas_done ht A t B (key expected new r : Z) (m m' : mem) : Prop := {
  cd_rep : exists t' B', ht_rep m' ht (A ++ t' :: B') /\ length B' = length B /\
    chain_step key (t :: B) (t' :: B') (cas_value expected new (get (t :: B) key))
      (added (get (t :: B) key) (cas_value expected new (get (t :: B) key)));
  cd_val : (if r =? TOMBSTONE then DOES_NOT_EXIST else r) = default DOES_NOT_EXIST (get (t :: B) key);
  cd_not : r <> COPIED_VALUE;
  cd_found : find t key <> None;
  cd_deferred : deferred m' = deferred m;
}.

Record cas_moved ht A t B (key : Z) (m m' : mem) : Prop := {
  cv_rep : exists t' B', ht_rep m' ht (A ++ t' :: B') /\ t_addr t' = t_addr t /\ B' <> [] /\
    chain_step key (t :: B) (t' :: B') (get (t :: B) key) 0 /\ passed t' key /\
    get B' key = get (t :: B) key /\
    (B' = B \/ (B = [] /\ find t key = None /\ exists n, B' = [n] /\ new_tbl n /\
       t_scale n = next_scale (u64 (total (drop dr (A ++ [t])))) t));
  cv_deferred : deferred m' = deferred m;
}.

(** No entry for the key: the table is full *)
Lemma wpo_cas_full fuel m ht A t B key (Q : Z -> mem -> Prop) :
  ht_rep m ht (A ++ t :: B) -> chain_ok (t :: B) -> find t key = None -> (length (A ++ t :: B) < fuel)%nat ->
  (forall m', cas_moved ht A t B key m m' -> Q COPIED_VALUE m') ->
  wpo (next ⇐ load (t_addr t) HTI_NEXT;
       _ ⇐ (if next =? 0 then hti_start_copy fuel ht (t_addr t) else Ret tt);
       Ret COPIED_VALUE) m Q.
Proof using Hlimit.
  intros Hr Hc Hfi Hf HQ. pose proof Hc as (Ht & _ & _ & HB). apply wpo_bind.
  eapply wpo_done; [by apply (rep_load _ _ _ t _ HTI_NEXT _ Hr)|]. destruct B as [|t2 B].
  - cbn [next_of Z.eqb]. apply wpo_bind. eapply wpo_start_copy; [done..|]. intros m1 n Hn Hsn Hr1 Hd1.
    apply wpo_ret, HQ. split; [|done]. exists t, [n]. split_and!; try done.
    + by apply (chain_grow [t] n key).
    + by left.
    + destruct (new_find n key Hn) as (en & En & _). simpl. by rewrite Hfi, En.
    + right. eauto 6.
  - assert (Hnz : (next_of (t2 :: B) =? 0) = false) by (rewrite cons_middle, app_assoc in Hr; by eapply next_of_nz).
    rewrite Hnz. apply wpo_bind, wpo_ret, wpo_ret, HQ. split; [|done]. exists t, (t2 :: B).
    split_and!; try done; [by apply chain_step_refl|by left| |by left].
    symmetry. apply get_cons_passed. by left.
Qed.

Lemma cas_done_refl ht A t B key expected new r m :
  ht_rep m ht (A ++ t :: B) -> chain_ok (t :: B) -> cas_value expected new (get (t :: B) key) = get (t :: B) key ->
  (if r =? TOMBSTONE then DOES_NOT_EXIST else r) = default DOES_NOT_EXIST (get (t :: B) key) -> r <> COPIED_VALUE ->
  find t key <> None -> cas_done ht A t B key expected new r m m.
Proof using Type.
  intros Hr Hc Hv Hval Hn Hff. split; try done. exists t, B. rewrite Hv, added_same. split_and!; try done.
  by apply chain_step_refl.
Qed.

(** The entry for the key holds it. *)
Lemma wpo_cas_present fuel m ht A t B key h expected new e v (Q : Z -> mem -> Prop) :
  ht_rep m ht (A ++ t :: B) -> chain_ok (t :: B) -> find t key = Some (e, false) -> t_ents t !! e = Some (key, v) ->
  expected <> TOMBSTONE -> new_ok new ->
  (forall m', cas_moved ht A t B key m m' -> Q COPIED_VALUE m') ->
  (forall r m', cas_done ht A t B key expected new r m m' -> Q r m') ->
  wpo (ent_val ⇐ load (t_tab t) (ENT_VAL e);
       if negb (IS_TAGGED ent_val TAG1 =? 0) then
         _ ⇐ finish_copy fuel ht (t_addr t) e h ent_val;
         Ret COPIED_VALUE
       else
         let old_existed := negb (ent_val =? TOMBSTONE) && negb (ent_val =? DOES_NOT_EXIST) in
         if negb (expected =? CAS_EXPECT_WHATEVER) && negb (expected =? ent_val) &&
            negb (expected =? (if old_existed then CAS_EXPECT_EXISTS else CAS_EXPECT_DOES_NOT_EXIST))
         then Ret ent_val
         else if (new =? DOES_NOT_EXIST) && negb old_existed || (ent_val =? new) then Ret ent_val
         else
           v ⇐ SYNC_CAS (t_tab t) (ENT_VAL e) ent_val (if new =? DOES_NOT_EXIST then TOMBSTONE else new);
           if negb (v =? ent_val) then hti_cas fuel ht (t_addr t) key h expected new
           else
             _ ⇐ (if old_existed && (new =? DOES_NOT_EXIST) then SYNC_ADD 64 (t_addr t) COUNT (-1)
                  else if negb old_existed && negb (new =? DOES_NOT_EXIST) then SYNC_ADD 64 (t_addr t) COUNT 1
                  else Ret 0);
             Ret ent_val) m Q.
Proof using Type.
  intros Hr Hc Hfi He Hex Hnew HQ1 HQ2. pose proof Hc as (Ht & _ & _ & HB).
  pose proof Hfi as (k' & v' & He' & -> & Hk0)%find_inv. rewrite He in He'. injection He' as <-.
  apply wpo_bind. eapply wpo_done; [by eapply (rep_val _ _ _ t)|]. destruct (is_dead v) eqn:Hd.
  { rewrite (tagged_dead v Hd). cbn [negb]. unfold finish_copy.
    assert (negb (v =? COPIED_VALUE) && negb (v =? TAGGED_TOMBSTONE) = false) as ->.
    { unfold is_dead in Hd. by destruct (v =? COPIED_VALUE), (v =? TAGGED_TOMBSTONE). }
    apply wpo_bind, wpo_ret, wpo_ret, HQ1. assert (Hp : passed t key) by (right; eauto).
    split; [|done]. exists t, B. split_and!; try done; [by eapply dead_next|by apply chain_step_refl| |by left].
    symmetry. by apply get_cons_passed. }
  pose proof (alive_cases _ _ _ _ Ht He Hd) as Hv. rewrite tagged_small by done. cbn [Z.eqb negb]. cbv zeta.
  rewrite <- is_live_eqb by done.
  assert (Hg : get (t :: B) key = if is_live v then Some v else None) by (simpl; by rewrite Hfi, He, Hd).
  assert (Hval : (if v =? TOMBSTONE then DOES_NOT_EXIST else v) = default DOES_NOT_EXIST (get (t :: B) key)).
  { rewrite Hg, is_live_eqb by done. unfold DOES_NOT_EXIST. destruct (v =? TOMBSTONE); [done|]. by destruct (Z.eqb_spec v 0) as [->|]. }
  assert (Hnc : v <> COPIED_VALUE) by (change COPIED_VALUE with (2 ^ 63); change TOMBSTONE with (2 ^ 63 - 1) in Hv; lia).
  set (mt := negb (expected =? CAS_EXPECT_WHATEVER) && _ && _).
  assert (Em : mt = negb (cas_matches expected (default DOES_NOT_EXIST (get (t :: B) key)))).
  { unfold mt. rewrite <- Hval. unfold cas_matches. rewrite is_live_eqb by done. unfold DOES_NOT_EXIST, CAS_EXPECT_DOES_NOT_EXIST.
    destruct (Z.eqb_spec v TOMBSTONE) as [->|]; cbn [negb andb].
    - rewrite (proj2 (Z.eqb_neq expected TOMBSTONE)) by done. rewrite Z.eqb_refl. cbn [negb].
      by destruct (expected =? CAS_EXPECT_WHATEVER), (expected =? 0), (expected =? CAS_EXPECT_EXISTS).
    - destruct (Z.eqb_spec v 0) as [->|]; cbn [negb].
      + by destruct (expected =? CAS_EXPECT_WHATEVER), (expected =? 0), (expected =? CAS_EXPECT_EXISTS).
      + by destruct (expected =? CAS_EXPECT_WHATEVER), (expected =? v), (expected =? CAS_EXPECT_EXISTS). }
  rewrite Em. clear mt Em. destruct (cas_matches expected _) eqn:Hm; cbn [negb].
  2: { apply wpo_ret, HQ2. apply cas_done_refl; try done; try by rewrite Hfi. unfold cas_value. by rewrite Hm. }
  assert (Hcv : cas_value expected new (get (t :: B) key) = if new =? DOES_NOT_EXIST then None else Some new)
    by (unfold cas_value; by rewrite Hm).
  destruct ((new =? DOES_NOT_EXIST) && negb (is_live v) || (v =? new)) eqn:Hsame.
  { apply wpo_ret, HQ2. apply cas_done_refl; try done; try by rewrite Hfi. rewrite Hcv, Hg.
    apply orb_true_iff in Hsame as [[-> ->%negb_true_iff]%andb_true_iff| ->%Z.eqb_eq]; [done|].
    destruct Hnew as [-> |Hl]; [done|]. rewrite Hl. destruct (Z.eqb_spec new DOES_NOT_EXIST) as [->|]; done. }
  apply wpo_bind, wp_wpo. eapply (wp_value _ _ _ t); [done..|]. intros m1 Hr1 Hd1. rewrite !Z.eqb_refl in *. cbn [negb].
  set (w := if new =? DOES_NOT_EXIST then TOMBSTONE else new) in *. set (t1 := set_ent t e key w) in *.
  assert (Hw : 0 <= w <= TOMBSTONE /\ is_live w = negb (new =? DOES_NOT_EXIST)).
  { unfold w. destruct Hnew as [-> |Hl]; [done|]. pose proof (is_live_range new Hl).
    rewrite (proj2 (Z.eqb_neq new DOES_NOT_EXIST)) by (unfold DOES_NOT_EXIST; lia). split; [lia|done]. }
  destruct Hw as [Hwr Hwl].
  assert (Hadd : added (get (t :: B) key) (if new =? DOES_NOT_EXIST then None else Some new) = Z.b2z (is_live w) - Z.b2z (is_live v)).
  { unfold added. rewrite Hg, Hwl. destruct (new =? DOES_NOT_EXIST), (is_live v); done. }
  assert (Hfin : forall m2 t2, ht_rep m2 ht (A ++ t2 :: B) -> deferred m2 = deferred m1 -> update t t2 e key w ->
     t_copied t2 = t_copied t -> t_count t2 = u64 (t_count t - Z.b2z (is_live v) + Z.b2z (is_live w)) -> Q v m2).
  { intros m2 t2 Hr2 Hd2 Hu Hcp Hct. apply HQ2. split; try done; [|by rewrite Hfi|congruence]. exists t2, B. split_and!; try done.
    rewrite Hcv, Hadd. pose proof (step_set t t2 B e key v w Hc He Hk0 Hd Hu Hwr Hcp Hct) as Hs. rewrite Hwl in Hs at 1.
    unfold w in Hs at 1. by destruct (new =? DOES_NOT_EXIST). }
  apply wpo_bind. rewrite Hwl in Hfin. destruct (is_live v) eqn:Hlv, (new =? DOES_NOT_EXIST) eqn:En; cbn [negb andb Z.b2z] in *.
  - apply wp_wpo. eapply (wp_word_add _ _ _ t1 (set_count t1 (u64 (t_count t - 1)))); [done..|]. intros m2 Hr2 Hd2.
    apply wpo_ret. eapply Hfin; [done..|]. simpl. f_equal. lia.
  - apply wpo_ret, wpo_ret. eapply Hfin; [done..|]. rewrite Z.sub_add. by rewrite count_u64.
  - apply wpo_ret, wpo_ret. eapply Hfin; [done..|]. rewrite Z.sub_0_r, Z.add_0_r. by rewrite count_u64.
  - apply wp_wpo. eapply (wp_word_add _ _ _ t1 (set_count t1 (u64 (t_count t + 1)))); [done..|]. intros m2 Hr2 Hd2.
    apply wpo_ret. eapply Hfin; [done..|]. simpl. f_equal. lia.
Qed.

(** The call on one table *)
Lemma wpo_hti_cas fuel m ht A t B key expected new (Q : Z -> mem -> Prop) :
  ht_rep m ht (A ++ t :: B) -> chain_ok (t :: B) -> 0 < key < 2 ^ 64 -> expected <> TOMBSTONE -> new_ok new ->
  (length (A ++ t :: B) + 1 < fuel)%nat ->
  (forall m', cas_moved ht A t B key m m' -> Q COPIED_VALUE m') ->
  (forall r m', cas_done ht A t B key expected new r m m' -> Q r m') ->
  wpo (hti_cas fuel ht (t_addr t) key (murmur32_8b key) expected new) m Q.
Proof using Hlimit.
  intros Hr Hc Hk Hex Hnew Hf HQ1 HQ2. destruct fuel as [|fuel]; [lia|]. cbn [hti_cas]. pose proof Hc as (Ht & _ & _ & HB).
  pose proof (hr_ptr _ _ _ Hr) as Hp. rewrite Forall_app, Forall_cons in Hp. destruct Hp as (_ & Ht0 & _).
  apply wpo_bind, wp_wpo, wp_assert; [by rewrite (proj2 (Z.eqb_neq (t_addr t) 0))|].
  apply wpo_bind, wp_wpo, wp_assert.
  { apply Z.eqb_eq, tagged_small. destruct Hnew as [-> |Hl%is_live_range]; [done|lia]. }
  apply wpo_bind, wp_wpo, wp_assert; [by rewrite (proj2 (Z.eqb_neq key 0)) by lia|].
  apply wpo_bind. eapply wpo_done; [by apply (hti_lookup_run m ht A t B)|].
  destruct (find t key) as [[e []]|] eqn:Hfi.
  - pose proof Hfi as (k' & w & He & ->)%find_inv. apply wpo_bind.
    eapply wpo_done; [by apply (rep_load _ _ _ t _ TABLE _ Hr)|]. cbn [andb].
    assert (Hg : get (t :: B) key = None) by (simpl; by rewrite Hfi).
    destruct (negb (expected =? CAS_EXPECT_WHATEVER) && negb (expected =? CAS_EXPECT_DOES_NOT_EXIST)) eqn:Hx.
    { apply wpo_ret, HQ2. apply cas_done_refl; try done; [|by rewrite Hg|by rewrite Hfi]. rewrite Hg. unfold cas_value.
      cbn [default from_option]. rewrite andb_comm, cas_test_absent in Hx. apply negb_true_iff in Hx. by rewrite Hx. }
    rewrite andb_comm, cas_test_absent in Hx. apply negb_false_iff in Hx.
    destruct (Z.eqb_spec new DOES_NOT_EXIST) as [->|Hn0].
    { apply wpo_ret, HQ2. apply cas_done_refl; try done; [|by rewrite Hg|by rewrite Hfi]. rewrite Hg. unfold cas_value.
      by destruct (cas_matches _ _). }
    assert (Hl : is_live new = true) by (by destruct Hnew). pose proof (is_live_range new Hl) as Hlr.
    rewrite (hr_int _ _ _ Hr). apply wpo_bind, wpo_bind, wpo_ret, wpo_bind, wp_wpo.
    eapply (wp_install _ _ _ t); [done..|]. intros m1 Hr1 Hd1. change (negb (0 =? DOES_NOT_EXIST)) with false. cbv iota.
    set (t1 := set_ent t e key w) in *. apply wpo_bind, wp_wpo.
    eapply (wp_word_add _ _ _ t1 (set_keys t1 (u64 (t_keys t + 1)))); [done..|]. intros m2 Hr2 Hd2.
    set (t2 := set_keys t1 (u64 (t_keys t + 1))) in *. apply wpo_ret.
    assert (He2 : t_ents t2 !! e = Some (key, w)) by (by apply (set_ent_lookup t e key w (0, w))).
    apply wpo_bind. eapply wpo_done; [by eapply (rep_val _ _ _ t2)|].
    destruct (to_vals _ Ht _ _ _ He) as (_ & _ & Hw). destruct (Hw eq_refl) as [-> | ->].
    + change (IS_TAGGED 0 TAG1 =? 0) with true. change (0 =? TOMBSTONE) with false. change (0 =? DOES_NOT_EXIST) with true. cbn [negb andb].
      assert (negb (expected =? CAS_EXPECT_WHATEVER) && negb (expected =? 0) && negb (expected =? CAS_EXPECT_DOES_NOT_EXIST) = false) as ->.
      { unfold cas_matches, CAS_EXPECT_DOES_NOT_EXIST, DOES_NOT_EXIST in *.
        by destruct (expected =? CAS_EXPECT_WHATEVER), (expected =? 0), (expected =? CAS_EXPECT_EXISTS). }
      cbn [orb].
      rewrite (proj2 (Z.eqb_neq 0 new)) by lia. apply wpo_bind, wp_wpo.
      eapply (wp_value _ _ _ t2); [done..|]. intros m3 Hr3 Hd3. rewrite !Z.eqb_refl in *. cbn [negb andb].
      set (t3 := set_ent t2 e key new) in *. apply wpo_bind, wp_wpo.
      eapply (wp_word_add _ _ _ t3 (set_count t3 (u64 (t_count t + 1)))); [done..|]. intros m4 Hr4 Hd4.
      apply wpo_ret, HQ2. split; [|by rewrite Hg|done|by rewrite Hfi|congruence]. eexists _, B. split_and!; [exact Hr4|done|].
      rewrite Hg. unfold cas_value. cbn [default from_option]. rewrite Hx.
      rewrite (proj2 (Z.eqb_neq new DOES_NOT_EXIST)) by done.
      apply (step_put t _ B e key new); try done. split; try done.
      unfold t3, t2, t1, set_count, set_keys, set_ent, with_ents. simpl. by rewrite list_insert_insert_eq.
    + change (IS_TAGGED COPIED_VALUE TAG1 =? 0) with false. cbn [negb].
      apply wpo_bind. change (finish_copy fuel ht (t_addr t) e (murmur32_8b key) COPIED_VALUE) with (Ret (A := unit) tt).
      apply wpo_ret, wpo_ret, HQ1. pose proof (dead_next t B e _ _ Hc He eq_refl) as HB0.
      assert (Hup : update t t2 e key COPIED_VALUE) by done.
      destruct (step_put_dead t t2 B e key Hc HB0 Hfi He Hup Hk eq_refl eq_refl) as (Hst & Hpt & Hgb).
      split; [|congruence]. exists t2, B. rewrite Hg. split_and!; try done. by left.
  - pose proof Hfi as (k' & v & He & -> & _)%find_inv. apply wpo_bind.
    eapply wpo_done; [by apply (rep_load _ _ _ t _ TABLE _ Hr)|]. cbn [andb]. apply wpo_bind, wpo_ret.
    by apply (wpo_cas_present fuel m ht A t B key (murmur32_8b key) expected new e v).
  - apply (wpo_cas_full fuel m ht A t B key); try done. lia.
Qed.

(** ** The loop over the chain *)

(** Whether the search for the key has run off the last table: then one table more
    is there, of the scale [hti_start_copy] chose for [c] keys. *)
Definition appended (c key : Z) (R R' : list tbl) : Prop :=
  (length R' = length R /\ forall t, R = [t] -> find t key <> None) \/
  (length R' = S (length R) /\ exists l n, last R = Some l /\ find l key = None /\ last R' = Some n /\
     t_scale n = next_scale c l).

Lemma appended_moved c key t t' B B' R' g d :
  B' <> [] -> appended c key B' R' -> chain_step key B' R' g d ->
  B' = B \/ (B = [] /\ find t key = None /\ exists n, B' = [n] /\ new_tbl n /\ t_scale n = next_scale c t) ->
  appended c key (t :: B) (t' :: R').
Proof using Type.
  intros HB' Ha Hs [->|(-> & Hf & n & -> & Hn & Esc)].
  - destruct Ha as [[El _]|(El & l & n & Hl & Hf & Hn & Esc)]; [left|right]; simpl.
    + split; [congruence|]. intros t1 [= -> ->]. done.
    + split; [congruence|]. exists l, n. rewrite <- Hl, <- Hn. split_and!; try done; [by destruct B|].
      by destruct R'.
  - right. destruct (new_find n key Hn) as (e & En & _).
    destruct Ha as [[El _]|(_ & l & ? & [= <-] & Hf' & _)]; [|congruence].
    destruct (kept_chain_head _ _ _ (cs_kept _ _ _ _ _ Hs)) as (n' & R1 & -> & Hk & _).
    destruct R1; [|done]. split; [done|]. exists t, n'. split_and!; try done. rewrite <- Esc. apply Hk.
Qed.

Lemma wpo_cas_chain chain fuel m ht A R key expected new (Q : Z -> mem -> Prop) :
  ht_rep m ht (A ++ R) -> chain_ok R -> R <> [] -> 0 < key < 2 ^ 64 -> expected <> TOMBSTONE -> new_ok new ->
  (length R + grows R key < chain)%nat -> (length (A ++ R) + grows R key + 1 < fuel)%nat -> (dr <= length A)%nat ->
  (forall m' R', ht_rep m' ht (A ++ R') ->
     chain_step key R R' (cas_value expected new (get R key)) (added (get R key) (cas_value expected new (get R key))) ->
     appended (u64 (total (drop dr A ++ R))) key R R' ->
     deferred m' = deferred m -> Q (default DOES_NOT_EXIST (get R key)) m') ->
  wpo (cas_chain chain fuel ht (next_of R) key (murmur32_8b key) expected new) m Q.
Proof using Hlimit.
  revert m A R Q. induction chain as [|chain IH]; intros m A R Q Hr Hc HR Hk Hex Hnew Hch Hf Hdr HQ; [lia|].
  destruct R as [|t B]; [done|]. cbn [cas_chain next_of]. apply wpo_bind.
  apply (wpo_hti_cas fuel m ht A t B); try done; [lia|..].
  - intros m1 [(t' & B' & Hr1 & Ea & HB' & Hs & Hp & Hg & HBB) Hd1]. change (COPIED_VALUE =? COPIED_VALUE) with true. cbv iota.
    rewrite <- Ea. assert (Hnz : (next_of B' =? 0) = false).
    { pose proof Hr1 as Hr2. rewrite cons_middle, app_assoc in Hr2. by eapply next_of_nz. }
    apply wpo_bind. eapply wpo_done; [by apply (rep_load _ _ _ t' _ HTI_NEXT _ Hr1)|].
    apply wpo_bind, wp_wpo, wp_assert; [by rewrite Hnz|].
    apply wpo_bind. eapply wpo_done; [by apply (rep_load _ _ _ t' _ HTI_NEXT _ Hr1)|].
    pose proof (cs_ok _ _ _ _ _ Hs) as Hc'. rewrite <- Hg in *. rewrite cons_middle, app_assoc in Hr1.
    assert (Hlen : (length B' + grows B' key < chain /\ length ((A ++ [t']) ++ B') + grows B' key + 1 < fuel)%nat).
    { rewrite !length_app in *. simpl in *. destruct HBB as [->|(-> & Hfi & n & -> & Hn & _)].
      - rewrite grows_cons in Hch, Hf by done. lia.
      - assert (grows [t] key = 1%nat) as Eg by (unfold grows, roomy; simpl; rewrite Hfi; by rewrite bool_decide_false by (by intros [])).
        destruct (new_find n key Hn) as (en & En & _).
        assert (grows [n] key = 0%nat) as Egn by (unfold grows, roomy; simpl; rewrite En; by rewrite bool_decide_true).
        rewrite Eg in *. rewrite Egn. simpl. lia. }
    destruct Hlen as [Hl1 Hl2]. pose proof Hc' as (_ & _ & _ & HcB).
    assert (HdA : drop dr (A ++ [t']) = drop dr A ++ [t']) by (rewrite drop_app_le by done; done).
    assert (Etot : total ((drop dr A ++ [t']) ++ B') = total (drop dr A ++ t :: B)).
    { rewrite <- app_assoc, !total_app. pose proof (cs_total _ _ _ _ _ Hs). simpl in *. lia. }
    apply (IH m1 (A ++ [t']) B'); try done; [rewrite length_app; lia|].
    intros m2 R' Hr2 Hs2 Ha2 Hd2. rewrite <- app_assoc in Hr2. rewrite HdA, Etot in Ha2.
    apply (HQ m2 (t' :: R')); [done| | |congruence].
    2:{ eapply appended_moved; [done|done|exact Hs2|]. destruct HBB as [->|(-> & Hfi & n & -> & Hn & Esc)]; [by left|right].
      rewrite drop_app_le in Esc by done. eauto 8. }
    rewrite <- (Z.add_0_l (added _ _)). eapply chain_step_trans; [exact Hs|].
    apply (chain_step_prefix [t'] key B' R'); [done|done|]. by intros a ->%list_elem_of_singleton.
  - intros r m1 [(t' & B' & Hr1 & Hl & Hs) Hv Hn Hff Hd1]. rewrite (proj2 (Z.eqb_neq r COPIED_VALUE)) by done.
    apply wpo_ret. rewrite Hv. apply (HQ m1 (t' :: B')); try done. left. simpl. split; [lia|]. by intros t1 [= -> _].
Qed.
End grow.
End chain.

(** * The operations of the interface *)

(** The chain as [ht->hti] reaches it *)
Notation ht_rep := (ht_rep_at 0).

Lemma ht_rep_unlink m ht t R w k c d p :
  ht_rep_at 0 m ht (t :: R) -> R <> [] -> heap m !! ht_addr ht = Some [w; k; c; d; p] ->
  ht_rep_at 1 (set_heap m (<[ht_addr ht := [next_of R; k; c; d; p]]> (heap m))) ht (t :: R).
Proof.
  intros [H1 H2 _ H4 H5 H6] HR Hw. pose proof H5 as [Hn _]%NoDup_cons. split; try done.
  - destruct R; [done|]. simpl. lia.
  - exists k, c, d, p. cbn [heap set_heap]. by rewrite lookup_insert_eq.
  - by apply chain_at_fresh.
Qed.

Lemma rep_drop m ht t R : ht_rep_at 1 m ht (t :: R) -> ht_rep m ht R.
Proof.
  intros [H1 H2 H3 (_ & _ & H4) H5 H6]. split; try done.
  - simpl in H2. lia.
  - rewrite addrs_cons in H5. apply NoDup_cons in H5 as [Hn H5]. apply NoDup_cons in H5 as [_ H5].
    apply NoDup_cons in H5 as [_ H5]. apply NoDup_cons. split; [|done]. intros Hi. apply Hn. by do 2 right.
  - by apply Forall_cons in H6 as [_ H6].
Qed.

Section operations.
Context `{Allocator}.

Lemma dropped_dead t i k v :
  tbl_ok t -> t_copied t = 2 ^ t_scale t -> t_ents t !! i = Some (k, v) -> is_dead v = true.
Proof.
  intros Ht Hcp. apply num_all. rewrite <- (to_copied _ Ht), Hcp, (to_len _ Ht). unfold size_of.
  rewrite Z2Nat.id; [done|]. apply Z.pow_nonneg. lia.
Qed.

Lemma ht_get_ok fuel m ht ts M key :
  ht_rep m ht ts -> chain_map M ts -> (length ts < fuel)%nat ->
  run (ht_get fuel ht key) m = Done (lookup_spec M key) m.
Proof.
  intros Hr [Hc Hne Hg _] Hf. unfold ht_get. rewrite (hr_int _ _ _ Hr), run_bind.
  cbn [key_hash_of]. rewrite run_ret, run_bind, (rep_first_table _ _ _ Hr). unfold lookup_spec. rewrite Hg.
  by apply (hti_get_run (dr := 0) fuel m ht []).
Qed.

(** C6: [ht_get] of a hash table of integer keys returns the value of the key, or
    [DOES_NOT_EXIST], wherever in the chain of tables of an unfinished copy the
    key is, and leaves the memory as it was. *)
Theorem ht_get_refines fuel m ht ts M key :
  ht_rep m ht ts -> chain_map M ts -> (length ts < fuel)%nat ->
  run (ht_get fuel ht key) m = Done (lookup_spec M key) m.
Proof. exact (ht_get_ok fuel m ht ts M key). Qed.

Lemma ht_count_ok fuel m ht ts M :
  ht_rep m ht ts -> chain_map M ts -> (length ts < fuel)%nat ->
  run (ht_count fuel ht) m = Done (u64 (Z.of_nat (size M))) m.
Proof. intros Hr HM Hf. rewrite <- (cm_total _ _ HM). by apply (ht_count_run (dr := 0)). Qed.

(** [ht_count] is the number of keys, with the counters of all the tables of
    an unfinished copy taken together. *)
Theorem ht_count_refines fuel m ht ts M :
  ht_rep m ht ts -> chain_map M ts -> (length ts < fuel)%nat ->
  run (ht_count fuel ht) m = Done (u64 (Z.of_nat (size M))) m.
Proof. exact (ht_count_ok fuel m ht ts M). Qed.

(** The keys of a table of integers are not blocks: only the values are checked. *)
Lemma defer_keys_run dr k m ht A t B i :
  ht_rep_at dr m ht (A ++ t :: B) ->
  (forall i k v, t_ents t !! i = Some (k, v) -> 0 <= v <= TOMBSTONE \/ is_dead v = true) ->
  (i + k <= length (t_ents t))%nat ->
  run (defer_keys k ht (t_addr t) i) m = Done tt m.
Proof.
  intros Hr Ht. revert i. induction k as [|k IH]; intros i Hi; [done|]. cbn [defer_keys].
  rewrite run_bind, (rep_load _ _ _ t _ TABLE _ Hr eq_refl).
  destruct (lookup_lt_is_Some_2 (t_ents t) i) as [[k0 v] He]; [lia|].
  rewrite run_bind, (rep_key _ _ _ _ _ _ _ _ Hr He), run_bind, (rep_val _ _ _ _ _ _ _ _ Hr He).
  destruct (Z.eqb_spec v COPIED_VALUE) as [->|Hv]; [apply IH; lia|].
  rewrite run_bind, run_assert, (hr_int _ _ _ Hr), run_bind, run_ret; [apply IH; lia|].
  destruct (Ht _ _ _ He) as [Hr1|Hd]; [by rewrite (tagged_small v)|].
  apply is_dead_cases in Hd as [->| ->]; [done|]. by rewrite Z.eqb_refl, orb_true_r.
Qed.

Lemma rep_heap dr m m' ht ts : heap m' = heap m -> ht_rep_at dr m ht ts -> ht_rep_at dr m' ht ts.
Proof. intros E [H1 H2 H3 H4 H5 H6]. split; rewrite ?E; done. Qed.

(** Giving up a reference to a table; when it was the last one, its two blocks go to
    [rcu_defer_free]. *)
Lemma wp_release dr m ht A t B (Q : unit -> mem -> Prop) :
  ht_rep_at dr m ht (A ++ t :: B) -> tbl_ok t ->
  (forall m', ht_rep_at dr m' ht (A ++ set_ref t (t_ref t - 1) :: B) ->
     deferred m' = (if t_ref t =? 1 then [t_addr t; t_tab t] else []) ++ deferred m -> Q tt m') ->
  wp (hti_release ht (t_addr t)) m Q.
Proof.
  intros Hr Ht HQ. unfold hti_release. set (t1 := set_ref t (t_ref t - 1)) in *. pose proof Hr as [Hw _]%hr_chain%chain_at_app.
  pose proof (to_ref _ Ht) as Hrf.
  apply wp_bind. eapply wp_done; [by apply (rep_load _ _ _ t _ REF_COUNT _ Hr)|].
  apply wp_bind, wp_assert; [apply Z.ltb_lt; lia|]. apply wp_bind. eapply wp_add; [exact Hw|done|].
  rewrite Z.mod_small by lia. replace (t_ref t + -1) with (t_ref t - 1) by lia.
  change (<[REF_COUNT := t_ref t - 1]> (hti_words (ht_addr ht) (next_of B) t)) with (hti_words (ht_addr ht) (next_of B) t1).
  assert (Hr1 : ht_rep_at dr (set_heap m (<[t_addr t := hti_words (ht_addr ht) (next_of B) t1]> (heap m))) ht (A ++ t1 :: B))
    by (apply (ht_rep_replace m ht A t); [done..|left; done]).
  set (m1 := set_heap m _) in *. destruct (Z.eqb_spec (t_ref t) 1) as [E|E].
  2:{ rewrite (proj2 (Z.eqb_neq _ 0)) by lia. by apply wp_ret, HQ. }
  rewrite (proj2 (Z.eqb_eq _ 0)) by lia. unfold hti_defer_free.
  apply wp_bind. eapply wp_done; [by apply (rep_load _ _ _ t1 _ REF_COUNT _ Hr1)|].
  apply wp_bind, wp_assert; [apply Z.eqb_eq; simpl; lia|].
  apply wp_bind. eapply wp_done; [by apply (rep_load _ _ _ t1 _ SCALE _ Hr1)|].
  apply wp_bind. eapply wp_done.
  { apply (defer_keys_run dr _ _ _ A t1 B 0 Hr1); change (t_ents t1) with (t_ents t); [|by rewrite (to_len _ Ht)].
    intros i k v Hi. by apply (to_vals _ Ht i k). }
  apply wp_bind. eapply wp_done; [by apply (rep_load _ _ _ t1 _ TABLE _ Hr1)|].
  apply wp_bind, wp_defer, wp_bind, wp_defer, wp_ret, HQ; [|done]. by apply (rep_heap dr m1).
Qed.

(** [Hlimit]: see the section on growth. *)
Context (Hlimit : forall h n p, alloc h n = Some p -> Z.of_nat n <= 2 ^ 28).

Definition all_dead (t : tbl) : Prop := forall i k v, t_ents t !! i = Some (k, v) -> is_dead v = true.

(** [hti_cas] on a table that was unlinked because every entry is dead: it may
    install the key once more, but goes on to the next table. *)
Lemma wpo_cas_dead fuel m ht t rc R key expected new (Q : Z -> mem -> Prop) :
  ht_rep_at 1 m ht (set_ref t rc :: R) -> chain_ok (t :: R) -> t_copied t = 2 ^ t_scale t ->
  0 < key < 2 ^ 64 -> is_live new = true -> (0 < fuel)%nat ->
  (forall t' m', ht_rep_at 1 m' ht (t' :: R) -> kept (set_ref t rc) t' -> all_dead t' -> deferred m' = deferred m ->
     Q COPIED_VALUE m') ->
  (get R key = None -> cas_matches expected DOES_NOT_EXIST = false -> Q DOES_NOT_EXIST m) ->
  wpo (hti_cas fuel ht (t_addr t) key (murmur32_8b key) expected new) m Q.
Proof.
  intros Hr Hc Hcp Hk Hl Hf HQ1 HQ2. set (u := set_ref t rc) in *. destruct fuel as [|fuel]; [lia|]. cbn [hti_cas]. pose proof Hc as (Ht & _).
  destruct (chain_drop t R key Hc Hcp) as (HR & _ & Hg & _). pose proof (is_live_range new Hl) as Hlr.
  assert (Hdead : forall i k v, t_ents t !! i = Some (k, v) -> is_dead v = true) by (intros ???; by apply dropped_dead).
  pose proof (hr_ptr _ _ _ Hr) as [Ht0 _]%Forall_cons.
  apply wpo_bind, wp_wpo, wp_assert; [by rewrite (proj2 (Z.eqb_neq (t_addr t) 0))|].
  apply wpo_bind, wp_wpo, wp_assert; [by apply Z.eqb_eq, tagged_small; lia|].
  apply wpo_bind, wp_wpo, wp_assert; [by rewrite (proj2 (Z.eqb_neq key 0)) by lia|].
  apply wpo_bind. eapply wpo_done; [apply (hti_lookup_slots (dr := 1) m ht [] u R); [done|]; intros i Hi; by eapply (slots_some t key)|].
  change (find u key) with (find t key). destruct (find t key) as [[e []]|] eqn:Hfi.
  - pose proof Hfi as (k' & w & He & ->)%find_inv. apply wpo_bind.
    eapply wpo_done; [by apply (rep_load _ _ [] u _ TABLE _ Hr)|]. cbn [andb].
    assert (Hw : w = COPIED_VALUE).
    { destruct (to_vals _ Ht _ _ _ He) as (_ & _ & Hv). destruct (Hv eq_refl) as [-> |]; [|done]. by specialize (Hdead _ _ _ He). }
    subst w. destruct (negb (expected =? CAS_EXPECT_WHATEVER) && negb (expected =? CAS_EXPECT_DOES_NOT_EXIST)) eqn:Hx.
    { rewrite andb_comm, cas_test_absent in Hx. apply negb_true_iff in Hx. apply wpo_ret, HQ2; [|done].
      rewrite Hg. simpl. by rewrite Hfi. }
    rewrite (proj2 (Z.eqb_neq new DOES_NOT_EXIST)) by (unfold DOES_NOT_EXIST; lia).
    rewrite (hr_int _ _ _ Hr). apply wpo_bind, wpo_bind, wpo_ret, wpo_bind, wp_wpo.
    eapply (wp_install _ _ [] u); [done..|]. intros m1 Hr1 Hd1. change (negb (0 =? DOES_NOT_EXIST)) with false. cbv iota.
    set (t1 := set_ent u e key COPIED_VALUE) in *. apply wpo_bind, wp_wpo.
    set (t2 := set_keys t1 (u64 (t_keys t + 1))). eapply (wp_word_add _ _ [] t1 t2); [done..|]. intros m2 Hr2 Hd2. apply wpo_ret.
    assert (He2 : t_ents t2 !! e = Some (key, COPIED_VALUE)) by (by apply (set_ent_lookup u e key _ (0, COPIED_VALUE))).
    apply wpo_bind. eapply wpo_done; [by eapply (rep_val _ _ [] t2)|].
    change (IS_TAGGED COPIED_VALUE TAG1 =? 0) with false. cbn [negb]. apply wpo_bind, wpo_ret, wpo_ret.
    apply (HQ1 t2 m2 Hr2); [by split| |congruence]. intros i k0 v0 Hi.
    rewrite (update_lookup u t2 e key COPIED_VALUE) in Hi by (done || by eapply lookup_lt_Some).
    case_decide; [by injection Hi as _ <-|by eapply Hdead].
  - pose proof Hfi as (k' & v & He & -> & _)%find_inv. apply wpo_bind.
    eapply wpo_done; [by apply (rep_load _ _ [] u _ TABLE _ Hr)|]. cbn [andb]. apply wpo_bind, wpo_ret.
    apply wpo_bind. eapply wpo_done; [by eapply (rep_val _ _ [] u)|].
    pose proof (Hdead _ _ _ He) as Hv. rewrite (tagged_dead v Hv). cbn [negb]. apply wpo_bind.
    assert (finish_copy fuel ht (t_addr t) e (murmur32_8b key) v = Ret (A := unit) tt) as ->
      by (apply is_dead_cases in Hv as [-> | ->]; done).
    by apply wpo_ret, wpo_ret, (HQ1 u m).
  - apply wpo_bind. eapply wpo_done; [by apply (rep_load _ _ [] u _ HTI_NEXT _ Hr)|].
    rewrite (next_of_nz (dr := 1) m ht [u] R) by done. apply wpo_bind, wpo_ret, wpo_ret. by apply (HQ1 u m).
Qed.

(** The loop of [ht_cas] when the call has just unlinked the table it started from *)
Lemma wpo_cas_chain_dead fuel m ht t rc R key expected new (Q : Z -> mem -> Prop) :
  ht_rep_at 1 m ht (set_ref t rc :: R) -> chain_ok (t :: R) -> t_copied t = 2 ^ t_scale t ->
  0 < key < 2 ^ 64 -> expected <> TOMBSTONE -> is_live new = true -> (length R + 4 < fuel)%nat ->
  (forall m' t' R', ht_rep_at 1 m' ht (t' :: R') -> kept (set_ref t rc) t' -> all_dead t' ->
     (length R' <= S (length R))%nat ->
     chain_step key R R' (cas_value expected new (get R key)) (added (get R key) (cas_value expected new (get R key))) ->
     deferred m' = deferred m -> Q (default DOES_NOT_EXIST (get R key)) m') ->
  wpo (cas_chain fuel fuel ht (t_addr t) key (murmur32_8b key) expected new) m Q.
Proof using Hlimit.
  intros Hr Hc Hcp Hk Hex Hl Hf HQ. destruct fuel as [|fuel]; [lia|]. cbn [cas_chain].
  destruct (chain_drop t R key Hc Hcp) as (HR & HcR & _ & _).
  assert (Hgr : (grows R key <= 1)%nat) by (unfold grows; destruct (roomy R key); lia).
  apply wpo_bind, (wpo_cas_dead (S fuel) m ht t rc R key expected new); try done; [lia|..].
  - intros t' m1 Hr1 Hkp Had Hd1. change (COPIED_VALUE =? COPIED_VALUE) with true. cbv iota.
    change (t_addr t) with (t_addr (set_ref t rc)). rewrite <- (kp_addr _ _ Hkp).
    assert (Hnz := next_of_nz (dr := 1) m1 ht [t'] R Hr1 HR).
    apply wpo_bind. eapply wpo_done; [by apply (rep_load _ _ [] t' _ HTI_NEXT _ Hr1)|].
    apply wpo_bind, wp_wpo, wp_assert; [by rewrite Hnz|].
    apply wpo_bind. eapply wpo_done; [by apply (rep_load _ _ [] t' _ HTI_NEXT _ Hr1)|].
    eapply (wpo_cas_chain Hlimit fuel (S fuel) m1 ht [t'] R); try done; [by right|lia|simpl; lia|].
    intros m2 R' Hr2 Hs Happ Hd2. apply (HQ m2 t' R'); try done; [|congruence].
    destruct Happ as [[-> _]|[-> _]]; lia.
  - intros Hg Hx. change (DOES_NOT_EXIST =? COPIED_VALUE) with false. change (DOES_NOT_EXIST =? TOMBSTONE) with false.
    apply wpo_ret. specialize (HQ m (set_ref t rc) R Hr). rewrite Hg in HQ.
    apply HQ; try done; [intros i k0 v0 Hi; by eapply dropped_dead; [apply Hc|..]|lia|].
    unfold cas_value. cbn [default from_option]. rewrite Hx, added_same, <- Hg. by apply chain_step_refl.
Qed.

Lemma chain_map_cas M ts ts' key e v :
  chain_map M ts -> v <> DOES_NOT_EXIST ->
  chain_step key ts ts' (cas_value e v (get ts key)) (added (get ts key) (cas_value e v (get ts key))) ->
  chain_map (cas_spec M key e v).2 ts'.
Proof.
  intros HM Hv Hs. pose proof (cm_get _ _ HM key) as Hg. rewrite <- Hg in Hs.
  replace (cas_spec M key e v).2 with (partial_alter (fun _ => cas_value e v (M !! key)) key M).
  { by eapply chain_map_step. }
  unfold cas_spec, cas_value, lookup_spec. cbn [snd]. rewrite (proj2 (Z.eqb_neq v DOES_NOT_EXIST)) by done.
  destruct (cas_matches e _); [done|]. by apply partial_alter_id.
Qed.

(** What [ht_cas] does to the tables, besides the update of the map. *)
Inductive cas_tables (ht : hashtable_t) (key : Z) (m m' : mem) : list tbl -> list tbl -> Prop :=
  | ct_room t t' :
      find t key <> None -> kept t t' -> deferred m' = deferred m -> cas_tables ht key m m' [t] [t']
  | ct_grow t t' n :
      find t key = None -> kept t t' -> t_scale n = next_scale (u64 (total [t])) t -> deferred m' = deferred m ->
      cas_tables ht key m m' [t] [t'; n]
  | ct_copy t t' R R' :
      R <> [] -> kept t t' -> t_scan t + Z.of_nat ENTRIES_PER_COPY_CHUNK <= t_scan t' ->
      t_scan t + Z.of_nat ENTRIES_PER_COPY_CHUNK < 2 ^ t_scale t ->
      kept_chain R R' -> (length R' <= length R + 9)%nat -> deferred m' = deferred m ->
      cas_tables ht key m m' (t :: R) (t' :: R')
  | ct_unlink t u R R' :
      R <> [] -> ht_rep_at 1 m' ht (u :: R') -> kept (set_ref t (t_ref t - 1)) u -> all_dead u ->
      kept_chain R R' -> (length R' <= length R + 9)%nat ->
      deferred m' = (if t_ref t =? 1 then [t_addr t; t_tab t] else []) ++ deferred m ->
      cas_tables ht key m m' (t :: R) R'.

Lemma appended_tables ht key m m' t ts' :
  kept_chain [t] ts' -> appended (u64 (total [t])) key [t] ts' -> deferred m' = deferred m ->
  cas_tables ht key m m' [t] ts'.
Proof using Type.
  intros (t' & R' & -> & Hk & _)%kept_chain_head Ha Hd. destruct Ha as [[El Hf]|(El & l & n & [= <-] & Hf & Hn & Esc)].
  - destruct R'; [|done]. by apply ct_room; [apply Hf| |].
  - destruct R' as [|n' [|]]; [done| |done]. injection Hn as ->. by apply ct_grow.
Qed.

(** The outcome of the call *)
Definition cas_outcome ht key e v (M : gmap Z Z) (m : mem) (ts : list tbl) (r : Z) (m' : mem) : Prop :=
  r = (cas_spec M key e v).1 /\
  exists ts', ht_rep m' ht ts' /\ chain_map (cas_spec M key e v).2 ts' /\ cas_tables ht key m m' ts ts'.

(** The rest of the call from a chain of the same map that still starts with the
    table the call started from *)
Lemma wpo_cas_rest fuel m0 m ht t R M key e v ts :
  ht_rep m ht (t :: R) -> chain_map M (t :: R) -> 0 < key < 2 ^ 64 -> e <> TOMBSTONE -> 0 < v < TOMBSTONE ->
  (length R + 4 < fuel)%nat ->
  (forall m' ts', kept_chain (t :: R) ts' -> appended (u64 (total (t :: R))) key (t :: R) ts' ->
     deferred m' = deferred m -> cas_tables ht key m0 m' ts ts') ->
  wpo (h ⇐ key_hash_of (ht_key_type ht) key; cas_chain fuel fuel ht (t_addr t) key h e v) m (cas_outcome ht key e v M m0 ts).
Proof using Hlimit.
  intros Hr HM Hk He Hv Hf HQ. pose proof HM as [Hc _ Hg _]. rewrite (hr_int _ _ _ Hr). apply wpo_bind, wpo_ret.
  assert (grows (t :: R) key <= 1)%nat by (unfold grows; destruct (roomy _ key); lia).
  assert (Hl : is_live v = true) by (unfold is_live; lia).
  apply (wpo_cas_chain (dr := 0) Hlimit fuel fuel m ht [] (t :: R)); try done; [by right|simpl; lia|simpl; lia|].
  intros m2 R2 Hr2 Hs Ha Hd2. split; [by rewrite <- Hg|]. exists R2. split_and!; [done| |].
  - eapply chain_map_cas; [done| |done]. unfold DOES_NOT_EXIST. lia.
  - by apply HQ; [apply (cs_kept _ _ _ _ _ Hs)|..].
Qed.

(** The first table is copied: it is unlinked. *)
Lemma wpo_cas_unlink fuel m0 m ht t t1 R R1 M key e v :
  ht_rep m ht (t1 :: R1) -> chain_map M (t1 :: R1) -> t_copied t1 = 2 ^ t_scale t1 -> kept t t1 -> kept_chain R R1 ->
  R <> [] -> R1 <> [] -> (length R1 <= length R + 8)%nat -> deferred m = deferred m0 ->
  0 < key < 2 ^ 64 -> e <> TOMBSTONE -> 0 < v < TOMBSTONE -> (length R1 + 4 < fuel)%nat ->
  wpo (next ⇐ load (t_addr t1) HTI_NEXT;
       _ ⇐ assert (negb (next =? 0));
       next ⇐ load (t_addr t1) HTI_NEXT;
       old ⇐ SYNC_CAS (ht_addr ht) HT_HTI (t_addr t1) next;
       if old =? t_addr t1 then hti_release ht (t_addr t1) else Ret tt) m
    (fun _ m' => wpo (h ⇐ key_hash_of (ht_key_type ht) key; cas_chain fuel fuel ht (t_addr t1) key h e v) m'
      (cas_outcome ht key e v M m0 (t :: R))).
Proof using Hlimit.
  intros Hr1 HM1 Ec Hk1 HkR HR HR1 Hlen Hd0 Hk He Hv Hf. pose proof HM1 as [Hc1 _ Hg1 _]. pose proof Hc1 as [Ht1 _].
  assert (Hl : is_live v = true) by (unfold is_live; lia).
  assert (Hnz1 := next_of_nz (dr := 0) m ht [t1] R1 Hr1 HR1).
  apply wpo_bind. eapply wpo_done; [by apply (rep_load _ _ [] t1 _ HTI_NEXT _ Hr1)|].
  apply wpo_bind, wp_wpo, wp_assert; [by rewrite Hnz1|].
  apply wpo_bind. eapply wpo_done; [by apply (rep_load _ _ [] t1 _ HTI_NEXT _ Hr1)|].
  pose proof (hr_struct _ _ _ Hr1) as (k & c & d & p & Hw). apply wpo_bind, wp_wpo.
  eapply wp_cas_succ; [exact Hw|done|]. rewrite Z.eqb_refl. cbn [insert list_insert HT_HTI].
  pose proof (ht_rep_unlink _ _ _ _ _ _ _ _ _ Hr1 HR1 Hw) as Hr2. apply wp_wpo.
  eapply (wp_release 1 _ ht [] t1); [exact Hr2|done|]. intros m3 Hr3 Hd3. cbn [app] in Hr3.
  destruct (chain_drop t1 R1 key Hc1 Ec) as (_ & HcR & HgR & _). rewrite (hr_int _ _ _ Hr1). apply wpo_bind, wpo_ret.
  eapply wpo_cas_chain_dead; try done. intros m4 u R4 Hr4 Hku Hau Hl4 Hs4 Hd4.
  split; [by rewrite HgR, <- Hg1|]. exists R4. split_and!.
  - by apply (rep_drop _ _ u).
  - apply (chain_map_cas M R1); [by apply (chain_map_drop M t1)| |done]. unfold DOES_NOT_EXIST. lia.
  - destruct Hk1 as [K1 K2 K3 K4 K5]. apply (ct_unlink _ _ _ _ t u); try done.
    + etrans; [|exact Hku]. split; try done; simpl; lia.
    + etrans; [done|]. apply (cs_kept _ _ _ _ _ Hs4).
    + lia.
    + rewrite Hd4, Hd3, <- K1, <- K2, <- K4. cbn [deferred set_heap]. by rewrite Hd0.
Qed.

Lemma ht_cas_ok fuel m ht ts M key e v :
  ht_rep m ht ts -> chain_map M ts -> 0 < key < 2 ^ 64 -> e <> TOMBSTONE -> 0 < v < TOMBSTONE ->
  (2 * length ts + 30 < fuel)%nat ->
  wpo (ht_cas fuel ht key e v) m (cas_outcome ht key e v M m ts).
Proof using Hlimit.
  intros Hr HM Hk He Hv Hf. pose proof HM as [Hc Hne Hg _]. destruct ts as [|t R]; [done|].
  unfold ht_cas. apply wpo_bind, wp_wpo, wp_assert; [by rewrite (proj2 (Z.eqb_neq key DOES_NOT_EXIST)) by (unfold DOES_NOT_EXIST; lia)|].
  apply wpo_bind, wp_wpo, wp_assert.
  { rewrite (tagged_small v), (proj2 (Z.eqb_neq v _)), (proj2 (Z.eqb_neq v TOMBSTONE)) by (unfold DOES_NOT_EXIST; lia) || done. done. }
  apply wpo_bind. eapply wpo_done; [by apply (rep_first_table _ _ _ Hr)|]. cbn [drop next_of].
  apply wpo_bind. eapply wpo_done; [by apply (rep_load _ _ [] t _ HTI_NEXT _ Hr)|].
  destruct R as [|t2 R]; cbn [next_of].
  { rewrite Z.eqb_refl. cbn [negb]. apply wpo_bind, wpo_ret. simpl in Hf.
    apply (wpo_cas_rest _ _ _ _ t []); try done; [simpl; lia|]. intros m' ts'. apply appended_tables. }
  assert (Hnz := next_of_nz (dr := 0) m ht [t] (t2 :: R) Hr ltac:(done)). cbn [next_of] in Hnz. rewrite Hnz. cbn [negb].
  simpl in Hf. apply wpo_bind, wpo_bind. eapply (wpo_help_copy (dr := 0) Hlimit fuel m ht [] t (t2 :: R)); try done; [simpl; lia|].
  intros m1 t1 R1 Hr1 Hs1 [Ea Esh Erf Hp] Hl1 HR1 Hd1. pose proof (chain_map_same _ _ _ HM Hs1) as HM1.
  pose proof (kept_chain_head _ _ _ (sm_kept _ _ Hs1)) as (? & ? & [= <- <-] & Hk1 & HkR).
  rewrite <- Ea. destruct (Z.eqb_spec (t_copied t1) (2 ^ t_scale t)) as [Ec|Ec].
  - rewrite <- (proj1 Esh) in Ec. apply (wpo_cas_unlink _ _ _ _ t t1 (t2 :: R) R1); try done. simpl in *. lia.
  - apply wpo_ret. apply (wpo_cas_rest _ _ _ _ t1 R1); try done; [simpl in *; lia|].
    intros m' ts' (t' & R' & -> & Hkt & HkR')%kept_chain_head Happ Hd'. destruct Hp as [|Hp]; [done|].
    pose proof HM1 as [[Ht1 _] _ _ _]. pose proof (to_scan _ Ht1) as [Hx _]. destruct Esh as [Esh _].
    apply ct_copy; [done|by etrans|..|by etrans| |congruence].
    + rewrite <- Hp. apply Hkt.
    + assert (t_scan t1 <> 2 ^ t_scale t1); [|rewrite <- Esh; lia]. intros E. apply Ec. rewrite <- Esh. by apply scan_end.
    + destruct Happ as [[El _]|[El _]]; simpl in *; lia.
Qed.


Lemma ht_remove_ok fuel m ht ts M key :
  ht_rep m ht ts -> chain_map M ts -> 0 < key < 2 ^ 64 -> (length ts + 2 < fuel)%nat ->
  wpo (ht_remove fuel ht key) m (fun r m' => r = (remove_spec M key).1 /\
    exists ts', ht_rep m' ht ts' /\ chain_map (remove_spec M key).2 ts' /\ deferred m' = deferred m).
Proof using Hlimit.
  intros Hr HM Hk Hf. pose proof HM as [Hc Hne Hg _]. unfold ht_remove.
  apply wpo_bind. eapply wpo_done; [by apply (rep_first_table _ _ _ Hr)|]. cbn [drop].
  rewrite (hr_int _ _ _ Hr). apply wpo_bind, wpo_ret.
  assert (grows ts key <= 1)%nat by (unfold grows; destruct (roomy _ key); lia).
  apply (wpo_cas_chain (dr := 0) Hlimit fuel fuel m ht [] ts); try done; [by left|lia|simpl; lia|].
  intros m' ts' Hr' Hs _ Hd. split; [by rewrite <- Hg|]. exists ts'. split_and!; [done| |done].
  rewrite <- Hg in Hs. cbn [remove_spec snd].
  assert (cas_value CAS_EXPECT_WHATEVER DOES_NOT_EXIST (M !! key) = None) as E by done. rewrite E in Hs.
  replace (delete key M) with (partial_alter (fun _ => None) key M) by done. by eapply chain_map_step.
Qed.

(** C8: [ht_remove] of a hash table of integer keys returns the value of the key, or
    [DOES_NOT_EXIST], and removes it, also in the middle of a copy. *)
Theorem ht_remove_refines fuel m ht ts M key :
  ht_rep m ht ts -> chain_map M ts -> 0 < key < 2 ^ 64 -> (length ts + 2 < fuel)%nat ->
  wpo (ht_remove fuel ht key) m (fun r m' => r = (remove_spec M key).1 /\
    exists ts', ht_rep m' ht ts' /\ chain_map (remove_spec M key).2 ts' /\ deferred m' = deferred m).
Proof using Hlimit. exact (ht_remove_ok fuel m ht ts M key). Qed.

Lemma new_chain_map n : new_tbl n -> chain_map ∅ [n].
Proof.
  intros Hn. split; [|done|..].
  - simpl. split_and!; [by apply new_tbl_ok|by intros t' k ?%not_elem_of_nil|intros _; apply Hn|done].
  - intros k. destruct (new_find n k Hn) as (e & E & _). simpl. by rewrite E.
  - unfold total. simpl. by rewrite (nt_count _ Hn).
Qed.

(** [ht_alloc] creates an empty hash table of 16 entries, unless the memory is
    exhausted. *)
Theorem ht_alloc_empty m :
  wpo (ht_alloc None) m (fun ht m' => exists t, ht_rep m' ht [t] /\ chain_map ∅ [t] /\ t_scale t = MIN_SCALE /\
    deferred m' = deferred m /\ forall a b, heap m !! a = Some b -> heap m' !! a = Some b).
Proof using Hlimit.
  unfold ht_alloc. apply wpo_bind, wpo_malloc. intros p Ep Hp [Hp0 _] Hlen. set (b := junk (heap m) 5) in *.
  destruct b as [|b0 [|b1 [|b2 [|b3 [|b4 [|]]]]]]; try done.
  apply wpo_bind, wp_wpo. eapply wp_store; [cbn [heap set_heap]; apply lookup_insert_eq|unfold HT_KEY_TYPE; simpl; lia|].
  cbn [heap set_heap insert list_insert HT_KEY_TYPE]. rewrite insert_insert_eq.
  apply wpo_bind, wpo_hti_alloc; [exact Hlimit|done|]. intros a tab t Hn Ha Htab Hne Ha0. cbn [heap set_heap] in *.
  apply lookup_insert_None in Ha as [Ha Hpa], Htab as [Htab Hpt].
  apply wpo_bind, wp_wpo. eapply wp_store; [cbn [heap set_heap]; by simplify_map_eq|unfold HT_HTI; simpl; lia|].
  apply wpo_bind, wp_wpo. eapply wp_store; [cbn [heap set_heap]; by simplify_map_eq|unfold HT_COPIES; simpl; lia|].
  cbn [heap set_heap insert list_insert HT_HTI HT_COPIES]. apply wpo_ret. exists t. split_and!; [|by apply new_chain_map|done..|].
  - split; [done|simpl; lia|..].
    + exists 0, 0, b3, b4. cbn [heap set_heap]. by simplify_map_eq.
    + cbn [heap set_heap chain_at]. by simplify_map_eq.
    + change (NoDup [p; a; tab]). rewrite !NoDup_cons, !elem_of_cons, !elem_of_nil. split_and!; [naive_solver..|by apply NoDup_nil].
    + by constructor.
  - intros x bx Hx. cbn [heap set_heap]. rewrite !lookup_insert_ne by congruence. done.
Qed.
End operations.
