(* ===== verification/HashtableIter.v ===== *)
(** The copy of a hash table to its successor ends, and the iterator of a table
    that is not being copied yields every key once. *)
From S2P Require Import Prelude Random Machine Datatype MapSpec SkipNodes Hashtable HashChain HashtableProof.

Section copy.
Context `{Allocator}.
(** No block of more than 2^31 bytes can be had. *)
Context (Hlimit : forall h n p, alloc h n = Some p -> Z.of_nat n <= 2 ^ 28).

(** [k] chunks are left; each of them may start up to 8 nested copies. *)
Lemma wpo_help_until_done k fuel m ht A t R (Q : unit -> mem -> Prop) :
  ht_rep m ht (A ++ t :: R) -> chain_ok (t :: R) -> R <> [] -> (0 < k)%nat ->
  2 ^ t_scale t - t_scan t <= Z.of_nat (8 * k) ->
  (length (A ++ t :: R) + length R + 20 + 16 * k < fuel)%nat ->
  (forall m' t' R', ht_rep m' ht (A ++ t' :: R') -> chain_same (t :: R) (t' :: R') ->
     t_copied t' = 2 ^ t_scale t' -> R' <> [] -> (length R' <= length R + 8 * k)%nat -> deferred m' = deferred m ->
     Q tt m') ->
  wpo (help_until_done k fuel ht (t_addr t)) m Q.
Proof using Hlimit.
  revert m t R Q. induction k as [|k IH]; intros m t R Q Hr Hc HR Hk0 Hk Hf HQ; [lia|]. cbn [help_until_done].
  apply wpo_bind, (wpo_help_copy (dr := 0) Hlimit fuel m ht A t R); [done..|lia|].
  intros m1 t1 R1 Hr1 Hs1 [Ea [Es Ep] Erf Hp] Hl1 HR1 Hd1. pose proof Hs1 as [Hc1 _ _ _ _ _].
  pose proof Hc1 as [Ht1 _]. destruct (Z.eqb_spec (t_copied t1) (2 ^ t_scale t)) as [Ec|Ec].
  { apply wpo_ret, (HQ m1 t1 R1); rewrite ?Es; done || lia. }
  destruct Hp as [|Hp]; [done|]. unfold ENTRIES_PER_COPY_CHUNK in Hp. rewrite <- Ea.
  destruct (to_scan _ Ht1) as [Hx _]. assert (t_scan t1 <> 2 ^ t_scale t1) by (intros E; apply Ec; rewrite <- Es; by apply scan_end).
  rewrite Es in *. apply (IH m1 t1 R1); try done; [lia|rewrite Es; lia|rewrite !length_app in *; simpl in *; lia|].
  intros m2 t2 R2 Hr2 Hs2 Ec2 HR2 Hl2 Hd2. apply (HQ m2 t2 R2); try done; [by eapply chain_same_trans|lia|congruence].
Qed.

(** C34: copying a table ends: [ht_iter_begin] calls [hti_help_copy] until it says
    that the copy is done, and, unless the memory is exhausted meanwhile, it does so
    by the [n]th call when at most [8 * n] entries are left to scan. The first
    argument of [help_until_done] is the number of calls allowed. Every entry of
    the table is then dead, the map is the one it was, the other tables are where
    they were, and nothing was handed to [rcu_defer_free]. *)
Theorem ht_copy_completes n fuel m ht t R M :
  ht_rep m ht (t :: R) -> chain_map M (t :: R) -> R <> [] ->
  (0 < n)%nat -> 2 ^ t_scale t - t_scan t <= 8 * Z.of_nat n -> (2 * length R + 21 + 16 * n < fuel)%nat ->
  wpo (help_until_done n fuel ht (t_addr t)) m (fun _ m' => exists t' R',
    ht_rep m' ht (t' :: R') /\ chain_map M (t' :: R') /\ R' <> [] /\
    kept t t' /\ kept_chain R R' /\ all_dead t' /\ deferred m' = deferred m).
Proof using Hlimit.
  intros Hr HM HR Hn Hk Hf. pose proof HM as [Hc _ _ _].
  apply (wpo_help_until_done n fuel m ht [] t R); try done; [lia|simpl; lia|].
  intros m' t' R' Hr' Hs Ec HR' _ Hd. exists t', R'. pose proof (chain_map_same _ _ _ HM Hs) as HM'.
  apply sm_kept, kept_chain_head in Hs as (? & ? & [= <- <-] & Hk1 & HkR).
  split_and!; try done. intros i k v. apply dropped_dead; [|done]. by destruct HM' as [[? _] _ _ _].
Qed.
End copy.

(** * Iteration *)

(** A client's loop: the pairs an iterator yields until it returns
    [DOES_NOT_EXIST] *)
Fixpoint ht_drain (steps fuel : nat) (ht : hashtable_t) (iter : ht_iter_t) : prog (list (Z * Z)) :=
  match steps with
  | O => Fail OutOfFuel
  | S steps =>
      r ⇐ ht_iter_next fuel ht iter;
      match r with
      | (iter, v, k) =>
          if v =? DOES_NOT_EXIST then Ret [] else rest ⇐ ht_drain steps fuel ht iter; Ret ((k, v) :: rest)
      end
  end.

(** The entries of a table that hold a value *)
Definition live_entries (ents : list (Z * Z)) : list (Z * Z) := filter (fun e => is_live e.2 = true) ents.

(** The next of them from index [i] on *)
Fixpoint next_live (ents : list (Z * Z)) (i : nat) : option (nat * (Z * Z)) :=
  match ents with
  | [] => None
  | (k, v) :: ents => if is_live v then Some (i, (k, v)) else next_live ents (S i)
  end.

Lemma next_live_spec ents i :
  match next_live ents i with
  | None => live_entries ents = []
  | Some (j, (k, v)) => exists d, j = (i + d)%nat /\ ents !! d = Some (k, v) /\ is_live v = true /\
      live_entries ents = (k, v) :: live_entries (drop (S d) ents)
  end.
Proof.
  revert i. induction ents as [|[k v] ents IH]; intros i; [done|]. cbn [next_live]. unfold live_entries in *.
  rewrite filter_cons. cbn [snd]. destruct (is_live v) eqn:Hl.
  - exists 0%nat. rewrite decide_True by done. split_and!; done || lia.
  - rewrite decide_False by done. specialize (IH (S i)). destruct (next_live ents (S i)) as [[j [k' v']]|]; [|done].
    destruct IH as (d & -> & Hd & Hl' & E). exists (S d). split_and!; done || lia.
Qed.

(** The entries of the last table are not dead. *)
Lemma not_copied t i k v : chain_ok [t] -> t_ents t !! i = Some (k, v) ->
  0 <= v <= TOMBSTONE /\ (k = 0 -> v = 0) /\ 0 <= k.
Proof.
  intros (Ht & _ & Hc & _) Hi. specialize (Hc eq_refl). rewrite (to_copied _ Ht) in Hc.
  pose proof (num_zero is_dead _ _ _ _ Hc Hi) as Hd. destruct (to_vals _ Ht _ _ _ Hi) as ([Hv|Hv] & Hk & H0); [|congruence].
  split_and!; [lia..| |lia]. intros Hk0. destruct (H0 Hk0) as [->| ->]; [done|]. by vm_compute in Hd.
Qed.

Section iterate.
Context `{Allocator}.

Lemma iter_scan_run n fuel m ht t i :
  ht_rep m ht [t] -> chain_ok [t] -> (i + n = length (t_ents t))%nat -> (n < fuel)%nat ->
  run (iter_scan fuel ht (t_addr t) (Z.of_nat i - 1)) m =
    match next_live (drop i (t_ents t)) i with
    | None => Done (2 ^ t_scale t, None) m
    | Some (j, (k, v)) => Done (Z.of_nat j, Some (k, v)) m
    end.
Proof.
  intros Hr Hc. pose proof Hc as [Ht _]. pose proof (to_scale _ Ht). pose proof (to_len _ Ht) as Hlen. unfold size_of in Hlen.
  assert (0 < 2 ^ t_scale t) by (apply Z.pow_pos_nonneg; lia).
  revert fuel i. induction n as [|n IH]; intros fuel i Hi Hf; (destruct fuel as [|fuel]; [lia|]); cbn [iter_scan];
    rewrite run_bind, (rep_load _ _ [] t _ SCALE _ Hr eq_refl).
  - rewrite (proj2 (Z.eqb_eq (Z.of_nat i - 1 + 1) (2 ^ t_scale t))) by lia. rewrite drop_ge by lia.
    cbn [next_live]. rewrite run_ret. do 2 f_equal. lia.
  - rewrite (proj2 (Z.eqb_neq (Z.of_nat i - 1 + 1) (2 ^ t_scale t))) by lia.
    rewrite run_bind, (rep_load _ _ [] t _ TABLE _ Hr eq_refl). replace (Z.of_nat i - 1 + 1) with (Z.of_nat i) by lia.
    rewrite Nat2Z.id. destruct (lookup_lt_is_Some_2 (t_ents t) i) as [[k v] He]; [lia|].
    rewrite run_bind, (rep_key _ _ [] t _ _ _ _ Hr He), (hr_int _ _ _ Hr).
    rewrite run_bind, (rep_val _ _ [] t _ _ _ _ Hr He). destruct (not_copied _ _ _ _ Hc He) as (Hv & Hk & _).
    rewrite (drop_S _ _ _ He). cbn [next_live]. pose proof (is_live_eqb v Hv) as El. destruct (is_live v).
    + symmetry in El. apply andb_true_iff in El as [E1%negb_true_iff E2%negb_true_iff]. rewrite E1, E2.
      rewrite (proj2 (Z.eqb_neq k DOES_NOT_EXIST)); [done|]. intros Hk0. rewrite (Hk Hk0) in E2. done.
    + assert ((k =? DOES_NOT_EXIST) || (v =? DOES_NOT_EXIST) || (v =? TOMBSTONE) = true) as ->.
      { destruct (v =? TOMBSTONE), (v =? DOES_NOT_EXIST); try done; by rewrite ?orb_true_r. }
      replace (Z.of_nat i) with (Z.of_nat (S i) - 1) by lia. apply IH; lia.
Qed.

Lemma ht_drain_run steps fuel m ht t a i :
  ht_rep m ht [t] -> chain_ok [t] -> (i <= length (t_ents t))%nat -> (length (t_ents t) < fuel)%nat ->
  (length (live_entries (drop i (t_ents t))) < steps)%nat ->
  run (ht_drain steps fuel ht (HTIter a (t_addr t) (Z.of_nat i - 1))) m = Done (live_entries (drop i (t_ents t))) m.
Proof.
  intros Hr Hc. revert i. induction steps as [|steps IH]; intros i Hi Hf Hs; [lia|]. cbn [ht_drain].
  destruct fuel as [|fuel]; [lia|]. rewrite run_bind. cbn [ht_iter_next it_hti it_idx it_addr].
  rewrite run_bind, (iter_scan_run (length (t_ents t) - i) _ _ _ _ i Hr Hc) by lia.
  pose proof (next_live_spec (drop i (t_ents t)) i) as Hn.
  destruct (next_live (drop i (t_ents t)) i) as [[j [k v]]|]; [|by rewrite Hn].
  destruct Hn as (d & -> & Hd & Hl & E). rewrite lookup_drop in Hd. rewrite drop_drop in E.
  destruct (not_copied _ _ _ _ Hc Hd) as (Hv & _). pose proof (is_live_range v Hl) as Hlr.
  rewrite (proj2 (Z.eqb_neq v COPIED_VALUE)) by (change TOMBSTONE with (2 ^ 63 - 1) in *; change COPIED_VALUE with (2 ^ 63); lia).
  rewrite run_ret, (proj2 (Z.eqb_neq v DOES_NOT_EXIST)) by (unfold DOES_NOT_EXIST; lia).
  pose proof (lookup_lt_Some _ _ _ Hd). rewrite E in Hs |- *. simpl in Hs.
  replace (Z.of_nat (i + d)) with (Z.of_nat (i + S d) - 1) by lia.
  rewrite run_bind, (IH (i + S d)%nat) by lia. done.
Qed.

(** The live entries of the only table are the map. *)
Lemma live_entries_map M t : chain_map M [t] -> live_entries (t_ents t) ≡ₚ map_to_list M.
Proof.
  intros [Hc _ Hg _]. pose proof Hc as [Ht _].
  assert (Hat : forall i k v, t_ents t !! i = Some (k, v) -> is_live v = true -> find t k = Some (i, false)).
  { intros i k v Hi Hl. apply (to_found _ Ht _ _ _ Hi). intros ->.
    destruct (not_copied _ _ _ _ Hc Hi) as (_ & Hk & _). by rewrite (Hk eq_refl) in Hl. }
  apply NoDup_Permutation; [|apply NoDup_map_to_list|].
  - apply NoDup_filter_inj. intros i j [k v] Hi Hj Hl. simpl in Hl. pose proof (Hat _ _ _ Hi Hl). pose proof (Hat _ _ _ Hj Hl).
    congruence.
  - intros [k v]. rewrite elem_of_map_to_list, Hg. unfold live_entries. rewrite list_elem_of_filter. simpl. split.
    + intros [Hl [i Hi]%list_elem_of_lookup]. rewrite (Hat _ _ _ Hi Hl), Hi.
      destruct (not_copied _ _ _ _ Hc Hi) as (Hv & _). by rewrite (not_dead v Hv), Hl.
    + destruct (find t k) as [[i []]|] eqn:Hf; [done| |done].
      destruct (find_inv _ _ _ _ Hf) as (k' & v' & Hi & -> & _). rewrite Hi.
      destruct (is_dead v'); [done|]. destruct (is_live v') eqn:Hl; [|done]. intros [= ->].
      split; [done|]. by eapply list_elem_of_lookup_2.
Qed.

(** The memory while an iterator at [a] holds its reference *)
Definition iterating (m : mem) ht t a : mem :=
  let t1 := set_ref t (t_ref t + 1) in
  let m1 := set_heap m (<[t_addr t := hti_words (ht_addr ht) (next_of []) t1]> (heap m)) in
  set_heap m1 (<[a := junk (heap m1) 2]> (heap m1)).

Lemma iter_begin_run fuel m ht t key :
  ht_rep m ht [t] -> tbl_ok t -> can_alloc m 2 -> (0 < fuel)%nat ->
  exists a, run (ht_iter_begin fuel ht key) m = Done (HTIter a (t_addr t) (-1)) (iterating m ht t a) /\
    ht_rep (iterating m ht t a) ht [set_ref t (t_ref t + 1)] /\ heap m !! a = None.
Proof.
  intros Hr Ht Ha Hf. pose proof (to_ref _ Ht) as Hrf0. pose proof Hr as [Hw _]%hr_chain%(chain_at_app _ _ [] t []).
  set (t1 := set_ref t (t_ref t + 1)). set (w1 := hti_words (ht_addr ht) (next_of []) t1).
  set (m1 := set_heap m (<[t_addr t := w1]> (heap m))).
  assert (Hr1 : ht_rep m1 ht [t1]) by (apply (ht_rep_replace m ht [] t); [done..|left; done]).
  destruct (Ha (heap m1)) as [a Ea]; [by apply dom_insert_lookup_L; eauto|].
  pose proof (alloc_fresh _ _ _ Ea) as Hfr. pose proof Hfr as Hfr0. unfold m1 in Hfr0.
  cbn [heap set_heap] in Hfr0. apply lookup_insert_None in Hfr0 as [Hfr0 _]. exists a. split_and!; [| |done].
  - enough (wp (ht_iter_begin fuel ht key) m (fun it m' => it = HTIter a (t_addr t) (-1) /\ m' = iterating m ht t a))
      as (it & m' & E & -> & ->)%wp_run by done.
    destruct fuel as [|fuel]; [lia|]. unfold ht_iter_begin. apply wp_bind. cbn [iter_table].
    apply wp_bind. eapply wp_done; [by apply (rep_first_table _ _ _ Hr)|]. cbn [drop next_of].
    apply wp_bind. cbn [last_table]. apply wp_bind. eapply wp_done; [by apply (rep_load _ _ [] t _ HTI_NEXT _ Hr)|].
    apply wp_ret, wp_bind. cbn [take_ref]. apply wp_bind. eapply wp_done; [by apply (rep_load _ _ [] t _ REF_COUNT _ Hr)|].
    rewrite (proj2 (Z.eqb_neq (t_ref t) 0)) by lia. apply wp_bind. eapply wp_cas_succ; [exact Hw|done|].
    change (<[REF_COUNT := t_ref t + 1]> (hti_words (ht_addr ht) (next_of []) t)) with w1.
    rewrite Z.eqb_refl. apply wp_ret, wp_ret, wp_bind, (wp_malloc _ _ a); [done|]. intros _ _ _. by apply wp_ret.
  - destruct (ht_rep_addr _ _ _ _ Hr1 Hfr) as [Hn1 Hn2]. destruct Hr1 as [I1 I2 (k & c & d & p & I3) I4 I5 I6]. split; try done.
    + exists k, c, d, p. unfold iterating. cbn [heap set_heap]. by rewrite lookup_insert_ne.
    + by apply chain_at_fresh.
Qed.

Lemma iter_free_run m ht t a i :
  ht_rep m ht [t] -> tbl_ok t -> t_ref t + 1 < 2 ^ 31 -> heap m !! a = None ->
  ht_rep (iterating m ht t a) ht [set_ref t (t_ref t + 1)] ->
  run (ht_iter_free ht (HTIter a (t_addr t) i)) (iterating m ht t a) = Done tt m.
Proof.
  intros Hr Ht Hrf Hfr Hr2. pose proof (to_ref _ Ht) as Hrf0. pose proof Hr as [Hw _]%hr_chain%(chain_at_app _ _ [] t []).
  set (t1 := set_ref t (t_ref t + 1)) in *. assert (Hat : a <> t_addr t) by congruence.
  enough (wp (ht_iter_free ht (HTIter a (t_addr t) i)) (iterating m ht t a) (fun _ m' => m' = m)) as ([] & m' & E & ->)%wp_run by done.
  unfold ht_iter_free, hti_release. apply wp_bind. cbn [it_hti it_addr].
  change (t_addr t) with (t_addr t1) at 1. apply wp_bind. eapply wp_done; [by apply (rep_load _ _ [] t1 _ REF_COUNT _ Hr2)|].
  apply wp_bind, wp_assert; [apply Z.ltb_lt; simpl; lia|]. pose proof Hr2 as [Hw2 _]%hr_chain%(chain_at_app _ _ [] t1 []).
  apply wp_bind. eapply wp_add; [exact Hw2|done|]. cbn [t_ref t1 set_ref]. rewrite Z.mod_small by lia.
  rewrite (proj2 (Z.eqb_neq _ 0)) by lia. apply wp_ret, wp_bind. unfold iterating.
  eapply wp_free; [cbn [heap set_heap t_addr t1 set_ref]; rewrite lookup_insert_ne by done; apply lookup_insert_eq|].
  apply wp_ret, wp_ret. destruct m as [h df rd]. unfold set_heap. cbn [heap deferred rand] in *. f_equal.
  replace (t_ref t + 1 + -1) with (t_ref t) by lia. apply map_eq. intros x. cbn [t_addr t1 set_ref].
  destruct (decide (x = a)) as [->|Hxa]; [by rewrite lookup_delete_eq|]. rewrite lookup_delete_ne by done.
  destruct (decide (x = t_addr t)) as [->|Hxt]; [by rewrite lookup_insert_eq, Hw|].
  rewrite !lookup_insert_ne by done. done.
Qed.

(** C35: on a hash table that is not being copied [ht_iter_begin] takes a reference
    to the table, which is one more than before while the iterator lives, and
    changes nothing else of it; [ht_iter_next] then yields each key of the map
    exactly once, with its value, and changes nothing; [ht_iter_free] gives the
    reference back, and the memory is as it was. *)
Theorem ht_iterates steps fuel m ht t M key :
  ht_rep m ht [t] -> chain_map M [t] -> t_ref t + 1 < 2 ^ 31 -> can_alloc m 2 ->
  (size M < steps)%nat -> (length (t_ents t) < fuel)%nat ->
  exists iter m1 es,
    run (ht_iter_begin fuel ht key) m = Done iter m1 /\
    ht_rep m1 ht [set_ref t (t_ref t + 1)] /\ it_hti iter = t_addr t /\ heap m !! it_addr iter = None /\
    run (ht_drain steps fuel ht iter) m1 = Done es m1 /\ es ≡ₚ map_to_list M /\
    run (ht_iter_free ht iter) m1 = Done tt m.
Proof.
  intros Hr HM Hrf Ha Hs Hf. pose proof HM as [Hc _ _ _]. pose proof Hc as [Ht _]. pose proof (to_ref _ Ht) as Hrf0.
  destruct (iter_begin_run fuel m ht t key Hr Ht Ha) as (a & Eb & Hr2 & Hfr); [lia|].
  exists (HTIter a (t_addr t) (-1)), (iterating m ht t a), (live_entries (t_ents t)).
  split_and!; try done; [|by apply live_entries_map|by apply iter_free_run].
  assert (Hc1 : chain_ok [set_ref t (t_ref t + 1)]).
  { destruct Hc as ([] & Hc). split; [|exact Hc]. split; try done. simpl. lia. }
  apply (ht_drain_run steps fuel _ ht _ a 0 Hr2 Hc1); [lia|done|]. rewrite drop_0.
  change (t_ents (set_ref t (t_ref t + 1))) with (t_ents t). rewrite (live_entries_map M t HM). by rewrite length_map_to_list.
Qed.
End iterate.
