(* ===== verification/HashtableExamples.v ===== *)
(** The theorems on the hash table applied to a table in memory, and a run that
    shows an iterator return a key that was removed. *)
From S2P Require Import Prelude Random Machine Datatype MapSpec SkipNodes Hashtable HashChain HashtableProof HashtableIter.

(** An allocator of blocks of at most 2^31 bytes *)
#[export] Program Instance limited : Allocator := {|
  alloc h n := if decide (Z.of_nat n <= 2 ^ 28) then bump_alloc h n else None;
  junk := fun _ n => replicate n 3472328296227680304;
|}.
Next Obligation. intros h n p E. simpl in E. case_decide; [|done]. by apply (alloc_fresh (Allocator := bump) h n). Qed.
Next Obligation. intros h n p E. simpl in E. case_decide; [|done]. by apply (alloc_node_ptr (Allocator := bump) h n). Qed.
Next Obligation. intros h n p E. simpl in E. case_decide; [|done]. by apply (alloc_aligned (Allocator := bump) h n). Qed.
Next Obligation. intros. apply length_replicate. Qed.

Lemma limited_ok h n p : alloc (Allocator := limited) h n = Some p -> Z.of_nat n <= 2 ^ 28.
Proof. simpl. by case_decide. Qed.

(** 5 is mapped to 50, 7 was added and removed. *)
Definition ex_ents : list (Z * Z) :=
  [(7, TOMBSTONE); (0, 0); (0, 0); (0, 0); (0, 0); (5, 50)] ++ replicate 10 (0, 0).

Definition ex_t : tbl := Tbl 64 128 4 8 ex_ents 1 2 0 0 1.

Definition ex_n : tbl := fresh_tbl 448 512 4.

Definition ex_ht : hashtable_t := HT 8 None.

Definition ex_m (ts : list tbl) : mem :=
  Mem (list_to_map ((8, [next_of ts; 0; 0; 0; 0]) ::
    concat (imap (fun i t => [(t_addr t, hti_words 8 (next_of (drop (S i) ts)) t); (t_tab t, flat (t_ents t))]) ts))) [] rng0.

Lemma ex_rep1 : ht_rep (ex_m [ex_t]) ex_ht [ex_t].
Proof.
  split; [done|simpl; lia|by exists 0, 0, 0, 0|by vm_compute|apply (bool_decide_unpack _); by vm_compute|by constructor].
Qed.

Lemma ex_rep2 : ht_rep (ex_m [ex_t; ex_n]) ex_ht [ex_t; ex_n].
Proof.
  split; [done|simpl; lia|by exists 0, 0, 0, 0|by vm_compute|apply (bool_decide_unpack _); by vm_compute|by repeat constructor].
Qed.

Lemma ex_lookup i k v : ex_ents !! i = Some (k, v) ->
  (i = 0%nat /\ k = 7 /\ v = TOMBSTONE) \/ (i = 5%nat /\ k = 5 /\ v = 50) \/ (k = 0 /\ v = 0).
Proof. intros Hi. do 16 (destruct i as [|i]; [cbn in Hi; injection Hi as <- <-; tauto|]). done. Qed.

Lemma ex_tbl_ok : tbl_ok ex_t.
Proof.
  split.
  - simpl. lia.
  - simpl. lia.
  - reflexivity.
  - intros i k v [(_ & -> & ->)|[(_ & -> & ->)|[-> ->]]]%ex_lookup; change TOMBSTONE with (2 ^ 63 - 1); split_and!; lia.
  - intros i k v [(-> & -> & ->)|[(-> & -> & ->)|[-> ->]]]%ex_lookup; done || (intros _; vm_compute; reflexivity).
  - vm_compute. reflexivity.
  - vm_compute. reflexivity.
  - simpl. lia.
  - by split_and!.
  - intros i k v _ Hi. simpl in Hi. lia.
Qed.

Lemma ex_map1 : chain_map {[ 5 := 50 ]} [ex_t].
Proof.
  assert (Hc : chain_ok [ex_t]).
  { split_and!; [apply ex_tbl_ok|by intros t' k ?%not_elem_of_nil|done..]. }
  split; [done|done| |by vm_compute]. intros k. destruct (decide (k = 5)) as [->|Hk]; [by vm_compute|].
  rewrite lookup_singleton_ne by done. cbn [get]. destruct (find ex_t k) as [[i []]|] eqn:Hf; [done| |done].
  apply find_inv in Hf as (k' & v & Hi & -> & Hk0). rewrite Hi.
  apply ex_lookup in Hi as [(_ & _ & ->)|[(_ & ? & _)|[? _]]]; [by vm_compute|done|done].
Qed.

Lemma ex_new : new_tbl ex_n.
Proof. split; try reflexivity; simpl; unfold ex_n, probe_of; simpl; lia. Qed.

Lemma ex_map2 : chain_map {[ 5 := 50 ]} [ex_t; ex_n].
Proof.
  pose proof ex_map1 as HM. pose proof HM as [Hc _ Hg _].
  apply (chain_map_same _ [ex_t]); [done|]. apply (chain_step_same 0); [|by left].
  apply (chain_grow [ex_t] ex_n 0); [done|done|apply ex_new].
Qed.

(** * Witnesses *)

Lemma ht_get_refines_witness : run (ht_get 9 ex_ht 5) (ex_m [ex_t; ex_n]) = Done 50 (ex_m [ex_t; ex_n]).
Proof.
  etransitivity; [apply (ht_get_refines 9 _ ex_ht [ex_t; ex_n] {[ 5 := 50 ]} 5);
    [apply ex_rep2|apply ex_map2|simpl; lia]|by vm_compute].
Defined.

Lemma ht_count_refines_witness : run (ht_count 9 ex_ht) (ex_m [ex_t; ex_n]) = Done 1 (ex_m [ex_t; ex_n]).
Proof.
  etransitivity; [apply (ht_count_refines 9 _ ex_ht [ex_t; ex_n] {[ 5 := 50 ]});
    [apply ex_rep2|apply ex_map2|simpl; lia]|by vm_compute].
Defined.


Lemma ht_remove_refines_witness :
  wpo (ht_remove 9 ex_ht 5) (ex_m [ex_t; ex_n]) (fun r m' => r = 50 /\
    exists ts', ht_rep m' ex_ht ts' /\ chain_map ∅ ts' /\ deferred m' = []).
Proof.
  eapply wpo_mono.
  { apply (ht_remove_refines limited_ok 9 (ex_m [ex_t; ex_n]) ex_ht [ex_t; ex_n] {[ 5 := 50 ]} 5);
      [apply ex_rep2|apply ex_map2|lia|simpl; lia]. }
  intros r m' [-> Hts]. split; [by vm_compute|]. assert ((remove_spec {[ 5 := 50 ]} 5).2 = ∅) as <- by (by vm_compute).
  exact Hts.
Defined.

Lemma ht_alloc_empty_witness :
  wpo (ht_alloc None) mem0 (fun ht m' => exists t, ht_rep m' ht [t] /\ chain_map ∅ [t] /\ t_scale t = 4 /\
    deferred m' = [] /\ forall a b, heap mem0 !! a = Some b -> heap m' !! a = Some b).
Proof. apply (ht_alloc_empty limited_ok mem0). Defined.

Lemma ht_copy_completes_witness : exists m',
  run (help_until_done 2 60 ex_ht 64) (ex_m [ex_t; ex_n]) = Done tt m' /\ exists t' R',
    ht_rep m' ex_ht (t' :: R') /\ chain_map {[ 5 := 50 ]} (t' :: R') /\ R' <> [] /\
    kept ex_t t' /\ kept_chain [ex_n] R' /\ all_dead t' /\ deferred m' = [].
Proof.
  assert (H : wpo (help_until_done 2 60 ex_ht 64) (ex_m [ex_t; ex_n]) (fun _ m' => exists t' R',
    ht_rep m' ex_ht (t' :: R') /\ chain_map {[ 5 := 50 ]} (t' :: R') /\ R' <> [] /\
    kept ex_t t' /\ kept_chain [ex_n] R' /\ all_dead t' /\ deferred m' = [])).
  { apply (ht_copy_completes limited_ok 2 60 (ex_m [ex_t; ex_n]) ex_ht ex_t [ex_n] {[ 5 := 50 ]});
      [apply ex_rep2|apply ex_map2|done|lia|simpl; lia|simpl; lia]. }
  assert (E : match run (help_until_done 2 60 ex_ht 64) (ex_m [ex_t; ex_n]) with Done _ _ => true | _ => false end = true)
    by (vm_compute; reflexivity).
  unfold wpo in H. destruct (run _ _) as [[] m'|]; [|discriminate E]. exists m'. by split.
Defined.

Lemma ht_iterates_witness : exists iter m1 es,
  run (ht_iter_begin 20 ex_ht 0) (ex_m [ex_t]) = Done iter m1 /\
  ht_rep m1 ex_ht [set_ref ex_t 2] /\ it_hti iter = 64 /\ heap (ex_m [ex_t]) !! it_addr iter = None /\
  run (ht_drain 9 20 ex_ht iter) m1 = Done es m1 /\ es ≡ₚ [(5, 50)] /\
  run (ht_iter_free ex_ht iter) m1 = Done tt (ex_m [ex_t]).
Proof.
  assert (map_to_list ({[ 5 := 50 ]} : gmap Z Z) = [(5, 50)]) as <- by (by vm_compute).
  apply (ht_iterates 9 20 (ex_m [ex_t]) ex_ht ex_t {[ 5 := 50 ]} 0);
    [apply ex_rep1|apply ex_map1|done| |by vm_compute; lia|simpl; lia].
  intros h Eh. simpl. apply (bump_room h 2 100); [|done..]. rewrite Eh. intros a Ha.
  assert (a = 8 \/ a = 64 \/ a = 128) as [-> |[-> | ->]]; [|done..].
  revert Ha. unfold ex_m. cbn [heap]. rewrite dom_list_to_map_L. cbn. set_solver.
Defined.

(** * Where the code departs from its documentation *)

(** [ht_cas] of each key to ten times the key *)
Fixpoint puts (ht : hashtable_t) (ks : list Z) : prog unit :=
  match ks with
  | [] => Ret tt
  | k :: ks => _ ⇐ ht_cas 90 ht k CAS_EXPECT_WHATEVER (10 * k); puts ht ks
  end.

(** An iterator that was begun before the table was copied returns a key that
    was removed before the iterator was begun, with the tagged tombstone as its
    value: [ht_iter_next] skips tombstones, but not the tagged tombstones that the
    copy leaves in the old table. *)
Theorem ht_iter_returns_removed : exists es m,
  run (ht ⇐ ht_alloc None; _ ⇐ puts ht [5; 7; 1; 2; 3; 4; 6; 8]; _ ⇐ ht_remove 90 ht 7;
       iter ⇐ ht_iter_begin 90 ht 0; _ ⇐ puts ht [9; 10; 11; 12; 13; 14; 15; 16; 17; 18; 19; 20];
       r ⇐ ht_get 90 ht 7; es ⇐ ht_drain 90 90 ht iter; Ret (r, es)) mem0 = Done (DOES_NOT_EXIST, es) m /\
  (7, TAGGED_TOMBSTONE) ∈ es.
Proof.
  eexists _, _. split; [vm_compute; reflexivity|]. apply (bool_decide_unpack _). by vm_compute.
Qed.
