(* ===== verification/Map.v ===== *)
(** The generic map of [map/map.c]: a table of operations with the data they work
    on. [MapLaws] is what the map expects of an implementation; the list, the two
    skiplists and the hash table have instances of it, and the operations of the
    map are proved against it. *)
From S2P Require Import Prelude Random Machine Datatype MapSpec.
From S2P Require LinkedList SkipNodes UnsafeSkiplist Skiplist Hashtable HashChain HashtableProof.

(** [map_impl_t]: the operations of an implementation, on its own type of data and
    of iterators; [fuel] bounds the loops. [print] is left out. *)
Record map_impl := MapImpl {
  data : Type;
  iter : Type;
  impl_alloc : option datatype -> prog data;
  impl_cas : nat -> data -> Z -> Z -> Z -> prog Z;
  impl_get : nat -> data -> Z -> prog Z;
  impl_remove : nat -> data -> Z -> prog Z;
  impl_count : nat -> data -> prog Z;
  impl_free : nat -> data -> prog unit;
  impl_iter_begin : nat -> data -> Z -> prog iter;
  impl_iter_next : nat -> iter -> prog (iter * Z * Z);
  impl_iter_free : iter -> prog Z;
}.

(** [struct map] and [struct map_iter], with their addresses; their fields never
    change *)
Record map_t := Map { map_addr : Z; impl : map_impl; map_data : data impl }.

Record map_iter := MapIter { iter_addr : Z; iter_impl : map_impl; iter_state : iter iter_impl }.

Definition map_alloc (I : map_impl) (key_type : option datatype) : prog map_t :=
  map ⇐ malloc 2;
  d ⇐ impl_alloc I key_type;
  Ret (Map map I d).

Definition map_free (fuel : nat) (map : map_t) : prog unit := impl_free (impl map) fuel (map_data map).

Definition map_count (fuel : nat) (map : map_t) : prog Z := impl_count (impl map) fuel (map_data map).

Definition map_get (fuel : nat) (map : map_t) (key : Z) : prog Z := impl_get (impl map) fuel (map_data map) key.

Definition map_set (fuel : nat) (map : map_t) (key new_val : Z) : prog Z :=
  impl_cas (impl map) fuel (map_data map) key CAS_EXPECT_WHATEVER new_val.

Definition map_add (fuel : nat) (map : map_t) (key new_val : Z) : prog Z :=
  impl_cas (impl map) fuel (map_data map) key CAS_EXPECT_DOES_NOT_EXIST new_val.

Definition map_cas (fuel : nat) (map : map_t) (key expected_val new_val : Z) : prog Z :=
  impl_cas (impl map) fuel (map_data map) key expected_val new_val.

Definition map_replace (fuel : nat) (map : map_t) (key new_val : Z) : prog Z :=
  impl_cas (impl map) fuel (map_data map) key CAS_EXPECT_EXISTS new_val.

Definition map_remove (fuel : nat) (map : map_t) (key : Z) : prog Z :=
  impl_remove (impl map) fuel (map_data map) key.

Definition map_iter_begin (fuel : nat) (map : map_t) (key : Z) : prog map_iter :=
  iter ⇐ malloc 2;
  st ⇐ impl_iter_begin (impl map) fuel (map_data map) key;
  Ret (MapIter iter (impl map) st).

(** The iterator, the value returned and [*key_ptr] *)
Definition map_iter_next (fuel : nat) (iter : map_iter) : prog (map_iter * Z * Z) :=
  r ⇐ impl_iter_next (iter_impl iter) fuel (iter_state iter);
  match r with (st, val, key) => Ret (MapIter (iter_addr iter) (iter_impl iter) st, val, key) end.

Definition map_iter_free (iter : map_iter) : prog Z :=
  _ ⇐ impl_iter_free (iter_impl iter) (iter_state iter);
  nbd_free (iter_addr iter).

(** The four tables of operations *)
Definition MAP_IMPL_LL : map_impl :=
  MapImpl LinkedList.list_t LinkedList.ll_iter_t LinkedList.ll_alloc LinkedList.ll_cas LinkedList.ll_lookup
    LinkedList.ll_remove LinkedList.ll_count LinkedList.ll_free LinkedList.ll_iter_begin LinkedList.ll_iter_next
    LinkedList.ll_iter_free.

Definition MAP_IMPL_SL : map_impl :=
  MapImpl SkipNodes.skiplist_t Skiplist.sl_iter_t Skiplist.sl_alloc Skiplist.sl_cas Skiplist.sl_lookup
    Skiplist.sl_remove Skiplist.sl_count Skiplist.sl_free Skiplist.sl_iter_begin Skiplist.sl_iter_next
    Skiplist.sl_iter_free.

Definition MAP_IMPL_UNSAFE_SL : map_impl :=
  MapImpl SkipNodes.skiplist_t UnsafeSkiplist.sl_iter_t UnsafeSkiplist.sl_alloc UnsafeSkiplist.sl_cas
    UnsafeSkiplist.sl_lookup UnsafeSkiplist.sl_remove UnsafeSkiplist.sl_count UnsafeSkiplist.sl_free
    UnsafeSkiplist.sl_iter_begin (fun _ => UnsafeSkiplist.sl_iter_next) UnsafeSkiplist.sl_iter_free.

(** An iterator of a hash table reaches the table's type of keys through its [hti]:
    here it is carried along. *)
Definition MAP_IMPL_HT : map_impl :=
  MapImpl Hashtable.hashtable_t (Hashtable.hashtable_t * Hashtable.ht_iter_t) Hashtable.ht_alloc Hashtable.ht_cas
    Hashtable.ht_get Hashtable.ht_remove Hashtable.ht_count Hashtable.ht_free
    (fun fuel ht key => it ⇐ Hashtable.ht_iter_begin fuel ht key; Ret (ht, it))
    (fun fuel '(ht, it) => r ⇐ Hashtable.ht_iter_next fuel ht it;
       match r with (it, val, key) => Ret ((ht, it), val, key) end)
    (fun '(ht, it) => _ ⇐ Hashtable.ht_iter_free ht it; Ret 0).

(** * What an implementation promises *)

(** The expectations the map passes on its own *)
Definition is_code (e : Z) : Prop := e ∈ [CAS_EXPECT_DOES_NOT_EXIST; CAS_EXPECT_EXISTS; CAS_EXPECT_WHATEVER].

Definition vals_ok (M : gmap Z Z) : Prop := map_Forall (fun _ x => 0 < x < 2 ^ 63) M.

(** [rep m d n M]: in memory [m] the data [d] stands for [M], and [n] iterations
    are enough for the loops of a call. [ready] is what a compare-and-swap needs
    of the memory besides. *)
Class MapLaws `{Allocator} (I : map_impl) := {
  rep : mem -> data I -> nat -> gmap Z Z -> Prop;
  key_ok : Z -> Prop;
  val_ok : Z -> Prop;
  ready : mem -> Prop;
  spec : gmap Z Z -> Z -> Z -> Z -> Z * gmap Z Z;
  spec_codes M k e v : vals_ok M -> is_code e -> spec M k e v = cas_spec M k e v;
  rep_vals m d n M : rep m d n M -> vals_ok M;
  law_get m d n M k fuel : rep m d n M -> key_ok k -> (n < fuel)%nat ->
    run (impl_get I fuel d k) m = Done (lookup_spec M k) m;
  law_count m d n M fuel : rep m d n M -> (n < fuel)%nat ->
    run (impl_count I fuel d) m = Done (u64 (Z.of_nat (size M))) m;
  law_cas m d n M k e v fuel : rep m d n M -> key_ok k -> val_ok v -> is_code e -> ready m -> (n < fuel)%nat ->
    wpo (impl_cas I fuel d k e v) m (fun r m' =>
      r = (spec M k e v).1 /\ exists n', rep m' d n' (spec M k e v).2);
  law_remove m d n M k fuel : rep m d n M -> key_ok k -> (n < fuel)%nat ->
    wpo (impl_remove I fuel d k) m (fun r m' =>
      r = (remove_spec M k).1 /\ exists n', rep m' d n' (remove_spec M k).2);
}.

Lemma loose_codes M k e v : vals_ok M -> is_code e -> loose_cas_spec M k e v = cas_spec M k e v.
Proof.
  intros HM He. apply loose_cas_agrees; [done|]. intros old _. unfold is_code in He.
  rewrite !elem_of_cons, elem_of_nil in He. tauto.
Qed.

Lemma code_not_tombstone e : is_code e -> e <> Hashtable.TOMBSTONE.
Proof. unfold is_code. rewrite !elem_of_cons, elem_of_nil. by intros [-> |[-> |[-> |[]]]]. Qed.

Lemma wpo_run `{Allocator} {A} (p : prog A) m a m' (Q : A -> mem -> Prop) :
  run p m = Done a m' -> Q a m' -> wpo p m Q.
Proof. intros E HQ. unfold wpo. by rewrite E. Qed.

Section instances.
Context `{Allocator} (base : Z).

(** [abs] of nodes whose values are in range *)
Lemma ll_vals L : LinkedList.wf_nodes base L -> vals_ok (LinkedList.abs L).
Proof.
  intros [_ _ _ Hv]. induction Hv as [|n L Hn HL IH]; [apply map_Forall_empty|]. simpl.
  destruct (LinkedList.n_mark n); [done|]. apply map_Forall_insert_2; [by apply Hn|done].
Qed.

Lemma sl_vals L : SkipNodes.sl_nodes base L -> vals_ok (SkipNodes.abs L).
Proof.
  intros [_ _ _ Hv]. induction Hv as [|n L Hn HL IH]; [apply map_Forall_empty|]. simpl.
  by apply map_Forall_insert_2.
Qed.

#[refine] Instance ll_laws : MapLaws MAP_IMPL_LL := {|
  rep m (d : data MAP_IMPL_LL) n M := exists L, LinkedList.ll_rep base m d L /\ LinkedList.abs L = M /\ n = (length L + 1)%nat;
  key_ok := key_window base;
  val_ok v := 0 < v < 2 ^ 63;
  ready m := can_alloc m 3;
  spec := loose_cas_spec;
|}.
Proof using base.
  - apply loose_codes.
  - intros m d n M (L & Hr & <- & _). apply ll_vals, Hr.
  - intros m d n M k fuel (L & Hr & <- & ->) Hk Hf. by apply (LinkedList.ll_lookup_ok base).
  - intros m d n M fuel (L & Hr & <- & ->) Hf. apply (LinkedList.ll_count_refines base); [done|lia].
  - intros m d n M k e v fuel (L & Hr & <- & ->) Hk Hv _ Hc Hf.
    destruct (LinkedList.ll_cas_ok base fuel m d L k e v Hr Hk Hf Hv Hc) as (m' & L' & E & Hr' & Ha & _).
    eapply wpo_run; [exact E|]. eauto 10.
  - intros m d n M k fuel (L & Hr & <- & ->) Hk Hf.
    destruct (LinkedList.ll_remove_ok base fuel m d L k Hr Hk Hf) as (m' & L' & E & Hr' & Ha & _).
    eapply wpo_run; [exact E|]. eauto 10.
Defined.

(** The two skiplists have the same representation. *)
Definition sl_rep_map (m : mem) (d : SkipNodes.skiplist_t) (n : nat) (M : gmap Z Z) : Prop :=
  exists hw L, SkipNodes.sl_rep base m d hw L /\ SkipNodes.abs L = M /\ n = (length L + 3)%nat.

Definition sl_ready (m : mem) : Prop :=
  SkipNodes.rand_ok m /\ forall k, (k <= SkipNodes.MAX_LEVELS)%nat -> can_alloc m (3 + k).

#[refine] Instance sl_laws : MapLaws MAP_IMPL_SL := {|
  rep := sl_rep_map : mem -> data MAP_IMPL_SL -> nat -> gmap Z Z -> Prop;
  key_ok := key_window base;
  val_ok v := 0 < v < 2 ^ 63;
  ready := sl_ready;
  spec := loose_cas_spec;
|}.
Proof using base.
  - apply loose_codes.
  - intros m d n M (hw & L & Hr & <- & _). apply sl_vals, Hr.
  - intros m d n M k fuel (hw & L & Hr & <- & ->) Hk Hf. apply (Skiplist.lf_sl_lookup_ok base fuel m d hw); done || lia.
  - intros m d n M fuel (hw & L & Hr & <- & ->) Hf. apply (Skiplist.lf_sl_count_refines base fuel m d hw); [done|lia].
  - intros m d n M k e v fuel (hw & L & Hr & <- & ->) Hk Hv _ [Hrd Hc] Hf.
    destruct (Skiplist.lf_sl_cas_ok base fuel m d hw L k e v) as (m' & hw' & L' & E & Hr' & Ha & _); try done; [lia|].
    eapply wpo_run; [exact E|]. unfold sl_rep_map. eauto 10.
  - intros m d n M k fuel (hw & L & Hr & <- & ->) Hk Hf.
    destruct (Skiplist.lf_sl_remove_ok base fuel m d hw L k) as (m' & L' & E & Hr' & Ha & _); try done.
    eapply wpo_run; [exact E|]. unfold sl_rep_map. eauto 10.
Defined.

#[refine] Instance unsafe_sl_laws : MapLaws MAP_IMPL_UNSAFE_SL := {|
  rep := sl_rep_map : mem -> data MAP_IMPL_UNSAFE_SL -> nat -> gmap Z Z -> Prop;
  key_ok := key_window base;
  val_ok v := 0 < v < 2 ^ 63;
  ready := sl_ready;
  spec := cas_spec;
|}.
Proof using base.
  - done.
  - intros m d n M (hw & L & Hr & <- & _). apply sl_vals, Hr.
  - intros m d n M k fuel (hw & L & Hr & <- & ->) Hk Hf. apply (UnsafeSkiplist.sl_lookup_ok base fuel m d hw); done || lia.
  - intros m d n M fuel (hw & L & Hr & <- & ->) Hf. apply (UnsafeSkiplist.sl_count_refines base fuel m d hw); [done|lia].
  - intros m d n M k e v fuel (hw & L & Hr & <- & ->) Hk Hv _ [Hrd Hc] Hf.
    destruct (UnsafeSkiplist.sl_cas_ok base fuel m d hw L k e v) as (m' & hw' & L' & E & Hr' & Ha & _); try done; [lia|].
    eapply wpo_run; [exact E|]. unfold sl_rep_map. eauto 10.
  - intros m d n M k fuel (hw & L & Hr & <- & ->) Hk Hf.
    destruct (UnsafeSkiplist.sl_remove_ok base fuel m d hw L k) as (m' & L' & E & Hr' & Ha & _); try done; [lia|].
    eapply wpo_run; [exact E|]. unfold sl_rep_map. eauto 10.
Defined.

Context (Hlimit : forall h n p, alloc h n = Some p -> Z.of_nat n <= 2 ^ 28).

#[refine] Instance ht_laws : MapLaws MAP_IMPL_HT := {|
  rep m (d : data MAP_IMPL_HT) n M := exists ts, HashtableProof.ht_rep_at 0 m d ts /\ HashChain.chain_map M ts /\
    n = (2 * length ts + 30)%nat;
  key_ok k := 0 < k < 2 ^ 64;
  val_ok v := 0 < v < Hashtable.TOMBSTONE;
  ready m := True;
  spec := cas_spec;
|}.
Proof using Hlimit.
  - done.
  - intros m d n M (ts & _ & [_ _ Hg _] & _) k v Hk. simpl. rewrite Hg in Hk. apply HashChain.get_live in Hk.
    apply HashChain.is_live_range in Hk. change Hashtable.TOMBSTONE with (2 ^ 63 - 1) in Hk. lia.
  - intros m d n M k fuel (ts & Hr & HM & ->) Hk Hf. apply (HashtableProof.ht_get_ok fuel m d ts M); [done..|lia].
  - intros m d n M fuel (ts & Hr & HM & ->) Hf. apply (HashtableProof.ht_count_ok fuel m d ts M); [done..|lia].
  - intros m d n M k e v fuel (ts & Hr & HM & ->) Hk Hv He _ Hf.
    eapply wpo_mono; [apply (HashtableProof.ht_cas_ok Hlimit fuel m d ts M k e v); try done; by apply code_not_tombstone|].
    intros r m' (-> & ts' & Hr' & HM' & _). eauto 10.
  - intros m d n M k fuel (ts & Hr & HM & ->) Hk Hf.
    eapply wpo_mono; [apply (HashtableProof.ht_remove_ok Hlimit fuel m d ts M k); try done; lia|].
    intros r m' (-> & ts' & Hr' & HM' & _). eauto 10.
Defined.
End instances.

(** * The operations of the map *)

Section client.
Context `{Allocator} {I : map_impl} `{!MapLaws I}.

Lemma wpo_code m d n M k e v fuel :
  rep m d n M -> key_ok k -> val_ok v -> is_code e -> ready m -> (n < fuel)%nat ->
  wpo (impl_cas I fuel d k e v) m (fun r m' =>
    r = lookup_spec M k /\ exists n', rep m' d n' (cas_spec M k e v).2).
Proof.
  intros Hr Hk Hv He Hm Hf. pose proof (spec_codes M k e v (rep_vals _ _ _ _ Hr) He) as Es.
  eapply wpo_mono; [by apply (law_cas m d n M k e v fuel)|]. intros r m' [-> HR]. rewrite Es in *. done.
Qed.

(** Whatever the implementation, [map_set] stores the value, [map_add] stores
    it when the key is absent, [map_replace] when it is present; all three return
    the previous value, [DOES_NOT_EXIST] if there was none. *)
Theorem map_codes m a d n M k v fuel :
  rep m d n M -> key_ok k -> val_ok v -> ready m -> (n < fuel)%nat ->
  wpo (map_set fuel (Map a I d) k v) m (fun r m' => r = lookup_spec M k /\
    exists n', rep m' d n' (<[k := v]> M)) /\
  wpo (map_add fuel (Map a I d) k v) m (fun r m' => r = lookup_spec M k /\
    exists n', rep m' d n' (if decide (is_Some (M !! k)) then M else <[k := v]> M)) /\
  wpo (map_replace fuel (Map a I d) k v) m (fun r m' => r = lookup_spec M k /\
    exists n', rep m' d n' (if decide (is_Some (M !! k)) then <[k := v]> M else M)).
Proof.
  intros Hr Hk Hv Hm Hf. pose proof (rep_vals _ _ _ _ Hr) as HM.
  assert (Hold : forall x, M !! k = Some x -> (x =? DOES_NOT_EXIST) = false).
  { intros x Hx. apply Z.eqb_neq. specialize (HM k x Hx). simpl in HM. unfold DOES_NOT_EXIST. lia. }
  split_and!; (eapply wpo_mono; [apply (wpo_code m d n M k _ v fuel); try done; unfold is_code; set_solver|]);
    intros r m' [-> HR]; (split; [done|]); unfold cas_spec, cas_matches, lookup_spec in HR; cbn [snd] in HR; [done|..];
    destruct (M !! k) as [x|] eqn:E; cbn [default from_option id] in HR.
  - rewrite decide_True by done. change (CAS_EXPECT_DOES_NOT_EXIST =? CAS_EXPECT_WHATEVER) with false in HR.
    change (CAS_EXPECT_DOES_NOT_EXIST =? CAS_EXPECT_EXISTS) with false in HR.
    by rewrite (Z.eqb_sym CAS_EXPECT_DOES_NOT_EXIST x), (Hold x eq_refl : (x =? CAS_EXPECT_DOES_NOT_EXIST) = false) in HR.
  - by rewrite decide_False by (by intros []).
  - rewrite decide_True by done. rewrite (Hold x), orb_true_r in HR by done. done.
  - by rewrite decide_False by (by intros []).
Qed.

(** C36: whatever the implementation, a value that is set is the one [map_get] then
    returns for that key, and every other key keeps its value; [map_count] counts
    the keys. *)
Theorem map_set_get m a d n M k v fuel :
  rep m d n M -> key_ok k -> val_ok v -> ready m -> (n < fuel)%nat ->
  wpo (map_set fuel (Map a I d) k v) m (fun _ m' => exists n', forall fuel', (n' < fuel')%nat ->
    (forall k', key_ok k' -> run (map_get fuel' (Map a I d) k') m' =
       Done (if decide (k' = k) then v else lookup_spec M k') m') /\
    run (map_count fuel' (Map a I d)) m' =
      Done (u64 (Z.of_nat (size M) + (if decide (is_Some (M !! k)) then 0 else 1))) m').
Proof.
  intros Hr Hk Hv Hm Hf. eapply wpo_mono.
  { apply (wpo_code m d n M k CAS_EXPECT_WHATEVER v fuel); try done. unfold is_code. set_solver. }
  intros r m' (_ & n' & Hr'). exists n'. intros fuel' Hf'. change (cas_spec M k CAS_EXPECT_WHATEVER v).2 with (<[k := v]> M) in Hr'.
  split.
  - intros k' Hk'. unfold map_get. cbn [impl map_data]. rewrite (law_get _ _ _ _ _ _ Hr' Hk' Hf'). unfold lookup_spec.
    destruct (decide (k' = k)) as [->|Hne]; [by rewrite lookup_insert_eq|by rewrite lookup_insert_ne].
  - unfold map_count. cbn [impl map_data]. rewrite (law_count _ _ _ _ _ Hr' Hf'). do 2 f_equal.
    case_decide as Hd; [destruct Hd as [x Hx]; rewrite map_size_insert_Some by done; lia|].
    rewrite map_size_insert_None by (by apply eq_None_not_Some). lia.
Qed.

(** Whatever the implementation, [map_remove] returns the value of the key, and
    afterwards [map_get] finds none while every other key keeps its value. *)
Theorem map_remove_get m a d n M k fuel :
  rep m d n M -> key_ok k -> (n < fuel)%nat ->
  wpo (map_remove fuel (Map a I d) k) m (fun r m' => r = lookup_spec M k /\
    exists n', forall fuel' k', (n' < fuel')%nat -> key_ok k' ->
      run (map_get fuel' (Map a I d) k') m' =
        Done (if decide (k' = k) then DOES_NOT_EXIST else lookup_spec M k') m').
Proof.
  intros Hr Hk Hf. eapply wpo_mono; [by apply (law_remove m d n M k fuel)|]. intros r m' (-> & n' & Hr'). split; [done|].
  exists n'. intros fuel' k' Hf' Hk'. unfold map_get. cbn [impl map_data]. rewrite (law_get _ _ _ _ _ _ Hr' Hk' Hf').
  unfold lookup_spec, remove_spec. cbn [snd].
  destruct (decide (k' = k)) as [->|Hne]; [by rewrite lookup_delete_eq|by rewrite lookup_delete_ne].
Qed.
End client.

(** * Witnesses, on the list *)

Lemma map_ex_rep : rep (MapLaws := ll_laws 0) LinkedList.ex_m LinkedList.ex_ll 4 (LinkedList.abs LinkedList.ex_L).
Proof. exists LinkedList.ex_L. split; [apply LinkedList.ex_rep|done]. Qed.

Lemma map_codes_witness :
  let mp := Map 0 MAP_IMPL_LL LinkedList.ex_ll in
  let r := rep (MapLaws := ll_laws 0) in
  let M := LinkedList.abs LinkedList.ex_L in
  wpo (map_set 9 mp 5 51) LinkedList.ex_m (fun x m' => x = 50 /\ exists n', r m' LinkedList.ex_ll n' (<[5 := 51]> M)) /\
  wpo (map_add 9 mp 5 51) LinkedList.ex_m (fun x m' => x = 50 /\ exists n', r m' LinkedList.ex_ll n' M) /\
  wpo (map_replace 9 mp 5 51) LinkedList.ex_m (fun x m' => x = 50 /\ exists n', r m' LinkedList.ex_ll n' (<[5 := 51]> M)).
Proof.
  apply (map_codes (MapLaws0 := ll_laws 0) LinkedList.ex_m 0 LinkedList.ex_ll 4 (LinkedList.abs LinkedList.ex_L) 5 51 9);
    [apply map_ex_rep|by split|by split|apply LinkedList.ex_can_alloc|lia].
Defined.

Lemma map_set_get_witness :
  let mp := Map 0 MAP_IMPL_LL LinkedList.ex_ll in
  wpo (map_set 9 mp 6 60) LinkedList.ex_m (fun _ m' => exists n', forall fuel', (n' < fuel')%nat ->
    (forall k', key_window 0 k' -> run (map_get fuel' mp k') m' =
       Done (if decide (k' = 6) then 60 else lookup_spec (LinkedList.abs LinkedList.ex_L) k') m') /\
    run (map_count fuel' mp) m' = Done 3 m').
Proof.
  apply (map_set_get (MapLaws0 := ll_laws 0) LinkedList.ex_m 0 LinkedList.ex_ll 4 (LinkedList.abs LinkedList.ex_L) 6 60 9);
    [apply map_ex_rep|by split|by split|apply LinkedList.ex_can_alloc|lia].
Defined.

Lemma map_remove_get_witness :
  let mp := Map 0 MAP_IMPL_LL LinkedList.ex_ll in
  wpo (map_remove 9 mp 5) LinkedList.ex_m (fun r m' => r = 50 /\
    exists n', forall fuel' k', (n' < fuel')%nat -> key_window 0 k' ->
      run (map_get fuel' mp k') m' =
        Done (if decide (k' = 5) then DOES_NOT_EXIST else lookup_spec (LinkedList.abs LinkedList.ex_L) k') m').
Proof.
  apply (map_remove_get (MapLaws0 := ll_laws 0) LinkedList.ex_m 0 LinkedList.ex_ll 4 (LinkedList.abs LinkedList.ex_L) 5 9);
    [apply map_ex_rep|by split|lia].
Defined.
