(* ===== verification/Linearize.v ===== *)
(** Linearizability of concurrent objects on the machine of [Machine.v]: the
    executions of any number of overlapping calls, what it means that their
    history is linearizable, and the rely-guarantee logic in which a concurrent
    structure is verified. A call of an object is a program; the proof of an
    object keeps, next to the memory, a log of the points at which the calls took
    effect. *)
From S2P Require Import Prelude Random Machine.

(** [x] occurs before [y]. *)
Definition before {A} (x y : A) (l : list A) : Prop := sublist [x; y] l.

Section before_lemmas.
Context {A : Type}.
Implicit Types (x y : A) (l : list A).

Lemma before_sublist x y l l' : before x y l -> sublist l l' -> before x y l'.
Proof. unfold before. intros. by etrans. Qed.

Lemma before_snoc x y l : x ∈ l -> before x y (l ++ [y]).
Proof.
  intros Hx. unfold before. change [x; y] with ([x] ++ [y]).
  apply sublist_app; [by apply singleton_sublist_l|done].
Qed.

Lemma before_r x y l : before x y l -> y ∈ l.
Proof. intros Hb. eapply elem_of_sublist; [|exact Hb]. set_solver. Qed.

Lemma before_l x y l : before x y l -> x ∈ l.
Proof. intros Hb. eapply elem_of_sublist; [|exact Hb]. set_solver. Qed.

Lemma before_app x y l1 l2 : x ∈ l1 -> y ∈ l2 -> before x y (l1 ++ l2).
Proof.
  intros Hx Hy. unfold before. change [x; y] with ([x] ++ [y]).
  apply sublist_app; by apply singleton_sublist_l.
Qed.

(** In a list without duplicates what comes before an element is on its left. *)
Lemma before_split x y l1 l2 : NoDup (l1 ++ y :: l2) -> before x y (l1 ++ y :: l2) -> x ∈ l1.
Proof.
  intros Hnd (k1 & k2 & E & Hy)%sublist_cons_l. apply singleton_sublist_l in Hy.
  assert (y ∉ l1 /\ y ∉ l2) as [Hn1 Hn2].
  { apply NoDup_app in Hnd as (_ & Hd & [? _]%NoDup_cons). split; [|done].
    intros Hy1. apply (Hd _ Hy1). set_solver. }
  apply app_eq_inv in E as [(k & -> & E)|(k & -> & E)]; destruct k as [|z k]; simplify_eq/=; [done| |done|].
  - apply elem_of_app. right. by left.
  - exfalso. apply Hn2, elem_of_app. right. by right.
Qed.
End before_lemmas.

(** * Objects, executions and histories

    An object has a sequential specification [spec] (the state after a call and
    the value it returns), the code of each call (for every fuel of its loops)
    and the calls a client may make. *)
Inductive event (Op : Type) : Type := Call (c : nat) (o : Op) | Return (c : nat) (v : Z).
Arguments Call {Op} _ _.
Arguments Return {Op} _ _.

(** A running call: what is left of it, and how many blocks had been handed to
    [rcu_defer_free] when it began. *)
Record running : Type := Running { rest : prog Z; born : nat }.

(** The [j]-th block handed to [rcu_defer_free]. *)
Definition retired_at (m : mem) (j : nat) : option Z := reverse (deferred m) !! j.

Lemma retired_at_push m a j :
  retired_at (Mem (heap m) (a :: deferred m) (rand m)) j =
  if decide (j = length (deferred m)) then Some a else retired_at m j.
Proof.
  unfold retired_at. simpl. rewrite reverse_cons. case_decide as Hj.
  - subst j. rewrite lookup_app_r; rewrite length_reverse; [|done]. by rewrite Nat.sub_diag.
  - destruct (decide (j < length (deferred m))%nat).
    + apply lookup_app_l. by rewrite length_reverse.
    + rewrite !(proj2 (lookup_ge_None _ _)); [done|..]; rewrite ?length_app, length_reverse; simpl; lia.
Qed.

(** A call is identified by a number of its own. [reach m0 h m ts fr]: from the
    memory [m0], the calls whose invocations and responses are [h] lead to the
    memory [m], with the calls of [ts] still running and the blocks [fr] of those retired
    on the way freed. Any running call may perform the next operation, a new call may
    start at any time, and a retired block may be freed, and its address used again,
    once every call that runs began after the block was retired: the grace period that
    [Rcu.v] proves of [rcu_defer_free]. *)
Inductive reach `{Allocator} {Op : Type} (code : nat -> Op -> prog Z) (ok_call : Op -> Prop) (m0 : mem) :
    list (event Op) -> mem -> gmap nat running -> gset nat -> Prop :=
  | reach_init : reach code ok_call m0 [] m0 ∅ ∅
  | reach_call h m ts fr c o fuel :
      reach code ok_call m0 h m ts fr -> (forall o', Call c o' ∉ h) -> ok_call o ->
      reach code ok_call m0 (h ++ [Call c o]) m (<[c := Running (code fuel o) (length (deferred m))]> ts) fr
  | reach_act h m ts fr c o k b r m' :
      reach code ok_call m0 h m ts fr -> ts !! c = Some (Running (Act o k) b) -> handle o m = inl (r, m') ->
      reach code ok_call m0 h m' (<[c := Running (k r) b]> ts) fr
  | reach_return h m ts fr c v b :
      reach code ok_call m0 h m ts fr -> ts !! c = Some (Running (Ret v) b) ->
      reach code ok_call m0 (h ++ [Return c v]) m (delete c ts) fr
  | reach_reclaim h m ts fr j a :
      reach code ok_call m0 h m ts fr -> (length (deferred m0) <= j)%nat -> retired_at m j = Some a -> j ∉ fr ->
      map_Forall (fun _ t => (j < born t)%nat) ts ->
      reach code ok_call m0 h (set_heap m (delete a (heap m))) ts ({[j]} ∪ fr).

(** The calls of a pool that perform an illegal operation now, or have failed for
    another reason than the lack of memory or of the model's fuel. *)
Definition stuck `{Allocator} (m : mem) (ts : gmap nat running) : Prop :=
  exists c t, ts !! c = Some t /\
    match rest t with
    | Ret _ => False
    | Act o _ => match handle o m with inl _ => False | inr e => e <> OutOfMemory end
    | Fail e => e <> OutOfMemory /\ e <> OutOfFuel
    end.

(** A schedule: to begin a call, to let a call perform up to [n] operations, to let it
    return, to free a retired block. *)
Inductive cmd (Op : Type) : Type :=
  | Invoke (c : nat) (o : Op) (fuel : nat)
  | Steps (c n : nat)
  | Respond (c : nat)
  | Reclaim (j : nat).
Arguments Invoke {Op} _ _ _.
Arguments Steps {Op} _ _.
Arguments Respond {Op} _.
Arguments Reclaim {Op} _.

Fixpoint steps `{Allocator} (c n : nat) (m : mem) (ts : gmap nat running) : option (mem * gmap nat running) :=
  match n with
  | O => Some (m, ts)
  | S n =>
      match ts !! c with
      | Some (Running (Act o k) b) =>
          match handle o m with
          | inl (r, m') => steps c n m' (<[c := Running (k r) b]> ts)
          | inr _ => None
          end
      | Some (Running (Ret _) _) => Some (m, ts)
      | _ => None
      end
  end.

Definition called {Op : Type} (c : nat) (h : list (event Op)) : bool :=
  existsb (fun e => match e with Call d _ => (d =? c)%nat | Return _ _ => false end) h.

Lemma called_true {Op : Type} c (o : Op) h : Call c o ∈ h -> called c h = true.
Proof.
  intros Hin. apply existsb_exists. exists (Call c o). split; [by apply list_elem_of_In|]. by rewrite Nat.eqb_refl.
Qed.

Record config (Op : Type) : Type := Config {
  cf_history : list (event Op);
  cf_mem : mem;
  cf_running : gmap nat running;
  cf_freed : gset nat;
}.
Arguments Config {Op} _ _ _ _.

(** The execution a schedule leads to. *)
Fixpoint play `{Allocator} {Op : Type} (code : nat -> Op -> prog Z) (n0 : nat) (s : list (cmd Op))
    (x : config Op) : option (config Op) :=
  let 'Config h m ts fr := x in
  match s with
  | [] => Some x
  | Invoke c o fuel :: s =>
      if called c h then None
      else play code n0 s (Config (h ++ [Call c o]) m (<[c := Running (code fuel o) (length (deferred m))]> ts) fr)
  | Steps c n :: s =>
      match steps c n m ts with Some (m', ts') => play code n0 s (Config h m' ts' fr) | None => None end
  | Respond c :: s =>
      match ts !! c with
      | Some (Running (Ret v) _) => play code n0 s (Config (h ++ [Return c v]) m (delete c ts) fr)
      | _ => None
      end
  | Reclaim j :: s =>
      match retired_at m j with
      | Some a =>
          if decide ((n0 <= j)%nat /\ j ∉ fr /\ map_Forall (fun _ t => (j < born t)%nat) ts)
          then play code n0 s (Config h (set_heap m (delete a (heap m))) ts ({[j]} ∪ fr))
          else None
      | None => None
      end
  end.

Lemma reach_steps `{Allocator} {Op : Type} (code : nat -> Op -> prog Z) ok_call m0 h c n m ts fr m' ts' :
  reach code ok_call m0 h m ts fr -> steps c n m ts = Some (m', ts') -> reach code ok_call m0 h m' ts' fr.
Proof.
  revert m ts. induction n as [|n IH]; intros m ts Hr; simpl; [by intros [= <- <-]|].
  destruct (ts !! c) as [[[v|o k|e] b]|] eqn:Hc; [by intros [= <- <-]| |done..].
  destruct (handle o m) as [[r m2]|] eqn:Hh; [|done]. apply IH. by eapply reach_act.
Qed.

Lemma reach_play `{Allocator} {Op : Type} (code : nat -> Op -> prog Z) (ok_call : Op -> Prop) m0 s x x' :
  reach code ok_call m0 (cf_history _ x) (cf_mem _ x) (cf_running _ x) (cf_freed _ x) ->
  Forall (fun x => match x with Invoke _ o _ => ok_call o | _ => True end) s ->
  play code (length (deferred m0)) s x = Some x' ->
  reach code ok_call m0 (cf_history _ x') (cf_mem _ x') (cf_running _ x') (cf_freed _ x').
Proof.
  revert x. induction s as [|y s IH]; intros [h m ts fr] Hr Hok; simpl in *; [by intros [= <-]|].
  apply Forall_cons in Hok as [Hx Hok]. destruct y as [c o fuel|c n|c|j].
  - destruct (called c h) eqn:Ec; [done|]. apply IH; [|done]. simpl. apply reach_call; [done| |done].
    intros o' Hin. by rewrite (called_true _ _ _ Hin) in Ec.
  - destruct (steps c n m ts) as [[m2 ts2]|] eqn:Es; [|done]. apply IH; [|done]. by eapply reach_steps.
  - destruct (ts !! c) as [[[v|o k|e] b]|] eqn:Ec; try done. apply IH; [|done]. by eapply reach_return.
  - destruct (retired_at m j) as [a|] eqn:Ea; [|done]. case_decide as Hd; [|done].
    destruct Hd as (? & ? & ?). apply IH; [|done]. by apply reach_reclaim.
Qed.

(** The state after the calls [E], one after the other. *)
Definition run_spec {St Op : Type} (spec : St -> Op -> Z * St) (s0 : St) (E : list (nat * Op)) : St :=
  foldl (fun s e => (spec s e.2).2) s0 E.

(** [E] is a linearization of the history [h]: calls that were made, each once,
    among them every call that has returned, in an order that respects the order of
    calls that did not overlap, and in which the specification gives the values
    that were returned. *)
Record linearization {St Op : Type} (spec : St -> Op -> Z * St) (s0 : St)
    (h : list (event Op)) (E : list (nat * Op)) : Prop := {
  lz_nodup : NoDup E.*1;
  lz_called c o : (c, o) ∈ E -> Call c o ∈ h;
  lz_returns c v : Return c v ∈ h ->
    exists o E1 E2, E = E1 ++ (c, o) :: E2 /\ (spec (run_spec spec s0 E1) o).1 = v;
  lz_order h1 h2 a v b o o' : h = h1 ++ Return a v :: h2 -> Call b o ∈ h2 -> (b, o') ∈ E ->
    exists oa, before (a, oa) (b, o') E;
}.

(** * The log *)

(** What a log records: that a call began, and that it took effect. *)
Inductive lev (Op : Type) : Type := Start (c : nat) (o : Op) | Lin (c : nat) (o : Op).
Arguments Start {Op} _ _.
Arguments Lin {Op} _ _.

(** The state of a proof: the memory, the log, the results of the calls that took
    effect and may return, the number of retired blocks when each call began, the
    retired blocks that are freed, and what else the object's proof keeps. *)
Record world (Op X : Type) : Type := World {
  wmem : mem;
  wlog : list (lev Op);
  wres : gmap nat Z;
  wborn : gmap nat nat;
  wfreed : gset nat;
  wext : X;
}.
Arguments World {Op X} _ _ _ _ _ _.
Arguments wmem {Op X} _.
Arguments wlog {Op X} _.
Arguments wres {Op X} _.
Arguments wborn {Op X} _.
Arguments wfreed {Op X} _.
Arguments wext {Op X} _.

Section linearize.
Context {St Op X : Type} (spec : St -> Op -> Z * St) (s0 : St).
Implicit Types (E : list (lev Op)) (w : world Op X) (c : nat).

Definition lstep (s : St) (e : lev Op) : St :=
  match e with Start _ _ => s | Lin _ o => (spec s o).2 end.

(** The state after a log. *)
Definition lstate (E : list (lev Op)) : St := foldl lstep s0 E.

Definition lins (E : list (lev Op)) : list (nat * Op) :=
  omap (fun e => match e with Lin c o => Some (c, o) | Start _ _ => None end) E.

Lemma lstate_app E1 E2 : lstate (E1 ++ E2) = foldl lstep (lstate E1) E2.
Proof. apply foldl_app. Qed.

Lemma lstate_snoc E e : lstate (E ++ [e]) = lstep (lstate E) e.
Proof. by rewrite lstate_app. Qed.

Lemma lins_state E : run_spec spec s0 (lins E) = lstate E.
Proof.
  unfold lstate, run_spec. generalize s0. induction E as [|[c o|c o] E IH]; intros s; simpl; auto.
Qed.

Lemma elem_of_lins c o E : (c, o) ∈ lins E <-> Lin c o ∈ E.
Proof.
  unfold lins. rewrite list_elem_of_omap. split.
  - intros ([|] & ? & [= -> ->]); done.
  - intros. by exists (Lin c o).
Qed.

Lemma lins_app E1 E2 : lins (E1 ++ E2) = lins E1 ++ lins E2.
Proof. apply omap_app. Qed.

Lemma lins_sublist E E' : sublist E E' -> sublist (lins E) (lins E').
Proof.
  unfold lins. induction 1 as [|e E E' ? IH|e E E' ? IH]; [done|..].
  - destruct e; csimpl; [done|by constructor].
  - destruct e; csimpl; [done|by constructor].
Qed.

(** A log is well formed: a call begins once, takes effect at most once and after
    it began, and a result is the one the specification gives at the point where
    the call took effect. *)
Record log_ok w : Prop := {
  lo_nodup : NoDup (wlog w);
  lo_start c o o' : Start c o ∈ wlog w -> Start c o' ∈ wlog w -> o = o';
  lo_lin c o : Lin c o ∈ wlog w -> before (Start c o) (Lin c o) (wlog w);
  lo_res c r : wres w !! c = Some r ->
    exists o E1 E2, wlog w = E1 ++ Lin c o :: E2 /\ (spec (lstate E1) o).1 = r;
}.

Lemma lo_lin_fun w c o o' : log_ok w -> Lin c o ∈ wlog w -> Lin c o' ∈ wlog w -> o = o'.
Proof.
  intros Hl H1%(lo_lin _ Hl)%before_l H2%(lo_lin _ Hl)%before_l. exact (lo_start _ Hl _ _ _ H1 H2).
Qed.

Lemma lo_res_lin w c r : log_ok w -> wres w !! c = Some r -> exists o, Lin c o ∈ wlog w.
Proof. intros Hl (o & E1 & E2 & -> & _)%(lo_res _ Hl). exists o. set_solver. Qed.

(** ** Inserting an entry

    A call may take effect in the past, as long as no other call can tell: the
    states after later entries stay the same, and so do the results of the calls
    that have one. *)
Record insertable w c (o : Op) E1 E2 : Prop := {
  in_log : wlog w = E1 ++ E2;
  in_start : Start c o ∈ E1;
  in_new o' : Lin c o' ∉ wlog w;
  in_same F1 F2 : E2 = F1 ++ F2 -> F1 <> [] -> lstate (E1 ++ Lin c o :: F1) = lstate (E1 ++ F1);
  in_next d od F : E2 = Lin d od :: F -> wres w !! d = None \/ (spec (lstate E1) o).2 = lstate E1;
}.

(** At the end of the log. *)
Lemma insertable_end w c o :
  Start c o ∈ wlog w -> (forall o', Lin c o' ∉ wlog w) -> insertable w c o (wlog w) [].
Proof.
  intros. split; [by rewrite app_nil_r|done..| |done]. intros F1 F2 E. by destruct F1.
Qed.

(** Anywhere, when the call changes nothing. *)
Lemma insertable_silent w c o E1 E2 :
  wlog w = E1 ++ E2 -> Start c o ∈ E1 -> (forall o', Lin c o' ∉ wlog w) ->
  (spec (lstate E1) o).2 = lstate E1 -> insertable w c o E1 E2.
Proof.
  intros E Hs Hn He. split; [done..| |by right]. intros F1 F2 _ _. rewrite !lstate_app. simpl. by rewrite He.
Qed.

(** Before an entry without result that hides the change. *)
Lemma insertable_hidden w c o d od E1 E2 :
  wlog w = E1 ++ Lin d od :: E2 -> Start c o ∈ E1 -> (forall o', Lin c o' ∉ wlog w) ->
  wres w !! d = None -> (spec (spec (lstate E1) o).2 od).2 = (spec (lstate E1) od).2 ->
  insertable w c o E1 (Lin d od :: E2).
Proof.
  intros E Hs Hn Hr He. split; [done..| |].
  - intros [|e F1] F2 EF ?; [done|]. injection EF as <- _. rewrite !lstate_app. simpl. by rewrite He.
  - intros d' od' F [= <- _ _]. by left.
Qed.

(** The entries of the old log are in the new one, with the same states, except
    right after the insertion. *)
Lemma insert_split w c o E1 E2 X1 e X2 :
  insertable w c o E1 E2 -> wlog w = X1 ++ e :: X2 ->
  exists X1' X2', E1 ++ Lin c o :: E2 = X1' ++ e :: X2' /\ (forall x, x ∈ X1 -> x ∈ X1') /\
    (lstate X1' = lstate X1 \/ X1 = E1 /\ E2 = e :: X2 /\ X1' = E1 ++ [Lin c o]).
Proof.
  intros Hi E. rewrite (in_log _ _ _ _ _ Hi) in E. apply app_eq_inv in E as [(k & -> & E)|(k & -> & E)].
  - destruct k as [|e' k]; simpl in E.
    + exists (X1 ++ [Lin c o]), X2. rewrite !app_nil_r, <- E, <- app_assoc. split; [done|].
      split; [|by right]. intros x ?. apply elem_of_app. by left.
    + injection E as <- ->. exists X1, (k ++ Lin c o :: E2). rewrite <- app_assoc. by split_and!; [| |left].
  - destruct k as [|e' k]; simpl in E.
    + exists (E1 ++ [Lin c o]), X2. rewrite !app_nil_r, E, <- app_assoc. split; [done|].
      split; [|by right]. intros x ?. apply elem_of_app. by left.
    + exists (E1 ++ Lin c o :: e' :: k), X2. rewrite E, <- app_assoc. split; [done|]. split.
      * intros x. rewrite !elem_of_app, (elem_of_cons (e' :: k)). tauto.
      * left. by apply (in_same _ _ _ _ _ Hi _ (e :: X2)).
Qed.

(** The same for the positions of the log. *)
Lemma insert_position w c o E1 E2 X1 X2 :
  insertable w c o E1 E2 -> wlog w = X1 ++ X2 ->
  exists X1' X2', E1 ++ Lin c o :: E2 = X1' ++ X2' /\ (forall x, x ∈ X1 -> x ∈ X1') /\ lstate X1' = lstate X1.
Proof.
  intros Hi E. rewrite (in_log _ _ _ _ _ Hi) in E. apply app_eq_inv in E as [(k & -> & E)|(k & -> & E)].
  - exists X1, (k ++ Lin c o :: E2). by rewrite <- app_assoc.
  - destruct k as [|e' k]; simpl in E.
    + exists E1, (Lin c o :: E2). by rewrite app_nil_r.
    + exists (E1 ++ Lin c o :: e' :: k), X2. rewrite E, <- app_assoc. split; [done|]. split.
      * intros x. rewrite !elem_of_app, (elem_of_cons (e' :: k)). tauto.
      * by apply (in_same _ _ _ _ _ Hi _ X2).
Qed.

Lemma insert_sublist w c o E1 E2 : insertable w c o E1 E2 -> sublist (wlog w) (E1 ++ Lin c o :: E2).
Proof.
  intros Hi. rewrite (in_log _ _ _ _ _ Hi). apply sublist_app; [done|]. by apply sublist_cons.
Qed.

Lemma insert_elem w c o E1 E2 e :
  insertable w c o E1 E2 -> e ∈ E1 ++ Lin c o :: E2 <-> e = Lin c o \/ e ∈ wlog w.
Proof. intros Hi. rewrite (in_log _ _ _ _ _ Hi). rewrite !elem_of_app, elem_of_cons. tauto. Qed.

(** The log with the new entry is well formed, and [c] may have its result. *)
Lemma insert_log_ok w c o E1 E2 m r bs fr x (fin : bool) :
  log_ok w -> insertable w c o E1 E2 -> (fin = true -> (spec (lstate E1) o).1 = r) ->
  log_ok (World m (E1 ++ Lin c o :: E2) (if fin then <[c := r]> (wres w) else wres w) bs fr x).
Proof.
  intros Hl Hi Hr. split; simpl.
  - apply (NoDup_Permutation_proper _ (Lin c o :: wlog w)).
    + rewrite (in_log _ _ _ _ _ Hi). symmetry. apply Permutation_middle.
    + apply NoDup_cons. split; [apply (in_new _ _ _ _ _ Hi)|apply Hl].
  - intros d o1 o2. rewrite !(insert_elem _ _ _ _ _ _ Hi). intros [?|H1] [?|H2]; try done.
    by eapply (lo_start _ Hl).
  - intros d od. rewrite (insert_elem _ _ _ _ _ _ Hi). intros [[= -> ->]|Hd].
    + apply before_app; [apply Hi|by left].
    + eapply before_sublist; [by apply (lo_lin _ Hl)|by apply insert_sublist].
  - assert (forall d v, wres w !! d = Some v -> exists od X1 X2,
      E1 ++ Lin c o :: E2 = X1 ++ Lin d od :: X2 /\ (spec (lstate X1) od).1 = v) as Hold.
    { intros d v Hd. destruct (lo_res _ Hl _ _ Hd) as (od & X1 & X2 & E & Hv).
      destruct (insert_split _ _ _ _ _ _ _ _ Hi E) as (X1' & X2' & E' & _ & Hst).
      exists od, X1', X2'. split; [done|]. rewrite <- Hv. destruct Hst as [-> |(-> & EX & ->)]; [done|].
      destruct (in_next _ _ _ _ _ Hi _ _ _ EX) as [?|He]; [congruence|].
      rewrite lstate_snoc. simpl. by rewrite He. }
    intros d v. destruct fin; [|apply Hold]. rewrite lookup_insert. case_decide as Hd; [|apply Hold].
    intros [= <-]. subst d. exists o, E1, E2. auto.
Qed.

(** * The logic

    [I] is the invariant of the object, [R c w w'] what the call [c] knows of the
    steps that other calls take from [w] to [w']. *)
Context `{Allocator} (I : world Op X -> Prop) (R : nat -> world Op X -> world Op X -> Prop).
Context (R_refl : forall c w, R c w w) (R_trans : forall c w1 w2 w3, R c w1 w2 -> R c w2 w3 -> R c w1 w3).

Definition Inv w : Prop := log_ok w /\ I w.

(** Other calls never take back what is logged, and leave a call's own entry and
    result to it. *)
Record rely c w w' : Prop := {
  ry_log : sublist (wlog w) (wlog w');
  ry_res : wres w' !! c = wres w !! c;
  ry_lin o : Lin c o ∈ wlog w' -> Lin c o ∈ wlog w;
  ry_obj : R c w w';
}.

(** The call [c] takes the memory to [m] and the proof state to [w']. *)
Record step c w (m : mem) w' : Prop := {
  st_mem : wmem w' = m;
  st_inv : Inv w';
  st_rely j : j <> c -> rely j w w';
  st_start d o : Start d o ∈ wlog w' -> Start d o ∈ wlog w;
  st_grace : wborn w' = wborn w /\ wfreed w' = wfreed w;
}.

Lemma rely_refl c w : rely c w w.
Proof using R_refl. split; auto. Qed.

Lemma rely_trans c w1 w2 w3 : rely c w1 w2 -> rely c w2 w3 -> rely c w1 w3.
Proof using R_trans.
  intros [] []. split; [by etrans|congruence|auto|eauto].
Qed.

Lemma step_trans c w1 w2 w3 m : step c w1 (wmem w1) w2 -> step c w2 m w3 -> step c w1 m w3.
Proof using R_trans.
  intros [_ _ H1 ? [E1 E2]] [<- ? H2 ? [E3 E4]]. split; eauto using rely_trans. split; congruence.
Qed.

Lemma step_refl c w : Inv w -> step c w (wmem w) w.
Proof using R_refl. split; auto using rely_refl. Qed.

(** What is logged stays logged, in the same order. *)
Lemma step_log c w m w' : step c w m w' -> sublist (wlog w) (wlog w').
Proof. intros Hs. apply (ry_log (Datatypes.S c)), (st_rely _ _ _ _ Hs). lia. Qed.

(** The call [c], about to run [p], commits no fault and returns with [Q], whatever
    the other calls do in between. *)
Fixpoint safe {A} c (p : prog A) (Q : A -> world Op X -> Prop) w : Prop :=
  forall w1, rely c w w1 -> Inv w1 ->
  match p with
  | Ret a => exists w2, step c w1 (wmem w1) w2 /\ Q a w2
  | Fail e => e = OutOfMemory \/ e = OutOfFuel
  | Act o k =>
      match handle o (wmem w1) with
      | inl (r, m) => exists w2, step c w1 m w2 /\ safe c (k r) Q w2
      | inr e => e = OutOfMemory
      end
  end.

Lemma safe_rely {A} c (p : prog A) Q w w' : rely c w w' -> safe c p Q w -> safe c p Q w'.
Proof using R_trans.
  intros Hr Hs. destruct p; exact (fun w1 Hr1 HI => Hs w1 (rely_trans _ _ _ _ Hr Hr1) HI).
Qed.

(** A step of the proof state alone may come first. *)
Lemma safe_upd {A} c (p : prog A) Q w :
  (forall w1, rely c w w1 -> Inv w1 -> exists w2, step c w1 (wmem w1) w2 /\ safe c p Q w2) ->
  safe c p Q w.
Proof using R_trans R_refl.
  intros Hu. destruct p as [a|o k|e]; intros w1 Hr HI; destruct (Hu w1 Hr HI) as (w2 & Hst & Hs);
    destruct (Hst) as [Em HI2 _ _ _]; specialize (Hs w2 (rely_refl _ _) HI2); [| |done].
  - destruct Hs as (w3 & ? & ?). rewrite Em in *. eauto using step_trans.
  - rewrite Em in Hs. destruct (handle o (wmem w1)) as [[r m]|]; [|done].
    destruct Hs as (w3 & ? & ?). eauto using step_trans.
Qed.

Lemma safe_bind {A B} c (p : prog A) (f : A -> prog B) Q w :
  safe c p (fun a => safe c (f a) Q) w -> safe c (bind p f) Q w.
Proof using R_trans R_refl.
  revert w. induction p as [a|o k IH|e]; intros w Hs; [|intros w1 Hr HI; specialize (Hs w1 Hr HI)..].
  - apply safe_upd. exact Hs.
  - simpl in Hs |- *. destruct (handle o (wmem w1)) as [[r m]|]; [|done].
    destruct Hs as (w2 & ? & ?). exists w2. split; [done|]. by apply IH.
  - done.
Qed.

Lemma safe_mono {A} c (p : prog A) (Q Q' : A -> world Op X -> Prop) w :
  (forall a w, Q a w -> Q' a w) -> safe c p Q w -> safe c p Q' w.
Proof.
  intros HQ. revert w. induction p as [a|o k IH|e]; intros w Hs w1 Hr HI; specialize (Hs w1 Hr HI);
    simpl in Hs |- *; [| |done].
  - destruct Hs as (w2 & ? & ?). eauto.
  - destruct (handle o (wmem w1)) as [[r m]|]; [|done]. destruct Hs as (w2 & ? & ?). eauto.
Qed.

(** A condition that the steps of other calls preserve. *)
Class Stable c (P : world Op X -> Prop) : Prop :=
  stable w w' : Inv w -> Inv w' -> rely c w w' -> P w -> P w'.

#[global] Instance stable_pure c (P : Prop) : Stable c (fun _ => P).
Proof. by intros ?. Qed.

#[global] Instance stable_and c P Q : Stable c P -> Stable c Q -> Stable c (fun w => P w /\ Q w).
Proof. intros HP HQ w w' H1 H2 H3 []. split; [by apply (HP w)|by apply (HQ w)]. Qed.

#[global] Instance stable_or c P Q : Stable c P -> Stable c Q -> Stable c (fun w => P w \/ Q w).
Proof. intros HP HQ w w' H1 H2 H3 []; [left; by apply (HP w)|right; by apply (HQ w)]. Qed.

#[global] Instance stable_impl c (P : Prop) Q : Stable c Q -> Stable c (fun w => P -> Q w).
Proof. intros HQ w w' H1 H2 H3 H' ?. by apply (HQ w); [..|apply H']. Qed.

#[global] Instance stable_exist c {T} (P : T -> world Op X -> Prop) :
  (forall x, Stable c (P x)) -> Stable c (fun w => exists x, P x w).
Proof. intros HP w w' H1 H2 H3 [x ?]. exists x. by apply (HP x w). Qed.

#[global] Instance stable_res c r : Stable c (fun w => wres w !! c = r).
Proof. intros w w' _ _ Hr <-. apply (ry_res _ _ _ Hr). Qed.

#[global] Instance stable_nolin c : Stable c (fun w => forall o, Lin c o ∉ wlog w).
Proof. intros w w' _ _ Hr Hn o Ho%(ry_lin _ _ _ Hr). by apply (Hn o). Qed.

#[global] Instance stable_elem c e : Stable c (fun w => e ∈ wlog w).
Proof. intros w w' _ _ Hr ?. eapply elem_of_sublist; [done|]. apply (ry_log _ _ _ Hr). Qed.

Definition triple {A} c (P : world Op X -> Prop) (p : prog A) (Q : A -> world Op X -> Prop) : Prop :=
  forall w, Inv w -> P w -> safe c p Q w.

(** What [handle] does in the world [w], with [K] for its result. *)
Definition does c (o : op) w (K : Z -> world Op X -> Prop) : Prop :=
  match handle o (wmem w) with
  | inl (r, m) => exists w2, step c w m w2 /\ K r w2
  | inr e => e = OutOfMemory
  end.

Section rules.
Context {A B : Type} (c : nat).
Implicit Types (P : world Op X -> Prop) (Q : A -> world Op X -> Prop) (QB : B -> world Op X -> Prop).

Lemma t_ret P (a : A) Q : Stable c P -> (forall w, Inv w -> P w -> Q a w) -> triple c P (Ret a) Q.
Proof using R_refl.
  intros HP HQ w Hw HPw w1 Hr HI. exists w1. split; [by apply step_refl|].
  exact (HQ w1 HI (HP w w1 Hw HI Hr HPw)).
Qed.

Lemma t_upd P P' (p : prog A) Q : Stable c P ->
  (forall w, Inv w -> P w -> exists w2, step c w (wmem w) w2 /\ P' w2) ->
  triple c P' p Q -> triple c P p Q.
Proof using R_trans R_refl.
  intros HP Hu Hp w Hw HPw. apply safe_upd. intros w1 Hr HI.
  destruct (Hu w1 HI (HP w w1 Hw HI Hr HPw)) as (w2 & Hst & HP').
  exists w2. split; [done|]. destruct Hst as [_ ? _ _ _]. by apply Hp.
Qed.

Lemma t_act P o (k : Z -> prog A) K Q : Stable c P ->
  (forall w, Inv w -> P w -> does c o w K) ->
  (forall r, triple c (K r) (k r) Q) -> triple c P (Act o k) Q.
Proof using Type.
  intros HP Ho Hk w Hw HPw w1 Hr HI. specialize (Ho w1 HI (HP w w1 Hw HI Hr HPw)). unfold does in Ho.
  destruct (handle o (wmem w1)) as [[r m]|]; [|done].
  destruct Ho as (w2 & Hst & HK). exists w2. split; [done|].
  destruct Hst as [_ ? _ _ _]. by apply Hk.
Qed.

Lemma t_bind P (p : prog A) (f : A -> prog B) Q QB :
  triple c P p Q -> (forall a, triple c (Q a) (f a) QB) -> triple c P (bind p f) QB.
Proof using R_trans R_refl.
  intros Hp Hf w Hw HP. apply safe_bind. specialize (Hp w Hw HP). revert Hp. clear -Hf R_refl R_trans.
  revert w. induction p as [a|o k IH|e]; intros w Hs w1 Hr HI; specialize (Hs w1 Hr HI);
    simpl in Hs |- *; [| |done].
  - destruct Hs as (w2 & Hst & ?). exists w2. split; [done|]. destruct Hst as [_ HI2 _ _ _].
    by apply Hf.
  - destruct (handle o (wmem w1)) as [[r m]|]; [|done]. destruct Hs as (w2 & ? & ?). eauto.
Qed.

Lemma t_conseq P P' (p : prog A) Q :
  triple c P' p Q -> (forall w, Inv w -> P w -> P' w) -> triple c P p Q.
Proof. intros Hp HP w Hw ?. apply Hp; auto. Qed.

Lemma t_post P (p : prog A) Q Q' :
  triple c P p Q -> (forall a w, Q a w -> Q' a w) -> triple c P p Q'.
Proof. intros Hp HQ w Hw ?. eapply safe_mono; [exact HQ|]. by apply Hp. Qed.

Lemma t_exist {T} (P : T -> world Op X -> Prop) (p : prog A) Q :
  (forall x, triple c (P x) p Q) -> triple c (fun w => exists x, P x w) p Q.
Proof. intros Hp w Hw [x ?]. by apply (Hp x). Qed.

Lemma t_pure (P : Prop) P' (p : prog A) Q :
  (P -> triple c P' p Q) -> triple c (fun w => P /\ P' w) p Q.
Proof. intros Hp w Hw []. by apply Hp. Qed.

Lemma t_or P P' (p : prog A) Q :
  triple c P p Q -> triple c P' p Q -> triple c (fun w => P w \/ P' w) p Q.
Proof. intros H1 H2 w Hw []; auto. Qed.

Lemma t_fuel P Q : triple c P (Fail OutOfFuel) Q.
Proof. intros w _ _ w1 _ _. by right. Qed.
End rules.

(** ** Soundness *)

(** The proof state [w] accounts for the history [h] and the running calls [ts]. *)
Record accounts (h : list (event Op)) (ts : gmap nat running) w : Prop := {
  ac_start c o : Call c o ∈ h <-> Start c o ∈ wlog w;
  ac_return c v : Return c v ∈ h -> wres w !! c = Some v;
  ac_order h1 h2 a v b o : h = h1 ++ Return a v :: h2 -> Call b o ∈ h2 ->
    exists oa, before (Lin a oa) (Start b o) (wlog w);
  ac_run c t : ts !! c = Some t -> (exists o, Call c o ∈ h) /\ forall v, Return c v ∉ h;
  ac_born c t : ts !! c = Some t -> wborn w !! c = Some (born t);
  ac_safe c t : ts !! c = Some t -> safe c (rest t) (fun v w => wres w !! c = Some v) w;
}.

Lemma accounts_linearization h ts w :
  log_ok w -> accounts h ts w -> linearization spec s0 h (lins (wlog w)).
Proof using R_refl R_trans.
  intros Hl Ha. split.
  - assert (forall E, NoDup E -> (forall c o o', Lin c o ∈ E -> Lin c o' ∈ E -> o = o') -> NoDup (lins E).*1) as Hg.
    { clear. induction E as [|e E IH]; intros Hnd Hf; [constructor|].
      apply NoDup_cons in Hnd as [Hn Hnd].
      assert (NoDup (lins E).*1) as IH' by (apply IH; [done|]; intros c o o' ??; apply (Hf c); by right).
      destruct e as [c o|c o]; [done|]. csimpl. constructor; [|done].
      intros ([c' o'] & [= <-] & Hin%elem_of_lins)%list_elem_of_fmap.
      rewrite (Hf c o o') in Hn; [done|by left|by right]. }
    apply Hg; [apply (lo_nodup _ Hl)|]. intros c o o'. by apply lo_lin_fun.
  - intros c o Hin%elem_of_lins. apply (ac_start _ _ _ Ha). by eapply before_l, (lo_lin _ Hl).
  - intros c v Hr%(ac_return _ _ _ Ha). apply (lo_res _ Hl) in Hr as (o & E1 & E2 & -> & Hr).
    exists o, (lins E1), (lins E2). rewrite lins_app, lins_state. done.
  - intros h1 h2 a v b o o' Eh Hb Hin%elem_of_lins.
    destruct (ac_order _ _ _ Ha _ _ _ _ _ _ Eh Hb) as [oa Hbf]. exists oa.
    pose proof (lo_lin _ Hl _ _ Hin) as Hbl. pose proof (lo_nodup _ Hl) as Hnd.
    assert (o' = o) as ->.
    { apply (lo_start _ Hl b); [by eapply before_l|by eapply before_r]. }
    apply list_elem_of_split in Hin as (E1 & E2 & E). rewrite E in Hbf, Hbl, Hnd |- *.
    apply before_split in Hbl; [|done]. apply list_elem_of_split in Hbl as (F1 & F2 & ->).
    rewrite <- app_assoc, <- app_comm_cons in Hbf, Hnd. apply before_split in Hbf; [|done].
    rewrite lins_app. apply before_app; [|by apply elem_of_lins; left]. apply elem_of_lins. set_solver.
Qed.

(** The other calls do not mind a step of [c], which goes on with [p']. *)
Lemma accounts_step h ts w w' c m t p' :
  accounts h ts w -> ts !! c = Some t -> step c w m w' ->
  safe c p' (fun v w => wres w !! c = Some v) w' -> accounts h (<[c := Running p' (born t)]> ts) w'.
Proof using R_trans.
  intros Ha Hc Hst Hp'. pose proof (step_log _ _ _ _ Hst) as Hs. split.
  - intros d o. rewrite (ac_start _ _ _ Ha). split; [|apply (st_start _ _ _ _ Hst)].
    intros. by eapply elem_of_sublist.
  - intros d v Hd. rewrite <- (ac_return _ _ _ Ha _ _ Hd). apply ry_res. apply (st_rely _ _ _ _ Hst).
    intros ->. by eapply (ac_run _ _ _ Ha).
  - intros h1 h2 a v b o Eh Hb. destruct (ac_order _ _ _ Ha _ _ _ _ _ _ Eh Hb) as [oa ?].
    exists oa. by eapply before_sublist.
  - intros d p2. rewrite lookup_insert. case_decide as Hd; [|by apply (ac_run _ _ _ Ha)].
    intros [= <-]. subst d. by apply (ac_run _ _ _ Ha _ _ Hc).
  - intros d t2. rewrite (proj1 (st_grace _ _ _ _ Hst)), lookup_insert. case_decide as Hd; [|by apply (ac_born _ _ _ Ha)].
    intros [= <-]. subst d. exact (ac_born _ _ _ Ha _ _ Hc).
  - intros d p2. rewrite lookup_insert. case_decide as Hd; [intros [= <-]; by subst d|].
    intros Hd2. eapply safe_rely; [apply (st_rely _ _ _ _ Hst); congruence|]. by apply (ac_safe _ _ _ Ha).
Qed.

Section soundness.
Context (code : nat -> Op -> prog Z) (ok_call : Op -> Prop) (m0 : mem) (X0 : X).
Context (pre : nat -> Op -> world Op X -> Prop).
Context (H_init : Inv (World m0 [] ∅ ∅ ∅ X0)).
Context (H_call : forall w c o, Inv w -> (forall o', Start c o' ∉ wlog w) -> ok_call o ->
  exists w', wmem w' = wmem w /\ wlog w' = wlog w ++ [Start c o] /\ wres w' = wres w /\
    wborn w' = <[c := length (deferred (wmem w))]> (wborn w) /\ wfreed w' = wfreed w /\
    Inv w' /\ pre c o w' /\ forall j, j <> c -> rely j w w').
Context (H_code : forall c o fuel, ok_call o ->
  triple c (pre c o) (code fuel o) (fun v w => wres w !! c = Some v)).
Context (H_reclaim : forall w j a (run : nat -> Prop), Inv w -> (length (deferred m0) <= j)%nat ->
  retired_at (wmem w) j = Some a -> j ∉ wfreed w ->
  (forall c, run c -> exists b, wborn w !! c = Some b /\ (j < b)%nat) ->
  exists w', wmem w' = set_heap (wmem w) (delete a (heap (wmem w))) /\ wlog w' = wlog w /\ wres w' = wres w /\
    wborn w' = wborn w /\ wfreed w' = {[j]} ∪ wfreed w /\ Inv w' /\ forall c, run c -> rely c w w').

(** A new call is accounted for. *)
Lemma accounts_call h ts w c o fuel :
  accounts h ts w -> Inv w -> (forall o', Call c o' ∉ h) -> ok_call o ->
  exists w', wmem w' = wmem w /\ wfreed w' = wfreed w /\ Inv w' /\
    accounts (h ++ [Call c o]) (<[c := Running (code fuel o) (length (deferred (wmem w)))]> ts) w'.
Proof using All.
  intros Ha Hw Hf Ho. destruct (H_call w c o Hw) as (w' & Em & El & Er & Eb & Ef & HI & Hpre & Hg); [|done|].
  { intros o' Hs%(ac_start _ _ _ Ha). by apply (Hf o'). }
  assert (forall a v, Return a v ∈ h -> a <> c) as Hne.
  { intros a v Hr%(ac_return _ _ _ Ha) ->. destruct Hw as [Hl _].
    destruct (lo_res_lin _ _ _ Hl Hr) as [o' Hin%(lo_lin _ Hl)%before_l%(ac_start _ _ _ Ha)].
    by apply (Hf o'). }
  exists w'. split; [done|]. split; [done|]. split; [done|]. split.
  - intros d o'. rewrite El, !elem_of_app, (ac_start _ _ _ Ha), !list_elem_of_singleton.
    split; intros [?|[= -> ->]]; auto.
  - intros d v. rewrite elem_of_app, list_elem_of_singleton. intros [Hr|?]; [|done].
    rewrite Er. by apply (ac_return _ _ _ Ha).
  - intros h1 h2 a v b ob Eh Hb. rewrite El.
    destruct h2 as [|e h2 _] using rev_ind; [by apply not_elem_of_nil in Hb|].
    rewrite app_comm_cons, app_assoc in Eh. apply app_inj_tail in Eh as [Eh <-].
    apply elem_of_app in Hb as [Hb|Hb%list_elem_of_singleton].
    + destruct (ac_order _ _ _ Ha _ _ _ _ _ _ Eh Hb) as [oa ?]. exists oa.
      eapply before_sublist; [done|]. by apply sublist_inserts_r.
    + injection Hb as -> ->.
      assert (Return a v ∈ h) as Hr%(ac_return _ _ _ Ha) by (rewrite Eh; set_solver).
      destruct Hw as [Hl _]. destruct (lo_res_lin _ _ _ Hl Hr) as [oa ?]. exists oa. by apply before_snoc.
  - intros d p. rewrite lookup_insert. setoid_rewrite elem_of_app. setoid_rewrite list_elem_of_singleton.
    case_decide as Hd; [subst d; intros _|].
    + split; [exists o; auto|]. intros v [Hr|?]; [|done]. by eapply Hne.
    + intros [[o' ?] Hn]%(ac_run _ _ _ Ha). split; [eauto|]. intros v [?|?]; [|done]. by eapply Hn.
  - intros d t. rewrite Eb, !lookup_insert. case_decide as Hd; [by intros [= <-]|]. apply (ac_born _ _ _ Ha).
  - intros d p. rewrite lookup_insert. case_decide as Hd; [intros [= <-]; subst d; by apply H_code|].
    intros Hp. eapply safe_rely; [apply Hg; congruence|]. by apply (ac_safe _ _ _ Ha).
Qed.

(** A call that has reached its end returns the result the log has for it. *)
Lemma accounts_return h ts w c v b :
  accounts h ts w -> Inv w -> ts !! c = Some (Running (Ret v) b) ->
  exists w', wmem w' = wmem w /\ wfreed w' = wfreed w /\ Inv w' /\ accounts (h ++ [Return c v]) (delete c ts) w'.
Proof using R_refl R_trans.
  intros Ha Hw Hc. destruct (ac_safe _ _ _ Ha _ _ Hc w (rely_refl _ _) Hw) as (w' & Hst & Hr).
  exists w'. destruct (Hst) as [Em HI _ _ [_ Ef]]. split; [done|]. split; [done|]. split; [done|].
  pose proof (accounts_step _ _ _ _ _ _ _ (Ret v) Ha Hc Hst) as [A1 A2 A3 A4 A6 A5].
  { intros w1 Hr1 HI1. exists w1. split; [by apply step_refl|]. by rewrite (ry_res _ _ _ Hr1). }
  split.
  - intros d o. rewrite elem_of_app, list_elem_of_singleton, <- A1. split; [intros [?|?]; done|auto].
  - intros d u. rewrite elem_of_app, list_elem_of_singleton. intros [?|[= -> ->]]; auto.
  - intros h1 h2 a u b1 ob Eh Hb.
    destruct h2 as [|e h2 _] using rev_ind; [by apply not_elem_of_nil in Hb|].
    rewrite app_comm_cons, app_assoc in Eh. apply app_inj_tail in Eh as [Eh <-].
    apply elem_of_app in Hb as [Hb|Hb%list_elem_of_singleton]; [|done]. by eapply A3.
  - intros d p. rewrite lookup_delete. case_decide as Hd; [done|].
    setoid_rewrite elem_of_app. setoid_rewrite list_elem_of_singleton. intros Hp.
    destruct (A4 d p) as [[o ?] Hn]; [by rewrite lookup_insert_ne|]. split; [eauto|].
    intros u [?|[= -> ->]]; [by eapply Hn|done].
  - intros d t. rewrite lookup_delete. case_decide as Hd; [done|]. intros Ht. apply A6.
    by rewrite lookup_insert_ne.
  - intros d p. rewrite lookup_delete. case_decide as Hd; [done|]. intros Hp. apply A5.
    by rewrite lookup_insert_ne.
Qed.

(** Freeing a block that no running call can reach. *)
Lemma accounts_reclaim h ts w j a :
  accounts h ts w -> Inv w -> (length (deferred m0) <= j)%nat -> retired_at (wmem w) j = Some a -> j ∉ wfreed w ->
  map_Forall (fun _ t => (j < born t)%nat) ts ->
  exists w', wmem w' = set_heap (wmem w) (delete a (heap (wmem w))) /\ wfreed w' = {[j]} ∪ wfreed w /\
    Inv w' /\ accounts h ts w'.
Proof using All.
  intros Ha Hw Hj Hr Hf Hall.
  destruct (H_reclaim w j a (fun c => is_Some (ts !! c)) Hw Hj Hr Hf) as (w' & Em & El & Er & Eb & Ef & HI & Hg).
  { intros c [t Ht]. exists (born t). split; [by apply (ac_born _ _ _ Ha)|]. by apply (Hall c). }
  exists w'. split; [done|]. split; [done|]. split; [done|]. destruct Ha as [A1 A2 A3 A4 A5 A6].
  split; try rewrite El; try done.
  - intros c v. rewrite Er. apply A2.
  - intros c t. rewrite Eb. apply A5.
  - intros c t Ht. eapply safe_rely; [by apply Hg|by apply A6].
Qed.

Lemma reach_accounts h m ts fr :
  reach code ok_call m0 h m ts fr -> exists w, wmem w = m /\ wfreed w = fr /\ Inv w /\ accounts h ts w.
Proof using All.
  induction 1 as [|h m ts fr c o fuel _ IH Hf Ho|h m ts fr c o k b r m' _ IH Hc Hh|h m ts fr c v b _ IH Hc
    |h m ts fr j a _ IH Hj Hr Hn Hall].
  - exists (World m0 [] ∅ ∅ ∅ X0). split; [done|]. split; [done|]. split; [done|]. split; simpl; try done.
    + intros c o. split; by intros ?%not_elem_of_nil.
    + by intros c v ?%not_elem_of_nil.
    + by intros [] h2 a v b o E.
  - destruct IH as (w & <- & <- & Hw & Ha). by apply accounts_call.
  - destruct IH as (w & <- & <- & Hw & Ha).
    pose proof (ac_safe _ _ _ Ha _ _ Hc w (rely_refl _ _) Hw) as Hs. simpl in Hs. rewrite Hh in Hs.
    destruct Hs as (w2 & Hst & Hs). exists w2. destruct (Hst) as [Em HI _ _ [_ Ef]]. split; [done|]. split; [done|].
    split; [done|]. exact (accounts_step _ _ _ _ _ _ _ _ Ha Hc Hst Hs).
  - destruct IH as (w & <- & <- & Hw & Ha). by eapply accounts_return.
  - destruct IH as (w & <- & <- & Hw & Ha). by apply accounts_reclaim.
Qed.

(** Every history is linearizable, the linearization leads to the state of the
    log, and no call faults. *)
Lemma reach_sound h m ts fr :
  reach code ok_call m0 h m ts fr ->
  ~ stuck m ts /\ exists w, wmem w = m /\ wfreed w = fr /\ Inv w /\ linearization spec s0 h (lins (wlog w)).
Proof using All.
  intros (w & <- & <- & Hw & Ha)%reach_accounts. split.
  - intros (c & [p b] & Hp & Hs). pose proof (ac_safe _ _ _ Ha _ _ Hp) as Hsafe. simpl in Hs, Hsafe.
    destruct p as [a|o k|e]; specialize (Hsafe w (rely_refl _ _) Hw); simpl in Hsafe; [done| |].
    + by destruct (handle o (wmem w)) as [[??]|].
    + destruct Hs as [??]. by destruct Hsafe.
  - exists w. split; [done|]. split; [done|]. split; [done|]. destruct Hw as [Hl _]. by eapply accounts_linearization.
Qed.
End soundness.
End linearize.
