(* ===== verification/ListShape.v ===== *)
(** The memory of the lock-free list of [map/list.c] while calls overlap: the
    nodes in the list, the nodes that were unlinked and may still be visited, and
    the effect on them of each atomic instruction the list performs. *)
From S2P Require Import Prelude Random Machine Datatype MapSpec LinkedList Linearize.

(** The address and the words of a node. *)
Definition node_words (n : lnode) (q : Z) : list Z := [n_key n; n_val n; link q (n_mark n)].

(** The addresses of the published nodes: the sentinel, the nodes [L] in the list, and the
    unlinked nodes [U], the last one unlinked first, each with its frozen link. *)
Definition published (ll : list_t) (L : list lnode) (U : list (lnode * Z)) : list Z :=
  n_addr <$> head_node ll :: L ++ U.*1.

(** [a] is a published node with key [k]. *)
Definition has_key ll (m : mem) L U (a k : Z) : Prop :=
  a ∈ published ll L U /\ exists v x, heap m !! a = Some [k; v; x].

(** [a] is the end of the list or a published node above [k]. *)
Definition above ll (m : mem) L U (a k : Z) : Prop :=
  a = 0 \/ exists k', has_key ll m L U a k' /\ k < k'.

(** The published node [a] holds [k] and [v], points to [q] and has the mark
    [b]. *)
Definition holds ll (m : mem) L U (a k v q : Z) (b : bool) : Prop :=
  a ∈ published ll L U /\ heap m !! a = Some [k; v; link q b] /\ (q = 0 \/ node_ptr q).

Record shape (base : Z) (ll : list_t) (m : mem) (L : list lnode) (U : list (lnode * Z)) : Prop := {
  sh_rep : ll_rep base m ll L;
  sh_gone u : u ∈ U ->
    heap m !! n_addr u.1 = Some (node_words u.1 u.2) /\ n_mark u.1 = true /\
    node_ptr (n_addr u.1) /\ key_window base (n_key u.1) /\ (u.2 = 0 \/ node_ptr u.2);
  sh_nodup : NoDup (published ll L U);
  sh_order u : u ∈ U ->
    u.2 = 0 \/ u.2 ∈ n_addr <$> L \/ before u.2 (n_addr u.1) (n_addr <$> U.*1);
  sh_sorted u : u ∈ U -> above ll m L U u.2 (n_key u.1);
}.

Section shape.
Context `{Allocator} (base : Z) (ll : list_t).
Implicit Types (m : mem) (L A B R : list lnode) (U : list (lnode * Z)) (n p : lnode) (a k v q : Z).
Notation shape := (shape base ll).
Notation holds := (holds ll).
Notation has_key := (has_key ll).
Notation above := (above ll).
Notation published := (published ll).

Lemma published_cases L U a :
  a ∈ published L U <-> a = ll_head ll \/ a ∈ n_addr <$> L \/ a ∈ n_addr <$> U.*1.
Proof. unfold ListShape.published. rewrite fmap_cons, fmap_app, elem_of_cons, elem_of_app. done. Qed.

(** Where a published node is. *)
Variant place m L U a k v q (b : bool) : Prop :=
  | In_head : a = ll_head ll -> b = false -> q = first_or L 0 -> place m L U a k v q b
  | In_list A B : L = A ++ LNode a k v b :: B -> q = first_or B 0 -> place m L U a k v q b
  | In_gone U1 U2 : U = U1 ++ (LNode a k v true, q) :: U2 -> b = true -> place m L U a k v q b.

Lemma holds_place m L U a k v q b : shape m L U -> holds m L U a k v q b -> place m L U a k v q b.
Proof.
  intros Hs (Hp & Hl & Hq). apply published_cases in Hp as [->|[Hp|Hp]].
  - pose proof (rep_lookup base m ll L [] (head_node ll) L (sh_rep _ _ _ _ _ Hs) eq_refl) as Hh.
    pose proof (rep_first_ptr base m ll L [] (head_node ll) L (sh_rep _ _ _ _ _ Hs) eq_refl) as Hf.
    simpl in Hh. rewrite Hh in Hl. injection Hl as <- <- E.
    apply link_inj in E as [<- <-]; [|done..]. by apply In_head.
  - apply list_elem_of_fmap in Hp as ([a' k' v' b'] & -> & Hn). apply list_elem_of_split in Hn as (A & B & E).
    assert (head_node ll :: L = (head_node ll :: A) ++ LNode a' k' v' b' :: B) as E' by (by rewrite E).
    pose proof (rep_lookup base m ll L _ _ _ (sh_rep _ _ _ _ _ Hs) E') as Hh.
    pose proof (rep_first_ptr base m ll L _ _ _ (sh_rep _ _ _ _ _ Hs) E') as Hf.
    simpl in *. rewrite Hh in Hl. injection Hl as <- <- E2.
    apply link_inj in E2 as [<- <-]; [|done..]. by eapply In_list.
  - apply list_elem_of_fmap in Hp as (n & -> & Hn). apply list_elem_of_fmap in Hn as ([n' q'] & -> & Hn).
    destruct (sh_gone _ _ _ _ _ Hs _ Hn) as (Hh & Hm & _ & _ & Hq'). apply list_elem_of_split in Hn as (U1 & U2 & E).
    destruct n' as [a' k' v' b']. simpl in *. subst b'. rewrite Hh in Hl. injection Hl as <- <- E2.
    apply link_inj in E2 as [<- <-]; [|done..]. by eapply In_gone.
Qed.

(** Reading a published node: it is in one of the three places. *)
Lemma published_holds m L U a : shape m L U -> a ∈ published L U ->
  exists k v q b, holds m L U a k v q b.
Proof.
  intros Hs Hp. pose proof Hp as [->|[Hp'|Hp']]%published_cases.
  - exists 0, 0, (first_or L 0), false. split; [done|].
    pose proof (rep_lookup base m ll L [] (head_node ll) L (sh_rep _ _ _ _ _ Hs) eq_refl).
    pose proof (rep_first_ptr base m ll L [] (head_node ll) L (sh_rep _ _ _ _ _ Hs) eq_refl). done.
  - apply list_elem_of_fmap in Hp' as (n & -> & Hn). apply list_elem_of_split in Hn as (A & B & E).
    assert (head_node ll :: L = (head_node ll :: A) ++ n :: B) as E' by (by rewrite E).
    pose proof (rep_lookup base m ll L _ _ _ (sh_rep _ _ _ _ _ Hs) E').
    pose proof (rep_first_ptr base m ll L _ _ _ (sh_rep _ _ _ _ _ Hs) E').
    by exists (n_key n), (n_val n), (first_or B 0), (n_mark n).
  - apply list_elem_of_fmap in Hp' as (n & -> & Hn). apply list_elem_of_fmap in Hn as ([n' q] & -> & Hn).
    destruct (sh_gone _ _ _ _ _ Hs _ Hn) as (Hh & Hm & _ & _ & Hq).
    by exists (n_key n'), (n_val n'), q, (n_mark n').
Qed.

Lemma has_key_holds m L U a k : shape m L U -> has_key m L U a k ->
  exists v q b, holds m L U a k v q b.
Proof.
  intros Hs (Hp & v & x & Hl). destruct (published_holds m L U a Hs Hp) as (k' & v0 & q & b & ? & Hl' & ?).
  rewrite Hl' in Hl. injection Hl as <- <- <-. by exists v0, q, b.
Qed.

Lemma holds_key m L U a k v q b : holds m L U a k v q b -> has_key m L U a k.
Proof. intros (? & ? & _). split; eauto. Qed.

Lemma holds_fun m L U a k v q b k' v' q' b' :
  holds m L U a k v q b -> holds m L U a k' v' q' b' -> k' = k /\ v' = v /\ q' = q /\ b' = b.
Proof.
  intros (_ & H1 & Hq) (_ & H2 & Hq'). rewrite H1 in H2. injection H2 as <- <- E.
  by apply link_inj in E as [<- <-].
Qed.

Lemma has_key_fun m L U a k k' : has_key m L U a k -> has_key m L U a k' -> k = k'.
Proof. intros (_ & v & x & E) (_ & v' & x' & E'). congruence. Qed.

Lemma chain_holds m L U A n B : shape m L U -> head_node ll :: L = A ++ n :: B ->
  holds m L U (n_addr n) (n_key n) (n_val n) (first_or B 0) (n_mark n).
Proof.
  intros Hs E. split; [|split].
  - unfold ListShape.published. rewrite app_comm_cons, E, !fmap_app. apply elem_of_app. left.
    apply elem_of_app. right. by left.
  - exact (rep_lookup base m ll L _ _ _ (sh_rep _ _ _ _ _ Hs) E).
  - exact (rep_first_ptr base m ll L _ _ _ (sh_rep _ _ _ _ _ Hs) E).
Qed.

Lemma in_list_holds m L U A n B : shape m L U -> L = A ++ n :: B ->
  holds m L U (n_addr n) (n_key n) (n_val n) (first_or B 0) (n_mark n).
Proof. intros Hs ->. by apply (chain_holds m _ U (head_node ll :: A)). Qed.

(** The list is sorted. *)
Lemma in_list_above m L U A n B : shape m L U -> L = A ++ n :: B -> above m L U (first_or B 0) (n_key n).
Proof.
  intros Hs E. destruct B as [|b B]; [by left|right]. exists (n_key b). split.
  - eapply holds_key, (in_list_holds m L U (A ++ [n]) b B); [done|]. by rewrite <- app_assoc.
  - pose proof (sh_rep _ _ _ _ _ Hs) as [_ _ _ Hw _]. rewrite E in Hw. apply wf_nodes_app in Hw as (_ & Hw & _).
    apply wf_nodes_cons in Hw as (_ & _ & Hw). apply Hw. by left.
Qed.

Lemma in_gone_holds m L U n q : shape m L U -> (n, q) ∈ U ->
  holds m L U (n_addr n) (n_key n) (n_val n) q true.
Proof.
  intros Hs Hu. destruct (sh_gone _ _ _ _ _ Hs _ Hu) as (Hh & Hm & _ & _ & Hq). split; [|split; [|done]].
  - apply published_cases. right. right. rewrite <- list_fmap_compose. apply list_elem_of_fmap. by exists (n, q).
  - unfold node_words in Hh. simpl in *. by rewrite Hm in Hh.
Qed.

Lemma published_ptr m L U a : shape m L U -> a ∈ published L U -> node_ptr a.
Proof.
  intros Hs [->|[Hp|Hp]]%published_cases.
  - apply (sh_rep _ _ _ _ _ Hs).
  - apply list_elem_of_fmap in Hp as (n & -> & Hn). pose proof (sh_rep _ _ _ _ _ Hs) as [_ _ _ [Hw _ _ _] _].
    rewrite Forall_forall in Hw. by apply Hw.
  - apply list_elem_of_fmap in Hp as (n & -> & Hn). apply list_elem_of_fmap in Hn as (u & -> & Hn).
    apply (sh_gone _ _ _ _ _ Hs _ Hn).
Qed.

Lemma published_nonzero m L U : shape m L U -> 0 ∉ published L U.
Proof. intros Hs Hp%(published_ptr m L U 0 Hs). destruct Hp. lia. Qed.

(** The keys of the nodes other than the sentinel can be compared. *)
Lemma has_key_window m L U a k :
  shape m L U -> has_key m L U a k -> a <> ll_head ll -> key_window base k.
Proof.
  intros Hs Hk Hne. destruct (has_key_holds m L U a k Hs Hk) as (v & q & b & Hh).
  destruct (holds_place m L U a k v q b Hs Hh) as [|A B E _|U1 U2 E _]; [done|..].
  - pose proof (sh_rep _ _ _ _ _ Hs) as [_ _ _ [_ _ Hw _] _]. rewrite Forall_forall in Hw.
    apply (Hw (LNode a k v b)). rewrite E. apply elem_of_app. right. by left.
  - apply (sh_gone _ _ _ _ _ Hs (LNode a k v true, q)). rewrite E. apply elem_of_app. right. by left.
Qed.

(** ** What a step may change *)

(** A published node stays published, with the same key; once it is marked its
    link is frozen. *)
Definition grows m L U m' L' U' : Prop :=
  forall a k v q b, holds m L U a k v q b ->
  exists v' q' b', holds m' L' U' a k v' q' b' /\ (b = true -> b' = true /\ q' = q).

Lemma grows_refl m L U : grows m L U m L U.
Proof. intros a k v q b ?. by exists v, q, b. Qed.

Lemma grows_trans m1 L1 U1 m2 L2 U2 m3 L3 U3 :
  grows m1 L1 U1 m2 L2 U2 -> grows m2 L2 U2 m3 L3 U3 -> grows m1 L1 U1 m3 L3 U3.
Proof.
  intros H1 H2 a k v q b (v' & q' & b' & (v2 & q2 & b2 & Hh & Hb2)%H2 & Hb1)%H1.
  exists v2, q2, b2. split; [done|]. intros [-> ->]%Hb1. by apply Hb2.
Qed.

Lemma grows_key m L U m' L' U' a k :
  shape m L U -> grows m L U m' L' U' -> has_key m L U a k -> has_key m' L' U' a k.
Proof.
  intros Hs Hg Hk. destruct (has_key_holds m L U a k Hs Hk) as (v & q & b & (v' & q' & b' & Hh & _)%Hg).
  by eapply holds_key.
Qed.

Lemma grows_above m L U m' L' U' a k :
  shape m L U -> grows m L U m' L' U' -> above m L U a k -> above m' L' U' a k.
Proof. intros Hs Hg [->|(k' & ? & ?)]; [by left|right]. exists k'. split; [by eapply grows_key|done]. Qed.

(** Conversely, what is above [k] later was above it if it was published. *)
Lemma above_back m L U m' L' U' a k :
  shape m L U -> grows m L U m' L' U' -> a = 0 \/ a ∈ published L U ->
  above m' L' U' a k -> above m L U a k.
Proof.
  intros Hs Hg [->|Hp]; [by left|]. intros [->|(k' & Hk & ?)]; [by left|right].
  destruct (published_holds m L U a Hs Hp) as (k0 & v & q & b & Hh). exists k0.
  split; [by eapply holds_key|]. assert (k' = k0) as ->; [|done].
  eapply has_key_fun; [exact Hk|]. eapply (grows_key m L U); [done..|]. by eapply holds_key.
Qed.

(** Writing one published node. *)
Lemma grows_write m L U m' L' U' x k v q b v' q' b' :
  shape m L U -> holds m L U x k v q b ->
  heap m' = <[x := [k; v'; link q' b']]> (heap m) -> q' = 0 \/ node_ptr q' ->
  (b = true -> b' = true /\ q' = q) -> (forall a, a ∈ published L U -> a ∈ published L' U') ->
  grows m L U m' L' U'.
Proof.
  intros Hs Hp Em Hq' Hb Hsub a k0 v0 q0 b0 Ha. destruct (decide (a = x)) as [->|Hne].
  - destruct (holds_fun _ _ _ _ _ _ _ _ _ _ _ _ Ha Hp) as (-> & -> & -> & ->). exists v', q', b'.
    split; [|done]. destruct Hp as [? _]. split; [by apply Hsub|]. by rewrite Em, lookup_insert_eq.
  - exists v0, q0, b0. split; [|done]. destruct Ha as (? & ? & ?). split; [by apply Hsub|].
    by rewrite Em, lookup_insert_ne.
Qed.

Lemma seg_agree h h' L q : (forall a, a ∈ n_addr <$> L -> h' !! a = h !! a) -> seg h L q -> seg h' L q.
Proof.
  induction L as [|n L IH]; simpl; [done|]. intros Ha [Hn Hs].
  rewrite Ha by left. split; [done|]. apply IH; [|done]. intros a ?. apply Ha. by right.
Qed.

(** A step that writes no published node. *)
Lemma shape_frame m m' L U :
  (forall a, a ∈ published L U -> heap m' !! a = heap m !! a) -> shape m L U ->
  shape m' L U /\ grows m L U m' L U.
Proof.
  intros Ha [[Hseg ????] Hg Hnd Ho Hst].
  assert (forall a k, above m L U a k -> above m' L U a k) as Hab.
  { intros a k [?|(k' & (? & v & x & ?) & ?)]; [by left|right]. exists k'. split; [|done].
    split; [done|]. exists v, x. by rewrite Ha. }
  split; [split; [split|..]|]; try done.
  - eapply seg_agree; [|exact Hseg]. intros a Hin. apply Ha. unfold ListShape.published.
    rewrite app_comm_cons, fmap_app. apply elem_of_app. by left.
  - intros u Hu. rewrite Ha; [by apply Hg|]. apply published_cases. right. right.
    apply list_elem_of_fmap. exists u.1. split; [done|]. apply list_elem_of_fmap. by exists u.
  - auto.
  - intros a k v q b (? & ? & ?). exists v, q, b. split; [|done]. split; [done|]. by rewrite Ha.
Qed.

(** The value or the mark of a node in the list is written. *)
Lemma shape_set m L U A n n' B dfr :
  shape m L U -> L = A ++ n :: B -> n_addr n' = n_addr n -> n_key n' = n_key n ->
  (n_mark n' = false -> 0 < n_val n' < 2 ^ 63) -> (n_mark n = true -> n_mark n' = true) ->
  let m' := Mem (<[n_addr n := node_words n' (first_or B 0)]> (heap m)) dfr (rand m) in
  shape m' (A ++ n' :: B) U /\ grows m L U m' (A ++ n' :: B) U.
Proof.
  intros Hs E Ea Ek Hv Hm m'. pose proof (in_list_holds m L U A n B Hs E) as Hh.
  assert (published (A ++ n' :: B) U = published L U) as Ep.
  { unfold ListShape.published. subst L. rewrite !fmap_cons, !fmap_app, !fmap_cons. by rewrite Ea. }
  assert (grows m L U m' (A ++ n' :: B) U) as Hg.
  { eapply (grows_write m L U m'); [done|exact Hh| | | |by rewrite Ep].
    - simpl. unfold node_words. by rewrite Ek.
    - apply Hh.
    - auto. }
  split; [|done]. destruct (rep_update base m ll L (head_node ll :: A) n n' B dfr (sh_rep _ _ _ _ _ Hs))
    as (L' & E' & Hr); [by rewrite E|done..|]. injection E' as ->. split; [done| |by rewrite Ep; apply Hs| |].
  - intros u Hu. destruct (sh_gone _ _ _ _ _ Hs u Hu) as (Hl & Hrest). split; [|done]. simpl.
    rewrite lookup_insert_ne; [done|]. intros Eu. pose proof (sh_nodup _ _ _ _ _ Hs) as Hnd.
    unfold ListShape.published in Hnd. rewrite app_comm_cons, fmap_app in Hnd. apply NoDup_app in Hnd as (_ & Hd & _).
    apply (Hd (n_addr n)).
    + rewrite E, fmap_cons, fmap_app. right. apply elem_of_app. right. by left.
    + rewrite Eu. apply list_elem_of_fmap. exists u.1. split; [done|]. apply list_elem_of_fmap. by exists u.
  - intros u Hu. pose proof (sh_order _ _ _ _ _ Hs u Hu) as Ho. rewrite E, fmap_app, fmap_cons in Ho.
    by rewrite fmap_app, fmap_cons, Ea.
  - intros u Hu. eapply (grows_above m L U); [done..|]. by apply (sh_sorted _ _ _ _ _ Hs).
Qed.

Lemma gone_addr_list U : n_addr <$> U.*1 = (fun u => n_addr u.1) <$> U.
Proof. by rewrite <- list_fmap_compose. Qed.

(** The value of a node that was unlinked is written. *)
Lemma shape_set_gone m L U U1 n n' q U2 dfr :
  shape m L U -> U = U1 ++ (n, q) :: U2 -> n_addr n' = n_addr n -> n_key n' = n_key n -> n_mark n' = true ->
  let m' := Mem (<[n_addr n := node_words n' q]> (heap m)) dfr (rand m) in
  shape m' L (U1 ++ (n', q) :: U2) /\ grows m L U m' L (U1 ++ (n', q) :: U2).
Proof.
  intros Hs E Ea Ek Hm m'. set (U' := U1 ++ (n', q) :: U2).
  assert (Hu : (n, q) ∈ U) by (rewrite E; apply elem_of_app; right; by left).
  pose proof (in_gone_holds m L U n q Hs Hu) as Hh.
  assert (n_addr <$> U'.*1 = n_addr <$> U.*1) as EU.
  { unfold U'. rewrite E, !fmap_app, !fmap_cons. simpl. by rewrite Ea. }
  assert (published L U' = published L U) as Ep.
  { unfold ListShape.published. by rewrite !fmap_cons, !fmap_app, EU. }
  assert (grows m L U m' L U') as Hg.
  { eapply (grows_write m L U m'); [done|exact Hh| | | |by rewrite Ep].
    - simpl. unfold node_words. by rewrite Ek, Hm.
    - apply Hh.
    - done. }
  split; [|done]. pose proof (sh_nodup _ _ _ _ _ Hs) as Hnd.
  pose proof (sh_rep _ _ _ _ _ Hs) as [Hseg ????].
  unfold ListShape.published in Hnd. rewrite app_comm_cons, fmap_app in Hnd. apply NoDup_app in Hnd as (_ & Hd & Hnd).
  assert (forall u, u ∈ U' -> u = (n', q) \/ u ∈ U /\ n_addr u.1 <> n_addr n) as Hcase.
  { intros u Hin. rewrite E, gone_addr_list, fmap_app in Hnd. simpl in Hnd. rewrite <- Permutation_middle in Hnd.
    apply NoDup_cons in Hnd as [Hn _]. unfold U' in Hin.
    apply elem_of_app in Hin as [Hin|[->|Hin]%elem_of_cons]; [right|by left|right]; (split; [set_solver|]);
      intros Eu; apply Hn; rewrite <- Eu; apply elem_of_app; [left|right];
      by apply (list_elem_of_fmap_2 (fun u => n_addr u.1)). }
  destruct (sh_gone _ _ _ _ _ Hs (n, q) Hu) as (_ & _ & Hp & Hk & Hq).
  split; [split; try done| |by rewrite Ep; apply Hs| |].
  - eapply seg_agree; [|exact Hseg]. intros a Hin%Hd. simpl. rewrite lookup_insert_ne; [done|]. intros <-.
    apply Hin. apply list_elem_of_fmap. exists n. split; [done|]. apply list_elem_of_fmap. by exists (n, q).
  - intros u [->|[Hin Hne]]%Hcase; simpl.
    + rewrite Ea, Ek, lookup_insert_eq. done.
    + rewrite lookup_insert_ne by done. by apply (sh_gone _ _ _ _ _ Hs).
  - intros u [->|[Hin Hne]]%Hcase; rewrite EU; [|by apply (sh_order _ _ _ _ _ Hs)].
    simpl. rewrite Ea. by apply (sh_order _ _ _ _ _ Hs (n, q)).
  - intros u [->|[Hin Hne]]%Hcase; (eapply (grows_above m L U); [done..|]).
    + simpl. rewrite Ek. by apply (sh_sorted _ _ _ _ _ Hs (n, q)).
    + by apply (sh_sorted _ _ _ _ _ Hs).
Qed.

(** A marked node is unlinked from its unmarked predecessor [p]. *)
Lemma shape_unlink m L U A p n R dfr :
  shape m L U -> head_node ll :: L = A ++ p :: n :: R -> n_mark p = false -> n_mark n = true ->
  let m' := Mem (<[n_addr p := [n_key p; n_val p; first_or R 0]]> (heap m)) dfr (rand m) in
  let U' := (n, first_or R 0) :: U in
  exists L', head_node ll :: L' = A ++ p :: R /\ shape m' L' U' /\ grows m L U m' L' U'.
Proof.
  intros Hs E Hp Hn m' U'.
  destruct (rep_unlink base m ll L A p n R dfr (sh_rep _ _ _ _ _ Hs) E) as (L' & E' & Hrep).
  rewrite Hp, link_false in Hrep. exists L'. split; [done|].
  assert (exists A', L = A' ++ n :: R /\ L' = A' ++ R) as (A' & EL & EL').
  { destruct A as [|x A]; injection E as _ ->; injection E' as _ ->; [by exists []|].
    exists (A ++ [p]). by rewrite <- !app_assoc. }
  pose proof (chain_holds m L U A p (n :: R) Hs E) as Hhp.
  pose proof (in_list_holds m L U A' n R Hs EL) as Hhn. rewrite Hp in Hhp. rewrite Hn in Hhn.
  assert (published L U ≡ₚ published L' U') as Hperm.
  { unfold ListShape.published, U'. rewrite !app_comm_cons, E, E', !fmap_cons. simpl.
    rewrite !fmap_app, !fmap_cons, <- !app_assoc. simpl. rewrite <- (Permutation_middle (n_addr <$> R)). done. }
  assert (n_addr n ∉ n_addr <$> U.*1 /\ n_addr p ∉ n_addr <$> U.*1 /\ n_addr p <> n_addr n) as (HnU & HpU & Hpn').
  { pose proof (sh_nodup _ _ _ _ _ Hs) as Hnd. unfold ListShape.published in Hnd.
    rewrite app_comm_cons, E, fmap_app in Hnd. apply NoDup_app in Hnd as (Hnd & Hd & _).
    rewrite fmap_app in Hnd. apply NoDup_app in Hnd as (_ & _ & Hnd). simpl in Hnd. apply NoDup_cons in Hnd as [Hne _].
    split_and!; [apply Hd; rewrite fmap_app; apply elem_of_app; right; right; by left
      |apply Hd; rewrite fmap_app; apply elem_of_app; right; by left|]. intros Eq. apply Hne. rewrite Eq. by left. }
  assert (grows m L U m' L' U') as Hg.
  { eapply (grows_write m L U m' L' U' _ _ _ _ _ (n_val p) (first_or R 0) false);
      [done|exact Hhp| |apply Hhn|done|intros a; by rewrite Hperm].
    simpl. by rewrite link_false. }
  split; [|done]. split; [done| |by rewrite <- Hperm; apply Hs| |].
  - intros u [->|Hu]%elem_of_cons; simpl.
    + unfold node_words. rewrite lookup_insert_ne, Hn by done. split_and!; [apply Hhn|done| | |apply Hhn].
      * apply (published_ptr m L U); [done|apply Hhn].
      * apply (has_key_window m L U (n_addr n)); [done|by eapply holds_key|]. intros Eh.
        pose proof (rep_nodup _ _ _ _ (sh_rep _ _ _ _ _ Hs)) as Hnd. rewrite fmap_cons in Hnd.
        apply NoDup_cons in Hnd as [Hnd _]. apply Hnd. simpl. rewrite <- Eh, EL, fmap_app.
        apply elem_of_app. right. by left.
    + rewrite lookup_insert_ne; [by apply (sh_gone _ _ _ _ _ Hs)|]. intros Eu. apply HpU. rewrite Eu.
      rewrite gone_addr_list. by apply (list_elem_of_fmap_2 (fun u => n_addr u.1)).
  - assert (forall x, x ∈ n_addr <$> L -> x ∈ n_addr <$> L' \/ x = n_addr n) as Hsub.
    { intros x. rewrite EL, EL', !fmap_app, fmap_cons, !elem_of_app, elem_of_cons. tauto. }
    intros u [->|Hu]%elem_of_cons; simpl.
    + destruct R as [|r R]; [by left|right; left]. rewrite EL', fmap_app. apply elem_of_app. right. by left.
    + destruct (sh_order _ _ _ _ _ Hs u Hu) as [?|[Hx|Hx]]; [by left|right..].
      * destruct (Hsub _ Hx) as [?| ->]; [by left|right]. 
        change (n_addr n :: ?l) with ([n_addr n] ++ l). apply before_app; [by left|].
        rewrite gone_addr_list. by apply (list_elem_of_fmap_2 (fun u => n_addr u.1)).
      * right. eapply before_sublist; [exact Hx|]. by apply sublist_cons.
  - intros u [->|Hu]%elem_of_cons; simpl; (eapply (grows_above m L U); [done..|]).
    + by eapply in_list_above.
    + by apply (sh_sorted _ _ _ _ _ Hs).
Qed.

(** A node is linked behind the unmarked node [p]. *)
Lemma shape_insert m L U A p R a key v :
  shape m L U -> head_node ll :: L = A ++ p :: R -> n_mark p = false ->
  a ∉ published L U -> heap m !! a = Some [key; v; first_or R 0] -> node_ptr a -> 0 < v < 2 ^ 63 ->
  key_window base key -> (p = head_node ll \/ n_key p < key) -> (forall n, n ∈ R -> key < n_key n) ->
  let m' := set_heap m (<[n_addr p := [n_key p; n_val p; a]]> (heap m)) in
  exists L', head_node ll :: L' = A ++ p :: LNode a key v false :: R /\
    shape m' L' U /\ grows m L U m' L' U.
Proof.
  intros Hs E Hp Ha Hl Hptr Hv Hk Hlo Hhi m'. set (n := LNode a key v false).
  pose proof (chain_holds m L U A p R Hs E) as Hhp. rewrite Hp in Hhp.
  assert (shape (set_heap m (delete a (heap m))) L U) as Hs0.
  { apply (shape_frame m); [|done]. intros x Hx. simpl. rewrite lookup_delete_ne; congruence. }
  destruct (rep_insert base (set_heap m (delete a (heap m))) ll L A p R a key v (sh_rep _ _ _ _ _ Hs0))
    as (L' & E' & Hrep); try done; [apply lookup_delete_eq|]. exists L'. split; [done|].
  replace (set_heap _ _) with m' in Hrep.
  2: { unfold m', set_heap. simpl. by rewrite insert_delete_eq, (insert_id (heap m) a) by done. }
  assert (published L' U ≡ₚ a :: published L U) as Hperm.
  { unfold ListShape.published. rewrite !app_comm_cons, E, E', !fmap_app, !fmap_cons, <- !app_assoc. simpl.
    by rewrite (Permutation_swap a (n_addr p)), <- Permutation_middle. }
  assert (n_addr p ∈ published L U) as Hpp by apply Hhp.
  assert (grows m L U m' L' U) as Hg.
  { eapply (grows_write m L U m' L' U _ _ _ _ _ (n_val p) a false);
      [done|exact Hhp| |by right|done|intros x; rewrite Hperm; by right].
    simpl. by rewrite link_false. }
  split; [|done]. split; [done| |rewrite Hperm; apply NoDup_cons; split; [done|apply Hs]| |].
  - intros u Hu. simpl. rewrite lookup_insert_ne; [by apply (sh_gone _ _ _ _ _ Hs)|]. intros Eu.
    pose proof (sh_nodup _ _ _ _ _ Hs) as Hnd. unfold ListShape.published in Hnd.
    rewrite app_comm_cons, E, fmap_app in Hnd. apply NoDup_app in Hnd as (_ & Hd & _). apply (Hd (n_addr p)).
    + rewrite fmap_app. apply elem_of_app. right. by left.
    + rewrite Eu, gone_addr_list. by apply (list_elem_of_fmap_2 (fun u => n_addr u.1)).
  - intros u Hu. destruct (sh_order _ _ _ _ _ Hs u Hu) as [?|[Hin|?]]; [by left|right; left|right; by right].
    destruct A as [|x A]; injection E as _ ->; injection E' as _ ->; [by right|].
    rewrite fmap_app, !fmap_cons in *. apply elem_of_app in Hin as [?|[->|?]%elem_of_cons]; apply elem_of_app;
      [by left|right; by left|right; right; by right].
  - intros u Hu. eapply (grows_above m L U); [done..|]. by apply (sh_sorted _ _ _ _ _ Hs).
Qed.

(** The nodes that were unlinked first are forgotten: nothing that was unlinked later
    points to them. *)
Lemma shape_truncate m L U1 U2 : shape m L (U1 ++ U2) -> shape m L U1.
Proof.
  intros Hs. pose proof (sh_nodup _ _ _ _ _ Hs) as Hnd.
  assert (forall u, u ∈ U1 -> u.2 = 0 \/ u.2 ∈ n_addr <$> L \/ before u.2 (n_addr u.1) (n_addr <$> U1.*1)) as Ho.
  { intros u Hu. destruct (sh_order _ _ _ _ _ Hs u) as [?|[?|Hb]]; [set_solver|by left|right; by left|]. right; right.
    apply list_elem_of_split in Hu as (V1 & V2 & ->). unfold ListShape.published in Hnd.
    rewrite app_comm_cons, fmap_app in Hnd. apply NoDup_app in Hnd as (_ & _ & Hnd).
    rewrite !fmap_app, !fmap_cons, <- app_assoc in Hb, Hnd. rewrite fmap_app, fmap_cons.
    apply before_split in Hb; [|done]. rewrite fmap_app. apply before_app; [done|by left]. }
  split; [apply Hs| | |done|].
  - intros u Hu. apply (sh_gone _ _ _ _ _ Hs). set_solver.
  - unfold ListShape.published in *. rewrite fmap_app, app_assoc, app_comm_cons, fmap_app in Hnd.
    by apply NoDup_app in Hnd as (? & _ & _).
  - intros u Hu. destruct (sh_sorted _ _ _ _ _ Hs u) as [E|(k & (_ & v & x & E) & ?)]; [set_solver|by left|].
    destruct (Ho u Hu) as [?|Hin]; [by left|right]. exists k. split; [|done]. split; [|by exists v, x].
    apply published_cases. destruct Hin as [?|?%before_l]; auto.
Qed.

(** ** Writing a node wherever it is *)

(** [n'] in place of the node with its address. *)
Definition repl (n' n : lnode) : lnode := if decide (n_addr n = n_addr n') then n' else n.

Definition repl_gone (n' : lnode) U : list (lnode * Z) := (fun u => (repl n' u.1, u.2)) <$> U.

Lemma repl_gone_nodes n' U : (repl_gone n' U).*1 = repl n' <$> U.*1.
Proof. unfold repl_gone. by rewrite <- !list_fmap_compose. Qed.

Lemma repl_other n' L : n_addr n' ∉ n_addr <$> L -> repl n' <$> L = L.
Proof.
  intros Hn. rewrite <- (list_fmap_id L) at 2. apply list_fmap_ext. intros i n Hi.
  unfold repl. rewrite decide_False; [done|]. intros E. apply Hn. rewrite <- E.
  apply list_elem_of_fmap_2. by eapply list_elem_of_lookup_2.
Qed.

Lemma repl_app n' A n B : NoDup (n_addr <$> A ++ n :: B) -> n_addr n' = n_addr n ->
  repl n' <$> A ++ n :: B = A ++ n' :: B.
Proof.
  intros Hnd Ea. rewrite fmap_app, fmap_cons, <- Permutation_middle in Hnd.
  apply NoDup_cons in Hnd as [Hn _]. rewrite elem_of_app in Hn.
  rewrite fmap_app, fmap_cons, !repl_other by (rewrite Ea; tauto).
  unfold repl. by rewrite decide_True.
Qed.

Lemma repl_gone_other n' U : n_addr n' ∉ n_addr <$> U.*1 -> repl_gone n' U = U.
Proof.
  intros Hn. unfold repl_gone. rewrite <- (list_fmap_id U) at 2. apply list_fmap_ext. intros i [n q] Hi.
  unfold repl. simpl. rewrite decide_False; [done|]. intros E. apply Hn. rewrite <- E, gone_addr_list.
  apply (list_elem_of_fmap_2 (fun u => n_addr u.1) _ (n, q)). by eapply list_elem_of_lookup_2.
Qed.

Lemma repl_gone_app n' U1 n q U2 : NoDup (n_addr <$> (U1 ++ (n, q) :: U2).*1) -> n_addr n' = n_addr n ->
  repl_gone n' (U1 ++ (n, q) :: U2) = U1 ++ (n', q) :: U2.
Proof.
  intros Hnd Ea. rewrite !fmap_app, !fmap_cons, <- Permutation_middle in Hnd.
  apply NoDup_cons in Hnd as [Hn _]. rewrite elem_of_app in Hn. simpl in Hn.
  unfold repl_gone. rewrite fmap_app, fmap_cons. fold (repl_gone n' U1) (repl_gone n' U2).
  rewrite !repl_gone_other by (rewrite Ea; tauto). simpl. unfold repl. by rewrite decide_True.
Qed.

Lemma repl_addr n' L : n_addr <$> (repl n' <$> L) = n_addr <$> L.
Proof.
  rewrite <- list_fmap_compose. apply list_fmap_ext. intros i n _. unfold compose, repl.
  by case_decide.
Qed.

Lemma repl_published n' L U : published (repl n' <$> L) (repl_gone n' U) = published L U.
Proof.
  unfold ListShape.published. rewrite repl_gone_nodes, !fmap_cons, !fmap_app, !repl_addr. done.
Qed.

Lemma chain_nodup m L U : shape m L U ->
  NoDup (n_addr <$> L) /\ NoDup (n_addr <$> U.*1) /\ (forall a, a ∈ n_addr <$> L -> a ∉ n_addr <$> U.*1) /\
  ll_head ll ∉ n_addr <$> L /\ ll_head ll ∉ n_addr <$> U.*1.
Proof.
  intros Hs. pose proof (sh_nodup _ _ _ _ _ Hs) as Hnd. unfold ListShape.published in Hnd.
  rewrite fmap_cons, fmap_app in Hnd. apply NoDup_cons in Hnd as [Hh Hnd].
  apply NoDup_app in Hnd as (? & ? & ?). rewrite elem_of_app in Hh. simpl in Hh. tauto.
Qed.

Lemma in_nodes m L U a k v q b : shape m L U -> holds m L U a k v q b -> a <> ll_head ll ->
  LNode a k v b ∈ L ++ U.*1.
Proof.
  intros Hs Hh Hne. destruct (holds_place m L U a k v q b Hs Hh) as [|A B -> Eq|U1 U2 -> ->]; [done|..].
  - rewrite <- app_assoc. apply elem_of_app. right. by left.
  - rewrite fmap_app, !elem_of_app. right. right. by left.
Qed.

Lemma shape_repl m L U a k v q b v' b' dfr :
  shape m L U -> holds m L U a k v q b -> a <> ll_head ll ->
  (b' = false -> 0 < v' < 2 ^ 63) -> (b = true -> b' = true) ->
  let n' := LNode a k v' b' in
  let m' := Mem (<[a := [k; v'; link q b']]> (heap m)) dfr (rand m) in
  shape m' (repl n' <$> L) (repl_gone n' U) /\
  grows m L U m' (repl n' <$> L) (repl_gone n' U) /\
  (b = false -> exists A B, L = A ++ LNode a k v b :: B /\ repl n' <$> L = A ++ n' :: B) /\
  exists X Y, L ++ U.*1 = X ++ LNode a k v b :: Y /\ (repl n' <$> L) ++ (repl_gone n' U).*1 = X ++ n' :: Y.
Proof.
  intros Hs Hh Hne Hv Hb n' m'.
  assert (exists X Y, L ++ U.*1 = X ++ LNode a k v b :: Y /\
            (repl n' <$> L) ++ (repl_gone n' U).*1 = X ++ n' :: Y) as Hnodes.
  { pose proof (in_nodes _ _ _ _ _ _ _ _ Hs Hh Hne) as Hin. apply list_elem_of_split in Hin as (X & Y & E). exists X, Y.
    split; [done|]. rewrite repl_gone_nodes, <- fmap_app, E. apply repl_app; [|done].
    rewrite <- E. pose proof (sh_nodup _ _ _ _ _ Hs) as Hnd. by apply NoDup_cons in Hnd as [_ ?]. }
  cut (shape m' (repl n' <$> L) (repl_gone n' U) /\ grows m L U m' (repl n' <$> L) (repl_gone n' U) /\
       (b = false -> exists A B, L = A ++ LNode a k v b :: B /\ repl n' <$> L = A ++ n' :: B)).
  { intros (? & ? & ?). by split_and!. }
  clear Hnodes. destruct (chain_nodup m L U Hs) as (HnL & HnU & Hd & _).
  destruct (holds_place m L U a k v q b Hs Hh) as [|A B E Eq|U1 U2 E ->]; [done|..].
  - rewrite (repl_gone_other n' U).
    2: { apply Hd. rewrite E, fmap_app. apply elem_of_app. right. by left. }
    rewrite E in HnL |- *. rewrite (repl_app n' A _ B) by done.
    destruct (shape_set m L U A (LNode a k v b) n' B dfr) as [H1 H2]; [done..|].
    unfold m'. rewrite Eq. split; [exact H1|]. split; [by rewrite <- E|]. eauto.
  - rewrite (repl_other n' L).
    2: { intros Hin%Hd. apply Hin. rewrite E, fmap_app, fmap_app. apply elem_of_app. right. by left. }
    assert (repl_gone n' U = U1 ++ (n', q) :: U2) as ->.
    { rewrite E in HnU |- *. by apply repl_gone_app. }
    destruct (shape_set_gone m L U U1 (LNode a k v true) n' q U2 dfr) as [H1 H2]; [done..|by apply Hb|].
    unfold node_words in H1, H2. simpl in H1, H2. unfold m'. split; [exact H1|]. split; [exact H2|done].
Qed.

(** ** The map a list stands for *)

Lemma abs_live A n B : wf_nodes base (A ++ n :: B) -> n_mark n = false -> abs (A ++ n :: B) !! n_key n = Some (n_val n).
Proof.
  intros (_ & _ & Hlt)%wf_nodes_app Hm. rewrite abs_app. rewrite lookup_union_r.
  - simpl. rewrite Hm. apply lookup_insert_eq.
  - apply abs_lookup_None. intros x Hx. assert (n_key x < n_key n); [|lia]. apply Hlt; [done|by left].
Qed.

Lemma abs_set A n n' B : wf_nodes base (A ++ n :: B) -> n_mark n = false -> n_key n' = n_key n ->
  abs (A ++ n' :: B) = if n_mark n' then delete (n_key n) (abs (A ++ n :: B))
                       else <[n_key n := n_val n']> (abs (A ++ n :: B)).
Proof.
  intros (_ & Hw & Hlt)%wf_nodes_app Hm Ek. rewrite !abs_app. simpl. rewrite Hm, Ek.
  apply wf_nodes_cons in Hw as (_ & _ & HwB).
  assert (abs A !! n_key n = None) as HA.
  { apply abs_lookup_None. intros x Hx. assert (n_key x < n_key n); [|lia]. apply Hlt; [done|by left]. }
  assert (abs B !! n_key n = None) as HB by (apply abs_lookup_None; intros x ?%HwB; lia).
  rewrite <- insert_union_r by done. destruct (n_mark n').
  - rewrite delete_insert_eq, delete_id; [done|]. by rewrite lookup_union_None.
  - by rewrite <- insert_union_r, insert_insert_eq.
Qed.

Lemma abs_link A p n R key v : wf_nodes base (A ++ p :: R) -> n_key n = key -> n_mark n = false -> n_val n = v ->
  n_key p < key -> abs (A ++ p :: n :: R) = <[key := v]> (abs (A ++ p :: R)).
Proof.
  intros Hw <- Hm <- Hlt. rewrite (cons_middle p A (n :: R)), app_assoc, abs_app. simpl.
  rewrite Hm, abs_insert_middle, <- app_assoc; [done|].
  apply wf_nodes_app in Hw as (_ & _ & Hlt'). intros x [Hx| ->%list_elem_of_singleton]%elem_of_app; [|lia].
  assert (n_key x < n_key p); [|lia]. apply Hlt'; [done|by left].
Qed.

Lemma abs_unlink A n R : n_mark n = true -> abs (A ++ n :: R) = abs (A ++ R).
Proof. intros Hm. rewrite !abs_app. simpl. by rewrite Hm. Qed.

(** The nodes after a link are above what the link is above. *)
Lemma above_rest m L U A p R k : shape m L U -> head_node ll :: L = A ++ p :: R ->
  above m L U (first_or R 0) k -> forall n, n ∈ R -> k < n_key n.
Proof.
  intros Hs E Hab. destruct R as [|b B]; [by intros ? ?%not_elem_of_nil|].
  assert (head_node ll :: L = (A ++ [p]) ++ b :: B) as E' by (by rewrite <- app_assoc).
  pose proof (chain_holds m L U _ _ _ Hs E') as Hb.
  assert (k < n_key b) as Hk.
  { destruct Hab as [E0|(k' & Hk' & ?)].
    - exfalso. apply (published_nonzero m L U Hs). rewrite <- E0. apply Hb.
    - by rewrite (has_key_fun _ _ _ _ _ _ (holds_key _ _ _ _ _ _ _ _ Hb) Hk'). }
  assert (exists A', L = A' ++ b :: B) as (A' & EL).
  { destruct A as [|x A]; injection E as _ ->; [by exists []|]. exists (A ++ [p]). by rewrite <- app_assoc. }
  pose proof (sh_rep _ _ _ _ _ Hs) as [_ _ _ Hw _]. rewrite EL in Hw.
  apply wf_nodes_app in Hw as (_ & Hw & _). apply wf_nodes_cons in Hw as (_ & _ & Hw).
  intros x [->|?%Hw]%elem_of_cons; lia.
Qed.

(** No key between two adjacent nodes is in the map. *)
Lemma abs_between m L U A n B k : shape m L U -> L = A ++ n :: B -> above m L U (first_or B 0) k ->
  n_key n < k \/ n_key n <= k /\ n_mark n = true -> abs L !! k = None.
Proof.
  intros Hs E Hab Hk. assert (head_node ll :: L = (head_node ll :: A) ++ n :: B) as E' by (by rewrite E).
  pose proof (above_rest m L U _ _ _ k Hs E' Hab) as HB.
  pose proof (sh_rep _ _ _ _ _ Hs) as [_ _ _ Hw _]. rewrite E in Hw. apply wf_nodes_app in Hw as (_ & _ & Hlt).
  assert (forall x, x ∈ A -> n_key x < n_key n) as HA by (intros x Hx; apply Hlt; [done|by left]).
  rewrite E, abs_app, lookup_union_None. split; [apply abs_lookup_None; intros x ?%HA; lia|]. simpl.
  assert (abs B !! k = None) as HBn by (apply abs_lookup_None; intros x ?%HB; lia).
  destruct (n_mark n); [done|]. rewrite lookup_insert_ne; [done|]. destruct Hk as [?|[_ ?]]; [lia|done].
Qed.

Lemma abs_below_first m L U k : shape m L U -> above m L U (first_or L 0) k -> abs L !! k = None.
Proof.
  intros Hs Hab. apply abs_lookup_None. intros x Hx.
  pose proof (above_rest m L U [] (head_node ll) L k Hs eq_refl Hab x Hx). lia.
Qed.

(** An unmarked published node is in the list. *)
Lemma unmarked_chain m L U a k v q : shape m L U -> holds m L U a k v q false ->
  exists A p R, head_node ll :: L = A ++ p :: R /\ n_addr p = a /\ n_mark p = false /\
    q = first_or R 0 /\ n_val p = v /\ n_key p = k /\
    (a = ll_head ll -> A = [] /\ R = L) /\ (a <> ll_head ll -> exists A', L = A' ++ p :: R).
Proof.
  intros Hs Hh. destruct (chain_nodup m L U Hs) as (_ & _ & _ & Hhd & _).
  destruct (holds_place m L U a k v q false Hs Hh) as [-> _ ->|A B -> ->|]; [| |done].
  - pose proof (chain_holds m L U [] (head_node ll) L Hs eq_refl) as Hh'.
    destruct (holds_fun _ _ _ _ _ _ _ _ _ _ _ _ Hh Hh') as (? & ? & _ & _). simpl in *.
    exists [], (head_node ll), L. simpl. by split_and!.
  - exists (head_node ll :: A), (LNode a k v false), B. simpl. split_and!; try done.
    + intros ->. exfalso. apply Hhd. rewrite fmap_app. apply elem_of_app. right. by left.
    + intros _. by exists A.
Qed.
End shape.
