(* ===== verification/ListGhost.v ===== *)
(** The invariant of the lock-free list of [map/list.c] under interleaving: what
    the log of [Linearize.v] and the memory of [ListShape.v] have to do with each
    other, and the steps of the proof state that keep it. *)
From S2P Require Import Prelude Random Machine Datatype MapSpec LinkedList Linearize ListShape.

(** * The object *)

Inductive lop := LLookup (k : Z) | LCas (k e v : Z) | LRemove (k : Z).

Definition okey (o : lop) : Z :=
  match o with LLookup k => k | LCas k _ _ => k | LRemove k => k end.

Definition lspec (M : gmap Z Z) (o : lop) : Z * gmap Z Z :=
  match o with
  | LLookup k => (lookup_spec M k, M)
  | LCas k e v => loose_cas_spec M k e v
  | LRemove k => remove_spec M k
  end.

Definition lcode (ll : list_t) (fuel : nat) (o : lop) : prog Z :=
  match o with
  | LLookup k => ll_lookup fuel ll k
  | LCas k e v => ll_cas fuel ll k e v
  | LRemove k => ll_remove fuel ll k
  end.

(** The calls a client may make: keys that can be compared, and values that the
    code accepts. *)
Definition lcall_ok (base : Z) (o : lop) : Prop :=
  key_window base (okey o) /\ match o with LCas _ _ v => 0 < v < 2 ^ 63 | _ => True end.

Lemma take_elem {A} k (l : list A) x : x ∈ take k l -> x ∈ l.
Proof. intros Hx. eapply elem_of_sublist; [exact Hx|apply sublist_take]. Qed.

(** * The proof state

    The nodes in the list; the unlinked nodes that a running call may still visit,
    the last one unlinked first; the number of nodes unlinked before those, and the addresses of
    the ones among them that are not freed; the call that marked each marked node; for
    each call the number of nodes that were unlinked before it began; the node a call
    has allocated and not yet published; and the call that has to retire each unlinked
    node that is not retired. *)
Record ghost := Ghost {
  gL : list lnode;
  gU : list (lnode * Z);
  gcount : nat;
  ggarbage : list Z;
  gdead : gmap Z nat;
  ggone : gmap nat nat;
  gpriv : gmap nat Z;
  gduty : gmap Z nat;
}.

Abbreviation lworld := (world lop ghost).

Definition lL (w : lworld) := gL (wext w).
Definition lU (w : lworld) := gU (wext w).
Definition nodes (w : lworld) : list lnode := lL w ++ (lU w).*1.
Definition dead (w : lworld) := gdead (wext w).
Definition gone (w : lworld) := ggone (wext w).
Definition garbage (w : lworld) := ggarbage (wext w).
Definition priv (w : lworld) := gpriv (wext w).
Definition duty (w : lworld) := gduty (wext w).

(** How many nodes have been unlinked so far. *)
Definition total (w : lworld) : nat := gcount (wext w) + length (lU w).

Section ghost.
Context `{Allocator} (base : Z) (ll : list_t) (s0 : gmap Z Z) (n0 : nat).
Implicit Types (w : lworld) (c d : nat) (o : lop) (a k v : Z) (n : lnode).

Abbreviation state := (lstate lspec s0).
Abbreviation pub w := (published ll (lL w) (lU w)).
Abbreviation wshape w := (shape base ll (wmem w) (lL w) (lU w)).

(** Since the call [d] began its key was absent at some point. *)
Definition can w d : Prop :=
  exists o E1 E2, wlog w = E1 ++ E2 /\ Start d o ∈ E1 /\ state E1 !! okey o = None.

(** The removal [d] marked the node [n]: it took effect when it did, and until it
    has taken the node's value that is the value it removes. *)
Definition dead_ok w d n : Prop :=
  exists E1 E2, wlog w = E1 ++ Lin d (LRemove (n_key n)) :: E2 /\
    (n_val n <> 0 -> wres w !! d = None /\ state E1 !! n_key n = Some (n_val n)) /\
    (n_val n = 0 -> is_Some (wres w !! d)).

Record marks w : Prop := {
  mk_mark n : n ∈ nodes w -> n_mark n = true -> exists d, dead w !! n_addr n = Some d /\ dead_ok w d n;
  mk_dom a d : dead w !! a = Some d -> exists n, n ∈ nodes w /\ n_addr n = a /\ n_mark n = true;
  mk_inj a a' d : dead w !! a = Some d -> dead w !! a' = Some d -> a = a';
}.

(** The node [a] is in the list, or has been unlinked since the call [c] began. *)
Definition since w c a : Prop :=
  exists g, gone w !! c = Some g /\ a ∈ published ll (lL w) (take (total w - g) (lU w)).

(** While an unlinked node was in the list, marked, no key from its own up to that
    of its successor was in the map. *)
Record hindsight w : Prop := {
  hi_absent d o g u : Start d o ∈ wlog w -> gone w !! d = Some g -> u ∈ take (total w - g) (lU w) ->
    n_key u.1 <= okey o -> above ll (wmem w) (lL w) (lU w) u.2 (okey o) -> can w d;
  hi_gone d g : gone w !! d = Some g -> (g <= total w)%nat;
  hi_start d g : gone w !! d = Some g -> exists o, Start d o ∈ wlog w;
}.

Record private w : Prop := {
  pr_block d a : priv w !! d = Some a ->
    a ∉ pub w /\ a ∉ garbage w /\ node_ptr a /\ exists x y z, heap (wmem w) !! a = Some [x; y; z];
  pr_inj d d' a : priv w !! d = Some a -> priv w !! d' = Some a -> d = d';
}.

(** [a] is the [j]-th block retired, and is not freed. *)
Definition pends w (j : nat) a : Prop :=
  (n0 <= j)%nat /\ retired_at (wmem w) j = Some a /\ j ∉ wfreed w.

(** A retired block is an unlinked node, retired once; one that was retired when a
    call began was unlinked then. *)
Record retired w : Prop := {
  rt_block j a : pends w j a -> a ∈ (n_addr <$> (lU w).*1) ++ garbage w /\ duty w !! a = None;
  rt_inj i j a : pends w i a -> pends w j a -> i = j;
  rt_born c b g j a : wborn w !! c = Some b -> gone w !! c = Some g -> (j < b)%nat -> pends w j a ->
    a ∉ n_addr <$> (take (total w - g) (lU w)).*1;
  rt_bound c b : wborn w !! c = Some b -> (b <= length (deferred (wmem w)))%nat;
  rt_duty a d : duty w !! a = Some d -> a ∈ (n_addr <$> (lU w).*1) ++ garbage w;
  rt_nodup : NoDup (garbage w);
  rt_garbage a : a ∈ garbage w -> a ∉ pub w /\ node_ptr a /\ is_Some (heap (wmem w) !! a);
}.

Record linv w : Prop := {
  li_shape : wshape w;
  li_abs : abs (lL w) = state (wlog w);
  li_marks : marks w;
  li_hind : hindsight w;
  li_priv : private w;
  li_retired : retired w;
}.

(** What a step of a call does not take back. *)
Record smooth w w' : Prop := {
  sm_grows : grows ll (wmem w) (lL w) (lU w) (wmem w') (lL w') (lU w');
  sm_since c a : since w c a -> since w' c a;
  sm_can d : can w d -> can w' d;
  sm_dead a : dead w' !! a = dead w !! a \/
    dead w !! a = None /\ exists d k, dead w' !! a = Some d /\
      forall e, e ∈ wlog w -> before e (Lin d (LRemove k)) (wlog w');
  sm_gone : gone w ⊆ gone w';
  sm_log : sublist (wlog w) (wlog w');
}.

(** What no step takes back, as far as the call [c] can see. *)
Record mono c w w' : Prop := {
  mo_node a k v q b : since w c a -> holds ll (wmem w) (lL w) (lU w) a k v q b ->
    exists v' q' b', holds ll (wmem w') (lL w') (lU w') a k v' q' b' /\ (b = true -> b' = true /\ q' = q);
  mo_since a : since w c a -> since w' c a;
  mo_can : can w c -> can w' c;
  mo_dead a : since w c a -> dead w' !! a = dead w !! a \/
    dead w !! a = None /\ exists d k, dead w' !! a = Some d /\
      forall e, e ∈ wlog w -> before e (Lin d (LRemove k)) (wlog w');
  mo_gone g : gone w !! c = Some g -> gone w' !! c = Some g;
  mo_log : sublist (wlog w) (wlog w');
}.

(** What belongs to one call. *)
Record own c w w' : Prop := {
  ow_priv : priv w' !! c = priv w !! c;
  ow_block a : priv w !! c = Some a -> heap (wmem w') !! a = heap (wmem w) !! a;
  ow_duty a : duty w !! a = Some c -> duty w' !! a = Some c;
}.

Definition lrely c w w' : Prop := mono c w w' /\ own c w w'.

Lemma smooth_mono c w w' : smooth w w' -> mono c w w'.
Proof.
  intros [Hg Hs Hc Hd Hgo Hl]. split; [intros a k v q b _; apply Hg|auto|auto|auto| |done].
  intros g ?. by eapply lookup_weaken.
Qed.

Lemma mono_refl c w : mono c w w.
Proof. split; auto. intros a k v q b _ ?. by exists v, q, b. Qed.

Lemma mono_trans c w1 w2 w3 : mono c w1 w2 -> mono c w2 w3 -> mono c w1 w3.
Proof.
  intros [Hn Hs ? Hd ? ?] [Hn' Hs' ? Hd' ? ?]. split; [|auto|auto| |auto|by etrans].
  - intros a k v q b Ha (v' & q' & b' & Hh & Hb)%Hn; [|done].
    apply Hn' in Hh as (v2 & q2 & b2 & Hh & Hb'); [|by apply Hs]. exists v2, q2, b2.
    split; [done|]. intros [-> ->]%Hb. by apply Hb'.
  - intros a Ha. destruct (Hd a Ha) as [<-|(Hz & d & k & E & Hb)];
      [destruct (Hd' a (Hs a Ha)) as [?|(? & d & k & ? & Hb)]; [by left|]|].
    + right. split; [done|]. exists d, k. split; [done|]. intros e He. apply Hb. by eapply elem_of_sublist.
    + right. split; [done|]. exists d, k. destruct (Hd' a (Hs a Ha)) as [E'|[E' _]]; [|congruence].
      split; [congruence|]. intros e He. eapply before_sublist; [by apply Hb|done].
Qed.

Lemma lrely_refl c w : lrely c w w.
Proof. split; [apply mono_refl|]. by split. Qed.

Lemma lrely_trans c w1 w2 w3 : lrely c w1 w2 -> lrely c w2 w3 -> lrely c w1 w3.
Proof.
  intros [? [E B1 D1]] [? [E' B2 D2]]. split; [by eapply mono_trans|]. split; [congruence| |auto].
  intros a Ha. rewrite B2 by congruence. by apply B1.
Qed.

Abbreviation lInv := (Inv lspec s0 linv).
Abbreviation lstep c := (step lspec s0 linv lrely c).

(** ** Consequences of an insertion in the log *)

Lemma can_insert w w' c o E1 E2 d :
  insertable lspec s0 w c o E1 E2 -> wlog w' = E1 ++ Lin c o :: E2 -> can w d -> can w' d.
Proof.
  intros Hi El (od & X1 & X2 & E & Hs & Hk).
  destruct (insert_position _ _ _ _ _ _ _ _ _ Hi E) as (X1' & X2' & E' & Hsub & Hst).
  exists od, X1', X2'. rewrite El, Hst. auto.
Qed.

Lemma dead_ok_insert w w' c o E1 E2 d n :
  insertable lspec s0 w c o E1 E2 -> wlog w' = E1 ++ Lin c o :: E2 ->
  wres w' !! d = wres w !! d ->
  (forall F, E2 = Lin d (LRemove (n_key n)) :: F -> (lspec (state E1) o).2 = state E1) ->
  dead_ok w d n -> dead_ok w' d n.
Proof.
  intros Hi El Hr Hn (X1 & X2 & E & Hv & Hz).
  destruct (insert_split _ _ _ _ _ _ _ _ _ _ Hi E) as (X1' & X2' & E' & _ & Hst).
  assert (state X1' = state X1) as Hs.
  { destruct Hst as [?|(-> & EX & ->)]; [done|]. rewrite lstate_snoc. simpl. by apply (Hn X2). }
  exists X1', X2'. rewrite El, Hr, Hs. auto.
Qed.

(** ** Replacing a node *)

Lemma nodes_addr w : wshape w -> NoDup (n_addr <$> nodes w).
Proof. intros Hs. pose proof (sh_nodup _ _ _ _ _ Hs) as Hn. by apply NoDup_cons in Hn as [_ ?]. Qed.

Lemma marks_replace w w' X n n' Y :
  wshape w -> marks w -> nodes w = X ++ n :: Y -> nodes w' = X ++ n' :: Y -> n_addr n' = n_addr n ->
  (forall a, a <> n_addr n -> dead w' !! a = dead w !! a) ->
  (forall d n1, dead w !! n_addr n1 = Some d -> n_addr n1 <> n_addr n -> dead_ok w d n1 -> dead_ok w' d n1) ->
  (n_mark n' = true -> exists d, dead w' !! n_addr n = Some d /\ dead_ok w' d n' /\
     forall a, a <> n_addr n -> dead w !! a <> Some d) ->
  (n_mark n' = false -> dead w' !! n_addr n = None) -> marks w'.
Proof.
  intros Hs [Hm Hd Hj] E E' Ea Hdd Hok Hnew Hold.
  pose proof (nodes_addr w Hs) as Hnd. rewrite E, fmap_app in Hnd. simpl in Hnd.
  rewrite <- Permutation_middle in Hnd. apply NoDup_cons in Hnd as [Hn _].
  assert (forall n1, n1 ∈ nodes w' -> n1 = n' \/ n1 ∈ nodes w /\ n_addr n1 <> n_addr n) as Hc.
  { intros n1. rewrite E, E'. assert (n1 ∈ X ++ Y -> n_addr n1 <> n_addr n) as Hxy.
    { intros Hin Eq. apply Hn. rewrite <- fmap_app, <- Eq. by apply list_elem_of_fmap_2. }
    rewrite !elem_of_app, !elem_of_cons in *. intros [?|[?|?]]; auto. }
  assert (forall n1, n1 ∈ nodes w -> n_addr n1 <> n_addr n -> n1 ∈ nodes w') as Hc'.
  { intros n1. rewrite E, E', !elem_of_app, !elem_of_cons. intros [?|[->|?]]; tauto. }
  split.
  - intros n1 [->|[Hin Hne]]%Hc Hmk.
    + rewrite Ea. destruct (Hnew Hmk) as (d & ? & ? & _). by exists d.
    + destruct (Hm n1 Hin Hmk) as (d & Hdn & Hokd). exists d. rewrite Hdd by done. auto.
  - intros a d Ha. destruct (decide (a = n_addr n)) as [->|Hne].
    + destruct (n_mark n') eqn:Hmk; [|by rewrite Hold in Ha].
      exists n'. rewrite E', elem_of_app. split; [right; by left|done].
    + rewrite Hdd in Ha by done. destruct (Hd _ _ Ha) as (n1 & ? & <- & ?). exists n1. auto.
  - intros a a' d Ha Ha'.
    assert (forall b, dead w' !! n_addr n = Some d -> b <> n_addr n -> dead w !! b <> Some d) as Hx.
    { intros b Hb Hne. destruct (n_mark n') eqn:Hmk; [|by rewrite Hold in Hb].
      destruct (Hnew eq_refl) as (d' & Hd' & _ & Hno). assert (d' = d) as -> by congruence. by apply Hno. }
    destruct (decide (a = n_addr n)) as [->|Hne], (decide (a' = n_addr n)) as [->|Hne']; [done|..].
    + rewrite Hdd in Ha' by done. by destruct (Hx a').
    + rewrite Hdd in Ha by done. by destruct (Hx a).
    + rewrite Hdd in Ha by done. rewrite Hdd in Ha' by done. by eapply Hj.
Qed.

(** The parts of the invariant that do not mind a write to a published node. *)
Lemma hindsight_keep w w' :
  wshape w -> smooth w w' -> (forall d o, Start d o ∈ wlog w' <-> Start d o ∈ wlog w) ->
  gone w' = gone w -> total w' = total w ->
  (forall i u, u ∈ take i (lU w') -> exists u0, u0 ∈ take i (lU w) /\ n_key u.1 = n_key u0.1 /\ u.2 = u0.2) ->
  hindsight w -> hindsight w'.
Proof.
  intros Hs Hm Hst Eg Et Hu [Ha Hg Hgs]. split.
  - intros d o g u Hd Hgd Hin Hk Hab. rewrite Eg in Hgd. rewrite Et in Hin. apply Hst in Hd.
    destruct (Hu _ u Hin) as (u0 & Hin0 & E2 & E3). rewrite E2 in Hk. rewrite E3 in Hab.
    apply (sm_can _ _ Hm). eapply (Ha d o g u0); [done..|]. eapply (above_back base); [done|apply Hm| |done].
    apply take_elem in Hin0.
    destruct (sh_order _ _ _ _ _ Hs u0 Hin0) as [?|Hor]; [by left|right]. apply published_cases.
    destruct Hor as [?|?%before_l]; auto.
  - intros d g. rewrite Eg, Et. apply Hg.
  - intros d g. rewrite Eg. intros [o ?]%Hgs. exists o. by apply Hst.
Qed.

Lemma private_keep w w' :
  priv w' ⊆ priv w -> garbage w' = garbage w ->
  (forall a, a ∈ pub w' -> a ∉ pub w -> forall d, priv w' !! d <> Some a) ->
  (forall d a, priv w' !! d = Some a -> heap (wmem w') !! a = heap (wmem w) !! a) ->
  private w -> private w'.
Proof.
  intros Hsub Eg Hp Hh [Hb Hj]. split.
  - intros d a Hd. destruct (Hb d a) as (Hn & Hng & Hptr & Hl); [by eapply lookup_weaken|].
    split; [|split; [by rewrite Eg|split; [done|by rewrite (Hh d)]]]. intros Hin. by apply (Hp a Hin Hn d).
  - intros d d' a Hd Hd'. eapply Hj; by eapply lookup_weaken.
Qed.

Lemma retired_keep w w' :
  deferred (wmem w') = deferred (wmem w) -> wborn w' = wborn w -> wfreed w' = wfreed w -> gone w' = gone w ->
  total w' = total w -> (forall i, n_addr <$> (take i (lU w')).*1 = n_addr <$> (take i (lU w)).*1) ->
  duty w' = duty w -> garbage w' = garbage w ->
  (forall a, a ∈ garbage w -> a ∉ pub w -> a ∉ pub w' /\ heap (wmem w') !! a = heap (wmem w) !! a) ->
  retired w -> retired w'.
Proof.
  intros Ed Eb Ef Ego Et Ek Edu Eg Hg [H1 H2 H3 H4 H5 H6 H7].
  assert (forall j a, pends w' j a <-> pends w j a) as Hp by (intros; unfold pends, retired_at; by rewrite Ed, Ef).
  assert (n_addr <$> (lU w').*1 = n_addr <$> (lU w).*1) as EU.
  { pose proof (Ek (length (lU w') + length (lU w))%nat) as E. by rewrite !take_ge in E by lia. }
  split.
  - intros j a Hj%Hp. rewrite EU, Eg, Edu. by apply (H1 j).
  - intros i j a Hi%Hp Hj%Hp. by apply (H2 i j a).
  - intros c b g j a. rewrite Eb, Ego, Et, Ek. intros Hb Hgo Hlt Hj%Hp. by apply (H3 c b g j a).
  - intros c b. rewrite Eb, Ed. apply H4.
  - intros a d. rewrite Edu, EU, Eg. apply H5.
  - by rewrite Eg.
  - intros a. rewrite Eg. intros Ha. destruct (H7 a Ha) as (Hn & ? & ?). destruct (Hg a Ha Hn) as [? ->]. done.
Qed.

(** ** Steps *)

Lemma lstep_intro c w w' :
  smooth w w' -> wborn w' = wborn w -> wfreed w' = wfreed w ->
  (forall d, d <> c -> wres w' !! d = wres w !! d /\
     (forall o, Lin d o ∈ wlog w' -> Lin d o ∈ wlog w) /\ own d w w') ->
  (forall d o, Start d o ∈ wlog w' -> Start d o ∈ wlog w) ->
  log_ok lspec s0 w' -> linv w' -> lstep c w (wmem w') w'.
Proof.
  intros Hm Eb Ef Ho Hst Hl Hi. split; [done|by split| |done|done].
  intros d (Hr & Hn & ?)%Ho. split; [apply Hm|done..|]. split; [by apply smooth_mono|done].
Qed.

Lemma since_same w w' c a :
  gone w' = gone w -> total w' = total w ->
  (forall i, published ll (lL w') (take i (lU w')) = published ll (lL w) (take i (lU w))) ->
  since w c a -> since w' c a.
Proof. intros Eg Et Ep (g & Hg & Ha). exists g. rewrite Eg, Et, Ep. done. Qed.

(** The call [c] has begun with [o] and has not taken effect. *)
Definition pending c o w : Prop := Start c o ∈ wlog w /\ forall o', Lin c o' ∉ wlog w.

#[export] Instance stable_pending c o : Stable lspec s0 linv lrely c (pending c o).
Proof. apply _. Qed.

Lemma dead_lin w a d : marks w -> dead w !! a = Some d -> exists k, Lin d (LRemove k) ∈ wlog w.
Proof.
  intros [Hm Hd Hj] Ha. destruct (Hd _ _ Ha) as (n & Hn & <- & Hmk).
  destruct (Hm _ Hn Hmk) as (d' & Hd' & (E1 & E2 & E & _)). assert (d' = d) as -> by congruence.
  exists (n_key n). rewrite E. apply elem_of_app. right. by left.
Qed.

Lemma insert_new_lin w c o E1 E2 d o' : insertable lspec s0 w c o E1 E2 -> d <> c ->
  Lin d o' ∈ E1 ++ Lin c o :: E2 -> Lin d o' ∈ wlog w.
Proof. intros Hi Hne [[= ? ?]|?]%(insert_elem _ _ _ _ _ _ _ _ Hi); done. Qed.

Lemma insert_same_start w c o E1 E2 d o' : insertable lspec s0 w c o E1 E2 ->
  Start d o' ∈ E1 ++ Lin c o :: E2 <-> Start d o' ∈ wlog w.
Proof.
  intros Hi. rewrite (insert_elem _ _ _ _ _ _ _ _ Hi). split; [by intros [?|?]|by right].
Qed.

Lemma marks_same w w' :
  nodes w' = nodes w -> dead w' = dead w ->
  (forall d n, dead w !! n_addr n = Some d -> dead_ok w d n -> dead_ok w' d n) -> marks w -> marks w'.
Proof.
  intros En Ed Hok [Hm Hd Hj]. split; rewrite ?Ed, ?En; try done.
  intros n Hn Hmk. destruct (Hm n Hn Hmk) as (d & ? & ?). exists d. auto.
Qed.

(** The call [c] takes effect without changing the map, at a point of the past
    that came after it began. *)
Lemma step_silent c o r w E1 E2 :
  lInv w -> pending c o w -> wlog w = E1 ++ E2 -> Start c o ∈ E1 -> lspec (state E1) o = (r, state E1) ->
  exists w', lstep c w (wmem w) w' /\ wres w' !! c = Some r /\ smooth w w'.
Proof.
  intros [Hl Hi] [Hst Hn] E Hs He.
  assert (insertable lspec s0 w c o E1 E2) as Hin by (apply insertable_silent; [done..|by rewrite He]).
  set (w' := World (wmem w) (E1 ++ Lin c o :: E2) (<[c := r]> (wres w)) (wborn w) (wfreed w) (wext w)). exists w'.
  assert (forall d, can w d -> can w' d) as Hcan by (intros d; by apply (can_insert w w' c o E1 E2)).
  assert (smooth w w') as Hm by (split; auto using grows_refl; by eapply insert_sublist).
  split; [|split; [apply lookup_insert_eq|done]].
  change (wmem w) with (wmem w'). apply lstep_intro; [done..| | | |].
  - intros d Hd. split; [by apply lookup_insert_ne|]. split; [|by split].
    intros o'. by apply (insert_new_lin w c o E1 E2).
  - intros d o'. by apply (insert_same_start w c o E1 E2).
  - apply (insert_log_ok lspec s0 w c o E1 E2 (wmem w) r _ _ (wext w) true); [done..|by rewrite He].
  - destruct Hi as [Hsh Hab Hmk Hh Hp Hr]. split; [done| | | |by destruct Hp; split|by destruct Hr; split].
    + change (lL w') with (lL w). rewrite Hab, E. unfold w'. simpl. rewrite !lstate_app. simpl. by rewrite He.
    + apply (marks_same w); [done..| |done]. intros d n Hd.
      apply (dead_ok_insert _ _ c o E1 E2); [done..| |by rewrite He].
      unfold w'. simpl. apply lookup_insert_ne. intros <-.
      destruct (dead_lin _ _ _ Hmk Hd) as [k ?]. by apply (Hn (LRemove k)).
    + apply (hindsight_keep w); [done..| |done|done| |done].
      * intros d o'. by apply (insert_same_start w c o E1 E2).
      * intros i u Hu. by exists u.
Qed.

(** *** Writing a published node *)

(** The proof state after the value and the mark of the node [a] are written, with
    the log [E], the results [rs] and the markers [ds]. *)
Definition written w a k v' b' q E rs ds : lworld :=
  World (Mem (<[a := [k; v'; link q b']]> (heap (wmem w))) (deferred (wmem w)) (rand (wmem w))) E rs (wborn w) (wfreed w)
    (Ghost (repl (LNode a k v' b') <$> lL w) (repl_gone (LNode a k v' b') (lU w)) (gcount (wext w)) (garbage w)
      ds (gone w) (priv w) (duty w)).

Record write_ok c w a k v q b v' b' E rs ds : Prop := {
  wr_node : holds ll (wmem w) (lL w) (lU w) a k v q b;
  wr_head : a <> ll_head ll;
  wr_val : b' = false -> 0 < v' < 2 ^ 63;
  wr_mark : b = true -> b' = true;
  wr_log : sublist (wlog w) E;
  wr_res d : d <> c -> rs !! d = wres w !! d;
  wr_lin d o : d <> c -> Lin d o ∈ E -> Lin d o ∈ wlog w;
  wr_start d o : Start d o ∈ E <-> Start d o ∈ wlog w;
  wr_can d : can w d -> can (written w a k v' b' q E rs ds) d;
  wr_fresh : ds !! a = dead w !! a \/
    dead w !! a = None /\ exists d k, ds !! a = Some d /\
      forall e, e ∈ wlog w -> before e (Lin d (LRemove k)) E;
  wr_dead a' : a' <> a -> ds !! a' = dead w !! a';
  wr_old d n : dead w !! n_addr n = Some d -> n_addr n <> a -> dead_ok w d n ->
    dead_ok (written w a k v' b' q E rs ds) d n;
  wr_new : b' = true -> exists d, ds !! a = Some d /\
    dead_ok (written w a k v' b' q E rs ds) d (LNode a k v' b') /\ forall a', a' <> a -> dead w !! a' <> Some d;
  wr_live : b' = false -> ds !! a = None;
  wr_abs : abs (repl (LNode a k v' b') <$> lL w) = state E;
}.

Lemma step_write c w a k v q b v' b' E rs ds :
  lInv w -> write_ok c w a k v q b v' b' E rs ds -> log_ok lspec s0 (written w a k v' b' q E rs ds) ->
  let w' := written w a k v' b' q E rs ds in lstep c w (wmem w') w' /\ smooth w w'.
Proof.
  intros [Hl Hi] [Hh Hne Hv Hb Hlog Hrs Hlin Hstart Hcan Hfr Hdd Hold Hnew Hlive Habs] Hl' w'.
  pose proof Hi as [Hsh _ Hmk Hhi Hp Hr].
  destruct (shape_repl base ll (wmem w) (lL w) (lU w) a k v q b v' b' (deferred (wmem w)) Hsh Hh Hne Hv Hb)
    as (Hsh' & Hg & _ & X & Y & EX & EX').
  assert (forall i, take i (lU w') = repl_gone (LNode a k v' b') (take i (lU w))) as Etk.
  { intros i. change (lU w') with (repl_gone (LNode a k v' b') (lU w)). unfold repl_gone. by rewrite fmap_take. }
  assert (total w' = total w) as Et by (unfold total, w', lU; simpl; unfold repl_gone; by rewrite length_fmap).
  assert (smooth w w') as Hm.
  { split; [done| |done| |done|done].
    - intros d a'. apply since_same; [done|done|]. intros i. rewrite Etk. apply repl_published.
    - intros a'. destruct (decide (a' = a)) as [->|Hne']; [exact Hfr|]. left. by apply Hdd. }
  assert (pub w' = pub w) as Epub by apply repl_published.
  assert (forall d a', priv w !! d = Some a' -> heap (wmem w') !! a' = heap (wmem w) !! a') as Hpb.
  { intros d a' Hd. simpl. apply lookup_insert_ne. intros <-. apply (pr_block _ Hp) in Hd as [Hd _].
    apply Hd. apply Hh. }
  split; [|done]. apply lstep_intro; [done..| | |done|].
  - intros d Hd. split; [by apply Hrs|]. split; [intros o; by apply Hlin|]. split; [done|by apply Hpb|done].
  - intros d o. apply Hstart.
  - split; [done|done| | | |].
    + eapply (marks_replace w w' X _ _ Y); [done|done|exact EX|exact EX'|done|exact Hdd|exact Hold| |exact Hlive].
      exact Hnew.
    + eapply (hindsight_keep w); [done..| |done].
      intros i u. rewrite Etk. intros (u0 & -> & Hu0)%list_elem_of_fmap. exists u0. split; [done|].
      simpl. unfold repl. case_decide as Ea; [|done]. simpl in *. split; [|done].
      pose proof (in_gone_holds base ll (wmem w) (lL w) (lU w) u0.1 u0.2 Hsh) as Hu.
      rewrite <- surjective_pairing, Ea in Hu.
      by destruct (holds_fun _ _ _ _ _ _ _ _ _ _ _ _ _ Hh (Hu (take_elem _ _ _ Hu0))).
    + apply (private_keep w); [done|done| |done|done]. intros a' Hin Hn. by rewrite Epub in Hin.
    + apply (retired_keep w); [done..| | | | |done]; [|done|done|].
      * intros i. by rewrite Etk, repl_gone_nodes, repl_addr.
      * intros a' Hg' Hn. rewrite Epub. split; [done|]. simpl. apply lookup_insert_ne. intros <-. apply Hn, Hh.
Qed.

(** An unmarked node of the list. *)
Lemma live_facts w a k v q :
  lInv w -> holds ll (wmem w) (lL w) (lU w) a k v q false -> a <> ll_head ll ->
  0 < v < 2 ^ 63 /\ state (wlog w) !! k = Some v /\ dead w !! a = None /\
  forall v' b', abs (repl (LNode a k v' b') <$> lL w) =
    if b' then delete k (state (wlog w)) else <[k := v']> (state (wlog w)).
Proof.
  intros [_ [Hsh Hab Hmk _ _ _]] Hh Hne.
  destruct (unmarked_chain base ll _ _ _ _ _ _ _ Hsh Hh) as (A & p & R & _ & Ea & Emk & _ & <- & <- & _ & HA).
  destruct (HA Hne) as [A' EL]. rewrite <- Hab. pose proof (sh_rep _ _ _ _ _ Hsh) as [_ _ _ Hw _]. rewrite EL in Hw.
  split; [|split; [rewrite EL; by apply (abs_live base)|split]].
  - apply wf_nodes_app in Hw as (_ & [_ _ _ Hv] & _). apply Forall_cons in Hv as [Hv _]. auto.
  - destruct (dead w !! a) as [d|] eqn:Ed; [|done]. destruct (mk_dom _ Hmk _ _ Ed) as (n & Hn & En & Hmn).
    exfalso. assert (Hp : p ∈ nodes w) by (unfold nodes; rewrite EL; set_solver).
    assert (n = p); [|congruence]. apply list_elem_of_lookup in Hn as [i Hi], Hp as [j Hj].
    assert (i = j) as <-; [|congruence]. eapply (NoDup_lookup (n_addr <$> nodes w)); [by apply nodes_addr|..];
      rewrite list_lookup_fmap; [by rewrite Hi|rewrite Hj; simpl; congruence].
  - intros v' b'. rewrite EL, (repl_app (LNode a _ _ _)); [|rewrite <- EL; by eapply chain_nodup|done].
    by rewrite (abs_set base _ p).
Qed.

(** A marked node: its remover took effect, and holds the value until it has
    taken it. *)
Lemma dead_facts w a k v q :
  lInv w -> holds ll (wmem w) (lL w) (lU w) a k v q true ->
  a <> ll_head ll /\ exists d, dead w !! a = Some d /\ dead_ok w d (LNode a k v true).
Proof.
  intros [_ [Hsh _ [Hmk _ _] _ _ _]] Hh. assert (a <> ll_head ll) as Hne.
  { intros ->. pose proof (chain_holds base ll (wmem w) (lL w) (lU w) [] (head_node ll) (lL w) Hsh eq_refl) as Hh'.
    destruct (holds_fun _ _ _ _ _ _ _ _ _ _ _ _ _ Hh Hh') as (_ & _ & _ & ?). done. }
  split; [done|]. apply (Hmk (LNode a k v true)); [|done]. by eapply in_nodes.
Qed.

Lemma abs_repl_dead w a k v q v' :
  wshape w -> holds ll (wmem w) (lL w) (lU w) a k v q true -> abs (repl (LNode a k v' true) <$> lL w) = abs (lL w).
Proof.
  intros Hsh Hh. destruct (chain_nodup base ll _ _ _ Hsh) as (Hnd & _ & Hd & _).
  destruct (holds_place base ll _ _ _ _ _ _ _ _ Hsh Hh) as [|A B E _|U1 U2 E _]; [done|..].
  - rewrite E in Hnd |- *. rewrite repl_app by done. by rewrite !abs_unlink.
  - rewrite repl_other; [done|]. intros Hin%Hd. apply Hin. rewrite E, !fmap_app. set_solver.
Qed.

(** A call that has not taken effect marked no node. *)
Lemma pending_not_dead w c o a d : marks w -> pending c o w -> dead w !! a = Some d -> d <> c.
Proof.
  intros Hmk [_ Hn] Hd ->. destruct (dead_lin _ _ _ Hmk Hd) as [k' ?]. by apply (Hn (LRemove k')).
Qed.

(** [ll_remove] marks the node: the removal takes effect, its result is to come. *)
Lemma step_mark c k w a v q :
  lInv w -> pending c (LRemove k) w -> wres w !! c = None ->
  holds ll (wmem w) (lL w) (lU w) a k v q false -> a <> ll_head ll ->
  exists w', lstep c w (Mem (<[a := [k; v; link q true]]> (heap (wmem w))) (deferred (wmem w)) (rand (wmem w))) w' /\
    smooth w w' /\ wres w' !! c = None /\ dead w' !! a = Some c.
Proof.
  intros HI Hp Hres Hh Hne. pose proof HI as [Hl [Hsh Hab Hmk _ _ _]]. destruct (Hp) as [Hst Hn].
  pose proof (insertable_end lspec s0 w c (LRemove k) Hst Hn) as Hin.
  destruct (live_facts w a k v q HI Hh Hne) as (Hv & Hlk & Hna & Habs).
  set (w' := written w a k v true q (wlog w ++ [Lin c (LRemove k)]) (wres w) (<[a := c]> (dead w))).
  destruct (step_write c w a k v q false v true (wlog w ++ [Lin c (LRemove k)]) (wres w) (<[a := c]> (dead w)))
    as [Hst' Hm]; [done| | |].
  - split; try done.
    + by apply sublist_inserts_r.
    + intros d o Hd. by apply (insert_new_lin w c _ _ _ d o Hin).
    + intros d o. by apply (insert_same_start w c _ _ _ d o Hin).
    + intros d. by eapply can_insert.
    + right. split; [done|]. exists c, k. split; [apply lookup_insert_eq|]. intros e0 He0. by apply before_snoc.
    + intros a' Ha'. by apply lookup_insert_ne.
    + intros d n Hd _ . by apply (dead_ok_insert w w' c (LRemove k) (wlog w) []).
    + intros _. exists c. split; [apply lookup_insert_eq|]. split.
      * exists (wlog w), []. split; [done|]. split; [done|simpl; lia].
      * intros a' Ha' Hc. by eapply pending_not_dead.
    + by rewrite lstate_snoc, Habs.
  - by apply (insert_log_ok lspec s0 w c _ _ _ _ 0 _ _ _ false).
  - exists w'. split; [exact Hst'|]. split; [done|]. split; [done|]. apply lookup_insert_eq.
Qed.

(** [ll_cas] replaces the value of a node in the list. *)
Lemma step_update_live c k e v' w a v q :
  lInv w -> pending c (LCas k e v') w -> e <> CAS_EXPECT_DOES_NOT_EXIST -> 0 < v' < 2 ^ 63 ->
  holds ll (wmem w) (lL w) (lU w) a k v q false -> a <> ll_head ll ->
  exists w', lstep c w (Mem (<[a := [k; v'; link q false]]> (heap (wmem w))) (deferred (wmem w)) (rand (wmem w))) w' /\
    smooth w w' /\ wres w' !! c = Some v.
Proof.
  intros HI Hp He Hv' Hh Hne. pose proof HI as [Hl [Hsh Hab Hmk _ _ _]]. destruct (Hp) as [Hst Hn].
  pose proof (insertable_end lspec s0 w c (LCas k e v') Hst Hn) as Hin.
  destruct (live_facts w a k v q HI Hh Hne) as (Hv & Hlk & Hna & Habs).
  assert (lspec (state (wlog w)) (LCas k e v') = (v, <[k := v']> (state (wlog w)))) as Hspec.
  { simpl. unfold loose_cas_spec. rewrite Hlk. by rewrite (proj2 (Z.eqb_neq _ _) He). }
  set (w' := written w a k v' false q (wlog w ++ [Lin c (LCas k e v')]) (<[c := v]> (wres w)) (dead w)).
  destruct (step_write c w a k v q false v' false (wlog w ++ [Lin c (LCas k e v')]) (<[c := v]> (wres w)) (dead w))
    as [Hst' Hm]; [done| | |].
  - split; try done.
    + by apply sublist_inserts_r.
    + intros d Hd. by apply lookup_insert_ne.
    + intros d o Hd. by apply (insert_new_lin w c _ _ _ d o Hin).
    + intros d o. by apply (insert_same_start w c _ _ _ d o Hin).
    + intros d. by eapply can_insert.
    + by left.
    + intros d n Hd _ . apply (dead_ok_insert w w' c (LCas k e v') (wlog w) []); [done..| |done].
      apply lookup_insert_ne. intros <-. by eapply pending_not_dead.
    + by rewrite lstate_snoc, Habs; cbn [Linearize.lstep]; rewrite Hspec.
  - apply (insert_log_ok lspec s0 w c _ _ _ _ v _ _ _ true); [done..|by rewrite Hspec].
  - exists w'. split; [exact Hst'|]. split; [done|]. apply lookup_insert_eq.
Qed.

(** [ll_cas] replaces the value of a node that a removal has marked and not yet emptied:
    the call takes effect just before the removal. *)
Lemma step_update_dead c k e v' w a v q d :
  lInv w -> pending c (LCas k e v') w -> e <> CAS_EXPECT_DOES_NOT_EXIST -> 0 < v' < 2 ^ 63 -> v <> 0 ->
  holds ll (wmem w) (lL w) (lU w) a k v q true -> dead w !! a = Some d ->
  before (Start c (LCas k e v')) (Lin d (LRemove k)) (wlog w) ->
  exists w', lstep c w (Mem (<[a := [k; v'; link q true]]> (heap (wmem w))) (deferred (wmem w)) (rand (wmem w))) w' /\
    smooth w w' /\ wres w' !! c = Some v.
Proof.
  intros HI Hp He Hv' Hv Hh Hd Hbf. pose proof HI as [Hl [Hsh Hab Hmk _ _ _]]. destruct (Hp) as [Hst Hn].
  destruct (dead_facts w a k v q HI Hh) as (Hne & d' & Hd' & (E1 & E2 & El & Hval & _)).
  assert (d' = d) as -> by congruence. destruct (Hval Hv) as [Hrd Hlk]. cbn [n_key n_val] in *.
  assert (Start c (LCas k e v') ∈ E1) as Hs1.
  { pose proof (lo_nodup _ _ _ Hl) as Hnd. rewrite El in Hnd, Hbf. by eapply before_split. }
  assert (lspec (state E1) (LCas k e v') = (v, <[k := v']> (state E1))) as Hspec.
  { simpl. unfold loose_cas_spec. rewrite Hlk. by rewrite (proj2 (Z.eqb_neq _ _) He). }
  assert (insertable lspec s0 w c (LCas k e v') E1 (Lin d (LRemove k) :: E2)) as Hin.
  { apply insertable_hidden; [done..|]. rewrite Hspec. simpl. apply delete_insert_eq. }
  set (E := E1 ++ Lin c (LCas k e v') :: Lin d (LRemove k) :: E2).
  set (w' := written w a k v' true q E (<[c := v]> (wres w)) (dead w)).
  assert (d <> c) as Hdc by (by eapply pending_not_dead).
  destruct (step_write c w a k v q true v' true E (<[c := v]> (wres w)) (dead w)) as [Hst' Hm]; [done| | |].
  - split; try done.
    + by eapply insert_sublist.
    + intros d0 Hd0. by apply lookup_insert_ne.
    + intros d0 o Hd0. by apply (insert_new_lin w c _ _ _ d0 o Hin).
    + intros d0 o. by apply (insert_same_start w c _ _ _ d0 o Hin).
    + intros d0. by eapply can_insert.
    + by left.
    + intros d0 n Hd0 Hna. assert (d0 <> c) by (by eapply pending_not_dead).
      apply (dead_ok_insert w w' c _ _ _ d0 n Hin); [done|by apply lookup_insert_ne|].
      intros F [= <- _ _]. by destruct (Hna (mk_inj _ Hmk _ _ _ Hd0 Hd)).
    + intros _. exists d. split; [done|]. split.
      * exists (E1 ++ [Lin c (LCas k e v')]), E2. split; [unfold w', E; simpl; by rewrite <- app_assoc|].
        split; [intros _|simpl; lia]. split; [unfold w'; simpl; by rewrite lookup_insert_ne|].
        rewrite lstate_snoc. cbn [Linearize.lstep]. rewrite Hspec. simpl. apply lookup_insert_eq.
      * intros a' Ha' Hd0. by destruct (Ha' (mk_inj _ Hmk _ _ _ Hd0 Hd)).
    + rewrite (abs_repl_dead w a k v q) by done. rewrite Hab, El. unfold E. rewrite !lstate_app.
      cbn [foldl Linearize.lstep]. rewrite Hspec. cbn [snd lspec remove_spec]. by rewrite delete_insert_eq.
  - apply (insert_log_ok lspec s0 w c _ _ _ _ v _ _ _ true); [done..|by rewrite Hspec].
  - exists w'. split; [exact Hst'|]. split; [done|]. apply lookup_insert_eq.
Qed.

(** [ll_remove] takes the value of the node it has marked. *)
Lemma step_swap c k w a v q :
  lInv w -> dead w !! a = Some c -> wres w !! c = None -> holds ll (wmem w) (lL w) (lU w) a k v q true ->
  exists w', lstep c w (Mem (<[a := [k; 0; link q true]]> (heap (wmem w))) (deferred (wmem w)) (rand (wmem w))) w' /\
    smooth w w' /\ wres w' !! c = Some v.
Proof.
  intros HI Hd Hres Hh. pose proof HI as [Hl [Hsh Hab Hmk _ _ _]].
  destruct (dead_facts w a k v q HI Hh) as (Hne & d' & Hd' & (E1 & E2 & El & Hval & Hz)).
  assert (d' = c) as -> by congruence. cbn [n_key n_val] in *.
  assert (v <> 0) as Hv by (intros Hv; destruct (Hz Hv); congruence). destruct (Hval Hv) as [_ Hlk].
  set (w' := written w a k 0 true q (wlog w) (<[c := v]> (wres w)) (dead w)).
  destruct (step_write c w a k v q true 0 true (wlog w) (<[c := v]> (wres w)) (dead w)) as [Hst' Hm]; [done| | |].
  - split; try done.
    + intros d Hdc. by apply lookup_insert_ne.
    + by left.
    + intros d n Hdn Hna (X1 & X2 & EX & HX1 & HX2).
      assert (d <> c) by (intros ->; by destruct (Hna (mk_inj _ Hmk _ _ _ Hdn Hd))).
      exists X1, X2. unfold written. simpl. by rewrite lookup_insert_ne.
    + intros _. exists c. split; [done|]. split.
      * exists E1, E2. split; [done|]. split; [done|]. intros _. unfold written. simpl. rewrite lookup_insert_eq. eauto.
      * intros a' Ha' Hd0. by destruct (Ha' (mk_inj _ Hmk _ _ _ Hd0 Hd)).
    + by rewrite (abs_repl_dead w a k v q).
  - destruct Hl as [H1 H2 H3 H4]. split; [done..|]. unfold written. simpl. intros d r. rewrite lookup_insert.
    case_decide as Hdc; [|apply H4]. intros [= <-]. subst d. exists (LRemove k), E1, E2. split; [done|].
    simpl. unfold lookup_spec. by rewrite Hlk.
  - exists w'. split; [exact Hst'|]. split; [done|]. apply lookup_insert_eq.
Qed.

(** *** Memory of the call's own *)

(** The blocks a call may write or free without notice: nobody else's. *)
Definition ours c w a : Prop := a ∉ pub w /\ a ∉ garbage w /\ forall d, d <> c -> priv w !! d <> Some a.

Lemma step_ours c w m' (pr' : gmap nat Z) :
  lInv w -> (forall a, ~ ours c w a -> heap m' !! a = heap (wmem w) !! a) -> deferred m' = deferred (wmem w) ->
  (forall d, d <> c -> pr' !! d = priv w !! d) ->
  (forall a, pr' !! c = Some a -> ours c w a /\ node_ptr a /\ exists x y z, heap m' !! a = Some [x; y; z]) ->
  let w' := World m' (wlog w) (wres w) (wborn w) (wfreed w)
    (Ghost (lL w) (lU w) (gcount (wext w)) (garbage w) (dead w) (gone w) pr' (duty w)) in
  lstep c w m' w' /\ smooth w w'.
Proof.
  intros [Hl [Hsh Hab Hmk Hh Hp Hr]] Hheap Hdf Hpr Hc w'.
  assert (forall a, a ∈ pub w -> heap m' !! a = heap (wmem w) !! a) as Hpub.
  { intros a Ha. apply Hheap. by intros [? _]. }
  assert (forall d a, d <> c -> priv w !! d = Some a -> heap m' !! a = heap (wmem w) !! a) as Hpriv.
  { intros d a Hd Ha. apply Hheap. intros (_ & _ & Ho). by apply (Ho d). }
  destruct (shape_frame base ll (wmem w) m' (lL w) (lU w) Hpub Hsh) as [Hsh' Hg].
  assert (smooth w w') as Hm by (split; auto).
  split; [|done]. apply (lstep_intro c w w'); [done..| |done|by destruct Hl|].
  - intros d Hd. split; [done|]. split; [done|]. split; [by apply Hpr|intros a; by apply (Hpriv d)|done].
  - split; [done|done| | | |].
    + by apply (marks_same w).
    + apply (hindsight_keep w); [done..| |done]. intros i u Hu. by exists u.
    + destruct Hp as [Hb Hj]. split.
      * intros d a Hd. destruct (decide (d = c)) as [->|Hne].
        { destruct (Hc a Hd) as ((? & ? & _) & ? & ?). done. }
        change (priv w') with pr' in Hd. rewrite Hpr in Hd by done. destruct (Hb d a Hd) as (? & ? & ? & ?).
        split; [done|]. split; [done|]. split; [done|].
        change (heap (wmem w')) with (heap m'). by rewrite (Hpriv d a).
      * change (priv w') with pr'. intros d d' a Hd Hd'.
        destruct (decide (d = c)) as [->|Hne], (decide (d' = c)) as [->|Hne']; [done|..].
        -- destruct (Hc a Hd) as ((_ & _ & Ho) & _). rewrite Hpr in Hd' by done. by destruct (Ho d').
        -- destruct (Hc a Hd') as ((_ & _ & Ho) & _). rewrite Hpr in Hd by done. by destruct (Ho d).
        -- rewrite Hpr in Hd by done. rewrite Hpr in Hd' by done. by eapply Hj.
    + apply (retired_keep w); [done..| |done]. intros a Ha Hn. split; [done|]. apply Hheap. by intros (_ & ? & _).
Qed.

Lemma ours_fresh c w a : lInv w -> heap (wmem w) !! a = None -> ours c w a.
Proof.
  intros [_ [Hsh _ _ _ [Hb _] Hr]] Ha. split; [|split].
  - intros Hin. destruct (published_holds base ll _ _ _ a Hsh Hin) as (? & ? & ? & ? & _ & ? & _). congruence.
  - intros (_ & _ & [? ?])%(rt_garbage _ Hr). congruence.
  - intros d _ Hd. destruct (Hb d a Hd) as (_ & _ & _ & ? & ? & ? & ?). congruence.
Qed.

Lemma ours_priv c w a : lInv w -> priv w !! c = Some a -> ours c w a.
Proof.
  intros [_ [_ _ _ _ [Hb Hj] _]] Ha. destruct (Hb c a Ha) as (? & ? & _). split; [done|]. split; [done|].
  intros d Hd Hd'. by destruct (Hd (Hj _ _ _ Hd' Ha)).
Qed.

(** *** Linking and unlinking *)

(** The search is at its place: [p] is below the key and its successor above. *)
Lemma gap_absent w p kp vp q k :
  lInv w -> holds ll (wmem w) (lL w) (lU w) p kp vp q false -> p = ll_head ll \/ kp < k ->
  above ll (wmem w) (lL w) (lU w) q k -> state (wlog w) !! k = None.
Proof.
  intros [_ [Hsh Hab _ _ _ _]] Hh Hp Hq. rewrite <- Hab.
  destruct (unmarked_chain base ll _ _ _ _ _ _ _ Hsh Hh) as (A & p' & R & E & Ea & Emk & -> & _ & Ek & Hhd & HA).
  destruct (decide (p = ll_head ll)) as [Hp'|Hne].
  - destruct (Hhd Hp') as [_ ->]. by eapply abs_below_first.
  - destruct Hp as [?|Hk]; [done|]. destruct (HA Hne) as [A' EL].
    eapply abs_between; [done|exact EL|done|]. left. by rewrite Ek.
Qed.

Lemma step_link c k e v w p kp vp q a :
  lInv w -> pending c (LCas k e v) w -> e = CAS_EXPECT_DOES_NOT_EXIST \/ e = CAS_EXPECT_WHATEVER ->
  0 < v < 2 ^ 63 -> key_window base k ->
  holds ll (wmem w) (lL w) (lU w) p kp vp q false -> p = ll_head ll \/ kp < k ->
  above ll (wmem w) (lL w) (lU w) q k -> priv w !! c = Some a -> heap (wmem w) !! a = Some [k; v; q] ->
  exists w', lstep c w (set_heap (wmem w) (<[p := [kp; vp; a]]> (heap (wmem w)))) w' /\
    smooth w w' /\ wres w' !! c = Some 0.
Proof.
  intros HI Hp He Hv Hkw Hh Hpk Hq Hpr Ha. pose proof HI as [Hl [Hsh Hab Hmk Hhi Hpri Hr]].
  destruct (Hp) as [Hst Hn]. pose proof (insertable_end lspec s0 w c (LCas k e v) Hst Hn) as Hin.
  pose proof (gap_absent w p kp vp q k HI Hh Hpk Hq) as Hnone.
  destruct (pr_block _ Hpri _ _ Hpr) as (Hnp & Hng & Hptr & _).
  destruct (unmarked_chain base ll _ _ _ _ _ _ _ Hsh Hh) as (A & p' & R & E & <- & Emk & -> & <- & <- & Hhd & HA).
  assert (lspec (state (wlog w)) (LCas k e v) = (0, <[k := v]> (state (wlog w)))) as Hspec.
  { simpl. unfold loose_cas_spec. rewrite Hnone. by destruct He as [-> | ->]. }
  pose proof (rep_wf _ _ _ _ (sh_rep _ _ _ _ _ Hsh)) as Hw.
  destruct (shape_insert base ll (wmem w) (lL w) (lU w) A p' R a k v) as (L' & E' & Hsh' & Hg); try done.
  { destruct Hpk as [Hpk|?]; [left|by right]. destruct (Hhd Hpk) as [-> _]. by injection E as <-. }
  { by eapply (above_rest base ll). }
  set (w' := World (set_heap (wmem w) (<[n_addr p' := [n_key p'; n_val p'; a]]> (heap (wmem w))))
    (wlog w ++ [Lin c (LCas k e v)]) (<[c := 0]> (wres w)) (wborn w) (wfreed w)
    (Ghost L' (lU w) (gcount (wext w)) (garbage w) (dead w) (gone w) (delete c (priv w)) (duty w))).
  assert (forall a', a' ∈ n_addr <$> lL w -> a' ∈ n_addr <$> L') as HL.
  { destruct A as [|x A]; injection E as Ex EL; injection E' as _ EL'; rewrite EL, EL'; set_solver. }
  exists w'. assert (smooth w w') as Hm.
  { split; [exact Hg| |intros d; by eapply can_insert|by left|done|by apply sublist_inserts_r].
    intros d a' (g & Hgo & Ha'). exists g. split; [done|]. apply published_cases in Ha'. apply published_cases.
    destruct Ha' as [?|[?|?]]; [by left|right; left; by apply HL|by right; right]. }
  assert (abs L' = <[k := v]> (abs (lL w))) as Habs.
  { destruct A as [|x A]; injection E as Ex EL; injection E' as _ EL'; rewrite EL, EL'; [done|].
    rewrite EL in Hw. apply (abs_link base); [done..|]. destruct Hpk as [Hpk|?]; [|done].
    by destruct (Hhd Hpk) as [? _]. }
  assert (forall n, n ∈ nodes w' <-> n = LNode a k v false \/ n ∈ nodes w) as Hnodes.
  { intros n. unfold nodes. change (lL w') with L'. change (lU w') with (lU w).
    destruct A as [|x A]; injection E as Ex EL; injection E' as _ EL'; rewrite EL, EL'; set_solver. }
  assert (forall d a', priv w !! d = Some a' -> heap (wmem w') !! a' = heap (wmem w) !! a') as Hpb.
  { intros d a' Hd. simpl. apply lookup_insert_ne. intros <-. apply (pr_block _ Hpri) in Hd as [Hd _].
    apply Hd. apply Hh. }
  split; [|split; [done|apply lookup_insert_eq]].
  apply (lstep_intro c w w'); [done..| | | |].
  - intros d Hd. split; [by apply lookup_insert_ne|]. split; [intros o; by apply (insert_new_lin w c _ _ _ d o Hin)|].
    split; [by apply lookup_delete_ne|by apply Hpb|done].
  - intros d o. by apply (insert_same_start w c _ _ _ d o Hin).
  - apply (insert_log_ok lspec s0 w c _ _ _ _ 0 _ _ _ true); [done..|by rewrite Hspec].
  - split; [done| | | | |].
    + change (abs L' = state (wlog w ++ [Lin c (LCas k e v)])). rewrite lstate_snoc, Habs, Hab.
      cbn [Linearize.lstep]. by rewrite Hspec.
    + destruct Hmk as [Hm1 Hm2 Hm3]. split; [|intros a' d (n & ? & ?)%Hm2; exists n; rewrite Hnodes; tauto|done].
      intros n [->|Hin']%Hnodes Hmn; [done|]. destruct (Hm1 n Hin' Hmn) as (d & Hd & Hok). exists d. split; [done|].
      apply (dead_ok_insert w w' c (LCas k e v) (wlog w) []); [done..| |done|done].
      apply lookup_insert_ne. intros <-. by eapply (pending_not_dead w).
    + apply (hindsight_keep w); [done..| |done|done| |done].
      * intros d o. by apply (insert_same_start w c _ _ _ d o Hin).
      * intros i u Hu. by exists u.
    + apply (private_keep w); [apply delete_subseteq|done|change (priv w') with (delete c (priv w))..|done].
      * intros a' Hin' Hn' d [Hne Hd]%lookup_delete_Some. apply Hne.
        assert (a' = a) as ->; [|by eapply (pr_inj _ Hpri)].
        apply published_cases in Hin' as [->|[Hin'|Hin']]; [|change (lL w') with L' in Hin'|].
        -- destruct Hn'. apply published_cases. by left.
        -- destruct (decide (a' = a)) as [|Hna]; [done|]. destruct Hn'. apply published_cases. right; left.
           destruct A as [|x A]; injection E as Ex EL; injection E' as _ EL'; rewrite EL; rewrite EL' in Hin'; set_solver.
        -- destruct Hn'. apply published_cases. by right; right.
      * intros d a' [_ Hd]%lookup_delete_Some. by eapply Hpb.
    + apply (retired_keep w); [done..| |done]. intros a' Ha' Hn'. split.
      * rewrite published_cases. change (lL w') with L'. change (lU w') with (lU w).
        rewrite published_cases in Hn'. intros [?|[Hin'|?]]; [tauto| |tauto]. apply Hn'. right; left.
        assert (a' <> a) by congruence.
        destruct A as [|x A]; injection E as Ex EL; injection E' as _ EL'; rewrite EL; rewrite EL' in Hin'; set_solver.
      * simpl. apply lookup_insert_ne. intros <-. apply Hn', Hh.
Qed.

(** The nodes unlinked since a call began, after one more is unlinked. *)
Lemma take_unlink w w' g n q :
  gcount (wext w') = gcount (wext w) -> lU w' = (n, q) :: lU w -> (g <= total w)%nat ->
  total w' = Datatypes.S (total w) /\ take (total w' - g) (lU w') = (n, q) :: take (total w - g) (lU w).
Proof.
  intros Eg EU Hg. assert (total w' = Datatypes.S (total w)) as Et by (unfold total; rewrite Eg, EU; simpl; lia).
  split; [done|]. rewrite Et, EU. by replace (Datatypes.S (total w) - g)%nat with (Datatypes.S (total w - g)) by lia.
Qed.

(** An unlinked node was marked: the calls that run now may take its absence for
    theirs. *)
Lemma hindsight_unlink w w' B n R :
  wshape w -> abs (lL w) = state (wlog w) -> lL w = B ++ n :: R -> n_mark n = true ->
  smooth w w' -> wlog w' = wlog w -> gone w' = gone w -> gcount (wext w') = gcount (wext w) ->
  lU w' = (n, first_or R 0) :: lU w -> hindsight w -> hindsight w'.
Proof.
  intros Hsh Hab EL Hmn Hm El Eg Ec EU [H1 H2 H3].
  assert (first_or R 0 = 0 \/ first_or R 0 ∈ pub w) as Hfr.
  { destruct R as [|r R]; [by left|right]. apply published_cases. right; left. rewrite EL, fmap_app. set_solver. }
  split; rewrite Eg; try setoid_rewrite El.
  - intros d o g u Hd Hgd Hin Hk Hab'. destruct (take_unlink w w' g n (first_or R 0) Ec EU (H2 _ _ Hgd)) as [_ Etk].
    rewrite Etk in Hin. apply elem_of_cons in Hin as [->|Hin]; simpl in *.
    + apply (above_back base ll (wmem w) (lL w) (lU w)) in Hab'; [|done|apply Hm|done].
      exists o, (wlog w), []. rewrite El, app_nil_r. split; [done|]. split; [done|]. rewrite <- Hab.
      eapply (abs_between base ll); [done|exact EL|done|]. by right.
    + apply (sm_can _ _ Hm). eapply H1; [done..|]. eapply (above_back base); [done|apply Hm| |done].
      destruct (sh_order _ _ _ _ _ Hsh u (take_elem _ _ _ Hin)) as [?|Hor]; [by left|right]. apply published_cases.
      destruct Hor as [?|?%before_l]; auto.
  - intros d g Hgd. destruct (take_unlink w w' g n (first_or R 0) Ec EU (H2 _ _ Hgd)) as [-> _].
    specialize (H2 _ _ Hgd). lia.
  - done.
Qed.

Lemma retired_unlink w w' B n R c :
  wshape w -> hindsight w -> lL w = B ++ n :: R -> deferred (wmem w') = deferred (wmem w) ->
  wborn w' = wborn w -> wfreed w' = wfreed w -> gone w' = gone w -> gcount (wext w') = gcount (wext w) ->
  garbage w' = garbage w -> lL w' = B ++ R -> lU w' = (n, first_or R 0) :: lU w ->
  duty w' = <[n_addr n := c]> (duty w) ->
  (forall a, a ∉ pub w -> heap (wmem w') !! a = heap (wmem w) !! a) -> retired w -> retired w'.
Proof.
  intros Hsh Hhi EL Ed Eb Ef Ego Ec Eg EL' EU Edu Hh [H1 H2 H3 H4 H5 H6 H7].
  assert (forall j a, pends w' j a <-> pends w j a) as Hp by (intros; unfold pends, retired_at; by rewrite Ed, Ef).
  assert (forall j a, pends w j a -> a <> n_addr n) as Hne.
  { intros j a Hj ->. assert (n_addr n ∈ n_addr <$> lL w) as HnL by (rewrite EL, fmap_app; set_solver).
    destruct (H1 _ _ Hj) as [[Hin|Hin]%elem_of_app _].
    - destruct (chain_nodup base ll _ _ _ Hsh) as (_ & _ & Hd & _). by apply (Hd (n_addr n)).
    - apply H7 in Hin as [Hn _]. apply Hn, published_cases. by right; left. }
  split.
  - intros j a Hj%Hp. rewrite EU, Eg, Edu. rewrite lookup_insert_ne by (intros E; by apply (Hne _ _ Hj)).
    destruct (H1 j a Hj) as [Ha ->]. split; [|done]. rewrite !fmap_cons. by right.
  - intros i j a Hi%Hp Hj%Hp. by apply (H2 i j a).
  - intros d b g j a. rewrite Eb, Ego. intros Hb Hgo Hlt Hj%Hp.
    destruct (take_unlink w w' g n (first_or R 0) Ec EU (hi_gone _ Hhi _ _ Hgo)) as [_ ->].
    rewrite !fmap_cons, elem_of_cons. intros [?|Hin]; [by eapply Hne|]. by apply (H3 d b g j a).
  - intros d b. rewrite Eb, Ed. apply H4.
  - intros a d. rewrite Edu, EU, Eg, !fmap_cons, lookup_insert_Some. intros [[<- _]|[_ ?%H5]]; [by left|by right].
  - by rewrite Eg.
  - intros a. rewrite Eg. intros Ha. destruct (H7 a Ha) as (Hn & ? & ?). rewrite (Hh a Hn). split; [|done].
    rewrite published_cases, EL, fmap_app, fmap_cons, elem_of_app, elem_of_cons in Hn.
    rewrite published_cases, EL', EU, !fmap_cons, fmap_app, elem_of_app, elem_of_cons. simpl. tauto.
Qed.

(** Unlinking a marked node; the call has to retire it. *)
Lemma step_unlink c w p kp vp a ka va q :
  lInv w -> holds ll (wmem w) (lL w) (lU w) p kp vp a false -> holds ll (wmem w) (lL w) (lU w) a ka va q true ->
  exists w', lstep c w (set_heap (wmem w) (<[p := [kp; vp; q]]> (heap (wmem w)))) w' /\
    smooth w w' /\ duty w' !! a = Some c /\ wres w' = wres w /\ wlog w' = wlog w /\ priv w' = priv w.
Proof.
  intros [Hl [Hsh Hab Hmk Hhi Hpri Hr]] Hh Ha.
  destruct (unmarked_chain base ll _ _ _ _ _ _ _ Hsh Hh) as (A & p' & R & E & <- & Emk & Eq & <- & <- & _ & _).
  destruct R as [|n R]; simpl in Eq; subst a.
  { exfalso. apply (published_nonzero base ll _ _ _ Hsh). apply Ha. }
  assert (head_node ll :: lL w = (A ++ [p']) ++ n :: R) as E2 by (by rewrite <- app_assoc).
  pose proof (chain_holds base ll _ _ (lU w) _ _ _ Hsh E2) as Hn.
  destruct (holds_fun _ _ _ _ _ _ _ _ _ _ _ _ _ Ha Hn) as (<- & <- & <- & Hmn).
  destruct (shape_unlink base ll (wmem w) (lL w) (lU w) A p' n R (deferred (wmem w)) Hsh E Emk Hmn)
    as (L' & E' & Hsh' & Hg).
  assert (exists B, lL w = B ++ n :: R /\ L' = B ++ R) as (B & EL & EL').
  { destruct A as [|x A]; injection E as _ ->; injection E' as _ ->; [by exists []|].
    exists (A ++ [p']). by rewrite <- !app_assoc. }
  set (w' := World (set_heap (wmem w) (<[n_addr p' := [n_key p'; n_val p'; first_or R 0]]> (heap (wmem w))))
    (wlog w) (wres w) (wborn w) (wfreed w) (Ghost L' ((n, first_or R 0) :: lU w) (gcount (wext w)) (garbage w)
      (dead w) (gone w) (priv w) (<[n_addr n := c]> (duty w)))).
  exists w'. assert (smooth w w') as Hm.
  { split; auto. intros d a' (g & Hgo & Ha'). exists g. split; [done|].
    destruct (take_unlink w w' g n (first_or R 0)) as [_ ->]; [done..|by eapply hi_gone|].
    rewrite published_cases in *. change (lL w') with L'. rewrite EL, fmap_app, fmap_cons in Ha'.
    rewrite EL', fmap_app, fmap_cons. simpl. set_solver. }
  destruct (chain_nodup base ll _ _ _ Hsh) as (_ & _ & HLU & _).
  assert (n_addr n ∈ n_addr <$> lL w) as HnL by (rewrite EL, fmap_app; set_solver).
  assert (forall a', a' ∉ pub w -> heap (wmem w') !! a' = heap (wmem w) !! a') as Hfr.
  { intros a' Hn'. simpl. apply lookup_insert_ne. intros <-. apply Hn', Hh. }
  split; [|split; [done|split; [apply lookup_insert_eq|done]]].
  apply (lstep_intro c w w'); [done..| |done|by destruct Hl|].
  - intros d Hd. split; [done|]. split; [done|]. split; [done| |].
    + intros a' Ha'. apply Hfr. by apply (pr_block _ Hpri d).
    + intros a' Ha'. change (<[n_addr n := c]> (duty w) !! a' = Some d). rewrite lookup_insert_ne; [done|].
      intros <-. apply (rt_duty _ Hr) in Ha' as [?|[Hn' _]%(rt_garbage _ Hr)]%elem_of_app; [by eapply HLU|].
      apply Hn', published_cases. by right; left.
  - split; [done| | | | |].
    + change (abs L' = state (wlog w)). by rewrite <- Hab, EL, EL', abs_unlink.
    + assert (forall n1, n1 ∈ nodes w' <-> n1 ∈ nodes w) as Hnodes.
      { intros n1. unfold nodes. change (lL w') with L'. change (lU w') with ((n, first_or R 0) :: lU w).
        rewrite EL, EL'. set_solver. }
      destruct Hmk as [Hm1 Hm2 Hm3]. split; [|intros a' d (n1 & ? & ?)%Hm2; exists n1; by rewrite Hnodes|done].
      intros n1 Hn1%Hnodes Hmk1. by apply Hm1.
    + by apply (hindsight_unlink w w' B n R).
    + apply (private_keep w); [done|done| |intros d a' Ha'; apply Hfr; by apply (pr_block _ Hpri d)|done].
      intros a' Hin Hn' _ _. apply Hn'. revert Hin.
      rewrite !published_cases. change (lL w') with L'. change (lU w') with ((n, first_or R 0) :: lU w).
      rewrite EL, EL'. set_solver.
    + by apply (retired_unlink w w' B n R c).
Qed.

Lemma step_retire c w a :
  lInv w -> duty w !! a = Some c ->
  exists w', lstep c w (Mem (heap (wmem w)) (a :: deferred (wmem w)) (rand (wmem w))) w' /\
    smooth w w' /\ wres w' = wres w /\ wlog w' = wlog w /\ priv w' = priv w.
Proof.
  intros [Hl [Hsh Hab Hmk Hh Hp Hr]] Ha.
  set (w' := World (Mem (heap (wmem w)) (a :: deferred (wmem w)) (rand (wmem w))) (wlog w) (wres w) (wborn w) (wfreed w)
    (Ghost (lL w) (lU w) (gcount (wext w)) (garbage w) (dead w) (gone w) (priv w) (delete a (duty w)))).
  exists w'. destruct (shape_frame base ll (wmem w) (wmem w') (lL w) (lU w)) as [Hsh' Hg]; [done..|].
  assert (smooth w w') as Hm by (split; auto).
  split; [|done]. apply (lstep_intro c w w'); [done..| |done|by destruct Hl|].
  - intros d Hd. split; [done|]. split; [done|]. split; [done|done|].
    intros a' Ha'. change (delete a (duty w) !! a' = Some d). rewrite lookup_delete_ne; [done|congruence].
  - split; [done|done| | |by destruct Hp; split|].
    + by apply (marks_same w).
    + apply (hindsight_keep w); [done..| |done]. intros i u Hu. by exists u.
    + destruct Hr as [H1 H2 H3 H4 H5 H6 H7].
      assert (forall j a', pends w' j a' -> j = length (deferred (wmem w)) /\ a' = a \/ a' <> a /\ pends w j a') as Hpe.
      { intros j a' (Hj & Hat & Hf). unfold w' in Hat. simpl in Hat. rewrite retired_at_push in Hat. case_decide as Ej.
        - left. by injection Hat as ->.
        - right. assert (pends w j a') as Hpj by done. split; [|done]. intros ->. apply H1 in Hpj as [_ ?]. congruence. }
      split; [| | | | |done|done].
      * change (duty w') with (delete a (duty w)). intros j a' [[_ ->]|[Hne Hpj]]%Hpe.
        { split; [by eapply H5|apply lookup_delete_eq]. }
        rewrite lookup_delete_ne by congruence. by apply (H1 j).
      * intros i j a' [[-> ->]|[Hne Hi]]%Hpe [[-> ?]|[? Hj]]%Hpe; [done..|]. by eapply H2.
      * intros d b g j a' Hb Hgo Hlt [[-> ->]|[_ Hj]]%Hpe; [|by eapply H3]. specialize (H4 _ _ Hb). lia.
      * intros d b Hb%H4. simpl. lia.
      * change (duty w') with (delete a (duty w)). intros a' d [_ Hd]%lookup_delete_Some. by eapply H5.
Qed.

(** ** Reclaiming

    A block that was retired before every running call began was unlinked before: it
    is garbage to all of them, or becomes so with the nodes unlinked before it. *)

(** The nodes [U2], unlinked first, are forgotten. *)
Definition truncated w (U1 U2 : list (lnode * Z)) : lworld :=
  World (wmem w) (wlog w) (wres w) (wborn w) (wfreed w)
    (Ghost (lL w) U1 (gcount (wext w) + length U2) ((n_addr <$> U2.*1) ++ garbage w)
      (filter (fun x => x.1 ∈ published ll (lL w) U1) (dead w)) (gone w) (priv w) (duty w)).

Lemma take_l {A} i (l1 l2 : list A) x : x ∈ take i l1 -> x ∈ take i (l1 ++ l2).
Proof. rewrite take_app, elem_of_app. by left. Qed.

Lemma total_truncated w U1 U2 : lU w = U1 ++ U2 -> total (truncated w U1 U2) = total w.
Proof. intros EU. unfold total. rewrite EU, length_app. unfold truncated, lU. simpl. lia. Qed.

Lemma truncated_marks w U1 U2 :
  lU w = U1 ++ U2 -> wshape w -> marks w -> marks (truncated w U1 U2).
Proof.
  intros EU Hsh [H1 H2 H3]. set (w' := truncated w U1 U2).
  assert (forall a, a ∈ published ll (lL w) U1 <-> a = ll_head ll \/ a ∈ n_addr <$> nodes w') as Hp.
  { intros a. rewrite published_cases. unfold nodes. rewrite fmap_app, elem_of_app. done. }
  assert (forall n, n ∈ nodes w' -> n ∈ nodes w) as Hn.
  { intros n. unfold nodes. rewrite EU, fmap_app, !elem_of_app. change (lU w') with U1. change (lL w') with (lL w). tauto. }
  split.
  - intros n Hin Hm. destruct (H1 n (Hn _ Hin) Hm) as (d & Hd & Hok). exists d. split; [|done].
    apply map_lookup_filter_Some. split; [done|]. simpl. apply Hp. right. by apply list_elem_of_fmap_2.
  - intros a d [Hd Ha]%map_lookup_filter_Some. simpl in Ha. destruct (H2 _ _ Hd) as (n & Hin & <- & Hm).
    exists n. split; [|done]. apply Hp in Ha as [Ha|Ha].
    + exfalso. pose proof (sh_nodup _ _ _ _ _ Hsh) as Hnd. apply NoDup_cons in Hnd as [Hh _]. apply Hh.
      simpl. rewrite <- Ha. by apply list_elem_of_fmap_2.
    + apply list_elem_of_fmap in Ha as (n' & Ea & Hin'). assert (n = n') as ->; [|done].
      apply list_elem_of_lookup in Hin as [i Hi]. apply Hn, list_elem_of_lookup in Hin' as [j Hj].
      assert (i = j) as <-; [|congruence]. eapply (NoDup_lookup (n_addr <$> nodes w)); [by apply nodes_addr|..];
        rewrite list_lookup_fmap; [by rewrite Hi|rewrite Hj; simpl; congruence].
  - intros a a' d [? _]%map_lookup_filter_Some [? _]%map_lookup_filter_Some. by eapply H3.
Qed.

Lemma truncated_retired w U1 U2 :
  lU w = U1 ++ U2 -> wshape w -> total (truncated w U1 U2) = total w -> retired w -> retired (truncated w U1 U2).
Proof.
  intros EU Hsh Et [H1 H2 H3 H4 H5 H6 H7]. set (w' := truncated w U1 U2) in *.
  assert (forall a, a ∈ (n_addr <$> (lU w').*1) ++ garbage w' <-> a ∈ (n_addr <$> (lU w).*1) ++ garbage w) as Hp.
  { intros a. rewrite EU, !fmap_app. unfold w', garbage, lU. simpl. by rewrite app_assoc. }
  assert (forall a, a ∈ n_addr <$> U2.*1 -> a ∈ n_addr <$> (lU w).*1 /\ a ∉ published ll (lL w) U1) as HU2.
  { intros a Ha. split; [rewrite EU, !fmap_app; set_solver|]. pose proof (sh_nodup _ _ _ _ _ Hsh) as Hnd.
    unfold published in *. rewrite EU, fmap_app, app_assoc, app_comm_cons, fmap_app in Hnd.
    apply NoDup_app in Hnd as (_ & Hd & _). intros Hin. by apply (Hd a). }
  split.
  - intros j a. rewrite Hp. apply H1.
  - apply H2.
  - intros c b g j a Hb Hg Hj Ha. rewrite Et. intros Hin. eapply H3; [done..|]. rewrite EU.
    rewrite gone_addr_list in *. apply list_elem_of_fmap in Hin as (u & -> & Hin).
    apply (list_elem_of_fmap_2 (fun u => n_addr u.1)). by apply take_l.
  - apply H4.
  - intros a d. rewrite Hp. apply H5.
  - apply NoDup_app. split; [|split; [|done]].
    + destruct (chain_nodup base ll _ _ _ Hsh) as (_ & Hnd & _). rewrite EU, !fmap_app in Hnd.
      by apply NoDup_app in Hnd as (_ & _ & ?).
    + intros a [Ha _]%HU2 [Hn _]%H7. apply Hn, published_cases. by right; right.
  - intros a [Ha|Ha]%elem_of_app.
    + destruct (HU2 a Ha) as [Hin ?]. split; [done|]. rewrite gone_addr_list in Hin.
      apply list_elem_of_fmap in Hin as (u & -> & Hu). simpl.
      destruct (sh_gone _ _ _ _ _ Hsh u Hu) as (E & _ & ? & _). split; [done|]. rewrite E. by eexists.
    + destruct (H7 a Ha) as [Hn ?]. split; [|done]. intros Hin%published_cases. apply Hn. rewrite EU.
      rewrite published_cases, !fmap_app, elem_of_app. change (lL w') with (lL w) in Hin.
      change (lU w') with U1 in Hin. tauto.
Qed.

Lemma truncated_inv w U1 U2 : lU w = U1 ++ U2 -> linv w -> linv (truncated w U1 U2).
Proof.
  intros EU [Hsh Hab Hmk [Ha Hg Hst] [Hpb Hpj] Hr].
  assert (total (truncated w U1 U2) = total w) as Et by (by apply total_truncated).
  assert (forall a, a ∈ published ll (lL w) U1 -> a ∈ pub w) as Hsub.
  { intros a. rewrite EU, !published_cases, !fmap_app, elem_of_app. tauto. }
  split; [|done|by apply truncated_marks| | |by apply truncated_retired].
  - rewrite EU in Hsh. by eapply shape_truncate.
  - split; [|intros d g; rewrite Et; apply Hg|done].
    intros d o g u Hd Hgd Hin Hk Hab'. rewrite Et in Hin. apply (Ha d o g u); [done..| |done|].
    + rewrite EU. by apply take_l.
    + destruct Hab' as [?|(k' & (Hp & Hx) & ?)]; [by left|right]. exists k'. split; [|done].
      split; [by apply Hsub|done].
  - split; [|done]. intros d a Hd. destruct (Hpb d a Hd) as (Hn & Hng & Hrest).
    split; [intros Hin; by apply Hn, Hsub|]. split; [|done]. intros [Hin|?]%elem_of_app; [|done].
    apply Hn. apply published_cases. right; right. rewrite EU, !fmap_app, elem_of_app. by right.
Qed.

(** The block [a], the [j]-th retired, is freed. *)
Definition reclaimed w (j : nat) a : lworld :=
  World (set_heap (wmem w) (delete a (heap (wmem w)))) (wlog w) (wres w) (wborn w) ({[j]} ∪ wfreed w)
    (Ghost (lL w) (lU w) (gcount (wext w)) (filter (fun x => x <> a) (garbage w)) (dead w) (gone w) (priv w) (duty w)).

Lemma reclaimed_inv w j a : linv w -> a ∈ garbage w -> pends w j a -> linv (reclaimed w j a).
Proof.
  intros [Hsh Hab Hmk Hh [Hpb Hpj] [H1 H2 H3 H4 H5 H6 H7]] Ha Hj. set (w' := reclaimed w j a).
  destruct (H7 a Ha) as [Hna _].
  assert (forall x, x ∈ pub w -> heap (wmem w') !! x = heap (wmem w) !! x) as Hpub.
  { intros x Hx. simpl. apply lookup_delete_ne. congruence. }
  destruct (shape_frame base ll (wmem w) (wmem w') (lL w) (lU w) Hpub Hsh) as [Hsh' Hg].
  assert (forall x, x ∈ garbage w' <-> x ∈ garbage w /\ x <> a) as Hgb.
  { intros x. unfold w', garbage. simpl. rewrite list_elem_of_filter. tauto. }
  assert (forall i x, pends w' i x -> pends w i x /\ x <> a) as Hpe.
  { intros i x (Hi & Hr & Hf). simpl in Hf. assert (pends w i x) as Hp by (split; [done|]; split; [done|set_solver]).
    split; [done|]. intros ->. rewrite (H2 i j a) in Hf by done. set_solver. }
  assert (forall x, x ∈ (n_addr <$> (lU w).*1) ++ garbage w -> x <> a -> x ∈ (n_addr <$> (lU w').*1) ++ garbage w') as Hin.
  { intros x. rewrite !elem_of_app, Hgb. change (lU w') with (lU w). tauto. }
  split; [done|done|by apply (marks_same w)| | |].
  - destruct Hh as [Hh1 Hh2 Hh3]. split; [|done..]. intros d o g u Hd Hgd Hu Hk Hab'. apply (Hh1 d o g u); [done..|].
    eapply (above_back base); [done|exact Hg| |done].
    destruct (sh_order _ _ _ _ _ Hsh u (take_elem _ _ _ Hu)) as [?|Hor]; [by left|right]. apply published_cases.
    destruct Hor as [?|?%before_l]; auto.
  - split; [|done]. intros d x Hd. destruct (Hpb d x Hd) as (? & Hng & ? & Hx).
    split; [done|]. split; [rewrite Hgb; tauto|]. split; [done|]. simpl. rewrite lookup_delete_ne; [done|congruence].
  - split; [| | |done| |by apply NoDup_filter|].
    + intros i x [Hi Hne]%Hpe. destruct (H1 i x Hi) as [? ?]. split; [by apply Hin|done].
    + intros i i' x [Hi _]%Hpe [Hi' _]%Hpe. by eapply H2.
    + intros c b g i x Hb Hgo Hlt [Hi _]%Hpe. by eapply H3.
    + intros x d Hx. apply Hin; [by eapply H5|]. intros ->. destruct (H1 j a Hj) as [_ E]. change (duty w !! a = Some d) in Hx. congruence.
    + intros x [Hx Hne]%Hgb. destruct (H7 x Hx) as (? & ? & ?). split; [done|]. split; [done|]. simpl. by rewrite lookup_delete_ne.
Qed.

(** The calls that have not seen the block do not notice. *)
Lemma reclaimed_rely w U1 U2 j a c :
  lU w = U1 ++ U2 -> linv w -> a ∈ (n_addr <$> U2.*1) ++ garbage w ->
  (forall g, gone w !! c = Some g -> take (total w - g) (lU w) = take (total w - g) U1) ->
  rely lrely c w (reclaimed (truncated w U1 U2) j a).
Proof.
  intros EU Hi Ha Hc. set (w' := reclaimed (truncated w U1 U2) j a).
  assert (total w' = total w) as Et by (by apply total_truncated).
  pose proof (truncated_inv w U1 U2 EU Hi) as [_ _ _ _ _ Hr].
  destruct (rt_garbage _ Hr a Ha) as [Hna _]. change (lU (truncated w U1 U2)) with U1 in Hna.
  assert (forall x, since w c x -> x ∈ published ll (lL w) U1) as Hs.
  { intros x (g & Hg & Hx). rewrite (Hc g Hg) in Hx. rewrite published_cases in *.
    destruct Hx as [?|[?|Hx]]; [by left|by right; left|right; right]. rewrite gone_addr_list in *.
    apply list_elem_of_fmap in Hx as (u & -> & Hu). apply (list_elem_of_fmap_2 (fun u => n_addr u.1)).
    by eapply take_elem. }
  split; [done..|]. split.
  - split; [| |done| |done|done].
    + intros x k v q b Hx (_ & Hl & Hq). exists v, q, b. split; [|done]. split; [by apply Hs|]. split; [|done].
      simpl. rewrite lookup_delete_ne; [done|]. intros <-. by apply Hna, Hs.
    + intros x (g & Hg & Hx). exists g. split; [done|]. rewrite Et. rewrite (Hc g Hg) in Hx. exact Hx.
    + intros x Hx%Hs. left. change (filter (fun x => x.1 ∈ published ll (lL w) U1) (dead w) !! x = dead w !! x).
      destruct (dead w !! x) as [d|] eqn:E; [by apply map_lookup_filter_Some|].
      apply map_lookup_filter_None. by left.
  - split; [done| |done]. intros x Hx. simpl. apply lookup_delete_ne. intros ->.
    apply (pr_block _ (li_priv _ Hi)) in Hx as (Hn & Hng & _). apply elem_of_app in Ha as [Ha|]; [|done].
    apply Hn, published_cases. right; right. rewrite EU, !fmap_app, elem_of_app. by right.
Qed.

Lemma reclaim w (j : nat) a (run : nat -> Prop) :
  lInv w -> (n0 <= j)%nat -> retired_at (wmem w) j = Some a -> j ∉ wfreed w ->
  (forall c, run c -> exists b, wborn w !! c = Some b /\ (j < b)%nat) ->
  exists w', wmem w' = set_heap (wmem w) (delete a (heap (wmem w))) /\ wlog w' = wlog w /\ wres w' = wres w /\
    wborn w' = wborn w /\ wfreed w' = {[j]} ∪ wfreed w /\ lInv w' /\ forall c, run c -> rely lrely c w w'.
Proof.
  intros [Hl Hi] Hj Ha Hf Hrun. assert (pends w j a) as Hp by done.
  assert (exists U1 U2, lU w = U1 ++ U2 /\ a ∈ (n_addr <$> U2.*1) ++ garbage w /\
    forall c g, run c -> gone w !! c = Some g -> take (total w - g) (lU w) = take (total w - g) U1) as (U1 & U2 & EU & Hin & Hc).
  { destruct (rt_block _ (li_retired _ Hi) j a Hp) as [[Hin|Hin]%elem_of_app _].
    - rewrite gone_addr_list in Hin. apply list_elem_of_fmap in Hin as (u & -> & Hu).
      apply list_elem_of_split in Hu as (U1 & U2 & EU). exists U1, (u :: U2). split; [done|].
      split; [apply elem_of_app; left; by left|]. intros c g (b & Hb & Hlt)%Hrun Hg.
      rewrite EU. apply take_app_le. apply Nat.nlt_ge. intros Hlen.
      apply (rt_born _ (li_retired _ Hi) c b g j (n_addr u.1) Hb Hg Hlt Hp). rewrite EU, gone_addr_list.
      apply (list_elem_of_fmap_2 (fun u => n_addr u.1)). rewrite take_app_ge by lia. apply elem_of_app. right.
      destruct (total w - g - length U1)%nat eqn:E; [lia|]. by left.
    - exists (lU w), []. rewrite app_nil_r. split; [done|]. split; [by apply elem_of_app; right|done]. }
  exists (reclaimed (truncated w U1 U2) j a). split; [done|]. split; [done|]. split; [done|]. split; [done|].
  split; [done|]. split; [split; [by destruct Hl|]|].
  - apply reclaimed_inv; [by apply truncated_inv|done|done].
  - intros c Hr. apply reclaimed_rely; [done..|]. intros g. by apply Hc.
Qed.
End ghost.
