(* ===== verification/ListLin.v ===== *)
(** The lock-free list of [map/list.c] is linearizable: the calls [ll_lookup],
    [ll_cas] and [ll_remove] keep the invariant of [ListGhost.v] whatever the
    order in which their instructions are interleaved. *)
From S2P Require Import Prelude Random Machine Datatype MapSpec LinkedList Linearize ListShape ListGhost.

Section lin.
Context `{Allocator} (base : Z) (ll : list_t) (s0 : gmap Z Z) (n0 : nat).
Implicit Types (w : lworld) (a p q v : Z).

Abbreviation state := (lstate lspec s0).
Abbreviation pub w := (published ll (lL w) (lU w)).
Abbreviation wshape w := (shape base ll (wmem w) (lL w) (lU w)).
Abbreviation lInv := (Inv lspec s0 (linv base ll s0 n0)).
Abbreviation lstep c := (step lspec s0 (linv base ll s0 n0) (lrely ll s0) c).
Abbreviation mono := (mono ll s0).
Abbreviation smooth := (smooth ll s0).
Abbreviation since := (since ll).
Abbreviation can := (can s0).
Abbreviation Stable := (Stable lspec s0 (linv base ll s0 n0) (lrely ll s0)).
Abbreviation triple := (triple lspec s0 (linv base ll s0 n0) (lrely ll s0)).

Abbreviation rule_ret := (t_ret lspec s0 (linv base ll s0 n0) (lrely ll s0) (lrely_refl ll s0)).
Abbreviation rule_conseq := (t_conseq lspec s0 (linv base ll s0 n0) (lrely ll s0)).
Abbreviation rule_exist := (t_exist lspec s0 (linv base ll s0 n0) (lrely ll s0)).
Abbreviation rule_pure := (t_pure lspec s0 (linv base ll s0 n0) (lrely ll s0)).
Abbreviation rule_or := (t_or lspec s0 (linv base ll s0 n0) (lrely ll s0)).
Abbreviation rule_bind := (t_bind lspec s0 (linv base ll s0 n0) (lrely ll s0) (lrely_refl ll s0) (lrely_trans ll s0)).

Abbreviation rule_upd := (t_upd lspec s0 (linv base ll s0 n0) (lrely ll s0) (lrely_refl ll s0) (lrely_trans ll s0)).

Lemma inv_shape w : lInv w -> wshape w.
Proof. by intros [_ []]. Qed.

(** ** Facts that no step undoes

    as far as the call [c] can see. *)

Class Kept (c : nat) (P : lworld -> Prop) : Prop :=
  kept w w' : lInv w -> mono c w w' -> P w -> P w'.

(** Facts that a step of the call itself does not undo, when nothing takes effect. *)
Class Quiet (c : nat) (P : lworld -> Prop) : Prop :=
  quiet w w' : lInv w -> mono c w w' -> wres w' = wres w /\ wlog w' = wlog w -> P w -> P w'.

Section kept_instances.
Context (c : nat).

#[global] Instance kept_stable P : Kept c P -> Stable c P.
Proof. intros HP w w' Hw _ Hr. apply HP; [done|]. apply (ry_obj _ _ _ _ Hr). Qed.

#[global] Instance kept_pure (P : Prop) : Kept c (fun _ => P).
Proof. by intros ?. Qed.

#[global] Instance kept_and P Q : Kept c P -> Kept c Q -> Kept c (fun w => P w /\ Q w).
Proof. intros HP HQ w w' Hw Hm []. split; [by apply (HP w)|by apply (HQ w)]. Qed.

#[global] Instance kept_or P Q : Kept c P -> Kept c Q -> Kept c (fun w => P w \/ Q w).
Proof. intros HP HQ w w' Hw Hm []; [left; by apply (HP w)|right; by apply (HQ w)]. Qed.

#[global] Instance kept_impl (P : Prop) Q : Kept c Q -> Kept c (fun w => P -> Q w).
Proof. intros HQ w w' Hw Hm H' ?. apply (HQ w); auto. Qed.

#[global] Instance kept_exist {T} (P : T -> lworld -> Prop) :
  (forall x, Kept c (P x)) -> Kept c (fun w => exists x, P x w).
Proof. intros HP w w' Hw Hm [x ?]. exists x. by apply (HP x w). Qed.

#[global] Instance kept_can : Kept c (fun w => can w c).
Proof. intros w w' _ Hm. apply (mo_can _ _ _ _ _ Hm). Qed.

#[global] Instance kept_log e : Kept c (fun w => e ∈ wlog w).
Proof. intros w w' _ Hm ?. eapply elem_of_sublist; [done|apply (mo_log _ _ _ _ _ Hm)]. Qed.

#[global] Instance kept_gone g : Kept c (fun w => gone w !! c = Some g).
Proof. intros w w' _ Hm. apply (mo_gone _ _ _ _ _ Hm). Qed.

#[global] Instance kept_quiet P : Kept c P -> Quiet c P.
Proof. intros HP w w' ?? _ ?. by apply (HP w). Qed.

#[global] Instance quiet_res d r : Quiet c (fun w => wres w !! d = r).
Proof. by intros w w' ?? [-> _]. Qed.

#[global] Instance quiet_pending d o : Quiet c (pending d o).
Proof. unfold pending. by intros w w' ?? [_ ->]. Qed.

#[global] Instance quiet_and P Q : Quiet c P -> Quiet c Q -> Quiet c (fun w => P w /\ Q w).
Proof. intros HP HQ w w' Hw Hm Hq []. split; [by apply (HP w)|by apply (HQ w)]. Qed.

(** The call's own steps. *)
Lemma kept_smooth P {HP : Kept c P} w w' : lInv w -> smooth w w' -> P w -> P w'.
Proof. intros ? Hm. by apply HP, smooth_mono. Qed.

Lemma quiet_smooth P {HP : Quiet c P} w w' :
  lInv w -> smooth w w' -> wres w' = wres w /\ wlog w' = wlog w -> P w -> P w'.
Proof. intros ? Hm. by apply HP, smooth_mono. Qed.
End kept_instances.

#[global] Instance stable_duty c a : Stable c (fun w => duty w !! a = Some c).
Proof. intros w w' _ _ Hr. apply (ry_obj _ _ _ _ Hr). Qed.

#[global] Instance stable_priv c a x : Stable c (fun w => priv w !! c = Some a /\ heap (wmem w) !! a = x).
Proof.
  intros w w' _ _ Hr [Hp <-]. destruct (ry_obj _ _ _ _ Hr) as [_ [Ep Eb _]]. split; [by rewrite Ep|by apply Eb].
Qed.

(** * One call *)

Section one.
Context (c : nat).

(** [a] is a node with key [k], other than the sentinel, that was in the list at some
    point since the call began. *)
Definition key_at a (k : Z) w : Prop :=
  has_key ll (wmem w) (lL w) (lU w) a k /\ a <> ll_head ll /\ since w c a.

(** [a] is marked, so that its link [q] is final. *)
Definition frozen a q w : Prop := since w c a /\ exists k v, holds ll (wmem w) (lL w) (lU w) a k v q true.

(** The call [d] marked [a]. *)
Definition marker a d w : Prop := since w c a /\ dead w !! a = Some d.

#[global] Instance kept_key a k : Kept c (key_at a k).
Proof.
  intros w w' Hw Hm (Hk & ? & Hs). split; [|split; [done|by apply (mo_since _ _ _ _ _ Hm)]].
  destruct (has_key_holds base ll _ _ _ a k (inv_shape w Hw) Hk) as (v & q & b & Hh).
  destruct (mo_node _ _ _ _ _ Hm a k v q b Hs Hh) as (v' & q' & b' & Hh' & _). by eapply holds_key.
Qed.

#[global] Instance kept_frozen a q : Kept c (frozen a q).
Proof.
  intros w w' Hw Hm (Hs & k & v & Hh). destruct (mo_node _ _ _ _ _ Hm _ _ _ _ _ Hs Hh) as (v' & q' & b' & Hh' & Hb).
  destruct (Hb eq_refl) as [-> ->]. split; [by apply (mo_since _ _ _ _ _ Hm)|]. by exists k, v'.
Qed.

#[global] Instance kept_marker a d : Kept c (marker a d).
Proof.
  intros w w' _ Hm [Hs Ha]. split; [by apply (mo_since _ _ _ _ _ Hm)|].
  destruct (mo_dead _ _ _ _ _ Hm a Hs) as [->|[Hn _]]; [done|congruence].
Qed.

Section call.
Context (o : lop) (g : nat).
Abbreviation k := (okey o).

(** The call [c] is under way and has not taken effect. *)
Definition open w : Prop := pending c o w /\ wres w !! c = None /\ gone w !! c = Some g.

#[global] Instance stable_open : Stable c open.
Proof. apply _. Qed.

#[global] Instance quiet_open : Quiet c open.
Proof. apply _. Qed.

(** [a] is the end of the list, or a node that was in the list at some point since the call
    began; if it is past the key, the key was absent at some point. *)
Definition reached a w : Prop :=
  a = 0 /\ can w c \/ exists ka, key_at a ka w /\ (k < ka -> can w c).

(** [a] was not marked when the call began. *)
Definition fresh a w : Prop :=
  since w c a /\ Start c o ∈ wlog w /\
  forall d, dead w !! a = Some d -> exists k', before (Start c o) (Lin d (LRemove k')) (wlog w).

(** A place from which the search for the key goes on. *)
Definition pred_ok p w : Prop := p = ll_head ll \/ exists kp, key_at p kp w /\ kp < k.

#[global] Instance kept_reached a : Kept c (reached a).
Proof. apply _. Qed.

#[global] Instance kept_pred p : Kept c (pred_ok p).
Proof. apply _. Qed.

#[global] Instance kept_fresh a : Kept c (fresh a).
Proof.
  intros w w' Hw Hm (Hsi & Hs & Hd). split; [by apply (mo_since _ _ _ _ _ Hm)|]. split; [by apply (kept_log c _ w w')|].
  intros d Hd'. destruct (mo_dead _ _ _ _ _ Hm a Hsi) as [E|(_ & d' & k' & E & Hb)].
  - rewrite E in Hd'. destruct (Hd _ Hd') as [k' ?]. exists k'. eapply before_sublist; [done|apply (mo_log _ _ _ _ _ Hm)].
  - rewrite E in Hd'. injection Hd' as ->. exists k'. by apply Hb.
Qed.

Lemma open_start w : open w -> Start c o ∈ wlog w.
Proof. by intros [[? _] _]. Qed.

Lemma open_can w : open w -> state (wlog w) !! k = None -> can w c.
Proof. intros Ho Hn. exists o, (wlog w), []. rewrite app_nil_r. split; [done|]. split; [by apply open_start|done]. Qed.

(** What is in the list now. *)
Lemma list_since w a : lInv w -> open w -> a ∈ n_addr <$> lL w -> since w c a /\ a <> ll_head ll.
Proof.
  intros [_ [Hsh _ _ _ _ _]] (_ & _ & Hgc) Ha.
  destruct (chain_nodup base ll _ _ _ Hsh) as (_ & _ & _ & Hh & _). split; [|by intros ->].
  exists g. split; [done|]. apply published_cases. by right; left.
Qed.

Lemma since_pub w a : since w c a -> a ∈ pub w.
Proof.
  intros (g' & _ & Ha). rewrite published_cases in *. destruct Ha as [?|[?|Ha]]; [by left|by right; left|right; right].
  rewrite gone_addr_list in *. apply list_elem_of_fmap in Ha as (u & -> & Hu).
  apply (list_elem_of_fmap_2 (fun u => n_addr u.1)). by eapply take_elem.
Qed.

Lemma reached_node w a :
  lInv w -> since w c a -> a <> ll_head ll -> (above ll (wmem w) (lL w) (lU w) a k -> can w c) -> reached a w.
Proof.
  intros Hw Hs Hh Hc. right.
  destruct (published_holds base ll _ _ _ a (inv_shape w Hw) (since_pub w a Hs)) as (ka & v & q & b & Ha).
  exists ka. split; [split; [by eapply holds_key|done]|]. intros Hk. apply Hc. right. exists ka.
  split; [by eapply holds_key|done].
Qed.

(** The successor of a live node below the key. *)
Lemma succ_reached w p kp vp q :
  lInv w -> open w -> holds ll (wmem w) (lL w) (lU w) p kp vp q false -> p = ll_head ll \/ kp < k -> reached q w.
Proof.
  intros Hw Ho Hh Hp.
  assert (above ll (wmem w) (lL w) (lU w) q k -> can w c) as Hc.
  { intros Hab. apply open_can; [done|]. by eapply (gap_absent base ll s0 n0). }
  destruct (unmarked_chain base ll _ _ _ _ _ _ _ (inv_shape w Hw) Hh) as (A & p' & R & E & _ & _ & -> & _).
  destruct R as [|n R]; [left; split; [done|]; apply Hc; by left|].
  assert (n_addr n ∈ n_addr <$> lL w) as Hin.
  { destruct A as [|x A]; injection E as _ ->; [by left|]. rewrite fmap_app. set_solver. }
  destruct (list_since w _ Hw Ho Hin) as (? & ?). by apply reached_node.
Qed.

(** What comes before an element of a prefix is in the prefix. *)
Lemma before_take {A} (x y : A) i l : NoDup l -> before x y l -> y ∈ take i l -> x ∈ take i l.
Proof.
  intros Hnd Hb (l1 & l2 & E)%list_elem_of_split. rewrite <- (take_drop i l), E, <- app_assoc in Hnd, Hb.
  rewrite E. apply elem_of_app. left. by eapply before_split.
Qed.

(** The successor of a marked node that was reached. *)
Lemma frozen_reached w a ka v q :
  lInv w -> open w -> holds ll (wmem w) (lL w) (lU w) a ka v q true -> since w c a -> (k < ka -> can w c) -> reached q w.
Proof.
  intros Hw Ho Hh (g' & Hg' & Hs) Hka. pose proof (inv_shape w Hw) as Hsh.
  destruct (Hw) as [_ [_ Hab _ [Hhi1 Hhi2 _] _ _]]. destruct (Ho) as (_ & _ & Hgc).
  assert (g' = g) as -> by congruence.
  destruct (holds_place base ll _ _ _ _ _ _ _ _ Hsh Hh) as [|A B E Eq|U1 U2 E _]; [done|..].
  - assert (above ll (wmem w) (lL w) (lU w) q k -> can w c) as Hc.
    { intros Ha. destruct (Z.lt_ge_cases k ka) as [?|Hle]; [auto|]. apply open_can; [done|]. rewrite <- Hab.
      subst q. eapply (abs_between base ll); [done|exact E|done|]. by right. }
    destruct B as [|n B]; simpl in Eq; subst q; [left; split; [done|]; apply Hc; by left|].
    assert (n_addr n ∈ n_addr <$> lL w) as Hin by (rewrite E, fmap_app; set_solver).
    destruct (list_since w _ Hw Ho Hin) as (? & ?). by apply reached_node.
  - assert ((LNode a ka v true, q) ∈ lU w) as Hu by (rewrite E; set_solver).
    destruct (chain_nodup base ll _ _ _ Hsh) as (_ & HnU & Hd & _ & HhU).
    assert (a ∈ n_addr <$> (take (total w - g) (lU w)).*1) as Hat.
    { assert (a ∈ n_addr <$> (lU w).*1) as HaU.
      { rewrite gone_addr_list. by apply (list_elem_of_fmap_2 (fun u => n_addr u.1) _ _ Hu). }
      apply published_cases in Hs as [->|[Hs|?]]; [done| |done]. by destruct (Hd a). }
    assert ((LNode a ka v true, q) ∈ take (total w - g) (lU w)) as Hut.
    { rewrite gone_addr_list in Hat, HnU. apply list_elem_of_fmap in Hat as (u & Ea & Hut).
      assert (u = (LNode a ka v true, q)) as <-; [|done]. pose proof (take_elem _ _ _ Hut) as Hu'.
      apply list_elem_of_lookup in Hu' as [i Hi], Hu as [j Hj].
      assert (i = j) as <-; [|congruence]. eapply NoDup_lookup; [exact HnU|..];
        rewrite list_lookup_fmap; [by rewrite Hi|rewrite Hj; simpl; congruence]. }
    assert (above ll (wmem w) (lL w) (lU w) q k -> can w c) as Hc.
    { intros Ha. destruct (Z.lt_ge_cases k ka) as [?|Hle]; [auto|].
      eapply (Hhi1 c o g (LNode a ka v true, q)); try done. by apply open_start. }
    destruct (sh_order _ _ _ _ _ Hsh _ Hu) as [Eq|[Hin|Hbf]]; simpl in *.
    + left. split; [done|]. apply Hc. by left.
    + destruct (list_since w _ Hw Ho Hin) as (? & ?). by apply reached_node.
    + apply reached_node; [done| |intros ->; by apply HhU; eapply before_l|done].
      exists g. split; [done|]. apply published_cases. right; right. rewrite !fmap_take in *. by eapply before_take.
Qed.

(** ** The instructions *)

Section instructions.
Context {A : Type}.
Implicit Types (P : lworld -> Prop) (Q : A -> lworld -> Prop) (f : Z -> prog A).

(** Reading a published node; the call may take effect. *)
Lemma t_load_step P a (i : nat) f K Q :
  Stable c P -> (i < 3)%nat -> (forall w, lInv w -> P w -> a ∈ pub w) ->
  (forall w k0 v q b r, lInv w -> P w -> holds ll (wmem w) (lL w) (lU w) a k0 v q b ->
     [k0; v; link q b] !! i = Some r -> exists w', lstep c w (wmem w) w' /\ K r w') ->
  (forall r, triple c (K r) (f r) Q) -> triple c P (bind (load a i) f) Q.
Proof.
  intros HP Hi Hp HK Hf. apply (t_act _ _ _ _ c P (Load a i) _ K); [done| |exact Hf].
  intros w Hw HPw. destruct (published_holds base ll _ _ _ a (inv_shape w Hw) (Hp w Hw HPw)) as (k0 & v & q & b & Hh).
  pose proof Hh as (_ & Hl & _). unfold does. simpl. rewrite Hl. simpl.
  destruct ([k0; v; link q b] !! i) as [r|] eqn:Er; [by eapply HK|].
  exfalso. destruct i as [|[|[|]]]; [done..|lia].
Qed.

Lemma stay w : lInv w -> lstep c w (wmem w) w.
Proof. apply step_refl, lrely_refl. Qed.

Lemma t_load P a (i : nat) f K Q :
  Stable c P -> (i < 3)%nat -> (forall w, lInv w -> P w -> a ∈ pub w) ->
  (forall w k0 v q b r, lInv w -> P w -> holds ll (wmem w) (lL w) (lU w) a k0 v q b ->
     [k0; v; link q b] !! i = Some r -> K r w) ->
  (forall r, triple c (K r) (f r) Q) -> triple c P (bind (load a i) f) Q.
Proof.
  intros HP Hi Hp HK Hf. eapply t_load_step; [done..| |exact Hf].
  intros w k0 v q b r Hw HPw Hh Er. exists w. split; [by apply stay|]. by eapply HK.
Qed.

(** Reading and writing a published node. *)
Lemma t_rmw P a (i : nat) (u : Z -> Z) f K Q :
  Stable c P -> (i < 3)%nat -> (forall w, lInv w -> P w -> a ∈ pub w) ->
  (forall w k0 v q b r, lInv w -> P w -> holds ll (wmem w) (lL w) (lU w) a k0 v q b ->
     [k0; v; link q b] !! i = Some r ->
     exists w', lstep c w (set_heap (wmem w) (<[a := <[i := u r]> [k0; v; link q b]]> (heap (wmem w)))) w' /\ K r w') ->
  (forall r, triple c (K r) (f r) Q) -> triple c P (bind (Act (Rmw a i u) Ret) f) Q.
Proof.
  intros HP Hi Hp HK Hf. apply (t_act _ _ _ _ c P (Rmw a i u) _ K); [done| |exact Hf].
  intros w Hw HPw. destruct (published_holds base ll _ _ _ a (inv_shape w Hw) (Hp w Hw HPw)) as (k0 & v & q & b & Hh).
  pose proof Hh as (_ & Hl & _). unfold does. cbn [handle]. rewrite Hl.
  destruct ([k0; v; link q b] !! i) as [r|] eqn:Er; [by eapply HK|].
  exfalso. destruct i as [|[|[|]]]; [done..|lia].
Qed.

(** Comparing and swapping a published node. *)
Lemma t_cas P a (i : nat) (old x : Z) f K Q :
  Stable c P -> (i < 3)%nat -> (forall w, lInv w -> P w -> a ∈ pub w) ->
  (forall w k0 v q b r, lInv w -> P w -> holds ll (wmem w) (lL w) (lU w) a k0 v q b ->
     [k0; v; link q b] !! i = Some r -> r <> old -> exists w', lstep c w (wmem w) w' /\ K r w') ->
  (forall w k0 v q b, lInv w -> P w -> holds ll (wmem w) (lL w) (lU w) a k0 v q b ->
     [k0; v; link q b] !! i = Some old ->
     exists w', lstep c w (set_heap (wmem w) (<[a := <[i := x]> [k0; v; link q b]]> (heap (wmem w)))) w' /\ K old w') ->
  (forall r, triple c (K r) (f r) Q) -> triple c P (bind (SYNC_CAS a i old x) f) Q.
Proof.
  intros HP Hi Hp HK1 HK2 Hf. eapply t_rmw; [done|done|done| |exact Hf].
  intros w k0 v q b r Hw HPw Hh Er. destruct (Z.eqb_spec r old) as [->|Hne]; [by eapply HK2|].
  pose proof Hh as (_ & Hl & _). rewrite list_insert_id, insert_id, set_heap_same by done. by eapply HK1.
Qed.

(** Retiring a node the call has unlinked. *)
Lemma t_retire P a f Q :
  Quiet c P -> Stable c P -> triple c P (f 0) Q ->
  triple c (fun w => duty w !! a = Some c /\ P w) (bind (rcu_defer_free a) f) Q.
Proof.
  intros HP HS Hf. apply (t_act _ _ _ _ c _ (Defer a) _ (fun r w => r = 0 /\ P w)).
  - apply stable_and; [apply stable_duty|done].
  - intros w Hw [Hd HPw]. destruct (step_retire base ll s0 n0 c w a Hw Hd) as (w' & Hst & Hm & Hr & Hl & _).
    exists w'. split; [exact Hst|]. split; [done|]. by apply (quiet_smooth c P w).
  - intros r. apply rule_pure. by intros ->.
Qed.
End instructions.

(** ** The search *)

(** What is known of the node [item] whose link was read as [next]. *)
Definition at_item (item next : Z) w : Prop :=
  item = 0 /\ next = 0 /\ can w c \/
  exists ka q b, key_at item ka w /\ (k < ka -> can w c) /\ next = link q b /\ (q = 0 \/ node_ptr q) /\
    if b : bool then frozen item q w else fresh item w /\ (ka < k -> reached q w).

#[global] Instance kept_at_item item next : Kept c (at_item item next).
Proof.
  apply kept_or; [apply _|]. do 2 (apply kept_exist; intros ?). apply kept_exist. intros []; apply _.
Qed.

Lemma key_pub w a ka : key_at a ka w -> a ∈ pub w.
Proof. by intros [[? _] _]. Qed.

Lemma read_item w a ka k0 v q b :
  lInv w -> open w -> key_at a ka w -> (k < ka -> can w c) ->
  holds ll (wmem w) (lL w) (lU w) a k0 v q b -> at_item a (link q b) w.
Proof.
  intros Hw Ho Ha Hka Hh. right. destruct (Ha) as (Hk & Hne & Hs).
  pose proof (has_key_fun _ _ _ _ _ _ _ Hk (holds_key _ _ _ _ _ _ _ _ _ Hh)) as <-.
  exists ka, q, b. split; [done|]. split; [done|]. split; [done|]. split; [apply Hh|].
  destruct b; [by split; [|exists ka, v]|]. split.
  - split; [done|]. split; [by apply open_start|]. intros d Hd.
    destruct (live_facts base ll s0 n0 w a ka v q Hw Hh Hne) as (_ & _ & Hn & _). congruence.
  - intros Hlt. eapply succ_reached; [done..|by right].
Qed.

(** What the inner loop leaves: the end of the list, or a node that was not marked. *)
Definition live_item (item next : Z) w : Prop :=
  item = 0 /\ can w c \/
  exists ka, key_at item ka w /\ (k < ka -> can w c) /\ fresh item w /\ (ka < k -> reached next w).

#[global] Instance kept_live_item item next : Kept c (live_item item next).
Proof. apply _. Qed.

(** What the search returns. *)
Definition found_item (found : bool) (pred item : Z) w : Prop :=
  pred_ok pred w /\
  if found then key_at item k w /\ fresh item w
  else can w c /\ (item = 0 \/ exists ki, key_at item ki w /\ k < ki).

#[global] Instance kept_found found pred item : Kept c (found_item found pred item).
Proof. destruct found; apply _. Qed.

Lemma pred_pub w p : pred_ok p w -> p ∈ pub w.
Proof. intros [->|(kp & Hp & _)]; [apply published_cases; by left|by eapply key_pub]. Qed.

(** Reading the link of the predecessor when it is not marked. *)
Lemma read_pred w p kp vp q :
  lInv w -> open w -> pred_ok p w -> holds ll (wmem w) (lL w) (lU w) p kp vp q false -> reached q w.
Proof.
  intros Hw Ho Hp Hh. eapply succ_reached; [done..|]. destruct Hp as [?|(kp' & [Hp _] & ?)]; [by left|right].
  by rewrite (has_key_fun _ _ _ _ _ _ _ (holds_key _ _ _ _ _ _ _ _ _ Hh) Hp).
Qed.

Lemma item_ptr w a ka : lInv w -> key_at a ka w -> node_ptr a.
Proof. intros Hw [[Hp _] _]. eapply published_ptr; [by apply inv_shape|done]. Qed.

Lemma reached_at_end w a : lInv w -> reached a w -> a = 0 \/ node_ptr a.
Proof. intros Hw [[-> _]|(ka & Ha & _)]; [by left|right; by eapply item_ptr]. Qed.

Definition scan_pre pred item next w : Prop := open w /\ pred_ok pred w /\ at_item item next w.

#[global] Instance quiet_scan_pre pred item next : Quiet c (scan_pre pred item next).
Proof. apply _. Qed.

#[global] Instance stable_scan_pre pred item next : Stable c (scan_pre pred item next).
Proof. apply _. Qed.

Definition scan_post pred (s : scan) w : Prop :=
  open w /\ match s with Retry => True | Continue i n => pred_ok pred w /\ live_item i n w end.

(** Going on with [q] after reading its link, or with the end of the list. *)
Lemma t_next (b : bool) F pred q (f : Z -> prog scan) Q :
  Stable c F -> b = negb (q =? 0) ->
  (forall r, triple c (fun w => F w /\ scan_pre pred q r w) (f r) Q) ->
  triple c (fun w => F w /\ open w /\ pred_ok pred w /\ reached q w)
    (bind (if b then load q NEXT else Ret DOES_NOT_EXIST) f) Q.
Proof.
  intros HF -> Hf. destruct (Z.eqb_spec q 0) as [->|Hq]; simpl.
  - eapply rule_conseq; [apply Hf|]. intros w Hw (? & Ho & Hp & Hr). split; [done|]. split; [done|]. split; [done|]. left.
    split; [done|]. split; [done|]. destruct Hr as [[_ ?]|(ka & Ha & _)]; [done|].
    destruct (item_ptr w 0 ka Hw Ha). lia.
  - eapply (t_load _ q NEXT f (fun r w => F w /\ scan_pre pred q r w)); [apply _|unfold NEXT; lia| | |exact Hf].
    + intros w Hw (_ & _ & _ & [[? _]|(ka & Ha & _)]); [done|by eapply key_pub].
    + intros w k0 v q' b r Hw (? & Ho & Hp & [[? _]|(ka & Ha & Hk)]) Hh Er; [done|]. injection Er as <-.
      split; [done|]. split; [done|]. split; [done|]. by eapply read_item.
Qed.

(** A link word that is the address of a node is an unmarked link to it. *)
Lemma link_at_node w a q b : lInv w -> a ∈ pub w -> q = 0 \/ node_ptr q -> link q b = a -> q = a /\ b = false.
Proof.
  intros Hw Ha Hq. assert (a = 0 \/ node_ptr a) as Hp.
  { right. eapply published_ptr; [by apply inv_shape|done]. }
  rewrite <- (link_false a) at 1. by intros ?%link_inj.
Qed.

(** What the attempt to unlink [item] finds in the predecessor's link. *)
Definition scan_cas pred item q (r : Z) w : Prop :=
  open w /\ pred_ok pred w /\
  (r = item /\ duty w !! item = Some c /\ reached q w \/
   r <> item /\ exists q' b, r = link q' b /\ (q' = 0 \/ node_ptr q') /\ (b = false -> reached q' w)).

(** ** Taking effect without a change *)

Definition done_with (r : Z) w : Prop := wres w !! c = Some r.

(** When the key was absent. *)
Lemma commit_can w r :
  lInv w -> open w -> can w c -> (forall M, M !! k = None -> lspec M o = (r, M)) ->
  exists w', lstep c w (wmem w) w' /\ done_with r w'.
Proof.
  intros Hw Ho (o' & E1 & E2 & E & Hs & Hn) Hspec. destruct Hw as [Hl Hi].
  assert (o' = o) as ->.
  { apply (lo_start _ _ _ Hl c); [rewrite E; set_solver|by apply open_start]. }
  destruct (step_silent base ll s0 n0 c o r w E1 E2) as (w' & ? & ? & _); [by split|apply Ho|done|done|by apply Hspec|].
  by exists w'.
Qed.

(** When the node is in the list. *)
Lemma commit_live w a v q r :
  lInv w -> open w -> holds ll (wmem w) (lL w) (lU w) a k v q false -> a <> ll_head ll ->
  (forall M, M !! k = Some v -> lspec M o = (r, M)) -> exists w', lstep c w (wmem w) w' /\ done_with r w'.
Proof.
  intros Hw Ho Hh Hne Hspec. destruct (live_facts base ll s0 n0 w a k v q Hw Hh Hne) as (_ & Hlk & _).
  destruct (step_silent base ll s0 n0 c o r w (wlog w) []) as (w' & ? & ? & _);
    [done|apply Ho|by rewrite app_nil_r|by apply open_start|by apply Hspec|]. by exists w'.
Qed.

Lemma fresh_position w a k0 v d E1 E2 :
  lInv w -> fresh a w -> dead w !! a = Some d -> wlog w = E1 ++ Lin d (LRemove k0) :: E2 ->
  dead_ok s0 w d (LNode a k0 v true) -> Start c o ∈ E1.
Proof.
  intros [Hl _] (_ & _ & Hf) Hd E _. destruct (Hf d Hd) as [k' Hb].
  assert (LRemove k' = LRemove k0) as Ek.
  { eapply (lo_lin_fun lspec s0 w d); [done|by eapply before_r|rewrite E; set_solver]. }
  rewrite Ek in Hb. pose proof (lo_nodup _ _ _ Hl) as Hnd. rewrite E in Hb, Hnd. by eapply before_split.
Qed.

(** When the node is marked and not yet emptied: before its removal. *)
Lemma commit_dead w a v q r :
  lInv w -> open w -> holds ll (wmem w) (lL w) (lU w) a k v q true -> fresh a w -> v <> 0 ->
  (forall M, M !! k = Some v -> lspec M o = (r, M)) -> exists w', lstep c w (wmem w) w' /\ done_with r w'.
Proof.
  intros Hw Ho Hh Hf Hv Hspec. destruct (dead_facts base ll s0 n0 w a k v q Hw Hh) as (_ & d & Hd & Hok).
  pose proof Hok as (E1 & E2 & E & Hval & _). destruct (Hval Hv) as [_ Hlk].
  destruct (step_silent base ll s0 n0 c o r w E1 (Lin d (LRemove k) :: E2)) as (w' & ? & ? & _);
    [done|apply Ho|done|by eapply fresh_position|by apply Hspec|]. by exists w'.
Qed.

(** After its removal the key was absent. *)
Lemma dead_can w a v q :
  lInv w -> open w -> holds ll (wmem w) (lL w) (lU w) a k v q true -> fresh a w -> can w c.
Proof.
  intros Hw Ho Hh Hf. destruct (dead_facts base ll s0 n0 w a k v q Hw Hh) as (_ & d & Hd & Hok).
  pose proof Hok as (E1 & E2 & E & _). exists o, (E1 ++ [Lin d (LRemove k)]), E2.
  rewrite <- app_assoc. split; [done|]. split.
  - apply elem_of_app. left. by eapply fresh_position.
  - rewrite lstate_snoc. simpl. apply lookup_delete_eq.
Qed.

(** A value read from the node is a value the key has had since the call began. *)
Lemma commit_value w a v q b r :
  lInv w -> open w -> key_at a k w -> fresh a w -> holds ll (wmem w) (lL w) (lU w) a k v q b ->
  (forall M, M !! k = Some v -> lspec M o = (r, M)) -> v <> 0 -> exists w', lstep c w (wmem w) w' /\ done_with r w'.
Proof.
  intros Hw Ho (_ & Hne & _) Hf Hh Hspec Hv. destruct b; [by eapply commit_dead|by eapply commit_live].
Qed.

(** A node without value has been removed. *)
Lemma empty_can w a q b :
  lInv w -> open w -> key_at a k w -> fresh a w -> holds ll (wmem w) (lL w) (lU w) a k 0 q b -> can w c.
Proof.
  intros Hw Ho (_ & Hne & _) Hf Hh. destruct b; [by eapply dead_can|].
  destruct (live_facts base ll s0 n0 w a k 0 q Hw Hh Hne) as ([? _] & _). lia.
Qed.

(** Returning for an absent key. *)
Lemma t_absent r : (forall M, M !! k = None -> lspec M o = (r, M)) ->
  triple c (fun w => open w /\ can w c) (Ret r) (fun v w => done_with v w).
Proof.
  intros Hspec. eapply (rule_upd c _ (done_with r)); [apply _| |].
  - intros w Hw [Ho Hc]. by apply commit_can.
  - apply rule_ret; [apply stable_res|done].
Qed.

Context (Hint : ll_key_type ll = None) (Hkw : key_window base k).

Lemma find_pred_marked_triple fuel help pred item next :
  triple c (scan_pre pred item next) (find_pred_marked fuel ll help pred item next) (scan_post pred).
Proof using Hint.
  revert item next. induction fuel as [|fuel IH]; intros item next; [apply t_fuel|]. cbn [find_pred_marked].
  destruct (HAS_MARK next) eqn:Hmark; cbn [negb].
  2: { apply rule_ret; [apply _|]. intros w Hw (Ho & Hp & Hi). split; [done|]. split; [done|].
    destruct Hi as [(-> & -> & ?)|(ka & q & b & Hka & Hc & -> & Hq & Hb)]; [by left|right].
    rewrite HAS_MARK_link in Hmark by done. subst b. rewrite link_false. destruct Hb. by exists ka. }
  apply (rule_conseq c _ (fun w => exists ka q, (next = link q true /\ (q = 0 \/ node_ptr q)) /\
    open w /\ pred_ok pred w /\ key_at item ka w /\ frozen item q w /\ reached q w)).
  2: { intros w Hw (Ho & Hp & Hi).
    destruct Hi as [(-> & -> & ?)|(ka & q & b & Hka & Hc & -> & Hq & Hb)]; [done|].
    rewrite HAS_MARK_link in Hmark by done. subst b. exists ka, q. split; [done|]. split; [done|].
    split; [done|]. split; [done|]. split; [done|]. destruct Hb as (Hs & k0 & v & Hh).
    rewrite (has_key_fun _ _ _ _ _ _ _ (holds_key _ _ _ _ _ _ _ _ _ Hh) (proj1 Hka)) in Hh.
    by eapply frozen_reached. }
  apply rule_exist; intros ka. apply rule_exist; intros q. apply rule_pure. intros [-> Hq].
  rewrite STRIP_MARK_link by done. destruct help; cbn [negb].
  - eapply (t_cas _ pred NEXT item q _ (scan_cas pred item q)); [apply _|unfold NEXT; lia| | | |].
    + intros w Hw (_ & Hp & _). by apply pred_pub.
    + intros w k0 v q' b r Hw (Ho & Hp & Ha & Hf & Hr) Hh Er Hne. injection Er as <-.
      exists w. split; [by apply stay|]. split; [done|]. split; [done|]. right. split; [done|].
      exists q', b. split; [done|]. split; [apply Hh|]. intros ->. by eapply read_pred.
    + intros w k0 v q' b Hw (Ho & Hp & Ha & (Hs & k1 & v1 & Hf) & Hr) Hh Er. injection Er as Er.
      destruct (link_at_node w item q' b Hw (key_pub _ _ _ Ha) (proj2 (proj2 Hh)) Er) as [-> ->].
      destruct (step_unlink base ll s0 n0 c w pred k0 v item k1 v1 q Hw Hh Hf) as (w' & Hst & Hm & Hd & Hq1 & Hq2 & _).
      exists w'. split; [exact Hst|]. split; [by apply (quiet_smooth c open w)|]. split; [by apply (kept_smooth c (pred_ok pred) w)|]. left.
      split; [done|]. split; [done|]. by apply (kept_smooth c (reached q) w).
    + intros r. destruct (Z.eqb_spec r item) as [->|Hne].
      * eapply rule_conseq; [apply (t_next _ (fun w => duty w !! item = Some c) pred q); [apply _|done|]|].
        -- intros r. rewrite Hint. apply t_retire; [apply _..|]. apply IH.
        -- intros w Hw (Ho & Hp & [(_ & Hd & Hr)|[? _]]); done.
      * destruct (HAS_MARK r) eqn:Hr.
        -- apply rule_ret; [apply _|]. intros w Hw (Ho & _). done.
        -- eapply rule_conseq; [apply (t_next _ (fun _ => True) pred (GET_NODE r)); [apply _|done|]|].
           ++ intros r'. apply rule_pure. intros _. apply IH.
           ++ intros w Hw (Ho & Hp & [(? & _)|(_ & q' & b' & -> & Hq' & Hb)]); [done|]. split; [done|].
              split; [done|]. split; [done|]. rewrite HAS_MARK_link in Hr by done. subst b'.
              unfold GET_NODE. rewrite link_false. auto.
  - eapply (t_load _ item NEXT _ (fun r w => r = link q true /\ open w /\ pred_ok pred w /\ reached q w));
      [apply _|unfold NEXT; lia| | |].
    + intros w Hw (_ & _ & Ha & _). by eapply key_pub.
    + intros w k0 v q' b r Hw (Ho & Hp & Ha & (Hs & k1 & v1 & Hf) & Hr) Hh Er. injection Er as <-.
      destruct (holds_fun _ _ _ _ _ _ _ _ _ _ _ _ _ Hf Hh) as (_ & _ & -> & ->). done.
    + intros r. apply rule_pure. intros ->. rewrite STRIP_MARK_link by done.
      destruct (Z.eqb_spec q 0) as [->|Hq0].
      * apply rule_ret; [apply _|]. intros w Hw (Ho & Hp & Hr). split; [done|]. split; [done|]. left.
        split; [done|]. destruct Hr as [[_ ?]|(ka' & Ha & _)]; [done|]. destruct (item_ptr w 0 ka' Hw Ha). lia.
      * eapply rule_conseq;
          [apply (t_next true (fun _ => True) pred q (fun r => find_pred_marked fuel ll false pred q r) (scan_post pred));
             [apply _| |]|done].
        -- by rewrite (proj2 (Z.eqb_neq _ _) Hq0).
        -- intros r. apply rule_pure. intros _. apply IH.
Qed.

Lemma reached_node_key w a : lInv w -> a <> 0 -> reached a w -> exists ka, key_at a ka w /\ (k < ka -> can w c).
Proof. intros _ Hne [[? _]|?]; done. Qed.

Definition loop_post (r : option (bool * Z * Z)) w : Prop :=
  open w /\ match r with None => True | Some (f, p, i) => found_item f p i w end.

Lemma find_pred_loop_triple fuel help pred item :
  triple c (fun w => open w /\ pred_ok pred w /\ reached item w)
    (find_pred_loop fuel ll k help false pred item) loop_post.
Proof using Hint Hkw.
  revert pred item. induction fuel as [|fuel IH]; intros pred item; [apply t_fuel|]. cbn [find_pred_loop].
  destruct (Z.eqb_spec item 0) as [->|Hne].
  { apply rule_ret; [apply _|]. intros w Hw (Ho & Hp & Hr). split; [done|]. split; [done|].
    split; [|by left]. destruct Hr as [[_ ?]|(ka & Ha & _)]; [done|]. destruct (item_ptr w 0 ka Hw Ha). lia. }
  eapply (t_load _ item NEXT _ (scan_pre pred item)); [apply _|unfold NEXT; lia| | |].
  { intros w Hw (_ & _ & Hr). destruct (reached_node_key w item Hw Hne Hr) as (ka & Ha & _). by eapply key_pub. }
  { intros w k0 v q b r Hw (Ho & Hp & Hr) Hh Er. injection Er as <-.
    destruct (reached_node_key w item Hw Hne Hr) as (ka & Ha & ?).
    split; [done|]. split; [done|]. by eapply read_item. }
  intros next. eapply rule_bind; [apply find_pred_marked_triple|]. intros [|i n].
  { apply rule_ret; [apply _|]. by intros w _ [? _]. }
  destruct (Z.eqb_spec i 0) as [->|Hi].
  { apply rule_ret; [apply _|]. intros w Hw (Ho & Hp & Hr). split; [done|]. split; [done|].
    split; [|by left]. destruct Hr as [[_ ?]|(ka & Ha & _)]; [done|]. destruct (item_ptr w 0 ka Hw Ha). lia. }
  eapply (t_load _ i KEY _ (fun r w => key_window base r /\ open w /\ pred_ok pred w /\ key_at i r w /\
      (k < r -> can w c) /\ fresh i w /\ (r < k -> reached n w))); [apply _|unfold KEY; lia| | |].
  { intros w Hw (_ & _ & [[? _]|(ka & Ha & _)]); [done|]. by eapply key_pub. }
  { intros w k0 v q b r Hw (Ho & Hp & [[? _]|(ka & Ha & Hc & Hf & Hn)]) Hh Er; [done|]. injection Er as <-.
    destruct (Ha) as (Hk & Hhd & _). pose proof (has_key_fun _ _ _ _ _ _ _ Hk (holds_key _ _ _ _ _ _ _ _ _ Hh)) as <-.
    split; [by eapply (has_key_window base ll), Hhd; [apply inv_shape|]|]. done. }
  intros r. apply rule_pure. intros Hrw. unfold key_diff. rewrite Hint.
  change (bind (Ret ?x) ?f) with (f x). cbv beta. rewrite (window_diff base) by done.
  destruct (Z.leb_spec 0 (r - k)) as [Hle|Hlt].
  - apply rule_ret; [apply _|]. intros w Hw (Ho & Hp & Ha & Hc & Hf & Hn). split; [done|]. split; [done|].
    destruct (Z.eqb_spec (r - k) 0) as [E|E].
    + assert (r = k) as -> by lia. done.
    + split; [apply Hc; lia|]. right. exists r. split; [done|lia].
  - eapply rule_conseq; [apply IH|]. intros w Hw (Ho & Hp & Ha & Hc & Hf & Hn). split; [done|].
    split; [right; exists r; split; [done|lia]|]. apply Hn. lia.
Qed.

Lemma find_pred_triple fuel help :
  triple c open (find_pred fuel ll k help false) (fun r w => open w /\ found_item r.1.1 r.1.2 r.2 w).
Proof using Hint Hkw.
  unfold find_pred. generalize fuel at 1. intros tries. induction tries as [|tries IH]; [apply t_fuel|].
  cbn [find_pred_retry].
  eapply (t_load _ (ll_head ll) NEXT _ (fun r w => open w /\ pred_ok (ll_head ll) w /\ reached r w));
    [apply _|unfold NEXT; lia| | |].
  - intros w _ _. apply published_cases. by left.
  - intros w k0 v q b r Hw Ho Hh Er. injection Er as <-.
    destruct b; [by destruct (dead_facts base ll s0 n0 w _ _ _ _ Hw Hh) as [? _]|].
    rewrite link_false. split; [done|]. assert (pred_ok (ll_head ll) w) by (by left).
    split; [done|]. by eapply read_pred.
  - intros r. eapply rule_bind; [apply find_pred_loop_triple|]. intros [[[f p] i]|].
    + apply rule_ret; [apply _|]. by intros w _ ?.
    + eapply rule_conseq; [apply IH|]. by intros w _ [? _].
Qed.
End call.

(** * The calls *)

Section calls.
Context (Hint : ll_key_type ll = None) (g : nat) (key : Z) (Hkw : key_window base key).
Abbreviation ends := (fun (v : Z) w => done_with v w).

Lemma holds_of_key w a k0 v q b : key_at a key w -> holds ll (wmem w) (lL w) (lU w) a k0 v q b -> k0 = key.
Proof. intros [Hk _] Hh. by eapply has_key_fun; [eapply holds_key|]. Qed.

Lemma ll_lookup_triple fuel : triple c (open (LLookup key) g) (ll_lookup fuel ll key) ends.
Proof using Hint Hkw.
  eapply rule_bind; [by apply (find_pred_triple (LLookup key) g Hint)|]. intros [[found pred] item]. simpl.
  destruct found.
  - eapply (t_load_step _ item VAL _ (fun r w => done_with r w)); [apply _|unfold VAL; lia| | |].
    + intros w Hw (_ & _ & Ha & _). by eapply key_pub.
    + intros w k0 v q b r Hw (Ho & _ & Ha & Hf) Hh Er. injection Er as <-. cbn in Ha.
      pose proof (holds_of_key w item k0 v q b Ha Hh) as ->. destruct (Z.eq_dec v 0) as [->|Hv].
      * apply (commit_can (LLookup key) g); [done|done|by eapply (empty_can (LLookup key) g)|]. intros M HM. simpl in *. unfold lookup_spec. by rewrite HM.
      * eapply (commit_value (LLookup key) g); [done..| |done]. intros M HM. simpl in *. unfold lookup_spec. by rewrite HM.
    + intros r. destruct (Z.eqb_spec r DOES_NOT_EXIST) as [->|]; (apply rule_ret; [apply stable_res|done]).
  - eapply rule_conseq; [apply (t_absent (LLookup key) g DOES_NOT_EXIST)|].
    + intros M HM. simpl in *. unfold lookup_spec. by rewrite HM.
    + intros w Hw (Ho & _ & Hc & _). done.
Qed.

(** ** Removal *)

(** The link of the node to remove was read as [next]. *)
Definition remove_pre pred item next w : Prop :=
  open (LRemove key) g w /\ pred_ok (LRemove key) pred w /\ key_at item key w /\ fresh (LRemove key) item w /\
  exists q b, next = link q b /\ (q = 0 \/ node_ptr q) /\ (b = true -> frozen item q w).

(** The node is marked by the call, which has not yet taken its value. *)
Definition marked_by pred item q w : Prop :=
  pred_ok (LRemove key) pred w /\ marker item c w /\ wres w !! c = None /\ frozen item q w.

#[local] Instance stable_remove_pre pred item next : Stable c (remove_pre pred item next).
Proof. apply _. Qed.

Lemma remove_absent M r : M !! key = None -> r = DOES_NOT_EXIST -> lspec M (LRemove key) = (r, M).
Proof. intros HM ->. simpl. unfold remove_spec, lookup_spec. by rewrite HM, delete_id. Qed.

Definition mark_post pred item (r : option Z) w : Prop :=
  match r with None => done_with DOES_NOT_EXIST w | Some next => marked_by pred item next w end.

Definition mark_cas pred item next (r : Z) w : Prop :=
  HAS_MARK r = true /\ done_with DOES_NOT_EXIST w \/
  HAS_MARK r = false /\ (r = next /\ marked_by pred item next w \/ r <> next /\ remove_pre pred item r w).

(** The swap of the link word by its marked version. *)
Lemma mark_cas_ok w pred item q b0 k0 v q' b :
  lInv w -> remove_pre pred item (link q b0) w -> q = 0 \/ node_ptr q ->
  holds ll (wmem w) (lL w) (lU w) item k0 v q' b -> link q' b = link q b0 ->
  exists w', lstep c w (set_heap (wmem w) (<[item := [k0; v; link q true]]> (heap (wmem w)))) w' /\
    mark_cas pred item (link q b0) (link q b0) w'.
Proof.
  intros Hw (Ho & Hpd & Ha & Hf & _) Hq Hh Er. pose proof Hh as (Hpub & Hl & Hq').
  apply link_inj in Er as [-> ->]; [|done..].
  pose proof (holds_of_key w item k0 v q b0 Ha Hh) as ->. unfold mark_cas. rewrite HAS_MARK_link by done.
  destruct b0.
  - destruct (commit_can (LRemove key) g w DOES_NOT_EXIST) as (w' & Hst & Hd); [done|done| | |].
    + by eapply (dead_can (LRemove key) g).
    + intros M HM. by apply remove_absent.
    + exists w'. rewrite insert_id, set_heap_same by done. split; [done|]. by left.
  - destruct Ho as (Hp & Hr & Hg). pose proof Ha as (_ & Hne & Hs).
    destruct (step_mark base ll s0 n0 c key w item v q) as (w' & Hst & Hm & Hr' & Hd); [done..|].
    exists w'. split; [exact Hst|]. right. split; [done|]. left. split; [done|].
    split; [by apply (kept_smooth c (pred_ok (LRemove key) pred) w)|].
    pose proof (sm_since _ _ _ _ Hm _ _ Hs) as Hs'. split; [done|]. split; [done|].
    destruct (sm_grows _ _ _ _ Hm _ _ _ _ _ Hh) as (v' & q2 & b2 & Hh' & _).
    pose proof (st_mem _ _ _ _ _ _ _ _ Hst) as Em. rewrite link_false. split; [done|]. exists key, v.
    destruct Hh' as (Hp' & Hl' & _). split; [done|]. split; [|done]. rewrite Em. simpl. by rewrite lookup_insert_eq.
Qed.

Lemma ll_remove_mark_triple fuel pred item next :
  triple c (remove_pre pred item next) (ll_remove_mark fuel item next) (mark_post pred item).
Proof.
  revert next. induction fuel as [|fuel IH]; intros next; [apply t_fuel|]. cbn [ll_remove_mark].
  apply (rule_conseq c _ (fun w => exists q b, (next = link q b /\ (q = 0 \/ node_ptr q)) /\ remove_pre pred item next w)).
  2: { intros w Hw Hp. pose proof Hp as (_ & _ & _ & _ & q & b & -> & Hq & _). by exists q, b. }
  apply rule_exist; intros q. apply rule_exist; intros b0. apply rule_pure. intros [-> Hq].
  rewrite STRIP_MARK_link, MARK_NODE_ptr by done.
  eapply (t_cas _ item NEXT _ _ _ (mark_cas pred item (link q b0))); [apply _|unfold NEXT; lia| | | |].
  - intros w Hw (_ & _ & Ha & _). by eapply key_pub.
  - intros w k0 v q' b r Hw Hpre Hh Er Hne. pose proof Hpre as (Ho & Hpd & Ha & Hf & _). injection Er as <-.
    pose proof Hh as (_ & _ & Hq'). pose proof (holds_of_key w item k0 v q' b Ha Hh) as ->.
    unfold mark_cas. rewrite HAS_MARK_link by done. destruct b.
    + destruct (commit_can (LRemove key) g w DOES_NOT_EXIST) as (w' & Hst & Hd); [done|done| | |].
      * by eapply (dead_can (LRemove key) g).
      * intros M HM. by apply remove_absent.
      * exists w'. split; [done|]. by left.
    + exists w. split; [by apply stay|]. right. split; [done|]. right. split; [done|]. split; [done|].
      split; [done|]. split; [done|]. split; [done|]. by exists q', false.
  - intros w k0 v q' b Hw Hpre Hh Er. injection Er as Er. by eapply mark_cas_ok.
  - intros r. destruct (HAS_MARK r) eqn:Hm.
    + apply rule_ret; [apply _|]. unfold mark_cas. rewrite Hm. by intros w _ [[_ ?]|[? _]].
    + destruct (Z.eqb_spec (link q b0) r) as [<-|Hne]; cbn [negb].
      * apply rule_ret; [apply _|]. unfold mark_cas. rewrite Hm. by intros w _ [[? _]|[_ [[_ ?]|[? _]]]].
      * eapply rule_conseq; [apply IH|]. unfold mark_cas. rewrite Hm. by intros w _ [[? _]|[_ [[? _]|[_ ?]]]].
Qed.

Lemma ll_remove_triple fuel : triple c (open (LRemove key) g) (ll_remove fuel ll key) ends.
Proof using Hint Hkw.
  set (o := LRemove key). eapply rule_bind; [by apply (find_pred_triple o g Hint)|]. intros [[found pred] item]. simpl.
  destruct found; cbn [negb].
  2: { eapply rule_conseq; [apply (t_absent o g DOES_NOT_EXIST)|].
    - intros M HM. by apply remove_absent.
    - by intros w Hw (Ho & _ & Hc & _). }
  eapply (t_load _ item NEXT _ (remove_pre pred item)); [apply _|unfold NEXT; lia| | |].
  { intros w Hw (_ & _ & Ha & _). by eapply key_pub. }
  { intros w k0 v q b r Hw (Ho & Hp & Ha & Hf) Hh Er. injection Er as <-. split; [done|].
    split; [done|]. split; [done|]. split; [done|]. exists q, b. split; [done|]. split; [apply Hh|].
    intros ->. split; [apply Ha|]. by exists k0, v. }
  intros next. eapply rule_bind; [apply ll_remove_mark_triple|].
  intros [q|].
  2: { apply rule_ret; [apply _|]. by intros w _ ?. }
  eapply (t_load _ item NEXT _ (fun r w => HAS_MARK r = true /\ marked_by pred item q w));
    [apply _|unfold NEXT; lia| | |].
  { intros w Hw (_ & _ & _ & _ & k0 & v & Hh & _). apply Hh. }
  { intros w k0 v q' b r Hw Hmk Hh Er. pose proof Hmk as (_ & _ & _ & _ & k1 & v1 & Hf). injection Er as <-.
    destruct (holds_fun _ _ _ _ _ _ _ _ _ _ _ _ _ Hf Hh) as (_ & _ & -> & ->).
    rewrite HAS_MARK_link by apply Hh. done. }
  intros r. apply rule_pure. intros ->. unfold assert. change (bind (Ret ?x) ?f) with (f x). cbv beta.
  eapply (t_rmw _ item VAL _ _ (fun r w => pred_ok o pred w /\ done_with r w /\ frozen item q w));
    [apply _|unfold VAL; lia| | |].
  { intros w Hw (_ & _ & _ & _ & k0 & v & Hh & _). apply Hh. }
  { intros w k0 v q' b r' Hw (Hp & [_ Hd] & Hr & Hfz) Hh Er. injection Er as <-. pose proof Hfz as (_ & k1 & v1 & Hf).
    destruct (holds_fun _ _ _ _ _ _ _ _ _ _ _ _ _ Hf Hh) as (_ & _ & -> & ->).
    destruct (step_swap base ll s0 n0 c k0 w item v q Hw Hd Hr Hh) as (w' & Hst & Hm & Hr').
    exists w'. split; [exact Hst|]. split; [by apply (kept_smooth c (pred_ok o pred) w)|]. split; [done|].
    by apply (kept_smooth c (frozen item q) w). }
  intros val.
  eapply (t_cas _ pred NEXT item q _ (fun r w => done_with val w /\ (r = item -> duty w !! item = Some c)));
    [apply _|unfold NEXT; lia| | | |].
  { intros w Hw (Hp & _). by eapply pred_pub. }
  { intros w k0 v q' b r' Hw (Hp & Hd & Hf) Hh Er Hne. exists w. split; [by apply stay|]. done. }
  { intros w k0 v q' b Hw (Hp & Hd & (_ & k1 & v1 & Hf)) Hh Er. injection Er as Er.
    destruct (link_at_node w item q' b Hw (proj1 Hf) (proj2 (proj2 Hh)) Er) as [-> ->].
    destruct (step_unlink base ll s0 n0 c w pred k0 v item k1 v1 q Hw Hh Hf) as (w' & Hst & Hm & Hdu & Hq & _).
    exists w'. split; [exact Hst|]. split; [|done]. unfold done_with. by rewrite Hq. }
  intros r'. destruct (Z.eqb_spec r' item) as [->|Hne]; cbn [negb].
  - rewrite Hint. change (bind (Ret ?x) ?f) with (f x). cbv beta.
    eapply rule_conseq; [apply (t_retire (fun w => done_with val w))|]; [apply quiet_res|apply stable_res| |].
    + apply rule_ret; [apply stable_res|done].
    + intros w Hw [Hd Hdu]. auto.
  - apply rule_ret; [apply _|]. by intros w _ [? _].
Qed.

(** ** Insertion and update *)

(** The call's unpublished node. *)
Definition own_block a (b : list Z) w : Prop := priv w !! c = Some a /\ heap (wmem w) !! a = Some b.

Section own_block.
Context {A : Type} (F : lworld -> Prop) {HQ : Quiet c F} {HS : Stable c F}.
Implicit Types (f : Z -> prog A) (Q : A -> lworld -> Prop).

#[local] Instance stable_own a b : Stable c (own_block a b).
Proof. apply stable_priv. Qed.

Lemma t_malloc f Q :
  (forall a x y z, node_ptr a -> triple c (fun w => own_block a [x; y; z] w /\ F w) (f a) Q) ->
  triple c F (bind (malloc 3) f) Q.
Proof using HQ HS.
  intros Hf. apply (t_act _ _ _ _ c F (Malloc 3) _
    (fun a w => exists x y z, node_ptr a /\ own_block a [x; y; z] w /\ F w)); [done| |].
  - intros w Hw HF. unfold does. simpl. destruct (alloc (heap (wmem w)) 3) as [a|] eqn:Ea; [|done].
    pose proof (alloc_fresh _ _ _ Ea) as Hfr. pose proof (alloc_node_ptr _ _ _ Ea) as Hptr.
    pose proof (junk_length (heap (wmem w)) 3) as Hlen.
    destruct (junk (heap (wmem w)) 3) as [|x [|y [|z [|]]]]; try done.
    destruct (step_ours base ll s0 n0 c w (set_heap (wmem w) (<[a := [x; y; z]]> (heap (wmem w)))) (<[c := a]> (priv w)))
      as [Hst Hm]; [done| |done| | |].
    + intros a' Ho. simpl. apply lookup_insert_ne. intros <-. by apply Ho, (ours_fresh base ll s0 n0).
    + intros d Hd. by apply lookup_insert_ne.
    + intros a'. rewrite lookup_insert_eq. intros [= <-]. split; [by apply (ours_fresh base ll s0 n0)|].
      split; [done|]. simpl. rewrite lookup_insert_eq. eauto.
    + eexists. split; [exact Hst|]. exists x, y, z. split; [done|]. split; [|by apply (quiet_smooth c F w)].
      split; apply lookup_insert_eq.
  - intros a. do 3 (apply rule_exist; intros ?). apply rule_pure. intros ?. by apply Hf.
Qed.

(** Writing and freeing it. *)
Lemma step_own a x y z m' w (pr' : gmap nat Z) :
  lInv w -> own_block a [x; y; z] w -> (forall a', a' <> a -> heap m' !! a' = heap (wmem w) !! a') ->
  deferred m' = deferred (wmem w) -> (forall d, d <> c -> pr' !! d = priv w !! d) ->
  (forall a', pr' !! c = Some a' -> a' = a /\ exists x y z, heap m' !! a = Some [x; y; z]) ->
  F w -> exists w', lstep c w m' w' /\ priv w' = pr' /\ F w'.
Proof using HQ HS.
  intros Hw [Hp Hb] Hh Hd Hpr Ha HF. destruct (Hw) as [_ [_ _ _ _ [Hpb _] _]].
  destruct (Hpb _ _ Hp) as (_ & _ & Hptr & _).
  destruct (step_ours base ll s0 n0 c w m' pr') as [Hst Hm]; [done| |done|done| |].
  - intros a' Ho. apply Hh. intros ->. by apply Ho, (ours_priv base ll s0 n0).
  - intros a' Ha'. destruct (Ha a' Ha') as [-> ?]. by split; [apply (ours_priv base ll s0 n0)|].
  - eexists. split; [exact Hst|]. split; [done|]. by apply (quiet_smooth c F w).
Qed.

Lemma t_store a (i : nat) v x y z f Q :
  (i < 3)%nat -> triple c (fun w => own_block a (<[i := v]> [x; y; z]) w /\ F w) (f 0) Q ->
  triple c (fun w => own_block a [x; y; z] w /\ F w) (bind (store a i v) f) Q.
Proof using HQ HS.
  intros Hi Hf. apply (t_act _ _ _ _ c _ (Store a i v) _
    (fun r w => r = 0 /\ own_block a (<[i := v]> [x; y; z]) w /\ F w)); [apply _| |].
  - intros w Hw [Ho HF]. pose proof Ho as [Hp Hb]. unfold does. simpl. rewrite Hb, decide_True by (simpl; lia).
    destruct (step_own a x y z (set_heap (wmem w) (<[a := <[i := v]> [x; y; z]]> (heap (wmem w)))) w (priv w))
      as (w' & Hst & Epr & HF'); [done|done| |done|done| |done|].
    + intros a' Hne. by apply lookup_insert_ne.
    + intros a' Ha'. rewrite Hp in Ha'. injection Ha' as <-. split; [done|]. simpl. rewrite lookup_insert_eq.
      destruct i as [|[|[|]]]; simpl; eauto.
    + exists w'. split; [exact Hst|]. split; [done|]. split; [|done]. split; [by rewrite Epr|].
      rewrite (st_mem _ _ _ _ _ _ _ _ Hst). apply lookup_insert_eq.
  - intros r. apply rule_pure. by intros ->.
Qed.

Lemma t_free a x y z f Q :
  triple c F (f 0) Q -> triple c (fun w => own_block a [x; y; z] w /\ F w) (bind (nbd_free a) f) Q.
Proof using HQ HS.
  intros Hf. apply (t_act _ _ _ _ c _ (Free a) _ (fun r w => r = 0 /\ F w)); [apply _| |].
  - intros w Hw [Ho HF]. pose proof Ho as [Hp Hb]. unfold does. simpl. rewrite Hb.
    destruct (step_own a x y z (set_heap (wmem w) (delete a (heap (wmem w)))) w (delete c (priv w)))
      as (w' & Hst & Epr & HF'); [done|done| |done| | |done|].
    + intros a' Hne. by apply lookup_delete_ne.
    + intros d Hd. by apply lookup_delete_ne.
    + intros a'. by rewrite lookup_delete_eq.
    + by exists w'.
  - intros r. apply rule_pure. by intros ->.
Qed.
End own_block.

Section cas.
Context (e new_val : Z) (Hv : 0 < new_val < 2 ^ 63).
Abbreviation o := (LCas key e new_val).

(** The node's value was read as [v]: a call that expects no value has its result. *)
Definition update_pre item v w : Prop :=
  (e = CAS_EXPECT_DOES_NOT_EXIST /\ v <> 0) /\ done_with v w \/
  (e <> CAS_EXPECT_DOES_NOT_EXIST \/ v = 0) /\ open o g w /\ key_at item key w /\ fresh o item w.

Definition update_post (r : option Z) w : Prop :=
  match r with None => open o g w | Some v => done_with v w end.

#[local] Instance stable_update_pre item v : Stable c (update_pre item v).
Proof. apply _. Qed.

Lemma present_result v M : e = CAS_EXPECT_DOES_NOT_EXIST -> M !! key = Some v -> lspec M o = (v, M).
Proof. intros -> HM. simpl. unfold loose_cas_spec. by rewrite HM. Qed.

(** The swap of the value read by the new one. *)
Lemma update_ok w item k0 v q b :
  lInv w -> e <> CAS_EXPECT_DOES_NOT_EXIST -> v <> 0 -> open o g w -> key_at item key w -> fresh o item w ->
  holds ll (wmem w) (lL w) (lU w) item k0 v q b ->
  exists w', lstep c w (set_heap (wmem w) (<[item := [k0; new_val; link q b]]> (heap (wmem w)))) w' /\
    done_with v w'.
Proof using Hint Hkw Hv.
  intros Hw He Hne (Hp & Hr & _) Ha Hf Hh. pose proof (holds_of_key w item k0 v q b Ha Hh) as ->.
  destruct Ha as (_ & Hhd & _). destruct b.
  - destruct (dead_facts base ll s0 n0 w item key v q Hw Hh) as (_ & d & Hd & _).
    destruct Hf as (_ & _ & Hf). destruct (Hf d Hd) as [k' Hb].
    destruct (mk_mark _ _ (li_marks _ _ _ _ _ (proj2 Hw)) (LNode item key v true)) as (d' & Hd' & E1 & E2 & E & _); [|done|].
    { by eapply in_nodes; [apply inv_shape|..]. }
    assert (d' = d) as -> by (cbn in Hd'; congruence).
    assert (LRemove k' = LRemove key) as Ek.
    { eapply (lo_lin_fun lspec s0 w d); [apply Hw|by eapply before_r|rewrite E; set_solver]. }
    rewrite Ek in Hb.
    destruct (step_update_dead base ll s0 n0 c key e new_val w item v q d) as (w' & Hst & _ & Hd2); [done..|].
    exists w'. split; [exact Hst|done].
  - destruct (step_update_live base ll s0 n0 c key e new_val w item v q) as (w' & Hst & _ & Hd2); [done..|].
    exists w'. split; [exact Hst|done].
Qed.

Definition update_cas item v (r : Z) w : Prop :=
  r = v /\ done_with v w \/ r <> v /\ open o g w /\ key_at item key w /\ fresh o item w.

Lemma ll_cas_update_triple fuel item v :
  triple c (update_pre item v) (ll_cas_update fuel e new_val item v) update_post.
Proof using Hint Hkw Hv.
  revert v. induction fuel as [|fuel IH]; intros v; [apply t_fuel|]. cbn [ll_cas_update].
  destruct (Z.eqb_spec v DOES_NOT_EXIST) as [->|Hne].
  { apply rule_ret; [apply _|]. by intros w _ [[[_ ?] _]|(_ & ? & _)]. }
  destruct (Z.eqb_spec e CAS_EXPECT_DOES_NOT_EXIST) as [He|He].
  { apply rule_ret; [apply _|]. by intros w _ [[_ ?]|[[?|?] _]]. }
  apply (rule_conseq c _ (fun w => open o g w /\ key_at item key w /\ fresh o item w)).
  2: { by intros w _ [[[? _] _]|[_ ?]]. }
  eapply (t_cas _ item VAL v new_val _ (update_cas item v)); [apply _|unfold VAL; lia| | | |].
  - intros w Hw (_ & Ha & _). by eapply key_pub.
  - intros w k0 v' q b r Hw HP Hh Er Hr. exists w. split; [by apply stay|]. by right.
  - intros w k0 v' q b Hw (Ho & Ha & Hf) Hh Er. injection Er as ->.
    destruct (update_ok w item k0 v q b) as (w' & Hst & Hd); [done..|]. exists w'. split; [exact Hst|]. by left.
  - intros r. destruct (Z.eqb_spec r v) as [->|Hr].
    + apply rule_ret; [apply _|]. by intros w _ [[_ ?]|[? _]].
    + eapply rule_conseq; [apply IH|]. intros w _ [[? _]|[_ ?]]; [done|]. right. split; [by left|done].
Qed.

(** The swap of the predecessor's link by the new node. *)
Lemma link_ok w pred old a k0 v q b :
  lInv w -> e = CAS_EXPECT_DOES_NOT_EXIST \/ e = CAS_EXPECT_WHATEVER ->
  own_block a [key; new_val; old] w -> open o g w -> found_item o false pred old w ->
  holds ll (wmem w) (lL w) (lU w) pred k0 v q b -> link q b = old ->
  exists w', lstep c w (set_heap (wmem w) (<[pred := [k0; v; a]]> (heap (wmem w)))) w' /\ done_with 0 w'.
Proof using Hint Hkw Hv.
  intros Hw He [Hpr Hb] (Hp & _) (Hpred & _ & Hold) Hh El.
  assert (q = old /\ b = false) as [-> ->].
  { rewrite <- (link_false old) in El. apply link_inj in El; [done|apply Hh|].
    destruct Hold as [->|(ki & Ha & _)]; [by left|right; by eapply item_ptr]. }
  destruct (step_link base ll s0 n0 c key e new_val w pred k0 v old a) as (w' & Hst & _ & Hd); try done.
  - destruct Hpred as [?|(kp & [Hk _] & ?)]; [by left|right].
    by rewrite (has_key_fun _ _ _ _ _ _ _ (holds_key _ _ _ _ _ _ _ _ _ Hh) Hk).
  - destruct Hold as [->|(ki & [Ha _] & ?)]; [by left|right]. by exists ki.
  - by exists w'.
Qed.

Definition link_cas a old (r : Z) w : Prop :=
  r = old /\ done_with 0 w \/ r <> old /\ own_block a [key; new_val; old] w /\ open o g w.

(** A new node is written and linked, or given back. *)
Lemma insert_triple pred old (again : prog Z) :
  e = CAS_EXPECT_DOES_NOT_EXIST \/ e = CAS_EXPECT_WHATEVER -> triple c (open o g) again ends ->
  triple c (fun w => open o g w /\ found_item o false pred old w)
    (new_item ⇐ node_alloc key new_val;
     _ ⇐ store new_item NEXT old;
     other ⇐ SYNC_CAS pred NEXT old new_item;
     if other =? old then Ret DOES_NOT_EXIST
     else _ ⇐ Ret 0; _ ⇐ nbd_free new_item; again) ends.
Proof using Hint Hkw Hv.
  intros He Hag. set (F := fun w => open o g w /\ found_item o false pred old w).
  eapply (rule_bind c _ _ _ (fun a w => exists z, own_block a [key; new_val; z] w /\ F w)).
  { unfold node_alloc. apply (t_malloc F). intros a x y z Hptr.
    rewrite HAS_MARK_ptr by auto. cbn [negb]. unfold assert. change (bind (Ret ?x) ?f) with (f x). cbv beta.
    apply (t_store F a KEY); [unfold KEY; lia|]. apply (t_store F a VAL); [unfold VAL; lia|].
    apply rule_ret; [apply _|]. intros w _ ?. by exists z. }
  intros a. apply rule_exist. intros z. apply (t_store F a NEXT); [unfold NEXT; lia|].
  eapply (t_cas _ pred NEXT old a _ (link_cas a old)); [apply _|unfold NEXT; lia| | | |].
  - intros w Hw (_ & _ & Hp & _). by eapply pred_pub.
  - intros w k0 v q b r Hw (Hb & Ho & _) Hh Er Hne. exists w. split; [by apply stay|]. by right.
  - intros w k0 v q b Hw (Hb & Ho & Hf) Hh Er. injection Er as Er.
    destruct (link_ok w pred old a k0 v q b) as (w' & Hst & Hd); [done..|]. exists w'. split; [exact Hst|]. by left.
  - intros r. destruct (Z.eqb_spec r old) as [->|Hne].
    + apply rule_ret; [apply _|]. by intros w _ [[_ ?]|[? _]].
    + change (bind (Ret ?x) ?f) with (f x). cbv beta.
      eapply rule_conseq; [by apply (t_free (open o g))|]. by intros w _ [[? _]|[_ ?]].
Qed.

Lemma ll_cas_triple fuel : triple c (open o g) (ll_cas fuel ll key e new_val) ends.
Proof using Hint Hkw Hv.
  unfold ll_cas. rewrite s64_small by lia. rewrite (proj2 (Z.ltb_lt 0 new_val)) by lia.
  unfold assert. change (bind (Ret ?x) ?f) with (f x). cbv beta. generalize fuel at 1. intros tries.
  induction tries as [|tries IH]; [apply t_fuel|]. cbn [ll_cas_retry].
  eapply rule_bind; [by apply (find_pred_triple o g Hint)|]. intros [[found pred] old]. cbn [fst snd].
  destruct found; cbn [negb].
  - eapply (t_load_step _ old VAL _ (update_pre old)); [apply _|unfold VAL; lia| | |].
    + intros w Hw (_ & _ & Ha & _). by eapply key_pub.
    + intros w k0 v q b r Hw (Ho & _ & Ha & Hf) Hh Er. injection Er as <-. cbn in Ha.
      pose proof (holds_of_key w old k0 v q b Ha Hh) as ->.
      destruct (Z.eq_dec e CAS_EXPECT_DOES_NOT_EXIST) as [He|He], (Z.eq_dec v 0) as [Hz|Hz];
        try (exists w; split; [by apply stay|]; right; split; [by auto|done]).
      destruct (commit_value o g w old v q b v) as (w' & Hst & Hd); try done.
      { intros M HM. by apply present_result. }
      exists w'. split; [done|]. by left.
    + intros v. eapply rule_bind; [apply ll_cas_update_triple|]. intros [r|]; [|exact IH].
      apply rule_ret; [apply stable_res|done].
  - destruct (negb (e =? CAS_EXPECT_DOES_NOT_EXIST) && negb (e =? CAS_EXPECT_WHATEVER)) eqn:Ee.
    + eapply rule_conseq; [apply (t_absent o g DOES_NOT_EXIST)|].
      * intros M HM. simpl in HM |- *. unfold loose_cas_spec. rewrite HM, <- negb_orb in *.
        apply negb_true_iff in Ee. by rewrite Ee.
      * by intros w Hw (Ho & _ & Hc & _).
    + rewrite Hint. change (bind (Ret key) ?f) with (f key). cbv beta. apply insert_triple; [|exact IH].
      apply andb_false_iff in Ee as [Ee|Ee]; apply negb_false_iff, Z.eqb_eq in Ee; [by left|by right].
Qed.
End cas.
End calls.

End one.

(** * Calls begin, and the list they begin with *)

(** The proof state once the call [c] has begun. *)
Definition begun c o w : lworld :=
  World (wmem w) (wlog w ++ [Start c o]) (wres w) (<[c := length (deferred (wmem w))]> (wborn w)) (wfreed w)
    (Ghost (lL w) (lU w) (gcount (wext w)) (garbage w) (dead w) (<[c := total w]> (gone w)) (priv w) (duty w)).

Lemma begun_log_ok c o w : log_ok lspec s0 w -> (forall o', Start c o' ∉ wlog w) -> log_ok lspec s0 (begun c o w).
Proof.
  intros [H1 H2 H3 H4] Hf. split; simpl.
  - apply NoDup_app. split; [done|]. split; [|apply NoDup_singleton].
    intros e He ->%list_elem_of_singleton. by apply (Hf o).
  - intros d o1 o2. rewrite !elem_of_app, !list_elem_of_singleton.
    intros [?|[= -> ->]] [?|E]; [by eapply H2|injection E as -> ->; by destruct (Hf o1)|by destruct (Hf o2)|].
    by injection E as ->.
  - intros d od Hd. apply elem_of_app in Hd as [Hd|Hd%list_elem_of_singleton]; [|done].
    eapply before_sublist; [by apply H3|]. by apply sublist_inserts_r.
  - intros d r (od & E1 & E2 & -> & ?)%H4. exists od, E1, (E2 ++ [Start c o]). by rewrite <- app_assoc.
Qed.

Lemma begun_can c o w d : can w d -> can (begun c o w) d.
Proof.
  intros (od & E1 & E2 & E & ?). exists od, E1, (E2 ++ [Start c o]). simpl. by rewrite E, <- app_assoc.
Qed.

Lemma begun_smooth c o w : gone w !! c = None -> smooth w (begun c o w).
Proof.
  intros Hg. split; [apply grows_refl| |intros d; apply begun_can|by left|by apply insert_subseteq|].
  - intros d a (g & Hd & Ha). exists g. split; [|done]. change (<[c := total w]> (gone w) !! d = Some g).
    rewrite lookup_insert_ne; congruence.
  - by apply sublist_inserts_r.
Qed.

Lemma begun_hindsight c o w : hindsight ll s0 w -> hindsight ll s0 (begun c o w).
Proof.
  intros [H1 H2 H3]. assert (forall d g, gone (begun c o w) !! d = Some g -> d = c /\ g = total w \/ d <> c /\ gone w !! d = Some g) as Hg.
  { intros d g [[<- <-]|[? ?]]%(lookup_insert_Some (gone w)); [by left|right; by split; [congruence|]]. }
  split.
  - intros d od g u Hd' [[-> ->]|[Hne Hgd]]%Hg Hu Hk Habv.
    + change (total (begun c o w)) with (total w) in Hu. rewrite Nat.sub_diag in Hu. by apply not_elem_of_nil in Hu.
    + simpl in Hd'. apply elem_of_app in Hd' as [Hd'|Hd'%list_elem_of_singleton]; [|congruence].
      apply begun_can. by eapply H1.
  - intros d g [[-> ->]|[_ Hgd]]%Hg; [done|]. by eapply H2.
  - intros d g [[-> ->]|[_ Hgd]]%Hg; simpl; [exists o; set_solver|]. destruct (H3 _ _ Hgd) as [od ?]. exists od. set_solver.
Qed.

Lemma begun_retired c o w : retired ll n0 w -> retired ll n0 (begun c o w).
Proof.
  intros [H1 H2 H3 H4 H5 H6 H7]. split; [done|done| | |done..].
  - intros d b g j a Hb Hg. change (<[c := total w]> (gone w) !! d = Some g) in Hg.
    change (<[c := length (deferred (wmem w))]> (wborn w) !! d = Some b) in Hb. rewrite lookup_insert in Hb, Hg.
    case_decide; [|by eapply H3]. injection Hg as <-. intros _ _. change (total (begun c o w)) with (total w).
    rewrite Nat.sub_diag. apply not_elem_of_nil.
  - intros d b Hb. change (<[c := length (deferred (wmem w))]> (wborn w) !! d = Some b) in Hb. rewrite lookup_insert in Hb.
    case_decide; [by injection Hb as <-|by eapply H4].
Qed.

Lemma begun_inv c o w : lInv w -> (forall o', Start c o' ∉ wlog w) -> linv base ll s0 n0 (begun c o w).
Proof.
  intros [Hl [Hsh Hab Hmk Hh Hp Hr]] Hf.
  split; [done| | |by apply begun_hindsight|by destruct Hp|by apply begun_retired].
  - change (abs (lL w) = state (wlog w ++ [Start c o])). by rewrite Hab, lstate_snoc.
  - apply (marks_same s0 w); [done..| |done]. intros d n _ (E1 & E2 & E & ?).
    exists E1, (E2 ++ [Start c o]). simpl. by rewrite E, <- app_assoc.
Qed.

Lemma begin_call w c o : lInv w -> (forall o', Start c o' ∉ wlog w) -> lcall_ok base o ->
  exists w', wmem w' = wmem w /\ wlog w' = wlog w ++ [Start c o] /\ wres w' = wres w /\
    wborn w' = <[c := length (deferred (wmem w))]> (wborn w) /\ wfreed w' = wfreed w /\ lInv w' /\
    (exists g, open c o g w') /\ forall j, j <> c -> rely (lrely ll s0) j w w'.
Proof.
  intros Hw Hf _. destruct (Hw) as [Hl Hi]. exists (begun c o w).
  assert (gone w !! c = None) as Hg.
  { destruct (gone w !! c) eqn:E; [|done]. destruct (hi_start _ _ _ (li_hind _ _ _ _ _ Hi) _ _ E) as [o' ?]. by destruct (Hf o'). }
  assert (forall o', Lin c o' ∉ wlog w) as Hn.
  { intros o' Hin%(lo_lin _ _ _ Hl)%before_l. by apply (Hf o'). }
  do 5 (split; [done|]). split; [by split; [apply begun_log_ok|apply begun_inv]|]. split.
  - exists (total w). split; [split|split]; simpl.
    + set_solver.
    + intros o' [?|?%list_elem_of_singleton]%elem_of_app; [by eapply Hn|done].
    + destruct (wres w !! c) eqn:E; [|done]. destruct (lo_res_lin _ _ _ _ _ Hl E) as [o' ?]. by destruct (Hn o').
    + apply lookup_insert_eq.
  - intros j Hj. split; [by apply sublist_inserts_r|done| |].
    + intros o' [?|?%list_elem_of_singleton]%elem_of_app; done.
    + split; [by apply smooth_mono, begun_smooth|by split].
Qed.

Lemma call_triple c o fuel : ll_key_type ll = None -> lcall_ok base o ->
  triple c (fun w => exists g, open c o g w) (lcode ll fuel o) (fun v w => wres w !! c = Some v).
Proof.
  intros Hint [Hk Ho]. apply rule_exist. intros g. destruct o as [key|key e v|key]; simpl in *.
  - by apply ll_lookup_triple.
  - by apply ll_cas_triple.
  - by apply ll_remove_triple.
Qed.
End lin.

(** The proof state of a list in which no node is marked. *)
Lemma init_inv `{Allocator} base ll m0 L0 :
  ll_rep base m0 ll L0 -> clean L0 ->
  Inv lspec (abs L0) (linv base ll (abs L0) (length (deferred m0))) (World m0 [] ∅ ∅ ∅ (Ghost L0 [] 0 [] ∅ ∅ ∅ ∅)).
Proof.
  intros Hr Hc. split.
  - split; simpl; [constructor|..]; intros ?; try by intros ? ?%not_elem_of_nil.
    + by intros ? ? ?%not_elem_of_nil.
    + by intros r.
  - assert (forall j a, ~ pends (length (deferred m0)) (World m0 [] ∅ ∅ ∅ (Ghost L0 [] 0 [] ∅ ∅ ∅ ∅)) j a) as Hp.
    { intros j a (Hj & Ha & _). unfold retired_at in Ha. apply lookup_lt_Some in Ha. rewrite length_reverse in Ha. simpl in Ha. lia. }
    split; simpl; try done.
    + split; [done|by intros u ?%not_elem_of_nil| |by intros u ?%not_elem_of_nil..].
      unfold published. simpl. rewrite app_nil_r. apply Hr.
    + split; simpl; try done. intros n. unfold nodes. simpl. rewrite app_nil_r. intros Hn Hm.
      unfold clean in Hc. rewrite Forall_forall in Hc. rewrite Hc in Hm; done.
    + split; simpl; try done; [by intros j a ?%Hp|by intros i j a ?%Hp|constructor|by intros a ?%not_elem_of_nil].
Qed.
