(* ===== verification/ListConcurrent.v ===== *)
(** The lock-free list of [map/list.c] under concurrency: any number of
    overlapping calls of [ll_lookup], [ll_cas] and [ll_remove], interleaved in any way
    and with the reclamation of the nodes they unlink, commit no fault, are
    linearizable, and hand each node they unlink to reclamation once. *)
From S2P Require Import Prelude Random Machine Datatype MapSpec LinkedList Linearize ListShape ListGhost ListLin.

Section concurrent.
Context `{Allocator} (base : Z) (ll : list_t) (m0 : mem) (L0 : list lnode).
Context (Hrep : ll_rep base m0 ll L0) (Hclean : clean L0).
Implicit Types (h : list (event lop)) (m : mem) (ts : gmap nat running) (fr : gset nat).
Abbreviation n0 := (length (deferred m0)).

(** What the proof knows of every memory that can be reached. *)
Lemma reach_list h m ts fr :
  reach (lcode ll) (lcall_ok base) m0 h m ts fr ->
  ~ stuck m ts /\ exists w, wmem w = m /\ wfreed w = fr /\ linv base ll (abs L0) n0 w /\
    linearization lspec (abs L0) h (lins (wlog w)) /\ abs (lL w) = run_spec lspec (abs L0) (lins (wlog w)).
Proof using Hrep Hclean.
  intros Hr. destruct (reach_sound lspec (abs L0) (linv base ll (abs L0) n0) (lrely ll (abs L0))
    (lrely_refl ll (abs L0)) (lrely_trans ll (abs L0)) (lcode ll) (lcall_ok base) m0 (Ghost L0 [] 0 [] ∅ ∅ ∅ ∅)
    (fun c o w => exists g, open c o g w)) with (h := h) (m := m) (ts := ts) (fr := fr)
    as [Hs (w & Em & Ef & [_ Hw] & Hlin)].
  - by apply init_inv.
  - intros w c o Hw Hf Ho. by apply begin_call.
  - intros c o fuel Ho. apply call_triple; [apply Hrep|done].
  - intros w j a run. by apply (reclaim base ll (abs L0) n0 w j a run).
  - done.
  - split; [done|]. exists w. do 4 (split; [done|]). rewrite lins_state. apply Hw.
Qed.

(** A block retired and not freed is allocated and not linked. *)
Lemma pends_block w j a : linv base ll (abs L0) n0 w -> pends n0 w j a ->
  a ∉ n_addr <$> head_node ll :: lL w /\ a <> 0 /\ is_Some (heap (wmem w) !! a).
Proof.
  intros [Hsh _ _ _ _ Hr] Hp.
  assert (forall x, node_ptr x -> x <> 0) as Hnz by (intros x [? _]; lia).
  destruct (rt_block _ _ _ Hr j a Hp) as [[Ha|Ha]%elem_of_app _].
  - destruct (chain_nodup base ll _ _ _ Hsh) as (_ & _ & Hd & _ & Hh). split.
    + rewrite fmap_cons. intros [->|Hin]%elem_of_cons; [done|]. by apply (Hd a).
    + rewrite gone_addr_list in Ha. apply list_elem_of_fmap in Ha as (u & -> & Hu). simpl.
      destruct (sh_gone _ _ _ _ _ Hsh u Hu) as (E & _ & ? & _). split; [by apply Hnz|]. rewrite E. by eexists.
  - destruct (rt_garbage _ _ _ Hr a Ha) as (Hn & ? & ?). split; [|by auto]. intros Hin. apply Hn, published_cases.
    rewrite fmap_cons in Hin. apply elem_of_cons in Hin as [?|?]; auto.
Qed.
End concurrent.

(** C2: C: every history of overlapping calls is linearizable, also when the nodes they
    unlink are freed and their addresses used again: the calls can be put in
    an order that respects the order of calls that did not overlap, in which the
    values returned are those of a map, and the memory holds a well-formed list that
    stands for the map at the end of that order. *)
Theorem list_linearizable `{Allocator} base ll m0 L0 h m ts fr :
  ll_rep base m0 ll L0 -> clean L0 -> reach (lcode ll) (lcall_ok base) m0 h m ts fr ->
  exists E L, linearization lspec (abs L0) h E /\
    ll_rep base m ll L /\ abs L = run_spec lspec (abs L0) E.
Proof.
  intros Hr Hc Hreach.
  destruct (reach_list base ll m0 L0 Hr Hc h m ts fr Hreach) as (_ & w & <- & _ & Hw & Hlin & Habs).
  exists (lins (wlog w)), (lL w). split; [done|]. split; [|done]. apply Hw.
Qed.

(** C3: C: no interleaving of calls and reclamation makes a call touch memory that is
    not allocated or fail an assertion; and a block that is handed to reclamation and not freed
    yet is out of the list, still allocated, and handed over only once, so that freeing it
    is legal. *)
Theorem list_safe `{Allocator} base ll m0 L0 h m ts fr :
  ll_rep base m0 ll L0 -> clean L0 -> reach (lcode ll) (lcall_ok base) m0 h m ts fr ->
  ~ stuck m ts /\
  exists L, ll_rep base m ll L /\
    forall j a, (length (deferred m0) <= j)%nat -> retired_at m j = Some a -> j ∉ fr ->
      a ∉ n_addr <$> head_node ll :: L /\ is_Some (heap m !! a) /\
      forall i, (length (deferred m0) <= i)%nat -> retired_at m i = Some a -> i ∉ fr -> i = j.
Proof.
  intros Hr Hc Hreach.
  destruct (reach_list base ll m0 L0 Hr Hc h m ts fr Hreach) as (Hs & w & <- & <- & Hw & _).
  split; [done|]. exists (lL w). split; [apply Hw|]. intros j a Hj Ha Hf.
  destruct (pends_block base ll m0 L0 w j a Hw) as (? & _ & ?); [done|]. split; [done|]. split; [done|].
  intros i Hi Ha' Hf'. by apply (rt_inj _ _ _ (li_retired _ _ _ _ _ Hw) i j a).
Qed.

(** C4: C: whatever the other calls have done so far, and wherever they have been
    suspended, a new call that runs on its own returns, with the value of the map the
    history has led to. *)
Theorem list_new_call_returns `{Allocator} base ll m0 L0 h m ts fr o :
  ll_rep base m0 ll L0 -> clean L0 -> reach (lcode ll) (lcall_ok base) m0 h m ts fr ->
  lcall_ok base o -> can_alloc m 3 ->
  exists E n, linearization lspec (abs L0) h E /\
    forall fuel, (n < fuel)%nat ->
    exists m', run (lcode ll fuel o) m = Done (lspec (run_spec lspec (abs L0) E) o).1 m'.
Proof.
  intros Hr Hc Hreach [Hk Ho] Ha.
  destruct (reach_list base ll m0 L0 Hr Hc h m ts fr Hreach) as (_ & w & <- & _ & Hw & Hlin & Habs).
  exists (lins (wlog w)), (length (lL w) + 1)%nat. split; [done|]. rewrite <- Habs. intros fuel Hf.
  pose proof (sh_rep _ _ _ _ _ (li_shape _ _ _ _ _ Hw)) as Hrep. destruct o as [k|k e v|k]; simpl in *.
  - eexists. eapply ll_lookup_ok; [done..|lia].
  - destruct (ll_cas_ok base fuel (wmem w) ll (lL w) k e v) as (m' & L' & E & _); [done..|]. eauto.
  - destruct (ll_remove_ok base fuel (wmem w) ll (lL w) k) as (m' & L' & E & _); [done..|]. eauto.
Qed.

(** * A concrete interleaving

    On the list with the value 50 for the key 5: an update has found the node when
    a removal marks it; a lookup that begins then finds nothing; the update still
    replaces the value, and the removal returns the new one. The order that
    explains this is update, removal, lookup, although the removal was the first of
    the three to write. When they have returned the node is freed. A key is inserted,
    removed and reclaimed; the nodes of all three keys have the same address, which
    is retired three times. *)
Definition cx_ll : list_t := LL 8 None.

Definition cx_L : list lnode := [LNode 16 5 50 false].

Definition cx_m : mem := Mem {[ 8 := [0; 0; 16]; 16 := [5; 50; 0] ]} [] rng0.

Definition cx_schedule : list (cmd lop) :=
  [Invoke 1 (LRemove 5) 9; Invoke 2 (LCas 5 CAS_EXPECT_WHATEVER 70) 9; Steps 2 4; Steps 1 5;
   Invoke 3 (LLookup 5) 9; Steps 3 30; Respond 3; Steps 2 30; Respond 2; Steps 1 30; Respond 1; Reclaim 0;
   Invoke 4 (LCas 7 CAS_EXPECT_DOES_NOT_EXIST 77) 9; Steps 4 30; Respond 4; Invoke 5 (LRemove 7) 9; Steps 5 30;
   Respond 5; Reclaim 1; Invoke 6 (LCas 9 CAS_EXPECT_WHATEVER 99) 9; Steps 6 30; Invoke 7 (LRemove 9) 9; Steps 7 30;
   Respond 7].

Definition cx_history : list (event lop) :=
  [Call 1 (LRemove 5); Call 2 (LCas 5 CAS_EXPECT_WHATEVER 70); Call 3 (LLookup 5);
   Return 3 0; Return 2 50; Return 1 70; Call 4 (LCas 7 CAS_EXPECT_DOES_NOT_EXIST 77); Return 4 0;
   Call 5 (LRemove 7); Return 5 77; Call 6 (LCas 9 CAS_EXPECT_WHATEVER 99); Call 7 (LRemove 9); Return 7 99].

Definition cx_end : mem := Mem {[ 8 := [0; 0; 0]; 16 := [9; 0; 1] ]} [16; 16; 16] rng0.

Lemma cx_rep : ll_rep 0 cx_m cx_ll cx_L.
Proof.
  split; [done| |done| |done].
  - apply (bool_decide_unpack _). by vm_compute.
  - unfold cx_L. split; rewrite ?StronglySorted_cons_iff, ?Forall_cons, ?Forall_nil; unfold key_window;
      split_and!; done || constructor.
Qed.

Lemma cx_clean : clean cx_L.
Proof. by repeat constructor. Qed.

Lemma cx_reach : reach (lcode cx_ll) (lcall_ok 0) cx_m cx_history cx_end {[6%nat := Running (Ret 0) 2]} {[0%nat; 1%nat]}.
Proof.
  eapply (reach_play _ _ _ cx_schedule (Config [] cx_m ∅ ∅) (Config _ _ _ _)); [apply reach_init| |by vm_compute].
  unfold cx_schedule. rewrite !Forall_cons, Forall_nil. unfold lcall_ok, key_window. simpl. split_and!; done || lia.
Qed.

Lemma list_linearizable_witness :
  reach (lcode cx_ll) (lcall_ok 0) cx_m cx_history cx_end {[6%nat := Running (Ret 0) 2]} {[0%nat; 1%nat]} /\
  exists E L, linearization lspec {[5 := 50]} cx_history E /\
    ll_rep 0 cx_end cx_ll L /\ abs L = run_spec lspec {[5 := 50]} E.
Proof.
  split; [exact cx_reach|].
  exact (list_linearizable 0 cx_ll cx_m cx_L cx_history cx_end _ _ cx_rep cx_clean cx_reach).
Defined.

Lemma list_safe_witness : ~ stuck cx_end {[6%nat := Running (Ret 0) 2]} /\ retired_at cx_end 2 = Some 16 /\
  (forall i, retired_at cx_end i = Some 16 -> i ∉ ({[0%nat; 1%nat]} : gset nat) -> i = 2%nat).
Proof.
  destruct (list_safe 0 cx_ll cx_m cx_L cx_history cx_end _ _ cx_rep cx_clean cx_reach) as (Hs & L & _ & HL).
  split; [exact Hs|]. split; [done|]. intros i. apply (HL 2%nat 16); [simpl; lia|done|set_solver|simpl; lia].
Defined.

Lemma cx_can_alloc k : can_alloc cx_end k.
Proof.
  intros h Eh. apply (bump_room h k 16); [|done..]. rewrite Eh. unfold cx_end. cbn [heap].
  rewrite !dom_insert_L, dom_singleton_L. intros a. rewrite !elem_of_union, !elem_of_singleton. zlia.
Qed.

Lemma list_new_call_returns_witness : exists E n, linearization lspec {[5 := 50]} cx_history E /\
  forall fuel, (n < fuel)%nat ->
  exists m', run (lcode cx_ll fuel (LLookup 5)) cx_end = Done (lspec (run_spec lspec {[5 := 50]} E) (LLookup 5)).1 m'.
Proof.
  apply (list_new_call_returns 0 cx_ll cx_m cx_L cx_history cx_end _ _ (LLookup 5) cx_rep cx_clean cx_reach);
    [by split|apply cx_can_alloc].
Defined.
