(* ===== verification/RcuPool.v ===== *)
(** The composition of the containers with the reclamation of [runtime/rcu.c]:
    threads that run calls of an object and, between calls, [rcu_update]; the blocks
    the calls retire go to the queues of [Rcu.v], and what [rcu_update] frees is freed in
    the memory of the calls. Every execution is one of [Linearize.reach], whose rule for
    freeing a block asks that the calls that run began after it was retired. *)
From S2P Require Import Prelude Random Machine Rcu Linearize.

(** The memory, the state of the reclamation, the call each thread runs (its number
    and what is left of it), and the history of the calls. *)
Record pool (Op : Type) : Type := Pool {
  p_mem : mem;
  p_rcu : Rcu.config;
  p_calls : gmap Z (nat * prog Z);
  p_history : list (Linearize.event Op);
}.
Arguments Pool {Op} _ _ _ _.
Arguments p_mem {Op} _.
Arguments p_rcu {Op} _.
Arguments p_calls {Op} _.
Arguments p_history {Op} _.

Definition is_defer (o : op) : bool := match o with Machine.Defer _ => true | _ => false end.

(** The block freed by a step of [rcu_update]. *)
Definition freed (σ σ' : Rcu.config) : option Z :=
  match log σ' with
  | EFree _ x :: _ => if decide (length (log σ') = length (log σ)) then None else Some x
  | _ => None
  end.

(** A thread that is in no call and not in [rcu_update] may begin either; a call
    performs its next operation, a retired block going to the thread's queue; a thread in
    [rcu_update] takes its next step, and [nbd_free] is called on what it frees. *)
Inductive work `{Allocator} {Op : Type} (code : nat -> Op -> prog Z) (ok_call : Op -> Prop) :
    pool Op -> pool Op -> Prop :=
  | work_call m σ ts h t c o fuel :
      pcs σ !! t = Some Idle -> ts !! t = None -> (forall o', Call c o' ∉ h) -> ok_call o ->
      work code ok_call (Pool m σ ts h) (Pool m σ (<[t := (c, code fuel o)]> ts) (h ++ [Call c o]))
  | work_act m σ ts h t c o k r m' :
      ts !! t = Some (c, Act o k) -> is_defer o = false -> handle o m = inl (r, m') ->
      work code ok_call (Pool m σ ts h) (Pool m' σ (<[t := (c, k r)]> ts) h)
  | work_defer m σ ts h t c a k r m' σ' :
      ts !! t = Some (c, Act (Machine.Defer a) k) -> exec1 σ (Rcu.Defer t a) = Some σ' ->
      handle (Machine.Defer a) m = inl (r, m') ->
      work code ok_call (Pool m σ ts h) (Pool m' σ' (<[t := (c, k r)]> ts) h)
  | work_return m σ ts h t c v :
      ts !! t = Some (c, Ret v) ->
      work code ok_call (Pool m σ ts h) (Pool m σ (delete t ts) (h ++ [Return c v]))
  | work_update m σ ts h t σ' :
      ts !! t = None -> exec1 σ (Update t) = Some σ' ->
      work code ok_call (Pool m σ ts h) (Pool m σ' ts h)
  | work_pass m σ ts h t σ' :
      exec1 σ (Continue t) = Some σ' -> freed σ σ' = None ->
      work code ok_call (Pool m σ ts h) (Pool m σ' ts h)
  | work_free m σ ts h t σ' x r m' :
      exec1 σ (Continue t) = Some σ' -> freed σ σ' = Some x -> handle (Free x) m = inl (r, m') ->
      work code ok_call (Pool m σ ts h) (Pool m' σ' ts h).

(** [n] threads have been started, and the object is in the memory [m]. *)
Definition pool_start (Op : Type) (n : nat) (m : mem) : pool Op := Pool m (cfg_start n) ∅ [].

(** * The order in which blocks were retired *)

(** The blocks retired, by any thread, most recent first. *)
Definition deferred_of (l : list Rcu.event) : list Z :=
  omap (fun e => match e with EDefer _ x => Some x | _ => None end) l.

(** The [i]-th block that thread [c] retired is the [k]-th of all. *)
Definition at_defer (c : Z) (i k : nat) (l : list Rcu.event) : Prop :=
  exists l1 x l2, l = l1 ++ EDefer c x :: l2 /\ length (defers c l2) = i /\ length (deferred_of l2) = k.

Section order.
Implicit Types (l : list Rcu.event) (c t x : Z) (i k : nat).

Lemma at_defer_cons c i k e l :
  at_defer c i k (e :: l) <->
  (exists x, e = EDefer c x) /\ i = length (defers c l) /\ k = length (deferred_of l) \/ at_defer c i k l.
Proof.
  split.
  - intros ([|e' l1] & x & l2 & E & <- & <-); injection E as -> E; subst.
    + left. eauto.
    + right. by exists l1, x, l2.
  - intros [([x ->] & -> & ->)|(l1 & x & l2 & -> & ? & ?)]; [by exists [], x, l|by exists (e :: l1), x, l2].
Qed.

Lemma at_defer_nil c i k : ~ at_defer c i k [].
Proof. by intros ([] & x & l2 & E & _). Qed.

Lemma at_defer_bound c i k l : at_defer c i k l -> (i < length (defers c l))%nat /\ (k < length (deferred_of l))%nat.
Proof.
  induction l as [|e l IH]; [by intros ?%at_defer_nil|].
  intros [([x ->] & -> & ->)|[? ?]%IH]%at_defer_cons; simpl.
  - rewrite Z.eqb_refl, length_app. simpl. lia.
  - destruct e; simpl; [destruct (_ =? _); rewrite ?length_app; simpl; lia|lia|lia].
Qed.

Lemma at_defer_fun c i k k' l : at_defer c i k l -> at_defer c i k' l -> k = k'.
Proof.
  induction l as [|e l IH]; [by intros ?%at_defer_nil|].
  intros [(_ & -> & ->)|H1]%at_defer_cons [(_ & Ei & ->)|H2]%at_defer_cons; [done|..|by apply IH].
  - apply at_defer_bound in H2 as [? _]. lia.
  - apply at_defer_bound in H1 as [? _]. lia.
Qed.

Lemma at_defer_inj c c' i i' k l : at_defer c i k l -> at_defer c' i' k l -> c = c' /\ i = i'.
Proof.
  induction l as [|e l IH]; [by intros ?%at_defer_nil|].
  intros [([x ->] & -> & ->)|H1]%at_defer_cons [([y E] & -> & Ek)|H2]%at_defer_cons; [| | |by apply IH].
  - by injection E as <- <-.
  - apply at_defer_bound in H2 as [_ ?]. lia.
  - apply at_defer_bound in H1 as [_ ?]. lia.
Qed.

Lemma at_defer_app c i k l1 l2 : at_defer c i k l2 -> at_defer c i k (l1 ++ l2).
Proof. intros (l3 & x & l4 & -> & ?). exists (l1 ++ l3), x, l4. by rewrite <- app_assoc. Qed.

Lemma at_defer_exists c i x l :
  defers c l !! i = Some x -> exists k, at_defer c i k l /\ reverse (deferred_of l) !! k = Some x.
Proof.
  induction l as [|e l IH]; [done|]. intros Hi.
  assert (forall k, reverse (deferred_of l) !! k = Some x -> reverse (deferred_of (e :: l)) !! k = Some x) as Hr.
  { intros k Hk. destruct e; simpl; [|done..]. rewrite reverse_cons. by apply lookup_app_l_Some. }
  assert (defers c l !! i = Some x -> exists k, at_defer c i k (e :: l) /\ reverse (deferred_of (e :: l)) !! k = Some x) as Hold.
  { intros (k & ? & ?)%IH. exists k. rewrite at_defer_cons. auto. }
  destruct e as [t y|t y|t j]; simpl in Hi; [|by apply Hold..].
  destruct (Z.eqb_spec t c) as [->|]; [|by apply Hold].
  apply lookup_app_Some in Hi as [Hi|[Hlen Hi]]; [by apply Hold|].
  exists (length (deferred_of l)). rewrite at_defer_cons.
  assert (i = length (defers c l)) as ->.
  { apply list_lookup_singleton_Some in Hi as [? _]. lia. }
  rewrite Nat.sub_diag in Hi. injection Hi as ->. split; [left; eauto|].
  simpl. rewrite reverse_cons, lookup_app_r; rewrite length_reverse; [|done]. by rewrite Nat.sub_diag.
Qed.
End order.

(** * Simulation *)

(** A step inside [rcu_update]. *)
Lemma exec1_continue σ t σ' : exec1 σ (Continue t) = Some σ' ->
  (exists p, pcs σ !! t = Some p /\ p <> Idle) /\ (forall t', t' <> t -> pcs σ' !! t' = pcs σ !! t') /\
  (log σ' = log σ \/ (exists i, log σ' = EPost t i :: log σ) \/ exists x, log σ' = EFree t x :: log σ).
Proof.
  destruct σ as [s p l]. cbn [exec1 st pcs log].
  destruct (p !! t) as [[|next i|next i|next i x|]|] eqn:E; try done; intros Hs.
  all: split; [by eexists|].
  - destruct (_ <=? i); [|destruct (_ || _)]; injection Hs as <-; simpl;
      (split; [by intros ? ?; apply lookup_insert_ne|by left]).
  - injection Hs as <-. simpl. split; [by intros ? ?; apply lookup_insert_ne|by left].
  - injection Hs as <-. simpl. split; [by intros ? ?; apply lookup_insert_ne|right; left; by exists i].
  - destruct (pending_ s !! t) as [q|]; [|done]. destruct (_ =? _); injection Hs as <-; simpl.
    + split; [by intros ? ?; apply lookup_insert_ne|by left].
    + split; [done|right; right; by eexists].
Qed.

Lemma freed_some σ σ' t x : exec1 σ (Continue t) = Some σ' -> freed σ σ' = Some x -> log σ' = EFree t x :: log σ.
Proof.
  intros (_ & _ & [E|[[i E]|[y E]]])%exec1_continue; unfold freed; rewrite E; simpl; [|done|].
  - destruct (log σ) as [|[]]; [done..| |done]. by rewrite decide_True.
  - rewrite decide_False by lia. by intros [= ->].
Qed.

Lemma freed_none σ σ' t : exec1 σ (Continue t) = Some σ' -> freed σ σ' = None ->
  log σ' = log σ \/ exists i, log σ' = EPost t i :: log σ.
Proof.
  intros (_ & _ & [E|[E|[y E]]])%exec1_continue; [by left|by right|].
  unfold freed. rewrite E. simpl. by rewrite decide_False by lia.
Qed.

Lemma handle_deferred `{Allocator} o m r m' : is_defer o = false -> handle o m = inl (r, m') -> deferred m' = deferred m.
Proof.
  intros Ho Hm. destruct o; simpl in *; try done; repeat (case_match || simplify_eq/=); done.
Qed.

Section simulation.
Context `{Allocator} {Op : Type} (code : nat -> Op -> prog Z) (ok_call : Op -> Prop) (n : nat) (m0 : mem).
Implicit Types (P : pool Op) (ts : gmap nat running) (fr : gset nat).
Abbreviation n0 := (length (deferred m0)).

(** The execution of [Linearize.reach] that a pool stands for: a running call began when the
    blocks of [l2] had been retired, and its thread has not been in [rcu_update]
    since; the blocks freed are the first ones of each thread. *)
Record sim P ts fr : Prop := {
  sm_reach : reach code ok_call m0 (p_history P) (p_mem P) ts fr;
  sm_rcu : Rcu.inv (Z.of_nat n) (p_rcu P);
  sm_deferred : deferred (p_mem P) = deferred_of (log (p_rcu P)) ++ deferred m0;
  sm_run t c p : p_calls P !! t = Some (c, p) ->
    pcs (p_rcu P) !! t = Some Idle /\
    exists l1 l2, log (p_rcu P) = l1 ++ l2 /\ (forall i, EPost t i ∉ l1) /\
      ts !! c = Some (Running p (n0 + length (deferred_of l2)));
  sm_from c r : ts !! c = Some r -> exists t p, p_calls P !! t = Some (c, p);
  sm_inj t t' c p p' : p_calls P !! t = Some (c, p) -> p_calls P !! t' = Some (c, p') -> t = t';
  sm_called t c p : p_calls P !! t = Some (c, p) -> exists o, Call c o ∈ p_history P;
  sm_freed j : j ∈ fr <-> exists c i k, at_defer c i k (log (p_rcu P)) /\ j = (n0 + k)%nat /\
    (i < length (frees c (log (p_rcu P))))%nat;
}.

Lemma sim_start : sim (pool_start Op n m0) ∅ ∅.
Proof.
  split; simpl; [apply reach_init|apply inv_start|done|done|done|done|done|].
  intros j. split; [set_solver|]. by intros (c & i & k & ?%at_defer_nil & _).
Qed.

(** A running call goes on. *)
Lemma sim_call_step m σ cs h ts fr t c p p' b m' σ' :
  sim (Pool m σ cs h) ts fr -> cs !! t = Some (c, p) -> ts !! c = Some (Running p b) ->
  reach code ok_call m0 h m' (<[c := Running p' b]> ts) fr -> Rcu.inv (Z.of_nat n) σ' -> pcs σ' = pcs σ ->
  deferred m' = deferred_of (log σ') ++ deferred m0 ->
  (exists l, log σ' = l ++ log σ /\ forall t i, EPost t i ∉ l) ->
  (forall c i k, at_defer c i k (log σ') /\ (i < length (frees c (log σ')))%nat <->
     at_defer c i k (log σ) /\ (i < length (frees c (log σ)))%nat) ->
  sim (Pool m' σ' (<[t := (c, p')]> cs) h) (<[c := Running p' b]> ts) fr.
Proof.
  intros [H1 H2 H3 H4 H5 H6 H7 H8] Ht Hc Hr Hi Ep Ed (l & El & Hl) Hf. simpl in *. split; simpl; try done.
  - intros t' c' q. rewrite lookup_insert. case_decide as Htt; [subst t'; intros [= <- <-]|intros Ht'].
    + destruct (H4 _ _ _ Ht) as (Hid & l1 & l2 & E & Hn & Hc'). rewrite Ep. split; [done|].
      exists (l ++ l1), l2. rewrite El, E, <- app_assoc. split; [done|]. split.
      * intros i [?|?]%elem_of_app; [by eapply Hl|by eapply Hn].
      * rewrite lookup_insert_eq. by simplify_eq.
    + destruct (H4 _ _ _ Ht') as (Hid & l1 & l2 & E & Hn & Hc'). rewrite Ep. split; [done|].
      exists (l ++ l1), l2. rewrite El, E, <- app_assoc. split; [done|]. split.
      * intros i [?|?]%elem_of_app; [by eapply Hl|by eapply Hn].
      * rewrite lookup_insert_ne; [done|]. intros <-. by apply Htt, (H6 _ _ _ _ _ Ht Ht').
  - intros c' r. rewrite lookup_insert. case_decide as Hcc.
    + intros _. subst c'. exists t, p'. apply lookup_insert_eq.
    + intros (t' & q & Hq)%H5. exists t', q. rewrite lookup_insert_ne; [done|]. congruence.
  - intros t1 t2 c' q q'. rewrite !lookup_insert. repeat case_decide; subst; try done.
    + intros [= <- <-] Hq. by apply (H6 _ _ _ _ _ Ht Hq).
    + intros Hq [= <- <-]. by apply (H6 _ _ _ _ _ Hq Ht).
    + apply H6.
  - intros t' c' q. rewrite lookup_insert. case_decide; [intros [= <- <-]|]; by eapply H7.
  - intros j. rewrite H8. split; intros (c' & i & k & Ha & ? & Hlt).
    + exists c', i, k. destruct (proj2 (Hf c' i k)); [by split|]. done.
    + exists c', i, k. destruct (proj1 (Hf c' i k)); [by split|]. done.
Qed.

Lemma frees_le σ c : Rcu.inv (Z.of_nat n) σ -> 0 <= c < Z.of_nat n ->
  (length (frees c (log σ)) <= length (defers c (log σ)))%nat.
Proof.
  intros Hi Hc. destruct (iv_cols _ _ Hi c Hc) as (g & [_ _ _ _ _ (q & _ & [_ _ _ _ Hp _])] & _).
  by apply prefix_length.
Qed.

Lemma sim_act m σ cs h ts fr t c o k r m' :
  sim (Pool m σ cs h) ts fr -> cs !! t = Some (c, Act o k) -> is_defer o = false -> handle o m = inl (r, m') ->
  exists ts', sim (Pool m' σ (<[t := (c, k r)]> cs) h) ts' fr.
Proof.
  intros Hs Ht Ho Hh. pose proof Hs as [H1 H2 H3 H4 _ _ _ _]. simpl in *.
  destruct (H4 _ _ _ Ht) as (_ & l1 & l2 & _ & _ & Hc). eexists.
  eapply (sim_call_step m σ cs h ts fr t c _ (k r) _ m' σ); [done..| |done|done| | |done].
  - by eapply reach_act.
  - rewrite (handle_deferred o m r m'); done.
  - exists []. split; [done|]. intros ? ? ?%not_elem_of_nil. done.
Qed.

Lemma sim_defer m σ cs h ts fr t c a k r m' σ' :
  sim (Pool m σ cs h) ts fr -> cs !! t = Some (c, Act (Machine.Defer a) k) ->
  exec1 σ (Rcu.Defer t a) = Some σ' -> handle (Machine.Defer a) m = inl (r, m') ->
  exists ts', sim (Pool m' σ' (<[t := (c, k r)]> cs) h) ts' fr.
Proof.
  intros Hs Ht Hx Hh. pose proof (exec1_step _ _ _ Hx) as Hst.
  pose proof Hs as [H1 H2 H3 H4 _ _ _ _]. simpl in *.
  destruct (H4 _ _ _ Ht) as (Hid & l1 & l2 & _ & _ & Hc). pose proof (inv_step _ _ _ H2 Hst) as H2'.
  destruct (iv_pcs _ _ H2 _ _ Hid) as [Hrange _]. pose proof (frees_le σ t H2 Hrange) as Hle.
  unfold exec1 in Hx. rewrite Hid in Hx. destruct (rcu_defer_free t a (st σ)) as [s'|] eqn:Ed; [|done].
  injection Hx as <-. injection Hh as <- <-. eexists.
  eapply (sim_call_step m σ cs h ts fr t c _ (k 0)); [done..| |done|done| | |].
  - by eapply reach_act.
  - simpl. by rewrite H3.
  - exists [EDefer t a]. split; [done|]. by intros ? ? ?%list_elem_of_singleton.
  - intros c' i j. cbn [log]. rewrite at_defer_cons. simpl. split; [|tauto].
    intros [[([x [= <- _]] & -> & _)|?] Hlt]; [lia|done].
Qed.

Lemma sim_call m σ cs h ts fr t c o fuel :
  sim (Pool m σ cs h) ts fr -> pcs σ !! t = Some Idle -> cs !! t = None -> (forall o', Call c o' ∉ h) -> ok_call o ->
  exists ts', sim (Pool m σ (<[t := (c, code fuel o)]> cs) (h ++ [Call c o])) ts' fr.
Proof.
  intros [H1 H2 H3 H4 H5 H6 H7 H8] Hid Hn Hf Ho. simpl in *.
  assert (forall t' p, cs !! t' <> Some (c, p)) as Hc by (intros t' p [o' ?]%H7; by eapply Hf).
  exists (<[c := Running (code fuel o) (length (deferred m))]> ts). split; simpl; try done.
  - by apply reach_call.
  - intros t' c' p. rewrite lookup_insert. case_decide as Htt.
    + subst t'. intros [= <- <-]. split; [done|]. exists [], (log σ). split; [done|].
      split; [by intros ? ?%not_elem_of_nil|]. rewrite lookup_insert_eq, H3, length_app. do 2 f_equal. lia.
    + intros Ht'. destruct (H4 _ _ _ Ht') as (? & l1 & l2 & ? & ? & ?). split; [done|]. exists l1, l2.
      rewrite lookup_insert_ne; [done|]. intros <-. by eapply Hc.
  - intros c' r. rewrite lookup_insert. case_decide as Hcc.
    + intros _. subst c'. exists t, (code fuel o). apply lookup_insert_eq.
    + intros (t' & p & Hp)%H5. exists t', p. rewrite lookup_insert_ne; [done|]. congruence.
  - intros t1 t2 c' q q'. rewrite !lookup_insert. repeat case_decide; subst; try done.
    + intros [= <- <-] Hq. by destruct (Hc _ _ Hq).
    + intros Hq [= <- <-]. by destruct (Hc _ _ Hq).
    + apply H6.
  - intros t' c' p. rewrite lookup_insert. case_decide.
    + intros [= <- <-]. exists o. set_solver.
    + intros [o' ?]%H7. exists o'. set_solver.
Qed.

Lemma sim_return m σ cs h ts fr t c v :
  sim (Pool m σ cs h) ts fr -> cs !! t = Some (c, Ret v) ->
  exists ts', sim (Pool m σ (delete t cs) (h ++ [Return c v])) ts' fr.
Proof.
  intros [H1 H2 H3 H4 H5 H6 H7 H8] Ht. simpl in *.
  destruct (H4 _ _ _ Ht) as (_ & l1 & l2 & _ & _ & Hc).
  assert (forall t' p, t' <> t -> cs !! t' <> Some (c, p)) as Hne.
  { intros t' p Hn Hp. by apply Hn, (H6 _ _ _ _ _ Hp Ht). }
  exists (delete c ts). split; simpl; try done.
  - by eapply reach_return.
  - intros t' c' p [Hn Ht']%lookup_delete_Some. destruct (H4 _ _ _ Ht') as (? & l3 & l4 & ? & ? & ?).
    split; [done|]. exists l3, l4. rewrite lookup_delete_ne; [done|]. intros <-. by apply (Hne t' p).
  - intros c' r [Hn (t' & p & Hp)%H5]%lookup_delete_Some. exists t', p.
    rewrite lookup_delete_ne; [done|]. congruence.
  - intros t1 t2 c' q q' [_ Hq]%lookup_delete_Some [_ Hq']%lookup_delete_Some. by eapply H6.
  - intros t' c' p [_ [o ?]%H7]%lookup_delete_Some. exists o. set_solver.
Qed.

(** Steps of [rcu_update] that free nothing. *)
Lemma sim_quiet m σ cs h ts fr t σ' :
  sim (Pool m σ cs h) ts fr -> Rcu.inv (Z.of_nat n) σ' -> cs !! t = None ->
  (forall t', t' <> t -> pcs σ' !! t' = pcs σ !! t') ->
  log σ' = log σ \/ (exists i, log σ' = EPost t i :: log σ) ->
  sim (Pool m σ' cs h) ts fr.
Proof.
  intros [H1 H2 H3 H4 H5 H6 H7 H8] Hi Ht Hp Hl. simpl in *.
  assert (deferred_of (log σ') = deferred_of (log σ)) as Ed by (destruct Hl as [->|[i ->]]; done).
  assert (forall c i k, at_defer c i k (log σ') <-> at_defer c i k (log σ)) as Ea.
  { intros c i k. destruct Hl as [->|[j ->]]; [done|]. rewrite at_defer_cons.
    split; [by intros [([x ?] & _)|?]|by right]. }
  assert (forall c, frees c (log σ') = frees c (log σ)) as Ef by (intros c; destruct Hl as [->|[j ->]]; done).
  split; simpl; try done.
  - by rewrite Ed.
  - intros t' c p Ht'. destruct (H4 _ _ _ Ht') as (? & l1 & l2 & E & Hn & ?).
    rewrite Hp by congruence. split; [done|]. destruct Hl as [->|[i ->]]; [by exists l1, l2|].
    exists (EPost t i :: l1), l2. rewrite E. split; [done|]. split; [|done].
    intros j [[= -> _]|?]%elem_of_cons; [congruence|by eapply Hn].
  - intros j. rewrite H8. by setoid_rewrite Ea; setoid_rewrite Ef.
Qed.

(** What [rcu_update] frees was retired before every running call began. *)
Lemma sim_free m σ cs h ts fr t σ' x :
  sim (Pool m σ cs h) ts fr -> exec1 σ (Continue t) = Some σ' -> log σ' = EFree t x :: log σ ->
  exists fr', sim (Pool (set_heap m (delete x (heap m))) σ' cs h) ts fr'.
Proof.
  intros [H1 H2 H3 H4 H5 H6 H7 H8] Hx El. pose proof (exec1_step _ _ _ Hx) as Hst.
  destruct (exec1_continue _ _ _ Hx) as ((pt & Hpt & Hni) & Hpc & _). clear Hx. simpl in *.
  pose proof (inv_step _ _ _ H2 Hst) as H2'.
  destruct (iv_grace _ _ H2' [] t x (log σ) El) as (Ht & Hd & Hpass).
  destruct (at_defer_exists _ _ _ _ Hd) as (k & Hk & Hrk).
  assert (forall t' c p, cs !! t' = Some (c, p) -> t' <> t) as Hne.
  { intros t' c p Ht' ->. apply H4 in Ht' as [? _]. congruence. }
  exists ({[(n0 + k)%nat]} ∪ fr). split; simpl; try done.
  - apply reach_reclaim; [done|lia| | |].
    + unfold retired_at. rewrite H3, reverse_app, lookup_app_r; rewrite length_reverse; [|lia].
      by replace (n0 + k - n0)%nat with k by lia.
    + rewrite H8. intros (c & i & k' & Ha & Ek & Hlt). assert (k' = k) as -> by lia.
      destruct (at_defer_inj _ _ _ _ _ _ Ha Hk) as [-> ->]. lia.
    + intros c r Hr. destruct (H5 _ _ Hr) as (t' & p & Ht'). pose proof (Hne _ _ _ Ht') as Hnt.
      destruct (H4 _ _ _ Ht') as (Hid & l1 & l2 & E & Hn & Hc). rewrite Hc in Hr. injection Hr as <-. simpl.
      destruct (iv_pcs _ _ H2 _ _ Hid) as [Hr' _].
      destruct (Hpass t' Hr' Hnt) as (l3 & l4 & E' & Hv). rewrite E in E'.
      assert (exists l5, l2 = l5 ++ EPost t' t :: l4) as [l5 E5].
      { apply app_eq_inv in E' as [(z & -> & E')|(z & -> & E')]; [|by exists z].
        destruct z as [|e z]; [by exists []|]. injection E' as <- _. destruct (Hn t). set_solver. }
      destruct (lookup_lt_is_Some_2 (defers t l4) (length (frees t (log σ)))) as [y Hy]; [lia|].
      destruct (at_defer_exists _ _ _ _ Hy) as (k' & Hk' & _). pose proof (at_defer_bound _ _ _ _ Hk') as [_ Hb].
      assert (k = k') as ->.
      { eapply at_defer_fun; [exact Hk|]. pose proof (at_defer_app _ _ _ (l1 ++ l5 ++ [EPost t' t]) _ Hk') as Ha.
        rewrite <- !app_assoc in Ha. cbn [app] in Ha. by rewrite <- E5, <- E in Ha. }
      rewrite E5. unfold deferred_of in *. rewrite omap_app, length_app. csimpl. lia.
  - by rewrite El, H3.
  - intros t' c p Ht'. destruct (H4 _ _ _ Ht') as (? & l1 & l2 & E & Hn & ?).
    rewrite Hpc by (by eapply Hne). split; [done|]. exists (EFree t x :: l1), l2. rewrite El, E. split; [done|].
    split; [|done]. intros j [?|?]%elem_of_cons; [done|by eapply Hn].
  - intros j. rewrite elem_of_union, elem_of_singleton, H8, El. split.
    + intros [->|(c & i & k' & Ha & -> & Hlt)].
      * exists t, (length (frees t (log σ))), k. rewrite at_defer_cons. simpl. rewrite Z.eqb_refl, length_app. simpl.
        split; [by right|]. split; [done|lia].
      * exists c, i, k'. rewrite at_defer_cons. split; [by right|]. split; [done|]. simpl.
        destruct (_ =? _); rewrite ?length_app; lia.
    + intros (c & i & k' & [([y ?] & _)|Ha]%at_defer_cons & -> & Hlt); [done|]. simpl in Hlt.
      destruct (Z.eqb_spec t c) as [<-|]; [|right; by exists c, i, k'].
      rewrite length_app in Hlt. simpl in Hlt. destruct (decide (i = length (frees t (log σ)))) as [->|].
      * left. by rewrite (at_defer_fun _ _ _ _ _ Ha Hk).
      * right. exists t, i, k'. split; [done|]. split; [done|lia].
Qed.

Lemma sim_work P P' ts fr : sim P ts fr -> work code ok_call P P' -> exists ts' fr', sim P' ts' fr'.
Proof.
  intros Hs Hw. destruct Hw as [m σ cs h t c o fuel|m σ cs h t c o k r m'|m σ cs h t c a k r m' σ'|m σ cs h t c v
    |m σ cs h t σ' Ht Hx|m σ cs h t σ' Hx Hf|m σ cs h t σ' x r m' Hx Hf Hh].
  - destruct (sim_call m σ cs h ts fr t c o fuel) as [ts' ?]; eauto.
  - destruct (sim_act m σ cs h ts fr t c o k r m') as [ts' ?]; eauto.
  - destruct (sim_defer m σ cs h ts fr t c a k r m' σ') as [ts' ?]; eauto.
  - destruct (sim_return m σ cs h ts fr t c v) as [ts' ?]; eauto.
  - exists ts, fr. eapply (sim_quiet m σ); [done|eapply inv_step; [apply Hs|by eapply exec1_step]|done|..].
    + unfold exec1 in Hx. intros t' Hne. destruct (pcs σ !! t) as [[]|]; try done. injection Hx as <-.
      by apply lookup_insert_ne.
    + left. unfold exec1 in Hx. destruct (pcs σ !! t) as [[]|]; try done. by injection Hx as <-.
  - exists ts, fr. pose proof (exec1_continue _ _ _ Hx) as ((p & Hp & Hni) & Hpc & _).
    eapply (sim_quiet m σ); [done|eapply inv_step; [apply Hs|by eapply exec1_step]| |done|by eapply freed_none].
    destruct (cs !! t) as [[c q]|] eqn:E; [|done]. apply (sm_run _ _ _ Hs) in E as [? _]. simpl in *. congruence.
  - pose proof (freed_some _ _ _ _ Hx Hf) as El. simpl in Hh. destruct (heap m !! x) eqn:Eh; [|done].
    injection Hh as <- <-. destruct (sim_free m σ cs h ts fr t σ' x) as [fr' ?]; eauto.
Qed.

Lemma sim_works P : rtc (work code ok_call) (pool_start Op n m0) P -> exists ts fr, sim P ts fr.
Proof.
  intros Hr. assert (forall P0, (exists ts fr, sim P0 ts fr) -> rtc (work code ok_call) P0 P -> exists ts fr, sim P ts fr) as Hi.
  { clear Hr. intros P0 H0 Hr. induction Hr as [|P1 P2 P3 Hw _ IH]; [done|]. apply IH.
    destruct H0 as (ts & fr & ?). by eapply sim_work. }
  apply (Hi (pool_start Op n m0)); [|done]. exists ∅, ∅. apply sim_start.
Qed.
End simulation.

(** * Refinement and safety *)

(** What an object promises to the reclamation: its calls commit no fault as long as the
    blocks are freed after a grace period, and every block it retires is allocated until then. *)
Class Reclaimable `{Allocator} {Op : Type} (code : nat -> Op -> prog Z) (ok_call : Op -> Prop) (m0 : mem) : Prop := {
  rc_safe h m ts fr : reach code ok_call m0 h m ts fr -> ~ stuck m ts;
  rc_block h m ts fr j a : reach code ok_call m0 h m ts fr -> (length (deferred m0) <= j)%nat ->
    retired_at m j = Some a -> j ∉ fr -> a <> 0 /\ is_Some (heap m !! a);
}.

(** The next operation of a call fails for another reason than the lack of memory (or of
    the model's fuel); an assertion of [rcu_defer_free] fails although the queue has room;
    [rcu_update] cannot go on, or frees a block that is not allocated. *)
Inductive pool_stuck `{Allocator} {Op : Type} (P : pool Op) : Prop :=
  | stuck_act t c o k e :
      p_calls P !! t = Some (c, Act o k) -> handle o (p_mem P) = inr e -> e <> OutOfMemory -> pool_stuck P
  | stuck_fail t c e :
      p_calls P !! t = Some (c, Fail e) -> e <> OutOfMemory -> e <> OutOfFuel -> pool_stuck P
  | stuck_defer t c a k :
      p_calls P !! t = Some (c, Act (Machine.Defer a) k) -> exec1 (p_rcu P) (Rcu.Defer t a) = None ->
      (forall q, pending_ (st (p_rcu P)) !! t = Some q -> fifo_full q = false) -> pool_stuck P
  | stuck_update t p :
      pcs (p_rcu P) !! t = Some p -> p <> Idle -> exec1 (p_rcu P) (Continue t) = None -> pool_stuck P
  | stuck_free t σ' x :
      exec1 (p_rcu P) (Continue t) = Some σ' -> freed (p_rcu P) σ' = Some x -> heap (p_mem P) !! x = None ->
      pool_stuck P.

Section safety.
Context `{Allocator} {Op : Type} (code : nat -> Op -> prog Z) (ok_call : Op -> Prop) (n : nat) (m0 : mem).
Implicit Types (P : pool Op).

(** Every execution of the object on top of rcu.c is one of the object alone in
    which a retired block is freed only when all calls that run began after it was retired. *)
Theorem pool_refines P : rtc (work code ok_call) (pool_start Op n m0) P ->
  exists ts fr, reach code ok_call m0 (p_history P) (p_mem P) ts fr /\
    forall t c p, p_calls P !! t = Some (c, p) -> exists b, ts !! c = Some (Running p b).
Proof.
  intros (ts & fr & Hs)%sim_works. exists ts, fr. split; [apply Hs|].
  intros t c p Ht. destruct (sm_run _ _ _ _ _ _ _ Hs _ _ _ Ht) as (_ & l1 & l2 & _ & _ & Hc). eauto.
Qed.

(** An object that is [Reclaimable] runs safely on top of rcu.c: no call
    touches a block that [rcu_update] has freed, no block is freed twice, and
    [rcu_defer_free] fails only when its queue of 2^20 blocks is full. *)
Theorem pool_safe P : Reclaimable code ok_call m0 -> rtc (work code ok_call) (pool_start Op n m0) P -> ~ pool_stuck P.
Proof.
  intros HR (ts & fr & Hs)%sim_works. pose proof (sm_reach _ _ _ _ _ _ _ Hs) as Hr.
  pose proof (rc_safe _ _ _ _ Hr) as Hst. pose proof (sm_rcu _ _ _ _ _ _ _ Hs) as Hi.
  assert (forall t c p, p_calls P !! t = Some (c, p) -> exists b, ts !! c = Some (Running p b)) as Hrun.
  { intros t c p Ht. destruct (sm_run _ _ _ _ _ _ _ Hs _ _ _ Ht) as (_ & l1 & l2 & _ & _ & Hc). eauto. }
  intros [t c o k e Ht Hh He|t c e Ht He He'|t c a k Ht Hx Hq|t p Hp Hni Hx|t σ' x Hx Hf Hn].
  - apply Hst. destruct (Hrun _ _ _ Ht) as [b Hc]. exists c, (Running (Act o k) b). simpl. by rewrite Hh.
  - apply Hst. destruct (Hrun _ _ _ Ht) as [b Hc]. by exists c, (Running (Fail e) b).
  - destruct (Hrun _ _ _ Ht) as [b Hc]. destruct (sm_run _ _ _ _ _ _ _ Hs _ _ _ Ht) as (Hid & _).
    destruct (iv_pcs _ _ Hi _ _ Hid) as [Hrange _].
    destruct (iv_cols _ _ Hi t Hrange) as (g & [_ _ _ _ _ (q & Eq & _)] & _).
    assert (a <> 0) as Ha.
    { apply (rc_block _ _ _ _ (length (deferred (p_mem P))) a (reach_act _ _ _ _ _ _ _ c _ _ _ _ _ Hr Hc eq_refl)).
      - rewrite (sm_deferred _ _ _ _ _ _ _ Hs), length_app. lia.
      - rewrite retired_at_push. by rewrite decide_True.
      - rewrite (sm_freed _ _ _ _ _ _ _ Hs). intros (c' & i & k' & Hd%at_defer_bound & E & _).
        rewrite (sm_deferred _ _ _ _ _ _ _ Hs), length_app in E. lia. }
    unfold exec1 in Hx. rewrite Hid in Hx. unfold rcu_defer_free in Hx.
    rewrite (proj2 (Z.eqb_neq a 0)), Eq, (Hq q Eq) in Hx by done. by destruct (_ <=? _) in Hx.
  - destruct (iv_pcs _ _ Hi _ _ Hp) as [Hrange _].
    destruct (iv_cols _ _ Hi t Hrange) as (g & [_ _ _ _ _ (q & Eq & _)] & _).
    unfold exec1 in Hx. rewrite Hp in Hx. destruct p; repeat case_match; congruence.
  - pose proof (freed_some _ _ _ _ Hx Hf) as El. pose proof (inv_step _ _ _ Hi (exec1_step _ _ _ Hx)) as Hi'.
    destruct (iv_grace _ _ Hi' [] t x _ El) as (_ & Hd & _). destruct (at_defer_exists _ _ _ _ Hd) as (k & Hk & Hrk).
    destruct (rc_block _ _ _ _ (length (deferred m0) + k) x Hr) as [_ [y Hy]]; [lia| | |congruence].
    + unfold retired_at. rewrite (sm_deferred _ _ _ _ _ _ _ Hs), reverse_app, lookup_app_r; rewrite length_reverse; [|lia].
      by replace (length (deferred m0) + k - length (deferred m0))%nat with k by lia.
    + rewrite (sm_freed _ _ _ _ _ _ _ Hs). intros (c' & i & k' & Ha & E & Hlt). assert (k' = k) as -> by lia.
      destruct (at_defer_inj _ _ _ _ _ _ Ha Hk) as [-> ->]. lia.
Qed.
End safety.

(** The address the next operation of a thread loads from. *)
Definition loads {Op : Type} (P : pool Op) (t : Z) : option Z :=
  match p_calls P !! t with Some (_, Act (Load a _) _) => Some a | _ => None end.

Lemma loads_stuck `{Allocator} {Op : Type} (P : pool Op) t a : loads P t = Some a -> heap (p_mem P) !! a = None -> pool_stuck P.
Proof.
  unfold loads. destruct (p_calls P !! t) as [[c [v|[b i| | | | | |] k|e]]|] eqn:E; try done.
  intros [= ->] Hh. eapply (stuck_act _ t c (Load a i) k SegFault); [done| |done]. simpl. by rewrite Hh.
Qed.

(** * Schedules *)

(** A thread begins a call, performs up to [k] steps of it, lets it return, begins
    [rcu_update], or performs [k] steps of that. *)
Inductive pcmd (Op : Type) : Type :=
  | PCall (t : Z) (c : nat) (o : Op) (fuel : nat)
  | PSteps (t : Z) (k : nat)
  | PReturn (t : Z)
  | PUpdate (t : Z)
  | PPass (t : Z) (k : nat).
Arguments PCall {Op} _ _ _ _.
Arguments PSteps {Op} _ _.
Arguments PReturn {Op} _.
Arguments PUpdate {Op} _.
Arguments PPass {Op} _ _.

Section schedules.
Context `{Allocator} {Op : Type} (code : nat -> Op -> prog Z) (ok_call : Op -> Prop).
Implicit Types (P : pool Op).

Definition pstep (t : Z) P : option (pool Op) :=
  let 'Pool m σ cs h := P in
  match cs !! t with
  | Some (c, Act o k) =>
      match handle o m with
      | inl (r, m') =>
          match o with
          | Machine.Defer a =>
              match exec1 σ (Rcu.Defer t a) with
              | Some σ' => Some (Pool m' σ' (<[t := (c, k r)]> cs) h)
              | None => None
              end
          | _ => Some (Pool m' σ (<[t := (c, k r)]> cs) h)
          end
      | inr _ => None
      end
  | _ => None
  end.

Definition ppass (t : Z) P : option (pool Op) :=
  let 'Pool m σ cs h := P in
  match exec1 σ (Continue t) with
  | Some σ' =>
      match freed σ σ' with
      | Some x => match handle (Free x) m with inl (_, m') => Some (Pool m' σ' cs h) | inr _ => None end
      | None => Some (Pool m σ' cs h)
      end
  | None => None
  end.

(** Up to [k] steps, until the thread has none left. *)
Fixpoint upto_steps (f : pool Op -> option (pool Op)) (k : nat) P : pool Op :=
  match k with
  | O => P
  | Datatypes.S k => match f P with Some P' => upto_steps f k P' | None => P end
  end.

Definition pcmd1 (x : pcmd Op) P : option (pool Op) :=
  match x with
  | PCall t c o fuel =>
      let 'Pool m σ cs h := P in
      match pcs σ !! t, cs !! t with
      | Some Idle, None => if called c h then None else Some (Pool m σ (<[t := (c, code fuel o)]> cs) (h ++ [Call c o]))
      | _, _ => None
      end
  | PSteps t k => Some (upto_steps (pstep t) k P)
  | PReturn t =>
      let 'Pool m σ cs h := P in
      match cs !! t with Some (c, Ret v) => Some (Pool m σ (delete t cs) (h ++ [Return c v])) | _ => None end
  | PUpdate t =>
      let 'Pool m σ cs h := P in
      match cs !! t, exec1 σ (Update t) with None, Some σ' => Some (Pool m σ' cs h) | _, _ => None end
  | PPass t k => Some (upto_steps (ppass t) k P)
  end.

Fixpoint pplay (l : list (pcmd Op)) P : option (pool Op) :=
  match l with
  | [] => Some P
  | x :: l => match pcmd1 x P with Some P' => pplay l P' | None => None end
  end.

Lemma upto_steps_work f k P :
  (forall P P', f P = Some P' -> work code ok_call P P') -> rtc (work code ok_call) P (upto_steps f k P).
Proof.
  intros Hf. revert P. induction k as [|k IH]; intros P; simpl; [done|]. destruct (f P) eqn:E; [|done].
  eapply rtc_l; [by apply Hf|apply IH].
Qed.

Lemma pstep_work t P P' : pstep t P = Some P' -> work code ok_call P P'.
Proof.
  destruct P as [m σ cs h]. cbn [pstep]. destruct (cs !! t) as [[c [v|o k|e]]|] eqn:Ec; try done.
  destruct (handle o m) as [[r m']|] eqn:Eh; [|done]. destruct (is_defer o) eqn:Ed.
  - destruct o; try done. destruct (exec1 σ _) eqn:Ex; [|done]. intros [= <-]. by eapply work_defer.
  - intros E. assert (Some (Pool m' σ (<[t := (c, k r)]> cs) h) = Some P') as [= <-] by (by destruct o).
    by eapply work_act.
Qed.

Lemma ppass_work t P P' : ppass t P = Some P' -> work code ok_call P P'.
Proof.
  destruct P as [m σ cs h]. cbn [ppass]. destruct (exec1 σ _) as [σ'|] eqn:Ex; [|done].
  destruct (freed σ σ') as [x|] eqn:Ef; [|intros [= <-]; by eapply work_pass].
  destruct (handle (Free x) m) as [[r m']|] eqn:Eh; [|done]. intros [= <-]. by eapply work_free.
Qed.

Lemma pplay_work l P P' :
  Forall (fun x => match x with PCall _ _ o _ => ok_call o | _ => True end) l ->
  pplay l P = Some P' -> rtc (work code ok_call) P P'.
Proof.
  revert P. induction l as [|x l IH]; intros P Hok; cbn [pplay]; [by intros [= <-]|].
  apply Forall_cons in Hok as [Hx Hok]. destruct (pcmd1 x P) as [P1|] eqn:E; [|done]. intros Hl%IH; [|done].
  transitivity P1; [|done]. clear Hl IH Hok. destruct x as [t c o fuel|t k|t|t|t k]; cbn [pcmd1] in E.
  - destruct P as [m σ cs h]. destruct (pcs σ !! t) as [[]|] eqn:Ep; try done. destruct (cs !! t) eqn:Ec; [done|].
    destruct (called c h) eqn:Eh; [done|]. injection E as <-. apply rtc_once. apply work_call; [done..| |done].
    intros o' Hin. by rewrite (called_true _ _ _ Hin) in Eh.
  - injection E as <-. apply upto_steps_work, pstep_work.
  - destruct P as [m σ cs h]. destruct (cs !! t) as [[c [v|o k|e]]|] eqn:Ec; try done. injection E as <-.
    apply rtc_once. by apply work_return.
  - destruct P as [m σ cs h]. destruct (cs !! t) eqn:Ec; [done|]. destruct (exec1 σ _) eqn:Ex; [|done]. injection E as <-.
    apply rtc_once. by eapply work_update.
  - injection E as <-. apply upto_steps_work, ppass_work.
Qed.
End schedules.

(** The pool a schedule leads to. *)
Definition pool_run `{Allocator} {Op : Type} (code : nat -> Op -> prog Z) (l : list (pcmd Op)) (P : pool Op) : pool Op :=
  default P (pplay code l P).

Lemma pool_run_work `{Allocator} {Op : Type} (code : nat -> Op -> prog Z) (ok_call : Op -> Prop) l P :
  Forall (fun x => match x with PCall _ _ o _ => ok_call o | _ => True end) l ->
  bool_decide (is_Some (pplay code l P)) = true -> rtc (work code ok_call) P (pool_run code l P).
Proof.
  intros Hok Hs. eapply pplay_work; [exact Hok|]. unfold pool_run.
  destruct (pplay code l P) eqn:E; [done|]. by rewrite bool_decide_false in Hs by by intros [].
Qed.
