(* ===== verification/ListRcu.v ===== *)
(** The lock-free list of [map/list.c] on top of [runtime/rcu.c]: any number of
    threads that call [ll_lookup], [ll_cas], [ll_remove] and, between calls, [rcu_update],
    with every access to shared memory a step of its own. *)
From S2P Require Import Prelude Random Machine Rcu Datatype MapSpec.
From S2P Require Import LinkedList Linearize ListShape ListGhost ListLin ListConcurrent RcuPool.

Section list_rcu.
Context `{Allocator} (base : Z) (ll : list_t) (m0 : mem) (L0 : list lnode).
Context (Hrep : ll_rep base m0 ll L0) (Hclean : clean L0).

#[export] Instance list_reclaimable : Reclaimable (lcode ll) (lcall_ok base) m0.
Proof using Hrep Hclean.
  split.
  - intros h m ts fr Hr. by apply (reach_list base ll m0 L0 Hrep Hclean h m ts fr).
  - intros h m ts fr j a Hr Hj Ha Hf.
    destruct (reach_list base ll m0 L0 Hrep Hclean h m ts fr Hr) as (_ & w & <- & <- & Hw & _).
    by destruct (pends_block base ll m0 L0 w j a Hw) as (_ & ? & ?).
Qed.
End list_rcu.

(** C1: The list and the reclamation together. Whatever the threads do, no call touches
    freed memory, [rcu_update] frees no block twice and [rcu_defer_free] fails only
    when its queue is full; the history of the calls is linearizable, and the memory holds
    the list for the state it leads to. *)
Theorem list_rcu_correct `{Allocator} base ll m0 L0 n P :
  ll_rep base m0 ll L0 -> clean L0 -> rtc (work (lcode ll) (lcall_ok base)) (pool_start lop n m0) P ->
  ~ pool_stuck P /\
  exists E L, linearization lspec (abs L0) (p_history P) E /\
    ll_rep base (p_mem P) ll L /\ abs L = run_spec lspec (abs L0) E.
Proof.
  intros Hr Hc HP. split; [eapply pool_safe; [by eapply list_reclaimable|done]|].
  destruct (sim_works _ _ n m0 P HP) as (ts & fr & Hs).
  destruct (reach_list base ll m0 L0 Hr Hc _ _ _ _ (sm_reach _ _ _ _ _ _ _ Hs)) as (_ & w & Em & _ & Hw & Hlin & Habs).
  exists (lins (wlog w)), (lL w). split; [done|]. rewrite <- Em. split; [|done]. apply Hw.
Qed.

(** * A concrete execution

    Two threads. Thread 0 inserts and removes a key ten times, so that its queue is posted;
    thread 1 passes the position on between a lookup and another; thread 0 frees the ten
    nodes, and the node of the next key has the address of one that is freed. *)
Definition cr_round (i : nat) : list (pcmd lop) :=
  [PCall 0 (2 * i) (LCas 7 CAS_EXPECT_DOES_NOT_EXIST 77) 9; PSteps 0 30; PReturn 0;
   PCall 0 (2 * i + 1) (LRemove 7) 9; PSteps 0 30; PReturn 0].

Definition cr_schedule : list (pcmd lop) :=
  (seq 0 10 ≫= cr_round) ++
  [PCall 1 20 (LLookup 5) 9; PSteps 1 3; PUpdate 0; PPass 0 50; PSteps 1 30; PReturn 1; PUpdate 1; PPass 1 50;
   PCall 1 21 (LLookup 5) 9; PSteps 1 3; PUpdate 0; PPass 0 50; PCall 0 22 (LCas 9 CAS_EXPECT_WHATEVER 99) 9;
   PSteps 0 30; PReturn 0; PSteps 1 30; PReturn 1].

Definition cr_run : pool lop := pool_run (lcode cx_ll) cr_schedule (pool_start lop 2 cx_m).

Lemma cr_reach : rtc (work (lcode cx_ll) (lcall_ok 0)) (pool_start lop 2 cx_m) cr_run.
Proof.
  apply pool_run_work; [|by vm_compute]. unfold cr_schedule. apply Forall_app. split.
  - apply Forall_bind, Forall_forall. intros i _. unfold compose, cr_round, lcall_ok, key_window.
    rewrite !Forall_cons, Forall_nil. simpl. split_and!; done || lia.
  - rewrite !Forall_cons, Forall_nil. unfold lcall_ok, key_window. simpl. split_and!; done || lia.
Qed.

Lemma list_rcu_correct_witness :
  length (frees 0 (log (p_rcu cr_run))) = 10%nat /\ last (p_history cr_run) = Some (Return 21 50) /\
  ~ pool_stuck cr_run /\
  exists E L, linearization lspec {[5 := 50]} (p_history cr_run) E /\
    ll_rep 0 (p_mem cr_run) cx_ll L /\ abs L = run_spec lspec {[5 := 50]} E.
Proof.
  split; [by vm_compute|]. split; [by vm_compute|].
  exact (list_rcu_correct 0 cx_ll cx_m cx_L 2 cr_run cx_rep cx_clean cr_reach).
Defined.
