(* ===== verification/SkiplistRcu.v ===== *)
(** The lock-free skiplist of [map/skiplist.c] on top of [runtime/rcu.c]: an
    execution in which [sl_lookup] reads a node that [rcu_update] has freed.

    [sl_cas] links a node at its upper levels one after the other. A removal may mark the
    node, unlink it where it is linked, and hand it to [rcu_defer_free] before the next
    level is linked; the insertion notices the mark only after it has linked that
    level, and unlinks the node again. A lookup that begins in between, on a thread that has
    been in [rcu_update] since the removal, holds the node when it is freed. *)
From S2P Require Import Prelude Random Machine Rcu Datatype MapSpec SkipNodes Skiplist Linearize ListGhost RcuPool.

(** The calls of a skiplist. *)
Definition slcode (sl : skiplist_t) (fuel : nat) (o : lop) : prog Z :=
  match o with
  | LLookup k => sl_lookup fuel sl k
  | LCas k e v => sl_cas fuel sl k e v
  | LRemove k => sl_remove fuel sl k
  end.

(** The skiplist that [sl_alloc] returns first. *)
Definition sr_sl : skiplist_t := SL 8 64 None.

Definition sr_m : mem := match run (sl_alloc None) mem0 with Done _ m => m | _ => mem0 end.

(** Three threads. Thread 0 inserts and removes a key nine times. Thread 2 inserts 7 in a
    node of two levels and is suspended before it links the upper one; thread 0 removes
    7: its tenth block, so that its queue is posted to thread 1. Thread 1 passes
    the position on and begins a lookup; thread 2 links the upper level, thread 1 reads that
    link, thread 2 unlinks the node, returns and passes the position on, and
    thread 0 frees the node. *)
Definition sr_round (i : nat) : list (pcmd lop) :=
  [PCall 0 (2 * i) (LCas 5 CAS_EXPECT_DOES_NOT_EXIST 55) 9; PSteps 0 99; PReturn 0;
   PCall 0 (2 * i + 1) (LRemove 5) 9; PSteps 0 99; PReturn 0].

Definition sr_schedule : list (pcmd lop) :=
  (seq 0 9 ≫= sr_round) ++
  [PCall 2 18 (LCas 7 CAS_EXPECT_DOES_NOT_EXIST 77) 9; PSteps 2 19;
   PCall 0 19 (LRemove 7) 9; PSteps 0 99; PReturn 0; PUpdate 1; PPass 1 99;
   PCall 1 20 (LLookup 7) 9; PSteps 1 1; PSteps 2 1; PSteps 1 1;
   PSteps 2 99; PReturn 2; PUpdate 2; PPass 2 99; PUpdate 0; PPass 0 99].

Definition sr_run : pool lop := pool_run (slcode sr_sl) sr_schedule (pool_start lop 3 sr_m).

Lemma sr_reach : rtc (work (slcode sr_sl) (lcall_ok 0)) (pool_start lop 3 sr_m) sr_run.
Proof.
  apply pool_run_work; [|by vm_compute]. unfold sr_schedule. apply Forall_app. split.
  - apply Forall_bind, Forall_forall. intros i _. unfold compose, sr_round, lcall_ok, key_window.
    rewrite !Forall_cons, Forall_nil. simpl. split_and!; done || lia.
  - rewrite !Forall_cons, Forall_nil. unfold lcall_ok, key_window. simpl. split_and!; done || lia.
Qed.

(** C5: An insertion and a removal of the same key that overlap can make a
    lookup on a third thread read a node after [rcu_update] has freed it: from a new
    skiplist, with three threads that call rcu_update between their calls, an execution
    leads to a pool in which the lookup's next access is to a block that was freed. *)
Theorem sl_rcu_use_after_free : exists sl m0 P a,
  run (sl_alloc None) mem0 = Done sl m0 /\
  rtc (work (slcode sl) (lcall_ok 0)) (pool_start lop 3 m0) P /\
  loads P 1 = Some a /\ heap (p_mem P) !! a = None /\ a ∈ frees 0 (log (p_rcu P)) /\ pool_stuck P.
Proof.
  exists sr_sl, sr_m, sr_run, 144. split; [by vm_compute|]. split; [exact sr_reach|].
  assert (loads sr_run 1 = Some 144) as Hl by by vm_compute.
  assert (heap (p_mem sr_run) !! 144 = None) as Hh by by vm_compute.
  split; [done|]. split; [done|]. split.
  - apply (bool_decide_unpack _). by vm_compute.
  - by eapply loads_stuck.
Qed.
