(* ===== verification/Runtime.v ===== *)
(** Thread start-up, [runtime/runtime.c]: the identifiers of threads, and the
    initialisers of the components a thread uses. Threads that start one after the
    other get the state that [Rcu.v] begins with; two that start at the same time may
    get the same identifier, and one that starts while another is in [rcu_update] is
    left out of the grace period. *)
From S2P Require Import Prelude Random Machine Rcu Lwt Hazard MemAlloc.
From S2P Require Import Datatype MapSpec LinkedList Linearize ListGhost ListConcurrent RcuPool ListRcu.

(** [MaxThreadId], the thread-local [ThreadId] (0 until it is set) and generators, and
    the state of [lwt.c] and [rcu.c]. *)
Record runtime := Runtime {
  MaxThreadId : Z;
  ThreadId : gmap nat Z;
  rt_rng : gmap nat rng;
  rt_lwt : lwt_s;
  rt_rcu : rcu_t;
}.

Definition runtime_start : runtime := Runtime 0 ∅ ∅ lwt_init (Rcu 0 ∅ ∅ ∅).

(** The constructor: [rnd_init] creates the keys of the generators' variables. *)
Definition nbd_init : runtime * alloc_s := (runtime_start, mem_init).

(** [LOCALIZE_THREAD_LOCAL(ThreadId, int)] *)
Definition thread_id (s : runtime) (th : nat) : Z := default 0 (ThreadId s !! th).

(** [GET_THREAD_INDEX]; [None] when its assertion fails. *)
Definition GET_THREAD_INDEX (s : runtime) (th : nat) : option Z :=
  if thread_id s th =? 0 then None else Some (thread_id s th - 1).

(** [SET_THREAD_LOCAL(ThreadId, MaxThreadId); rnd_thread_init();], with the bytes [buf]
    read from /dev/urandom. *)
Definition set_thread_id (th : nat) (buf : list Z) (s : runtime) : option runtime :=
  match rnd_thread_init buf with
  | Some g => Some (Runtime (MaxThreadId s) (<[th := MaxThreadId s]> (ThreadId s)) (<[th := g]> (rt_rng s)) (rt_lwt s) (rt_rcu s))
  | None => None
  end.

(** [lwt_thread_init(); rcu_thread_init();] *)
Definition init_components (junk : list lwt_record_t) (th : nat) (s : runtime) : option runtime :=
  match GET_THREAD_INDEX s th with
  | Some t => Some (Runtime (MaxThreadId s) (ThreadId s) (rt_rng s) (lwt_thread_init junk t (rt_lwt s)) (rcu_thread_init t (rt_rcu s)))
  | None => None
  end.

(** The thread [th] starts; [None] when an assertion fails or the program exits. *)
Definition nbd_thread_init (junk : list lwt_record_t) (th : nat) (buf : list Z) (s : runtime) : option runtime :=
  if thread_id s th =? 0 then
    let s := Runtime (MaxThreadId s + 1) (ThreadId s) (rt_rng s) (rt_lwt s) (rt_rcu s) in
    if MaxThreadId s <=? Z.of_nat MAX_NUM_THREADS then
      match set_thread_id th buf s with Some s => init_components junk th s | None => None end
    else None
  else init_components junk th s.

(** The threads [l] start one after the other. *)
Fixpoint start_all (junk : list lwt_record_t) (buf : list Z) (l : list nat) (s : runtime) : option runtime :=
  match l with
  | [] => Some s
  | th :: l => match nbd_thread_init junk th buf s with Some s => start_all junk buf l s | None => None end
  end.

(** * One after the other *)

Lemma rcu_start_S k : rcu_thread_init (Z.of_nat k) (rcu_start k) = rcu_start (Datatypes.S k).
Proof.
  destruct (rcu_start_spec k 0) as (Hn & Hr & Hl & Hp). destruct (rcu_start_spec (Datatypes.S k) 0) as (Hn' & Hr' & Hl' & Hp').
  fold (rcu_start k) in *. fold (rcu_start (Datatypes.S k)) in *.
  destruct (rcu_start k) as [n r l p], (rcu_start (Datatypes.S k)) as [n' r' l' p'].
  simpl in Hn, Hr, Hl, Hp, Hn', Hr', Hl', Hp'. unfold rcu_thread_init. simpl.
  rewrite Hp, bool_decide_false by lia. f_equal; [lia|congruence|congruence|].
  apply map_eq. intros t. rewrite Hp', lookup_insert, Hp. repeat case_decide; repeat case_bool_decide; done || lia.
Qed.

(** The state after the threads [l] have started. *)
Record started (l : list nat) (s : runtime) : Prop := {
  sd_max : MaxThreadId s = Z.of_nat (length l);
  sd_id i th : l !! i = Some th -> thread_id s th = Z.of_nat i + 1;
  sd_new th : th ∉ l -> thread_id s th = 0;
  sd_rng th : th ∈ l -> is_Some (rt_rng s !! th);
  sd_trace t : is_Some (TraceBuffer (rt_lwt s) !! t) <-> 0 <= t < Z.of_nat (length l);
  sd_rcu : rt_rcu s = rcu_start (length l);
}.

Lemma started_start : started [] runtime_start.
Proof.
  split; simpl; try done.
  - by intros th ?%not_elem_of_nil.
  - intros t. rewrite lookup_empty. split; [by intros []|lia].
Qed.
Section start.
Context (junk : list lwt_record_t) (buf : list Z) (Hbuf : length buf = 16%nat).

Lemma started_step l s th : started l s -> th ∉ l -> (length l < MAX_NUM_THREADS)%nat ->
  exists s', nbd_thread_init junk th buf s = Some s' /\ started (l ++ [th]) s'.
Proof using Hbuf.
  intros [H1 H2 H3 H4 H5 H6] Hn Hlen. unfold nbd_thread_init. rewrite (H3 th Hn). simpl.
  rewrite (proj2 (Z.leb_le _ _)) by lia. unfold set_thread_id, rnd_thread_init. rewrite Hbuf. simpl.
  unfold init_components, GET_THREAD_INDEX, thread_id. simpl. rewrite lookup_insert_eq. simpl.
  rewrite (proj2 (Z.eqb_neq _ _)) by lia. eexists. split; [done|].
  assert (forall th', th' <> th -> forall m, default 0 (<[th := m]> (ThreadId s) !! th') = thread_id s th') as Hne.
  { intros th' Hth m. unfold thread_id. by rewrite lookup_insert_ne. }
  split; simpl.
  - rewrite length_app. simpl. lia.
  - intros i th' Hi. unfold thread_id. simpl. apply lookup_app_Some in Hi as [Hi|[Hle Hi]].
    + rewrite Hne; [by apply H2|]. intros ->. apply Hn. by eapply list_elem_of_lookup_2.
    + apply list_lookup_singleton_Some in Hi as [Hi <-]. rewrite lookup_insert_eq. simpl. lia.
  - intros th' Hth. unfold thread_id. simpl. rewrite Hne; [apply H3; set_solver|set_solver].
  - intros th' [?|?%list_elem_of_singleton]%elem_of_app; [|subst; rewrite lookup_insert_eq; by eexists].
    destruct (decide (th' = th)) as [->|]; [rewrite lookup_insert_eq; by eexists|]. rewrite lookup_insert_ne by done. by apply H4.
  - intros t. rewrite length_app. simpl. unfold lwt_thread_init.
    replace (MaxThreadId s + 1 - 1) with (Z.of_nat (length l)) by lia.
    destruct (TraceBuffer (rt_lwt s) !! Z.of_nat (length l)) eqn:E.
    { exfalso. assert (is_Some (TraceBuffer (rt_lwt s) !! Z.of_nat (length l))) as ?%H5 by (by eexists). lia. }
    simpl. rewrite lookup_insert. case_decide.
    + subst t. split; [lia|by eexists].
    + rewrite H5. lia.
  - rewrite H6, length_app. replace (MaxThreadId s + 1 - 1) with (Z.of_nat (length l)) by lia.
    simpl. rewrite Nat.add_1_r. apply rcu_start_S.
Qed.

Lemma start_all_started l1 l2 s : started l1 s -> NoDup (l1 ++ l2) -> (length (l1 ++ l2) <= MAX_NUM_THREADS)%nat ->
  exists s', start_all junk buf l2 s = Some s' /\ started (l1 ++ l2) s'.
Proof using Hbuf.
  revert l1 s. induction l2 as [|th l2 IH]; intros l1 s Hs Hnd Hlen; [exists s; by rewrite app_nil_r|].
  destruct (started_step l1 s th Hs) as (s' & E & Hs').
  - apply NoDup_app in Hnd as (_ & Hd & _). intros Hin. apply (Hd th Hin). by left.
  - rewrite length_app in Hlen. simpl in Hlen. lia.
  - simpl. rewrite E. destruct (IH (l1 ++ [th]) s' Hs') as (s2 & E2 & Hs2); [by rewrite <- app_assoc..|].
    exists s2. rewrite <- app_assoc in Hs2. done.
Qed.

End start.

(** C18: Threads that start one after the other, at most 32 of them, get the indices
    0, 1, 2, ...; their trace buffers and queues are there, and the state of
    rcu.c is the one its theorems begin with. Another call changes nothing, and
    a thread too many fails the assertion. *)
Theorem threads_started (junk : list lwt_record_t) (buf : list Z) (l : list nat) :
  length buf = 16%nat -> NoDup l -> (length l <= MAX_NUM_THREADS)%nat ->
  exists s, start_all junk buf l runtime_start = Some s /\
    (forall i th, l !! i = Some th -> GET_THREAD_INDEX s th = Some (Z.of_nat i)) /\
    (forall t, is_Some (TraceBuffer (rt_lwt s) !! t) <-> 0 <= t < Z.of_nat (length l)) /\
    rt_rcu s = rcu_start (length l) /\
    (forall th, th ∈ l -> nbd_thread_init junk th buf s = Some s) /\
    (length l = MAX_NUM_THREADS -> forall th, th ∉ l -> nbd_thread_init junk th buf s = None).
Proof.
  intros Hb Hnd Hlen. destruct (start_all_started junk buf Hb [] l _ started_start Hnd Hlen) as (s & E & [H1 H2 H3 H4 H5 H6]).
  assert (forall i th, l !! i = Some th -> GET_THREAD_INDEX s th = Some (Z.of_nat i)) as Hidx.
  { intros i th Hi. unfold GET_THREAD_INDEX. rewrite (H2 i th Hi), (proj2 (Z.eqb_neq _ _)) by lia. f_equal. lia. }
  exists s. split; [done|]. split; [done|]. split; [done|]. split; [done|]. split.
  - intros th (i & Hi)%list_elem_of_lookup. unfold nbd_thread_init. rewrite (H2 i th Hi), (proj2 (Z.eqb_neq _ _)) by lia.
    unfold init_components. rewrite (Hidx i th Hi). destruct s as [mx ids rs [h tb tl] rc]. simpl in *.
    pose proof (lookup_lt_Some _ _ _ Hi). unfold lwt_thread_init. simpl.
    destruct (proj2 (H5 (Z.of_nat i))) as [b ->]; [lia|]. do 2 f_equal.
    destruct (rcu_start_spec (length l) 0) as (_ & _ & _ & Hp). rewrite H6.
    unfold rcu_thread_init, rcu_start in *. by rewrite Hp, bool_decide_true by lia.
  - intros Hm th Hn. unfold nbd_thread_init. rewrite (H3 th Hn). cbn [Z.eqb MaxThreadId].
    rewrite H1. cbn [app]. by rewrite Hm.
Qed.

Lemma threads_started_witness : exists s, start_all [] (repeat 7 16) (seq 0 32) runtime_start = Some s /\
  GET_THREAD_INDEX s 31 = Some 31 /\ rt_rcu s = rcu_start 32 /\ nbd_thread_init [] 32 (repeat 7 16) s = None.
Proof.
  destruct (threads_started [] (repeat 7 16) (seq 0 32)) as (s & E & Hi & _ & Hr & _ & Hn); [done|apply NoDup_seq|done|].
  exists s. split; [done|]. split; [apply (Hi 31%nat); done|]. split; [exact Hr|]. apply Hn; [done|].
  rewrite elem_of_seq. lia.
Defined.

(** * At the same time

    [++MaxThreadId] is a load and a store, the assertion and [SET_THREAD_LOCAL] load the
    variable again, and [rcu_thread_init] tests [pending_] before it adds to
    [num_threads_]. Where a thread is in its call of [nbd_thread_init]: *)
Inductive start_pc : Type :=
  | SBegin | SStore (x : Z) | SAssert | SSet | STrace | STest | SQueue (t : Z) | SCount | SDone.

Definition set_max (x : Z) (s : runtime) : runtime := Runtime x (ThreadId s) (rt_rng s) (rt_lwt s) (rt_rcu s).
Definition set_rcu (r : rcu_t) (s : runtime) : runtime := Runtime (MaxThreadId s) (ThreadId s) (rt_rng s) (rt_lwt s) r.

(** The next access of thread [th] to the shared variables. *)
Definition start_step (junk : list lwt_record_t) (buf : list Z) (th : nat) (pc : start_pc) (s : runtime) :
    option (start_pc * runtime) :=
  match pc with
  | SBegin => Some (if thread_id s th =? 0 then SStore (MaxThreadId s) else STrace, s)
  | SStore x => Some (SAssert, set_max (x + 1) s)
  | SAssert => if MaxThreadId s <=? Z.of_nat MAX_NUM_THREADS then Some (SSet, s) else None
  | SSet => match set_thread_id th buf s with Some s => Some (STrace, s) | None => None end
  | STrace =>
      match GET_THREAD_INDEX s th with
      | Some t => Some (STest, Runtime (MaxThreadId s) (ThreadId s) (rt_rng s) (lwt_thread_init junk t (rt_lwt s)) (rt_rcu s))
      | None => None
      end
  | STest =>
      match GET_THREAD_INDEX s th with
      | Some t => Some (match pending_ (rt_rcu s) !! t with None => SQueue t | Some _ => SDone end, s)
      | None => None
      end
  | SQueue t =>
      let r := rt_rcu s in
      Some (SCount, set_rcu (Rcu (num_threads_ r) (rcu_ r) (rcu_last_posted_ r) (<[t := fifo_alloc RCU_QUEUE_SCALE]> (pending_ r))) s)
  | SCount =>
      let r := rt_rcu s in
      Some (SDone, set_rcu (Rcu (num_threads_ r + 1) (rcu_ r) (rcu_last_posted_ r) (pending_ r)) s)
  | SDone => None
  end.

(** Any thread takes its next step. *)
Inductive starting (junk : list lwt_record_t) (buf : list Z) : gmap nat start_pc * runtime -> gmap nat start_pc * runtime -> Prop :=
  | starting_step pcs s th pc pc' s' :
      pcs !! th = Some pc -> start_step junk buf th pc s = Some (pc', s') ->
      starting junk buf (pcs, s) (<[th := pc']> pcs, s').

Section starting.
Context (junk : list lwt_record_t) (buf : list Z).

Lemma starting_next pcs s th pc pc' s' x : pcs !! th = Some pc -> start_step junk buf th pc s = Some (pc', s') ->
  rtc (starting junk buf) (<[th := pc']> pcs, s') x -> rtc (starting junk buf) (pcs, s) x.
Proof. intros. eapply rtc_l; [by econstructor|done]. Qed.

(** A thread that starts alone does what [nbd_thread_init] does. *)
Lemma nbd_thread_init_starting pcs s th s' : pcs !! th = Some SBegin -> nbd_thread_init junk th buf s = Some s' ->
  rtc (starting junk buf) (pcs, s) (<[th := SDone]> pcs, s').
Proof.
  assert (forall pcs s, pcs !! th = Some STrace -> init_components junk th s = Some s' ->
    rtc (starting junk buf) (pcs, s) (<[th := SDone]> pcs, s')) as Hc.
  { clear. intros pcs s Hp Hs. unfold init_components in Hs. destruct (GET_THREAD_INDEX s th) as [t|] eqn:E; [|done].
    injection Hs as <-. eapply starting_next; [done|simpl; by rewrite E|].
    eapply starting_next; [apply lookup_insert_eq|cbn [start_step]; unfold GET_THREAD_INDEX, thread_id in *; cbn [ThreadId]; by rewrite E|].
    unfold rcu_thread_init. cbn. rewrite insert_insert_eq. destruct (pending_ (rt_rcu s) !! t) as [q|]; [done|].
    eapply starting_next; [apply lookup_insert_eq|done|]. rewrite insert_insert_eq.
    eapply starting_next; [apply lookup_insert_eq|done|]. by rewrite insert_insert_eq. }
  intros Hp Hs. unfold nbd_thread_init in Hs.
  destruct (thread_id s th =? 0) eqn:E0; [|eapply starting_next; [done|simpl; by rewrite E0|]].
  2: { rewrite <- (insert_insert_eq pcs th SDone STrace). apply Hc; [apply lookup_insert_eq|done]. }
  cbn [MaxThreadId] in Hs. destruct (MaxThreadId s + 1 <=? _) eqn:E1; [|done]. destruct (set_thread_id _ _ _) as [s1|] eqn:E2; [|done].
  eapply starting_next; [done|simpl; by rewrite E0|].
  eapply starting_next; [apply lookup_insert_eq|done|]. rewrite insert_insert_eq.
  eapply starting_next; [apply lookup_insert_eq|simpl; by rewrite E1|]. rewrite insert_insert_eq.
  eapply starting_next; [apply lookup_insert_eq|cbn [start_step]; unfold set_max; by rewrite E2|]. rewrite insert_insert_eq.
  rewrite <- (insert_insert_eq pcs th SDone STrace). apply Hc; [apply lookup_insert_eq|done].
Qed.

(** The threads take the steps of a schedule. *)
Fixpoint start_play (l : list nat) (x : gmap nat start_pc * runtime) : option (gmap nat start_pc * runtime) :=
  match l with
  | [] => Some x
  | th :: l =>
      match x.1 !! th with
      | Some pc => match start_step junk buf th pc x.2 with Some (pc', s) => start_play l (<[th := pc']> x.1, s) | None => None end
      | None => None
      end
  end.

Lemma start_play_starting l x y : start_play l x = Some y -> rtc (starting junk buf) x y.
Proof.
  revert x. induction l as [|th l IH]; intros [pcs s]; simpl; [by intros [= ->]|].
  destruct (pcs !! th) as [pc|] eqn:E; [|done]. destruct (start_step junk buf th pc s) as [[pc' s']|] eqn:Es; [|done].
  intros Hl%IH. by eapply starting_next.
Qed.
End starting.

Definition two_pcs (pc : start_pc) : gmap nat start_pc := <[0%nat := pc]> {[1%nat := pc]}.

Definition race_of (sched : list nat) : gmap nat start_pc * runtime :=
  default (two_pcs SBegin, runtime_start) (start_play [] (repeat 7 16) sched (two_pcs SBegin, runtime_start)).

Lemma race_reach l :
  bool_decide (is_Some (start_play [] (repeat 7 16) l (two_pcs SBegin, runtime_start))) = true -> (race_of l).1 = two_pcs SDone ->
  rtc (starting [] (repeat 7 16)) (two_pcs SBegin, runtime_start) (two_pcs SDone, (race_of l).2).
Proof.
  intros Hs Hl. rewrite <- Hl, <- surjective_pairing. apply (start_play_starting _ _ l). unfold race_of.
  destruct (start_play _ _ _ _); [done|]. by rewrite bool_decide_false in Hs by by intros [].
Qed.

(** C19: Two threads that start at the same time can get the same index, and then
    share a queue. They may be counted once, so that [rcu_update] posts to the thread
    itself and waits for nobody, or twice, so that it posts to a thread that has no queue
    and that nobody is. *)
Theorem thread_start_race : exists s1 s2,
  rtc (starting [] (repeat 7 16)) (two_pcs SBegin, runtime_start) (two_pcs SDone, s1) /\
  rtc (starting [] (repeat 7 16)) (two_pcs SBegin, runtime_start) (two_pcs SDone, s2) /\
  (forall s, s = s1 \/ s = s2 -> GET_THREAD_INDEX s 0 = Some 0 /\ GET_THREAD_INDEX s 1 = Some 0) /\
  num_threads_ (rt_rcu s1) = 1 /\ next_index (rt_rcu s1) 0 = 0 /\
  num_threads_ (rt_rcu s2) = 2 /\ pending_ (rt_rcu s2) !! next_index (rt_rcu s2) 0 = None.
Proof.
  exists (race_of [0; 1; 0; 1; 0; 0; 0; 0; 0; 0; 1; 1; 1; 1])%nat.2, (race_of [0; 1; 0; 1; 0; 1; 0; 1; 0; 1; 0; 1; 0; 0; 1; 1])%nat.2.
  split; [apply race_reach; by vm_compute|]. split; [apply race_reach; by vm_compute|].
  split; [by intros s [->| ->]; vm_compute|]. by vm_compute.
Qed.

(** * While the others run *)

(** Thread [t] calls [rcu_thread_init] and is then between two calls. *)
Definition rcu_join {Op : Type} (t : Z) (P : pool Op) : pool Op :=
  let 'Pool m σ cs h := P in Pool m (Cfg (rcu_thread_init t (st σ)) (<[t := Idle]> (pcs σ)) (log σ)) cs h.

(** Thread 0 retires nine nodes and thread 1 has begun [rcu_update]. *)
Definition join_before : list (pcmd lop) := (seq 0 9 ≫= cr_round) ++ [PUpdate 1].

(** Thread 2, which has joined, reads the link to the node of 5; thread 0 removes the node, its tenth block;
    thread 1 goes on and thread 0 frees the blocks. *)
Definition join_after : list (pcmd lop) :=
  [PCall 2 18 (LLookup 5) 9; PSteps 2 1; PCall 0 19 (LRemove 5) 9; PSteps 0 30; PReturn 0; PPass 1 99; PUpdate 0; PPass 0 99].

Definition join_run1 : pool lop := pool_run (lcode cx_ll) join_before (pool_start lop 2 cx_m).
Definition join_run2 : pool lop := pool_run (lcode cx_ll) join_after (rcu_join 2 join_run1).

Lemma join_reach1 : rtc (work (lcode cx_ll) (lcall_ok 0)) (pool_start lop 2 cx_m) join_run1.
Proof.
  apply pool_run_work; [|by vm_compute]. unfold join_before. apply Forall_app. split.
  - apply Forall_bind, Forall_forall. intros i _. unfold compose, cr_round, lcall_ok, key_window.
    rewrite !Forall_cons, Forall_nil. simpl. split_and!; done || lia.
  - rewrite !Forall_cons, Forall_nil. done.
Qed.

Lemma join_reach2 : rtc (work (lcode cx_ll) (lcall_ok 0)) (rcu_join 2 join_run1) join_run2.
Proof.
  apply pool_run_work; [|by vm_compute]. unfold join_after, lcall_ok, key_window.
  rewrite !Forall_cons, Forall_nil. simpl. split_and!; done || lia.
Qed.

(** C17: A thread that starts while another is in [rcu_update] is not waited for. That thread
    has computed the index it posts to from the old number of threads, so that it skips the new
    one: the list, which is safe with the threads that [list_rcu_correct] starts with, lets the new
    thread's lookup read a node that has been freed. *)
Theorem rcu_join_unsafe : exists P1 P2 a,
  rtc (work (lcode cx_ll) (lcall_ok 0)) (pool_start lop 2 cx_m) P1 /\
  pcs (p_rcu P1) !! 2 = None /\ pcs (p_rcu P1) !! 1 = Some (Posting 0 0) /\
  rtc (work (lcode cx_ll) (lcall_ok 0)) (rcu_join 2 P1) P2 /\
  loads P2 2 = Some a /\ a ∈ frees 0 (log (p_rcu P2)) /\ pool_stuck P2.
Proof.
  exists join_run1, join_run2, 16. split; [exact join_reach1|]. split; [by vm_compute|]. split; [by vm_compute|].
  split; [exact join_reach2|]. assert (loads join_run2 2 = Some 16) as Hl by by vm_compute.
  split; [done|]. split; [apply (bool_decide_unpack _); by vm_compute|].
  eapply loads_stuck; [done|by vm_compute].
Qed.

(** * Hazard pointers

    [hazard.c] indexes its array of [MAX_NUM_THREADS] entries with [ThreadId], which counts from 1. *)

(** C40: The last of 32 threads has no entry in [haz_local_]: [haz_defer_free],
    [haz_register_dynamic], [haz_unregister_dynamic] and [haz_set] on a static hazard pointer
    access memory past the end of the array; the first entry is no thread's. *)
Theorem haz_last_thread junk buf l :
  length buf = 16%nat -> NoDup l -> length l = MAX_NUM_THREADS ->
  exists s th, start_all junk buf l runtime_start = Some s /\ th ∈ l /\
    (forall th', th' ∈ l -> 1 <= thread_id s th' <= 32) /\
    forall hz d f fuel hj, length (haz_local_ hz) = MAX_NUM_THREADS -> d <> 0 -> f <> 0 ->
      haz_defer_free hj (Datatypes.S fuel) (Z.to_nat (thread_id s th)) d f hz = inr SegFault /\
      haz_register_dynamic hj (Z.to_nat (thread_id s th)) d hz = inr SegFault /\
      haz_unregister_dynamic (Z.to_nat (thread_id s th)) d hz = inr SegFault /\
      haz_set_static (Z.to_nat (thread_id s th), 0%nat) d hz = inr SegFault.
Proof.
  intros Hb Hnd Hlen. destruct (start_all_started junk buf Hb [] l _ started_start Hnd) as (s & E & [H1 H2 H3 H4 H5 H6]).
  { simpl. lia. }
  destruct (lookup_lt_is_Some_2 l 31) as [th Hth]; [rewrite Hlen; unfold MAX_NUM_THREADS; lia|].
  exists s, th. split; [done|]. split; [by eapply list_elem_of_lookup_2|]. split.
  - intros th' (i & Hi)%list_elem_of_lookup. rewrite (H2 i th' Hi). apply lookup_lt_Some in Hi. rewrite Hlen in Hi.
    unfold MAX_NUM_THREADS in Hi. lia.
  - intros hz d f fuel hj Hhz Hd Hf. rewrite (H2 31%nat th Hth). change (Z.to_nat _) with 32%nat.
    assert (haz_local_ hz !! 32%nat = None) as Hn by (apply lookup_ge_None_2; rewrite Hhz; done).
    cbn [haz_defer_free]. unfold haz_register_dynamic, haz_unregister_dynamic, haz_set_static, get_local. rewrite Hn.
    rewrite (proj2 (Z.eqb_neq d 0)), (proj2 (Z.eqb_neq f 0)) by done. split_and!; simpl; rewrite ?Hn; reflexivity.
Qed.

Lemma haz_last_thread_witness : exists s th, start_all [] (repeat 7 16) (seq 0 32) runtime_start = Some s /\
  haz_defer_free junk0 1 (Z.to_nat (thread_id s th)) 1000 1 haz_init = inr SegFault.
Proof.
  destruct (haz_last_thread [] (repeat 7 16) (seq 0 32)) as (s & th & E & _ & _ & Hz); [done|apply NoDup_seq|done|].
  exists s, th. split; [exact E|]. by apply (Hz haz_init 1000 1 0%nat junk0).
Defined.
